(* ===== verification/_CoqProject ===== *)
-Q . S2P
Prelude.v
Endian.v
Buffer.v
BufferProps.v
FixedBuffer.v
LogStream.v
Timestamp.v
LogProps.v
OldLogStream.v
Logging.v
LogFile.v
Slice.v
Thread.v
AsyncLogging.v
AsyncFile.v
TimerQueue.v
TimerInv.v
TimerProps.v
TimerLiveness.v
Channel.v
Poller.v
PollPoller.v
EPollPoller.v
ReactorProps.v
Dispatch.v
EventLoop.v
EventLoopProps.v
EarlierReactor.v
EventLoopThread.v
TcpConnection.v
TcpProps.v
TcpPair.v
Connector.v
ConnectorLife.v
Sockets.v
Acceptor.v
SocketCalls.v
TcpServer.v
ServerSystem.v
ServerProps.v
ServerRest.v
ClientSystem.v
ClientInv.v
ClientProps.v
Codec.v
QueryExample.v
CodecTests.v
TestPrograms.v
TimingWheel.v
IdleList.v
ThreadLocal.v
CopyOnWrite.v
Inventory.v
