(* ===== verification/Prelude.v ===== *)
(** * A verification development for LearningMuduo

    The repository is a study of the muduo network library: a reactor (an event loop per
    thread over [poll] or [epoll]), timers, TCP connections, servers and clients on top of
    it, an asynchronous logger beside it, and programs and exercises that use it (a protobuf
    codec, servers that close idle connections, thread-local singletons, copy-on-write).
    This library models that code file by file and proves what makes it correct, or where it
    is not, what exactly goes wrong.

    ** The program's parts and their models

    - Bytes and text.  [Endian] ([socket.muduo/Endian.h]: byte order), [Buffer] and
      [BufferProps] ([tcp.muduo/Buffer.h], [Buffer.cpp]: the vector with two indices, and
      that it refines a queue of bytes with headroom), [Slice] ([common/Slice.h]),
      [FixedBuffer] (both versions of the log buffer), [LogStream] and [LogProps] (number
      formatting and [operator<<]), [OldLogStream] (the earlier stream, [logging/]),
      [Timestamp] ([TimerQueue.muduo/Timestamp]: arithmetic, texts and the calendar).
    - Logging.  [Logging] (one log statement), [LogFile] ([AppendFile], [LogFile]: writing,
      flushing, rolling), [AsyncLogging] (front end and logging thread).  A statement's line
      goes through [LogStream] into a [FixedBuffer]; [AsyncLogging] collects such lines in
      larger buffers that its thread writes with [LogFile]; [AsyncFile] puts the two together.
    - Threads.  [Thread] ([port/], [thread.muduo/]: mutex, condition variable, thread
      start), [EventLoopThread] (a thread with a loop, and the pool of them).
    - The reactor.  [Channel] (events and dispatch), [Poller] (the interface of the pollers
      as the classes [Poller] and [PollerLaws], with the loop's calls proved against it),
      [PollPoller] and [EPollPoller] (the two instances), [ReactorProps] (a channel's life
      over either), [Dispatch] (a turn of the loop over either: callbacks that make, close
      and delete channels while the reported ones are handled), [EventLoop] and
      [EventLoopProps] (the loop with functors, wake-ups and other threads), [EarlierReactor]
      (the copies under [issues/test_timestamp], where they differ and where they do not).
    - Timers.  [TimerQueue] (the code), [TimerInv] (its invariant and what each operation
      does), [TimerProps] (what it promises), [TimerLiveness] (the queue and its timerfd over
      time).
    - TCP.  [Sockets] (addresses, socket calls, atomics), [SocketCalls] (the wrappers as the
      system calls they make, and an acceptor's life over them), [Acceptor],
      [Connector] and [ConnectorLife] (connecting once, and starting, stopping and
      restarting), [TcpConnection] and [TcpProps], [TcpPair] (two connections that talk to
      each other), [TcpServer] (servers and clients), [ServerSystem], [ServerProps] and
      [ServerRest] (a server with its connections as shared objects, the functors that pass
      between the loops of its pool, who keeps a connection alive, and that the functors run
      out), [ClientSystem], [ClientInv] and [ClientProps] (a client with its connector, its
      connections and the functors and timers that hold them, up to its destructor).  In both
      a loop has the vector that [doPendingFunctors] swapped out beside the one that is filled:
      it calls the functors one by one, and what they are bound to is let go with the last.
    - Programs on top.  [Codec] ([protobuf/]: both codecs and both dispatchers),
      [CodecTests] (their tests, and for which messages they pass), [QueryExample] (the query server and
      client over them), [TestPrograms] (the buffer's test and a character generator), [TimingWheel] and [IdleList]
      ([idleconnection/]: the two ways of closing idle connections), [ThreadLocal] ([base/]:
      the thread-local singletons), [CopyOnWrite] and [Inventory] ([ch2/]: a list shared by
      threads, and two classes whose mutexes are taken together).

    The modules depend on each other as the classes do.  A component that calls another
    either runs its model in a field of its own state ([zoom]: the buffers and the channel
    of [TcpConnection], the pool of [TcpServer]), is proved against a class that states what
    the other promises ([Poller], [PollerPoll]), or records its calls as values that the other's model
    takes as input (functors, calls of [output.append], calls on a connection).

    ** Conventions

    State is a record per class; a method is a function in the state-and-fault monad [M] of
    this file.  A fault is a failed [assert], a fatal log statement, an uncaught exception or
    undefined behaviour, so that a theorem that a run ends in [Ok] also says that none of
    these happened.  Machine integers are [Z] with the wrap-around written out ([u8] to
    [u64], [s8] to [s64]); [size_t] is 64 bits wide, the host little-endian.  Objects that
    are shared or freed (timers, channels) live in heaps of addresses.  Threads are
    interleaved steps, where a critical section of a mutex is one step; schedules are
    relations or lists of steps, and the theorems hold for all of them.  Callbacks of users
    are arbitrary lists of calls on the component.  System calls and libraries are
    parameters: arguments, or classes with the documented laws and an instance.  The programs
    under [protobuf/] and [idleconnection/] include the muduo library that the rest of the
    repository rewrites; its connections are taken to be those of [TcpConnection].

    ** What the theorems show

    - Refinement and functional correctness: the buffer is a queue of bytes
      ([Buffer_refines_queue]); the wire carries what was sent ([TcpConnection_stream],
      [tcp_pair], [codec_stream], [query_exchange]); the log files hold the accepted messages, in order
      ([AsyncLogging_order], [LogFile_append], [async_log_files]: as long as files open, writes
      are not short and the backlog stays within 25 buffers); idle connections are closed
      exactly when their time is up ([timing_wheel_exact], and [idle_list_exact] where the
      stamps do not go backwards); readers of a copy-on-write list see one version of it
      ([copy_on_write]).
    - Safety: no failed assertion and no use after free ([TimerQueue_safe],
      [channel_lifecycle], [reactor_turn], [server_system], [client_system],
      [acceptor_life], [Connector_single_start], [connector_life], [tls_lifetime]); no deadlock and no unlocked
      access ([inventory_deadlock_free]); states only move forward
      ([TcpConnection_life]); tables and interest lists stay in step ([EPollPoller_interest],
      [TcpServer_connections]); dispatching is well typed ([dispatchers_typed]).  Where the
      code leaves its users to do the right thing, what is asked of them is a definition:
      [polite] and [client_polite] (whose calls come while the server or client has the
      connection, and when a client may connect and be destroyed), [fair_user] (channels are
      used as the pollers allow).
    - Liveness and termination: no lost wake-up once the loop runs ([EventLoop_no_lost_wakeup]), every iteration
      ends ([EventLoop_iteration]), every timer that is not cancelled runs, after a bounded
      number of wake-ups ([timer_runs]), threads on the inventory finish
      ([inventory_completes]), a server comes to rest and then
      keeps no connection but those of its table ([server_comes_to_rest]), number formatting ends within its digits
      ([LogStream_integers]).
    - Functional behaviour on every branch: sending, accepting, expiring and cancelling
      timers, reading into a buffer, log statements, dispatching of events.
    - Round trips and bounds: times and their texts, integers on the wire, encoded messages,
      damaged ones ([codec_tests_pass]), the room in both log buffers ([FixedBuffer_append_exact], [old_stream_exact]).
    - Where the code fails: a theorem each for the defects that modelling showed (a channel
      that is never written again, [disableReading] that enables, a parked channel, lost
      quits, functors queued too early ([early_functor_waits]), truncated integers, a codec that
      never resynchronises, calls that outlive their connection ([late_call_dangles]), bytes
      given up by a late [shutdown] ([shutdown_after_close]), clients used at the wrong moment
      ([client_accidents]), an idle list out of order ([stale_message]), races), listed with
      their lines in the manifest.

    ** Fuel and bounds

    [LogStream.convert_loop] takes 20 turns and [convertHex_loop] 16, the digits a 64-bit
    integer can have, and both are proved to end within them; [Codec.onMessage_loop] takes as
    many turns as the buffer has bytes, and every turn takes at least 14 off.
    [EventLoop.advance] has no fuel: runs are relations, and an iteration's end is proved.
    Theorems about times assume a clock below 2^61 microseconds and intervals and expirations
    within the arithmetic of [int64_t], theorems about buffers that the memory does not run
    out ([max_size]).  In [ClientSystem] a connection has no events before the functor that
    resets its connector's channel has run, and the one-second timer of [~TcpClient()] goes
    off when the connector's functors have run, as the loop's order and the delays have it.

    ** Not modelled, and why

    Generated protobuf classes and vendored leveldb code; test programs that only print, and the
    command lines of [main]; casts between address types, and statements that only log; the versions of the
    inventory in [ch2/] that do not compile (from line 73 of [2.8.cpp], and [2.8.2.cpp]). *)
From Stdlib Require Export ZArith Lia.
From Stdlib Require Export Strings.Byte.
From stdpp Require Export base numbers option list gmap relations.

#[global] Open Scope Z_scope.

(** * Faults *)

(** How a run of the C++ program can stop abnormally: a failed [assert], the
    [abort()] a [LOG_FATAL] statement ends in, an uncaught C++ exception, or
    undefined behaviour (an access outside an object, a use after free). *)
Inductive fault := AssertFail | FatalLog | Throw | UB.

Inductive res (A : Type) :=
| Ok (a : A)
| Fault (f : fault).
Arguments Ok {A} a.
Arguments Fault {A} f.

#[export] Instance fault_eq_dec : EqDecision fault.
Proof. solve_decision. Defined.

#[export] Instance res_eq_dec {A} `{EqDecision A} : EqDecision (res A).
Proof. solve_decision. Defined.

Definition is_ok {A} (r : res A) : bool :=
  match r with Ok _ => true | Fault _ => false end.

(** * The state and fault monad *)

(** A method of an object (or of a group of objects) with state [S]: it returns
    a value and the new state, or a fault. *)
Definition M (S A : Type) : Type := S -> res (A * S).

#[export] Instance M_ret {S} : MRet (M S) := λ A a s, Ok (a, s).
#[export] Instance M_bind {S} : MBind (M S) := λ A B k m s,
  match m s with
  | Ok (a, s') => k a s'
  | Fault f => Fault f
  end.

Definition get {S} : M S S := λ s, Ok (s, s).
Definition gets {S A} (f : S -> A) : M S A := λ s, Ok (f s, s).
Definition put {S} (s : S) : M S unit := λ _, Ok (tt, s).
Definition modify {S} (f : S -> S) : M S unit := λ s, Ok (tt, f s).
Definition fail {S A} (f : fault) : M S A := λ _, Fault f.

(** [assert(b)] of a build without [NDEBUG]. *)
Definition assert {S} (b : bool) : M S unit :=
  if b then mret tt else fail AssertFail.

(** A C++ [if] without an [else]. *)
Definition when {S} (b : bool) (m : M S unit) : M S unit :=
  if b then m else mret tt.

(** A lookup that the source performs without a check. *)
Definition of_option {S A} (f : fault) (o : option A) : M S A :=
  match o with Some a => mret a | None => fail f end.

Fixpoint mapM_ {S A} (f : A -> M S unit) (l : list A) : M S unit :=
  match l with
  | [] => mret tt
  | x :: l' => f x ;; mapM_ f l'
  end.

(** Runs a method of a component inside the state of its owner. *)
Definition zoom {S T A} (g : S -> T) (p : T -> S -> S) (m : M T A) : M S A := λ s,
  match m (g s) with
  | Ok (a, t) => Ok (a, p t s)
  | Fault f => Fault f
  end.

(** Bind in two directions: computing a run whose first part is known, and
    taking a successful run apart. *)
Lemma bind_Ok {S A B} (m : M S A) (k : A -> M S B) s a s' :
  m s = Ok (a, s') -> (m ≫= k) s = k a s'.
Proof. intros H. unfold mbind, M_bind. by rewrite H. Qed.

Lemma bind_inv {S A B} (m : M S A) (k : A -> M S B) s b s'' :
  (m ≫= k) s = Ok (b, s'') -> ∃ a s', m s = Ok (a, s') ∧ k a s' = Ok (b, s'').
Proof.
  unfold mbind, M_bind. destruct (m s) as [[a s']|f] eqn:E; intros H; [eauto|done].
Qed.

Lemma assert_Ok {S} (b : bool) (s : S) : b = true -> assert b s = Ok (tt, s).
Proof. by intros ->. Qed.

Lemma assert_inv {S} (b : bool) (s s' : S) u :
  assert b s = Ok (u, s') -> b = true ∧ s' = s.
Proof. destruct b; cbv; intros H; by simplify_eq. Qed.

Lemma mapM_app {S A} (f : A -> M S unit) l1 l2 s :
  mapM_ f (l1 ++ l2) s = (mapM_ f l1 ;; mapM_ f l2) s.
Proof.
  revert s; induction l1 as [|x l1 IH]; intros s; simpl; [done|].
  unfold mbind, M_bind in *. destruct (f x s) as [[[] s']|]; [apply IH|done].
Qed.

(** An invariant that every element's action keeps is kept by the loop, which
    then faults nowhere. *)
Lemma mapM_invariant {S A} (I : S -> Prop) (f : A -> M S unit) l s :
  I s -> (∀ x s, x ∈ l -> I s -> ∃ s', f x s = Ok (tt, s') ∧ I s') ->
  ∃ s', mapM_ f l s = Ok (tt, s') ∧ I s'.
Proof.
  revert s; induction l as [|x l IH]; intros s Hs Hf; simpl; [eauto|].
  destruct (Hf x s) as (s1 & E & H1); [set_solver|done|].
  rewrite (bind_Ok _ _ _ _ _ E). apply IH; [done|]. intros; apply Hf; set_solver.
Qed.

(** [m] keeps [P] whenever it does not fault. *)
Definition keeps {S A} (P : S -> Prop) (m : M S A) : Prop :=
  ∀ s a s', m s = Ok (a, s') -> P s -> P s'.

Section keeps.
Context {S : Type} (P : S -> Prop).

Lemma keeps_ret {A} (a : A) : keeps P (mret a).
Proof. intros s b s' H. cbv in H. by injection H as _ <-. Qed.

Lemma keeps_bind {A B} (m : M S A) (k : A -> M S B) :
  keeps P m -> (∀ a, keeps P (k a)) -> keeps P (m ≫= k).
Proof. intros Hm Hk s b s' (a & s1 & E1 & E2)%bind_inv HP. eapply Hk, Hm; eauto. Qed.

Lemma keeps_get : keeps P get.
Proof. intros s b s' H. cbv in H. by injection H as _ <-. Qed.

Lemma keeps_modify f : (∀ s, P s -> P (f s)) -> keeps P (modify f).
Proof. intros Hf s b s' H. cbv in H. injection H as _ <-. apply Hf. Qed.

Lemma keeps_fail {A} f : keeps P (fail f : M S A).
Proof. by intros s b s' H. Qed.

Lemma keeps_assert b : keeps P (assert b).
Proof. by intros s u s' [_ ->]%assert_inv. Qed.

Lemma keeps_mapM {A} (f : A -> M S unit) l : (∀ x, keeps P (f x)) -> keeps P (mapM_ f l).
Proof. intros Hf. induction l; simpl; [apply keeps_ret|by apply keeps_bind]. Qed.
End keeps.

Create HintDb keeps.
#[export] Hint Resolve keeps_ret keeps_get keeps_fail keeps_assert : keeps.

(** Follows the code of a method down to its primitive steps. *)
Ltac keeps_step :=
  lazymatch goal with
  | |- ∀ _, _ => intros ?
  | |- keeps _ (_ ≫= _) => apply keeps_bind
  | |- keeps _ (mapM_ _ _) => apply keeps_mapM
  | |- keeps _ (modify _) => apply keeps_modify
  | |- keeps _ (when _ _) => unfold when
  | |- keeps _ (match ?x with _ => _ end) => destruct x
  | |- keeps _ _ => solve [auto with keeps]
  end.

(** Steps through the monadic code of a goal whose tests are decided. *)
Ltac msimp :=
  unfold mbind, M_bind, mret, M_ret, get, gets, put, modify, fail, when, zoom in *; cbn beta iota in *.

(** Takes a successful run [H : m s = Ok _] apart, one bind at a time. *)
Ltac minv H :=
  match type of H with
  | (_ ≫= _) _ = Ok _ =>
      let a := fresh "a" in let s' := fresh "s" in
      let H1 := fresh "Hm" in let H2 := fresh "Hk" in
      apply bind_inv in H; destruct H as (a & s' & H1 & H2); minv H1; minv H2
  | assert _ _ = Ok _ => apply assert_inv in H; destruct H as [H ->]
  | mret _ _ = Ok _ => injection H as <- <-
  | get _ = Ok _ => injection H as <- <-
  | gets _ _ = Ok _ => injection H as <- <-
  | put _ _ = Ok _ => injection H as <- <-
  | modify _ _ = Ok _ => injection H as <- <-
  | _ => idtac
  end.

(** What every step keeps holds of every state that is reached. *)
Lemma rtc_invariant {A} (R : relation A) (I : A -> Prop) x y :
  (∀ x y, I x -> R x y -> I y) -> I x -> rtc R x y -> I y.
Proof. intros Hstep Hx Hr. induction Hr; eauto. Qed.

(** * Machine integers *)

Definition u8 (z : Z) : Z := z mod 2 ^ 8.
Definition u16 (z : Z) : Z := z mod 2 ^ 16.
Definition u32 (z : Z) : Z := z mod 2 ^ 32.
Definition u64 (z : Z) : Z := z mod 2 ^ 64.

(** Conversion to a signed type of [w] bits (two's complement, as gcc defines
    the out-of-range conversions). *)
Definition swrap (w z : Z) : Z := (z + 2 ^ (w - 1)) mod 2 ^ w - 2 ^ (w - 1).
Definition s8 (z : Z) : Z := swrap 8 z.
Definition s16 (z : Z) : Z := swrap 16 z.
Definition s32 (z : Z) : Z := swrap 32 z.
Definition s64 (z : Z) : Z := swrap 64 z.

Lemma u64_small z : 0 <= z < 2 ^ 64 -> u64 z = z.
Proof. apply Z.mod_small. Qed.

Lemma swrap_small w z : 0 < w -> - 2 ^ (w - 1) <= z < 2 ^ (w - 1) -> swrap w z = z.
Proof.
  intros Hw Hz. unfold swrap. rewrite Z.mod_small; [lia|].
  replace (2 ^ w) with (2 * 2 ^ (w - 1)); [lia|].
  rewrite <- Z.pow_succ_r by lia. f_equal. lia.
Qed.

Lemma swrap_range w z : 0 < w -> - 2 ^ (w - 1) <= swrap w z < 2 ^ (w - 1).
Proof.
  intros Hw. unfold swrap.
  assert (2 ^ w = 2 * 2 ^ (w - 1)) as E.
  { rewrite <- Z.pow_succ_r by lia. f_equal. lia. }
  assert (0 < 2 ^ (w - 1)) by (apply Z.pow_pos_nonneg; lia).
  pose proof (Z.mod_pos_bound (z + 2 ^ (w - 1)) (2 ^ w)). lia.
Qed.

Lemma swrap_mod w z : 0 < w -> swrap w (z mod 2 ^ w) = swrap w z.
Proof. intros Hw. unfold swrap. by rewrite Z.add_mod_idemp_l by (apply Z.pow_nonzero; lia). Qed.

Lemma swrap_unsigned w z : 0 < w -> swrap w z mod 2 ^ w = z mod 2 ^ w.
Proof.
  intros Hw. unfold swrap.
  rewrite Zminus_mod_idemp_l. f_equal. lia.
Qed.

(** [lia] with the equations of the divisions and remainders of the goal. *)
Ltac zlia := Z.to_euclidean_division_equations; lia.

(** * Bytes *)

Definition Z_of_byte (b : byte) : Z := Z.of_N (Byte.to_N b).

Definition byte_of_Z (z : Z) : byte :=
  match Byte.of_N (Z.to_N (u8 z)) with Some b => b | None => x00 end.

Lemma Z_of_byte_range b : 0 <= Z_of_byte b < 256.
Proof. unfold Z_of_byte. pose proof (Byte.to_N_bounded b). lia. Qed.

Lemma Z_of_byte_of_Z z : Z_of_byte (byte_of_Z z) = u8 z.
Proof.
  unfold byte_of_Z, Z_of_byte, u8. change (2 ^ 8) with 256.
  pose proof (Z.mod_pos_bound z 256 ltac:(lia)).
  destruct (Byte.of_N (Z.to_N (z mod 256))) as [b|] eqn:E.
  - apply Byte.to_of_N in E. rewrite E. lia.
  - apply Byte.of_N_None_iff in E. lia.
Qed.

Lemma byte_of_Z_of_byte b : byte_of_Z (Z_of_byte b) = b.
Proof.
  unfold byte_of_Z, u8. change (2 ^ 8) with 256.
  rewrite Z.mod_small by apply Z_of_byte_range.
  unfold Z_of_byte. rewrite N2Z.id. by rewrite Byte.of_to_N.
Qed.

#[export] Instance byte_eq_dec : EqDecision byte := Byte.byte_eq_dec.

(** * Lengths and ranges of lists, in [Z] *)

Abbreviation zlen l := (Z.of_nat (length l)).

(** The half-open range [\[off, off + len)] of a list. *)
Definition range {A} (off len : Z) (l : list A) : list A :=
  take (Z.to_nat len) (drop (Z.to_nat off) l).

(** [l] with the elements from [off] on overwritten by [d]. *)
Definition splice {A} (off : Z) (d l : list A) : list A :=
  take (Z.to_nat off) l ++ d ++ drop (Z.to_nat off + length d) l.

Lemma zlen_nonneg {A} (l : list A) : 0 <= zlen l.
Proof. lia. Qed.

Lemma zlen_range {A} off len (l : list A) :
  0 <= off -> 0 <= len -> off + len <= zlen l -> zlen (range off len l) = len.
Proof. intros. unfold range. rewrite length_take, length_drop. lia. Qed.

Lemma zlen_splice {A} off (d l : list A) :
  0 <= off -> off + zlen d <= zlen l -> zlen (splice off d l) = zlen l.
Proof.
  intros. unfold splice. rewrite !length_app, length_take, length_drop. lia.
Qed.

(** Appending directly after a range extends it. *)
Lemma range_splice_after {A} r w (d l : list A) :
  0 <= r <= w -> w + zlen d <= zlen l ->
  range r (w + zlen d - r) (splice w d l) = range r (w - r) l ++ d.
Proof.
  intros Hr Hw. unfold range, splice.
  rewrite drop_app_le by (rewrite length_take; lia).
  rewrite take_app_ge by (rewrite length_drop, length_take; lia).
  rewrite length_drop, length_take.
  rewrite take_app_le by lia. rewrite (take_ge d) by lia. f_equal.
  rewrite take_drop_commute. do 2 f_equal; lia.
Qed.

(** Writing directly before a range extends it to the front. *)
Lemma range_splice_before {A} r w (d l : list A) :
  zlen d <= r -> r <= w -> w <= zlen l ->
  range (r - zlen d) (w - (r - zlen d)) (splice (r - zlen d) d l) = d ++ range r (w - r) l.
Proof.
  intros Hr Hw Hl. unfold range, splice.
  rewrite drop_app_ge by (rewrite length_take; lia).
  replace (Z.to_nat (r - zlen d) - length (take (Z.to_nat (r - zlen d)) l))%nat with 0%nat
    by (rewrite length_take; lia).
  rewrite drop_0, take_app_ge by lia. f_equal. f_equal; [lia|].
  f_equal. lia.
Qed.

(** Dropping from the front of a range. *)
Lemma range_drop {A} r w n (l : list A) :
  0 <= r -> 0 <= n -> r + n <= w ->
  range (r + n) (w - (r + n)) l = drop (Z.to_nat n) (range r (w - r) l).
Proof.
  intros. unfold range. rewrite skipn_firstn_comm, drop_drop.
  f_equal; [lia|]. f_equal. lia.
Qed.

Lemma range_take {A} r n len (l : list A) :
  0 <= n <= len -> range r n l = take (Z.to_nat n) (range r len l).
Proof. intros. unfold range. rewrite take_take. f_equal. lia. Qed.

Lemma range_nil {A} r (l : list A) : range r 0 l = [].
Proof. done. Qed.

#[global] Opaque range splice.

Create HintDb muduo.
Create Rewrite HintDb muduo.
#[export] Hint Resolve zlen_nonneg Z_of_byte_range : muduo.
#[export] Hint Rewrite @zlen_range @zlen_splice using lia : muduo.
