(* ===== verification/Endian.v ===== *)
(** Byte order conversions: [PracticeMuduo/socket.muduo/Endian.h] and the
    memory representation of integers on the little-endian hosts the program is
    built for. *)
From S2P Require Import Prelude.

(** * Integers in memory *)

(** The [n] bytes of an integer, as they lie in memory (least significant
    first); a negative integer in two's complement. *)
Fixpoint le_bytes (n : nat) (z : Z) : list byte :=
  match n with
  | O => []
  | S n' => byte_of_Z z :: le_bytes n' (z / 256)
  end.

Fixpoint le_val (bs : list byte) : Z :=
  match bs with
  | [] => 0
  | b :: bs' => Z_of_byte b + 256 * le_val bs'
  end.

Lemma length_le_bytes n z : length (le_bytes n z) = n.
Proof. revert z; induction n; intros; simpl; auto. Qed.

Lemma le_val_range bs : 0 <= le_val bs < 256 ^ zlen bs.
Proof.
  induction bs as [|b bs IH]; cbn [le_val length]; [lia|].
  rewrite Nat2Z.inj_succ, Z.pow_succ_r by lia.
  pose proof (Z_of_byte_range b). lia.
Qed.

Lemma le_val_bytes n z : le_val (le_bytes n z) = z mod 256 ^ Z.of_nat n.
Proof.
  revert z; induction n as [|n IH]; intros z; cbn [le_val le_bytes].
  - by rewrite Z.mod_1_r.
  - rewrite IH, Z_of_byte_of_Z, Nat2Z.inj_succ, Z.pow_succ_r by lia.
    unfold u8. change (2 ^ 8) with 256.
    rewrite Z.rem_mul_r; lia.
Qed.

Lemma le_bytes_val bs : le_bytes (length bs) (le_val bs) = bs.
Proof.
  induction bs as [|b bs IH]; cbn [le_val le_bytes length]; [done|].
  pose proof (Z_of_byte_range b) as Hb. f_equal.
  - rewrite <- (byte_of_Z_of_byte b) at 2. unfold byte_of_Z, u8. change (2 ^ 8) with 256.
    replace ((Z_of_byte b + 256 * le_val bs) mod 256) with (Z_of_byte b mod 256); [done|].
    rewrite Z.mul_comm, Z.mod_add by lia. done.
  - transitivity (le_bytes (length bs) (le_val bs)); [f_equal|done].
    rewrite (Z.mul_comm 256), Z.div_add, Z.div_small by lia. lia.
Qed.

Lemma le_val_inj bs1 bs2 : length bs1 = length bs2 -> le_val bs1 = le_val bs2 -> bs1 = bs2.
Proof.
  intros Hl Hv. rewrite <- (le_bytes_val bs1), <- (le_bytes_val bs2). by rewrite Hl, Hv.
Qed.

Lemma le_bytes_mod n z : le_bytes n (z mod 256 ^ Z.of_nat n) = le_bytes n z.
Proof.
  apply le_val_inj; [by rewrite !length_le_bytes|].
  rewrite !le_val_bytes. apply Z.mod_mod. apply Z.pow_nonzero; lia.
Qed.

Lemma le_val_app bs1 bs2 : le_val (bs1 ++ bs2) = le_val bs1 + 256 ^ zlen bs1 * le_val bs2.
Proof.
  induction bs1 as [|b bs1 IH]; cbn [le_val length app]; [lia|].
  rewrite IH, Nat2Z.inj_succ, Z.pow_succ_r by lia. lia.
Qed.

Lemma le_val_zeros n : le_val (replicate n x00) = 0.
Proof. induction n as [|n IH]; cbn [replicate le_val]; [done|]. rewrite IH. done. Qed.

(** * glibc's htobeN / beNtoh on a little-endian host: reverse the bytes *)

Definition bswap (n : nat) (z : Z) : Z := le_val (rev (le_bytes n z)).

Definition htobe16 (x : Z) : Z := bswap 2 x.
Definition htobe32 (x : Z) : Z := bswap 4 x.
Definition htobe64 (x : Z) : Z := bswap 8 x.
Definition be16toh (x : Z) : Z := bswap 2 x.
Definition be32toh (x : Z) : Z := bswap 4 x.
Definition be64toh (x : Z) : Z := bswap 8 x.

Lemma bswap_range n z : 0 <= bswap n z < 256 ^ Z.of_nat n.
Proof.
  unfold bswap. pose proof (le_val_range (rev (le_bytes n z))) as H.
  by rewrite length_rev, length_le_bytes in H.
Qed.

Lemma le_bytes_bswap n z : le_bytes n (bswap n z) = rev (le_bytes n z).
Proof.
  unfold bswap.
  replace n with (length (rev (le_bytes n z))) at 1 by (by rewrite length_rev, length_le_bytes).
  apply le_bytes_val.
Qed.

Lemma bswap_involutive n z : bswap n (bswap n z) = z mod 256 ^ Z.of_nat n.
Proof.
  unfold bswap at 1. rewrite le_bytes_bswap, rev_involutive. apply le_val_bytes.
Qed.

Lemma bswap_mod n z : bswap n (z mod 256 ^ Z.of_nat n) = bswap n z.
Proof. unfold bswap. by rewrite le_bytes_mod. Qed.

(** * The functions of namespace sockets, with the return types they declare *)

Module sockets.
Definition hostToNetwork16 (host16 : Z) : Z := u16 (htobe16 host16).
Definition hostToNetwork32 (host32 : Z) : Z := u32 (htobe32 host32).
(** declared [uint32_t] *)
Definition hostToNetwork64 (host64 : Z) : Z := u32 (htobe64 host64).
Definition networkToHost16 (net16 : Z) : Z := u16 (be16toh net16).
(** declared [uint16_t] *)
Definition networkToHost32 (net32 : Z) : Z := u16 (be32toh net32).
(** declared [uint16_t] *)
Definition networkToHost64 (net64 : Z) : Z := u16 (be64toh net64).
End sockets.

Lemma networkToHost16_hostToNetwork16 x :
  sockets.networkToHost16 (sockets.hostToNetwork16 x) = u16 x.
Proof.
  unfold sockets.networkToHost16, sockets.hostToNetwork16, be16toh, htobe16, u16.
  change (2 ^ 16) with (256 ^ Z.of_nat 2).
  rewrite bswap_mod, bswap_involutive, Z.mod_mod by done. done.
Qed.

Lemma networkToHost32_hostToNetwork32 x :
  sockets.networkToHost32 (sockets.hostToNetwork32 x) = u16 x.
Proof.
  unfold sockets.networkToHost32, sockets.hostToNetwork32, be32toh, htobe32, u16, u32.
  change (2 ^ 32) with (256 ^ Z.of_nat 4).
  rewrite bswap_mod, bswap_involutive.
  change (256 ^ Z.of_nat 4) with (2 ^ 16 * 2 ^ 16).
  rewrite Z.rem_mul_r by lia. rewrite Z.mul_comm, Z.mod_add by lia. by apply Z.mod_mod.
Qed.

(** The low half of the swapped 64-bit value holds the high four bytes of the
    argument; swapping it back leaves the low half empty. *)
Lemma networkToHost64_hostToNetwork64 x :
  sockets.networkToHost64 (sockets.hostToNetwork64 x) = 0.
Proof.
  unfold sockets.networkToHost64, sockets.hostToNetwork64, be64toh, u16.
  set (v := u32 (htobe64 x)).
  assert (0 <= v < 2 ^ 32) as Hv by (apply Z.mod_pos_bound; lia).
  assert (le_bytes 8 v = le_bytes 4 v ++ replicate 4 x00) as E.
  { apply le_val_inj; [by rewrite length_app, !length_le_bytes, length_replicate|].
    rewrite le_val_app, le_val_zeros, !le_val_bytes, length_le_bytes.
    rewrite !Z.mod_small; lia. }
  unfold bswap. rewrite E, rev_app_distr, le_val_app, length_rev, length_replicate.
  change (rev (replicate 4 x00)) with (replicate 4 x00). rewrite le_val_zeros.
  change (256 ^ Z.of_nat 4) with (2 ^ 16 * 2 ^ 16).
  rewrite Z.add_0_l, <- Z.mul_assoc, Z.mul_comm. by apply Z.mod_mul.
Qed.

#[export] Hint Rewrite length_le_bytes le_val_bytes : muduo.
