(* ===== verification/Buffer.v ===== *)
(** The network buffer: [PracticeMuduo/tcp.muduo/Buffer.h] and [Buffer.cpp].
    A [Buffer] is a [vector<char>] with two indices; a [char*] into it is modelled
    by its offset from [begin()].  [readv] is a parameter. *)
From S2P Require Import Prelude Endian.

(** [static const size_t kCheapPrepend = 8; kInitialSize = 1024;] *)
Definition kCheapPrepend : Z := 8.
Definition kInitialSize : Z := 1024.

(** [const char Buffer::kCRLF\[\] = "\r\n"], and ['\n']. *)
Definition kCRLF : list byte := [x0d; x0a].
Definition EOL : byte := x0a.

(** [vector<char>::max_size()]: [resize] beyond it throws [length_error]. *)
Definition max_size : Z := 2 ^ 63 - 1.

Record Buffer := mkBuffer {
  buffer_ : list byte;
  readerIndex_ : Z;
  writerIndex_ : Z }.

#[export] Instance Buffer_eq_dec : EqDecision Buffer.
Proof. solve_decision. Defined.

Definition set_buffer (d : list byte) (b : Buffer) : Buffer :=
  mkBuffer d (readerIndex_ b) (writerIndex_ b).
Definition set_reader (r : Z) (b : Buffer) : Buffer :=
  mkBuffer (buffer_ b) r (writerIndex_ b).
Definition set_writer (w : Z) (b : Buffer) : Buffer :=
  mkBuffer (buffer_ b) (readerIndex_ b) w.

(** * Observers *)

Definition readableBytes (b : Buffer) : Z := u64 (writerIndex_ b - readerIndex_ b).
Definition writableBytes (b : Buffer) : Z := u64 (zlen (buffer_ b) - writerIndex_ b).
Definition prependableBytes (b : Buffer) : Z := readerIndex_ b.
Definition peek (b : Buffer) : Z := readerIndex_ b.
Definition beginWrite (b : Buffer) : Z := writerIndex_ b.

(** * Memory accesses, faulting outside the vector *)

Definition load (off len : Z) : M Buffer (list byte) := λ b,
  if (0 <=? off) && (0 <=? len) && (off + len <=? zlen (buffer_ b))
  then Ok (range off len (buffer_ b), b) else Fault UB.

Definition store (off : Z) (d : list byte) : M Buffer unit := λ b,
  if (0 <=? off) && (off + zlen d <=? zlen (buffer_ b))
  then Ok (tt, set_buffer (splice off d (buffer_ b)) b) else Fault UB.

(** [buffer_.resize(n)] for [n] at least the size: new elements are zero. *)
Definition resize (n : Z) : M Buffer unit := λ b,
  if max_size <? n then Fault Throw
  else Ok (tt, set_buffer (take (Z.to_nat n) (buffer_ b) ++
                           replicate (Z.to_nat n - length (buffer_ b)) x00) b).

(** * Construction and swap *)

Definition new_Buffer (initialSize : Z) : res Buffer :=
  let n := u64 (kCheapPrepend + initialSize) in
  if max_size <? n then Fault Throw else
  let b := mkBuffer (replicate (Z.to_nat n) x00) kCheapPrepend kCheapPrepend in
  if (readableBytes b =? 0) && (writableBytes b =? initialSize)
     && (prependableBytes b =? kCheapPrepend)
  then Ok b else Fault AssertFail.

Definition swap (this rhs : Buffer) : Buffer * Buffer := (rhs, this).

(** * Searching *)

(** [std::search] for a pattern: the index of its first occurrence, or the
    length of the text. *)
Fixpoint std_search (pat l : list byte) : nat :=
  match l with
  | [] => 0
  | _ :: l' => if decide (take (length pat) l = pat) then 0 else S (std_search pat l')
  end.

(** [memchr]: the index of the first byte equal to [c], or NULL. *)
Fixpoint memchr (c : byte) (l : list byte) : option nat :=
  match l with
  | [] => None
  | x :: l' => if decide (x = c) then Some 0%nat else S <$> memchr c l'
  end.

Definition findCRLF_from (start : Z) : M Buffer (option Z) :=
  b ← get;
  assert (peek b <=? start) ;;
  assert (start <=? beginWrite b) ;;
  text ← load start (beginWrite b - start);
  let crlf := start + Z.of_nat (std_search kCRLF text) in
  mret (if crlf =? beginWrite b then None else Some crlf).

Definition findCRLF : M Buffer (option Z) :=
  b ← get;
  text ← load (peek b) (beginWrite b - peek b);
  let crlf := peek b + Z.of_nat (std_search kCRLF text) in
  mret (if crlf =? beginWrite b then None else Some crlf).

Definition findEOL : M Buffer (option Z) :=
  b ← get;
  text ← load (peek b) (readableBytes b);
  mret ((λ i, peek b + Z.of_nat i) <$> memchr EOL text).

Definition findEOL_from (start : Z) : M Buffer (option Z) :=
  b ← get;
  assert (peek b <=? start) ;;
  assert (start <=? beginWrite b) ;;
  text ← load start (beginWrite b - start);
  mret ((λ i, start + Z.of_nat i) <$> memchr EOL text).

(** * Consuming *)

Definition retrieveAll : M Buffer unit :=
  modify (set_reader kCheapPrepend) ;; modify (set_writer kCheapPrepend).

Definition retrieve (len : Z) : M Buffer unit :=
  b ← get;
  assert (len <=? readableBytes b) ;;
  if len <? readableBytes b
  then modify (set_reader (u64 (readerIndex_ b + len)))
  else retrieveAll.

Definition retrieveUntil (end_ : Z) : M Buffer unit :=
  b ← get;
  assert (peek b <=? end_) ;;
  assert (end_ <=? beginWrite b) ;;
  retrieve (end_ - peek b).

Definition retrieveInt64 : M Buffer unit := retrieve 8.
Definition retrieveInt32 : M Buffer unit := retrieve 4.
Definition retrieveInt16 : M Buffer unit := retrieve 2.
Definition retrieveInt8 : M Buffer unit := retrieve 1.

Definition retrieveAsString (len : Z) : M Buffer (list byte) :=
  b ← get;
  assert (len <=? readableBytes b) ;;
  result ← load (peek b) len;
  retrieve len ;;
  mret result.

Definition retrieveAllAsString : M Buffer (list byte) :=
  b ← get; retrieveAsString (readableBytes b).

(** A [Slice] into the buffer: its start and its size, which went through
    [static_cast<int>] and back to [size_t]. *)
Definition toStringPiece (b : Buffer) : Z * Z := (peek b, u64 (s32 (readableBytes b))).

(** * Producing *)

(** The private [makeSpace]: grow, or move the readable bytes to the front. *)
Definition makeSpace (len : Z) : M Buffer unit :=
  b ← get;
  if u64 (writableBytes b + prependableBytes b) <? u64 (len + kCheapPrepend)
  then resize (u64 (writerIndex_ b + len))
  else
    assert (kCheapPrepend <? readerIndex_ b) ;;
    let readable := readableBytes b in
    d ← load (readerIndex_ b) (writerIndex_ b - readerIndex_ b);
    store kCheapPrepend d ;;
    modify (set_reader kCheapPrepend) ;;
    modify (set_writer (u64 (kCheapPrepend + readable))) ;;
    b' ← get;
    assert (readable =? readableBytes b').

Definition ensureWritableBytes (len : Z) : M Buffer unit :=
  b ← get;
  when (writableBytes b <? len) (makeSpace len) ;;
  b' ← get;
  assert (len <=? writableBytes b').

Definition hasWritten (len : Z) : M Buffer unit :=
  b ← get;
  assert (len <=? writableBytes b) ;;
  modify (set_writer (u64 (writerIndex_ b + len))).

Definition unwrite (len : Z) : M Buffer unit :=
  b ← get;
  assert (len <=? readableBytes b) ;;
  modify (set_writer (u64 (writerIndex_ b - len))).

(** [append(data, len)] with the [len] bytes [data] points to; the [Slice] and
    [void*] overloads forward to it. *)
Definition append (data : list byte) : M Buffer unit :=
  ensureWritableBytes (zlen data) ;;
  b ← get;
  store (beginWrite b) data ;;
  hasWritten (zlen data).

Definition prepend (data : list byte) : M Buffer unit :=
  b ← get;
  assert (zlen data <=? prependableBytes b) ;;
  modify (set_reader (u64 (readerIndex_ b - zlen data))) ;;
  b' ← get;
  store (readerIndex_ b') data.

Definition lift_res {S A} (r : res A) : M S A := λ s,
  match r with Ok a => Ok (a, s) | Fault f => Fault f end.

Definition shrink (reserve : Z) : M Buffer unit :=
  b ← get;
  other ← lift_res (new_Buffer kInitialSize);
  o1 ← lift_res (ensureWritableBytes (u64 (readableBytes b + reserve)) other);
  let piece := toStringPiece b in
  d ← load piece.1 piece.2;
  o2 ← lift_res (append d o1.2);
  put (swap b o2.2).1.

(** * Integers in network byte order.  An [intN_t] argument is converted to the
    unsigned parameter type, the result to the declared variable type. *)

Definition appendInt64 (x : Z) : M Buffer unit :=
  let be64 := s64 (sockets.hostToNetwork64 (u64 x)) in append (le_bytes 8 be64).
Definition appendInt32 (x : Z) : M Buffer unit :=
  let be32 := s32 (sockets.hostToNetwork32 (u32 x)) in append (le_bytes 4 be32).
Definition appendInt16 (x : Z) : M Buffer unit :=
  let be16 := s16 (sockets.hostToNetwork16 (u16 x)) in append (le_bytes 2 be16).
Definition appendInt8 (x : Z) : M Buffer unit := append (le_bytes 1 x).

Definition peekInt64 : M Buffer Z :=
  b ← get;
  assert (8 <=? readableBytes b) ;;
  d ← load (peek b) 8;
  let be64 := s64 (le_val d) in
  mret (s64 (sockets.networkToHost64 (u64 be64))).
Definition peekInt32 : M Buffer Z :=
  b ← get;
  assert (4 <=? readableBytes b) ;;
  d ← load (peek b) 4;
  let be32 := s32 (le_val d) in
  mret (s32 (sockets.networkToHost32 (u32 be32))).
Definition peekInt16 : M Buffer Z :=
  b ← get;
  assert (2 <=? readableBytes b) ;;
  d ← load (peek b) 2;
  let be16 := s16 (le_val d) in
  mret (s16 (sockets.networkToHost16 (u16 be16))).
Definition peekInt8 : M Buffer Z :=
  b ← get;
  assert (1 <=? readableBytes b) ;;
  d ← load (peek b) 1;
  mret (s8 (le_val d)).

Definition readInt64 : M Buffer Z := result ← peekInt64; retrieveInt64 ;; mret result.
Definition readInt32 : M Buffer Z := result ← peekInt32; retrieveInt32 ;; mret result.
Definition readInt16 : M Buffer Z := result ← peekInt16; retrieveInt16 ;; mret result.
Definition readInt8 : M Buffer Z := result ← peekInt8; retrieveInt8 ;; mret result.

Definition prependInt64 (x : Z) : M Buffer unit :=
  let be64 := s64 (sockets.hostToNetwork64 (u64 x)) in prepend (le_bytes 8 be64).
Definition prependInt32 (x : Z) : M Buffer unit :=
  let be32 := s32 (sockets.hostToNetwork32 (u32 x)) in prepend (le_bytes 4 be32).
Definition prependInt16 (x : Z) : M Buffer unit :=
  let be16 := s16 (sockets.hostToNetwork16 (u16 x)) in prepend (le_bytes 2 be16).
Definition prependInt8 (x : Z) : M Buffer unit := prepend (le_bytes 1 x).

(** * Reading from a socket *)

(** [char extrabuf\[65536\]] *)
Definition extrabuf_size : Z := 65536.

(** [readFd]: [readv fd lens] is the kernel's answer to the [readv] call on
    vectors of the lengths [lens]: an [errno], or the bytes delivered, which fill
    the vectors in order.  The result is [n] and the value stored through
    [savedErrno], if any. *)
Definition readFd (readv : Z -> list Z -> Z + list byte) (fd : Z) : M Buffer (Z * option Z) :=
  b ← get;
  let writable := writableBytes b in
  let lens := if writable <? extrabuf_size then [writable; extrabuf_size] else [writable] in
  match readv fd lens with
  | inl errno => mret (-1, Some errno)
  | inr d =>
      let n := zlen d in
      store (writerIndex_ b) (take (Z.to_nat writable) d) ;;
      if n <=? writable
      then modify (set_writer (u64 (writerIndex_ b + n))) ;; mret (n, None)
      else
        modify (set_writer (zlen (buffer_ b))) ;;
        append (drop (Z.to_nat writable) d) ;;
        mret (n, None)
  end.

(** * Invariant and contents *)

(** [0 <= readerIndex <= writerIndex <= size], the comment at the top of
    [Buffer.h]; a vector is never longer than [max_size]. *)
Definition wf (b : Buffer) : Prop :=
  0 <= readerIndex_ b <= writerIndex_ b ∧ writerIndex_ b <= zlen (buffer_ b) <= max_size.

(** The readable bytes. *)
Definition content (b : Buffer) : list byte :=
  range (readerIndex_ b) (writerIndex_ b - readerIndex_ b) (buffer_ b).

Section invariant.
Implicit Types (b : Buffer) (d : list byte).

Lemma readable_wf b : wf b -> readableBytes b = writerIndex_ b - readerIndex_ b.
Proof. intros [??]. apply u64_small. unfold max_size in *. lia. Qed.

Lemma writable_wf b : wf b -> writableBytes b = zlen (buffer_ b) - writerIndex_ b.
Proof. intros [??]. apply u64_small. unfold max_size in *. lia. Qed.

Lemma zlen_content b : wf b -> zlen (content b) = readableBytes b.
Proof.
  intros H. rewrite (readable_wf _ H). destruct H. unfold content.
  apply zlen_range; lia.
Qed.

Lemma load_Ok b off len :
  0 <= off -> 0 <= len -> off + len <= zlen (buffer_ b) ->
  load off len b = Ok (range off len (buffer_ b), b).
Proof.
  intros. unfold load.
  rewrite (proj2 (Z.leb_le 0 off)), (proj2 (Z.leb_le 0 len)), (proj2 (Z.leb_le (off + len) _))
    by done. done.
Qed.

Lemma store_Ok b off d :
  0 <= off -> off + zlen d <= zlen (buffer_ b) ->
  store off d b = Ok (tt, set_buffer (splice off d (buffer_ b)) b).
Proof.
  intros. unfold store.
  rewrite (proj2 (Z.leb_le 0 off)), (proj2 (Z.leb_le (off + zlen d) _)) by done. done.
Qed.

(** The whole [0 .. size) is read by one load of a well-formed buffer. *)
Lemma load_content b : wf b -> load (readerIndex_ b) (writerIndex_ b - readerIndex_ b) b = Ok (content b, b).
Proof. intros [??]. rewrite load_Ok by lia. done. Qed.

Lemma assert_leb {S} (x y : Z) (s : S) : x <= y -> assert (x <=? y) s = Ok (tt, s).
Proof. intros. apply assert_Ok. by apply Z.leb_le. Qed.

Lemma makeSpace_spec b len :
  wf b -> writableBytes b < len -> writerIndex_ b + len <= max_size ->
  ∃ b', makeSpace len b = Ok (tt, b') ∧ wf b' ∧ content b' = content b ∧
    len <= writableBytes b' ∧ Z.min (readerIndex_ b) kCheapPrepend <= readerIndex_ b' ∧
    zlen (buffer_ b) <= zlen (buffer_ b') <= zlen (buffer_ b) + len.
Proof.
  intros Hwf Hlen Hmax. pose proof Hwf as [Hr Hw].
  pose proof (writable_wf _ Hwf) as EW. pose proof (readable_wf _ Hwf) as ER.
  rewrite EW in Hlen.
  unfold makeSpace. rewrite (bind_Ok _ _ b b b) by done.
  unfold prependableBytes. rewrite EW, ER. rewrite !u64_small by (unfold max_size, kCheapPrepend in *; lia).
  destruct (Z.ltb_spec (zlen (buffer_ b) - writerIndex_ b + readerIndex_ b) (len + kCheapPrepend)).
  - (* grow *)
    unfold resize. rewrite (proj2 (Z.ltb_ge _ _)) by lia.
    eexists; split; [done|].
    set (buf := take _ _ ++ replicate _ x00).
    assert (zlen buf = writerIndex_ b + len) as Hbuf.
    { subst buf. rewrite length_app, length_take, length_replicate. lia. }
    assert (wf (set_buffer buf b)) as Hwf' by (unfold wf; simpl; lia).
    split; [done|]. rewrite (writable_wf _ Hwf'). simpl.
    split; [|rewrite Hbuf; lia].
    unfold content; simpl. subst buf. Transparent range. unfold range. Opaque range.
    rewrite (take_ge (buffer_ b)) by lia. rewrite drop_app_le by lia.
    apply take_app_le. rewrite length_drop. lia.
  - (* move the readable bytes to the front *)
    rewrite (bind_Ok _ _ _ tt b) by (apply assert_Ok, Z.ltb_lt; lia).
    rewrite (bind_Ok _ _ _ _ _ (load_content _ Hwf)).
    pose proof (zlen_content _ Hwf) as HC. rewrite ER in HC.
    rewrite (bind_Ok _ _ _ _ _ (store_Ok b kCheapPrepend (content b) ltac:(unfold kCheapPrepend; lia) ltac:(lia))).
    set (w := kCheapPrepend + _).
    set (b' := mkBuffer (splice kCheapPrepend (content b) (buffer_ b)) kCheapPrepend w).
    assert (wf b') as Hwf'.
    { unfold wf; simpl. rewrite zlen_splice by (unfold kCheapPrepend in *; lia).
      unfold kCheapPrepend in *; lia. }
    exists b'. split.
    { msimp. unfold set_reader, set_writer, set_buffer; simpl. fold b'.
      rewrite (readable_wf _ Hwf'). simpl. apply assert_Ok, Z.eqb_eq. lia. }
    split; [done|]. rewrite (writable_wf _ Hwf'). simpl.
    rewrite zlen_splice by (unfold kCheapPrepend in *; lia).
    split; [|lia].
    unfold content at 1; simpl.
    replace (w - kCheapPrepend) with (kCheapPrepend + zlen (content b) - kCheapPrepend) by lia.
    rewrite range_splice_after by (unfold kCheapPrepend in *; lia).
    by rewrite Z.sub_diag, range_nil.
Qed.

Lemma ensureWritableBytes_spec b len :
  wf b -> 0 <= len -> writerIndex_ b + len <= max_size ->
  ∃ b', ensureWritableBytes len b = Ok (tt, b') ∧ wf b' ∧ content b' = content b ∧
    len <= writableBytes b' ∧ Z.min (readerIndex_ b) kCheapPrepend <= readerIndex_ b' ∧
    zlen (buffer_ b) <= zlen (buffer_ b') <= zlen (buffer_ b) + len.
Proof.
  intros Hwf Hlen Hmax. unfold ensureWritableBytes.
  rewrite (bind_Ok _ _ b b b) by done.
  destruct (Z.ltb_spec (writableBytes b) len) as [Hlt|Hge]; cbn [when].
  - destruct (makeSpace_spec b len Hwf Hlt Hmax) as (b' & E & Hb' & HC & HW & Hrest).
    rewrite (bind_Ok _ _ _ _ _ E). rewrite (bind_Ok _ _ b' b' b') by done.
    exists b'. split; [by apply assert_leb|]. done.
  - exists b. split; [msimp; by apply assert_leb|]. repeat (split; [done|]). lia.
Qed.

Lemma append_spec b d :
  wf b -> writerIndex_ b + zlen d <= max_size ->
  ∃ b', append d b = Ok (tt, b') ∧ wf b' ∧ content b' = content b ++ d ∧
    Z.min (readerIndex_ b) kCheapPrepend <= readerIndex_ b' ∧
    zlen (buffer_ b) <= zlen (buffer_ b') <= zlen (buffer_ b) + zlen d.
Proof.
  intros Hwf Hmax. unfold append.
  destruct (ensureWritableBytes_spec b (zlen d) Hwf ltac:(lia) Hmax)
    as (b1 & E & Hwf1 & HC & HW & Hr & Hs).
  rewrite (bind_Ok _ _ _ _ _ E), (bind_Ok _ _ b1 b1 b1) by done. unfold beginWrite.
  pose proof (writable_wf _ Hwf1) as EW. destruct Hwf1 as [Hr1 Hw1].
  rewrite (bind_Ok _ _ _ _ _ (store_Ok b1 (writerIndex_ b1) d ltac:(lia) ltac:(lia))).
  set (b2 := set_buffer _ _).
  assert (wf b2) as Hwf2 by (unfold wf; simpl; rewrite zlen_splice by lia; lia).
  unfold hasWritten. rewrite (bind_Ok _ _ b2 b2 b2) by done.
  assert (zlen d <= writableBytes b2) as HW2.
  { rewrite (writable_wf _ Hwf2). simpl. rewrite zlen_splice by lia. lia. }
  rewrite (bind_Ok _ _ b2 tt b2) by (by apply assert_leb).
  eexists; split; [reflexivity|].
  unfold max_size in *.
  assert (u64 (writerIndex_ b1 + zlen d) = writerIndex_ b1 + zlen d) as E64
    by (apply u64_small; lia).
  unfold wf, content; simpl. rewrite E64, zlen_splice by lia.
  split; [unfold max_size; lia|]. split; [|lia].
  rewrite range_splice_after by lia. fold (content b1) (content b). by rewrite HC.
Qed.
End invariant.
#[export] Hint Resolve load_content : muduo.

(** * Functional behaviour of the remaining operations *)

Section operations.
Implicit Types (b : Buffer) (d : list byte).

Lemma content_nil b : readerIndex_ b = writerIndex_ b -> content b = [].
Proof. intros H. unfold content. by rewrite H, Z.sub_diag. Qed.

Lemma zlen_content' b : wf b -> zlen (content b) = writerIndex_ b - readerIndex_ b.
Proof. intros H. rewrite (zlen_content _ H). by apply readable_wf. Qed.

Lemma retrieveAll_spec b :
  wf b -> kCheapPrepend <= zlen (buffer_ b) ->
  ∃ b', retrieveAll b = Ok (tt, b') ∧ wf b' ∧ content b' = [] ∧
    readerIndex_ b' = kCheapPrepend ∧ buffer_ b' = buffer_ b.
Proof.
  intros [??] Hlen. eexists; split; [reflexivity|]. unfold wf; simpl.
  unfold kCheapPrepend in *. repeat split; try lia.
Qed.

Lemma retrieve_spec b len :
  wf b -> kCheapPrepend <= zlen (buffer_ b) -> 0 <= len <= readableBytes b ->
  ∃ b', retrieve len b = Ok (tt, b') ∧ wf b' ∧
    content b' = drop (Z.to_nat len) (content b) ∧
    readerIndex_ b' =
      (if decide (len < readableBytes b) then readerIndex_ b + len else kCheapPrepend) ∧
    buffer_ b' = buffer_ b.
Proof.
  intros Hwf Hk Hlen. unfold retrieve. rewrite (bind_Ok _ _ b b b) by done.
  rewrite (bind_Ok _ _ b tt b) by (apply assert_leb; lia).
  pose proof (readable_wf _ Hwf) as ER. pose proof Hwf as [??]. unfold max_size in *.
  destruct (Z.ltb_spec len (readableBytes b)) as [Hlt|Hge].
  - rewrite decide_True by done. rewrite u64_small by lia.
    eexists; split; [reflexivity|]. unfold wf, content; simpl.
    split; [unfold max_size in *; lia|]. split; [|done]. apply range_drop; lia.
  - destruct (retrieveAll_spec b Hwf Hk) as (b' & E & Hwf' & HC & Hr & Hb).
    exists b'. rewrite decide_False by lia. split; [done|]. split; [done|]. split; [|done].
    rewrite HC, drop_ge; [done|]. pose proof (zlen_content _ Hwf). lia.
Qed.

Lemma retrieveAsString_spec b len :
  wf b -> kCheapPrepend <= zlen (buffer_ b) -> 0 <= len <= readableBytes b ->
  ∃ b', retrieveAsString len b = Ok (take (Z.to_nat len) (content b), b') ∧
    retrieve len b = Ok (tt, b').
Proof.
  intros Hwf Hk Hlen.
  destruct (retrieve_spec b len Hwf Hk Hlen) as (b' & E & _).
  exists b'. split; [|done]. unfold retrieveAsString.
  rewrite (bind_Ok _ _ b b b) by done.
  rewrite (bind_Ok _ _ b tt b) by (apply assert_leb; lia).
  pose proof (readable_wf _ Hwf) as ER. pose proof Hwf as [??]. unfold peek.
  rewrite (bind_Ok _ _ _ _ _ (load_Ok b (readerIndex_ b) len ltac:(lia) ltac:(lia) ltac:(lia))).
  rewrite (bind_Ok _ _ _ _ _ E). msimp. do 2 f_equal. apply range_take. lia.
Qed.

Lemma unwrite_spec b len :
  wf b -> 0 <= len <= readableBytes b ->
  ∃ b', unwrite len b = Ok (tt, b') ∧ wf b' ∧
    content b' = take (Z.to_nat (readableBytes b - len)) (content b) ∧
    readerIndex_ b' = readerIndex_ b ∧ buffer_ b' = buffer_ b.
Proof.
  intros Hwf Hlen. unfold unwrite. rewrite (bind_Ok _ _ b b b) by done.
  rewrite (bind_Ok _ _ b tt b) by (apply assert_leb; lia).
  pose proof (readable_wf _ Hwf) as ER. pose proof Hwf as [??]. unfold max_size in *.
  rewrite u64_small by lia. eexists; split; [reflexivity|]. unfold wf, content; simpl.
  split; [unfold max_size in *; lia|]. split; [|done].
  rewrite ER. rewrite <- (range_take _ _ (writerIndex_ b - readerIndex_ b)) by lia. f_equal. lia.
Qed.

Lemma prepend_spec b d :
  wf b -> zlen d <= prependableBytes b ->
  ∃ b', prepend d b = Ok (tt, b') ∧ wf b' ∧ content b' = d ++ content b ∧
    readerIndex_ b' = readerIndex_ b - zlen d ∧ zlen (buffer_ b') = zlen (buffer_ b).
Proof.
  intros Hwf Hlen. unfold prepend. rewrite (bind_Ok _ _ b b b) by done.
  rewrite (bind_Ok _ _ b tt b) by (by apply assert_leb).
  pose proof Hwf as [??]. unfold prependableBytes in *. unfold max_size in *.
  rewrite u64_small by lia. msimp.
  rewrite store_Ok by (simpl; lia).
  eexists; split; [reflexivity|]. unfold wf, content; simpl.
  rewrite zlen_splice by lia. split; [unfold max_size; lia|].
  split; [|done]. apply range_splice_before; lia.
Qed.

Lemma new_Buffer_spec n :
  0 <= n -> kCheapPrepend + n <= max_size ->
  ∃ b, new_Buffer n = Ok b ∧ wf b ∧ content b = [] ∧ readerIndex_ b = kCheapPrepend ∧
    zlen (buffer_ b) = kCheapPrepend + n.
Proof.
  intros Hn Hmax. unfold new_Buffer. unfold max_size in *.
  rewrite u64_small by (unfold kCheapPrepend in *; lia).
  rewrite (proj2 (Z.ltb_ge _ _)) by lia.
  set (b := mkBuffer _ _ _).
  assert (zlen (buffer_ b) = kCheapPrepend + n) as Hl.
  { simpl. rewrite length_replicate. unfold kCheapPrepend in *. lia. }
  assert (wf b) as Hwf by (unfold wf, max_size; simpl in *; unfold kCheapPrepend in *; lia).
  rewrite (readable_wf _ Hwf), (writable_wf _ Hwf), Hl.
  replace (kCheapPrepend + n - writerIndex_ b =? n) with true
    by (symmetry; apply Z.eqb_eq; simpl; unfold kCheapPrepend; lia).
  exists b. split; [done|]. split; [done|]. split; [by apply content_nil|]. done.
Qed.

Lemma shrink_spec b reserve :
  wf b -> 0 <= reserve -> readableBytes b < 2 ^ 31 ->
  kCheapPrepend + kInitialSize + readableBytes b + reserve <= max_size ->
  ∃ b', shrink reserve b = Ok (tt, b') ∧ wf b' ∧ content b' = content b ∧
    kCheapPrepend <= readerIndex_ b' ∧ kCheapPrepend <= zlen (buffer_ b') ∧
    zlen (buffer_ b') <= kCheapPrepend + kInitialSize + 2 * readableBytes b + reserve.
Proof.
  intros Hwf Hres H31 Hmax. unfold shrink. rewrite (bind_Ok _ _ b b b) by done.
  assert (0 <= readableBytes b) as Hpos by (rewrite <- zlen_content; [lia|done]).
  destruct (new_Buffer_spec kInitialSize) as (o & Eo & Hwo & HCo & Hro & Hlo);
    [done|unfold max_size, kInitialSize, kCheapPrepend; lia|].
  rewrite (bind_Ok _ _ b o b) by (unfold lift_res; by rewrite Eo).
  unfold max_size in *.
  rewrite u64_small by (unfold kInitialSize, kCheapPrepend in *; lia).
  pose proof (zlen_content' _ Hwo) as Hlo'. rewrite HCo in Hlo'. simpl in Hlo'.
  destruct (ensureWritableBytes_spec o (readableBytes b + reserve) Hwo ltac:(lia))
    as (o1 & Eo1 & Hwo1 & HCo1 & HWo1 & Hro1 & Hso1).
  { unfold max_size, kInitialSize, kCheapPrepend in *; lia. }
  rewrite (bind_Ok _ _ b (tt, o1) b) by (unfold lift_res; by rewrite Eo1).
  unfold toStringPiece; cbn [fst snd].
  unfold s32. rewrite swrap_small, u64_small by lia. unfold peek.
  pose proof (readable_wf _ Hwf) as ER.
  rewrite ER, (bind_Ok _ _ _ _ _ (load_content b Hwf)).
  pose proof (writable_wf _ Hwo1) as EW1.
  destruct (append_spec o1 (content b) Hwo1) as (o2 & Eo2 & Hwo2 & HCo2 & Hro2 & Hso2).
  { rewrite (zlen_content _ Hwf). destruct Hwo1. lia. }
  rewrite (bind_Ok _ _ b (tt, o2) b) by (unfold lift_res; by rewrite Eo2).
  exists o2. split; [done|]. split; [done|].
  rewrite HCo2, HCo1, HCo. split; [done|].
  rewrite (zlen_content _ Hwf) in Hso2. destruct Hwo2. lia.
Qed.
End operations.

(** * Searching *)

Section search.
Lemma std_search_le pat l : (std_search pat l <= length l)%nat.
Proof. induction l as [|x l IH]; simpl; [lia|]. case_decide; lia. Qed.

Lemma std_search_found pat l :
  (std_search pat l < length l)%nat -> take (length pat) (drop (std_search pat l) l) = pat.
Proof.
  induction l as [|x l IH]; cbn [std_search length]; [lia|].
  case_decide as E; intros H; [done|]. apply IH. lia.
Qed.

Lemma std_search_before pat l j :
  (j < std_search pat l)%nat -> take (length pat) (drop j l) ≠ pat.
Proof.
  revert j; induction l as [|x l IH]; intros j; cbn [std_search]; [lia|].
  case_decide as E; [lia|]. destruct j as [|j]; [done|]. intros H.
  change (drop (S j) (x :: l)) with (drop j l). apply IH. lia.
Qed.

Lemma std_search_None pat l j :
  pat ≠ [] -> std_search pat l = length l -> take (length pat) (drop j l) ≠ pat.
Proof.
  intros Hp Hn. destruct (decide (j < length l)%nat).
  - apply std_search_before. lia.
  - rewrite drop_ge, take_nil by lia. done.
Qed.

Lemma memchr_Some c l i :
  memchr c l = Some i -> l !! i = Some c ∧ ∀ j, (j < i)%nat -> l !! j ≠ Some c.
Proof.
  revert i; induction l as [|x l IH]; intros i; simpl; [done|].
  case_decide as E.
  - intros [= <-]. split; [by subst|]. lia.
  - destruct (memchr c l) as [k|] eqn:Ek; [|done]. intros [= <-].
    destruct (IH k eq_refl) as [H1 H2]. split; [done|].
    intros [|j] Hj; simpl; [congruence|]. apply H2. lia.
Qed.

Lemma memchr_None c l : memchr c l = None -> c ∉ l.
Proof.
  induction l as [|x l IH]; simpl; [set_solver|].
  case_decide as E; [done|]. destruct (memchr c l); [done|]. set_solver.
Qed.
End search.

(** * readFd *)

(** [readv(2)]: at most the sum of the vectors' lengths is delivered. *)
Definition readv_bounded (readv : Z -> list Z -> Z + list byte) : Prop :=
  ∀ fd lens d, readv fd lens = inr d -> zlen d <= foldr Z.add 0 lens.

Lemma readFd_spec readv fd b d :
  readv_bounded readv -> wf b -> zlen (buffer_ b) + extrabuf_size <= max_size ->
  let lens := if writableBytes b <? extrabuf_size
              then [writableBytes b; extrabuf_size] else [writableBytes b] in
  readv fd lens = inr d ->
  ∃ b', readFd readv fd b = Ok ((zlen d, None), b') ∧ wf b' ∧ content b' = content b ++ d ∧
    zlen (buffer_ b) <= zlen (buffer_ b').
Proof.
  intros Hbound Hwf Hmax lens E. unfold readFd. rewrite (bind_Ok _ _ b b b) by done.
  fold lens. rewrite E. pose proof (Hbound _ _ _ E) as Hd.
  pose proof (writable_wf _ Hwf) as EW. pose proof Hwf as [??].
  unfold extrabuf_size, max_size in *.
  set (d1 := take (Z.to_nat (writableBytes b)) d).
  assert (zlen d1 = Z.min (writableBytes b) (zlen d)) as Hd1
    by (subst d1; rewrite length_take; lia).
  rewrite (bind_Ok _ _ _ _ _ (store_Ok b (writerIndex_ b) d1 ltac:(lia) ltac:(lia))).
  destruct (Z.leb_spec (zlen d) (writableBytes b)) as [Hle|Hgt].
  - eexists; split; [reflexivity|]. unfold wf, content; simpl.
    rewrite u64_small, zlen_splice by lia. unfold max_size. split; [lia|]. split; [|lia].
    replace d1 with d in * by (symmetry; apply take_ge; lia).
    by rewrite range_splice_after by lia.
  - (* the buffer is filled, the rest comes from extrabuf *)
    set (b1 := set_writer (zlen (buffer_ b)) (set_buffer (splice (writerIndex_ b) d1 (buffer_ b)) b)).
    assert (wf b1) as Hwf1
      by (unfold wf, max_size; simpl; rewrite zlen_splice by lia; lia).
    assert (content b1 = content b ++ d1) as HC1.
    { unfold content; simpl. replace (zlen (buffer_ b)) with (writerIndex_ b + zlen d1) by lia.
      by rewrite range_splice_after by lia. }
    set (d2 := drop (Z.to_nat (writableBytes b)) d).
    assert (zlen d2 <= 65536) as Hd2.
    { subst d2 lens. rewrite length_drop.
      destruct (Z.ltb_spec (writableBytes b) 65536); simpl in Hd; lia. }
    destruct (append_spec b1 d2 Hwf1) as (b2 & E2 & Hwf2 & HC2 & _ & Hs2).
    { simpl. unfold max_size. lia. }
    simpl in Hs2. rewrite zlen_splice in Hs2 by lia.
    exists b2. split.
    { unfold mbind, M_bind, modify in *. fold b1. rewrite E2. done. }
    split; [done|]. split; [|lia].
    rewrite HC2, HC1, <- app_assoc. f_equal. apply take_drop.
Qed.
