(* ===== verification/BufferProps.v ===== *)
(** What the network buffer promises its clients: a queue of bytes with
    headroom in front, which no sequence of legal calls can make fault. *)
From S2P Require Import Prelude Endian Buffer.

(** * The abstract queue *)

(** The contents, and the headroom guaranteed in front of them. *)
Record queue := mkQueue { q_bytes : list byte; q_room : Z }.

Inductive op :=
| OpAppend (d : list byte)
| OpPrepend (d : list byte)
| OpRetrieve (n : Z)
| OpRetrieveUntil (n : Z)
| OpRetrieveAll
| OpRetrieveAsString (n : Z)
| OpRetrieveAllAsString
| OpUnwrite (n : Z)
| OpEnsureWritable (n : Z)
| OpShrink (reserve : Z).

(** The call each operation stands for; [retrieveUntil] is given a pointer [n]
    bytes after [peek()]. *)
Definition run_op (o : op) : M Buffer (list byte) :=
  match o with
  | OpAppend d => append d ;; mret []
  | OpPrepend d => prepend d ;; mret []
  | OpRetrieve n => retrieve n ;; mret []
  | OpRetrieveUntil n => b ← get; retrieveUntil (peek b + n) ;; mret []
  | OpRetrieveAll => retrieveAll ;; mret []
  | OpRetrieveAsString n => retrieveAsString n
  | OpRetrieveAllAsString => retrieveAllAsString
  | OpUnwrite n => unwrite n ;; mret []
  | OpEnsureWritable n => ensureWritableBytes n ;; mret []
  | OpShrink reserve => shrink reserve ;; mret []
  end.

Fixpoint run_ops (os : list op) : M Buffer (list (list byte)) :=
  match os with
  | [] => mret []
  | o :: os' => out ← run_op o; outs ← run_ops os'; mret (out :: outs)
  end.

Definition q_retrieve (n : Z) (q : queue) : queue :=
  mkQueue (drop (Z.to_nat n) (q_bytes q))
          (if n <? zlen (q_bytes q) then q_room q + n else kCheapPrepend).

Definition spec_op (o : op) (q : queue) : option (list byte * queue) :=
  let len := zlen (q_bytes q) in
  let fits n := (0 <=? n) && (n <=? len) in
  let low := Z.min (q_room q) kCheapPrepend in
  match o with
  | OpAppend d => Some ([], mkQueue (q_bytes q ++ d) low)
  | OpPrepend d =>
      if zlen d <=? q_room q then Some ([], mkQueue (d ++ q_bytes q) (q_room q - zlen d)) else None
  | OpRetrieve n | OpRetrieveUntil n => if fits n then Some ([], q_retrieve n q) else None
  | OpRetrieveAll => Some ([], mkQueue [] kCheapPrepend)
  | OpRetrieveAsString n =>
      if fits n then Some (take (Z.to_nat n) (q_bytes q), q_retrieve n q) else None
  | OpRetrieveAllAsString => Some (q_bytes q, mkQueue [] kCheapPrepend)
  | OpUnwrite n =>
      if fits n then Some ([], mkQueue (take (Z.to_nat (len - n)) (q_bytes q)) (q_room q)) else None
  | OpEnsureWritable n => if 0 <=? n then Some ([], mkQueue (q_bytes q) low) else None
  | OpShrink reserve =>
      if (0 <=? reserve) && (len <? 2 ^ 31) then Some ([], mkQueue (q_bytes q) kCheapPrepend)
      else None
  end.

Fixpoint spec_ops (os : list op) (q : queue) : option (list (list byte) * queue) :=
  match os with
  | [] => Some ([], q)
  | o :: os' =>
      '(out, q1) ← spec_op o q; '(outs, q2) ← spec_ops os' q1; Some (out :: outs, q2)
  end.

(** By how much an operation may lengthen the vector. *)
Definition op_growth (o : op) : Z :=
  match o with
  | OpAppend d => zlen d
  | OpEnsureWritable n => n
  | OpShrink reserve => kCheapPrepend + kInitialSize + 2 ^ 32 + reserve
  | _ => 0
  end.

Definition growth (os : list op) : Z := foldr (λ o n, op_growth o + n) 0 os.

(** The buffer [b] holds the queue [q]. *)
Definition represents (b : Buffer) (q : queue) : Prop :=
  wf b ∧ kCheapPrepend <= zlen (buffer_ b) ∧ content b = q_bytes q ∧ 0 <= q_room q <= readerIndex_ b.

Lemma represents_len b q : represents b q -> readableBytes b = zlen (q_bytes q).
Proof. intros (Hwf & _ & <- & _). symmetry. by apply zlen_content. Qed.

Lemma represents_retrieve b b' q n :
  represents b q -> wf b' -> 0 <= n <= readableBytes b ->
  content b' = drop (Z.to_nat n) (content b) ->
  readerIndex_ b' = (if decide (n < readableBytes b) then readerIndex_ b + n else kCheapPrepend) ->
  buffer_ b' = buffer_ b ->
  represents b' (q_retrieve n q).
Proof.
  intros HR Hwf' Hn HC Hr Hb. pose proof (represents_len _ _ HR) as HL.
  destruct HR as (Hwf & Hk & Hc & Hroom). unfold represents, q_retrieve; simpl.
  rewrite Hb, HC, Hc, Hr, HL. repeat (split; [done|]).
  unfold kCheapPrepend in *.
  destruct (Z.ltb_spec n (zlen (q_bytes q))); repeat case_decide; lia.
Qed.

Ltac spec_inv H :=
  repeat match type of H with
  | context [ (?a <=? ?b) && (?c <=? ?d) ] => destruct (Z.leb_spec a b), (Z.leb_spec c d); cbn [andb] in H; try done
  | context [ (?a <=? ?b) && (?c <? ?d) ] => destruct (Z.leb_spec a b), (Z.ltb_spec c d); cbn [andb] in H; try done
  | (if ?a <=? ?b then _ else _) = _ => destruct (Z.leb_spec a b); try done
  end;
  injection H as <- <-.

Lemma run_op_refines o b q out q' :
  represents b q -> spec_op o q = Some (out, q') ->
  zlen (buffer_ b) + op_growth o <= max_size ->
  ∃ b', run_op o b = Ok (out, b') ∧ represents b' q' ∧
    zlen (buffer_ b') <= zlen (buffer_ b) + op_growth o.
Proof.
  intros HR HS Hmax. pose proof (represents_len _ _ HR) as HL.
  pose proof HR as (Hwf & Hk & Hc & Hroom). pose proof Hwf as [??].
  destruct o; cbn [spec_op run_op op_growth] in *; spec_inv HS.
  - destruct (append_spec b d Hwf ltac:(lia)) as (b' & E & Hwf' & HC & Hr & Hs).
    exists b'. msimp. rewrite E. split; [done|]. split; [|lia].
    unfold represents; simpl. rewrite HC, Hc. unfold kCheapPrepend in *. repeat (split; [done || lia|]). lia.
  - destruct (prepend_spec b d Hwf) as (b' & E & Hwf' & HC & Hr & Hs); [unfold prependableBytes; lia|].
    exists b'. msimp. rewrite E. split; [done|]. split; [|lia].
    unfold represents; simpl. rewrite HC, Hc. repeat (split; [done || lia|]). lia.
  - destruct (retrieve_spec b n Hwf Hk ltac:(lia)) as (b' & E & Hwf' & HC & Hr & Hs).
    exists b'. msimp. rewrite E. split; [done|]. rewrite Hs. split; [|lia].
    apply represents_retrieve with b; auto; lia.
  - pose proof (readable_wf _ Hwf).
    destruct (retrieve_spec b n Hwf Hk ltac:(lia)) as (b' & E & Hwf' & HC & Hr & Hs).
    exists b'. unfold retrieveUntil, peek, beginWrite. msimp.
    rewrite !assert_leb by lia. rewrite Z.add_simpl_l, E. split; [done|]. rewrite Hs. split; [|lia].
    apply represents_retrieve with b; auto; lia.
  - destruct (retrieveAll_spec b Hwf Hk) as (b' & E & Hwf' & HC & Hr & Hs).
    exists b'. msimp. rewrite E. split; [done|]. rewrite Hs. split; [|lia].
    unfold represents; simpl. rewrite HC, Hr, Hs. unfold kCheapPrepend in *. repeat (split; [done || lia|]). lia.
  - destruct (retrieveAsString_spec b n Hwf Hk ltac:(lia)) as (b' & E & E').
    destruct (retrieve_spec b n Hwf Hk ltac:(lia)) as (b'' & E'' & Hwf' & HC & Hr & Hs).
    rewrite E' in E''. injection E'' as <-.
    exists b'. rewrite E, Hc. split; [done|]. rewrite Hs. split; [|lia].
    apply represents_retrieve with b; auto; lia.
  - destruct (retrieveAsString_spec b (readableBytes b) Hwf Hk ltac:(lia)) as (b' & E & E').
    destruct (retrieve_spec b (readableBytes b) Hwf Hk ltac:(lia)) as (b'' & E'' & Hwf' & HC & Hr & Hs).
    rewrite E' in E''. injection E'' as <-.
    exists b'. unfold retrieveAllAsString. msimp. rewrite E, Hc, HL.
    rewrite take_ge by lia. split; [done|]. rewrite Hs. split; [|lia].
    rewrite decide_False in Hr by lia.
    unfold represents; simpl. rewrite HC, Hr, Hs, Hc, HL, drop_ge by lia.
    unfold kCheapPrepend in *. repeat (split; [done || lia|]). lia.
  - destruct (unwrite_spec b n Hwf ltac:(lia)) as (b' & E & Hwf' & HC & Hr & Hs).
    exists b'. msimp. rewrite E. split; [done|]. rewrite Hs. split; [|lia].
    unfold represents; simpl. rewrite HC, Hr, Hs, Hc, HL. done.
  - destruct (ensureWritableBytes_spec b n Hwf ltac:(lia) ltac:(lia)) as (b' & E & Hwf' & HC & _ & Hr & Hs).
    exists b'. msimp. rewrite E. split; [done|]. split; [|lia].
    unfold represents; simpl. rewrite HC, Hc. unfold kCheapPrepend in *. repeat (split; [done || lia|]). lia.
  - destruct (shrink_spec b reserve Hwf ltac:(lia) ltac:(lia)) as (b' & E & Hwf' & HC & Hr & Hl & Hs).
    { unfold kCheapPrepend, kInitialSize in *. lia. }
    exists b'. msimp. rewrite E. split; [done|]. split; [|unfold kCheapPrepend, kInitialSize in *; lia].
    unfold represents; simpl. rewrite HC, Hc. unfold kCheapPrepend in *. repeat (split; [done || lia|]). lia.
Qed.

Lemma op_growth_nonneg o q r : spec_op o q = Some r -> 0 <= op_growth o.
Proof.
  destruct r as [out q']. destruct o; cbn [spec_op op_growth]; intros HS;
    try lia; spec_inv HS; unfold kCheapPrepend, kInitialSize; lia.
Qed.

Lemma growth_nonneg os q r : spec_ops os q = Some r -> 0 <= growth os.
Proof.
  revert q r; induction os as [|o os IH]; intros q r; cbn [spec_ops growth foldr]; [lia|].
  destruct (spec_op o q) as [[out q1]|] eqn:E1; [|done]. simpl.
  destruct (spec_ops os q1) as [[outs q2]|] eqn:E2; [|done]. intros _.
  pose proof (op_growth_nonneg _ _ _ E1). pose proof (IH _ _ E2). unfold growth in *. lia.
Qed.

(** C1: the buffer refines the byte queue: on every sequence of calls the
    abstract queue allows (no more bytes consumed or unwritten than there are,
    no more prepended than the headroom), and as long as the vector stays below
    [max_size], no assertion fails, no access leaves the vector, every returned
    string is the one the queue returns and the final contents agree. *)
Theorem Buffer_refines_queue os b q outs q' :
  represents b q -> spec_ops os q = Some (outs, q') ->
  zlen (buffer_ b) + growth os <= max_size ->
  ∃ b', run_ops os b = Ok (outs, b') ∧ represents b' q'.
Proof.
  revert b q outs. induction os as [|o os IH]; intros b q outs HR HS Hmax; simpl in HS.
  - injection HS as <- <-. by exists b.
  - destruct (spec_op o q) as [[out q1]|] eqn:E1; [|done]. simpl in HS.
    destruct (spec_ops os q1) as [[outs' q2]|] eqn:E2; [|done]. injection HS as <- <-.
    cbn [growth foldr] in Hmax. pose proof (growth_nonneg _ _ _ E2) as Hpos.
    unfold growth in *.
    destruct (run_op_refines o b q out q1 HR E1 ltac:(lia)) as (b1 & R1 & HR1 & Hl).
    destruct (IH b1 q1 outs' HR1 E2 ltac:(lia)) as (b2 & R2 & HR2).
    exists b2. cbn [run_ops]. by rewrite (bind_Ok _ _ _ _ _ R1), (bind_Ok _ _ _ _ _ R2).
Qed.

Definition buf0 : Buffer := mkBuffer (replicate 16 x00) 8 8.
Definition hello : list byte := [x68; x65; x6c; x6c; x6f].

Lemma Buffer_refines_queue_witness :
  ∃ b', run_ops [OpAppend hello; OpRetrieveAsString 2; OpAppend (hello ++ hello); OpPrepend [x00];
                 OpUnwrite 3; OpShrink 7; OpRetrieve 1; OpEnsureWritable 9; OpRetrieveAllAsString] buf0
        = Ok ([[]; [x68; x65]; []; []; []; []; []; []; [x6c; x6c; x6f] ++ hello ++ [x68; x65]], b') ∧
      represents b' (mkQueue [] 8).
Proof.
  apply (Buffer_refines_queue _ buf0 (mkQueue [] 8)).
  - repeat split; vm_compute; discriminate.
  - vm_compute. reflexivity.
  - vm_compute. discriminate.
Defined.

(** C27: [readFd] on every outcome of [readv]: an error leaves the buffer alone
    and reports [errno]; data are appended to the contents in order, also when
    they spill into [extrabuf], and the result is their number; the call never
    faults. *)
Theorem readFd_correct readv fd b :
  readv_bounded readv -> wf b -> zlen (buffer_ b) + extrabuf_size <= max_size ->
  let lens := if writableBytes b <? extrabuf_size
              then [writableBytes b; extrabuf_size] else [writableBytes b] in
  match readv fd lens with
  | inl errno => readFd readv fd b = Ok ((-1, Some errno), b)
  | inr d => ∃ b', readFd readv fd b = Ok ((zlen d, None), b') ∧ wf b' ∧
                   content b' = content b ++ d
  end.
Proof.
  intros Hbound Hwf Hmax lens. destruct (readv fd lens) as [e|d] eqn:E.
  - unfold readFd. rewrite (bind_Ok _ _ b b b) by done. fold lens. by rewrite E.
  - destruct (readFd_spec readv fd b d Hbound Hwf Hmax E) as (b' & R & Hwf' & HC & _). eauto.
Qed.

(** A kernel that delivers 20 bytes to whoever has room for them. *)
Definition readv20 (fd : Z) (lens : list Z) : Z + list byte :=
  if 20 <=? foldr Z.add 0 lens then inr (replicate 20 x41) else inl 11.

Lemma readFd_correct_witness :
  ∃ b', readFd readv20 3 (set_writer 13 buf0) = Ok ((20, None), b') ∧ wf b' ∧
        content b' = content (set_writer 13 buf0) ++ replicate 20 x41.
Proof.
  apply (readFd_correct readv20 3 (set_writer 13 buf0)).
  - intros fd lens d. unfold readv20. destruct (Z.leb_spec 20 (foldr Z.add 0 lens)); [|done].
    intros [= <-]. exact H.
  - repeat split; vm_compute; discriminate.
  - vm_compute. discriminate.
Defined.

(** [findCRLF] returns the position of the first CRLF among the readable
    bytes, and NULL exactly when there is none; it does not change the buffer. *)
Theorem findCRLF_first b :
  wf b ->
  ∃ r, findCRLF b = Ok (r, b) ∧
    match r with
    | Some p =>
        peek b <= p < beginWrite b ∧
        take 2 (drop (Z.to_nat (p - peek b)) (content b)) = kCRLF ∧
        ∀ j, (j < Z.to_nat (p - peek b))%nat -> take 2 (drop j (content b)) ≠ kCRLF
    | None => ∀ j, take 2 (drop j (content b)) ≠ kCRLF
    end.
Proof.
  intros Hwf. pose proof (zlen_content' _ Hwf) as HL. pose proof Hwf as [Hr Hw].
  unfold findCRLF. rewrite (bind_Ok _ _ b b b) by done. unfold peek, beginWrite.
  rewrite (bind_Ok _ _ _ _ _ (load_content _ Hwf)).
  pose proof (std_search_le kCRLF (content b)) as Hle.
  eexists; split; [reflexivity|].
  destruct (Z.eqb_spec (readerIndex_ b + Z.of_nat (std_search kCRLF (content b))) (writerIndex_ b)).
  - intros j. apply (std_search_None kCRLF); [done|lia].
  - split; [lia|]. rewrite Z.add_simpl_l, Nat2Z.id. split.
    + apply (std_search_found kCRLF). lia.
    + intros j Hj. by apply (std_search_before kCRLF).
Qed.

Lemma findCRLF_first_witness :
  ∃ r, findCRLF (mkBuffer [x41; x0d; x41; x0d; x0a; x0d; x0a; x00] 0 7) =
       Ok (r, mkBuffer [x41; x0d; x41; x0d; x0a; x0d; x0a; x00] 0 7) ∧ r = Some 3.
Proof.
  destruct (findCRLF_first (mkBuffer [x41; x0d; x41; x0d; x0a; x0d; x0a; x00] 0 7)) as (r & E & _).
  { repeat split; vm_compute; discriminate. }
  exists r. split; [exact E|]. vm_compute in E. congruence.
Defined.

(** * Integers through the buffer *)

(** The first bytes of the contents, as the [peekIntN] family loads them. *)
Lemma peek_load b d rest :
  wf b -> content b = d ++ rest ->
  zlen d <= readableBytes b ∧ load (peek b) (zlen d) b = Ok (d, b).
Proof.
  intros Hwf HC. pose proof (zlen_content _ Hwf) as HL. pose proof (readable_wf _ Hwf) as ER.
  rewrite HC, length_app in HL. split; [lia|]. unfold peek. destruct Hwf.
  rewrite load_Ok by lia. do 2 f_equal.
  rewrite (range_take _ _ (writerIndex_ b - readerIndex_ b)) by lia.
  fold (content b). rewrite HC, Nat2Z.id. by rewrite take_app_length.
Qed.

Lemma represents_wf b q : represents b q -> wf b.
Proof. by intros []. Qed.

(** Reading an integer of [w] bytes off the front: what [peek] returns and what
    remains. *)
Lemma read_front (peekInt : M Buffer Z) (f : Z -> Z) (w : Z) b q d rest :
  (∀ b, peekInt b = (b ← get; assert (w <=? readableBytes b) ;; d ← load (peek b) w; mret (f (le_val d))) b) ->
  represents b q -> q_bytes q = d ++ rest -> zlen d = w ->
  ∃ b', (r ← peekInt; retrieve w ;; mret r) b = Ok (f (le_val d), b') ∧
        represents b' (q_retrieve w q).
Proof.
  intros Hp HR Hq Hd. destruct HR as (Hwf & Hk & HC & Hroom) eqn:?.
  destruct (peek_load b d rest Hwf) as [Hle Hload]; [congruence|].
  destruct (retrieve_spec b w Hwf Hk ltac:(lia)) as (b' & E & Hwf' & HC' & Hr & Hs).
  exists b'. split.
  - assert (peekInt b = Ok (f (le_val d), b)) as Ep.
    { rewrite Hp, (bind_Ok _ _ b b b) by done.
      rewrite (bind_Ok _ _ b tt b) by (apply assert_leb; lia).
      rewrite <- Hd. by rewrite (bind_Ok _ _ _ _ _ Hload). }
    by rewrite (bind_Ok _ _ _ _ _ Ep), (bind_Ok _ _ _ _ _ E).
  - apply represents_retrieve with b; auto; lia.
Qed.

(** The bytes [appendInt16] and [appendInt32] put on the wire. *)
Definition wire16 (x : Z) : list byte := le_bytes 2 (s16 (sockets.hostToNetwork16 (u16 x))).
Definition wire32 (x : Z) : list byte := le_bytes 4 (s32 (sockets.hostToNetwork32 (u32 x))).
Definition wire64 (x : Z) : list byte := le_bytes 8 (s64 (sockets.hostToNetwork64 (u64 x))).

Lemma u16_idem x : u16 (u16 x) = u16 x. Proof. apply Z.mod_mod. done. Qed.
Lemma u32_idem x : u32 (u32 x) = u32 x. Proof. apply Z.mod_mod. done. Qed.
Lemma u64_idem x : u64 (u64 x) = u64 x. Proof. apply Z.mod_mod. done. Qed.
Lemma u16_s16 x : u16 (s16 x) = u16 x. Proof. by apply swrap_unsigned. Qed.
Lemma s16_u16 x : s16 (u16 x) = s16 x. Proof. by apply swrap_mod. Qed.
Lemma u32_s32 x : u32 (s32 x) = u32 x. Proof. by apply swrap_unsigned. Qed.
Lemma s32_u32 x : s32 (u32 x) = s32 x. Proof. by apply swrap_mod. Qed.
Lemma u64_s64 x : u64 (s64 x) = u64 x. Proof. by apply swrap_unsigned. Qed.
Lemma s64_u64 x : s64 (u64 x) = s64 x. Proof. by apply swrap_mod. Qed.

Lemma unwire16 x : s16 (sockets.networkToHost16 (u16 (s16 (le_val (wire16 x))))) = s16 x.
Proof.
  unfold wire16. rewrite le_val_bytes. change (256 ^ Z.of_nat 2) with (2 ^ 16). fold (u16 (s16 (sockets.hostToNetwork16 (u16 x)))).
  rewrite !u16_s16, !u16_idem. unfold sockets.hostToNetwork16 at 1. rewrite u16_idem.
  fold (sockets.hostToNetwork16 (u16 x)).
  rewrite networkToHost16_hostToNetwork16, u16_idem. apply s16_u16.
Qed.

Lemma unwire32 x : s32 (sockets.networkToHost32 (u32 (s32 (le_val (wire32 x))))) = u16 x.
Proof.
  unfold wire32. rewrite le_val_bytes. change (256 ^ Z.of_nat 4) with (2 ^ 32). fold (u32 (s32 (sockets.hostToNetwork32 (u32 x)))).
  rewrite !u32_s32, !u32_idem. unfold sockets.hostToNetwork32 at 1. rewrite u32_idem.
  fold (sockets.hostToNetwork32 (u32 x)).
  rewrite networkToHost32_hostToNetwork32.
  assert (u16 (u32 x) = u16 x) as ->.
  { unfold u16, u32. change (2 ^ 32) with (2 ^ 16 * 2 ^ 16).
    rewrite Z.rem_mul_r by lia. rewrite Z.mul_comm, Z.mod_add by lia. by apply Z.mod_mod. }
  apply swrap_small; [done|]. unfold u16. pose proof (Z.mod_pos_bound x (2 ^ 16)). lia.
Qed.

Lemma unwire64 x : s64 (sockets.networkToHost64 (u64 (s64 (le_val (wire64 x))))) = 0.
Proof.
  unfold wire64. rewrite le_val_bytes. change (256 ^ Z.of_nat 8) with (2 ^ 64). fold (u64 (s64 (sockets.hostToNetwork64 (u64 x)))).
  rewrite !u64_s64, !u64_idem.
  assert (u64 (sockets.hostToNetwork64 (u64 x)) = sockets.hostToNetwork64 (u64 x)) as ->.
  { apply u64_small. unfold sockets.hostToNetwork64, u32.
    pose proof (Z.mod_pos_bound (htobe64 (u64 x)) (2 ^ 32)). lia. }
  rewrite networkToHost64_hostToNetwork64. done.
Qed.

(** [n] successive [readInt16] calls. *)
Fixpoint readInt16s (n : nat) : M Buffer (list Z) :=
  match n with
  | O => mret []
  | S n' => x ← readInt16; xs ← readInt16s n'; mret (x :: xs)
  end.

Lemma appendInt16s_spec xs b q :
  represents b q -> zlen (buffer_ b) + 2 * zlen xs <= max_size ->
  ∃ b' room, mapM_ appendInt16 xs b = Ok (tt, b') ∧
    represents b' (mkQueue (q_bytes q ++ concat (wire16 <$> xs)) room).
Proof.
  revert b q. induction xs as [|x xs IH]; intros b q HR Hmax; cbn [mapM_ fmap list_fmap concat].
  - exists b, (q_room q). rewrite app_nil_r. by destruct q.
  - cbn [length] in Hmax.
    destruct (run_op_refines (OpAppend (wire16 x)) b q _ _ HR eq_refl) as (b1 & E & HR1 & Hl).
    { simpl. lia. }
    simpl in Hl. destruct (IH b1 _ HR1 ltac:(lia)) as (b2 & room & E2 & HR2).
    exists b2, room. cbn [run_op] in E. apply bind_inv in E as ([] & s & E & E').
    injection E' as ->. rewrite (bind_Ok _ _ b tt b1) by done.
    split; [done|]. simpl in HR2. by rewrite <- app_assoc in HR2.
Qed.

Lemma readInt16s_spec xs b q :
  represents b q -> q_bytes q = concat (wire16 <$> xs) ->
  ∃ b', readInt16s (length xs) b = Ok (s16 <$> xs, b') ∧ content b' = [].
Proof.
  revert b q. induction xs as [|x xs IH]; intros b q HR HQ; cbn [readInt16s length fmap list_fmap] in *.
  - exists b. split; [done|]. destruct HR as (_ & _ & -> & _). done.
  - destruct (read_front peekInt16 (λ v, s16 (sockets.networkToHost16 (u16 (s16 v)))) 2 b q
                (wire16 x) (concat (wire16 <$> xs))) as (b1 & E & HR1); [done..|].
    change (r ← peekInt16; retrieve 2 ;; mret r) with readInt16 in E.
    cbv beta in E. rewrite unwire16 in E.
    destruct (IH b1 _ HR1) as (b2 & E2 & HC).
    { simpl. rewrite HQ. done. }
    exists b2. by rewrite (bind_Ok _ _ _ _ _ E), (bind_Ok _ _ _ _ _ E2).
Qed.

(** 16-bit integers survive the buffer: any list of [int16_t] appended to an
    empty buffer is read back, in order, by as many [readInt16] calls, which
    leave the buffer empty. *)
Theorem int16_stream_roundtrip xs b room :
  represents b (mkQueue [] room) -> Forall (λ x, - 2 ^ 15 <= x < 2 ^ 15) xs ->
  zlen (buffer_ b) + 2 * zlen xs <= max_size ->
  ∃ b', (mapM_ appendInt16 xs ;; readInt16s (length xs)) b = Ok (xs, b') ∧ content b' = [].
Proof.
  intros HR Hxs Hmax.
  destruct (appendInt16s_spec xs b _ HR Hmax) as (b1 & r & E1 & HR1).
  destruct (readInt16s_spec xs b1 _ HR1 eq_refl) as (b2 & E2 & HC).
  exists b2. rewrite (bind_Ok _ _ _ _ _ E1), E2. split; [|done]. do 2 f_equal.
  clear -Hxs. induction Hxs as [|x xs Hx _ IH]; [done|]. cbn [fmap list_fmap]. f_equal; [|done].
  by apply swrap_small.
Qed.

Lemma int16_stream_roundtrip_witness :
  ∃ b', (mapM_ appendInt16 [258; -2; 32767] ;; readInt16s 3) buf0 = Ok ([258; -2; 32767], b') ∧
        content b' = [].
Proof.
  apply (int16_stream_roundtrip [258; -2; 32767] buf0 8).
  - repeat split; vm_compute; discriminate.
  - repeat constructor; vm_compute; try discriminate; done.
  - vm_compute. discriminate.
Defined.

(** The wider integers do not survive it: [Endian.h] declares the 32-bit
    conversion to host order as returning [uint16_t] and both 64-bit ones as
    returning narrower types, so [readInt32] after [appendInt32 x] yields only the
    low 16 bits of [x], unsigned, and [readInt64] after [appendInt64 x] yields 0
    for every [x]. *)
Theorem int32_int64_truncated b room x :
  represents b (mkQueue [] room) -> zlen (buffer_ b) + 8 <= max_size ->
  (∃ b', (appendInt32 x ;; readInt32) b = Ok (x mod 2 ^ 16, b')) ∧
  (∃ b', (appendInt64 x ;; readInt64) b = Ok (0, b')).
Proof.
  intros HR Hmax. split.
  - destruct (run_op_refines (OpAppend (wire32 x)) b _ _ _ HR eq_refl) as (b1 & E & HR1 & _); [simpl; lia|].
    cbn [run_op] in E. apply bind_inv in E as ([] & s & E & E'). injection E' as ->.
    destruct (read_front peekInt32 (λ v, s32 (sockets.networkToHost32 (u32 (s32 v)))) 4 b1 _
                (wire32 x) [] (λ _, eq_refl) HR1) as (b2 & E2 & _); [done..|].
    exists b2. rewrite (bind_Ok _ _ b tt b1) by done. cbv beta in E2. by rewrite unwire32 in E2.
  - destruct (run_op_refines (OpAppend (wire64 x)) b _ _ _ HR eq_refl) as (b1 & E & HR1 & _); [simpl; lia|].
    cbn [run_op] in E. apply bind_inv in E as ([] & s & E & E'). injection E' as ->.
    destruct (read_front peekInt64 (λ v, s64 (sockets.networkToHost64 (u64 (s64 v)))) 8 b1 _
                (wire64 x) [] (λ _, eq_refl) HR1) as (b2 & E2 & _); [done..|].
    exists b2. rewrite (bind_Ok _ _ b tt b1) by done. cbv beta in E2. by rewrite unwire64 in E2.
Qed.

Lemma int32_int64_truncated_witness :
  (∃ b', (appendInt32 65537 ;; readInt32) buf0 = Ok (1, b')) ∧
  (∃ b', (appendInt64 65537 ;; readInt64) buf0 = Ok (0, b')).
Proof.
  apply (int32_int64_truncated buf0 8 65537).
  - repeat split; vm_compute; discriminate.
  - vm_compute. discriminate.
Defined.
