(* ===== verification/FixedBuffer.v ===== *)
(** The log buffers: the fixed-size array of
    [PracticeMuduo/common/FixedBuffer.h] that the logging library uses, and the
    earlier one of [common/FixedBuffer.h].  The array's initial contents are
    indeterminate and given to the constructor; [cur_] is an offset. *)
From S2P Require Import Prelude.

Definition kSmallBuffer : Z := 4000.
Definition kLargeBuffer : Z := 4000 * 1000.

Record FixedBuffer := mkFixedBuffer { data_ : list byte; cur_ : Z }.

#[export] Instance FixedBuffer_eq_dec : EqDecision FixedBuffer.
Proof. solve_decision. Defined.

(** [FixedBuffer() : cur_(data_)] on an array with the given initial contents. *)
Definition new_FixedBuffer (garbage : list byte) : FixedBuffer := mkFixedBuffer garbage 0.

(** [sizeof data_], the template argument. *)
Definition SIZE (fb : FixedBuffer) : Z := zlen (data_ fb).

Definition end_ (fb : FixedBuffer) : Z := SIZE fb.
Definition empty (fb : FixedBuffer) : bool := cur_ fb =? 0.
Definition full (fb : FixedBuffer) : bool := cur_ fb =? end_ fb.
Definition length_of (fb : FixedBuffer) : Z := s32 (cur_ fb).

(** [static_cast<int>(end()-data_)]: the size of the array, not the room left. *)
Definition available (fb : FixedBuffer) : Z := s32 (end_ fb - 0).

Definition current (fb : FixedBuffer) : Z := cur_ fb.

(** Writes at an offset of the array; outside it, undefined behaviour. *)
Definition poke (off : Z) (d : list byte) : M FixedBuffer unit := λ fb,
  if (0 <=? off) && (off + zlen d <=? SIZE fb)
  then Ok (tt, mkFixedBuffer (splice off d (data_ fb)) (cur_ fb)) else Fault UB.

Definition add (len : Z) : M FixedBuffer unit :=
  modify (λ fb, mkFixedBuffer (data_ fb) (cur_ fb + len)).

(** [memcpy(cur_, buf, len); cur_ += len;] *)
Definition memcpy_cur (d : list byte) : M FixedBuffer unit :=
  fb ← get; poke (cur_ fb) d ;; add (zlen d).

(** [for (...) *(cur_++) = str\[i\];] *)
Fixpoint copy_loop (d : list byte) : M FixedBuffer unit :=
  match d with
  | [] => mret tt
  | c :: d' => fb ← get; poke (cur_ fb) [c] ;; add 1 ;; copy_loop d'
  end.

(** [append(const std::string&)] *)
Definition append_string (str : list byte) : M FixedBuffer unit :=
  fb ← get;
  let len := s32 (zlen str) in
  let len := if available fb <? len then available fb else len in
  copy_loop (take (Z.to_nat len) str).

(** [append(const char* str)]: [str] is the string up to its terminating NUL. *)
Definition append_cstr (str : list byte) : M FixedBuffer unit :=
  fb ← get;
  let len := s32 (zlen str) in
  let len := if available fb <? len then available fb else len in
  memcpy_cur (take (Z.to_nat len) str).

(** [append(const char* buf, size_t len)] with the [len] bytes at [buf]. *)
Definition append (buf : list byte) : M FixedBuffer unit :=
  fb ← get;
  let len := if u64 (available fb) <? zlen buf then u64 (available fb) else zlen buf in
  memcpy_cur (take (Z.to_nat len) buf).

Definition reset : M FixedBuffer unit := modify (λ fb, mkFixedBuffer (data_ fb) 0).

Definition bzero : M FixedBuffer unit :=
  modify (λ fb, mkFixedBuffer (replicate (length (data_ fb)) x00) (cur_ fb)).

Definition ToString (fb : FixedBuffer) : list byte := range 0 (length_of fb) (data_ fb).

(** * The earlier version, [common/FixedBuffer.h] *)

Module Old.

Definition size (fb : FixedBuffer) : Z := s32 (cur_ fb).

(** [sizeof(data_)-size()], converted to [int]: the room left. *)
Definition available (fb : FixedBuffer) : Z := s32 (SIZE fb - size fb).

Definition append_string (str : list byte) : M FixedBuffer unit :=
  fb ← get;
  let len := s32 (zlen str) in
  let len := if available fb <? len then available fb else len in
  copy_loop (take (Z.to_nat len) str).

Definition append_cstr (str : list byte) : M FixedBuffer unit :=
  fb ← get;
  let len := s32 (zlen str) in
  let len := if available fb <? len then available fb else len in
  memcpy_cur (take (Z.to_nat len) str).

(** Takes the bytes whole or not at all. *)
Definition append (buf : list byte) : M FixedBuffer unit :=
  fb ← get;
  when (zlen buf <? u64 (available fb)) (memcpy_cur buf).

(** [memcpy(data_, 0, sizeof(data_))]: a copy from the null pointer. *)
Definition bzero : M FixedBuffer unit := fail UB.

Definition ToString (fb : FixedBuffer) : list byte := range 0 (size fb) (data_ fb).

(** [*cur_ = '\0'; return data_;] *)
Definition debugString : M FixedBuffer unit := fb ← get; poke (cur_ fb) [x00].

End Old.

(** * Invariant and contents *)

(** The cursor is inside the array, whose size is an [int]. *)
Definition fb_wf (fb : FixedBuffer) : Prop := 0 <= cur_ fb <= SIZE fb ∧ SIZE fb < 2 ^ 31.

Definition text (fb : FixedBuffer) : list byte := range 0 (cur_ fb) (data_ fb).

Lemma s32_small z : - 2 ^ 31 <= z < 2 ^ 31 -> s32 z = z.
Proof. intros. by apply (swrap_small 32). Qed.

Lemma available_SIZE fb : fb_wf fb -> available fb = SIZE fb.
Proof. intros [??]. unfold available, end_. rewrite Z.sub_0_r. apply s32_small. lia. Qed.

Lemma Old_available_room fb : fb_wf fb -> Old.available fb = SIZE fb - cur_ fb.
Proof.
  intros [??]. unfold Old.available, Old.size. rewrite (s32_small (cur_ fb)) by lia.
  apply s32_small. lia.
Qed.

Lemma ToString_text fb : fb_wf fb -> ToString fb = text fb.
Proof. intros [??]. unfold ToString, length_of, text. by rewrite s32_small by lia. Qed.

Lemma zlen_text fb : fb_wf fb -> zlen (text fb) = cur_ fb.
Proof. intros [??]. unfold text, SIZE in *. apply zlen_range; lia. Qed.

(** What a write of [d] at the cursor leads to. *)
Definition written (d : list byte) (fb : FixedBuffer) : FixedBuffer :=
  mkFixedBuffer (splice (cur_ fb) d (data_ fb)) (cur_ fb + zlen d).

Lemma written_spec fb d :
  fb_wf fb -> cur_ fb + zlen d <= SIZE fb ->
  fb_wf (written d fb) ∧ text (written d fb) = text fb ++ d ∧ SIZE (written d fb) = SIZE fb.
Proof.
  intros [??] Hd. unfold fb_wf, text, written, SIZE in *; simpl.
  rewrite zlen_splice by lia. split; [lia|]. split; [|done].
  replace (cur_ fb + zlen d) with (cur_ fb + zlen d - 0) by lia.
  rewrite range_splice_after by lia. by rewrite Z.sub_0_r.
Qed.

Lemma poke_Ok fb d :
  0 <= cur_ fb -> cur_ fb + zlen d <= SIZE fb ->
  poke (cur_ fb) d fb = Ok (tt, mkFixedBuffer (splice (cur_ fb) d (data_ fb)) (cur_ fb)).
Proof.
  intros. unfold poke. rewrite (proj2 (Z.leb_le 0 _)), (proj2 (Z.leb_le _ _)) by lia. done.
Qed.

Lemma poke_UB fb d : SIZE fb < cur_ fb + zlen d -> poke (cur_ fb) d fb = Fault UB.
Proof.
  intros. unfold poke. rewrite (proj2 (Z.leb_gt (cur_ fb + zlen d) _)) by lia.
  by rewrite andb_false_r.
Qed.

Lemma memcpy_cur_Ok fb d :
  fb_wf fb -> cur_ fb + zlen d <= SIZE fb -> memcpy_cur d fb = Ok (tt, written d fb).
Proof.
  intros [??] Hd. unfold memcpy_cur. rewrite (bind_Ok _ _ fb fb fb) by done.
  rewrite (bind_Ok _ _ _ _ _ (poke_Ok fb d ltac:(lia) Hd)). done.
Qed.

Lemma memcpy_cur_UB fb d : SIZE fb < cur_ fb + zlen d -> memcpy_cur d fb = Fault UB.
Proof. intros Hd. unfold memcpy_cur. msimp. by rewrite poke_UB. Qed.

Lemma splice_nil {A} off (l : list A) : 0 <= off -> splice off [] l = l.
Proof.
  Transparent splice. unfold splice. Opaque splice. intros. simpl.
  replace (Z.to_nat off + 0)%nat with (Z.to_nat off) by lia. apply take_drop.
Qed.

Lemma splice_cons {A} off (c : A) d l :
  0 <= off -> off + zlen (c :: d) <= zlen l ->
  splice (off + 1) d (splice off [c] l) = splice off (c :: d) l.
Proof.
  Transparent splice. unfold splice. Opaque splice. intros. simpl in *.
  rewrite take_app_ge by (rewrite length_take; lia).
  rewrite length_take. replace (Z.to_nat (off + 1) - _)%nat with 1%nat by lia. simpl.
  rewrite take_0, <- app_assoc. cbn [app]. do 3 f_equal.
  rewrite drop_app_ge by (rewrite length_take; lia). rewrite length_take.
  replace (Z.to_nat (off + 1) + length d - _)%nat with (S (length d)) by lia. simpl.
  rewrite drop_drop. f_equal. lia.
Qed.

(** The character loop writes what the block copy writes, and faults when it
    would. *)
Lemma copy_loop_Ok fb d :
  fb_wf fb -> cur_ fb + zlen d <= SIZE fb -> copy_loop d fb = Ok (tt, written d fb).
Proof.
  revert fb; induction d as [|c d IH]; intros fb Hwf Hd.
  - unfold written. destruct Hwf. rewrite splice_nil, Z.add_0_r by lia. by destruct fb.
  - cbn [copy_loop]. rewrite (bind_Ok _ _ fb fb fb) by done. cbn [length] in Hd.
    rewrite (bind_Ok _ _ _ _ _ (poke_Ok fb [c] ltac:(destruct Hwf; lia) ltac:(simpl; lia))).
    change (mkFixedBuffer _ (cur_ fb)) with (mkFixedBuffer (data_ (written [c] fb)) (cur_ fb)).
    rewrite (bind_Ok _ _ _ tt (written [c] fb)) by done.
    destruct (written_spec fb [c] Hwf ltac:(simpl; lia)) as (Hwf' & _ & HS).
    rewrite IH; [|done|rewrite HS; simpl; lia].
    f_equal. f_equal. unfold written; simpl.
    destruct Hwf. unfold SIZE in *. rewrite splice_cons by (simpl; lia). f_equal. lia.
Qed.

Lemma copy_loop_UB fb d :
  fb_wf fb -> SIZE fb < cur_ fb + zlen d -> copy_loop d fb = Fault UB.
Proof.
  revert fb; induction d as [|c d IH]; intros fb Hwf Hd; cbn [length] in Hd.
  { destruct Hwf. lia. }
  cbn [copy_loop]. rewrite (bind_Ok _ _ fb fb fb) by done.
  destruct (decide (cur_ fb < SIZE fb)) as [Hlt|Hge].
  - destruct (written_spec fb [c] Hwf ltac:(simpl; lia)) as (Hwf' & _ & HS).
    rewrite (bind_Ok _ _ _ _ _ (poke_Ok fb [c] ltac:(destruct Hwf; lia) ltac:(simpl; lia))).
    change (mkFixedBuffer _ (cur_ fb)) with (mkFixedBuffer (data_ (written [c] fb)) (cur_ fb)).
    rewrite (bind_Ok _ _ _ tt (written [c] fb)) by done.
    apply IH; [done|]. rewrite HS. simpl. lia.
  - unfold mbind, M_bind. rewrite poke_UB by (simpl; lia). done.
Qed.
