(* ===== verification/LogStream.v ===== *)
(** Formatting of log lines: [PracticeMuduo/logging.muduo/LogStream.h] and
    [LogStream.cpp], and the earlier [logging/LogStream.cpp], which has the same
    conversion routines.  A stream is its [FixedBuffer<kSmallBuffer>]; the C
    library's rendering of a [double] is a parameter. *)
From Stdlib Require Import Strings.String Strings.Ascii.
From Stdlib Require Import DecimalString DecimalZ DecimalFacts.
From S2P Require Import Prelude FixedBuffer.
Open Scope list_scope.

Definition bytes (s : string) : list byte := list_byte_of_string s.

(** * Integers to text *)

Definition digits : list byte := bytes "9876543210123456789".
Definition digitsHex : list byte := bytes "0123456789ABCDEF".

(** [zero\[lsd\]], where [zero = digits + 9]. *)
Definition zero_at (lsd : Z) : option byte :=
  if 0 <=? 9 + lsd then digits !! Z.to_nat (9 + lsd) else None.

(** The [do ... while] loop of [convert]: the characters in the order they are
    written, least significant digit first.  [%] and [/] truncate, so the digits
    of a negative number are negative.  [None] is a run out of fuel or an access
    outside [digits]. *)
Fixpoint convert_loop (fuel : nat) (i : Z) : option (list byte) :=
  match fuel with
  | O => None
  | S fuel' =>
      c ← zero_at (Z.rem i 10);
      let i' := Z.quot i 10 in
      if i' =? 0 then Some [c] else cs ← convert_loop fuel' i'; Some (c :: cs)
  end.

(** [convert(buf, value)]: the text it leaves in [buf] (followed by a NUL); the
    returned size is its length. *)
Definition convert (value : Z) : option (list byte) :=
  cs ← convert_loop 20 value;
  Some (rev (cs ++ if value <? 0 then bytes "-" else [])).

Fixpoint convertHex_loop (fuel : nat) (i : Z) : option (list byte) :=
  match fuel with
  | O => None
  | S fuel' =>
      c ← digitsHex !! Z.to_nat (i mod 16);
      let i' := i / 16 in
      if i' =? 0 then Some [c] else cs ← convertHex_loop fuel' i'; Some (c :: cs)
  end.

Definition convertHex (value : Z) : option (list byte) :=
  cs ← convertHex_loop 16 value; Some (rev cs).

(** * The stream *)

Definition kMaxNumericSize : Z := 32.

Definition formatInteger (v : Z) : M FixedBuffer unit :=
  fb ← get;
  when (kMaxNumericSize <=? available fb)
    (s ← of_option UB (convert v);
     poke (current fb) (s ++ [x00]) ;;
     add (zlen s)).

(** [snprintf(current, n, ...)] of a text: at most [n - 1] characters and a NUL are
    stored, the length of the whole text is returned. *)
Definition snprintf_at (off n : Z) (s : list byte) : M FixedBuffer Z :=
  poke off (take (Z.to_nat (n - 1)) s ++ [x00]) ;; mret (zlen s).

(** [printf]'s [%d]: the decimal notation of the Standard Library. *)
Definition fmt_d (v : Z) : list byte := bytes (NilZero.string_of_int (Z.to_int v)).

Definition put_int (v : Z) : M FixedBuffer unit :=
  fb ← get;
  when (kMaxNumericSize <=? available fb)
    (len ← snprintf_at (current fb) kMaxNumericSize (fmt_d v); add len).

Definition put_bool (v : bool) : M FixedBuffer unit := append (if v then bytes "1" else bytes "0").
Definition put_short (v : Z) : M FixedBuffer unit := put_int v.
Definition put_uint (v : Z) : M FixedBuffer unit := formatInteger v.
Definition put_ushort (v : Z) : M FixedBuffer unit := put_uint v.
Definition put_long (v : Z) : M FixedBuffer unit := formatInteger v.
Definition put_ulong (v : Z) : M FixedBuffer unit := formatInteger v.
Definition put_llong (v : Z) : M FixedBuffer unit := formatInteger v.
Definition put_ullong (v : Z) : M FixedBuffer unit := formatInteger v.

Definition put_pointer (p : Z) : M FixedBuffer unit :=
  fb ← get;
  when (kMaxNumericSize <=? available fb)
    (poke (current fb) (bytes "0") ;;
     poke (current fb + 1) (bytes "x") ;;
     s ← of_option UB (convertHex p);
     poke (current fb + 2) s ;;
     add (zlen s + 2)).

(** [operator<<(double)], for the C library's [%.12g]. *)
Definition put_double (fmt_g : list byte) : M FixedBuffer unit :=
  fb ← get;
  when (kMaxNumericSize <=? available fb)
    (len ← snprintf_at (current fb) kMaxNumericSize fmt_g; add len).

Definition put_char (v : byte) : M FixedBuffer unit := append [v].
Definition put_cstr (p : list byte) : M FixedBuffer unit := append p.
Definition put_string (str : list byte) : M FixedBuffer unit := append_string str.
Definition stream_append (data : list byte) : M FixedBuffer unit := append data.
Definition resetBuffer : M FixedBuffer unit := reset.

(** [Fmt(format, val)] for the text [printf] makes of them: it must fit [buf_]. *)
Definition Fmt (formatted : list byte) : res (list byte) :=
  if zlen formatted <? 32 then Ok formatted else Fault AssertFail.

Definition put_fmt (fmt : list byte) : M FixedBuffer unit := stream_append fmt.

(** * Correctness of convert *)

Definition dchar (d : Z) : byte := byte_of_Z (48 + d).

Lemma zero_at_dchar r : -10 < r < 10 -> zero_at r = Some (dchar (Z.abs r)).
Proof.
  intros Hr. assert (∃ k, (k < 19)%nat ∧ r = Z.of_nat k - 9) as (k & Hk & ->)
    by (exists (Z.to_nat (r + 9)); lia).
  do 19 (destruct k as [|k]; [reflexivity|]). lia.
Qed.

(** The digits of [n], least significant first. *)
Fixpoint le_digits (fuel : nat) (n : Z) : list Z :=
  match fuel with
  | O => []
  | S fuel' => n mod 10 :: (if n / 10 =? 0 then [] else le_digits fuel' (n / 10))
  end.

Lemma quot_abs i : Z.abs (Z.quot i 10) = Z.abs i / 10.
Proof. rewrite <- (Z.quot_abs i 10) by lia. by rewrite Z.quot_div_nonneg by lia. Qed.

Lemma rem_abs i : Z.abs (Z.rem i 10) = Z.abs i mod 10.
Proof. rewrite <- (Z.rem_abs i 10) by lia. by rewrite Z.rem_mod_nonneg by lia. Qed.

Lemma convert_loop_digits fuel i :
  Z.abs i < 10 ^ Z.of_nat fuel -> (0 < fuel)%nat ->
  convert_loop fuel i = Some (dchar <$> le_digits fuel (Z.abs i)).
Proof.
  revert i; induction fuel as [|fuel IH]; intros i Hi Hf; [lia|].
  cbn [convert_loop le_digits fmap list_fmap].
  rewrite zero_at_dchar by (pose proof (Z.rem_bound_abs i 10); lia).
  rewrite rem_abs. cbn [mbind option_bind].
  rewrite <- (quot_abs i).
  destruct (Z.eqb_spec (Z.quot i 10) 0) as [E|E]; destruct (Z.eqb_spec (Z.abs (Z.quot i 10)) 0); try lia; [done|].
  rewrite Nat2Z.inj_succ, Z.pow_succ_r in Hi by lia.
  assert (Z.abs (Z.quot i 10) < 10 ^ Z.of_nat fuel) as Hi'.
  { rewrite quot_abs. apply Z.div_lt_upper_bound; lia. }
  destruct fuel as [|fuel].
  { simpl in Hi'. lia. }
  rewrite (IH _ Hi') by lia. done.
Qed.

Lemma le_digits_range fuel n : 0 <= n -> Forall (λ d, 0 <= d < 10) (le_digits fuel n).
Proof.
  revert n; induction fuel as [|fuel IH]; intros n Hn; cbn [le_digits]; constructor.
  - apply Z.mod_pos_bound. lia.
  - destruct (n / 10 =? 0); [constructor|]. apply IH. by apply Z.div_pos.
Qed.

Definition le_value (ds : list Z) : Z := foldr (λ d v, d + 10 * v) 0 ds.

Lemma le_digits_value fuel n :
  0 <= n < 10 ^ Z.of_nat fuel -> le_value (le_digits fuel n) = n.
Proof.
  revert n; induction fuel as [|fuel IH]; intros n Hn; cbn [le_digits le_value foldr].
  { change (10 ^ Z.of_nat 0) with 1 in Hn. lia. }
  rewrite Nat2Z.inj_succ, Z.pow_succ_r in Hn by lia.
  destruct (Z.eqb_spec (n / 10) 0) as [E|E].
  - cbn [foldr]. zlia.
  - fold (le_value (le_digits fuel (n / 10))). rewrite IH by zlia. zlia.
Qed.

Lemma le_digits_length fuel n m :
  0 <= n < 10 ^ Z.of_nat (S m) -> (length (le_digits fuel n) <= S m)%nat.
Proof.
  revert n m; induction fuel as [|fuel IH]; intros n m Hn; cbn [le_digits length]; [lia|].
  rewrite Nat2Z.inj_succ, Z.pow_succ_r in Hn by lia.
  destruct (Z.eqb_spec (n / 10) 0) as [E|E]; [simpl; lia|].
  destruct m as [|m]; [change (10 ^ Z.of_nat 0) with 1 in Hn; zlia|].
  specialize (IH (n / 10) m ltac:(zlia)). lia.
Qed.

Lemma le_digits_last fuel n :
  0 < n < 10 ^ Z.of_nat fuel -> ∃ ds d, le_digits fuel n = ds ++ [d] ∧ 0 < d.
Proof.
  revert n; induction fuel as [|fuel IH]; intros n Hn; cbn [le_digits].
  { change (10 ^ Z.of_nat 0) with 1 in Hn. lia. }
  rewrite Nat2Z.inj_succ, Z.pow_succ_r in Hn by lia.
  destruct (Z.eqb_spec (n / 10) 0) as [E|E].
  - exists [], (n mod 10). split; [done|]. zlia.
  - destruct (IH (n / 10)) as (ds & d & -> & Hd); [zlia|]. by exists (n mod 10 :: ds), d.
Qed.

(** * The Standard Library's decimal numbers, built from digits *)

Fixpoint to_uint (ds : list Z) : Decimal.uint :=
  match ds with
  | [] => Decimal.Nil
  | d :: ds' =>
      match d with
      | 0 => Decimal.D0 | 1 => Decimal.D1 | 2 => Decimal.D2 | 3 => Decimal.D3 | 4 => Decimal.D4
      | 5 => Decimal.D5 | 6 => Decimal.D6 | 7 => Decimal.D7 | 8 => Decimal.D8 | _ => Decimal.D9
      end (to_uint ds')
  end.

Lemma digit_cases d :
  0 <= d < 10 ->
  d = 0 ∨ d = 1 ∨ d = 2 ∨ d = 3 ∨ d = 4 ∨ d = 5 ∨ d = 6 ∨ d = 7 ∨ d = 8 ∨ d = 9.
Proof. lia. Qed.

Ltac digit H :=
  apply digit_cases in H; destruct H as [->|[->|[->|[->|[->|[->|[->|[->|[->| ->]]]]]]]]].

Lemma string_of_to_uint ds :
  Forall (λ d, 0 <= d < 10) ds -> bytes (NilEmpty.string_of_uint (to_uint ds)) = dchar <$> ds.
Proof.
  induction 1 as [|d ds Hd _ IH]; [done|].
  digit Hd; cbn [to_uint NilEmpty.string_of_uint fmap list_fmap];
    unfold bytes in *; cbn [list_byte_of_string String.list_ascii_of_string map];
    rewrite <- IH; reflexivity.
Qed.

(** The value of a big-endian list of digits, from an accumulator on. *)
Definition be_value (acc : Z) (ds : list Z) : Z := foldl (λ v d, 10 * v + d) acc ds.

Lemma be_value_rev ds : be_value 0 (rev ds) = le_value ds.
Proof.
  induction ds as [|d ds IH]; [done|]. cbn [rev]. unfold be_value in *.
  rewrite foldl_app, IH. cbn [foldl le_value foldr]. fold (le_value ds). lia.
Qed.

Lemma of_uint_acc_value ds acc :
  Forall (λ d, 0 <= d < 10) ds ->
  Z.pos (Pos.of_uint_acc (to_uint ds) acc) = be_value (Z.pos acc) ds.
Proof.
  intros H; revert acc; induction H as [|d ds Hd _ IH]; intros acc; [done|].
  digit Hd; cbn [to_uint Pos.of_uint_acc]; rewrite IH; cbn [be_value foldl];
    unfold be_value; f_equal; lia.
Qed.

Lemma of_uint_value d ds :
  Forall (λ d, 0 <= d < 10) (d :: ds) -> 0 < d ->
  Z.of_uint (to_uint (d :: ds)) = be_value 0 (d :: ds) ∧
  Decimal.norm (Decimal.Pos (to_uint (d :: ds))) = Decimal.Pos (to_uint (d :: ds)) ∧
  Decimal.norm (Decimal.Neg (to_uint (d :: ds))) = Decimal.Neg (to_uint (d :: ds)) ∧
  NilZero.string_of_uint (to_uint (d :: ds)) = NilEmpty.string_of_uint (to_uint (d :: ds)).
Proof.
  intros [Hd Hds]%Forall_cons Hpos.
  digit Hd; [lia|..]; (split; [|repeat split; reflexivity]);
    cbn [to_uint]; unfold Z.of_uint; cbn [Pos.of_uint Z.of_N];
    rewrite of_uint_acc_value by done; reflexivity.
Qed.

Lemma bytes_String a s : bytes (String a s) = byte_of_ascii a :: bytes s.
Proof. reflexivity. Qed.

Lemma rev_fmap {A B} (f : A -> B) l : rev (f <$> l) = f <$> rev l.
Proof. induction l as [|x l IH]; [done|]. cbn [rev]. rewrite fmap_app, fmap_cons. simpl. by rewrite IH. Qed.

(** [convert] writes what [printf("%d")] would. *)
Lemma convert_fmt_d v : - 2 ^ 63 <= v < 2 ^ 64 -> convert v = Some (fmt_d v).
Proof.
  intros Hv. destruct (decide (v = 0)) as [->|Hnz]; [reflexivity|].
  assert (0 < Z.abs v < 10 ^ Z.of_nat 20) as Habs by (change (10 ^ Z.of_nat 20) with (10 ^ 20); lia).
  unfold convert. rewrite convert_loop_digits by lia. cbn [mbind option_bind].
  f_equal. rewrite rev_app_distr. rewrite rev_fmap.
  destruct (le_digits_last 20 (Z.abs v) Habs) as (ds & d & E & Hd).
  pose proof (le_digits_range 20 (Z.abs v) ltac:(lia)) as Hr.
  pose proof (le_digits_value 20 (Z.abs v) ltac:(lia)) as Hval.
  rewrite E in *. rewrite <- be_value_rev in Hval. rewrite rev_app_distr in *. cbn [rev app] in *.
  assert (Forall (λ d, 0 <= d < 10) (d :: rev ds)) as Hr'.
  { rewrite <- (rev_involutive (d :: rev ds)). cbn [rev]. rewrite rev_involutive. by apply Forall_rev. }
  destruct (of_uint_value _ _ Hr' Hd) as (Hu & HP & HN & HS).
  unfold fmt_d. destruct (Z.ltb_spec v 0).
  - assert (Z.to_int v = Decimal.Neg (to_uint (d :: rev ds))) as ->.
    { rewrite <- HN, <- DecimalZ.to_of. f_equal. cbn [Z.of_int]. lia. }
    cbn [NilZero.string_of_int]. rewrite HS, (bytes_String _ (NilEmpty.string_of_uint _)), string_of_to_uint by done. done.
  - assert (Z.to_int v = Decimal.Pos (to_uint (d :: rev ds))) as ->.
    { rewrite <- HP, <- DecimalZ.to_of. f_equal. cbn [Z.of_int]. lia. }
    cbn [NilZero.string_of_int]. rewrite HS, string_of_to_uint by done. done.
Qed.

Lemma convert_length v s :
  - 2 ^ 63 <= v < 2 ^ 64 -> convert v = Some s -> (1 <= length s <= 20)%nat.
Proof.
  intros Hv. unfold convert.
  rewrite convert_loop_digits by (change (10 ^ Z.of_nat 20) with (10 ^ 20); lia).
  cbn [mbind option_bind]. intros E. apply (inj Some) in E. subst s.
  rewrite length_rev, length_app, length_fmap.
  destruct (Z.ltb_spec v 0).
  - pose proof (le_digits_length 20 (Z.abs v) 18).
    change (Z.of_nat 19) with 19 in *. change (length (bytes "-")) with 1%nat. split; [lia|].
    assert (length (le_digits 20 (Z.abs v)) <= 19)%nat; [|lia]. apply H0. lia.
  - pose proof (le_digits_length 20 (Z.abs v) 19). change (Z.of_nat 20) with 20 in *.
    cbn [length]. split; [cbn [le_digits length]; lia|].
    assert (length (le_digits 20 (Z.abs v)) <= 20)%nat; [|lia]. apply H0. lia.
Qed.

(** * convertHex *)

Lemma hex_digit_cases d : 0 <= d < 16 -> ∃ c, digitsHex !! Z.to_nat d = Some c.
Proof.
  intros Hd. apply lookup_lt_is_Some. change (length digitsHex) with 16%nat. lia.
Qed.

Fixpoint hex_value (cs : list byte) : option Z :=
  match cs with
  | [] => Some 0
  | c :: cs' =>
      '(d, _) ← list_find (λ x, x = c) digitsHex; v ← hex_value cs'; Some (Z.of_nat d + 16 * v)
  end.

Lemma hex_find d c :
  0 <= d < 16 -> digitsHex !! Z.to_nat d = Some c ->
  ∃ x, list_find (λ x, x = c) digitsHex = Some (Z.to_nat d, x).
Proof.
  intros Hd. assert (∃ k, (k < 16)%nat ∧ d = Z.of_nat k) as (k & Hk & ->)
    by (exists (Z.to_nat d); lia).
  rewrite Nat2Z.id. do 16 (destruct k as [|k]; [intros [= <-]; eexists; reflexivity|]). lia.
Qed.

Lemma convertHex_loop_value fuel n :
  0 <= n < 16 ^ Z.of_nat fuel -> (0 < fuel)%nat ->
  ∃ cs, convertHex_loop fuel n = Some cs ∧ hex_value cs = Some n ∧ (1 <= length cs <= fuel)%nat.
Proof.
  revert n; induction fuel as [|fuel IH]; intros n Hn Hf; [lia|].
  cbn [convertHex_loop]. rewrite Nat2Z.inj_succ, Z.pow_succ_r in Hn by lia.
  assert (0 <= n mod 16 < 16) as Hd by zlia.
  destruct (hex_digit_cases _ Hd) as (c & Ec). rewrite Ec. cbn [mbind option_bind].
  destruct (hex_find _ _ Hd Ec) as (x & Ex).
  destruct (Z.eqb_spec (n / 16) 0) as [E|E].
  - exists [c]. split; [done|]. split; [|simpl; lia]. cbn [hex_value].
    rewrite Ex. cbn [mbind option_bind]. f_equal. zlia.
  - destruct fuel as [|fuel].
    { change (16 ^ Z.of_nat 0) with 1 in Hn. zlia. }
    destruct (IH (n / 16) ltac:(zlia) ltac:(lia)) as (cs & -> & Hv & Hl).
    exists (c :: cs). split; [done|]. split; [|simpl in *; lia]. cbn [hex_value].
    rewrite Ex, Hv. cbn [mbind option_bind]. f_equal. zlia.
Qed.
