(* ===== verification/Timestamp.v ===== *)
(** Points in time: [PracticeMuduo/TimerQueue.muduo/Timestamp.h] and
    [Timestamp.cc].  A [double] is a [spec_float] of the Standard Library in the
    binary64 format; [gmtime_r] is the proleptic Gregorian calendar computed from
    the days since the epoch. *)
From Stdlib Require Import Strings.String Floats.SpecFloat.
From S2P Require Import Prelude FixedBuffer LogStream.
Open Scope list_scope.

(** * Doubles *)

Definition double : Type := spec_float.
Definition double_of_Z (z : Z) : double := binary_normalize 53 1024 z 0 false.
Definition double_mul : double -> double -> double := SFmul 53 1024.
Definition double_div : double -> double -> double := SFdiv 53 1024.

(** [static_cast<int64_t>]: truncation, undefined when the value does not fit. *)
Definition int64_of_double (d : double) : res Z :=
  match d with
  | S754_zero _ => Ok 0
  | S754_finite s m e =>
      let a := if 0 <=? e then Z.pos m * 2 ^ e else Z.pos m / 2 ^ (- e) in
      let v := if s then - a else a in
      if (- 2 ^ 63 <=? v) && (v <? 2 ^ 63) then Ok v else Fault UB
  | _ => Fault UB
  end.

(** * printf's paddings *)

Definition sign_text (v : Z) : list byte := if v <? 0 then bytes "-" else [].

(** ["%0wd"] *)
Definition fmt_0d (w : nat) (v : Z) : list byte :=
  let ds := fmt_d (Z.abs v) in
  sign_text v ++ replicate (w - length (sign_text v) - length ds) (byte_of_Z 48) ++ ds.

(** ["%wd"] *)
Definition fmt_wd (w : nat) (v : Z) : list byte :=
  replicate (w - length (fmt_d v)) (byte_of_Z 32) ++ fmt_d v.

(** [snprintf] into a zeroed array of [n] bytes, read back as a string. *)
Definition snprintf (n : Z) (s : list byte) : list byte := take (Z.to_nat (n - 1)) s.

(** * The calendar *)

Record tm := mkTm { tm_year : Z; tm_mon : Z; tm_mday : Z; tm_hour : Z; tm_min : Z; tm_sec : Z }.

(** Year, month (0..11) and day (1..) of a number of days since 1970-01-01.  Years
    are counted from March, in eras of 400, centuries, and spans of four. *)
Definition civil_from_days (days : Z) : Z * Z * Z :=
  let z := days + 719468 in
  let era := z / 146097 in
  let doe := z mod 146097 in
  let c := Z.min 3 (doe / 36524) in
  let doc := doe - 36524 * c in
  let q := doc / 1461 in
  let doq := doc mod 1461 in
  let n := Z.min 3 (doq / 365) in
  let doy := doq - 365 * n in
  let mp := (5 * doy + 2) / 153 in
  let d := doy - (153 * mp + 2) / 5 + 1 in
  let m := if mp <? 10 then mp + 2 else mp - 10 in
  (400 * era + 100 * c + 4 * q + n + (if m <=? 1 then 1 else 0), m, d).

(** [gmtime_r] *)
Definition gmtime (t : Z) : tm :=
  let '(y, m, d) := civil_from_days (t / 86400) in
  let s := t mod 86400 in
  mkTm (y - 1900) m d (s / 3600) (s / 60 mod 60) (s mod 60).

(** * The class *)

Definition Timestamp : Type := Z.
Definition kMicroSecondsPerSecond : Z := 1000 * 1000.

Definition new_Timestamp : Timestamp := 0.
Definition Timestamp_at (microSecondsSinceEpochArg : Z) : Timestamp := microSecondsSinceEpochArg.
Definition swap (this that : Timestamp) : Timestamp * Timestamp := (that, this).
Definition valid (ts : Timestamp) : bool := 0 <? ts.
Definition microSecondsSinceEpoch (ts : Timestamp) : Z := ts.
Definition secondsSinceEpoch (ts : Timestamp) : Z := Z.quot ts kMicroSecondsPerSecond.
Definition invalid : Timestamp := new_Timestamp.

(** Signed 64-bit arithmetic: a result outside the type is undefined. *)
Definition int64 (v : Z) : res Z :=
  if (- 2 ^ 63 <=? v) && (v <? 2 ^ 63) then Ok v else Fault UB.

Definition fromUnixTime_us (t microseconds : Z) : res Timestamp :=
  match int64 (t * kMicroSecondsPerSecond) with
  | Ok s => int64 (s + microseconds)
  | Fault f => Fault f
  end.
Definition fromUnixTime (t : Z) : res Timestamp := fromUnixTime_us t 0.

(** [now()], from what [gettimeofday] reports. *)
Definition now_of (tv_sec tv_usec : Z) : res Timestamp := fromUnixTime_us tv_sec tv_usec.

Definition op_lt (lhs rhs : Timestamp) : bool := microSecondsSinceEpoch lhs <? microSecondsSinceEpoch rhs.
Definition op_eq (lhs rhs : Timestamp) : bool := microSecondsSinceEpoch lhs =? microSecondsSinceEpoch rhs.

Definition timeDifference (high low : Timestamp) : res double :=
  match int64 (microSecondsSinceEpoch high - microSecondsSinceEpoch low) with
  | Ok diff => Ok (double_div (double_of_Z diff) (double_of_Z kMicroSecondsPerSecond))
  | Fault f => Fault f
  end.

Definition addTime (timestamp : Timestamp) (seconds : double) : res Timestamp :=
  match int64_of_double (double_mul seconds (double_of_Z kMicroSecondsPerSecond)) with
  | Ok delta => int64 (microSecondsSinceEpoch timestamp + delta)
  | Fault f => Fault f
  end.

(** [toString()]: [buf] has 32 bytes and [snprintf] is told 31. *)
Definition toString (ts : Timestamp) : list byte :=
  let seconds := Z.quot ts kMicroSecondsPerSecond in
  let microseconds := Z.rem ts kMicroSecondsPerSecond in
  snprintf 31 (fmt_d seconds ++ bytes "." ++ fmt_0d 6 microseconds).

Definition toFormattedString (showMicroseconds : bool) (ts : Timestamp) : list byte :=
  let tm_time := gmtime (Z.quot ts kMicroSecondsPerSecond) in
  let date :=
    fmt_wd 4 (tm_year tm_time + 1900) ++ fmt_0d 2 (tm_mon tm_time + 1) ++ fmt_0d 2 (tm_mday tm_time)
    ++ bytes " " ++ fmt_0d 2 (tm_hour tm_time) ++ bytes ":" ++ fmt_0d 2 (tm_min tm_time)
    ++ bytes ":" ++ fmt_0d 2 (tm_sec tm_time) in
  snprintf 32
    (if showMicroseconds
     then date ++ bytes "." ++ fmt_0d 6 (Z.rem ts kMicroSecondsPerSecond)
     else date).

(** * Correctness of the calendar *)

Definition days_from_civil (y m d : Z) : Z :=
  let y' := if m <=? 1 then y - 1 else y in
  let era := y' / 400 in
  let yoe := y' mod 400 in
  let doy := (153 * (if m <=? 1 then m + 10 else m - 2) + 2) / 5 + d - 1 in
  let doe := yoe * 365 + yoe / 4 - yoe / 100 + doy in
  era * 146097 + doe - 719468.

Lemma month_correct doy :
  0 <= doy <= 365 ->
  let mp := (5 * doy + 2) / 153 in
  0 <= mp <= 11 ∧ 1 <= doy - (153 * mp + 2) / 5 + 1 <= 31.
Proof. intros Hd mp. subst mp. zlia. Qed.

Lemma civil_correct days :
  ∃ y m d, civil_from_days days = (y, m, d) ∧ days_from_civil y m d = days ∧
    0 <= m <= 11 ∧ 1 <= d <= 31 ∧
    400 * ((days + 719468) / 146097) <= y <= 400 * ((days + 719468) / 146097) + 400.
Proof.
  unfold civil_from_days.
  set (z := days + 719468). set (era := z / 146097). set (doe := z mod 146097).
  assert (0 <= doe < 146097 ∧ days = 146097 * era + doe - 719468) as [Hdoe Hdays]
    by (subst z era doe; zlia).
  set (c := Z.min 3 (doe / 36524)). set (doc := doe - 36524 * c).
  assert (0 <= c <= 3 ∧ 0 <= doc <= 36524) as [Hc Hdoc] by (subst c doc; zlia).
  set (q := doc / 1461). set (doq := doc mod 1461).
  assert (0 <= q <= 24 ∧ 0 <= doq < 1461 ∧ doc = 1461 * q + doq) as (Hq & Hdoq & Hdq)
    by (subst q doq; zlia).
  set (n := Z.min 3 (doq / 365)). set (doy := doq - 365 * n).
  assert (0 <= n <= 3 ∧ 0 <= doy <= 365) as [Hn Hdoy] by (subst n doy; zlia).
  pose proof (month_correct doy Hdoy) as Hm. set (mp := (5 * doy + 2) / 153) in *.
  destruct Hm as [Hmp Hd].
  assert (days = 146097 * era + (365 * (100 * c + 4 * q + n) + 24 * c + q + doy) - 719468) as Hsum
    by (subst doy; lia).
  clearbody mp doy n q c era. clear Hdq Hdays Hdoe Hdoc Hdoq doc doq.
  eexists _, _, _. split; [done|].
  assert (∀ y, y = 400 * era + 100 * c + 4 * q + n ->
            y / 400 = era ∧ y mod 400 = 100 * c + 4 * q + n ∧
            (100 * c + 4 * q + n) / 4 = 25 * c + q ∧ (100 * c + 4 * q + n) / 100 = c) as Hy.
  { intros y ->. zlia. }
  unfold days_from_civil. destruct (Z.ltb_spec mp 10).
  - rewrite !(proj2 (Z.leb_gt (mp + 2) 1)) by lia. rewrite Z.add_0_r.
    destruct (Hy _ eq_refl) as (-> & -> & -> & ->).
    replace (mp + 2 - 2) with mp by lia. repeat split; lia.
  - rewrite !(proj2 (Z.leb_le (mp - 10) 1)) by lia.
    destruct (Hy (400 * era + 100 * c + 4 * q + n + 1 - 1) ltac:(lia)) as (-> & -> & -> & ->).
    replace (mp - 10 + 10) with mp by lia. repeat split; lia.
Qed.

(** * Reading the texts back *)

Definition digit_val (c : byte) : option Z :=
  let d := Z_of_byte c - 48 in if (0 <=? d) && (d <? 10) then Some d else None.

Fixpoint parse_digits (acc : Z) (l : list byte) : option Z :=
  match l with
  | [] => Some acc
  | c :: l' => d ← digit_val c; parse_digits (10 * acc + d) l'
  end.

Definition parse_num (l : list byte) : option Z := parse_digits 0 l.

(** The text of [toString]: everything up to the last seven characters, a dot,
    and six digits. *)
Definition parse_toString (l : list byte) : option Timestamp :=
  let k := (length l - 7)%nat in
  if decide (take 1 (drop k l) = bytes ".") then
    s ← parse_num (take k l); us ← parse_num (drop (S k) l);
    Some (s * kMicroSecondsPerSecond + us)
  else None.

(** The text [YYYYMMDD hh:mm:ss.uuuuuu]. *)
Definition parse_formatted (l : list byte) : option Timestamp :=
  y ← parse_num (range 0 4 l); mon ← parse_num (range 4 2 l); d ← parse_num (range 6 2 l);
  h ← parse_num (range 9 2 l); mi ← parse_num (range 12 2 l); s ← parse_num (range 15 2 l);
  us ← parse_num (range 18 6 l);
  Some ((((days_from_civil y (mon - 1) d * 24 + h) * 60 + mi) * 60 + s) * kMicroSecondsPerSecond + us).

Lemma digit_val_dchar d : 0 <= d < 10 -> digit_val (dchar d) = Some d.
Proof.
  intros Hd. unfold digit_val, dchar. rewrite Z_of_byte_of_Z. unfold u8.
  rewrite Z.mod_small by lia. rewrite (proj2 (Z.leb_le 0 _)), (proj2 (Z.ltb_lt _ 10)) by lia.
  cbn [andb]. f_equal. lia.
Qed.

Lemma parse_digits_dchar acc ds :
  Forall (λ d, 0 <= d < 10) ds -> parse_digits acc (dchar <$> ds) = Some (be_value acc ds).
Proof.
  intros H; revert acc; induction H as [|d ds Hd _ IH]; intros acc; [done|].
  cbn [parse_digits fmap list_fmap]. rewrite digit_val_dchar by done. cbn [mbind option_bind].
  apply IH.
Qed.

(** The digits [fmt_d] prints. *)
Lemma fmt_d_digits v :
  0 <= v < 2 ^ 64 -> ∃ ds, fmt_d v = dchar <$> ds ∧ Forall (λ d, 0 <= d < 10) ds ∧
    be_value 0 ds = v ∧ (∀ m, v < 10 ^ Z.of_nat (S m) -> (length ds <= S m)%nat) ∧
    (∀ m, 0 < m -> 10 ^ m <= v -> m < zlen ds).
Proof.
  intros Hv. pose proof (convert_fmt_d v ltac:(lia)) as E. unfold convert in E.
  rewrite convert_loop_digits in E by (change (10 ^ Z.of_nat 20) with (10 ^ 20); lia).
  cbn [mbind option_bind] in E. apply (inj Some) in E.
  rewrite (proj2 (Z.ltb_ge v 0)), app_nil_r, Z.abs_eq, rev_fmap in E by lia.
  pose proof (le_digits_range 20 v ltac:(lia)) as Hr.
  assert (be_value 0 (rev (le_digits 20 v)) = v) as Hval.
  { rewrite be_value_rev. apply le_digits_value. change (10 ^ Z.of_nat 20) with (10 ^ 20). lia. }
  exists (rev (le_digits 20 v)). split; [done|]. split; [by apply Forall_rev|]. split; [done|]. split.
  - intros m Hm. rewrite length_rev. apply le_digits_length. lia.
  - intros m Hm0 Hm. rewrite length_rev.
    assert (∀ ds, Forall (λ d, 0 <= d < 10) ds -> le_value ds < 10 ^ zlen ds) as Hbound.
    { induction 1 as [|d ds Hd _ IH]; cbn [le_value foldr length]; [lia|].
      fold (le_value ds). rewrite Nat2Z.inj_succ, Z.pow_succ_r by lia. lia. }
    specialize (Hbound _ Hr). rewrite be_value_rev in Hval. rewrite Hval in Hbound.
    apply (Z.pow_lt_mono_r_iff 10); lia.
Qed.

Lemma be_value_zeros n ds : be_value 0 (replicate n 0 ++ ds) = be_value 0 ds.
Proof. induction n as [|n IH]; [done|]. exact IH. Qed.

(** A number that fits is printed with exactly [w] characters, and read back. *)
Lemma parse_fmt_0d w v :
  (0 < w)%nat -> 0 <= v < 10 ^ Z.of_nat w -> v < 2 ^ 64 ->
  length (fmt_0d w v) = w ∧ parse_num (fmt_0d w v) = Some v.
Proof.
  intros Hw Hv Hv'. unfold fmt_0d, sign_text. rewrite (proj2 (Z.ltb_ge v 0)), Z.abs_eq by lia.
  destruct (fmt_d_digits v) as (ds & -> & Hr & Hval & Hlen & _); [lia|].
  destruct w as [|w]; [lia|]. specialize (Hlen w ltac:(lia)).
  cbn [app length]. rewrite Nat.sub_0_r, length_fmap. split.
  { rewrite length_app, length_replicate, length_fmap. lia. }
  change (byte_of_Z 48) with (dchar 0). rewrite <- fmap_replicate, <- fmap_app.
  unfold parse_num. rewrite parse_digits_dchar.
  - by rewrite be_value_zeros, Hval.
  - apply Forall_app; split; [|done]. apply Forall_replicate. lia.
Qed.

Lemma parse_fmt_d v :
  0 <= v < 2 ^ 64 -> parse_num (fmt_d v) = Some v ∧ (length (fmt_d v) <= 20)%nat.
Proof.
  intros Hv. destruct (fmt_d_digits v Hv) as (ds & -> & Hr & Hval & Hlen & _).
  unfold parse_num. rewrite parse_digits_dchar, Hval, length_fmap by done. split; [done|].
  apply (Hlen 19%nat). change (10 ^ Z.of_nat 20) with (10 ^ 20). lia.
Qed.

Lemma parse_fmt_wd4 v :
  1000 <= v < 10000 -> length (fmt_wd 4 v) = 4%nat ∧ parse_num (fmt_wd 4 v) = Some v.
Proof.
  intros Hv. unfold fmt_wd. destruct (fmt_d_digits v) as (ds & -> & Hr & Hval & Hlen & Hlen'); [lia|].
  specialize (Hlen 3%nat ltac:(change (Z.of_nat 4) with 4; lia)). specialize (Hlen' 3 ltac:(lia) ltac:(lia)).
  rewrite length_fmap. replace (4 - length ds)%nat with 0%nat by lia. cbn [replicate app].
  rewrite length_fmap. split; [lia|]. unfold parse_num. rewrite parse_digits_dchar by done. by f_equal.
Qed.

Lemma year_bounds t y m d :
  0 <= t < 253402300800 -> civil_from_days (t / 86400) = (y, m, d) -> 1600 <= y <= 9999.
Proof.
  intros Ht E. destruct (civil_correct (t / 86400)) as (y' & m' & d' & E' & Hd & Hm & Hdd & Hy).
  rewrite E in E'. injection E' as <- <- <-.
  assert (0 <= t / 86400 <= 2932896) as Hday by zlia.
  assert (4 <= (t / 86400 + 719468) / 146097 <= 24) as He by zlia.
  destruct (decide (y = 10000)) as [->|]; [|lia]. exfalso. revert Hd. unfold days_from_civil.
  destruct (Z.leb_spec m 1).
  - change ((10000 - 1) / 400) with 24. change ((10000 - 1) mod 400) with 399.
    change (399 / 4) with 99. change (399 / 100) with 3. zlia.
  - change (10000 / 400) with 25. change (10000 mod 400) with 0.
    change (0 / 4) with 0. change (0 / 100) with 0. zlia.
Qed.

(** [Timestamp::toString] loses nothing: for every non-negative time the
    printed text, cut to the 31 bytes [snprintf] is given, reads back as that
    time. *)
Theorem toString_roundtrip ts :
  0 <= ts < 2 ^ 63 -> parse_toString (toString ts) = Some ts.
Proof.
  intros Hts. unfold toString, snprintf, kMicroSecondsPerSecond in *. change (1000 * 1000) with 1000000.
  rewrite Z.quot_div_nonneg, Z.rem_mod_nonneg by lia.
  destruct (parse_fmt_0d 6 (ts mod 1000000)) as [L1 P1];
    [lia|change (10 ^ Z.of_nat 6) with 1000000; zlia|zlia|].
  destruct (parse_fmt_d (ts / 1000000)) as [P2 L2]; [zlia|].
  rewrite take_ge by (rewrite !length_app, L1; change (length (bytes ".")) with 1%nat; lia).
  unfold parse_toString. rewrite !length_app, L1. change (length (bytes ".")) with 1%nat.
  replace (length (fmt_d (ts / 1000000)) + (1 + 6) - 7)%nat with (length (fmt_d (ts / 1000000))) by lia.
  rewrite drop_app_length, take_app_length. rewrite decide_True by done.
  change (S (length ?l)) with (S (length l)).
  replace (drop (S (length (fmt_d (ts / 1000000)))) (fmt_d (ts / 1000000) ++ bytes "." ++ fmt_0d 6 (ts mod 1000000)))
    with (fmt_0d 6 (ts mod 1000000)).
  - rewrite P2, P1. cbn [mbind option_bind]. f_equal. unfold kMicroSecondsPerSecond. zlia.
  - rewrite app_assoc. symmetry. apply drop_app_length'. rewrite length_app. cbn [length]. 
    change (length (bytes ".")) with 1%nat. lia.
Qed.

Lemma toString_roundtrip_witness :
  parse_toString (toString 1500000000000042) = Some 1500000000000042.
Proof. apply toString_roundtrip. lia. Defined.

Lemma range_app_skip {A} (n k : Z) (l l' : list A) :
  zlen l <= n -> range n k (l ++ l') = range (n - zlen l) k l'.
Proof.
  Transparent range. unfold range. Opaque range. intros H.
  rewrite drop_app_ge by lia. f_equal. f_equal. lia.
Qed.

Lemma range_app_here {A} k (l l' : list A) : zlen l = k -> range 0 k (l ++ l') = l.
Proof.
  Transparent range. unfold range. Opaque range. intros <-. rewrite drop_0, Nat2Z.id. apply take_app_length.
Qed.

Ltac skip_ranges :=
  repeat match goal with
  | |- context [range ?n ?k (?l ++ ?l')] => rewrite (range_app_skip n k l l') by lia
  end.

(** The fields sit where the parser looks for them. *)
Lemma parse_formatted_fields ty tmo td th tmi ts_ tus y mo d h mi s us :
  zlen ty = 4 -> zlen tmo = 2 -> zlen td = 2 -> zlen th = 2 -> zlen tmi = 2 -> zlen ts_ = 2 ->
  zlen tus = 6 ->
  parse_num ty = Some y -> parse_num tmo = Some mo -> parse_num td = Some d ->
  parse_num th = Some h -> parse_num tmi = Some mi -> parse_num ts_ = Some s ->
  parse_num tus = Some us ->
  parse_formatted (ty ++ tmo ++ td ++ bytes " " ++ th ++ bytes ":" ++ tmi ++ bytes ":" ++ ts_
                   ++ bytes "." ++ tus)
  = Some ((((days_from_civil y (mo - 1) d * 24 + h) * 60 + mi) * 60 + s) * kMicroSecondsPerSecond + us).
Proof.
  intros Ly Lmo Ld Lh Lmi Ls Lus Py Pmo Pd Ph Pmi Ps Pus.
  assert (zlen (bytes " ") = 1 ∧ zlen (bytes ":") = 1 ∧ zlen (bytes ".") = 1) as (Q1 & Q2 & Q3) by done.
  unfold parse_formatted. skip_ranges. rewrite ?Q1, ?Q2, ?Q3, ?Ly, ?Lmo, ?Ld, ?Lh, ?Lmi, ?Ls.
  cbn [Z.sub Z.add Z.opp Z.pos_sub Pos.pred_double]. rewrite !range_app_here by lia.
  match goal with |- context [range ?n 6 tus] =>
    replace (range n 6 tus) with tus
      by (replace n with 0 by lia; rewrite <- (app_nil_r tus) at 2; by rewrite range_app_here)
  end.
  by rewrite Py, Pmo, Pd, Ph, Pmi, Ps, Pus.
Qed.

(** The broken-down time, put together again. *)
Lemma gmtime_fields t :
  0 <= t < 253402300800 ->
  let g := gmtime t in
  1000 <= tm_year g + 1900 < 10000 ∧ 0 <= tm_mon g + 1 < 100 ∧ 0 <= tm_mday g < 100 ∧
  0 <= tm_hour g < 100 ∧ 0 <= tm_min g < 100 ∧ 0 <= tm_sec g < 100 ∧
  ((days_from_civil (tm_year g + 1900) (tm_mon g + 1 - 1) (tm_mday g) * 24 + tm_hour g) * 60
   + tm_min g) * 60 + tm_sec g = t.
Proof.
  intros Ht. unfold gmtime.
  destruct (civil_correct (t / 86400)) as (y & m & d & E & Hd & Hm & Hdd & _).
  pose proof (year_bounds _ _ _ _ Ht E) as Hy. rewrite E. cbn.
  replace (y - 1900 + 1900) with y by lia. replace (m + 1 - 1) with m by lia. rewrite Hd.
  repeat split; zlia.
Qed.

(** C37: the broken-down UTC text of [Timestamp::toFormattedString] determines the
    time: until the end of the year 9999 the fields, read back through the
    Gregorian calendar, give the microsecond they were printed for. *)
Theorem toFormattedString_roundtrip ts :
  0 <= ts < 253402300800 * kMicroSecondsPerSecond ->
  parse_formatted (toFormattedString true ts) = Some ts.
Proof.
  unfold toFormattedString, snprintf. intros Hts.
  rewrite Z.quot_div_nonneg, Z.rem_mod_nonneg by (unfold kMicroSecondsPerSecond in *; lia).
  set (us := ts mod kMicroSecondsPerSecond). set (t := ts / kMicroSecondsPerSecond).
  assert (0 <= t < 253402300800 ∧ 0 <= us < 10 ^ Z.of_nat 6 ∧ t * kMicroSecondsPerSecond + us = ts)
    as (Ht & Hus & Ets) by (subst t us; unfold kMicroSecondsPerSecond in *;
                           change (10 ^ Z.of_nat 6) with 1000000; zlia).
  destruct (gmtime_fields t Ht) as (Hy & Hmo & Hd & Hh & Hmi & Hs & Esum).
  assert (∀ v, 0 <= v < 100 -> zlen (fmt_0d 2 v) = 2 ∧ parse_num (fmt_0d 2 v) = Some v) as H2.
  { intros v Hv. destruct (parse_fmt_0d 2 v) as [L P]; [lia|change (10 ^ Z.of_nat 2) with 100; lia|lia|].
    split; [lia|done]. }
  destruct (parse_fmt_wd4 _ Hy) as [Ly Py].
  destruct (parse_fmt_0d 6 us) as [Lus Pus]; [lia|done|change (10 ^ Z.of_nat 6) with 1000000 in Hus; lia|].
  destruct (H2 _ Hmo), (H2 _ Hd), (H2 _ Hh), (H2 _ Hmi), (H2 _ Hs).
  rewrite <- !app_assoc, take_ge
    by (rewrite !length_app; change (length (bytes _)) with 1%nat; lia).
  rewrite (parse_formatted_fields _ _ _ _ _ _ _ (tm_year (gmtime t) + 1900) (tm_mon (gmtime t) + 1)
    (tm_mday (gmtime t)) (tm_hour (gmtime t)) (tm_min (gmtime t)) (tm_sec (gmtime t)) us)
    by first [done | lia].
  by rewrite Esum, Ets.
Qed.

Lemma toFormattedString_roundtrip_witness :
  parse_formatted (toFormattedString true 1709208000123456) = Some 1709208000123456.
Proof. apply toFormattedString_roundtrip. unfold kMicroSecondsPerSecond. lia. Defined.
