(* ===== verification/LogProps.v ===== *)
(** What the log buffers and the stream formatting promise: when an append of the
    fixed-size buffers is safe and what it leaves, and that numbers are written
    as [printf] would write them. *)
From Stdlib Require Import Strings.String.
From S2P Require Import Prelude FixedBuffer LogStream.
Open Scope list_scope.

(** What an append of at most the array's size does: it is unchecked against the
    cursor. *)
Definition appended (d : list byte) (fb : FixedBuffer) (r : res (unit * FixedBuffer)) : Prop :=
  match r with
  | Ok (_, fb') =>
      cur_ fb + zlen d <= SIZE fb ∧ fb_wf fb' ∧ SIZE fb' = SIZE fb ∧ text fb' = text fb ++ d
  | Fault f => f = UB ∧ SIZE fb < cur_ fb + zlen d
  end.

Lemma memcpy_cur_appended fb d : fb_wf fb -> appended d fb (memcpy_cur d fb).
Proof.
  intros Hwf. destruct (decide (cur_ fb + zlen d <= SIZE fb)).
  - rewrite memcpy_cur_Ok by done. destruct (written_spec fb d) as (? & ? & ?); [done..|].
    by unfold appended.
  - rewrite memcpy_cur_UB by lia. split; [done|lia].
Qed.

Lemma copy_loop_appended fb d : fb_wf fb -> appended d fb (copy_loop d fb).
Proof.
  intros Hwf. destruct (decide (cur_ fb + zlen d <= SIZE fb)).
  - rewrite copy_loop_Ok by done. destruct (written_spec fb d) as (? & ? & ?); [done..|].
    by unfold appended.
  - rewrite copy_loop_UB by (done || lia). split; [done|lia].
Qed.

Lemma s32_zlen (d : list byte) : zlen d < 2 ^ 31 -> s32 (zlen d) = zlen d.
Proof. intros. apply s32_small. lia. Qed.

Lemma take_min {A} (n : Z) (d : list A) :
  0 <= n -> take (Z.to_nat (if n <? zlen d then n else zlen d)) d = take (Z.to_nat n) d.
Proof.
  intros. destruct (Z.ltb_spec n (zlen d)); [done|].
  rewrite Nat2Z.id, !take_ge by lia. done.
Qed.

Lemma FixedBuffer_append_aux fb buf :
  fb_wf fb -> zlen buf < 2 ^ 31 ->
  appended (take (Z.to_nat (SIZE fb)) buf) fb (append buf fb) ∧
  appended (take (Z.to_nat (SIZE fb)) buf) fb (append_cstr buf fb) ∧
  appended (take (Z.to_nat (SIZE fb)) buf) fb (append_string buf fb).
Proof.
  intros Hwf Hlen. assert (0 <= SIZE fb < 2 ^ 31) as HS by (destruct Hwf; lia).
  unfold append, append_cstr, append_string. rewrite !(bind_Ok _ _ fb fb fb) by done.
  rewrite available_SIZE, u64_small, s32_zlen, !take_min by (done || lia).
  repeat split; [apply memcpy_cur_appended..|apply copy_loop_appended]; done.
Qed.

(** [FixedBuffer::append] compares the length with [available()], which is the
    size of the whole array: the bytes are cut to that size and then copied to the
    cursor, so the call is undefined exactly when they do not fit behind it, and
    otherwise appends them. *)
Theorem FixedBuffer_append_exact fb buf :
  fb_wf fb -> zlen buf < 2 ^ 31 ->
  appended (take (Z.to_nat (SIZE fb)) buf) fb (append buf fb) ∧
  appended (take (Z.to_nat (SIZE fb)) buf) fb (append_cstr buf fb) ∧
  appended (take (Z.to_nat (SIZE fb)) buf) fb (append_string buf fb).
Proof. apply FixedBuffer_append_aux. Qed.

Lemma FixedBuffer_append_exact_witness :
  let fb := mkFixedBuffer (bytes "abcdefgh") 5 in
  fb_wf fb ∧ appended (bytes "xyz") fb (append (bytes "xyz") fb) ∧
  append (bytes "wxyz") fb = Fault UB.
Proof.
  intros fb. assert (fb_wf fb) as Hwf by (subst fb; unfold fb_wf, SIZE; simpl; lia).
  split; [done|]. split.
  - exact (proj1 (FixedBuffer_append_exact fb (bytes "xyz") Hwf ltac:(reflexivity))).
  - reflexivity.
Defined.

(** The earlier buffer of [common/FixedBuffer.h] checks the room that is left:
    none of its appends can fault; the block append takes the bytes whole when they
    leave room for one more and drops them otherwise, the string appends cut. *)
Theorem Old_append_safe fb buf :
  fb_wf fb -> zlen buf < 2 ^ 31 ->
  let room := SIZE fb - cur_ fb in
  (∃ fb', Old.append buf fb = Ok (tt, fb') ∧ fb_wf fb' ∧ SIZE fb' = SIZE fb ∧
     text fb' = if zlen buf <? room then text fb ++ buf else text fb) ∧
  (∃ fb', Old.append_cstr buf fb = Ok (tt, fb') ∧ fb_wf fb' ∧ SIZE fb' = SIZE fb ∧
     text fb' = text fb ++ take (Z.to_nat room) buf) ∧
  (∃ fb', Old.append_string buf fb = Ok (tt, fb') ∧ fb_wf fb' ∧ SIZE fb' = SIZE fb ∧
     text fb' = text fb ++ take (Z.to_nat room) buf).
Proof.
  intros Hwf Hlen room. assert (0 <= room < 2 ^ 31) as HS by (subst room; destruct Hwf; lia).
  unfold Old.append, Old.append_cstr, Old.append_string. rewrite !(bind_Ok _ _ fb fb fb) by done.
  rewrite Old_available_room by done. fold room. rewrite u64_small, s32_zlen, !take_min by lia.
  assert (zlen (take (Z.to_nat room) buf) <= room) as Htk by (rewrite length_take; lia).
  split; [|split].
  - unfold when. destruct (Z.ltb_spec (zlen buf) room); [|by exists fb].
    rewrite memcpy_cur_Ok by (done || lia). destruct (written_spec fb buf) as (?&?&?); [done|lia|eauto].
  - rewrite memcpy_cur_Ok by (done || lia).
    destruct (written_spec fb (take (Z.to_nat room) buf)) as (?&?&?); [done|lia|eauto].
  - rewrite copy_loop_Ok by (done || lia).
    destruct (written_spec fb (take (Z.to_nat room) buf)) as (?&?&?); [done|lia|eauto].
Qed.

Lemma Old_append_safe_witness :
  let fb := mkFixedBuffer (bytes "abcdefgh") 5 in
  ∃ fb', Old.append (bytes "wxyz") fb = Ok (tt, fb') ∧ text fb' = bytes "abcde".
Proof.
  intros fb. assert (fb_wf fb) as Hwf by (subst fb; unfold fb_wf, SIZE; simpl; lia).
  destruct (proj1 (Old_append_safe fb (bytes "wxyz") Hwf ltac:(reflexivity))) as (fb' & E & _ & _ & T).
  exists fb'. split; [exact E|]. rewrite T. reflexivity.
Defined.

(** Text followed by a NUL, and the cursor moved over the text only. *)
Lemma put_text fb d d' n :
  fb_wf fb -> cur_ fb + zlen (d ++ d') <= SIZE fb -> n = zlen d ->
  ∃ fb', (poke (cur_ fb) (d ++ d') ;; add n) fb = Ok (tt, fb') ∧
    fb_wf fb' ∧ SIZE fb' = SIZE fb ∧ text fb' = text fb ++ d.
Proof.
  intros Hwf Hd ->. pose proof Hwf as [Hc HS].
  rewrite (bind_Ok _ _ _ _ _ (poke_Ok fb (d ++ d') ltac:(lia) Hd)). eexists. split; [reflexivity|].
  destruct (written_spec fb (d ++ d') Hwf Hd) as (Hwf' & T & S').
  rewrite length_app in *. unfold fb_wf, written, text, SIZE in *; simpl in *. split; [lia|]. split; [done|].
  Transparent range. unfold range in *. Opaque range. rewrite !drop_0 in *.
  apply (f_equal (take (Z.to_nat (cur_ fb + zlen d)))) in T. rewrite take_take in T.
  rewrite Nat.min_l in T by (rewrite length_app; lia). rewrite T.
  rewrite take_app_ge by (rewrite length_take; lia). f_equal.
  rewrite length_take, take_app_le by lia. apply take_ge. lia.
Qed.

Lemma LogStream_integers_aux fb v :
  fb_wf fb -> kMaxNumericSize <= SIZE fb -> cur_ fb + 21 <= SIZE fb -> - 2 ^ 63 <= v < 2 ^ 64 ->
  convert v = Some (fmt_d v) ∧
  ∃ fb' fb'', put_long v fb = Ok (tt, fb') ∧ put_int v fb = Ok (tt, fb'') ∧
    fb_wf fb' ∧ text fb' = text fb ++ fmt_d v ∧ fb_wf fb'' ∧ text fb'' = text fb ++ fmt_d v ∧ SIZE fb'' = SIZE fb.
Proof.
  intros Hwf HS Hroom Hv. pose proof (convert_fmt_d v Hv) as E. split; [done|].
  pose proof (convert_length v _ Hv E) as HL.
  unfold put_long, formatInteger, put_int, snprintf_at. rewrite !(bind_Ok _ _ fb fb fb) by done.
  rewrite available_SIZE by done. rewrite (proj2 (Z.leb_le _ _)) by done. unfold when. rewrite E.
  unfold kMaxNumericSize in *. rewrite take_ge by lia.
  assert (cur_ fb + zlen (fmt_d v ++ [x00]) <= SIZE fb) as Hfit by (rewrite length_app; simpl; lia).
  destruct (put_text fb (fmt_d v) [x00] (zlen (fmt_d v)) Hwf Hfit eq_refl) as (fb1 & E1 & W1 & S1 & T1).
  exists fb1, fb1. repeat split; try done; try apply W1.
  revert E1. unfold current. msimp. by destruct (poke _ _ _) as [[]|].
Qed.

(** C36: integers are written as [printf("%d")] writes them: for every value of the
    64-bit signed and unsigned types [convert] terminates, reads inside its digit
    table and leaves the decimal notation; with room for it, [operator<<] of every
    integral type appends exactly that text. *)
Theorem LogStream_integers fb v :
  fb_wf fb -> kMaxNumericSize <= SIZE fb -> cur_ fb + 21 <= SIZE fb -> - 2 ^ 63 <= v < 2 ^ 64 ->
  convert v = Some (fmt_d v) ∧
  ∃ fb' fb'', put_long v fb = Ok (tt, fb') ∧ put_int v fb = Ok (tt, fb'') ∧
    fb_wf fb' ∧ text fb' = text fb ++ fmt_d v ∧ fb_wf fb'' ∧ text fb'' = text fb ++ fmt_d v ∧ SIZE fb'' = SIZE fb.
Proof. apply LogStream_integers_aux. Qed.

Lemma LogStream_integers_witness :
  let fb := mkFixedBuffer (replicate 40 x00) 3 in
  convert (- 2 ^ 63) = Some (bytes "-9223372036854775808") ∧
  ∃ fb', put_long (- 2 ^ 63) fb = Ok (tt, fb') ∧ text fb' = text fb ++ bytes "-9223372036854775808".
Proof.
  intros fb. assert (fb_wf fb) as Hwf by (subst fb; unfold fb_wf, SIZE; simpl; lia).
  destruct (LogStream_integers fb (- 2 ^ 63) Hwf) as (E & fb' & _ & E' & _ & _ & T & _);
    [unfold kMaxNumericSize, SIZE; simpl; lia|unfold SIZE; simpl; lia|lia|].
  split; [exact E|]. exists fb'. split; [exact E'|exact T].
Defined.

Lemma splice_app {A} off (d d2 l : list A) :
  0 <= off -> off + zlen (d ++ d2) <= zlen l ->
  splice (off + zlen d) d2 (splice off d l) = splice off (d ++ d2) l.
Proof.
  Transparent splice. unfold splice. Opaque splice. rewrite length_app. intros.
  rewrite take_app_ge by (rewrite length_take; lia). rewrite length_take.
  replace (Z.to_nat (off + zlen d) - _)%nat with (length d) by lia.
  rewrite take_app_length, <- !app_assoc. do 3 f_equal.
  rewrite !drop_app_ge, !length_take, drop_drop by (rewrite ?length_take; lia). f_equal. lia.
Qed.

(** Adjacent writes are one write. *)
Lemma poke_app off d d2 fb :
  0 <= off -> off + zlen (d ++ d2) <= SIZE fb ->
  (poke off d ;; poke (off + zlen d) d2) fb = poke off (d ++ d2) fb.
Proof.
  intros Ho Hd. unfold poke. msimp. rewrite length_app in *.
  rewrite (proj2 (Z.leb_le 0 off)), (proj2 (Z.leb_le 0 (off + zlen d))) by lia.
  rewrite (proj2 (Z.leb_le (off + zlen d) (SIZE fb))) by lia. cbn [andb].
  unfold SIZE in *. cbn [data_ cur_]. rewrite zlen_splice by lia.
  rewrite !(proj2 (Z.leb_le _ (zlen (data_ fb)))) by lia.
  by rewrite splice_app by (rewrite ?length_app; lia).
Qed.

(** What [operator<<] of a pointer does with the digits. *)
Lemma put_0x fb s o :
  fb_wf fb -> cur_ fb + zlen s + 2 <= SIZE fb -> o = Some s ->
  ∃ fb', (poke (current fb) (bytes "0") ;; poke (current fb + 1) (bytes "x") ;;
          s' ← of_option UB o; poke (current fb + 2) s' ;; add (zlen s' + 2)) fb = Ok (tt, fb') ∧
    fb_wf fb' ∧ SIZE fb' = SIZE fb ∧ text fb' = text fb ++ bytes "0x" ++ s.
Proof.
  intros Hwf Hroom ->. unfold current.
  destruct (put_text fb (bytes "0x" ++ s) [] (zlen s + 2)) as (fb' & E1 & W1 & S1 & T1);
    [done|rewrite app_nil_r, length_app; change (length (bytes "0x")) with 2%nat; lia
    |rewrite length_app; change (length (bytes "0x")) with 2%nat; lia|].
  exists fb'. split; [|done].
  rewrite <- E1. rewrite app_nil_r. change (bytes "0x") with (bytes "0" ++ bytes "x").
  destruct Hwf as [Hc _].
  assert (zlen ((bytes "0" ++ bytes "x") ++ s) = 2 + zlen s) as HL2
    by (rewrite length_app; change (length (bytes "0" ++ bytes "x")) with 2%nat; lia).
  pose proof (poke_app (cur_ fb) (bytes "0" ++ bytes "x") s fb) as P2.
  pose proof (poke_app (cur_ fb) (bytes "0") (bytes "x") fb) as P1.
  change (zlen (bytes "0" ++ bytes "x")) with 2 in P1, P2. change (zlen (bytes "0")) with 1 in P1.
  specialize (P1 ltac:(lia) ltac:(lia)). specialize (P2 ltac:(lia) ltac:(lia)).
  revert P1 P2. msimp. intros P1 P2. rewrite <- P2, <- P1.
  destruct (poke (cur_ fb) (bytes "0") fb) as [[[] fb1]|]; [|done].
  destruct (poke (cur_ fb + 1) (bytes "x") fb1) as [[[] fb2]|]; [|done].
  reflexivity.
Qed.

(** Every 64-bit value has hexadecimal digits that spell it. *)
Lemma convertHex_value p :
  0 <= p < 2 ^ 64 -> ∃ s, convertHex p = Some s ∧ hex_value (rev s) = Some p ∧ 1 <= zlen s <= 16.
Proof.
  intros Hp. destruct (convertHex_loop_value 16 p) as (cs & E & Hval & HL);
    [change (16 ^ Z.of_nat 16) with (2 ^ 64); lia|lia|].
  exists (rev cs). unfold convertHex. rewrite E, rev_involutive, length_rev. split_and!; [done..|lia|lia].
Qed.

(** A pointer is written as [0x] and hexadecimal digits that spell its value,
    for every 64-bit value. *)
Theorem LogStream_pointer fb p :
  fb_wf fb -> kMaxNumericSize <= SIZE fb -> cur_ fb + 18 <= SIZE fb -> 0 <= p < 2 ^ 64 ->
  ∃ fb' s, put_pointer p fb = Ok (tt, fb') ∧ fb_wf fb' ∧
    text fb' = text fb ++ bytes "0x" ++ s ∧ hex_value (rev s) = Some p ∧ 1 <= zlen s <= 16.
Proof.
  intros Hwf HS Hroom Hp. destruct (convertHex_value p Hp) as (s & E & Hval & HL).
  unfold put_pointer. rewrite (bind_Ok _ _ fb fb fb) by done.
  rewrite available_SIZE by done. rewrite (proj2 (Z.leb_le _ _)) by done. unfold when.
  destruct (put_0x fb s (convertHex p)) as (fb' & E1 & W1 & _ & T1); [done|lia|done|].
  exists fb', s. done.
Qed.

Lemma LogStream_pointer_witness :
  let fb := mkFixedBuffer (replicate 40 x00) 3 in
  ∃ fb' s, put_pointer 3735928559 fb = Ok (tt, fb') ∧ text fb' = text fb ++ bytes "0x" ++ s ∧
    hex_value (rev s) = Some 3735928559.
Proof.
  intros fb. assert (fb_wf fb) as Hwf by (subst fb; unfold fb_wf, SIZE; simpl; lia).
  destruct (LogStream_pointer fb 3735928559 Hwf) as (fb' & s & E & _ & T & H & _);
    [unfold kMaxNumericSize, SIZE; simpl; lia|unfold SIZE; simpl; lia|lia|].
  exists fb', s. split; [exact E|]. split; [exact T|exact H].
Defined.
