(* ===== verification/OldLogStream.v ===== *)
(** The earlier stream, [logging/LogStream.h] and [LogStream.cpp], over the earlier buffer of
    [common/FixedBuffer.h].  Its conversion routines are those of [LogStream.v], character
    for character; its buffer's [available()] is the room that is left. *)
From Stdlib Require Import Strings.String.
From S2P Require Import Prelude FixedBuffer LogStream LogProps.
Open Scope list_scope.

Definition formatInteger (v : Z) : M FixedBuffer unit :=
  fb ← get;
  when (kMaxNumericSize <=? Old.available fb)
    (s ← of_option UB (convert v);
     poke (current fb) (s ++ [x00]) ;;
     add (zlen s)).

Definition put_bool (v : bool) : M FixedBuffer unit := Old.append (if v then bytes "1" else bytes "0").
Definition put_int (v : Z) : M FixedBuffer unit := formatInteger v.
Definition put_uint (v : Z) : M FixedBuffer unit := formatInteger v.
Definition put_short (v : Z) : M FixedBuffer unit := put_int v.
Definition put_ushort (v : Z) : M FixedBuffer unit := put_uint v.
Definition put_long (v : Z) : M FixedBuffer unit := formatInteger v.
Definition put_ulong (v : Z) : M FixedBuffer unit := formatInteger v.
Definition put_llong (v : Z) : M FixedBuffer unit := formatInteger v.
Definition put_ullong (v : Z) : M FixedBuffer unit := formatInteger v.

Definition put_pointer (p : Z) : M FixedBuffer unit :=
  fb ← get;
  when (kMaxNumericSize <=? Old.available fb)
    (poke (current fb) (bytes "0") ;;
     poke (current fb + 1) (bytes "x") ;;
     s ← of_option UB (convertHex p);
     poke (current fb + 2) s ;;
     add (zlen s + 2)).

(** For the C library's [%.12g]. *)
Definition put_double (fmt_g : list byte) : M FixedBuffer unit :=
  fb ← get;
  when (kMaxNumericSize <=? Old.available fb)
    (len ← snprintf_at (current fb) kMaxNumericSize fmt_g; add len).

Definition put_float (fmt_g : list byte) : M FixedBuffer unit := put_double fmt_g.
Definition put_char (v : byte) : M FixedBuffer unit := Old.append [v].
Definition put_cstr (p : list byte) : M FixedBuffer unit := Old.append p.
Definition put_string (str : list byte) : M FixedBuffer unit := Old.append_string str.
Definition stream_append (data : list byte) : M FixedBuffer unit := Old.append data.
Definition resetBuffer : M FixedBuffer unit := reset.

(** * A statement's worth of insertions *)

Inductive Item :=
| IBool (v : bool) | IShort (v : Z) | IUShort (v : Z) | IInt (v : Z) | IUInt (v : Z) | ILong (v : Z) | IULong (v : Z)
| ILLong (v : Z) | IULLong (v : Z) | IPointer (p : Z) | IDouble (fmt_g : list byte) | IFloat (fmt_g : list byte)
| IChar (v : byte) | ICstr (p : list byte) | IString (str : list byte) | IAppend (data : list byte).

Definition put (i : Item) : M FixedBuffer unit :=
  match i with
  | IBool v => put_bool v | IShort v => put_short v | IUShort v => put_ushort v | IInt v => put_int v
  | IUInt v => put_uint v | ILong v => put_long v | IULong v => put_ulong v | ILLong v => put_llong v
  | IULLong v => put_ullong v | IPointer p => put_pointer p | IDouble g => put_double g | IFloat g => put_float g
  | IChar v => put_char v | ICstr p => put_cstr p | IString s => put_string s | IAppend d => stream_append d
  end.

(** The values of the types, and what the C library promises of [%.12g]: 12 digits, a sign, a
    point and an exponent. *)
Definition item_ok (i : Item) : Prop :=
  match i with
  | IBool _ | IChar _ => True
  | IShort v => - 2 ^ 15 <= v < 2 ^ 15
  | IUShort v => 0 <= v < 2 ^ 16
  | IInt v => - 2 ^ 31 <= v < 2 ^ 31
  | IUInt v => 0 <= v < 2 ^ 32
  | ILong v | ILLong v => - 2 ^ 63 <= v < 2 ^ 63
  | IULong v | IULLong v | IPointer v => 0 <= v < 2 ^ 64
  | IDouble g | IFloat g => zlen g < kMaxNumericSize
  | ICstr d | IString d | IAppend d => zlen d < 2 ^ 31
  end.

(** What the line is after an item: a number needs room for the longest, bytes are taken whole
    or not at all, and a [std::string] is cut. *)
Definition spec_item (size : Z) (line : list byte) (i : Item) : list byte :=
  let room := size - zlen line in
  let number s := if kMaxNumericSize <=? room then line ++ s else line in
  let whole s := if zlen s <? room then line ++ s else line in
  match i with
  | IBool v => whole (if v then bytes "1" else bytes "0")
  | IShort v | IUShort v | IInt v | IUInt v | ILong v | IULong v | ILLong v | IULLong v => number (fmt_d v)
  | IPointer p => number (bytes "0x" ++ default [] (convertHex p))
  | IDouble g | IFloat g => number g
  | IChar v => whole [v]
  | ICstr d | IAppend d => whole d
  | IString d => line ++ take (Z.to_nat room) d
  end.

(** * The stream never leaves its buffer *)

Definition extends (line : list byte) (fb : FixedBuffer) (r : res (unit * FixedBuffer)) : Prop :=
  ∃ fb', r = Ok (tt, fb') ∧ fb_wf fb' ∧ SIZE fb' = SIZE fb ∧ text fb' = line.

Lemma number_spec v fb :
  fb_wf fb -> - 2 ^ 63 <= v < 2 ^ 64 ->
  extends (if kMaxNumericSize <=? SIZE fb - zlen (text fb) then text fb ++ fmt_d v else text fb) fb (formatInteger v fb).
Proof.
  intros Hwf Hv. unfold formatInteger. rewrite (bind_Ok _ _ fb fb fb) by done.
  rewrite Old_available_room, zlen_text by done. unfold kMaxNumericSize. destruct (Z.leb_spec 32 (SIZE fb - cur_ fb)).
  2: { by exists fb. }
  pose proof (convert_fmt_d v Hv) as E. pose proof (convert_length v _ Hv E). rewrite E. cbn [when of_option].
  destruct (put_text fb (fmt_d v) [x00] (zlen (fmt_d v))) as (fb' & E1 & ? & ? & ?);
    [done|rewrite length_app; simpl; lia|done|]. exists fb'. done.
Qed.

Lemma pointer_spec p fb :
  fb_wf fb -> 0 <= p < 2 ^ 64 ->
  extends (if kMaxNumericSize <=? SIZE fb - zlen (text fb) then text fb ++ bytes "0x" ++ default [] (convertHex p) else text fb)
    fb (put_pointer p fb).
Proof.
  intros Hwf Hp. unfold put_pointer. rewrite (bind_Ok _ _ fb fb fb) by done.
  rewrite Old_available_room, zlen_text by done. unfold kMaxNumericSize. destruct (Z.leb_spec 32 (SIZE fb - cur_ fb)).
  2: { by exists fb. }
  destruct (convertHex_value p Hp) as (s & E & _ & ?). rewrite E. cbn [default].
  destruct (put_0x fb s (Some s)) as (fb' & E1 & ? & ? & ?); [done|lia|done|]. exists fb'. done.
Qed.

Lemma double_spec g fb :
  fb_wf fb -> zlen g < kMaxNumericSize ->
  extends (if kMaxNumericSize <=? SIZE fb - zlen (text fb) then text fb ++ g else text fb) fb (put_double g fb).
Proof.
  intros Hwf Hg. unfold put_double. rewrite (bind_Ok _ _ fb fb fb) by done.
  rewrite Old_available_room, zlen_text by done. unfold kMaxNumericSize in *. destruct (Z.leb_spec 32 (SIZE fb - cur_ fb)).
  2: { by exists fb. }
  cbn [when]. unfold snprintf_at. rewrite take_ge by lia.
  destruct (put_text fb g [x00] (zlen g)) as (fb' & E1 & ? & ? & ?);
    [done|rewrite length_app; simpl; lia|done|]. exists fb'. split; [|done]. rewrite <- E1. unfold current. msimp.
  by destruct (poke _ _ _) as [[]|].
Qed.

Lemma put_spec i fb :
  fb_wf fb -> item_ok i -> extends (spec_item (SIZE fb) (text fb) i) fb (put i fb).
Proof.
  intros Hwf Hi. destruct i as [v|v|v|v|v|v|v|v|v|p|g|g|v|d|d|d]; simpl in Hi |- *;
    try (apply number_spec; [done|lia]); try (by apply pointer_spec); try (by apply double_spec);
    rewrite zlen_text by done.
  - apply (Old_append_safe fb (if v then bytes "1" else bytes "0")); [done|by destruct v].
  - by apply (Old_append_safe fb [v]).
  - by apply (Old_append_safe fb d).
  - by apply (Old_append_safe fb d).
  - by apply (Old_append_safe fb d).
Qed.

(** C31: The earlier stream stays inside its buffer: whatever is inserted, however long the
    line gets, nothing is written outside the array, and the line is what [spec_item] makes
    of it - numbers as [printf] writes them, each item whole or left out, only a [std::string]
    cut to the room that is left. *)
Theorem old_stream_exact items fb :
  fb_wf fb -> Forall item_ok items ->
  ∃ fb', mapM_ put items fb = Ok (tt, fb') ∧ fb_wf fb' ∧
    text fb' = foldl (spec_item (SIZE fb)) (text fb) items ∧ zlen (text fb') <= SIZE fb.
Proof.
  intros Hwf Hall. revert fb Hwf. induction Hall as [|i items Hi Hall IH]; intros fb Hwf; simpl.
  - exists fb. rewrite zlen_text by done. destruct Hwf. split_and!; [done..|lia].
  - destruct (put_spec i fb Hwf Hi) as (fb1 & E & W & S & T). rewrite (bind_Ok _ _ _ _ _ E).
    destruct (IH fb1 W) as (fb' & E' & W' & T' & L'). exists fb'. rewrite <- T, <- S. done.
Qed.

Lemma old_stream_exact_witness :
  let fb := new_FixedBuffer (replicate 40 x00) in
  let items := [IString (bytes "count "); IInt (-42); IChar x20; IPointer 48879; IULLong (2 ^ 64 - 1); ICstr (bytes "!")] in
  ∃ fb', mapM_ put items fb = Ok (tt, fb') ∧ fb_wf fb' ∧
    text fb' = foldl (spec_item (SIZE fb)) (text fb) items ∧ zlen (text fb') <= SIZE fb.
Proof.
  intros fb items. apply (old_stream_exact items fb).
  - unfold fb_wf, SIZE, fb. simpl. lia.
  - unfold items. repeat constructor; simpl; lia.
Defined.

Example old_stream_line :
  foldl (spec_item 40) [] [IString (bytes "count "); IInt (-42); IChar x20; IPointer 48879; IULLong (2 ^ 64 - 1); ICstr (bytes "!")]
  = bytes "count -42 !".
Proof. vm_compute. reflexivity. Qed.
