(* ===== verification/Logging.v ===== *)
(** Log statements: [PracticeMuduo/logging.muduo/Logging.h] and [Logging.cpp].  The
    state is the global level and output functions, with the calls made to them;
    the local time and the thread id a statement sees are arguments. *)
From Stdlib Require Import Strings.String.
From S2P Require Import Prelude FixedBuffer LogStream Timestamp LogProps.
Open Scope list_scope.

Inductive LOG_LEVEL := TRACE | DEBUG | INFO | WARN | ERRORL | FATAL | NUM_LEVELS.

#[export] Instance LOG_LEVEL_eq_dec : EqDecision LOG_LEVEL.
Proof. solve_decision. Defined.

Definition level_num (l : LOG_LEVEL) : Z :=
  match l with
  | TRACE => 0 | DEBUG => 1 | INFO => 2 | WARN => 3 | ERRORL => 4 | FATAL => 5 | NUM_LEVELS => 6
  end.

Definition levelStr : list (list byte) :=
  [bytes "TRACE "; bytes "DEBUG "; bytes "INFO  "; bytes "WARN  "; bytes "ERROR "; bytes "FATAL "].

(** * Source files *)

(** [strrchr]: the offset of the last occurrence. *)
Fixpoint strrchr (c : byte) (s : list byte) : option nat :=
  match s with
  | [] => None
  | x :: s' =>
      match strrchr c s' with
      | Some i => Some (S i)
      | None => if decide (x = c) then Some 0%nat else None
      end
  end.

Definition slash_char : byte := byte_of_Z 47.

Record SourceFile := mkSourceFile { filename_ : list byte; length_ : Z }.

(** [SourceFile(const char* name)], of a NUL-terminated name. *)
Definition SourceFile_of (name : list byte) : SourceFile :=
  let filename := match strrchr slash_char name with Some i => drop (S i) name | None => name end in
  mkSourceFile filename (s32 (zlen filename)).

(** [SourceFile(const char (&arr)\[N\])]: the [N] characters end in a NUL. *)
Definition SourceFile_arr (N : Z) (arr : list byte) : SourceFile :=
  match strrchr slash_char arr with
  | Some i => mkSourceFile (drop (S i) arr) (s32 (N - 1 - s32 (Z.of_nat (S i))))
  | None => mkSourceFile arr (N - 1)
  end.

(** * The logger *)

Record Logger := mkLogger {
  file_ : SourceFile; line_ : Z; level_ : LOG_LEVEL; logStream_ : FixedBuffer }.

(** The globals; output functions are numbered, 0 is the default one, and their calls
    are recorded. *)
Record Globals := mkGlobals {
  g_loglevel : LOG_LEVEL;
  g_output : nat;
  g_flush : nat;
  output_calls : list (nat * list byte);
  flush_calls : list nat }.

Definition initLogLevel (MUDUO_LOG_DEBUG : bool) : LOG_LEVEL := if MUDUO_LOG_DEBUG then DEBUG else INFO.

Definition initial_Globals (MUDUO_LOG_DEBUG : bool) : Globals :=
  mkGlobals (initLogLevel MUDUO_LOG_DEBUG) 0 0 [] [].

Definition logLevel (g : Globals) : LOG_LEVEL := g_loglevel g.
Definition setLogLevel (level : LOG_LEVEL) (g : Globals) : Globals :=
  mkGlobals level (g_output g) (g_flush g) (output_calls g) (flush_calls g).
Definition setOutput (out : nat) (g : Globals) : Globals :=
  mkGlobals (g_loglevel g) out (g_flush g) (output_calls g) (flush_calls g).
Definition setFlush (flush : nat) (g : Globals) : Globals :=
  mkGlobals (g_loglevel g) (g_output g) flush (output_calls g) (flush_calls g).

Definition formatTime (lt : tm) (usec : Z) : res (list byte) :=
  let text :=
    fmt_wd 4 (tm_year lt + 1900) ++ fmt_0d 2 (tm_mon lt + 1) ++ fmt_0d 2 (tm_mday lt) ++ bytes "_"
    ++ fmt_0d 2 (tm_hour lt) ++ bytes ":" ++ fmt_0d 2 (tm_min lt) ++ bytes ":" ++ fmt_0d 2 (tm_sec lt)
    ++ bytes ":" ++ fmt_0d 6 usec in
  if zlen text =? 24 then Ok (snprintf 256 text) else Fault AssertFail.

Definition space : byte := byte_of_Z 32.

(** What a statement sees of its surroundings: the local time, the microseconds, the
    thread id, and the indeterminate contents of the stream's array. *)
Record Env := mkEnv { lt : tm; usec : Z; tid : Z; garbage : list byte }.

(** The two constructors: without and with the function's name. *)
Definition new_Logger (e : Env) (file : SourceFile) (line : Z) (level : LOG_LEVEL)
    (func : option (list byte)) : res Logger :=
  match formatTime (lt e) (usec e) with
  | Fault f => Fault f
  | Ok time =>
      match levelStr !! Z.to_nat (level_num level) with
      | None => Fault UB
      | Some lev =>
          match (put_string time ;; put_char space ;; put_int (s32 (tid e)) ;; put_char space ;;
                 put_cstr lev ;; put_char space ;;
                 match func with
                 | Some f => put_cstr f ;; put_cstr (bytes " ")
                 | None => mret tt
                 end) (new_FixedBuffer (garbage e)) with
          | Ok (_, s) => Ok (mkLogger file line level s)
          | Fault f => Fault f
          end
      end
  end.

(** The destructor; the boolean tells that it called [abort()]. *)
Definition Logger_dtor (lg : Logger) (g : Globals) : res (Globals * bool) :=
  match (put_cstr (bytes "  - ") ;; put_cstr (filename_ (file_ lg)) ;; put_cstr (bytes ":") ;;
         put_int (line_ lg) ;; put_char x0a) (logStream_ lg) with
  | Fault f => Fault f
  | Ok (_, buf) =>
      let g := mkGlobals (g_loglevel g) (g_output g) (g_flush g)
                 (output_calls g ++ [(g_output g, range 0 (length_of buf) (data_ buf))]) (flush_calls g) in
      if level_num FATAL <=? level_num (level_ lg)
      then Ok (mkGlobals (g_loglevel g) (g_output g) (g_flush g) (output_calls g)
                 (flush_calls g ++ [g_flush g]), true)
      else Ok (g, false)
  end.

(** [LOG_TRACE << msg;] and its sisters: [LOG_TRACE] and [LOG_DEBUG] also pass
    [__FUNCTION__]. *)
Definition LOG (e : Env) (FILE : list byte) (LINE : Z) (FUNCTION : list byte) (level : LOG_LEVEL)
    (msg : list byte) (g : Globals) : res (Globals * bool) :=
  if level_num (logLevel g) <=? level_num level then
    match new_Logger e (SourceFile_of FILE) LINE level
            (match level with TRACE | DEBUG => Some FUNCTION | _ => None end) with
    | Fault f => Fault f
    | Ok lg =>
        match put_cstr msg (logStream_ lg) with
        | Ok (_, s) => Logger_dtor (mkLogger (file_ lg) (line_ lg) (level_ lg) s) g
        | Fault f => Fault f
        end
    end
  else Ok (g, false).

(** [CheckNotNull]: the null pointer is 0. *)
Definition CheckNotNull (e : Env) (file : SourceFile) (line : Z) (names : list byte) (ptr : Z)
    (g : Globals) : res (Globals * bool * Z) :=
  if ptr =? 0 then
    match new_Logger e file line FATAL None with
    | Fault f => Fault f
    | Ok lg =>
        match put_cstr names (logStream_ lg) with
        | Ok (_, s) =>
            match Logger_dtor (mkLogger (file_ lg) (line_ lg) (level_ lg) s) g with
            | Ok (g', aborted) => Ok (g', aborted, ptr)
            | Fault f => Fault f
            end
        | Fault f => Fault f
        end
    end
  else Ok (g, false, ptr).

(** * Writing in a row *)

(** [m] appends [d] whenever the stream has room for it and 21 bytes more. *)
Definition puts (m : M FixedBuffer unit) (d : list byte) : Prop := ∀ fb,
  fb_wf fb -> kMaxNumericSize <= SIZE fb -> cur_ fb + zlen d + 21 <= SIZE fb ->
  ∃ fb', m fb = Ok (tt, fb') ∧ fb_wf fb' ∧ SIZE fb' = SIZE fb ∧ text fb' = text fb ++ d.

Lemma puts_seq m1 m2 d1 d2 : puts m1 d1 -> puts m2 d2 -> puts (m1 ;; m2) (d1 ++ d2).
Proof.
  intros H1 H2 fb Hwf HS Hroom. rewrite length_app in Hroom.
  destruct (H1 fb Hwf HS) as (fb1 & E1 & W1 & S1 & T1); [lia|].
  pose proof (zlen_text fb Hwf). pose proof (zlen_text fb1 W1) as HT. rewrite T1, length_app in HT.
  destruct (H2 fb1 W1) as (fb2 & E2 & W2 & S2 & T2); [lia..|].
  exists fb2. rewrite (bind_Ok _ _ _ _ _ E1). repeat split; try done; try apply W2; [lia|].
  by rewrite T2, T1, app_assoc.
Qed.

Lemma puts_ret : puts (mret tt) [].
Proof. intros fb Hwf HS _. exists fb. by rewrite app_nil_r. Qed.

Lemma appended_puts m d fb :
  cur_ fb + zlen d <= SIZE fb -> appended d fb (m fb) ->
  ∃ fb', m fb = Ok (tt, fb') ∧ fb_wf fb' ∧ SIZE fb' = SIZE fb ∧ text fb' = text fb ++ d.
Proof.
  intros Hd. unfold appended. destruct (m fb) as [[[] fb']|f]; [|lia].
  intros (_ & ? & ? & ?). by exists fb'.
Qed.

Lemma puts_append d : puts (append d) d.
Proof.
  intros fb Hwf HS Hroom. pose proof Hwf as [Hc HS'].
  apply appended_puts; [lia|]. rewrite <- (take_ge d (Z.to_nat (SIZE fb))) at 1 by lia.
  exact (proj1 (FixedBuffer_append_aux fb d Hwf ltac:(lia))).
Qed.

Lemma puts_string d : puts (put_string d) d.
Proof.
  intros fb Hwf HS Hroom. pose proof Hwf as [Hc HS'].
  apply appended_puts; [lia|]. rewrite <- (take_ge d (Z.to_nat (SIZE fb))) at 1 by lia.
  exact (proj2 (proj2 (FixedBuffer_append_aux fb d Hwf ltac:(lia)))).
Qed.

Lemma puts_int v : - 2 ^ 31 <= v < 2 ^ 31 -> puts (put_int v) (fmt_d v).
Proof.
  intros Hv fb Hwf HS Hroom.
  destruct (LogStream_integers_aux fb v) as (_ & _ & fb' & _ & E & _ & _ & W & T & S); [done|done|lia|lia|].
  by exists fb'.
Qed.

Lemma puts_char c : puts (put_char c) [c].
Proof. apply puts_append. Qed.

Lemma puts_cstr d : puts (put_cstr d) d.
Proof. apply puts_append. Qed.

(** * Statements *)

(** The text of a log line. *)
Definition log_line (time : list byte) (e : Env) (lev : list byte) (func : option (list byte))
    (msg file : list byte) (line : Z) : list byte :=
  time ++ bytes " " ++ fmt_d (s32 (tid e)) ++ bytes " " ++ lev ++ bytes " "
  ++ match func with Some f => f ++ bytes " " | None => [] end
  ++ msg ++ bytes "  - " ++ file ++ bytes ":" ++ fmt_d line ++ [x0a].

#[local] Hint Resolve puts_seq puts_ret puts_int puts_char puts_cstr puts_string : muduo.

Lemma last_slash name :
  match strrchr slash_char name with
  | Some i => ∃ dir base, name = dir ++ slash_char :: base ∧ length dir = i ∧ slash_char ∉ base
  | None => slash_char ∉ name
  end.
Proof.
  induction name as [|x name IH]; cbn [strrchr]; [set_solver|].
  destruct (strrchr slash_char name) as [i|].
  - destruct IH as (dir & base & -> & <- & Hb). by exists (x :: dir), base.
  - destruct (decide (x = slash_char)) as [->|]; [|set_solver]. by exists [], name.
Qed.

(** A [SourceFile] holds the base name of the path: what follows the last
    slash, or the whole path when there is none, together with its length; the
    constructor for character arrays agrees with the one for strings. *)
Theorem SourceFile_basename name :
  zlen name < 2 ^ 31 - 1 ->
  let f := SourceFile_of name in
  (∃ dir, name = dir ++ filename_ f ∧ (dir = [] ∨ ∃ d, dir = d ++ [slash_char])) ∧
  slash_char ∉ filename_ f ∧ length_ f = zlen (filename_ f) ∧
  SourceFile_arr (zlen name + 1) name = f.
Proof.
  intros Hlen. unfold SourceFile_of, SourceFile_arr. pose proof (last_slash name) as H.
  destruct (strrchr slash_char name) as [i|]; cbn [filename_ length_].
  - destruct H as (dir & base & -> & <- & Hb). rewrite length_app in *. cbn [length] in *.
    assert (drop (S (length dir)) (dir ++ slash_char :: base) = base) as ->.
    { rewrite drop_app_ge by lia. by replace (S (length dir) - length dir)%nat with 1%nat by lia. }
    rewrite (s32_small (zlen base)), (s32_small (Z.of_nat (S (length dir)))), s32_small by lia.
    split; [|split; [done|split; [done|]]].
    + exists (dir ++ [slash_char]). split; [by rewrite <- app_assoc|]. right. by exists dir.
    + f_equal. lia.
  - rewrite s32_small by lia. split; [|split; [done|split; [done|]]].
    + exists []. split; [done|by left].
    + f_equal. lia.
Qed.

Lemma SourceFile_basename_witness :
  let f := SourceFile_of (bytes "src/tcp.muduo/Buffer.cpp") in
  filename_ f = bytes "Buffer.cpp" ∧ slash_char ∉ filename_ f ∧
  SourceFile_arr 25 (bytes "src/tcp.muduo/Buffer.cpp") = f.
Proof.
  intros f. split; [reflexivity|].
  destruct (SourceFile_basename (bytes "src/tcp.muduo/Buffer.cpp") ltac:(reflexivity)) as (_ & H & _ & E).
  split; [exact H|exact E].
Defined.

(** A run of writes on a fresh stream of the logger's size. *)
Lemma puts_new e m d :
  puts m d -> zlen (garbage e) = kSmallBuffer -> zlen d + 21 <= kSmallBuffer ->
  ∃ s, m (new_FixedBuffer (garbage e)) = Ok (tt, s) ∧ fb_wf s ∧ SIZE s = kSmallBuffer ∧ text s = d.
Proof.
  unfold kSmallBuffer. intros H HS Hd.
  destruct (H (new_FixedBuffer (garbage e))) as (s & E & W & S & T);
    [split; unfold SIZE; simpl; lia|unfold SIZE, kMaxNumericSize; simpl; lia|unfold SIZE; simpl; lia|].
  exists s. repeat split; try done; try apply W. unfold SIZE in *. simpl in S. lia.
Qed.

Lemma puts_on m d s d0 :
  puts m d -> fb_wf s -> SIZE s = kSmallBuffer -> text s = d0 -> zlen (d0 ++ d) + 21 <= kSmallBuffer ->
  ∃ s', m s = Ok (tt, s') ∧ fb_wf s' ∧ SIZE s' = kSmallBuffer ∧ text s' = d0 ++ d.
Proof.
  unfold kSmallBuffer. intros H W HS HT Hd. pose proof (zlen_text s W) as HL. rewrite HT in HL.
  rewrite length_app in Hd.
  destruct (H s W) as (s' & E & W' & S' & T'); [unfold kMaxNumericSize; lia|lia|].
  exists s'. rewrite <- HT, <- HS. done.
Qed.

(** What the constructor leaves in the stream. *)
Definition log_head (time : list byte) (e : Env) (lev : list byte) (func : option (list byte)) :
    list byte :=
  time ++ [space] ++ fmt_d (s32 (tid e)) ++ [space] ++ lev ++ [space]
  ++ match func with Some f => f ++ bytes " " | None => [] end.

(** What the destructor adds. *)
Definition log_tail (file : list byte) (line : Z) : list byte :=
  bytes "  - " ++ file ++ bytes ":" ++ fmt_d line ++ [x0a].

Lemma new_Logger_spec e file line level func time lev :
  formatTime (lt e) (usec e) = Ok time -> levelStr !! Z.to_nat (level_num level) = Some lev ->
  zlen (garbage e) = kSmallBuffer -> zlen (log_head time e lev func) + 21 <= kSmallBuffer ->
  ∃ s, new_Logger e file line level func = Ok (mkLogger file line level s) ∧
    fb_wf s ∧ SIZE s = kSmallBuffer ∧ text s = log_head time e lev func.
Proof.
  intros Ht Hl HS Hd. unfold new_Logger. rewrite Ht, Hl.
  destruct (puts_new e (put_string time ;; put_char space ;; put_int (s32 (tid e)) ;; put_char space ;;
                 put_cstr lev ;; put_char space ;;
                 match func with
                 | Some f => put_cstr f ;; put_cstr (bytes " ")
                 | None => mret tt
                 end) (log_head time e lev func)) as (s & E & H); [|done|done|].
  - pose proof (swrap_range 32 (tid e) ltac:(lia)). unfold log_head. destruct func; eauto 20 with muduo.
  - rewrite E. by exists s.
Qed.

Lemma Logger_dtor_spec lg g d0 :
  fb_wf (logStream_ lg) -> SIZE (logStream_ lg) = kSmallBuffer -> text (logStream_ lg) = d0 ->
  - 2 ^ 31 <= line_ lg < 2 ^ 31 ->
  zlen (d0 ++ log_tail (filename_ (file_ lg)) (line_ lg)) + 21 <= kSmallBuffer ->
  let fatal := level_num FATAL <=? level_num (level_ lg) in
  Logger_dtor lg g =
  Ok (mkGlobals (g_loglevel g) (g_output g) (g_flush g)
        (output_calls g ++ [(g_output g, d0 ++ log_tail (filename_ (file_ lg)) (line_ lg))])
        (flush_calls g ++ if fatal then [g_flush g] else []), fatal).
Proof.
  intros W HS HT Hl Hd fatal. unfold Logger_dtor.
  destruct (puts_on (put_cstr (bytes "  - ") ;; put_cstr (filename_ (file_ lg)) ;; put_cstr (bytes ":") ;;
         put_int (line_ lg) ;; put_char x0a) (log_tail (filename_ (file_ lg)) (line_ lg)) (logStream_ lg) d0)
    as (s & E & W' & _ & T); [unfold log_tail; eauto 20 with muduo|done..|].
  rewrite E. fold (ToString s). rewrite ToString_text, T by done. subst fatal. cbn [g_loglevel g_output g_flush output_calls flush_calls].
  destruct (level_num FATAL <=? level_num (level_ lg)); [done|]. by rewrite app_nil_r.
Qed.

(** A log statement below the global level does nothing; any other hands
    exactly one line to the current output function - time, thread id, level, for
    [LOG_TRACE] and [LOG_DEBUG] the function, the message, and base name and line
    of the source file - as long as the line fits the stream, and it flushes and
    aborts exactly when its level is [FATAL]. *)
Theorem LOG_statement e FILE LINE FUNCTION level msg g time lev :
  formatTime (lt e) (usec e) = Ok time -> levelStr !! Z.to_nat (level_num level) = Some lev ->
  zlen (garbage e) = kSmallBuffer -> - 2 ^ 31 <= LINE < 2 ^ 31 ->
  let func := match level with TRACE | DEBUG => Some FUNCTION | _ => None end in
  let file := filename_ (SourceFile_of FILE) in
  let line := log_line time e lev func msg file LINE in
  zlen line + 21 <= kSmallBuffer ->
  LOG e FILE LINE FUNCTION level msg g =
  if level_num (g_loglevel g) <=? level_num level then
    Ok (mkGlobals (g_loglevel g) (g_output g) (g_flush g) (output_calls g ++ [(g_output g, line)])
          (flush_calls g ++ if decide (level = FATAL) then [g_flush g] else []),
        bool_decide (level = FATAL))
  else Ok (g, false).
Proof.
  intros Ht Hl HS HL func file line Hd. unfold LOG, logLevel.
  destruct (level_num (g_loglevel g) <=? level_num level); [|done].
  assert (line = (log_head time e lev func ++ msg) ++ log_tail file LINE) as El.
  { subst line. unfold log_line, log_head, log_tail. rewrite <- !app_assoc. done. }
  fold func. rewrite El, !length_app in Hd.
  destruct (new_Logger_spec e (SourceFile_of FILE) LINE level func time lev) as (s & E & W & S & T);
    [done..|lia|]. rewrite E. cbn [logStream_ file_ line_ level_].
  destruct (puts_on (put_cstr msg) msg s _ (puts_cstr msg) W S T) as (s' & E' & W' & S' & T');
    [rewrite length_app; lia|]. rewrite E'.
  rewrite (Logger_dtor_spec (mkLogger (SourceFile_of FILE) LINE level s') g _ W' S' T') by (cbn [line_ file_]; fold file; rewrite ?length_app; lia).
  cbn [file_ line_ level_]. fold file. rewrite <- El. by destruct level.
Qed.

Definition sample_Env : Env := mkEnv (mkTm 124 1 29 12 34 56) 789 4242 (replicate 4000 x00).

Lemma LOG_statement_witness :
  LOG sample_Env (bytes "tcp.muduo/Buffer.cpp") 17 (bytes "f") FATAL (bytes "boom") (initial_Globals false)
  = Ok (mkGlobals INFO 0 0
          [(0%nat, bytes "20240229_12:34:56:000789 4242 FATAL  boom  - Buffer.cpp:17" ++ [x0a])] [0%nat], true).
Proof.
  refine (LOG_statement sample_Env (bytes "tcp.muduo/Buffer.cpp") 17 (bytes "f") FATAL (bytes "boom")
    (initial_Globals false) (bytes "20240229_12:34:56:000789") (bytes "FATAL ") _ _ _ _ _); try reflexivity; try lia.
  vm_compute. done.
Defined.
