(* ===== verification/LogFile.v ===== *)
(** Log files: [PracticeMuduo/common/AppendFile.cpp] and
    [PracticeMuduo/logging.muduo/LogFile.cpp].  The file system is a map from names
    to contents; bytes a stream has buffered are kept apart until they are
    flushed.  How much each [fwrite] accepts, how much of its buffer it then writes
    out, and the clock are decided by the environment. *)
From Stdlib Require Import Strings.String.
From S2P Require Import Prelude FixedBuffer LogStream Timestamp.
Open Scope list_scope.

#[export] Program Instance byte_countable : Countable byte := inj_countable' Z_of_byte byte_of_Z _.
Next Obligation. apply byte_of_Z_of_byte. Qed.

Abbreviation Files := (gmap (list byte) (list byte)).

(** * AppendFile *)

Record AppendFile := mkAppendFile {
  filename_ : list byte;
  file_pending : list byte;   (* the stream's unflushed bytes *)
  writtenBytes_ : Z }.

Definition disk (fs : Files) (name : list byte) : list byte := default [] (fs !! name).

(** Bytes leave the stream's buffer for the end of the file. *)
Definition write_out (n : nat) (f : AppendFile) (fs : Files) : AppendFile * Files :=
  (mkAppendFile (filename_ f) (drop n (file_pending f)) (writtenBytes_ f),
   <[filename_ f := disk fs (filename_ f) ++ take n (file_pending f)]> fs).

Definition fflush (f : AppendFile) (fs : Files) : AppendFile * Files :=
  write_out (length (file_pending f)) f fs.

(** [ftell] at the end of the file. *)
Definition getFileSize (name : list byte) (fs : Files) : Z := zlen (disk fs name).

(** [fopen(..., "a+")] creates the file; a failure leaves a null [FILE*], which the
    constructor passes on. *)
Definition new_AppendFile (opens : bool) (filename : list byte) (fs : Files) :
    res (AppendFile * Files) :=
  if opens then
    let fs' := <[filename := disk fs filename]> fs in
    Ok (mkAppendFile filename [] (getFileSize filename fs'), fs')
  else Fault UB.

(** [~AppendFile]: [fflush] and [fclose]. *)
Definition AppendFile_dtor (f : AppendFile) (fs : Files) : Files := snd (fflush f fs).

(** One [fwrite(buf, 1, len, file_)]: [accept] bytes at most are taken, then [spill]
    bytes are written out. *)
Definition fwrite (accept spill : nat) (buf : list byte) (len : nat) (f : AppendFile) (fs : Files) :
    nat * AppendFile * Files :=
  let x := Nat.min accept len in
  let f' := mkAppendFile (filename_ f) (file_pending f ++ take x buf) (writtenBytes_ f) in
  let '(f'', fs') := write_out spill f' fs in (x, f'', fs').

(** The retry loop of [append]; when the environment's decisions are used up, a call
    takes everything.  The source passes [buf] again, not [buf + nWritten]. *)
Fixpoint append_loop (env : list (nat * nat)) (buf : list byte) (nWritten : nat)
    (f : AppendFile) (fs : Files) : nat * AppendFile * Files :=
  let len := length buf in
  if (nWritten <? len)%nat then
    match env with
    | [] => let '(x, f', fs') := fwrite len 0 buf (len - nWritten) f fs in ((nWritten + x)%nat, f', fs')
    | (accept, spill) :: env' =>
        let '(x, f', fs') := fwrite accept spill buf (len - nWritten) f fs in
        if (x =? 0)%nat then (nWritten, f', fs') else append_loop env' buf (nWritten + x) f' fs'
    end
  else (nWritten, f, fs).

Definition AppendFile_append (env : list (nat * nat)) (buf : list byte) (f : AppendFile) (fs : Files) :
    AppendFile * Files :=
  let '(accept, spill, env') :=
    match env with [] => (length buf, 0%nat, []) | (a, s) :: env' => (a, s, env') end in
  let '(nWritten, f1, fs1) := fwrite accept spill buf (length buf) f fs in
  let '(nWritten, f2, fs2) := append_loop env' buf nWritten f1 fs1 in
  (mkAppendFile (filename_ f2) (file_pending f2) (u64 (writtenBytes_ f2 + Z.of_nat nWritten)), fs2).

(** * LogFile *)

Record LogFile := mkLogFile {
  basename_ : list byte;
  rollSize_ : Z;
  flushInterval_ : Z;
  checkEveryN_ : Z;
  count_ : Z;
  mutex_ : bool;
  file_ : option AppendFile;
  startOfPeriod_ : Z;
  lastFlush_ : Z }.

Definition kRollPerSeconds_ : Z := 60 * 60 * 24.

Definition set_file (f : option AppendFile) (lf : LogFile) : LogFile :=
  mkLogFile (basename_ lf) (rollSize_ lf) (flushInterval_ lf) (checkEveryN_ lf) (count_ lf) (mutex_ lf)
    f (startOfPeriod_ lf) (lastFlush_ lf).
Definition set_count (n : Z) (lf : LogFile) : LogFile :=
  mkLogFile (basename_ lf) (rollSize_ lf) (flushInterval_ lf) (checkEveryN_ lf) n (mutex_ lf)
    (file_ lf) (startOfPeriod_ lf) (lastFlush_ lf).
Definition set_period (t : Z) (lf : LogFile) : LogFile :=
  mkLogFile (basename_ lf) (rollSize_ lf) (flushInterval_ lf) (checkEveryN_ lf) (count_ lf) (mutex_ lf)
    (file_ lf) t (lastFlush_ lf).
Definition set_lastFlush (t : Z) (lf : LogFile) : LogFile :=
  mkLogFile (basename_ lf) (rollSize_ lf) (flushInterval_ lf) (checkEveryN_ lf) (count_ lf) (mutex_ lf)
    (file_ lf) (startOfPeriod_ lf) t.

Record LogWorld := mkLogWorld { lw_file : LogFile; lw_fs : Files }.

Definition on_file (f : LogFile -> LogFile) : M LogWorld unit :=
  modify (λ w, mkLogWorld (f (lw_file w)) (lw_fs w)).

(** What the environment decides during one call: the two readings of the clock, whether
    the new file opens, and the stream's behaviour. *)
Record Env := mkEnv { t_check : Z; t_roll : Z; opens : bool; writes : list (nat * nat) }.

(** [strftime(buf, 32, ".%Y%m%d-%H%M%S", gmtime(now))] between base name and [.log]. *)
Definition getLogfileName (basename : list byte) (now : Z) : list byte :=
  let t := gmtime now in
  basename
  ++ (bytes "." ++ fmt_d (tm_year t + 1900) ++ fmt_0d 2 (tm_mon t + 1) ++ fmt_0d 2 (tm_mday t)
      ++ bytes "-" ++ fmt_0d 2 (tm_hour t) ++ fmt_0d 2 (tm_min t) ++ fmt_0d 2 (tm_sec t))
  ++ bytes ".log".

Definition period_of (now : Z) : Z := Z.quot now kRollPerSeconds_ * kRollPerSeconds_.

(** [file_.reset(new AppendFile(filename))]: the new file is opened before the old
    one is closed. *)
Definition rollFile (e : Env) : M LogWorld unit := λ w,
  let filename := getLogfileName (basename_ (lw_file w)) (t_roll e) in
  match new_AppendFile (opens e) filename (lw_fs w) with
  | Fault f => Fault f
  | Ok (nf, fs) =>
      let fs' := match file_ (lw_file w) with Some old => AppendFile_dtor old fs | None => fs end in
      Ok (tt, mkLogWorld (set_period (period_of (t_roll e)) (set_file (Some nf) (lw_file w))) fs')
  end.

(** The constructor.  Its parameter is called like the member [checkEveryN_], and no
    initialiser names the member, which keeps an indeterminate value. *)
Definition new_LogFile (e : Env) (basename : list byte) (rollsize : Z) (threadSafe : bool)
    (flushInterval checkEveryN : Z) (indeterminate : Z) (fs : Files) : res (unit * LogWorld) :=
  rollFile e (mkLogWorld
    (mkLogFile basename rollsize flushInterval indeterminate 0 threadSafe None 0 0) fs).

Definition with_file (k : AppendFile -> Files -> AppendFile * Files) : M LogWorld unit := λ w,
  match file_ (lw_file w) with
  | None => Fault UB
  | Some f => let '(f', fs') := k f (lw_fs w) in Ok (tt, mkLogWorld (set_file (Some f') (lw_file w)) fs')
  end.

Definition written (w : LogWorld) : Z :=
  match file_ (lw_file w) with Some f => writtenBytes_ f | None => 0 end.

Definition append_unlocked (e : Env) (buf : list byte) : M LogWorld unit :=
  with_file (AppendFile_append (writes e) buf) ;;
  w ← get;
  if rollSize_ (lw_file w) <? written w then rollFile e
  else
    on_file (λ lf, set_count (u64 (count_ lf + 1)) lf) ;;
    w ← get;
    when (u64 (checkEveryN_ (lw_file w)) <=? count_ (lw_file w))
      (on_file (set_count 0) ;;
       let now := t_check e in
       if negb (period_of now =? startOfPeriod_ (lw_file w)) then rollFile e
       else when (flushInterval_ (lw_file w) <? now - lastFlush_ (lw_file w))
              (with_file fflush ;; on_file (set_lastFlush now))).

(** The two branches of [append] differ only by the lock. *)
Definition append (e : Env) (buf : list byte) : M LogWorld unit :=
  w ← get; if mutex_ (lw_file w) then append_unlocked e buf else append_unlocked e buf.

Definition flush : M LogWorld unit :=
  w ← get; if mutex_ (lw_file w) then with_file fflush else with_file fflush.

(** * Contents *)

(** What has been appended to the file [name]: what is on disk and what the open
    stream still holds. *)
Definition contents (f : AppendFile) (fs : Files) (name : list byte) : list byte :=
  disk fs name ++ if decide (name = filename_ f) then file_pending f else [].

Definition bytes_of (w : LogWorld) (name : list byte) : list byte :=
  match file_ (lw_file w) with
  | Some f => contents f (lw_fs w) name
  | None => disk (lw_fs w) name
  end.

Lemma disk_insert fs n n' d :
  disk (<[n := d]> fs) n' = if decide (n' = n) then d else disk fs n'.
Proof.
  unfold disk. case_decide; [subst; by rewrite lookup_insert_eq|by rewrite lookup_insert_ne].
Qed.

Lemma write_out_contents k f fs f' fs' name :
  write_out k f fs = (f', fs') ->
  contents f' fs' name = contents f fs name ∧ filename_ f' = filename_ f.
Proof.
  unfold write_out. intros [= <- <-]. split; [|done]. unfold contents. simpl.
  rewrite disk_insert. case_decide; [|done]. subst. by rewrite <- app_assoc, take_drop.
Qed.

Lemma fwrite_contents a sp buf len f fs x f' fs' name :
  fwrite a sp buf len f fs = (x, f', fs') ->
  contents f' fs' name =
    contents f fs name ++ (if decide (name = filename_ f) then take x buf else []) ∧
  filename_ f' = filename_ f ∧ writtenBytes_ f' = writtenBytes_ f ∧ x = Nat.min a len.
Proof.
  unfold fwrite. destruct (write_out _ _ _) as [f1 fs1] eqn:E. intros [= <- <- <-].
  assert (writtenBytes_ f1 = writtenBytes_ f) as HW by (unfold write_out in E; by injection E as <- _).
  destruct (write_out_contents _ _ _ _ _ name E) as [HC HF]. rewrite HC, HF. simpl. split; [|done].
  unfold contents. simpl. case_decide; [by rewrite app_assoc|by rewrite !app_nil_r].
Qed.

(** The chunks the retry loop adds: prefixes of the buffer. *)
Lemma append_loop_contents env buf n f fs n' f' fs' :
  (n <= length buf)%nat -> append_loop env buf n f fs = (n', f', fs') ->
  ∃ ks, (n' = n + sum_list ks)%nat ∧ (n' <= length buf)%nat ∧ filename_ f' = filename_ f ∧
    writtenBytes_ f' = writtenBytes_ f ∧
    ∀ name, contents f' fs' name =
      contents f fs name ++
      (if decide (name = filename_ f) then concat ((λ k, take k buf) <$> ks) else []).
Proof.
  revert n f fs; induction env as [|[a sp] env IH]; intros n f fs Hn; cbn [append_loop];
    destruct (Nat.ltb_spec n (length buf)) as [Hlt|Hge].
  - destruct (fwrite _ _ _ _ _ _) as [[x f1] fs1] eqn:E. intros [= <- <- <-].
    exists [x]. pose proof (λ name, fwrite_contents _ _ _ _ _ _ _ _ _ name E) as H.
    destruct (H []) as (_ & ? & ? & ?). simpl. repeat split; try done; try lia.
    intros name. rewrite app_nil_r. apply H.
  - intros [= <- <- <-]. exists []. simpl. repeat split; [lia|done|].
    intros name. case_decide; by rewrite app_nil_r.
  - destruct (fwrite _ _ _ _ _ _) as [[x f1] fs1] eqn:E.
    pose proof (λ name, fwrite_contents _ _ _ _ _ _ _ _ _ name E) as H.
    destruct (H []) as (_ & HF & HW & Hx). destruct (Nat.eqb_spec x 0) as [->|Hx0].
    + intros [= <- <- <-]. exists []. simpl. repeat split; [lia|lia|done|done|]. intros name. apply H.
    + intros E2. apply IH in E2 as (ks & ? & ? & HF2 & HW2 & H2); [|lia].
      exists (x :: ks). simpl. repeat split; [lia|lia|congruence|congruence|].
      intros name. rewrite H2, HF. rewrite (proj1 (H name)).
      case_decide; by rewrite <- ?app_assoc, ?app_nil_r.
  - intros [= <- <- <-]. exists []. simpl. repeat split; [lia|done|].
    intros name. case_decide; by rewrite app_nil_r.
Qed.

Lemma AppendFile_append_contents env buf f fs f' fs' :
  AppendFile_append env buf f fs = (f', fs') ->
  ∃ ks, (sum_list ks <= length buf)%nat ∧ filename_ f' = filename_ f ∧
    writtenBytes_ f' = u64 (writtenBytes_ f + Z.of_nat (sum_list ks)) ∧
    (∀ name, contents f' fs' name =
      contents f fs name ++
      (if decide (name = filename_ f) then concat ((λ k, take k buf) <$> ks) else [])) ∧
    (env = [] -> ks = [length buf]).
Proof.
  unfold AppendFile_append. intros E.
  destruct (match env with [] => _ | _ => _ end) as [[a sp] env'] eqn:Eenv.
  destruct (fwrite _ _ _ _ _ _) as [[x f1] fs1] eqn:E1.
  destruct (append_loop _ _ _ _ _) as [[n f2] fs2] eqn:E2. injection E as <- <-.
  pose proof (λ name, fwrite_contents _ _ _ _ _ _ _ _ _ name E1) as H1.
  destruct (H1 []) as (_ & HF1 & HW1 & Hx). pose proof E2 as E2'.
  apply append_loop_contents in E2 as (ks & Hn & Hle & HF2 & HW2 & H2); [|lia].
  destruct env as [|[a0 s0] env0].
  - injection Eenv as <- <- <-. exists [length buf]. simpl in *.
    assert (x = length buf) as -> by lia. rewrite Nat.ltb_irrefl in E2'. injection E2' as <- <- <-.
    repeat split; [lia|done|f_equal; rewrite HW1; lia|].
    intros name. rewrite app_nil_r. apply H1.
  - exists (x :: ks). simpl. repeat split; [lia|congruence|f_equal; rewrite HW2, HW1; lia| |done].
    intros name. change (contents (mkAppendFile _ _ _) fs2 name) with (contents f2 fs2 name).
    rewrite H2, HF1, (proj1 (H1 name)). case_decide; by rewrite <- ?app_assoc, ?app_nil_r.
Qed.

(** [AppendFile::append] accounts for what it writes but does not always write
    the right thing: whatever the stream accepts call by call, the file grows by
    prefixes of the buffer - the retries start from the beginning again - while
    other files are untouched and [writtenBytes_] grows by the bytes written; when
    no write is short the buffer is appended exactly. *)
Theorem AppendFile_append_prefixes env buf f fs f' fs' :
  AppendFile_append env buf f fs = (f', fs') ->
  0 <= writtenBytes_ f -> writtenBytes_ f + zlen buf < 2 ^ 64 ->
  ∃ ks, (sum_list ks <= length buf)%nat ∧
    writtenBytes_ f' = writtenBytes_ f + Z.of_nat (sum_list ks) ∧
    contents f' fs' (filename_ f) = contents f fs (filename_ f) ++ concat ((λ k, take k buf) <$> ks) ∧
    (∀ name, name ≠ filename_ f -> contents f' fs' name = contents f fs name) ∧
    (env = [] -> contents f' fs' (filename_ f) = contents f fs (filename_ f) ++ buf).
Proof.
  intros E H0 Hlen. destruct (AppendFile_append_contents _ _ _ _ _ _ E) as (ks & Hle & _ & HW & HC & Hnil).
  exists ks. rewrite HW, u64_small, !HC, !decide_True by (done || lia). repeat split; try done.
  - intros name Hne. rewrite HC, decide_False by done. by rewrite app_nil_r.
  - intros ->. rewrite (Hnil eq_refl). simpl. by rewrite app_nil_r, take_ge.
Qed.

Definition sample_file : AppendFile := mkAppendFile (bytes "x.log") [] 0.

Lemma AppendFile_append_prefixes_witness :
  let '(f', fs') := AppendFile_append [(2%nat, 0%nat)] (bytes "abcde") sample_file ∅ in
  writtenBytes_ f' = 5 ∧ contents f' fs' (bytes "x.log") = bytes "ababc" ∧
  contents f' fs' (bytes "y.log") = [].
Proof.
  assert (let '(f', fs') := AppendFile_append [(2%nat, 0%nat)] (bytes "abcde") sample_file ∅ in
          writtenBytes_ f' = 5 ∧ contents f' fs' (bytes "x.log") = bytes "ababc") as H
    by (vm_compute; done).
  destruct (AppendFile_append [(2%nat, 0%nat)] (bytes "abcde") sample_file ∅) as [f' fs'] eqn:E.
  destruct (AppendFile_append_prefixes _ _ _ _ _ _ E) as (ks & _ & _ & _ & Hother & _);
    [vm_compute; discriminate|reflexivity|].
  split; [exact (proj1 H)|]. split; [exact (proj2 H)|]. rewrite Hother by (vm_compute; done). reflexivity.
Defined.

Lemma rollFile_spec e w :
  opens e = true ->
  ∃ f' w', rollFile e w = Ok (tt, w') ∧ (∀ name, bytes_of w' name = bytes_of w name) ∧
    file_ (lw_file w') = Some f' ∧ filename_ f' = getLogfileName (basename_ (lw_file w)) (t_roll e) ∧
    file_pending f' = [] ∧ startOfPeriod_ (lw_file w') = period_of (t_roll e).
Proof.
  intros Ho. unfold rollFile, new_AppendFile. rewrite Ho. eexists _, _. split; [reflexivity|].
  split; [|done]. intros name. unfold bytes_of. simpl. unfold contents, AppendFile_dtor, fflush, write_out.
  destruct (file_ (lw_file w)) as [old|]; simpl; rewrite ?disk_insert; repeat case_decide; subst;
    rewrite ?app_nil_r, ?firstn_all; congruence.
Qed.

Lemma with_fflush_spec w f :
  file_ (lw_file w) = Some f ->
  ∃ f' w', with_file fflush w = Ok (tt, w') ∧ (∀ name, bytes_of w' name = bytes_of w name) ∧
    file_ (lw_file w') = Some f' ∧ file_pending f' = [] ∧ filename_ f' = filename_ f ∧
    writtenBytes_ f' = writtenBytes_ f.
Proof.
  intros Hf. unfold with_file. rewrite Hf. destruct (fflush f (lw_fs w)) as [f2 fs2] eqn:E.
  pose proof (λ name, write_out_contents _ _ _ _ _ name E) as H.
  eexists f2, _. split; [reflexivity|]. unfold bytes_of. simpl. rewrite Hf.
  split; [intros name; apply H|]. unfold fflush, write_out in E. injection E as <- <-.
  repeat split; try done. simpl. apply drop_all.
Qed.

(** Appending to a log file loses nothing and rolls when it should: while writes
    are not short, [LogFile::append] adds the bytes to the file that was open and
    leaves every other file alone; it opens the file named after the current time
    exactly when the size is exceeded, or - every [checkEveryN_] calls - when the day
    has changed, and otherwise keeps the file, flushing it every [flushInterval_]
    seconds. *)
Theorem LogFile_append e buf w f :
  file_ (lw_file w) = Some f -> writes e = [] -> opens e = true ->
  0 <= writtenBytes_ f -> writtenBytes_ f + zlen buf < 2 ^ 64 ->
  let lf := lw_file w in
  let big := rollSize_ lf <? writtenBytes_ f + zlen buf in
  let check := u64 (checkEveryN_ lf) <=? u64 (count_ lf + 1) in
  let newday := negb (period_of (t_check e) =? startOfPeriod_ lf) in
  ∃ f' w', append e buf w = Ok (tt, w') ∧ file_ (lw_file w') = Some f' ∧
    (∀ name, bytes_of w' name = bytes_of w name ++ (if decide (name = filename_ f) then buf else [])) ∧
    if big || check && newday then
      filename_ f' = getLogfileName (basename_ lf) (t_roll e) ∧
      startOfPeriod_ (lw_file w') = period_of (t_roll e)
    else
      filename_ f' = filename_ f ∧ writtenBytes_ f' = writtenBytes_ f + zlen buf ∧
      (check = true -> flushInterval_ lf < t_check e - lastFlush_ lf -> file_pending f' = []).
Proof.
  intros Hf Hw Ho H0 Hlen lf big check newday.
  assert (append e buf w = append_unlocked e buf w) as ->
    by (unfold append; rewrite (bind_Ok _ _ w w w) by done; by destruct (mutex_ _)).
  unfold append_unlocked.
  destruct (AppendFile_append (writes e) buf f (lw_fs w)) as [f1 fs1] eqn:E1.
  set (w1 := mkLogWorld (set_file (Some f1) lf) fs1).
  assert (with_file (AppendFile_append (writes e) buf) w = Ok (tt, w1)) as Ea
    by (unfold with_file; by rewrite Hf, E1).
  destruct (AppendFile_append_contents _ _ _ _ _ _ E1) as (ks & _ & HF & HW & HC & Hks).
  rewrite (Hks Hw) in HW, HC. simpl in HW, HC. rewrite Nat.add_0_r, u64_small in HW by lia.
  assert (∀ name, bytes_of w1 name = bytes_of w name ++ (if decide (name = filename_ f) then buf else [])) as HB.
  { intros name. unfold bytes_of. simpl. rewrite Hf, HC. by rewrite firstn_all, app_nil_r. }
  rewrite (bind_Ok _ _ _ _ _ Ea), (bind_Ok _ _ w1 w1 w1) by done.
  change (written w1) with (writtenBytes_ f1). change (rollSize_ (lw_file w1)) with (rollSize_ lf).
  rewrite HW. fold big. destruct big; cbn [orb].
  { destruct (rollFile_spec e w1 Ho) as (f' & w' & E & HB' & ? & ? & _ & ?).
    exists f', w'. repeat split; try done. intros name. by rewrite HB', HB. }
  set (w2 := mkLogWorld (set_count (u64 (count_ lf + 1)) (set_file (Some f1) lf)) fs1).
  rewrite (bind_Ok _ _ w1 tt w2), (bind_Ok _ _ w2 w2 w2) by done. unfold when.
  change (u64 (checkEveryN_ (lw_file w2)) <=? count_ (lw_file w2)) with check.
  destruct check; cbn [andb]; [|by exists f1, w2].
  set (w3 := mkLogWorld (set_count 0 (lw_file w2)) fs1). rewrite (bind_Ok _ _ w2 tt w3) by done.
  change (negb (period_of (t_check e) =? startOfPeriod_ (lw_file w2))) with newday. destruct newday.
  { destruct (rollFile_spec e w3 Ho) as (f' & w' & E & HB' & ? & ? & _ & ?).
    exists f', w'. repeat split; try done. intros name. rewrite HB'. apply HB. }
  change (flushInterval_ (lw_file w2)) with (flushInterval_ lf).
  change (lastFlush_ (lw_file w2)) with (lastFlush_ lf).
  destruct (Z.ltb_spec (flushInterval_ lf) (t_check e - lastFlush_ lf)) as [Hfl|Hfl].
  - destruct (with_fflush_spec w3 f1 eq_refl) as (f2 & w4 & E & HB4 & HF4 & Hp & HF2 & HW2).
    exists f2, (mkLogWorld (set_lastFlush (t_check e) (lw_file w4)) (lw_fs w4)).
    rewrite (bind_Ok _ _ _ _ _ E). repeat split; [done| |congruence|lia|done].
    intros name. rewrite <- HB. apply (HB4 name).
  - exists f1, w3. repeat split; try done. lia.
Qed.

Definition sample_Env (t : Z) : Env := mkEnv t t true [].

Definition sample_world : LogWorld :=
  mkLogWorld (mkLogFile (bytes "app") 8 3 1 0 true (Some sample_file) 0 0) ∅.

Lemma LogFile_append_witness :
  ∃ f' w', append (sample_Env 1709208000) (bytes "0123456789") sample_world = Ok (tt, w') ∧
    filename_ f' = bytes "app.20240229-120000.log" ∧
    bytes_of w' (bytes "x.log") = bytes "0123456789".
Proof.
  destruct (LogFile_append (sample_Env 1709208000) (bytes "0123456789") sample_world sample_file)
    as (f' & w' & E & _ & HB & HF & _); [reflexivity|reflexivity|reflexivity|vm_compute; discriminate|reflexivity|].
  exists f', w'. split; [exact E|]. split; [exact HF|]. rewrite HB. reflexivity.
Defined.
