(* ===== verification/Slice.v ===== *)
(** String slices: [PracticeMuduo/common/Slice.h].  A slice is the bytes it
    covers; [memcmp] compares them as unsigned characters. *)
From S2P Require Import Prelude.

Definition Slice : Type := list byte.

Definition size (s : Slice) : Z := zlen s.
Definition empty (s : Slice) : bool := size s =? 0.
Definition clear (s : Slice) : Slice := [].
Definition ToString (s : Slice) : list byte := s.

(** [operator\[\]] *)
Definition at_ (s : Slice) (i : Z) : res byte :=
  if i <? size s then
    match s !! Z.to_nat i with Some c => Ok c | None => Fault UB end
  else Fault AssertFail.

(** [memcmp(a, b, n)]: the difference of the first bytes that differ. *)
Fixpoint memcmp (a b : list byte) (n : nat) : Z :=
  match n, a, b with
  | S n', x :: a', y :: b' => if decide (x = y) then memcmp a' b' n' else Z_of_byte x - Z_of_byte y
  | _, _, _ => 0
  end.

Definition compare (s b : Slice) : Z :=
  let sz := if size s <? size b then size s else size b in
  let ret := memcmp s b (Z.to_nat sz) in
  if (ret <? 0) || ((ret =? 0) && (size s <? size b)) then -1
  else if (0 <? ret) || ((ret =? 0) && (size b <? size s)) then 1
  else 0.

Definition starts_with (s b : Slice) : bool :=
  (size b <=? size s) && (memcmp s b (Z.to_nat (size b)) =? 0).

Definition op_eq (s1 s2 : Slice) : bool := if compare s1 s2 =? 0 then true else false.
Definition op_ne (s1 s2 : Slice) : bool := negb (op_eq s1 s2).

(** * The order it should be *)

(** Lexicographic order on unsigned bytes. *)
Fixpoint lex (a b : list byte) : comparison :=
  match a, b with
  | [], [] => Eq
  | [], _ => Lt
  | _, [] => Gt
  | x :: a', y :: b' => if decide (x = y) then lex a' b' else (Z_of_byte x ?= Z_of_byte y)
  end.

Definition sign_of (c : comparison) : Z := match c with Lt => -1 | Eq => 0 | Gt => 1 end.

Lemma Z_of_byte_inj x y : Z_of_byte x = Z_of_byte y -> x = y.
Proof. intros H. rewrite <- (byte_of_Z_of_byte x), <- (byte_of_Z_of_byte y). by rewrite H. Qed.

Lemma compare_cons x a b : compare (x :: a) (x :: b) = compare a b.
Proof.
  unfold compare, size. cbn [length].
  assert ((Z.of_nat (S (length a)) <? Z.of_nat (S (length b))) = (zlen a <? zlen b)) as ->
    by (apply eq_true_iff_eq; rewrite !Z.ltb_lt; lia).
  assert ((Z.of_nat (S (length b)) <? Z.of_nat (S (length a))) = (zlen b <? zlen a)) as ->
    by (apply eq_true_iff_eq; rewrite !Z.ltb_lt; lia).
  assert (memcmp (x :: a) (x :: b)
            (Z.to_nat (if zlen a <? zlen b then Z.of_nat (S (length a)) else Z.of_nat (S (length b))))
          = memcmp a b (Z.to_nat (if zlen a <? zlen b then zlen a else zlen b))) as ->; [|done].
  destruct (zlen a <? zlen b); rewrite !Nat2Z.id; cbn [memcmp]; by rewrite decide_True.
Qed.

Lemma compare_lex a b : compare a b = sign_of (lex a b).
Proof.
  revert b; induction a as [|x a IH]; intros [|y b]; cbn [lex]; try done.
  destruct (decide (x = y)) as [->|Hne]; [by rewrite compare_cons|].
  assert (Z_of_byte x ≠ Z_of_byte y) as HZ by (intros H; apply Hne, Z_of_byte_inj, H).
  unfold compare, size.
  destruct (Z.to_nat _) as [|n] eqn:En; [exfalso; revert En; cbn [length]; case_match; lia|].
  cbn [memcmp]. rewrite decide_False by done.
  destruct (Z.compare_spec (Z_of_byte x) (Z_of_byte y)); cbn [sign_of]; [done|..].
  - rewrite (proj2 (Z.ltb_lt _ 0)) by lia. done.
  - rewrite (proj2 (Z.ltb_ge _ 0)), (proj2 (Z.eqb_neq _ 0)), (proj2 (Z.ltb_lt 0 _)) by lia. done.
Qed.

Lemma lex_refl a : lex a a = Eq.
Proof. induction a as [|x a IH]; [done|]. cbn [lex]. by rewrite decide_True. Qed.

Lemma lex_eq a b : lex a b = Eq -> a = b.
Proof.
  revert b; induction a as [|x a IH]; intros [|y b]; cbn [lex]; try done.
  destruct (decide (x = y)) as [->|Hne]; [by intros ->%IH|].
  rewrite Z.compare_eq_iff. by intros ->%Z_of_byte_inj.
Qed.

Lemma lex_anti a b : lex b a = CompOpp (lex a b).
Proof.
  revert b; induction a as [|x a IH]; intros [|y b]; cbn [lex]; try done.
  destruct (decide (x = y)) as [->|Hne]; [rewrite decide_True by done; apply IH|].
  rewrite decide_False by done. apply Z.compare_antisym.
Qed.

Lemma lex_trans a b c : lex a b = Lt -> lex b c = Lt -> lex a c = Lt.
Proof.
  revert b c; induction a as [|x a IH]; intros [|y b] [|z c]; cbn [lex]; try done.
  destruct (decide (x = y)) as [->|Hxy], (decide (y = z)) as [->|Hyz]; try done.
  - apply IH.
  - rewrite (decide_False (P := x = z)) by done. done.
  - rewrite !Z.compare_lt_iff. intros H1 H2. rewrite decide_False; [rewrite Z.compare_lt_iff; lia|].
    intros ->. lia.
Qed.

Lemma memcmp_prefix s b : (length b <= length s)%nat -> memcmp s b (length b) = 0 <-> b `prefix_of` s.
Proof.
  revert s; induction b as [|y b IH]; intros [|x s] Hl; cbn [memcmp length] in *; try lia.
  - split; [intros _; apply prefix_nil|done].
  - split; [intros _; apply prefix_nil|done].
  - destruct (decide (x = y)) as [->|Hne].
    + rewrite IH by lia. split; [apply prefix_cons|apply prefix_cons_inv_2].
    + split.
      * intros H. exfalso. apply Hne, Z_of_byte_inj. lia.
      * intros H. by apply prefix_cons_inv_1 in H.
Qed.

(** [Slice::compare] is a total order on byte strings, with [operator==] the
    equality of contents: the result is -1, 0 or 1, it is 0 exactly for equal
    slices, swapping the arguments changes the sign, and "less" is transitive.
    [starts_with] holds exactly for prefixes. *)
Theorem Slice_compare_order a b c :
  compare a b ∈ [-1; 0; 1] ∧ (op_eq a b = true <-> a = b) ∧ compare b a = - compare a b ∧
  (compare a b = -1 -> compare b c = -1 -> compare a c = -1) ∧
  (starts_with a b = true <-> b `prefix_of` a).
Proof.
  unfold op_eq. rewrite !compare_lex, (lex_anti a b). repeat split.
  - destruct (lex a b); set_solver.
  - destruct (lex a b) eqn:E; [intros _; by apply lex_eq|done..].
  - intros ->. by rewrite lex_refl.
  - by destruct (lex a b).
  - destruct (lex a b) eqn:E1, (lex b c) eqn:E2; try done. by rewrite (lex_trans a b c).
  - unfold starts_with, size. intros [H1 H2]%andb_true_iff. rewrite Nat2Z.id in H2.
    apply memcmp_prefix; lia.
  - unfold starts_with, size. intros H. pose proof (prefix_length _ _ H).
    rewrite Nat2Z.id, (proj2 (Z.leb_le _ _)) by lia. cbn [andb]. apply Z.eqb_eq.
    apply memcmp_prefix; [lia|done].
Qed.
