(* ===== verification/Thread.v ===== *)
(** Threads and their synchronisation: [PracticeMuduo/port/port_posix.cpp],
    [PracticeMuduo/thread.muduo/Thread.cpp], [CurrentThread.cpp] and
    [thread_util.cpp].  The results of the pthread calls are arguments. *)
From S2P Require Import Prelude.

(** * port::Mutex and port::CondVar *)

(** Any error of a pthread call ends the process. *)
Definition PthreadCall {S} (result : Z) : M S unit :=
  if negb (result =? 0) then fail FatalLog else mret tt.

(** A mutex: who holds it.  [pthread_mutex_lock] blocks while another thread does, so a
    step that takes a held mutex is not enabled. *)
Record Mutex := mkMutex { holder : option Z }.

Definition new_Mutex (init_result : Z) : M (option Mutex) unit :=
  PthreadCall init_result ;; put (Some (mkMutex None)).
Definition destroy_Mutex (result : Z) : M (option Mutex) unit := PthreadCall result ;; put None.
Definition Lock (tid result : Z) : M Mutex unit := PthreadCall result ;; put (mkMutex (Some tid)).
Definition Unlock (result : Z) : M Mutex unit := PthreadCall result ;; put (mkMutex None).
Definition AssertHeld : M Mutex unit := mret tt.

(** [MutexLock lock(mu); body]: the destructor unlocks. *)
Definition with_MutexLock {S} (lock unlock : Z) (body : M S unit) : M S unit :=
  PthreadCall lock ;; body ;; PthreadCall unlock.

Definition ETIMEDOUT : Z := 110.
Definition kNanoSecondsPerSecond : Z := 10 ^ 9.

Record timespec := mkTimespec { tv_sec : Z; tv_nsec : Z }.

(** The absolute time [waitForSeconds] computes from the clock. *)
Definition abstime (now : timespec) (secs : Z) : timespec :=
  let nanoseconds := s64 (secs * kNanoSecondsPerSecond) in
  mkTimespec (tv_sec now + Z.quot (tv_nsec now + nanoseconds) kNanoSecondsPerSecond)
             (Z.rem (tv_nsec now + nanoseconds) kNanoSecondsPerSecond).

Definition Wait {S} (result : Z) : M S unit := PthreadCall result.
Definition waitForSeconds {S} (timedwait : timespec -> Z) (now : timespec) (secs : Z) : M S unit :=
  PthreadCall (timedwait (abstime now secs)).
Definition Signal {S} (result : Z) : M S unit := PthreadCall result.
Definition SignalAll {S} (result : Z) : M S unit := PthreadCall result.

(** * CurrentThread *)

(** [t_cachedPid], one per thread; [gettid] asks the kernel. *)
Definition cacheTid (gettid : Z) : M Z unit := put gettid.
Definition tid (gettid : Z) : M Z Z :=
  c ← get; when (c =? 0) (cacheTid gettid) ;; get.

(** [gettid2]: the bytes of [pthread_self()] copied into a zeroed [uint64_t]. *)
Definition gettid2 (self : Z) (sizeof_pthread : Z) : Z :=
  self mod 2 ^ (8 * Z.min 8 sizeof_pthread).

(** * Thread *)

Record Thread := mkThread {
  pthreadId_ : option Z;
  tid_ : option Z;
  started_ : bool;
  joined_ : bool;
  detached : bool }.

Definition new_Thread : Thread := mkThread None None false false false.

(** [start()], given what [pthread_create] returns: an error and the new id. *)
Definition start (create : Z * Z) : M Thread unit :=
  t ← get;
  assert (Bool.eqb (started_ t) false) ;;
  if negb (fst create =? 0) then fail FatalLog
  else put (mkThread (Some (snd create)) (tid_ t) true (joined_ t) (detached t)).

Definition join (result : Z) : M Thread Z :=
  t ← get;
  assert (started_ t) ;;
  assert (negb (joined_ t)) ;;
  put (mkThread (pthreadId_ t) (tid_ t) (started_ t) true (detached t)) ;;
  mret result.

Definition Thread_dtor : M Thread unit :=
  t ← get;
  when (started_ t && negb (joined_ t))
    (put (mkThread (pthreadId_ t) (tid_ t) (started_ t) (joined_ t) true)).

(** How the thread's function ends. *)
Inductive outcome := Returns | ThrowsStd | ThrowsOther.

(** [ThreadData::runInThread]: publish the id, run the function; a [std::exception]
    aborts, anything else is rethrown out of the thread. *)
Definition runInThread (gettid : Z) (func : outcome) : M Thread unit :=
  modify (λ t, mkThread (pthreadId_ t) (Some gettid) (started_ t) (joined_ t) (detached t)) ;;
  match func with
  | Returns => mret tt
  | ThrowsStd => fail FatalLog
  | ThrowsOther => fail Throw
  end.

(** * Properties *)

Definition nanos (t : timespec) : Z := tv_sec t * kNanoSecondsPerSecond + tv_nsec t.

(** The deadline of [waitForSeconds] is exactly the given number of seconds after
    the clock's reading and is normalised, but reaching it is fatal: a timed wait
    whose deadline passes reports [ETIMEDOUT], which [PthreadCall] turns into an
    abort, while a wait that is signalled returns. *)
Theorem waitForSeconds_deadline (now : timespec) (secs : Z) (s : unit) :
  0 <= tv_nsec now < kNanoSecondsPerSecond -> 0 <= secs < 2 ^ 31 ->
  nanos (abstime now secs) = nanos now + secs * kNanoSecondsPerSecond ∧
  0 <= tv_nsec (abstime now secs) < kNanoSecondsPerSecond ∧
  waitForSeconds (λ _, 0) now secs s = Ok (tt, s) ∧
  waitForSeconds (λ _, ETIMEDOUT) now secs s = Fault FatalLog.
Proof.
  unfold nanos, abstime, kNanoSecondsPerSecond. intros Hn Hs. cbn [tv_sec tv_nsec].
  change (10 ^ 9) with 1000000000 in *. unfold s64. rewrite swrap_small by lia.
  rewrite Z.quot_div_nonneg, Z.rem_mod_nonneg by lia. repeat split; zlia.
Qed.

Lemma waitForSeconds_deadline_witness :
  abstime (mkTimespec 100 999999999) 3 = mkTimespec 103 999999999 ∧
  waitForSeconds (λ _, ETIMEDOUT) (mkTimespec 100 999999999) 3 tt = Fault FatalLog.
Proof.
  split; [reflexivity|].
  apply (waitForSeconds_deadline (mkTimespec 100 999999999) 3 tt); vm_compute; split; congruence.
Defined.
