(* ===== verification/AsyncLogging.v ===== *)
(** The asynchronous logger: [PracticeMuduo/logging.muduo/AsyncLogging.cpp].  The
    front end's [append] and the logging thread run as interleaved steps; a critical
    section of the mutex is one step.  The calls [output.append] of the logging thread
    are recorded in order.  A buffer that is moved from is [None]. *)
From Stdlib Require Import Strings.String.
From S2P Require Import Prelude FixedBuffer LogStream LogProps Thread.
Open Scope list_scope.

(** Where [threadFunc] is. *)
Inductive Pc :=
| NotStarted   (* [start] has not been called *)
| Entry        (* before [assert(running_ = true)] *)
| Loop         (* at the loop's condition *)
| Wait         (* about to take the mutex *)
| Write        (* holding [buffersToWrite] *)
| Done.

#[export] Instance Pc_eq_dec : EqDecision Pc.
Proof. solve_decision. Defined.

Record AsyncLogging := mkAsync {
  thread_ : Thread;
  running_ : bool;
  currentBuffer_ : option FixedBuffer;
  nextBuffer_ : option FixedBuffer;
  buffers_ : list FixedBuffer;
  pc : Pc;
  newBuffer1 : option FixedBuffer;
  newBuffer2 : option FixedBuffer;
  buffersToWrite : list FixedBuffer;
  output : list (list byte);
  output_flushes : nat }.

Section logger.
(** The template argument of the buffers, [kLargeBuffer] in the source, and the
    indeterminate contents of a fresh buffer. *)
Context (kSize : Z) (fresh : list byte).

Definition new_buffer : FixedBuffer := new_FixedBuffer fresh.

Definition zeroed (b : FixedBuffer) : FixedBuffer :=
  mkFixedBuffer (replicate (length (data_ b)) x00) (cur_ b).

(** The constructor. *)
Definition new_AsyncLogging : AsyncLogging :=
  mkAsync new_Thread false (Some (zeroed new_buffer)) (Some (zeroed new_buffer)) [] NotStarted None None [] [] 0.

(** [running_ = true; thread_.start();] with the result of [pthread_create]. *)
Definition start (create : Z * Z) : M AsyncLogging unit := λ s,
  match Thread.start create (thread_ s) with
  | Fault f => Fault f
  | Ok (_, th) =>
      Ok (tt, mkAsync th true (currentBuffer_ s) (nextBuffer_ s) (buffers_ s) Entry
                (newBuffer1 s) (newBuffer2 s) (buffersToWrite s) (output s) (output_flushes s))
  end.

(** [running_ = false; cond_.Signal(); thread_.join();]; the join returns once the
    thread is [Done]. *)
Definition stop : M AsyncLogging unit := λ s,
  match join 0 (thread_ s) with
  | Fault f => Fault f
  | Ok (_, th) =>
      Ok (tt, mkAsync th false (currentBuffer_ s) (nextBuffer_ s) (buffers_ s) (pc s)
                (newBuffer1 s) (newBuffer2 s) (buffersToWrite s) (output s) (output_flushes s))
  end.

(** [~AsyncLogging()] *)
Definition AsyncLogging_dtor : M AsyncLogging unit := s ← get; when (running_ s) stop.

(** [append(msg, len)] *)
Definition append (msg : list byte) : M AsyncLogging unit := λ s,
  let set cur next bufs :=
    mkAsync (thread_ s) (running_ s) (Some cur) next bufs (pc s) (newBuffer1 s) (newBuffer2 s)
      (buffersToWrite s) (output s) (output_flushes s) in
  match currentBuffer_ s with
  | None => Fault UB
  | Some cur =>
      if zlen msg <? available cur then
        match FixedBuffer.append msg cur with
        | Ok (_, cur') => Ok (tt, set cur' (nextBuffer_ s) (buffers_ s))
        | Fault f => Fault f
        end
      else
        let '(cur1, next) :=
          match nextBuffer_ s with Some b => (b, None) | None => (new_buffer, None) end in
        match FixedBuffer.append msg cur1 with
        | Ok (_, cur') => Ok (tt, set cur' next (buffers_ s ++ [cur]))
        | Fault f => Fault f
        end
  end.

(** [assert(running_ = true)] - an assignment - and the two spare buffers. *)
Definition thread_entry (s : AsyncLogging) : AsyncLogging :=
  mkAsync (thread_ s) true (currentBuffer_ s) (nextBuffer_ s) (buffers_ s) Loop
    (Some (zeroed new_buffer)) (Some (zeroed new_buffer)) [] (output s) (output_flushes s).

Definition usable (b : option FixedBuffer) : bool :=
  match b with Some b => length_of b =? 0 | None => false end.

(** The loop's condition and the assertions after it; behind the loop, the last flush. *)
Definition thread_loop (s : AsyncLogging) : res AsyncLogging :=
  if running_ s then
    if usable (newBuffer1 s) && usable (newBuffer2 s) && bool_decide (buffersToWrite s = []) then
      Ok (mkAsync (thread_ s) (running_ s) (currentBuffer_ s) (nextBuffer_ s) (buffers_ s) Wait
            (newBuffer1 s) (newBuffer2 s) (buffersToWrite s) (output s) (output_flushes s))
    else Fault AssertFail
  else Ok (mkAsync (thread_ s) (running_ s) (currentBuffer_ s) (nextBuffer_ s) (buffers_ s) Done
             (newBuffer1 s) (newBuffer2 s) (buffersToWrite s) (output s) (S (output_flushes s))).

(** The critical section; [wait] is what [pthread_cond_timedwait] returns if there is
    nothing to write yet.  A moved-from [currentBuffer_] would be pushed as a null
    pointer. *)
Definition thread_swap (wait : Z) (s : AsyncLogging) : res AsyncLogging :=
  match (if bool_decide (buffers_ s = []) then PthreadCall wait s else Ok (tt, s)) with
  | Fault f => Fault f
  | Ok (_, s) =>
  match currentBuffer_ s with
  | None => Fault UB
  | Some cur =>
      let '(next, nb2) :=
        match nextBuffer_ s with Some b => (Some b, newBuffer2 s) | None => (newBuffer2 s, None) end in
      Ok (mkAsync (thread_ s) (running_ s) (newBuffer1 s) next (buffersToWrite s) Write None nb2
            (buffers_ s ++ [cur]) (output s) (output_flushes s))
  end
  end.

(** [newBuffer = std::move(buffersToWrite.back()); pop_back(); reset();] for a missing
    buffer. *)
Definition refill (b : option FixedBuffer) (bufs : list FixedBuffer) :
    res (option FixedBuffer * list FixedBuffer) :=
  match b with
  | Some _ => Ok (b, bufs)
  | None =>
      match last bufs with
      | None => Fault AssertFail
      | Some x => Ok (Some (mkFixedBuffer (data_ x) 0), removelast bufs)
      end
  end.

(** [if (buffersToWrite.size() > 25) erase(begin() + 2, end());] *)
Definition bound_backlog (bufs : list FixedBuffer) : list FixedBuffer :=
  if (25 <? length bufs)%nat then take 2 bufs else bufs.

(** The rest of the loop's body. *)
Definition thread_write (s : AsyncLogging) : res AsyncLogging :=
  match buffersToWrite s with
  | [] => Fault AssertFail
  | _ =>
      let bufs := bound_backlog (buffersToWrite s) in
      let out := output s ++ (ToString <$> bufs) in
      let bufs := if (2 <? length bufs)%nat then take 2 bufs else bufs in
      match refill (newBuffer1 s) bufs with
      | Fault f => Fault f
      | Ok (nb1, bufs) =>
          match refill (newBuffer2 s) bufs with
          | Fault f => Fault f
          | Ok (nb2, bufs) =>
              Ok (mkAsync (thread_ s) (running_ s) (currentBuffer_ s) (nextBuffer_ s) (buffers_ s) Loop nb1 nb2
                    [] out (S (output_flushes s)))
          end
      end
  end.

(** The next step of the logging thread, when it has one. *)
Definition thread_step (wait : Z) (s : AsyncLogging) : res AsyncLogging :=
  match pc s with
  | NotStarted | Done => Ok s
  | Entry => Ok (thread_entry s)
  | Loop => thread_loop s
  | Wait => thread_swap wait s
  | Write => thread_write s
  end.

Inductive Event := EStart (create : Z * Z) | EStop | EAppend (msg : list byte) | EThread (wait : Z).

Definition exec {A} (m : M AsyncLogging A) (s : AsyncLogging) : res AsyncLogging :=
  match m s with Ok (_, s') => Ok s' | Fault f => Fault f end.

Definition do_event (e : Event) (s : AsyncLogging) : res AsyncLogging :=
  match e with
  | EStart create => exec (start create) s
  | EStop => exec stop s
  | EAppend msg => exec (append msg) s
  | EThread wait => thread_step wait s
  end.

Fixpoint run (es : list Event) (s : AsyncLogging) : res AsyncLogging :=
  match es with
  | [] => Ok s
  | e :: es' => match do_event e s with Ok s' => run es' s' | Fault f => Fault f end
  end.

(** * The invariant *)

Definition buf_ok (b : FixedBuffer) : Prop := fb_wf b ∧ SIZE b = kSize.
Definition spare_ok (b : option FixedBuffer) : Prop := ∀ x, b = Some x -> buf_ok x ∧ cur_ x = 0.

Record Inv (s : AsyncLogging) : Prop := {
  inv_current : ∃ c, currentBuffer_ s = Some c ∧ buf_ok c;
  inv_next : spare_ok (nextBuffer_ s);
  inv_next_none : nextBuffer_ s = None -> buffers_ s ≠ [];
  inv_buffers : Forall buf_ok (buffers_ s);
  inv_nb1 : spare_ok (newBuffer1 s);
  inv_nb2 : spare_ok (newBuffer2 s);
  inv_write : Forall buf_ok (buffersToWrite s);
  inv_started : started_ (thread_ s) = false -> pc s = NotStarted;
  inv_pc : match pc s with
           | NotStarted | Entry => buffersToWrite s = []
           | Loop | Wait | Done => is_Some (newBuffer1 s) ∧ is_Some (newBuffer2 s) ∧ buffersToWrite s = []
           | Write =>
               newBuffer1 s = None ∧ buffersToWrite s ≠ [] ∧
               (newBuffer2 s = None -> 2 <= length (buffersToWrite s))%nat
           end }.

(** Everything accepted and not yet handed to the log file, in order. *)
Definition texts (bufs : list FixedBuffer) : list byte := concat (text <$> bufs).
Definition pending (s : AsyncLogging) : list byte :=
  texts (buffersToWrite s) ++ texts (buffers_ s)
  ++ match currentBuffer_ s with Some c => text c | None => [] end.

Definition delivered (s : AsyncLogging) : list byte := concat (output s) ++ pending s.

Context (Hfresh : zlen fresh = kSize) (HkSize : 0 < kSize < 2 ^ 31).

Lemma new_buffer_ok : buf_ok new_buffer ∧ buf_ok (zeroed new_buffer).
Proof.
  unfold buf_ok, fb_wf, SIZE. simpl. rewrite length_replicate. repeat split; lia.
Qed.

Lemma text_start b : cur_ b = 0 -> text b = [].
Proof. intros H. unfold text. by rewrite H. Qed.

Lemma texts_app l1 l2 : texts (l1 ++ l2) = texts l1 ++ texts l2.
Proof. unfold texts. by rewrite fmap_app, concat_app. Qed.

Lemma Inv_new : Inv new_AsyncLogging.
Proof.
  destruct new_buffer_ok as [_ H]. split; simpl; try done; eauto.
  - intros x [= <-]. done.
Qed.

Lemma append_buf_spec msg c :
  buf_ok c -> zlen msg < 2 ^ 31 ->
  match FixedBuffer.append msg c with
  | Ok (_, c') => buf_ok c' ∧ text c' = text c ++ take (Z.to_nat kSize) msg
  | Fault f => f = UB ∧ kSize < cur_ c + zlen (take (Z.to_nat kSize) msg)
  end.
Proof.
  intros [Hwf HS] Hlen. pose proof (proj1 (FixedBuffer_append_aux c msg Hwf Hlen)) as H.
  rewrite HS in H. unfold appended in H. destruct (FixedBuffer.append msg c) as [[[] c']|f].
  - destruct H as (_ & ? & ? & ?). unfold buf_ok. rewrite HS in *. done.
  - rewrite HS in H. done.
Qed.

Lemma async_append_spec msg s :
  Inv s -> zlen msg < 2 ^ 31 ->
  match append msg s with
  | Ok (_, s') =>
      Inv s' ∧ pc s' = pc s ∧ running_ s' = running_ s ∧ buffersToWrite s' = buffersToWrite s ∧
      delivered s' = delivered s ++ take (Z.to_nat kSize) msg ∧
      (zlen msg < kSize -> buffers_ s' = buffers_ s)
  | Fault f =>
      f = UB ∧ zlen msg < kSize ∧ ∃ c, currentBuffer_ s = Some c ∧ kSize < cur_ c + zlen msg
  end.
Proof.
  intros [(c & Hc & Hok) Hnext Hnn Hb H1 H2 Hw Hst Hpc] Hlen. unfold append. rewrite Hc.
  rewrite available_SIZE by apply Hok. rewrite (proj2 Hok).
  destruct (Z.ltb_spec (zlen msg) kSize) as [Hlt|Hge].
  - pose proof (append_buf_spec msg c Hok Hlen) as H. destruct (FixedBuffer.append msg c) as [[[] c']|f].
    + destruct H as [Hok' HT]. split; [split; simpl; eauto; try (intros Hf; specialize (Hst Hf); congruence)|]. split; [done|]. split; [done|]. split; [done|].
      split; [|done].
      unfold delivered, pending. simpl. by rewrite Hc, HT, !app_assoc.
    + destruct H as [-> H]. rewrite take_ge in H by lia. eauto.
  - set (c1 := match nextBuffer_ s with Some b => b | None => new_buffer end).
    assert (match nextBuffer_ s with Some b => (b, None) | None => (new_buffer, None) end = (c1, None)) as ->
      by (subst c1; by destruct (nextBuffer_ s)).
    assert (buf_ok c1 ∧ cur_ c1 = 0) as [Hok1 Hcur1].
    { subst c1. destruct (nextBuffer_ s) as [b|]; [by apply Hnext|]. split; [apply new_buffer_ok|done]. }
    pose proof (append_buf_spec msg c1 Hok1 Hlen) as H. destruct (FixedBuffer.append msg c1) as [[[] c']|f].
    + destruct H as [Hok' HT]. rewrite (text_start c1 Hcur1) in HT. simpl in HT.
      split; [split; simpl; eauto; try (intros Hf; specialize (Hst Hf); congruence)|].
      * intros x ?; discriminate.
      * intros _ ?%app_eq_nil. by destruct H.
      * apply Forall_app; auto.
      * split; [done|]. split; [done|]. split; [done|]. split; [|lia].
        unfold delivered, pending. simpl. rewrite Hc, HT, texts_app.
        unfold texts at 3. simpl. by rewrite app_nil_r, !app_assoc.
    + destruct H as [_ H]. rewrite length_take in H. lia.
Qed.

Lemma usable_spare b : spare_ok b -> is_Some b -> usable b = true.
Proof.
  intros H [x ->]. destruct (H x eq_refl) as [_ Hc]. unfold usable, length_of. by rewrite Hc.
Qed.

Lemma ToString_texts l : Forall buf_ok l -> concat (ToString <$> l) = texts l.
Proof.
  induction 1 as [|b l [Hwf _] _ IH]; [done|]. unfold texts in *. rewrite !fmap_cons. cbn [concat]. by rewrite IH, ToString_text.
Qed.

(** [refill] on buffers that are in order. *)
Lemma refill_spec b l :
  spare_ok b -> Forall buf_ok l -> (b = None -> l ≠ []) ->
  ∃ b' l', refill b l = Ok (b', l') ∧ spare_ok b' ∧ is_Some b' ∧ Forall buf_ok l' ∧
    (length l <= length l' + match b with None => 1 | Some _ => 0 end)%nat.
Proof.
  intros Hb Hl Hne. destruct b as [x|].
  - exists (Some x), l. repeat split; eauto; try apply Hb; try done. lia.
  - destruct (exists_last (Hne eq_refl)) as (l0 & x & ->).
    unfold refill. rewrite last_snoc, removelast_last.
    apply Forall_app in Hl as [Hl0 [Hx _]%Forall_cons].
    eexists _, l0. split; [reflexivity|]. split; [|split; [eauto|split; [done|rewrite length_app; simpl; lia]]].
    intros y [= <-]. simpl. split; [|done]. destruct Hx as [[Hx1 Hx2] Hx3].
    unfold buf_ok, fb_wf, SIZE in *. simpl. lia.
Qed.

Lemma bound_backlog_length l : (0 < length l)%nat ->
  (Nat.min 2 (length l) <= length (if (2 <? length (bound_backlog l))%nat then take 2 (bound_backlog l) else bound_backlog l))%nat.
Proof.
  unfold bound_backlog. intros H.
  destruct (Nat.ltb_spec 25 (length l)); rewrite ?length_take; [|destruct (Nat.ltb_spec 2 (length l))].
  - destruct (Nat.ltb_spec 2 (Nat.min 2 (length l))); rewrite ?length_take; lia.
  - rewrite length_take. lia.
  - lia.
Qed.

Lemma Forall_bound l : Forall buf_ok l -> Forall buf_ok (bound_backlog l).
Proof. unfold bound_backlog. destruct (25 <? length l)%nat; auto using Forall_take. Qed.

Lemma thread_write_spec s :
  Inv s -> pc s = Write ->
  ∃ s', thread_write s = Ok s' ∧ Inv s' ∧ running_ s' = running_ s ∧ pc s' = Loop ∧
    ((length (buffersToWrite s) <= 25)%nat -> delivered s' = delivered s).
Proof.
  intros [Hcur Hnext Hnn Hb H1 H2 Hw Hst Hpc] Epc. rewrite Epc in Hpc. destruct Hpc as (E1 & Hne & Hlen2).
  unfold thread_write. destruct (buffersToWrite s) as [|b0 rest] eqn:Ew; [done|]. rewrite <- Ew in *. clear b0 rest Ew.
  set (l := buffersToWrite s) in *. set (l1 := bound_backlog l). set (l2 := if (2 <? length l1)%nat then _ else _).
  assert (Forall buf_ok l2) as Hl2.
  { pose proof (Forall_bound _ Hw). subst l2 l1. case_match; auto using Forall_take. }
  assert (0 < length l)%nat as Hpos by (destruct l; [done|simpl; lia]).
  pose proof (bound_backlog_length l Hpos) as HL. fold l1 in HL. fold l2 in HL. clearbody l2.
  destruct (refill_spec (newBuffer1 s) l2 H1 Hl2) as (nb1 & l3 & -> & Hs1 & Hi1 & Hl3 & HL3).
  { intros _ E. rewrite E in HL. cbn [length] in HL. lia. }
  rewrite E1 in HL3.
  destruct (refill_spec (newBuffer2 s) l3 H2 Hl3) as (nb2 & l4 & -> & Hs2 & Hi2 & Hl4 & _).
  { intros E2 E. specialize (Hlen2 E2). rewrite E in HL3. cbn [length] in HL3. lia. }
  eexists. split; [reflexivity|]. split; [split; simpl; eauto; try (intros Hf; specialize (Hst Hf); congruence)|]. split; [done|]. split; [done|].
  intros H25. unfold delivered, pending. simpl. fold l.
  assert (l1 = l) as -> by (subst l1; unfold bound_backlog; by rewrite (proj2 (Nat.ltb_ge _ _))).
  rewrite concat_app, ToString_texts by done. by rewrite <- !app_assoc.
Qed.

Lemma thread_step_spec wait s :
  Inv s ->
  if bool_decide (pc s = Wait ∧ buffers_ s = [] ∧ wait ≠ 0) then thread_step wait s = Fault FatalLog
  else ∃ s', thread_step wait s = Ok s' ∧ Inv s' ∧
    ((length (buffersToWrite s) <= 25)%nat -> delivered s' = delivered s).
Proof.
  intros HI. case_bool_decide as Habort.
  { destruct Habort as (Epc & Eb & Hw). unfold thread_step, thread_swap, PthreadCall.
    rewrite Epc, bool_decide_eq_true_2, (proj2 (Z.eqb_neq wait 0)) by done. done. } pose proof HI as [(c & Hc & Hok) Hnext Hnn Hb H1 H2 Hw Hst Hpc].
  unfold thread_step. destruct (pc s) eqn:Epc.
  - by exists s.
  - eexists. split; [reflexivity|]. pose proof (proj2 new_buffer_ok).
    assert (spare_ok (Some (zeroed new_buffer))) by (intros x [= <-]; done).
    split; [split; simpl; eauto; try (intros Hf; specialize (Hst Hf); congruence)|]. intros _. unfold delivered, pending. simpl. by rewrite Hpc.
  - destruct Hpc as (Hi1 & Hi2 & Ew). unfold thread_loop. rewrite !usable_spare, bool_decide_eq_true_2 by done.
    cbn [andb]. destruct (running_ s); (eexists; split; [reflexivity|]; split; [split; simpl; eauto; try (intros Hf; specialize (Hst Hf); congruence)|done]).
  - destruct Hpc as (Hi1 & Hi2 & Ew). unfold thread_swap.
    assert ((if bool_decide (buffers_ s = []) then PthreadCall wait s else Ok (tt, s)) = Ok (tt, s)) as ->.
    { case_bool_decide; [|done]. unfold PthreadCall. destruct (Z.eqb_spec wait 0); [done|].
      exfalso. by apply Habort. }
    rewrite Hc.
    destruct Hi1 as [n1 E1]. destruct Hi2 as [n2 E2].
    assert (∀ next nb2, (nextBuffer_ s = Some next ∧ nb2 = newBuffer2 s ∨
                         nextBuffer_ s = None ∧ next = n2 ∧ nb2 = None) ->
      let s' := mkAsync (thread_ s) (running_ s) (newBuffer1 s) (Some next) (buffersToWrite s) Write None nb2
                  (buffers_ s ++ [c]) (output s) (output_flushes s) in
      Inv s' ∧ delivered s' = delivered s) as Hgo.
    { intros next nb2 Hcase. split; [split; simpl|].
      - rewrite E1. exists n1. split; [done|]. by apply H1.
      - intros x [= ->]. destruct Hcase as [[E _]|(_ & -> & _)]; [by apply Hnext|by apply H2].
      - done.
      - by rewrite Ew.
      - intros x ?; discriminate.
      - destruct Hcase as [[_ ->]|(_ & _ & ->)]; [done|intros x ?; discriminate].
      - apply Forall_app; auto.
      - intros Hf; specialize (Hst Hf); congruence.
      - split; [done|]. split; [by intros ?%app_eq_nil; destruct H|].
        intros ->. destruct Hcase as [[_ E]|(E & _ & _)]; [congruence|].
        specialize (Hnn E). rewrite length_app. destruct (buffers_ s); [done|simpl; lia].
      - unfold delivered, pending. simpl. rewrite Ew, E1, Hc, texts_app.
        destruct (H1 n1 E1) as [_ Hcur]. rewrite (text_start n1 Hcur). unfold texts at 2 3 4. simpl.
        by rewrite !app_nil_r, ?app_assoc. }
    destruct (nextBuffer_ s) as [next|]; (eexists; split; [reflexivity|]).
    + destruct (Hgo next (newBuffer2 s)) as [? ?]; auto.
    + rewrite E2. destruct (Hgo n2 None) as [? ?]; auto.
  - destruct (thread_write_spec s HI Epc) as (s' & E & HI' & _ & _ & HD). eauto.
  - by exists s.
Qed.

Lemma start_stop_spec m s s' :
  Inv s -> (∃ create, m = start create) ∨ m = stop -> exec m s = Ok s' ->
  Inv s' ∧ delivered s' = delivered s.
Proof.
  intros [Hcur Hnext Hnn Hb H1 H2 Hw Hst Hpc] [[create ->] | ->]; unfold exec.
  - unfold start, Thread.start. msimp. unfold assert. msimp.
    destruct (started_ (thread_ s)) eqn:Es; [done|]. simpl.
    destruct (negb (fst create =? 0)); [done|]. intros [= <-]. specialize (Hst eq_refl).
    rewrite Hst in Hpc. split; [split; simpl; eauto; done|done].
  - unfold stop, join. msimp. unfold assert. msimp.
    destruct (started_ (thread_ s)) eqn:Es; [|done]. destruct (joined_ (thread_ s)); [done|]. simpl.
    intros [= <-]. split; [split; simpl; eauto; done|done].
Qed.

(** The messages a sequence of events appends, each cut to the size of a buffer. *)
Definition accepted (es : list Event) : list byte :=
  concat ((λ e, match e with EAppend msg => take (Z.to_nat kSize) msg | _ => [] end) <$> es).

Definition int_sized (e : Event) : Prop :=
  match e with EAppend msg => zlen msg < 2 ^ 31 | _ => True end.

(** The backlog never exceeds the 25 buffers beyond which [threadFunc] drops some. *)
Fixpoint small_backlog (es : list Event) (s : AsyncLogging) : bool :=
  (length (buffersToWrite s) <=? 25)%nat &&
  match es with
  | [] => true
  | e :: es' => match do_event e s with Ok s' => small_backlog es' s' | Fault _ => true end
  end.

Lemma do_event_spec e s s' :
  Inv s -> int_sized e -> do_event e s = Ok s' ->
  Inv s' ∧ ((length (buffersToWrite s) <= 25)%nat -> delivered s' = delivered s ++ accepted [e]).
Proof.
  intros HI He E. unfold accepted. simpl. rewrite app_nil_r. destruct e as [create| |msg|wait]; simpl in E.
  - destruct (start_stop_spec (start create) s s' HI) as [? ->]; eauto. by rewrite app_nil_r.
  - destruct (start_stop_spec stop s s' HI) as [? ->]; eauto. by rewrite app_nil_r.
  - unfold exec in E. pose proof (async_append_spec msg s HI He) as H.
    destruct (append msg s) as [[[] s1]|f]; [|done]. injection E as <-.
    destruct H as (? & _ & _ & _ & HD & _). done.
  - pose proof (thread_step_spec wait s HI) as H. case_bool_decide; [congruence|].
    destruct H as (s1 & E1 & HI1 & HD). rewrite E in E1. injection E1 as <-. by rewrite app_nil_r.
Qed.

Lemma run_spec es s s' :
  Inv s -> Forall int_sized es -> run es s = Ok s' ->
  Inv s' ∧ (small_backlog es s = true -> delivered s' = delivered s ++ accepted es).
Proof.
  revert s; induction es as [|e es IH]; intros s HI Hes; cbn [run small_backlog].
  { intros [= <-]. split; [done|]. unfold accepted. simpl. by rewrite app_nil_r. }
  apply Forall_cons in Hes as [He Hes]. destruct (do_event e s) as [s1|f] eqn:E; [|done]. intros Hrun.
  destruct (do_event_spec e s s1 HI He E) as [HI1 HD1].
  destruct (IH s1 HI1 Hes Hrun) as [HI' HD']. split; [done|].
  intros [Hl%Nat.leb_le Hb]%andb_true_iff. rewrite HD', HD1 by done.
  unfold accepted. simpl. by rewrite app_nil_r, <- app_assoc.
Qed.

Lemma delivered_accepted es s :
  Forall int_sized es -> small_backlog es new_AsyncLogging = true ->
  run es new_AsyncLogging = Ok s ->
  concat (output s) ++ pending s = accepted es.
Proof.
  intros Hes Hb Hrun. destruct (run_spec es _ s Inv_new Hes Hrun) as [_ H].
  specialize (H Hb). unfold delivered in H. rewrite H. unfold pending, new_AsyncLogging, texts. simpl.
  by rewrite text_start.
Qed.

(** C14: nothing is lost or reordered: however front end and logging thread interleave,
    what was handed to the log file, followed by what the buffers still hold, is at
    every moment the concatenation of the appended messages - each cut to the size of
    a buffer - provided the backlog stays within the 25 buffers beyond which the
    thread drops data. *)
Theorem AsyncLogging_order es s :
  Forall int_sized es -> small_backlog es new_AsyncLogging = true ->
  run es new_AsyncLogging = Ok s ->
  concat (output s) ++ pending s = accepted es.
Proof. apply delivered_accepted. Qed.

(** What can go wrong, and only that: after any run, a step of the logging thread
    fails exactly when its timed wait for data does not return 0 - a timeout included -
    and [append] fails exactly when the message is shorter than a buffer but does not
    fit behind what the current buffer holds, since [available()] does not shrink; such
    a message therefore never makes [append] exchange the buffers. *)
Theorem AsyncLogging_faults es s wait msg :
  Forall int_sized es -> run es new_AsyncLogging = Ok s -> zlen msg < 2 ^ 31 ->
  (is_ok (thread_step wait s) = negb (bool_decide (pc s = Wait ∧ buffers_ s = [] ∧ wait ≠ 0))) ∧
  (∃ c, currentBuffer_ s = Some c ∧
     (append msg s = Fault UB <-> zlen msg < kSize ∧ kSize < cur_ c + zlen msg) ∧
     ∀ s', append msg s = Ok (tt, s') -> zlen msg < kSize -> buffers_ s' = buffers_ s).
Proof.
  intros Hes Hrun Hlen. destruct (run_spec es _ s Inv_new Hes Hrun) as [HI _]. split.
  - pose proof (thread_step_spec wait s HI) as H. case_bool_decide.
    + by rewrite H.
    + destruct H as (s' & -> & _). done.
  - pose proof HI as [(c & Hc & Hok) _ _ _ _ _ _ _ _]. exists c. split; [done|].
    pose proof (async_append_spec msg s HI Hlen) as H. destruct (append msg s) as [[[] s1]|f] eqn:E.
    + split; [|by intros s' [= <-]; apply H]. split; [done|]. intros [Hlt Hgt]. exfalso.
      revert E. unfold append. rewrite Hc, available_SIZE by apply Hok. rewrite (proj2 Hok).
      rewrite (proj2 (Z.ltb_lt _ _)) by done. pose proof (append_buf_spec msg c Hok Hlen) as H'.
      pose proof (proj1 (FixedBuffer_append_aux c msg (proj1 Hok) Hlen)) as H''.
      unfold appended in H''. rewrite (proj2 Hok), take_ge in H'' by lia.
      destruct (FixedBuffer.append msg c) as [[[] c']|f]; [|done]. lia.
    + destruct H as (-> & Hlt & c' & Hc' & Hgt). simplify_eq. split; [|done]. split; [done|]. done.
Qed.
End logger.

Definition sample_fresh : list byte := replicate 8 x00.

(** A short run of everything: two messages, one exchange, one delivery. *)
Definition sample_run : list Event :=
  [EStart (0, 7); EAppend (bytes "abc"); EThread 0; EThread 0; EThread 0;
   EAppend (bytes "de"); EThread 0].

Lemma AsyncLogging_order_witness :
  match run sample_fresh sample_run (new_AsyncLogging sample_fresh) with
  | Ok s => output s = [bytes "abc"] ∧ concat (output s) ++ pending s = bytes "abcde"
  | Fault _ => False
  end.
Proof.
  destruct (run sample_fresh sample_run (new_AsyncLogging sample_fresh)) as [s|f] eqn:E.
  - split; [vm_compute in E; injection E as <-; reflexivity|].
    refine (AsyncLogging_order 8 sample_fresh eq_refl _ sample_run s _ _ E); [lia| |reflexivity].
    repeat constructor; unfold int_sized; vm_compute; reflexivity.
  - vm_compute in E. discriminate E.
Defined.

(** The current buffer holds six of eight bytes: three more are fewer than
    [available()] reports and do not fit. *)
Definition full_run : list Event :=
  [EStart (0, 7); EThread 0; EThread 0; EAppend (bytes "abcdef")].

Lemma AsyncLogging_faults_witness :
  match run sample_fresh full_run (new_AsyncLogging sample_fresh) with
  | Ok s => append sample_fresh (bytes "ghi") s = Fault UB ∧ is_ok (thread_step sample_fresh ETIMEDOUT s) = false
  | Fault _ => False
  end.
Proof.
  destruct (run sample_fresh _ _) as [s|f] eqn:E; [|vm_compute in E; discriminate E].
  destruct (AsyncLogging_faults 8 sample_fresh eq_refl ltac:(lia) full_run s ETIMEDOUT (bytes "ghi")
              ltac:(repeat constructor; unfold int_sized; vm_compute; reflexivity) E ltac:(reflexivity))
    as (Hstep & c & Hc & Happ & _).
  vm_compute in E. injection E as <-. split.
  - apply Happ. injection Hc as <-. split; vm_compute; reflexivity.
  - rewrite Hstep. vm_compute. reflexivity.
Defined.

Definition thread_or_append (e : Event) : bool :=
  match e with EThread _ | EAppend _ => true | _ => false end.

Lemma append_keeps fresh msg s s' :
  exec (append fresh msg) s = Ok s' -> running_ s' = running_ s ∧ pc s' = pc s.
Proof. unfold exec, append. intros E. repeat case_match; simplify_eq; done. Qed.

Lemma thread_step_keeps fresh wait s s' :
  running_ s = true -> pc s ∈ [Loop; Wait; Write] -> thread_step fresh wait s = Ok s' ->
  running_ s' = true ∧ pc s' ∈ [Loop; Wait; Write].
Proof.
  intros Hr Hpc. unfold thread_step. destruct (pc s); try set_solver; intros E.
  - unfold thread_loop in E. rewrite Hr in E. case_match; simplify_eq. simpl. set_solver.
  - unfold thread_swap, PthreadCall in E. msimp.
    repeat case_match; simplify_eq; simpl; split; (done || set_solver).
  - unfold thread_write in E. repeat case_match; simplify_eq; simpl; split; (done || set_solver).
Qed.

Lemma keeps_running fresh es s s' :
  Forall (λ e, thread_or_append e = true) es -> running_ s = true -> pc s ∈ [Loop; Wait; Write] ->
  run fresh es s = Ok s' -> running_ s' = true ∧ pc s' ∈ [Loop; Wait; Write].
Proof.
  revert s; induction es as [|e es IH]; intros s Hes Hr Hpc; cbn [run]; [by intros [= <-]|].
  apply Forall_cons in Hes as [He Hes].
  destruct (do_event fresh e s) as [s1|f] eqn:E; [|done].
  destruct e as [create| |msg|wait]; try done; cbn [do_event] in E.
  - apply append_keeps in E as [E1 E2]. apply IH; [done|congruence|congruence].
  - destruct (thread_step_keeps fresh wait s s1 Hr Hpc E). by apply IH.
Qed.

(** [threadFunc] begins with [assert(running_ = true)], an assignment: when
    [stop] is called before the new thread has got that far, the thread sets
    [running_] again and never leaves its loop, so the [join] in [stop] does not
    return, whatever happens afterwards. *)
Theorem AsyncLogging_stop_race fresh create es s wait :
  Forall (λ e, thread_or_append e = true) es ->
  run fresh (EStart create :: EStop :: EThread wait :: es) (new_AsyncLogging fresh) = Ok s ->
  running_ s = true ∧ pc s ≠ Done.
Proof.
  intros Hes. cbn [run do_event]. destruct (exec (start create) _) as [s1|f] eqn:E1; [|done].
  destruct (exec stop s1) as [s2|f] eqn:E2; [|done].
  assert (pc s2 = Entry) as Epc.
  { unfold exec, start in E1. unfold exec, stop in E2. repeat case_match; by simplify_eq. }
  unfold thread_step. rewrite Epc. intros Hrun. apply keeps_running in Hrun; [|done|done|simpl; set_solver].
  destruct Hrun as [? Hpc]. split; [done|]. intros E. rewrite E in Hpc. set_solver.
Qed.

Lemma AsyncLogging_stop_race_witness :
  match run sample_fresh [EStart (0, 7); EStop; EThread 0; EThread 0; EThread 0; EThread 0]
          (new_AsyncLogging sample_fresh) with
  | Ok s => running_ s = true ∧ pc s ≠ Done
  | Fault _ => False
  end.
Proof.
  destruct (run sample_fresh _ _) as [s|f] eqn:E; [|vm_compute in E; discriminate E].
  apply (AsyncLogging_stop_race sample_fresh (0, 7) [EThread 0; EThread 0; EThread 0] s 0); [|exact E].
  repeat constructor.
Defined.
