(* ===== verification/AsyncFile.v ===== *)
(** The asynchronous logger and its log files together: the calls [output.append] that
    [AsyncLogging.v] records, made on the [LogFile] of [LogFile.v]. *)
From Stdlib Require Import Strings.String.
From S2P Require Import Prelude FixedBuffer LogStream LogFile Thread AsyncLogging.
Open Scope list_scope.

(** What reaches a file of a block: all of it, unless a write is short; after a short write
    [AppendFile::append] starts again with the first byte of the block. *)
Definition reaches (c : Env * list byte) (got : list byte) : Prop :=
  ∃ ks, (sum_list ks <= length c.2)%nat ∧ got = concat ((λ k, take k c.2) <$> ks) ∧ (writes c.1 = [] -> got = c.2).

(** [LogFile::append] as far as the files are concerned; [writtenBytes_] may wrap around. *)
Lemma append_contents e buf w f :
  file_ (lw_file w) = Some f -> opens e = true ->
  ∃ f' w' got, LogFile.append e buf w = Ok (tt, w') ∧ file_ (lw_file w') = Some f' ∧ reaches (e, buf) got ∧
    ∀ name, bytes_of w' name = bytes_of w name ++ (if decide (name = filename_ f) then got else []).
Proof.
  intros Hf Ho.
  assert (LogFile.append e buf w = append_unlocked e buf w) as ->
    by (unfold LogFile.append; rewrite (bind_Ok _ _ w w w) by done; by destruct (mutex_ _)).
  unfold append_unlocked. destruct (AppendFile_append (writes e) buf f (lw_fs w)) as [f1 fs1] eqn:E1.
  set (w1 := mkLogWorld (set_file (Some f1) (lw_file w)) fs1).
  assert (with_file (AppendFile_append (writes e) buf) w = Ok (tt, w1)) as Ea
    by (unfold with_file; by rewrite Hf, E1).
  destruct (AppendFile_append_contents _ _ _ _ _ _ E1) as (ks & Hsum & _ & _ & HC & Hks).
  set (got := concat ((λ k, take k buf) <$> ks)) in HC.
  assert (reaches (e, buf) got) as Hgot.
  { exists ks. split_and!; [done..|]. intros X. subst got. rewrite (Hks X). simpl. by rewrite firstn_all, app_nil_r. }
  assert (∀ name, bytes_of w1 name = bytes_of w name ++ (if decide (name = filename_ f) then got else [])) as HB
    by (intros name; unfold bytes_of; simpl; by rewrite Hf, HC).
  rewrite (bind_Ok _ _ _ _ _ Ea), (bind_Ok _ _ w1 w1 w1) by done.
  destruct (_ <? _).
  { destruct (rollFile_spec e w1 Ho) as (f' & w' & E & HB' & ? & _).
    exists f', w', got. split_and!; [done..|]. intros name. by rewrite HB', HB. }
  set (w2 := mkLogWorld (set_count (u64 (count_ (lw_file w) + 1)) (set_file (Some f1) (lw_file w))) fs1).
  rewrite (bind_Ok _ _ w1 tt w2), (bind_Ok _ _ w2 w2 w2) by done.
  destruct (_ <=? _); cbn [when]; [|by exists f1, w2, got].
  set (w3 := mkLogWorld (set_count 0 (lw_file w2)) fs1). rewrite (bind_Ok _ _ w2 tt w3) by done.
  destruct (negb _).
  { destruct (rollFile_spec e w3 Ho) as (f' & w' & E & HB' & ? & _).
    exists f', w', got. split_and!; [done..|]. intros name. rewrite HB'. apply HB. }
  destruct (_ <? _); cbn [when]; [|by exists f1, w3, got].
  destruct (with_fflush_spec w3 f1 eq_refl) as (f2 & w4 & E & HB4 & HF4 & _).
  exists f2, (mkLogWorld (set_lastFlush (t_check e) (lw_file w4)) (lw_fs w4)), got.
  rewrite (bind_Ok _ _ _ _ _ E). split_and!; [done..|]. intros name. rewrite <- HB. apply (HB4 name).
Qed.

(** The calls the logging thread makes on its [LogFile], with what the environment decides
    during each. *)
Inductive LogCall := LAppend (e : Env) (buf : list byte) | LFlush.

Definition log_call (c : LogCall) : M LogWorld unit :=
  match c with LAppend e buf => LogFile.append e buf | LFlush => flush end.

(** A file can be opened during the call. *)
Definition call_opens (c : LogCall) : Prop := match c with LAppend e _ => opens e = true | LFlush => True end.

Definition appends (calls : list LogCall) : list (Env * list byte) :=
  omap (λ c, match c with LAppend e buf => Some (e, buf) | LFlush => None end) calls.
Definition appended (calls : list LogCall) : list (list byte) := snd <$> appends calls.

(** No write is short. *)
Definition full_writes (calls : list LogCall) : Prop := Forall (λ c, writes c.1 = []) (appends calls).

(** What went to a file, in order. *)
Definition sent_to (name : list byte) (sent : list (list byte * list byte)) : list byte :=
  concat (snd <$> filter (λ x, x.1 = name) sent).

Lemma sent_to_cons name n buf sent :
  sent_to name ((n, buf) :: sent) = (if decide (name = n) then buf else []) ++ sent_to name sent.
Proof.
  unfold sent_to. rewrite filter_cons. simpl. destruct (decide (name = n)) as [->|Hne].
  - by rewrite decide_True.
  - by rewrite decide_False by congruence.
Qed.

Lemma flush_spec w f :
  file_ (lw_file w) = Some f ->
  ∃ f' w', flush w = Ok (tt, w') ∧ file_ (lw_file w') = Some f' ∧
    ∀ name, bytes_of w' name = bytes_of w name ∧ disk (lw_fs w') name = bytes_of w name.
Proof.
  intros Hf. destruct (with_fflush_spec w f Hf) as (f' & w' & E & HB & Hf' & Hp & _).
  exists f', w'. split; [unfold flush; rewrite (bind_Ok _ _ w w w) by done; by destruct (mutex_ _)|]. split; [done|].
  intros name. split; [done|]. rewrite <- HB. unfold bytes_of. rewrite Hf'. unfold contents. rewrite Hp.
  case_decide; by rewrite app_nil_r.
Qed.

Lemma log_calls_spec calls w f :
  file_ (lw_file w) = Some f -> Forall call_opens calls ->
  ∃ f' w' sent, mapM_ log_call calls w = Ok (tt, w') ∧ file_ (lw_file w') = Some f' ∧
    Forall2 (λ c x, reaches c x.2) (appends calls) sent ∧ ∀ name, bytes_of w' name = bytes_of w name ++ sent_to name sent.
Proof.
  intros Hf Hall. revert w f Hf. induction Hall as [|c calls Hd Hall IH]; intros w f Hf.
  { exists f, w, []. split_and!; [done..|]. intros name. by rewrite app_nil_r. }
  destruct c as [e buf|]; simpl in Hd.
  - destruct (append_contents e buf w f Hf Hd) as (f1 & w1 & got & E & Hf1 & Hgot & HB).
    destruct (IH w1 f1 Hf1) as (f2 & w2 & sent & E2 & Hf2 & Hs & HB2).
    exists f2, w2, ((filename_ f, got) :: sent). split_and!; [|done|by constructor|].
    + simpl. by rewrite (bind_Ok _ _ _ _ _ E).
    + intros name. by rewrite HB2, HB, sent_to_cons, <- app_assoc.
  - destruct (flush_spec w f Hf) as (f1 & w1 & E & Hf1 & HB).
    destruct (IH w1 f1 Hf1) as (f2 & w2 & sent & E2 & Hf2 & Hs & HB2).
    exists f2, w2, sent. split_and!; [|done..|].
    + simpl. by rewrite (bind_Ok _ _ _ _ _ E).
    + intros name. by rewrite HB2, (proj1 (HB name)).
Qed.

Lemma whole_blocks (calls : list LogCall) (sent : list (list byte * list byte)) :
  Forall2 (λ c x, reaches c x.2) (appends calls) sent -> full_writes calls -> snd <$> sent = appended calls.
Proof.
  unfold full_writes, appended. intros H. induction H as [|c x cs xs (ks & _ & _ & Hx) H IH]; [done|].
  intros [Hw Hws]%Forall_cons. rewrite !fmap_cons, IH by done. by rewrite Hx.
Qed.

(** The logging thread's [LogFile], just constructed. *)
Lemma new_LogFile_spec e basename rollsize safe fi cn ind fs :
  opens e = true ->
  ∃ f w, new_LogFile e basename rollsize safe fi cn ind fs = Ok (tt, w) ∧ file_ (lw_file w) = Some f ∧
    ∀ name, bytes_of w name = disk fs name.
Proof.
  intros Ho. unfold new_LogFile. set (w0 := mkLogWorld _ fs).
  destruct (rollFile_spec e w0 Ho) as (f & w & E & HB & Hf & _). exists f, w. split_and!; [done..|]. intros name. by rewrite HB.
Qed.

Section composed.
Context (kSize : Z) (fresh : list byte).
Context (Hfresh : zlen fresh = kSize) (HkSize : 0 < kSize < 2 ^ 31).

(** C15: What the program logs is what the files hold.  For every interleaving of front ends and
    logging thread, and however the log is rolled, provided that every log file opens: after the
    thread's flush each file has grown by the blocks that the thread wrote to it, in order, each
    of them whole unless one of its writes was short (then what got there are first parts
    of the block).  When no write is short, and the backlog stays within the 25 buffers beyond
    which the thread drops some, those blocks and what is still in memory are together the
    appended messages. *)
Theorem async_log_files es s e0 calls basename rollsize safe fi cn ind fs :
  run fresh es (new_AsyncLogging fresh) = Ok s ->
  opens e0 = true -> Forall call_opens calls -> appended calls = output s ->
  ∃ w0 w w' sent,
    new_LogFile e0 basename rollsize safe fi cn ind fs = Ok (tt, w0) ∧
    mapM_ log_call calls w0 = Ok (tt, w) ∧ flush w = Ok (tt, w') ∧
    (∀ name, disk (lw_fs w') name = disk fs name ++ sent_to name sent) ∧
    Forall2 (λ c x, reaches c x.2) (appends calls) sent ∧
    (full_writes calls ->
       snd <$> sent = output s ∧
       (Forall int_sized es -> small_backlog fresh es (new_AsyncLogging fresh) = true ->
          concat (snd <$> sent) ++ pending s = accepted kSize es)).
Proof.
  intros Hrun Ho Hcalls Happ.
  destruct (new_LogFile_spec e0 basename rollsize safe fi cn ind fs Ho) as (f0 & w0 & E0 & Hf0 & HB0).
  destruct (log_calls_spec calls w0 f0 Hf0 Hcalls) as (f & w & sent & E & Hf & Hs & HB).
  destruct (flush_spec w f Hf) as (f' & w' & E' & _ & HD). exists w0, w, w', sent. split_and!; [done..| |done|].
  - intros name. by rewrite (proj2 (HD name)), HB, HB0.
  - intros Hfull. rewrite (whole_blocks calls sent Hs Hfull), Happ. split; [done|].
    intros Hes Hb. by apply (delivered_accepted kSize fresh).
Qed.
End composed.

(** The run of [sample_run], and the first second of 2024. *)
Lemma async_log_files_witness :
  match run sample_fresh sample_run (new_AsyncLogging sample_fresh) with
  | Ok s =>
      let calls := [LAppend (sample_Env 1704067200) (bytes "abc"); LFlush] in
      ∃ w0 w w' sent,
        new_LogFile (sample_Env 1704067200) (bytes "app") 1000 false 3 1 0 ∅ = Ok (tt, w0) ∧
        mapM_ log_call calls w0 = Ok (tt, w) ∧ flush w = Ok (tt, w') ∧
        (∀ name, disk (lw_fs w') name = disk ∅ name ++ sent_to name sent) ∧
        concat (snd <$> sent) ++ pending s = accepted 8 sample_run
  | Fault _ => False
  end.
Proof.
  destruct (run sample_fresh sample_run (new_AsyncLogging sample_fresh)) as [s|f] eqn:E; [|vm_compute in E; discriminate E].
  set (calls := [LAppend (sample_Env 1704067200) (bytes "abc"); LFlush]).
  assert (appended calls = output s) as Happ by (vm_compute in E; injection E as <-; reflexivity).
  destruct (async_log_files 8 sample_fresh eq_refl (conj eq_refl eq_refl) sample_run s (sample_Env 1704067200)
    calls (bytes "app") 1000 false 3 1 0 ∅ E eq_refl) as (w0 & w & w' & sent & H1 & H2 & H3 & H4 & _ & H5).
  - repeat constructor.
  - exact Happ.
  - exists w0, w, w', sent. split_and!; [exact H1|exact H2|exact H3|exact H4|].
    apply H5; [repeat constructor|repeat constructor; unfold int_sized; vm_compute; reflexivity|reflexivity].
Defined.
