(* ===== verification/TimerQueue.v ===== *)
(** Timers: [PracticeMuduo/TimerQueue.muduo/Timer.h], [Timer.cpp], [TimerId.h],
    [AtomicPointer_temp.h], [TimerQueue.h] and [TimerQueue.cpp].  The [Timer] objects
    live in a heap of addresses, so that a use after free is a fault; the two
    [std::set]s keep their order.  What a callback does is an arbitrary list of calls
    on the queue.  The clock stands still during one call. *)
From Stdlib Require Import Floats.SpecFloat.
From S2P Require Import Prelude Timestamp Thread.
Open Scope list_scope.

(** * Timers *)

Record Timer := mkTimer {
  callback_ : nat;
  expiration_ : Timestamp;
  interval_ : double;
  repeat_ : bool;
  sequence_ : Z }.

Record TimerId := mkTimerId { timer_ : Z; id_sequence_ : Z }.

Definition NULL : Z := 0.
Definition null_TimerId : TimerId := mkTimerId NULL 0.

(** [AtomicPointer::incrementAndGet]: a plain load and a plain store. *)
Definition atomic_load (rep : Z) : Z := s64 (rep + 1).
Definition incrementAndGet (rep : Z) : Z * Z := (atomic_load rep, atomic_load rep).

(** [Timer(cb, when, interval)], for the sequence number drawn. *)
Definition new_Timer (cb : nat) (when : Timestamp) (interval : double) (seq : Z) : Timer :=
  mkTimer cb when interval (SFltb (double_of_Z 0) interval) seq.

Definition restart (now : Timestamp) (t : Timer) : res Timer :=
  if repeat_ t then
    match addTime now (interval_ t) with
    | Ok e => Ok (mkTimer (callback_ t) e (interval_ t) (repeat_ t) (sequence_ t))
    | Fault f => Fault f
    end
  else Ok (mkTimer (callback_ t) invalid (interval_ t) (repeat_ t) (sequence_ t)).

(** * The ordered set of entries *)

(** A [Timestamp] and an address. *)
Definition Entry : Type := Z * Z.
Definition ActiveTimer : Type := Z * Z.

(** [std::pair]'s order. *)
Definition entry_lt (x y : Entry) : bool :=
  op_lt x.1 y.1 || (negb (op_lt y.1 x.1) && (x.2 <? y.2)).

(** [std::set::insert]: the set and whether the entry was new. *)
Fixpoint set_insert (e : Entry) (l : list Entry) : list Entry * bool :=
  match l with
  | [] => ([e], true)
  | x :: l' =>
      if entry_lt e x then (e :: l, true)
      else if entry_lt x e then let '(r, b) := set_insert e l' in (x :: r, b)
      else (l, false)
  end.

(** [std::set::erase(key)]: the set and the number erased. *)
Fixpoint set_erase (e : Entry) (l : list Entry) : list Entry * Z :=
  match l with
  | [] => ([], 0)
  | x :: l' => if decide (x = e) then (l', 1) else let '(r, n) := set_erase e l' in (x :: r, n)
  end.

(** [lower_bound]: what is before it and what is from it on. *)
Fixpoint lower_bound (e : Entry) (l : list Entry) : list Entry * list Entry :=
  match l with
  | [] => ([], [])
  | x :: l' => if entry_lt x e then let '(a, b) := lower_bound e l' in (x :: a, b) else ([], l)
  end.

(** * The queue *)

Record TimerQueue := mkTQ {
  heap : gmap Z Timer;
  s_numCreated_ : Z;
  timers_ : list Entry;
  activeTimers_ : gset ActiveTimer;
  cancelingTimers_ : gset ActiveTimer;
  expired_ : list Entry;
  callingExpiredTimers_ : bool;
  inLoopThread : bool;
  clock : Timestamp;                (* what now() returns *)
  timerfd_ : option Timestamp;      (* when the timerfd will expire *)
  ran : list nat }.                 (* the callbacks run so far *)

Definition set_heap (h : gmap Z Timer) (q : TimerQueue) : TimerQueue :=
  mkTQ h (s_numCreated_ q) (timers_ q) (activeTimers_ q) (cancelingTimers_ q) (expired_ q)
    (callingExpiredTimers_ q) (inLoopThread q) (clock q) (timerfd_ q) (ran q).
Definition set_numCreated (n : Z) (q : TimerQueue) : TimerQueue :=
  mkTQ (heap q) n (timers_ q) (activeTimers_ q) (cancelingTimers_ q) (expired_ q)
    (callingExpiredTimers_ q) (inLoopThread q) (clock q) (timerfd_ q) (ran q).
Definition set_timers (l : list Entry) (q : TimerQueue) : TimerQueue :=
  mkTQ (heap q) (s_numCreated_ q) l (activeTimers_ q) (cancelingTimers_ q) (expired_ q)
    (callingExpiredTimers_ q) (inLoopThread q) (clock q) (timerfd_ q) (ran q).
Definition set_active (a : gset ActiveTimer) (q : TimerQueue) : TimerQueue :=
  mkTQ (heap q) (s_numCreated_ q) (timers_ q) a (cancelingTimers_ q) (expired_ q)
    (callingExpiredTimers_ q) (inLoopThread q) (clock q) (timerfd_ q) (ran q).
Definition set_canceling (a : gset ActiveTimer) (q : TimerQueue) : TimerQueue :=
  mkTQ (heap q) (s_numCreated_ q) (timers_ q) (activeTimers_ q) a (expired_ q)
    (callingExpiredTimers_ q) (inLoopThread q) (clock q) (timerfd_ q) (ran q).
Definition set_expired (l : list Entry) (q : TimerQueue) : TimerQueue :=
  mkTQ (heap q) (s_numCreated_ q) (timers_ q) (activeTimers_ q) (cancelingTimers_ q) l
    (callingExpiredTimers_ q) (inLoopThread q) (clock q) (timerfd_ q) (ran q).
Definition set_calling (b : bool) (q : TimerQueue) : TimerQueue :=
  mkTQ (heap q) (s_numCreated_ q) (timers_ q) (activeTimers_ q) (cancelingTimers_ q) (expired_ q)
    b (inLoopThread q) (clock q) (timerfd_ q) (ran q).
Definition set_clock (c : Timestamp) (q : TimerQueue) : TimerQueue :=
  mkTQ (heap q) (s_numCreated_ q) (timers_ q) (activeTimers_ q) (cancelingTimers_ q) (expired_ q)
    (callingExpiredTimers_ q) (inLoopThread q) c (timerfd_ q) (ran q).
Definition set_timerfd (w : option Timestamp) (q : TimerQueue) : TimerQueue :=
  mkTQ (heap q) (s_numCreated_ q) (timers_ q) (activeTimers_ q) (cancelingTimers_ q) (expired_ q)
    (callingExpiredTimers_ q) (inLoopThread q) (clock q) w (ran q).
Definition set_ran (l : list nat) (q : TimerQueue) : TimerQueue :=
  mkTQ (heap q) (s_numCreated_ q) (timers_ q) (activeTimers_ q) (cancelingTimers_ q) (expired_ q)
    (callingExpiredTimers_ q) (inLoopThread q) (clock q) (timerfd_ q) l.

(** [TimerQueue(loop)], once [createTimerfd] has succeeded. *)
Definition new_TimerQueue (created : Z) (now : Timestamp) : TimerQueue :=
  mkTQ ∅ created [] ∅ ∅ [] false true now None [].

(** [createTimerfd()]: a failure is fatal. *)
Definition createTimerfd (timerfd_create : Z) : res Z :=
  if timerfd_create <? 0 then Fault FatalLog else Ok timerfd_create.

(** [howMuchTimeFromNow(when)] at the time [now]. *)
Definition howMuchTimeFromNow (now when : Timestamp) : res timespec :=
  match int64 (microSecondsSinceEpoch when - microSecondsSinceEpoch now) with
  | Fault f => Fault f
  | Ok microseconds =>
      let microseconds := if microseconds <? 100 then 100 else microseconds in
      Ok (mkTimespec (Z.quot microseconds kMicroSecondsPerSecond)
            (s64 (Z.rem microseconds kMicroSecondsPerSecond * 1000)))
  end.

(** When a timerfd set to a relative time expires, in microseconds. *)
Definition wake_time (now : Timestamp) (ts : timespec) : Timestamp :=
  now + (tv_sec ts * kMicroSecondsPerSecond + tv_nsec ts / 1000).

Definition resetTimerfd (expiration : Timestamp) : M TimerQueue unit := λ q,
  match howMuchTimeFromNow (clock q) expiration with
  | Fault f => Fault f
  | Ok ts => Ok (tt, set_timerfd (Some (wake_time (clock q) ts)) q)
  end.

(** [readTimerfd(timerfd, now)]: the read takes the expirations of a timerfd that has expired;
    one that has been set again meanwhile stays set, and the failed read is only logged. *)
Definition readTimerfd : M TimerQueue unit := modify (λ q,
  match timerfd_ q with
  | Some w => if w <=? clock q then set_timerfd None q else q
  | None => q
  end).

Definition assertInLoopThread : M TimerQueue unit := λ q,
  if inLoopThread q then Ok (tt, q) else Fault FatalLog.

(** [timer->...] *)
Definition deref (a : Z) : M TimerQueue Timer := λ q,
  match heap q !! a with Some t => Ok (t, q) | None => Fault UB end.

(** [delete timer] *)
Definition delete_timer (a : Z) : M TimerQueue unit :=
  deref a ;; modify (λ q, set_heap (delete a (heap q)) q).

Definition sizes_agree (q : TimerQueue) : bool := zlen (timers_ q) =? Z.of_nat (size (activeTimers_ q)).
Definition assert_sizes : M TimerQueue unit := q ← get; assert (sizes_agree q).

Definition insert (timer : Z) : M TimerQueue bool :=
  assertInLoopThread ;;
  assert_sizes ;;
  t ← deref timer;
  let when := expiration_ t in
  q ← get;
  let earliestChanged :=
    match timers_ q with [] => true | it :: _ => op_lt when it.1 end in
  let '(l, isnew) := set_insert (when, timer) (timers_ q) in
  modify (set_timers l) ;;
  assert isnew ;;
  q ← get;
  let key : ActiveTimer := (timer, s32 (sequence_ t)) in
  assert (bool_decide (key ∉ activeTimers_ q)) ;;
  modify (set_active ({[key]} ∪ activeTimers_ q)) ;;
  assert_sizes ;;
  mret earliestChanged.

Definition addTimerInLoop (timer : Z) : M TimerQueue unit :=
  assertInLoopThread ;;
  earliestChanged ← insert timer;
  when earliestChanged (t ← deref timer; resetTimerfd (expiration_ t)).

Definition cancelInLoop (timerId : TimerId) : M TimerQueue unit :=
  assertInLoopThread ;;
  assert_sizes ;;
  let timer : ActiveTimer := (timer_ timerId, s32 (id_sequence_ timerId)) in
  q ← get;
  (if bool_decide (timer ∈ activeTimers_ q) then
     t ← deref timer.1;
     let '(l, n) := set_erase (expiration_ t, timer.1) (timers_ q) in
     modify (set_timers l) ;;
     assert (n =? 1) ;;
     delete_timer timer.1 ;;
     q ← get;
     modify (set_active (activeTimers_ q ∖ {[timer]}))
   else when (callingExpiredTimers_ q) (modify (set_canceling ({[timer]} ∪ cancelingTimers_ q)))) ;;
  assert_sizes.

Definition UINTPTR_MAX : Z := 2 ^ 64 - 1.

(** The loop over [expired_] that takes the entries out of [activeTimers_]. *)
Definition erase_active (e : Entry) : M TimerQueue unit :=
  t ← deref e.2;
  q ← get;
  let timer : ActiveTimer := (e.2, s32 (sequence_ t)) in
  assert (bool_decide (timer ∈ activeTimers_ q)) ;;
  modify (set_active (activeTimers_ q ∖ {[timer]})).

Definition getExpired (now : Timestamp) : M TimerQueue unit :=
  assert_sizes ;;
  modify (set_expired []) ;;
  q ← get;
  let '(before, from_end) := lower_bound (now, UINTPTR_MAX) (timers_ q) in
  assert (match from_end with [] => true | e :: _ => op_lt now e.1 end) ;;
  modify (set_expired before) ;;
  modify (set_timers from_end) ;;
  mapM_ erase_active before ;;
  assert_sizes.

(** One turn of the loop of [reset]. *)
Definition reset_entry (now : Timestamp) (e : Entry) : M TimerQueue unit :=
  t ← deref e.2;
  q ← get;
  if repeat_ t && bool_decide ((e.2, s32 (sequence_ t)) ∉ cancelingTimers_ q) then
    match restart now t with
    | Fault f => fail f
    | Ok t' => modify (λ q, set_heap (<[e.2 := t']> (heap q)) q) ;; insert e.2 ;; mret tt
    end
  else delete_timer e.2.

Definition reset (now : Timestamp) : M TimerQueue unit :=
  q ← get;
  mapM_ (reset_entry now) (expired_ q) ;;
  q ← get;
  nextExpire ←
    match timers_ q with
    | [] => mret new_Timestamp
    | e :: _ => t ← deref e.2; mret (expiration_ t)
    end;
  when (valid nextExpire) (resetTimerfd nextExpire).

(** * Calls of users, and of callbacks *)

Inductive Action :=
| AddTimer (cb : nat) (when : Timestamp) (interval : double)
| Cancel (id : TimerId).

Section queue.
(** The allocator, and what the callbacks do: any calls, depending on anything. *)
Context (malloc : gmap Z Timer -> Z) (body : nat -> TimerQueue -> list Action).

Definition alloc_timer (cb : nat) (when : Timestamp) (interval : double) : M TimerQueue Z := λ q,
  let '(seq, rep) := incrementAndGet (s_numCreated_ q) in
  let a := malloc (heap q) in
  Ok (a, set_numCreated rep (set_heap (<[a := new_Timer cb when interval seq]> (heap q)) q)).

(** [addTimer], when [runInLoop] leads to [run_in_loop] before [timer->sequence()] is
    read: [addTimerInLoop] itself on the loop's thread. *)
Definition addTimer_with (run_in_loop : Z -> M TimerQueue unit) (cb : nat) (when : Timestamp)
    (interval : double) : M TimerQueue TimerId :=
  timer ← alloc_timer cb when interval;
  run_in_loop timer ;;
  t ← deref timer;
  mret (mkTimerId timer (sequence_ t)).

Definition addTimer : nat -> Timestamp -> double -> M TimerQueue TimerId := addTimer_with addTimerInLoop.
Definition cancel (id : TimerId) : M TimerQueue unit := cancelInLoop id.

Definition do_action (x : Action) : M TimerQueue unit :=
  match x with
  | AddTimer cb when interval => addTimer cb when interval ;; mret tt
  | Cancel id => cancel id
  end.

(** [it->second->run()] *)
Definition run_entry (e : Entry) : M TimerQueue unit :=
  t ← deref e.2;
  modify (λ q, set_ran (ran q ++ [callback_ t]) q) ;;
  q ← get;
  mapM_ do_action (body (callback_ t) q).

(** [handleRead]; the clock is read once. *)
Definition handleRead (pollReturnTime : Timestamp) : M TimerQueue unit :=
  assertInLoopThread ;;
  q ← get;
  let now := clock q in
  readTimerfd ;;
  getExpired pollReturnTime ;;
  modify (set_calling true) ;;
  modify (set_canceling ∅) ;;
  q ← get;
  mapM_ run_entry (expired_ q) ;;
  modify (set_calling false) ;;
  reset now.

(** [~TimerQueue()]: every timer of [timers_] is deleted. *)
Definition TimerQueue_dtor : M TimerQueue unit :=
  q ← get; mapM_ (λ e : Entry, delete_timer e.2) (timers_ q).

(** What the loop's thread does over time. *)
Inductive Op :=
| OAction (x : Action)
| OHandleRead (pollReturnTime : Timestamp)
| OClock (now : Timestamp).

Definition do_op (o : Op) : M TimerQueue unit :=
  match o with
  | OAction x => do_action x
  | OHandleRead p => handleRead p
  | OClock now => modify (set_clock now)
  end.
End queue.
