(* ===== verification/TimerInv.v ===== *)
(** The invariant of the timer queue, and what each of its operations does to a
    queue that satisfies it. *)
From Stdlib Require Import Floats.SpecFloat Sorted.
From S2P Require Import Prelude Timestamp Thread TimerQueue.
Open Scope list_scope.

(** * The ordered set *)

Definition lt_entry (x y : Entry) : Prop := x.1 < y.1 ∨ x.1 = y.1 ∧ x.2 < y.2.

Lemma entry_lt_spec x y : entry_lt x y = true <-> lt_entry x y.
Proof.
  unfold entry_lt, lt_entry, op_lt, microSecondsSinceEpoch. destruct x as [a b], y as [c d]; simpl.
  rewrite orb_true_iff, andb_true_iff, negb_true_iff, !Z.ltb_lt, Z.ltb_ge. lia.
Qed.

Lemma entry_lt_false x y : entry_lt x y = false <-> ~ lt_entry x y.
Proof. rewrite <- entry_lt_spec. by destruct (entry_lt x y). Qed.

Abbreviation sorted := (StronglySorted lt_entry).

Lemma set_insert_spec e l :
  sorted l -> e ∉ l ->
  ∃ l', set_insert e l = (l', true) ∧ l' ≡ₚ e :: l ∧ sorted l'.
Proof.
  induction 1 as [|x l Hs IH Hx]; intros He; simpl.
  { exists [e]. split; [done|]. split; [done|]. repeat constructor. }
  rewrite Forall_forall in Hx.
  destruct (entry_lt e x) eqn:E1; [|destruct (entry_lt x e) eqn:E2].
  - apply entry_lt_spec in E1. exists (e :: x :: l). split; [done|]. split; [done|].
    constructor; [by constructor; [|apply Forall_forall]|]. constructor; [done|].
    apply Forall_forall. intros y Hy. specialize (Hx y Hy). unfold lt_entry in *. lia.
  - destruct IH as (l' & -> & HP & Hs'); [set_solver|]. apply entry_lt_spec in E2.
    exists (x :: l'). split; [done|]. split; [rewrite HP; apply Permutation_swap|].
    constructor; [done|]. rewrite HP. constructor; [done|]. by apply Forall_forall.
  - exfalso. apply entry_lt_false in E1, E2. assert (e = x); [|set_solver].
    destruct e as [a b], x as [c d]. unfold lt_entry in *; simpl in *. f_equal; lia.
Qed.

Lemma set_erase_spec e l :
  sorted l -> e ∈ l -> ∃ l', set_erase e l = (l', 1) ∧ l ≡ₚ e :: l' ∧ sorted l'.
Proof.
  induction 1 as [|x l Hs IH Hx]; intros He; simpl; [set_solver|].
  destruct (decide (x = e)) as [->|Hne]; [by exists l|].
  destruct IH as (l' & -> & HP & Hs'); [set_solver|]. exists (x :: l'). split; [done|].
  split; [rewrite HP; apply Permutation_swap|]. constructor; [done|].
  rewrite Forall_forall in *. intros y Hy. apply Hx. rewrite HP. set_solver.
Qed.

Lemma lower_bound_spec e l :
  sorted l -> let '(a, b) := lower_bound e l in
  l = a ++ b ∧ (∀ x, x ∈ a -> lt_entry x e) ∧ (∀ x, x ∈ b -> ~ lt_entry x e).
Proof.
  induction 1 as [|x l Hs IH Hx]; simpl; [set_solver|].
  destruct (entry_lt x e) eqn:E.
  - destruct (lower_bound e l) as [a b]. destruct IH as (-> & Ha & Hb). apply entry_lt_spec in E.
    split; [done|]. split; [|done]. intros y [->|Hy]%elem_of_cons; auto.
  - apply entry_lt_false in E. split; [done|]. split; [set_solver|].
    rewrite Forall_forall in Hx. intros y [->|Hy]%elem_of_cons; [done|].
    specialize (Hx y Hy). unfold lt_entry in *. lia.
Qed.

Lemma sorted_app_r l1 l2 : sorted (l1 ++ l2) -> sorted l2.
Proof. induction l1 as [|x l1 IH]; [done|]. inversion 1; auto. Qed.

Lemma sorted_head e l x : sorted (e :: l) -> x ∈ e :: l -> e.1 <= x.1.
Proof.
  intros Hs [->|Hx]%elem_of_cons; [lia|]. inversion Hs as [|? ? ? H]; subst.
  rewrite Forall_forall in H. specialize (H x Hx). unfold lt_entry in H. lia.
Qed.

(** * The invariant *)

(** A timer whose times stay within the arithmetic of time stamps. *)
Definition sane_interval (i : double) : Prop :=
  SFltb (double_of_Z 0) i = true ->
  ∃ d, int64_of_double (double_mul i (double_of_Z kMicroSecondsPerSecond)) = Ok d ∧ 0 <= d < 2 ^ 61.

Definition sane_time (t : Timestamp) : Prop := - 2 ^ 62 <= t < 2 ^ 62.

Definition sane (t : Timer) : Prop :=
  sane_time (expiration_ t) ∧ repeat_ t = SFltb (double_of_Z 0) (interval_ t) ∧ sane_interval (interval_ t).

(** The key of an entry in [activeTimers_]. *)
Definition akey (h : gmap Z Timer) (e : Entry) : ActiveTimer :=
  (e.2, match h !! e.2 with Some t => s32 (sequence_ t) | None => 0 end).

(** [live] are the timers that exist but are in neither set: those whose callbacks are
    being run, or one just allocated. *)
Record WF (live : list Entry) (q : TimerQueue) : Prop := {
  wf_loop : inLoopThread q = true;
  wf_clock : 0 < clock q < 2 ^ 61;
  wf_sorted : sorted (timers_ q);
  wf_exp : ∀ e, e ∈ timers_ q -> ∃ t, heap q !! e.2 = Some t ∧ expiration_ t = e.1;
  wf_live : ∀ e, e ∈ live -> is_Some (heap q !! e.2);
  wf_addr : NoDup ((timers_ q ++ live).*2);
  wf_heap : ∀ a, is_Some (heap q !! a) -> a ∈ (timers_ q ++ live).*2;
  wf_range : ∀ a, is_Some (heap q !! a) -> a ≠ NULL ∧ a < UINTPTR_MAX;
  wf_sane : ∀ a t, heap q !! a = Some t -> sane t;
  wf_active : activeTimers_ q = list_to_set (akey (heap q) <$> timers_ q) }.

Lemma NoDup_akey h (l : list Entry) : NoDup (l.*2) -> NoDup (akey h <$> l).
Proof.
  intros H. apply (NoDup_fmap_1 fst). by rewrite <- list_fmap_compose.
Qed.

Lemma WF_addr_timers live q : WF live q -> NoDup ((timers_ q).*2).
Proof. intros [_ _ _ _ _ H _ _ _ _]. rewrite fmap_app in H. by apply NoDup_app in H as [? _]. Qed.

Lemma WF_sizes live q : WF live q -> sizes_agree q = true.
Proof.
  intros HW. unfold sizes_agree. apply Z.eqb_eq. rewrite (wf_active _ _ HW).
  rewrite size_list_to_set by apply NoDup_akey, (WF_addr_timers _ _ HW). by rewrite length_fmap.
Qed.

Lemma WF_assert_sizes live q : WF live q -> assert_sizes q = Ok (tt, q).
Proof. intros HW. unfold assert_sizes. msimp. by rewrite (WF_sizes _ _ HW). Qed.

Lemma WF_assertInLoop live q : WF live q -> assertInLoopThread q = Ok (tt, q).
Proof. intros HW. unfold assertInLoopThread. by rewrite (wf_loop _ _ HW). Qed.

Lemma deref_timer_Ok q a t : heap q !! a = Some t -> deref a q = Ok (t, q).
Proof. intros H. unfold deref. by rewrite H. Qed.

(** The set of keys only looks at the heap where the timers are. *)
Lemma akey_ext h h' (l : list Entry) :
  (∀ e, e ∈ l -> h' !! e.2 = h !! e.2) -> akey h' <$> l = akey h <$> l.
Proof. intros H. apply list_fmap_ext. intros i e He. unfold akey. by rewrite H by (by eapply list_elem_of_lookup_2). Qed.

Lemma akey_fresh h (l : list Entry) a n :
  a ∉ l.*2 -> (a, n) ∉@{gset ActiveTimer} list_to_set (akey h <$> l).
Proof.
  intros Ha H. apply elem_of_list_to_set, list_elem_of_fmap in H as (x & Hx & Hin).
  injection Hx as -> _. apply Ha. apply list_elem_of_fmap. by exists x.
Qed.

(** An address in the first part of a duplicate-free list is not in the second. *)
Lemma addr_disjoint (l1 l2 : list Entry) a : NoDup ((l1 ++ l2).*2) -> a ∈ l1.*2 -> a ∉ l2.*2.
Proof. rewrite fmap_app. intros (_ & H & _)%NoDup_app. apply H. Qed.

Lemma elem_addr (e : Entry) (l : list Entry) : e ∈ l -> e.2 ∈ l.*2.
Proof. apply list_elem_of_fmap_2. Qed.

(** What neither adding nor cancelling touches, callbacks under way apart. *)
Definition frame (q : TimerQueue) :=
  (expired_ q, callingExpiredTimers_ q, inLoopThread q, clock q, ran q).

(** * The operations *)

Lemma insert_spec x a live q t :
  WF ((x, a) :: live) q -> heap q !! a = Some t ->
  ∃ q', insert a q = Ok (match timers_ q with [] => true | it :: _ => op_lt (expiration_ t) it.1 end, q') ∧
    WF live q' ∧ timers_ q' ≡ₚ (expiration_ t, a) :: timers_ q ∧
    frame q' = frame q ∧ heap q' = heap q ∧ timerfd_ q' = timerfd_ q ∧
    cancelingTimers_ q' = cancelingTimers_ q.
Proof.
  intros HW Ht. pose proof HW as [Hl Hc Hs He Hv Ha Hh Hr Hsn Hact].
  assert (a ∉ (timers_ q).*2) as Hna.
  { intros Hin. eapply addr_disjoint; [exact Ha|exact Hin|]. simpl. left. }
  destruct (set_insert_spec (expiration_ t, a) (timers_ q) Hs) as (l' & El & HP & Hs').
  { intros Hin. by apply elem_addr in Hin. }
  assert ((a, s32 (sequence_ t)) ∉ activeTimers_ q) as Hnk by (rewrite Hact; by apply akey_fresh).
  set (q' := set_active ({[(a, s32 (sequence_ t))]} ∪ activeTimers_ q) (set_timers l' q)).
  assert (WF live q') as HW'.
  { split; simpl; try done.
    - intros e. rewrite HP. intros [->|Hin]%elem_of_cons; [by exists t|auto].
    - intros e Hin. apply Hv. by right.
    - rewrite fmap_app, HP in *. simpl in *. by rewrite Permutation_middle.
    - intros b Hb. specialize (Hh b Hb). rewrite fmap_app, HP in *. simpl in *.
      by rewrite <- Permutation_middle in Hh.
    - rewrite Hact, HP. simpl. unfold akey at 2. simpl. by rewrite Ht. }
  exists q'. split; [|split; [done|split; [exact HP|done]]].
  unfold insert. rewrite (bind_Ok _ _ _ _ _ (WF_assertInLoop _ _ HW)), (bind_Ok _ _ _ _ _ (WF_assert_sizes _ _ HW)).
  rewrite (bind_Ok _ _ _ _ _ (deref_timer_Ok _ _ _ Ht)), (bind_Ok _ _ q q q) by done. rewrite El.
  rewrite (bind_Ok _ _ q tt (set_timers l' q)) by done.
  rewrite (bind_Ok _ _ _ tt (set_timers l' q)) by done.
  rewrite (bind_Ok _ _ _ (set_timers l' q) (set_timers l' q)) by done. cbn [activeTimers_ set_timers].
  rewrite bool_decide_eq_true_2 by done.
  rewrite (bind_Ok _ _ _ tt (set_timers l' q)), (bind_Ok _ _ _ tt q') by done.
  by rewrite (bind_Ok _ _ _ _ _ (WF_assert_sizes _ _ HW')).
Qed.

(** The time the timerfd is set to: the expiration, but not earlier than 100
    microseconds from now. *)
Lemma resetTimerfd_spec q e :
  0 < clock q < 2 ^ 61 -> sane_time e ->
  resetTimerfd e q = Ok (tt, set_timerfd (Some (Z.max e (clock q + 100))) q).
Proof.
  unfold sane_time. intros Hc He. unfold resetTimerfd, howMuchTimeFromNow, int64, microSecondsSinceEpoch.
  rewrite (proj2 (Z.leb_le _ _)), (proj2 (Z.ltb_lt _ _)) by lia. cbn [andb].
  do 3 f_equal. unfold wake_time. cbn [tv_sec tv_nsec].
  set (d := if e - clock q <? 100 then 100 else e - clock q).
  assert (d = Z.max 100 (e - clock q)) as Ed by (subst d; destruct (Z.ltb_spec (e - clock q) 100); lia).
  clearbody d. unfold kMicroSecondsPerSecond. change (1000 * 1000) with 1000000.
  rewrite Z.quot_div_nonneg, Z.rem_mod_nonneg by lia. unfold s64.
  assert (0 <= d mod 1000000 < 1000000 ∧ d = d / 1000000 * 1000000 + d mod 1000000) as [Hm Hd] by zlia.
  rewrite swrap_small by lia. rewrite Z.div_mul by lia. f_equal. lia.
Qed.

(** No wake-up is lost: for every entry that satisfies [P], the timerfd expires by the
    entry's expiration, or by 100 microseconds from now. *)
Definition armed (P : Entry -> Prop) (q : TimerQueue) : Prop :=
  ∀ e, e ∈ timers_ q -> P e -> ∃ w, timerfd_ q = Some w ∧ w <= Z.max e.1 (clock q + 100).

(** [P] holds of the earlier of two entries if it holds of the later. *)
Definition downward (P : Entry -> Prop) : Prop := ∀ x y, x.1 <= y.1 -> P y -> P x.

Lemma addTimerInLoop_spec P x a live q t :
  WF ((x, a) :: live) q -> heap q !! a = Some t -> downward P -> armed P q ->
  ∃ q', addTimerInLoop a q = Ok (tt, q') ∧ WF live q' ∧ armed P q' ∧
    timers_ q' ≡ₚ (expiration_ t, a) :: timers_ q ∧
    frame q' = frame q ∧ heap q' = heap q ∧ cancelingTimers_ q' = cancelingTimers_ q.
Proof.
  intros HW Ht HP Harm. destruct (insert_spec x a live q t HW Ht) as (q1 & E1 & HW1 & Hperm & Hfr & Hh & Hfd & Hcc).
  unfold addTimerInLoop.
  rewrite (bind_Ok _ _ _ _ _ (WF_assertInLoop _ _ HW)), (bind_Ok _ _ _ _ _ E1).
  pose proof (wf_sane _ _ HW a t Ht) as (Hsane & _ & _).
  assert (clock q1 = clock q) as Hck by (by injection Hfr).
  set (early := match timers_ q with [] => true | it :: _ => op_lt (expiration_ t) it.1 end).
  destruct early eqn:Eearly; subst early; unfold when.
  - rewrite (bind_Ok _ _ _ t q1) by (apply deref_timer_Ok; by rewrite Hh).
    rewrite resetTimerfd_spec by (try done; apply HW1). eexists. split; [reflexivity|].
    split; [|split; [|done]].
    + destruct HW1; split; done.
    + intros e He _. simpl in *. eexists. split; [reflexivity|]. rewrite Hck.
      assert (expiration_ t <= e.1); [|lia].
      rewrite Hperm in He. apply elem_of_cons in He as [->|He]; [simpl; lia|].
      destruct (timers_ q) as [|it l] eqn:El; [set_solver|]. unfold op_lt, microSecondsSinceEpoch in Eearly.
      apply Z.ltb_lt in Eearly. pose proof (wf_sorted _ _ HW) as Hs. rewrite El in Hs.
      pose proof (sorted_head _ _ _ Hs He). lia.
  - exists q1. split; [done|]. split; [done|]. split; [|done].
    intros e He HPe. rewrite Hfd, Hck. rewrite Hperm in He.
    apply elem_of_cons in He as [->|He]; [|by apply Harm].
    destruct (timers_ q) as [|it l] eqn:El; [done|]. unfold op_lt, microSecondsSinceEpoch in Eearly.
    apply Z.ltb_ge in Eearly. simpl in *.
    destruct (Harm it) as (w & Hw & Hle); [rewrite El; left|eapply HP; [|exact HPe]; simpl; lia|].
    exists w. split; [done|]. lia.
Qed.

Lemma delete_timer_spec x a live q :
  WF ((x, a) :: live) q ->
  delete_timer a q = Ok (tt, set_heap (delete a (heap q)) q) ∧ WF live (set_heap (delete a (heap q)) q).
Proof.
  intros HW. pose proof HW as [Hl Hc Hs He Hv Ha Hh Hr Hsn Hact].
  destruct (Hv (x, a)) as [t Ht]; [left|]. simpl in Ht. split.
  { unfold delete_timer. by rewrite (bind_Ok _ _ _ _ _ (deref_timer_Ok _ _ _ Ht)). }
  assert (a ∉ (timers_ q).*2) as Hna.
  { intros Hin. eapply addr_disjoint; [exact Ha|exact Hin|]. simpl. left. }
  assert (a ∉ live.*2 ∧ NoDup ((timers_ q ++ live).*2)) as [Hnl Ha'].
  { rewrite !fmap_app in *. simpl in Ha. rewrite <- Permutation_middle in Ha.
    apply NoDup_cons in Ha as [Hn ?]. rewrite elem_of_app in Hn. tauto. }
  split; simpl; try done.
  - intros e Hin. rewrite lookup_delete_ne; [auto|]. intros ->. by apply Hna, elem_addr.
  - intros e Hin. rewrite lookup_delete_ne; [apply Hv; by right|]. intros ->. by apply Hnl, elem_addr.
  - intros b [t' Hb]. apply lookup_delete_Some in Hb as [Hne Hb]. specialize (Hh b ltac:(eauto)).
    rewrite !fmap_app, !elem_of_app in *. simpl in Hh. rewrite elem_of_cons in Hh. naive_solver.
  - intros b [t' Hb]. apply lookup_delete_Some in Hb as [_ Hb]. apply Hr. eauto.
  - intros b t' Hb. apply lookup_delete_Some in Hb as [_ Hb]. eauto.
  - rewrite Hact. f_equal. symmetry. apply akey_ext. intros e Hin. apply lookup_delete_ne.
    intros ->. by apply Hna, elem_addr.
Qed.

Definition id_key (id : TimerId) : ActiveTimer := (timer_ id, s32 (id_sequence_ id)).

(** Taking an entry out of both sets leaves its timer alive and unregistered. *)
Lemma WF_unregister live q e l' t :
  WF live q -> timers_ q ≡ₚ e :: l' -> sorted l' -> heap q !! e.2 = Some t ->
  WF (e :: live) (set_active (activeTimers_ q ∖ {[(e.2, s32 (sequence_ t))]}) (set_timers l' q)).
Proof.
  intros HW HP Hs' Ht. pose proof HW as [Hl Hc Hs He Hv Ha Hh Hr Hsn Hact].
  assert (((timers_ q) ++ live).*2 ≡ₚ (l' ++ e :: live).*2) as HPm.
  { rewrite !fmap_app, HP. simpl. by rewrite Permutation_middle. }
  split; simpl; try done.
  - intros x Hin. apply He. rewrite HP. by right.
  - intros x [->|Hin]%elem_of_cons; [eauto|auto].
  - by rewrite <- HPm.
  - intros a Hin. rewrite <- HPm. auto.
  - rewrite Hact, HP. simpl. unfold akey at 1. rewrite Ht.
    assert ((e.2, s32 (sequence_ t)) ∉@{gset ActiveTimer} list_to_set (akey (heap q) <$> l')) as Hn.
    { apply akey_fresh. pose proof (WF_addr_timers _ _ HW) as Hnd. rewrite HP in Hnd.
      simpl in Hnd. by apply NoDup_cons in Hnd as [? _]. }
    set_solver.
Qed.

(** The entry an active key stands for. *)
Lemma active_entry live q a n :
  WF live q -> (a, n) ∈ activeTimers_ q ->
  ∃ t, heap q !! a = Some t ∧ (expiration_ t, a) ∈ timers_ q ∧ n = s32 (sequence_ t).
Proof.
  intros HW H. rewrite (wf_active _ _ HW) in H.
  apply elem_of_list_to_set, list_elem_of_fmap in H as ((ts & b) & Hx & Hin).
  unfold akey in Hx. simpl in Hx. injection Hx as -> ->.
  destruct (wf_exp _ _ HW _ Hin) as (t & Ht & Hexp). simpl in *. exists t. by rewrite Ht, Hexp.
Qed.

Lemma active_akey live q e : WF live q -> e ∈ timers_ q -> akey (heap q) e ∈ activeTimers_ q.
Proof. intros HW He. rewrite (wf_active _ _ HW). apply elem_of_list_to_set, list_elem_of_fmap_2, He. Qed.

Lemma armed_subset P q q' :
  armed P q -> (∀ e, e ∈ timers_ q' -> e ∈ timers_ q) -> timerfd_ q' = timerfd_ q ->
  clock q' = clock q -> armed P q'.
Proof. intros H Hsub Hfd Hc e He HP. rewrite Hfd, Hc. auto. Qed.

(** Cancelling: an active timer is taken out of both sets and freed; any other id
    changes nothing but, during callbacks, the set of ids to forget. *)
Lemma cancelInLoop_spec live q id :
  WF live q ->
  ∃ q', cancelInLoop id q = Ok (tt, q') ∧ WF live q' ∧ frame q' = frame q ∧ timerfd_ q' = timerfd_ q ∧
    id_key id ∉ activeTimers_ q' ∧
    (∀ e, e ∈ timers_ q' <-> e ∈ timers_ q ∧ akey (heap q) e ≠ id_key id) ∧
    if bool_decide (id_key id ∈ activeTimers_ q)
    then heap q' = delete (timer_ id) (heap q) ∧ cancelingTimers_ q' = cancelingTimers_ q
    else heap q' = heap q ∧ timers_ q' = timers_ q ∧
      cancelingTimers_ q' = if callingExpiredTimers_ q then {[id_key id]} ∪ cancelingTimers_ q
                            else cancelingTimers_ q.
Proof.
  intros HW. unfold cancelInLoop.
  rewrite (bind_Ok _ _ _ _ _ (WF_assertInLoop _ _ HW)), (bind_Ok _ _ _ _ _ (WF_assert_sizes _ _ HW)).
  rewrite (bind_Ok _ _ q q q) by done. fold (id_key id). case_bool_decide as Hin.
  - destruct (active_entry live q _ _ HW Hin) as (t & Ht & Htim & Hseq).
    set (e := (expiration_ t, timer_ id)) in *.
    destruct (set_erase_spec e (timers_ q) (wf_sorted _ _ HW) Htim) as (l' & El & HP & Hs').
    pose proof (WF_unregister live q e l' t HW HP Hs' Ht) as HW1. simpl in HW1. rewrite <- Hseq in HW1.
    destruct (delete_timer_spec (expiration_ t) (timer_ id) live _ HW1) as [_ HW2].
    destruct (delete_timer_spec (expiration_ t) (timer_ id) live _ HW1) as [E2 _].
    eexists. split; [|split; [exact HW2|split; [done|split; [done|]]]].
    + rewrite (bind_Ok _ _ q tt (set_heap (delete (timer_ id) (heap q))
        (set_active (activeTimers_ q ∖ {[id_key id]}) (set_timers l' q)))).
      { exact (WF_assert_sizes _ _ HW2). }
      rewrite (bind_Ok _ _ _ _ _ (deref_timer_Ok _ _ _ Ht)). simpl. fold e. rewrite El.
      rewrite (bind_Ok _ _ q tt (set_timers l' q)) by done.
      rewrite (bind_Ok _ _ _ tt (set_timers l' q)) by done.
      rewrite (bind_Ok _ _ _ tt (set_heap (delete (timer_ id) (heap q)) (set_timers l' q))); [done|].
      unfold delete_timer. rewrite (bind_Ok _ _ _ t (set_timers l' q)) by (by apply deref_timer_Ok). done.
    + simpl. split; [set_solver|]. split; [|done].
      intros x. split.
      * intros Hx. split; [rewrite HP; by right|]. intros Heq.
        pose proof (WF_addr_timers _ _ HW) as Hnd. rewrite HP in Hnd. simpl in Hnd.
        apply NoDup_cons in Hnd as [Hn _]. apply Hn. injection Heq as <- _. by apply elem_addr.
      * intros [Hx Hne]. rewrite HP in Hx. apply elem_of_cons in Hx as [->|]; [|done].
        exfalso. apply Hne. unfold akey, id_key. simpl. rewrite Ht. by rewrite Hseq.
  - set (q' := if callingExpiredTimers_ q then set_canceling ({[id_key id]} ∪ cancelingTimers_ q) q else q).
    assert (when (callingExpiredTimers_ q)
              (modify (λ q, set_canceling ({[id_key id]} ∪ cancelingTimers_ q) q)) q = Ok (tt, q')) as E
      by (subst q'; unfold when; by destruct (callingExpiredTimers_ q)).
    assert (WF live q') as HW' by (subst q'; destruct (callingExpiredTimers_ q); [destruct HW; by split|done]).
    exists q'. split; [|split; [done|]].
    + rewrite (bind_Ok _ _ q tt q'); [by apply WF_assert_sizes with live|].
      subst q'. unfold when in *. by destruct (callingExpiredTimers_ q).
    + assert (timers_ q' = timers_ q ∧ activeTimers_ q' = activeTimers_ q ∧ heap q' = heap q ∧
              frame q' = frame q ∧ timerfd_ q' = timerfd_ q) as (-> & -> & -> & -> & ->)
        by (subst q'; by destruct (callingExpiredTimers_ q)).
      split; [done|]. split; [done|]. split; [done|]. split; [|split; [done|split; [done|]]].
      * intros e. split; [|tauto]. intros He. split; [done|]. intros Heq. apply Hin. rewrite <- Heq.
        by eapply active_akey.
      * subst q'. by destruct (callingExpiredTimers_ q).
Qed.

Definition sane_action (x : Action) : Prop :=
  match x with
  | AddTimer _ when interval => sane_time when ∧ sane_interval interval
  | Cancel _ => True
  end.

(** The callbacks of a list of entries. *)
Definition callbacks_of (h : gmap Z Timer) (l : list Entry) : list nat :=
  omap (λ e, callback_ <$> h !! e.2) l.

Lemma callbacks_ext h h' l :
  (∀ e, e ∈ l -> h' !! e.2 = h !! e.2) -> callbacks_of h' l = callbacks_of h l.
Proof.
  induction l as [|e l IH]; intros H; [done|]. unfold callbacks_of in *. cbn [omap list_omap].
  rewrite H by left. destruct (h !! e.2); simpl; [f_equal|]; apply IH; intros; apply H; by right.
Qed.

Section handlers.
Context (malloc : gmap Z Timer -> Z) (body : nat -> TimerQueue -> list Action).

(** The allocator returns an address that is not in use, not NULL and below the
    largest one; memory does not run out. *)
Context (malloc_fresh : ∀ h, h !! malloc h = None).
Context (malloc_range : ∀ h, malloc h ≠ NULL ∧ malloc h < UINTPTR_MAX).
Context (body_sane : ∀ cb q x, x ∈ body cb q -> sane_action x).

Lemma alloc_timer_spec live q cb when i :
  WF live q -> sane_time when -> sane_interval i ->
  let a := malloc (heap q) in
  ∃ q' t, alloc_timer malloc cb when i q = Ok (a, q') ∧ WF ((when, a) :: live) q' ∧
    heap q' = <[a := t]> (heap q) ∧ expiration_ t = when ∧ callback_ t = cb ∧
    repeat_ t = SFltb (double_of_Z 0) i ∧ interval_ t = i ∧ sequence_ t = s64 (s_numCreated_ q + 1) ∧
    frame q' = frame q ∧ timers_ q' = timers_ q ∧ timerfd_ q' = timerfd_ q ∧
    cancelingTimers_ q' = cancelingTimers_ q.
Proof.
  intros HW Hw Hi. pose proof HW as [Hl Hc Hs He Hv Ha Hh Hr Hsn Hact].
  pose proof (malloc_fresh (heap q)) as Hfresh. pose proof (malloc_range (heap q)) as Hrange.
  cbn zeta. unfold alloc_timer. simpl incrementAndGet. generalize dependent (malloc (heap q)). intros a Hfresh Hrange.
  eexists _, _. split; [reflexivity|]. split; [|by repeat split].
  assert (a ∉ (timers_ q ++ live).*2) as Hna.
  { intros ((ts & b) & Hb & Hin)%list_elem_of_fmap. simpl in Hb. subst b.
    assert (is_Some (heap q !! a)) as [t Ht]; [|congruence].
    apply elem_of_app in Hin as [Hin|Hin]; [destruct (He _ Hin) as (t & Ht & _); eauto|by apply Hv in Hin]. }
  rewrite fmap_app, elem_of_app in Hna.
  split; simpl; try done.
  - intros e Hin. rewrite lookup_insert_ne; [auto|]. intros ->. apply Hna. left. by apply elem_addr.
  - intros e [->|Hin]%elem_of_cons; simpl; [rewrite lookup_insert_eq; eauto|].
    destruct (decide (a = e.2)) as [->|]; [rewrite lookup_insert_eq; eauto|].
    rewrite lookup_insert_ne by done. auto.
  - rewrite fmap_app in *. simpl. rewrite <- Permutation_middle. constructor; [|done].
    rewrite elem_of_app. tauto.
  - intros b Hb. rewrite fmap_app, elem_of_app in *. simpl. rewrite elem_of_cons.
    destruct (decide (b = a)) as [->|]; [by right; left|].
    rewrite lookup_insert_ne in Hb by done. specialize (Hh b Hb).
    rewrite ?fmap_app, ?elem_of_app in Hh. tauto.
  - intros b Hb. destruct (decide (b = a)) as [->|]; [done|].
    rewrite lookup_insert_ne in Hb by done. auto.
  - intros b t Hb. destruct (decide (b = a)) as [->|].
    + rewrite lookup_insert_eq in Hb. injection Hb as <-. split; [exact Hw|]; split; [done|exact Hi].
    + rewrite lookup_insert_ne in Hb by done. eauto.
  - rewrite Hact. f_equal. symmetry. apply akey_ext. intros e Hin. apply lookup_insert_ne.
    intros ->. apply Hna. left. by apply elem_addr.
Qed.

(** [addTimer] on the loop's thread: the timer is registered, and the id returned
    names it. *)
Lemma addTimer_spec P live q cb when i :
  WF live q -> armed P q -> downward P -> sane_time when -> sane_interval i ->
  let a := malloc (heap q) in
  ∃ q' t, addTimer malloc cb when i q = Ok (mkTimerId a (sequence_ t), q') ∧ WF live q' ∧ armed P q' ∧
    heap q' = <[a := t]> (heap q) ∧ expiration_ t = when ∧ callback_ t = cb ∧
    timers_ q' ≡ₚ (when, a) :: timers_ q ∧ frame q' = frame q ∧ cancelingTimers_ q' = cancelingTimers_ q.
Proof.
  intros HW Harm HP Hw Hi a.
  destruct (alloc_timer_spec live q cb when i HW Hw Hi)
    as (q1 & t & E1 & HW1 & Hh1 & Hexp & Hcb & _ & _ & _ & Hf1 & Ht1 & Hfd1 & Hcc1). fold a in E1, HW1, Hh1.
  assert (heap q1 !! a = Some t) as Ha by (by rewrite Hh1, lookup_insert_eq).
  destruct (addTimerInLoop_spec P when a live q1 t HW1 Ha HP) as (q2 & E2 & HW2 & Harm2 & Hp2 & Hf2 & Hh2 & Hcc2).
  { eapply armed_subset; [exact Harm|by rewrite Ht1|done|by injection Hf1]. }
  exists q2, t. unfold addTimer, addTimer_with.
  rewrite (bind_Ok _ _ _ _ _ E1), (bind_Ok _ _ _ _ _ E2).
  rewrite (bind_Ok _ _ _ t q2) by (apply deref_timer_Ok; by rewrite Hh2).
  split; [done|]. split; [exact HW2|]. split; [exact Harm2|]. split; [congruence|]. split; [done|].
  split; [done|]. split; [by rewrite Hp2, Ht1, Hexp|]. split; congruence.
Qed.

(** What every call of a callback keeps. *)
Definition during (P : Entry -> Prop) (live : list Entry) (q0 q : TimerQueue) : Prop :=
  WF live q ∧ armed P q ∧ frame q = frame q0 ∧ ∀ e, e ∈ live -> heap q !! e.2 = heap q0 !! e.2.

Lemma do_action_spec P live q0 q x :
  downward P -> sane_action x -> during P live q0 q ->
  ∃ q', do_action malloc x q = Ok (tt, q') ∧ during P live q0 q'.
Proof.
  intros HP Hx (HW & Harm & Hf & Hheap). destruct x as [cb when i|id]; simpl in *.
  - destruct Hx as [Hw Hi].
    destruct (addTimer_spec P live q cb when i HW Harm HP Hw Hi)
      as (q1 & t & E1 & HW1 & Harm1 & Hh1 & _ & _ & _ & Hf1 & _).
    exists q1. rewrite (bind_Ok _ _ _ _ _ E1). split; [done|]. split; [done|]. split; [done|].
    split; [congruence|]. intros e Hin. rewrite Hh1, <- Hheap by done. apply lookup_insert_ne.
    intros Heq. destruct (wf_live _ _ HW e Hin) as [t' Ht']. by rewrite <- Heq, malloc_fresh in Ht'.
  - destruct (cancelInLoop_spec live q id HW) as (q1 & E1 & HW1 & Hf1 & Hfd1 & _ & Ht1 & Hcase).
    exists q1. split; [done|]. split; [done|]. split; [|split; [congruence|]].
    + eapply armed_subset; [exact Harm| |done|by injection Hf1]. intros e He. by apply Ht1.
    + intros e Hin. rewrite <- Hheap by done. case_bool_decide as Hact; [|by destruct Hcase as [-> _]].
      destruct Hcase as [-> _]. apply lookup_delete_ne. intros Heq.
      destruct (active_entry live q _ _ HW Hact) as (t & _ & Htim & _).
      apply (addr_disjoint _ _ (timer_ id) (wf_addr _ _ HW)); [by apply elem_addr in Htim|].
      rewrite Heq. by apply elem_addr.
Qed.

Lemma during_set_ran P live q0 q l :
  during P live q0 q -> during P live (set_ran l q0) (set_ran l q).
Proof.
  intros (HW & Harm & Hf & Hh). split; [destruct HW; by split|]. split; [done|].
  split; [|done]. unfold frame in *. simpl in *. injection Hf as -> -> -> -> _. done.
Qed.

(** Running the callback of a timer that is not in the sets. *)
Lemma run_entry_spec P live q e t :
  downward P -> e ∈ live -> heap q !! e.2 = Some t -> WF live q -> armed P q ->
  ∃ q', run_entry malloc body e q = Ok (tt, q') ∧ during P live (set_ran (ran q ++ [callback_ t]) q) q'.
Proof.
  intros HP He Ht HW Harm. unfold run_entry. rewrite (bind_Ok _ _ _ _ _ (deref_timer_Ok _ _ _ Ht)).
  set (q1 := set_ran (ran q ++ [callback_ t]) q).
  rewrite (bind_Ok _ _ q tt q1), (bind_Ok _ _ q1 q1 q1) by done.
  apply (mapM_invariant (during P live q1)).
  - apply during_set_ran. split; [exact HW|]. by repeat split.
  - intros x q2 Hx. apply do_action_spec; [done|]. by eapply body_sane.
Qed.

(** Running all of them: every callback once, in order. *)
Lemma run_entries_spec P live l q :
  downward P -> (∀ e, e ∈ l -> e ∈ live) -> WF live q -> armed P q ->
  ∃ q', mapM_ (run_entry malloc body) l q = Ok (tt, q') ∧ WF live q' ∧ armed P q' ∧
    expired_ q' = expired_ q ∧ clock q' = clock q ∧
    (∀ e, e ∈ live -> heap q' !! e.2 = heap q !! e.2) ∧
    ran q' = ran q ++ callbacks_of (heap q) l.
Proof.
  intros HP. revert q. induction l as [|e l IH]; intros q Hl HW Harm; cbn [mapM_].
  { exists q. rewrite app_nil_r. by split_and!. }
  destruct (wf_live _ _ HW e ltac:(apply Hl; left)) as [t Ht].
  destruct (run_entry_spec P live q e t HP ltac:(apply Hl; left) Ht HW Harm) as (q1 & E1 & HW1 & Harm1 & Hf1 & Hh1).
  simpl in Hh1. rewrite (bind_Ok _ _ _ _ _ E1).
  destruct (IH q1) as (q2 & E2 & HW2 & Harm2 & Hx2 & Hc2 & Hh2 & Hr2);
    [intros; apply Hl; by right|done|done|].
  unfold frame in Hf1. simpl in Hf1. injection Hf1 as Hx1 _ _ Hc1 Hr1.
  exists q2. split_and!; try done; try congruence.
  - intros x Hx. rewrite Hh2, Hh1 by done. done.
  - rewrite Hr2, Hr1, <- app_assoc. f_equal. unfold callbacks_of at 2. simpl. rewrite Ht. simpl. f_equal.
    apply callbacks_ext. intros x Hx. apply Hh1, Hl. by right.
Qed.
End handlers.

(** * Expiry *)

Lemma erase_actives_spec l q :
  NoDup (l.*2) -> (∀ e, e ∈ l -> is_Some (heap q !! e.2) ∧ akey (heap q) e ∈ activeTimers_ q) ->
  mapM_ erase_active l q =
  Ok (tt, set_active (activeTimers_ q ∖ list_to_set (akey (heap q) <$> l)) q).
Proof.
  revert q; induction l as [|e l IH]; intros q Hnd Hl; cbn [mapM_].
  { simpl. rewrite difference_empty_L. by destruct q. }
  destruct (Hl e ltac:(left)) as [[t Ht] Hin]. simpl in Hnd. apply NoDup_cons in Hnd as [Hn Hnd].
  set (q1 := set_active (activeTimers_ q ∖ {[akey (heap q) e]}) q).
  assert (erase_active e q = Ok (tt, q1)) as E.
  { unfold erase_active. rewrite (bind_Ok _ _ _ _ _ (deref_timer_Ok _ _ _ Ht)), (bind_Ok _ _ q q q) by done.
    unfold akey in Hin. rewrite Ht in Hin. rewrite bool_decide_eq_true_2 by done.
    rewrite (bind_Ok _ _ q tt q) by done. subst q1. unfold akey. by rewrite Ht. }
  rewrite (bind_Ok _ _ _ _ _ E), IH; [|done|].
  - simpl. subst q1. unfold set_active. simpl. do 3 f_equal. set_solver.
  - intros x Hx. destruct (Hl x ltac:(by right)) as [? Hx']. split; [done|]. simpl.
    apply elem_of_difference. split; [done|]. rewrite not_elem_of_singleton. intros Heq.
    apply Hn. injection Heq as <- _. by apply elem_addr.
Qed.

Lemma list_to_set_difference (l1 l2 : list Entry) h :
  NoDup ((l1 ++ l2).*2) ->
  list_to_set (akey h <$> l1 ++ l2) ∖ list_to_set (akey h <$> l1) =@{gset ActiveTimer}
  list_to_set (akey h <$> l2).
Proof.
  intros Hnd. rewrite fmap_app, list_to_set_app_L. apply set_eq. intros x.
  rewrite elem_of_difference, elem_of_union. split; [tauto|]. intros Hx. split; [by right|].
  rewrite !elem_of_list_to_set, !list_elem_of_fmap in *. intros (e1 & E1 & H1).
  destruct Hx as (e2 & E2 & H2). rewrite E1 in E2. injection E2 as Ea _.
  apply (addr_disjoint _ _ e1.2 Hnd); [by apply elem_addr|]. rewrite Ea. by apply elem_addr.
Qed.

Lemma getExpired_spec q now :
  WF [] q ->
  ∃ before after q', timers_ q = before ++ after ∧ getExpired now q = Ok (tt, q') ∧ WF before q' ∧
    (∀ e, e ∈ before -> e.1 <= now) ∧ (∀ e, e ∈ after -> now < e.1) ∧
    expired_ q' = before ∧ timers_ q' = after ∧ heap q' = heap q ∧ clock q' = clock q ∧ ran q' = ran q ∧
    timerfd_ q' = timerfd_ q.
Proof.
  intros HW. pose proof HW as [Hl Hc Hs He Hv Ha Hh Hr Hsn Hact].
  unfold getExpired. rewrite (bind_Ok _ _ _ _ _ (WF_assert_sizes _ _ HW)).
  pose proof (lower_bound_spec (now, UINTPTR_MAX) (timers_ q) Hs) as HL.
  set (q0 := set_expired [] q). rewrite (bind_Ok _ _ q tt q0), (bind_Ok _ _ q0 q0 q0) by done.
  change (timers_ q0) with (timers_ q).
  destruct (lower_bound (now, UINTPTR_MAX) (timers_ q)) as [before after]. destruct HL as (Et & Hb & Hafter).
  assert (∀ e, e ∈ after -> now < e.1) as Haft.
  { intros e Hin. specialize (Hafter e Hin). unfold lt_entry in Hafter. simpl in Hafter.
    destruct (He e) as (t & Ht & _); [rewrite Et; set_solver|]. specialize (Hr e.2 ltac:(eauto)). lia. }
  set (q1 := set_timers after (set_expired before q0)).
  set (q2 := set_active (list_to_set (akey (heap q) <$> after)) q1).
  rewrite app_nil_r in Ha, Hh.
  assert (NoDup (before.*2)) as Hnd by (rewrite Et, fmap_app in Ha; by apply NoDup_app in Ha as [? _]).
  assert (WF before q2) as HW2.
  { assert ((timers_ q).*2 ≡ₚ (after ++ before).*2) as HP by (rewrite Et; by rewrite (Permutation_app_comm before)).
    subst q2 q1 q0. split; simpl; try done.
    - rewrite Et in Hs. by apply sorted_app_r in Hs.
    - intros e Hin. apply He. rewrite Et. set_solver.
    - intros e Hin. destruct (He e) as (t & Ht & _); [rewrite Et; set_solver|]. eauto.
    - by rewrite <- HP.
    - intros a Hin. rewrite <- HP. auto. }
  exists before, after, q2. split; [done|]. split; [|split; [exact HW2|]].
  - rewrite (bind_Ok _ _ q0 tt q0).
    2:{ apply assert_Ok. destruct after as [|e after']; [done|]. apply Z.ltb_lt, Haft. left. }
    rewrite (bind_Ok _ _ q0 tt (set_expired before q0)), (bind_Ok _ _ _ tt q1) by done.
    rewrite (bind_Ok _ _ q1 tt q2).
    + exact (WF_assert_sizes _ _ HW2).
    + rewrite erase_actives_spec; [|done|].
      * subst q2. simpl. rewrite Hact, Et. by rewrite list_to_set_difference by (by rewrite <- Et).
      * intros e Hin. simpl. assert (e ∈ timers_ q) as Hin' by (rewrite Et; set_solver).
        destruct (He e Hin') as (t & Ht & _). split; [eauto|]. by apply (active_akey [] q).
  - split_and!; try done. intros e Hin. specialize (Hb e Hin). unfold lt_entry in Hb. simpl in Hb. lia.
Qed.

(** * Reset *)

(** What [reset] decides for an expired timer. *)
Definition rearmed (q : TimerQueue) (e : Entry) (t : Timer) : bool :=
  repeat_ t && bool_decide ((e.2, s32 (sequence_ t)) ∉ cancelingTimers_ q).

Lemma restart_spec now t :
  0 < now < 2 ^ 61 -> sane t -> repeat_ t = true ->
  ∃ e, restart now t = Ok (mkTimer (callback_ t) e (interval_ t) (repeat_ t) (sequence_ t)) ∧
    addTime now (interval_ t) = Ok e ∧ now <= e < 2 ^ 62.
Proof.
  intros Hn (_ & Hrep & Hi) Ht. destruct (Hi ltac:(congruence)) as (d & Ed & Hd).
  exists (now + d). unfold restart, addTime, int64, microSecondsSinceEpoch. rewrite Ht, Ed.
  rewrite (proj2 (Z.leb_le _ _)), (proj2 (Z.ltb_lt _ _)) by lia. split; [done|]. split; [done|]. lia.
Qed.

Lemma WF_update x a live q t' :
  WF ((x, a) :: live) q -> sane t' -> WF ((x, a) :: live) (set_heap (<[a := t']> (heap q)) q).
Proof.
  intros HW Hsane. pose proof HW as [Hl Hc Hs He Hv Ha Hh Hr Hsn Hact].
  assert (∀ e, e ∈ timers_ q -> a ≠ e.2) as Hne.
  { intros e Hin ->. eapply addr_disjoint; [exact Ha|apply elem_addr, Hin|]. simpl. left. }
  assert (∀ b, is_Some (<[a := t']> (heap q) !! b) -> is_Some (heap q !! b)) as Hsub.
  { intros b Hb. destruct (decide (a = b)) as [<-|]; [apply (Hv (x, a)); left|].
    by rewrite lookup_insert_ne in Hb. }
  split; simpl; try done; auto.
  - intros e Hin. rewrite lookup_insert_ne by auto. auto.
  - intros e Hin. destruct (decide (a = e.2)) as [<-|]; [rewrite lookup_insert_eq; eauto|].
    rewrite lookup_insert_ne by done. auto.
  - intros b t Hb. destruct (decide (a = b)) as [<-|].
    + rewrite lookup_insert_eq in Hb. by injection Hb as <-.
    + rewrite lookup_insert_ne in Hb by done. eauto.
  - rewrite Hact. f_equal. symmetry. apply akey_ext. intros e Hin. apply lookup_insert_ne. auto.
Qed.

(** One entry: restarted and registered again, or freed. *)
Lemma reset_entry_spec now e live q t :
  WF (e :: live) q -> heap q !! e.2 = Some t -> 0 < now < 2 ^ 61 ->
  ∃ q', reset_entry now e q = Ok (tt, q') ∧ WF live q' ∧ frame q' = frame q ∧ timerfd_ q' = timerfd_ q ∧
    cancelingTimers_ q' = cancelingTimers_ q ∧ (∀ a, a ≠ e.2 -> heap q' !! a = heap q !! a) ∧
    if rearmed q e t then
      ∃ when, addTime now (interval_ t) = Ok when ∧ 0 < when ∧ timers_ q' ≡ₚ (when, e.2) :: timers_ q ∧
        heap q' !! e.2 = Some (mkTimer (callback_ t) when (interval_ t) (repeat_ t) (sequence_ t))
    else timers_ q' = timers_ q ∧ heap q' !! e.2 = None.
Proof.
  intros HW Ht Hnow. destruct e as [x a]; simpl in *. unfold reset_entry.
  rewrite (bind_Ok _ _ _ _ _ (deref_timer_Ok _ _ _ Ht)), (bind_Ok _ _ q q q) by done.
  pose proof (wf_sane _ _ HW a t Ht) as Hsane. fold (rearmed q (x, a) t).
  destruct (rearmed q (x, a) t) eqn:Er.
  - apply andb_true_iff in Er as [Hrep _]. destruct (restart_spec now t Hnow Hsane Hrep) as (w & -> & Hw & Hwb).
    set (t' := mkTimer _ _ _ _ _).
    assert (sane t') as Hsane' by (destruct Hsane as (_ & ? & ?); split; [unfold sane_time; simpl; lia|done]).
    pose proof (WF_update x a live q t' HW Hsane') as HW1.
    set (q1 := set_heap (<[a := t']> (heap q)) q) in *.
    assert (heap q1 !! a = Some t') as Ht' by (simpl; by rewrite lookup_insert_eq).
    destruct (insert_spec x a live q1 t' HW1 Ht') as (q2 & E2 & HW2 & HP2 & Hf2 & Hh2 & Hfd2 & Hcc2).
    exists q2. rewrite (bind_Ok _ _ q tt q1), (bind_Ok _ _ _ _ _ E2) by done. simpl in *.
    split_and!; try done.
    + intros b Hb. rewrite Hh2. simpl. by rewrite lookup_insert_ne.
    + exists w. split_and!; [done|lia|done|by rewrite Hh2].
  - destruct (delete_timer_spec x a live q HW) as [E HW1]. eexists. split; [exact E|].
    split_and!; try done; simpl.
    + intros b Hb. by rewrite lookup_delete_ne.
    + by rewrite lookup_delete_eq.
Qed.

(** [lia] that sees through [Timestamp]. *)
Ltac tlia := unfold Timestamp in *; lia.

(** What becomes of an expired timer. *)
Definition fate (now : Timestamp) (q q' : TimerQueue) (e : Entry) (t : Timer) : Prop :=
  if rearmed q e t then
    ∃ when, addTime now (interval_ t) = Ok when ∧ (when, e.2) ∈ timers_ q' ∧
      heap q' !! e.2 = Some (mkTimer (callback_ t) when (interval_ t) (repeat_ t) (sequence_ t))
  else heap q' !! e.2 = None.

Lemma reset_entries_spec now live q :
  WF live q -> 0 < now < 2 ^ 61 ->
  ∃ q', mapM_ (reset_entry now) live q = Ok (tt, q') ∧ WF [] q' ∧ frame q' = frame q ∧
    timerfd_ q' = timerfd_ q ∧ cancelingTimers_ q' = cancelingTimers_ q ∧
    (∀ a, a ∉ live.*2 -> heap q' !! a = heap q !! a) ∧
    (∀ e, e ∈ timers_ q -> e ∈ timers_ q') ∧ (∀ e, e ∈ timers_ q' -> e ∈ timers_ q ∨ 0 < e.1) ∧
    ∀ e t, e ∈ live -> heap q !! e.2 = Some t -> fate now q q' e t.
Proof.
  revert q; induction live as [|e live IH]; intros q HW Hnow; cbn [mapM_].
  { exists q. split_and!; try done; auto; set_solver. }
  destruct (wf_live _ _ HW e ltac:(left)) as [t Ht].
  destruct (reset_entry_spec now e live q t HW Ht Hnow) as (q1 & E1 & HW1 & Hf1 & Hfd1 & Hc1 & Hh1 & Hcase).
  rewrite (bind_Ok _ _ _ _ _ E1).
  destruct (IH q1 HW1 Hnow) as (q2 & E2 & HW2 & Hf2 & Hfd2 & Hc2 & Hh2 & Hsub2 & Hnew2 & Hfate2).
  assert (e.2 ∉ live.*2 ∧ NoDup (live.*2)) as [Hn Hnd].
  { pose proof (wf_addr _ _ HW) as H. rewrite fmap_app in H. apply NoDup_app in H as (_ & _ & H).
    by apply NoDup_cons in H. }
  assert (∀ x, x ∈ timers_ q1 <-> x ∈ timers_ q ∨ rearmed q e t = true ∧ x ∈ timers_ q1 ∧ x.2 = e.2) as Ht1.
  { intros x. destruct (rearmed q e t).
    - destruct Hcase as (w & _ & _ & HP & _). rewrite HP, elem_of_cons. set_solver.
    - destruct Hcase as [-> _]. naive_solver. }
  exists q2. split_and!; try congruence.
  - intros a [Ha1 Ha2]%not_elem_of_cons. rewrite Hh2, Hh1 by done. done.
  - intros x Hx. apply Hsub2, Ht1. by left.
  - intros x [Hx|Hx]%Hnew2; [|by right]. destruct (rearmed q e t).
    + destruct Hcase as (w & _ & Hw & HP & _). rewrite HP in Hx.
      apply elem_of_cons in Hx as [->|Hx]; [by right|by left].
    + destruct Hcase as [Htq _]. left. by rewrite <- Htq.
  - intros x tx [->|Hx]%elem_of_cons Htx.
    + rewrite Ht in Htx. injection Htx as <-. unfold fate. destruct (rearmed q e t).
      * destruct Hcase as (w & Hw & _ & HP & Hhe). exists w. split_and!; [done| |by rewrite Hh2].
        apply Hsub2. rewrite HP. left.
      * destruct Hcase as [_ Hhe]. by rewrite Hh2.
    + assert (x.2 ≠ e.2) as Hne by (intros Heq; apply Hn; rewrite <- Heq; by apply elem_addr).
      specialize (Hfate2 x tx Hx ltac:(by rewrite Hh1)). unfold fate, rearmed in *. by rewrite Hc1 in Hfate2.
Qed.

Definition not_after_epoch (e : Entry) : Prop := e.1 <= 0.
Definition anytime (e : Entry) : Prop := True.

Lemma downward_not_after_epoch : downward not_after_epoch.
Proof. intros x y H Hy. unfold not_after_epoch in *. lia. Qed.

Lemma downward_anytime : downward anytime.
Proof. done. Qed.

(** [reset] leaves every timer with a wake-up. *)
Lemma reset_spec now live q :
  WF live q -> expired_ q = live -> 0 < now < 2 ^ 61 -> armed not_after_epoch q ->
  ∃ q', reset now q = Ok (tt, q') ∧ WF [] q' ∧ frame q' = frame q ∧ armed anytime q' ∧
    cancelingTimers_ q' = cancelingTimers_ q ∧
    (∀ a, a ∉ live.*2 -> heap q' !! a = heap q !! a) ∧
    (∀ e, e ∈ timers_ q -> e ∈ timers_ q') ∧
    ∀ e t, e ∈ live -> heap q !! e.2 = Some t -> fate now q q' e t.
Proof.
  intros HW Hx Hnow Harm. unfold reset. rewrite (bind_Ok _ _ q q q) by done. rewrite Hx.
  destruct (reset_entries_spec now live q HW Hnow)
    as (q1 & E1 & HW1 & Hf1 & Hfd1 & Hc1 & Hh1 & Hsub1 & Hnew1 & Hfate1).
  rewrite (bind_Ok _ _ _ _ _ E1), (bind_Ok _ _ q1 q1 q1) by done.
  assert (clock q1 = clock q) as Hck by (by injection Hf1).
  destruct (timers_ q1) as [|e l] eqn:El.
  { exists q1. rewrite (bind_Ok _ _ q1 0 q1) by done. split_and!; try done.
    - intros x Hin. rewrite El in Hin. set_solver.
    - intros x Hin. try rewrite El. auto. }
  destruct (wf_exp _ _ HW1 e) as (t & Ht & Hexp); [rewrite El; left|].
  rewrite (bind_Ok _ _ q1 (expiration_ t) q1) by (by rewrite (bind_Ok _ _ _ _ _ (deref_timer_Ok _ _ _ Ht))).
  unfold valid, when. rewrite Hexp.
  match goal with |- context [if ?b then resetTimerfd _ else _] => destruct b eqn:Hb end;
    [apply Z.ltb_lt in Hb|apply Z.ltb_ge in Hb].
  - pose proof (wf_sane _ _ HW1 _ _ Ht) as (Hs & _). rewrite Hexp in Hs.
    rewrite resetTimerfd_spec by (done || apply HW1).
    eexists. split; [reflexivity|].
    split_and!; try done; [by destruct HW1; split| |intros x Hin; simpl; try rewrite El; auto].
    intros x Hin _. simpl in *. eexists. split; [reflexivity|].
    pose proof (wf_sorted _ _ HW1) as Hsort. rewrite El in Hsort, Hin. pose proof (sorted_head _ _ _ Hsort Hin). tlia.
  - exists q1. split_and!; try done; [|intros x Hin; try rewrite El; auto].
    intros x Hin _. assert (e ∈ timers_ q ∨ 0 < e.1) as [He|He] by (apply Hnew1; left); [|tlia].
    destruct (Harm e He Hb) as (w & Hw & Hle). exists w. split; [by rewrite Hfd1|].
    rewrite Hck. pose proof (wf_clock _ _ HW) as Hckb. tlia.
Qed.

Section handle.
Context (malloc : gmap Z Timer -> Z) (body : nat -> TimerQueue -> list Action).
Context (malloc_fresh : ∀ h, h !! malloc h = None).
Context (malloc_range : ∀ h, malloc h ≠ NULL ∧ malloc h < UINTPTR_MAX).
Context (body_sane : ∀ cb q x, x ∈ body cb q -> sane_action x).

Lemma readTimerfd_spec q :
  ∃ fd, readTimerfd q = Ok (tt, set_timerfd fd q) ∧
    ∀ w, fd = Some w -> timerfd_ q = Some w ∧ clock q < w.
Proof.
  unfold readTimerfd. msimp. destruct (timerfd_ q) as [w|] eqn:E.
  - destruct (Z.leb_spec w (clock q)); [by exists None|]. exists (Some w). split; [by destruct q; simpl in *; subst|].
    intros w' [= <-]. done.
  - exists None. by split; [destruct q; simpl in *; subst|].
Qed.

(** The handler's two halves: what has expired is run, from a state in which nothing else has
    changed; then [reset]. *)
Lemma handleRead_steps q poll :
  WF [] q -> 0 <= poll ->
  ∃ before after q2 q3, handleRead malloc body poll q = reset (clock q) (set_calling false q3) ∧
    timers_ q = before ++ after ∧ (∀ e, e ∈ before -> e.1 <= poll) ∧ (∀ e, e ∈ after -> poll < e.1) ∧
    WF before q2 ∧ armed not_after_epoch q2 ∧ timers_ q2 = after ∧ heap q2 = heap q ∧
    (∀ w, timerfd_ q2 = Some w -> timerfd_ q = Some w ∧ clock q < w) ∧
    clock q2 = clock q ∧ mapM_ (run_entry malloc body) before q2 = Ok (tt, q3) ∧
    WF before q3 ∧ armed not_after_epoch q3 ∧ expired_ q3 = before ∧ clock q3 = clock q ∧
    (∀ e, e ∈ before -> heap q3 !! e.2 = heap q !! e.2) ∧
    ran q3 = ran q ++ callbacks_of (heap q) before.
Proof.
  intros HW Hpoll.
  unfold handleRead. rewrite (bind_Ok _ _ _ _ _ (WF_assertInLoop _ _ HW)), (bind_Ok _ _ q q q) by done.
  destruct (readTimerfd_spec q) as (fd & E0 & Hfd). set (q0 := set_timerfd fd q) in *.
  rewrite (bind_Ok _ _ _ _ _ E0).
  assert (WF [] q0) as HW0 by (destruct HW; by split).
  destruct (getExpired_spec q0 poll HW0)
    as (before & after & q1 & Et & E1 & HW1 & Hb & Ha & Hx1 & Ht1 & Hh1 & Hc1 & Hr1 & Hfd1).
  rewrite (bind_Ok _ _ _ _ _ E1).
  set (q2 := set_canceling ∅ (set_calling true q1)).
  rewrite (bind_Ok _ _ q1 tt (set_calling true q1)), (bind_Ok _ _ _ tt q2), (bind_Ok _ _ q2 q2 q2) by done.
  assert (WF before q2) as HW2 by (destruct HW1; by split).
  change (expired_ q2) with (expired_ q1). rewrite Hx1.
  assert (armed not_after_epoch q2) as Harm2.
  { intros e Hin Hle. change (timers_ q2) with (timers_ q1) in Hin. rewrite Ht1 in Hin.
    specialize (Ha e Hin). unfold not_after_epoch in Hle. lia. }
  destruct (run_entries_spec malloc body malloc_fresh malloc_range body_sane not_after_epoch before before q2)
    as (q3 & E3 & HW3 & Harm3 & Hx3 & Hc3 & Hh3 & Hr3); [apply downward_not_after_epoch|done..|].
  rewrite (bind_Ok _ _ _ _ _ E3), (bind_Ok _ _ q3 tt (set_calling false q3)) by done.
  exists before, after, q2, q3. split_and!; try done.
  - intros w Hw. apply Hfd. exact (eq_trans (eq_sym Hfd1) Hw).
  - by rewrite Hx3.
  - by rewrite Hc3.
  - intros e Hin. rewrite Hh3 by done. simpl. by rewrite Hh1.
  - rewrite Hr3. simpl. by rewrite Hr1, Hh1.
Qed.

(** The whole handler: what had expired is run in order, once, and then restarted or
    freed; everything that is left has a wake-up. *)
Lemma handleRead_spec q poll :
  WF [] q -> 0 <= poll ->
  ∃ before after q', handleRead malloc body poll q = Ok (tt, q') ∧ WF [] q' ∧ armed anytime q' ∧
    timers_ q = before ++ after ∧ (∀ e, e ∈ before -> e.1 <= poll) ∧ (∀ e, e ∈ after -> poll < e.1) ∧
    clock q' = clock q ∧ callingExpiredTimers_ q' = false ∧
    ran q' = ran q ++ callbacks_of (heap q) before ∧
    ∀ e t, e ∈ before -> heap q !! e.2 = Some t ->
      if repeat_ t && bool_decide ((e.2, s32 (sequence_ t)) ∉ cancelingTimers_ q') then
        ∃ when, addTime (clock q) (interval_ t) = Ok when ∧ (when, e.2) ∈ timers_ q' ∧
          heap q' !! e.2 = Some (mkTimer (callback_ t) when (interval_ t) (repeat_ t) (sequence_ t))
      else heap q' !! e.2 = None.
Proof.
  intros HW Hpoll. pose proof (wf_clock _ _ HW) as Hck.
  destruct (handleRead_steps q poll HW Hpoll)
    as (before & after & q2 & q3 & -> & Et & Hb & Ha & _ & _ & _ & _ & _ & _ & _ & HW3 & Harm3 & Hx3 & Hc3 & Hh3 & Hr3).
  set (q4 := set_calling false q3).
  assert (WF before q4) as HW4 by (destruct HW3; by split).
  destruct (reset_spec (clock q) before q4) as (q5 & E5 & HW5 & Hf5 & Harm5 & Hcc5 & _ & _ & Hfate5); [done..|].
  exists before, after, q5. injection Hf5 as _ Hcall _ Hck5 Hran5. simpl in *.
  split_and!; try done; try congruence.
  intros e t Hin Ht. specialize (Hfate5 e t Hin). unfold fate, rearmed in Hfate5. simpl in Hfate5.
  rewrite Hh3 in Hfate5 by done. specialize (Hfate5 Ht). by rewrite Hcc5.
Qed.
End handle.
