(* ===== verification/TimerProps.v ===== *)
(** What the timer queue promises: no sequence of calls makes it touch a freed
    timer, expired timers run once and in order, and no wake-up is lost. *)
From Stdlib Require Import Floats.SpecFloat.
From S2P Require Import Prelude Timestamp Thread TimerQueue TimerInv.
Open Scope list_scope.

(** A sequence of calls in which the clock does not run backwards. *)
Fixpoint ordered (now : Timestamp) (os : list Op) : Prop :=
  match os with
  | [] => True
  | OAction x :: os' => sane_action x ∧ ordered now os'
  | OHandleRead poll :: os' => 0 <= poll ∧ ordered now os'
  | OClock now' :: os' => now <= now' < 2 ^ 61 ∧ ordered now' os'
  end.

Lemma WF_new created now : 0 < now < 2 ^ 61 -> WF [] (new_TimerQueue created now).
Proof.
  intros H. split; simpl; try done.
  - constructor.
  - set_solver.
  - set_solver.
  - constructor.
  - intros a [t Ht]. by rewrite lookup_empty in Ht.
  - intros a [t Ht]. by rewrite lookup_empty in Ht.
Qed.

Section queue.
Context (malloc : gmap Z Timer -> Z) (body : nat -> TimerQueue -> list Action).
Context (malloc_fresh : ∀ h, h !! malloc h = None).
Context (malloc_range : ∀ h, malloc h ≠ NULL ∧ malloc h < UINTPTR_MAX).
Context (body_sane : ∀ cb q x, x ∈ body cb q -> sane_action x).

(** The state between two calls. *)
Definition idle (q : TimerQueue) : Prop :=
  WF [] q ∧ armed anytime q ∧ callingExpiredTimers_ q = false.

Lemma do_op_idle o q now :
  idle q -> clock q = now -> ordered now [o] ->
  ∃ q', do_op malloc body o q = Ok (tt, q') ∧ idle q' ∧
    clock q' = match o with OClock t => t | _ => now end.
Proof.
  intros (HW & Harm & Hcall) Hnow Ho. destruct o as [x|poll|t]; simpl in *.
  - destruct (do_action_spec malloc malloc_fresh malloc_range anytime [] q q x) as (q' & E & HW' & Harm' & Hf & _);
      [apply downward_anytime|apply Ho|split; [exact HW|by split_and!]|].
    injection Hf as _ Hcall' _ Hck _. exists q'. rewrite Hck. unfold idle. rewrite Hcall'. by split_and!.
  - destruct (handleRead_spec malloc body malloc_fresh malloc_range body_sane q poll HW ltac:(apply Ho))
      as (b & a & q' & E & HW' & Harm' & _ & _ & _ & Hck & Hcall' & _).
    exists q'. rewrite Hck. unfold idle. by split_and!.
  - exists (set_clock t q). split; [done|]. split; [|done]. split_and!; [| |done].
    + pose proof (wf_clock _ _ HW). destruct HW; split; simpl; try done. tlia.
    + intros e He _. destruct (Harm e He I) as (w & Hw & Hle). exists w. split; [done|].
      simpl. tlia.
Qed.

Lemma run_ops_idle os q now :
  idle q -> clock q = now -> ordered now os ->
  ∃ q', mapM_ (do_op malloc body) os q = Ok (tt, q') ∧ idle q'.
Proof.
  revert q now; induction os as [|o os IH]; intros q now HI Hck Ho; cbn [mapM_]; [eauto|].
  destruct (do_op_idle o q now HI Hck) as (q1 & E & HI1 & Hck1).
  { destruct o; simpl in *; tauto. }
  rewrite (bind_Ok _ _ _ _ _ E). eapply IH; [done|exact Hck1|]. destruct o; simpl in *; tauto.
Qed.

(** C2: the timer queue is memory safe and loses no timer: every sequence of
    [addTimer], [cancel] (of any id, valid or stale, also from inside callbacks) and
    [handleRead] calls, whatever the callbacks do, runs without a failed assertion or
    an access to a freed [Timer]; after it [timers_] and [activeTimers_] hold the same
    timers, in order, exactly those are allocated, and the timerfd is set to expire by
    the expiration of every one of them (or 100 microseconds from now). *)
Theorem TimerQueue_safe created now os :
  0 < now < 2 ^ 61 -> ordered now os ->
  ∃ q, mapM_ (do_op malloc body) os (new_TimerQueue created now) = Ok (tt, q) ∧
    sorted (timers_ q) ∧ NoDup ((timers_ q).*2) ∧
    activeTimers_ q = list_to_set (akey (heap q) <$> timers_ q) ∧
    (∀ a, is_Some (heap q !! a) <-> a ∈ (timers_ q).*2) ∧
    (∀ e, e ∈ timers_ q -> ∃ t, heap q !! e.2 = Some t ∧ expiration_ t = e.1) ∧
    (∀ e, e ∈ timers_ q -> ∃ w, timerfd_ q = Some w ∧ w <= Z.max e.1 (clock q + 100)).
Proof.
  intros Hnow Ho. destruct (run_ops_idle os (new_TimerQueue created now) now) as (q & E & HW & Harm & _); [|done|done|].
  { split; [by apply WF_new|]. split; [|done]. intros e He. simpl in He. set_solver. }
  exists q. split; [done|]. split; [apply HW|]. split; [by eapply WF_addr_timers|]. split; [apply HW|].
  split; [|split; [apply HW|]].
  - intros a. split.
    + intros Ha. pose proof (wf_heap _ _ HW a Ha) as H. by rewrite app_nil_r in H.
    + intros ((ts & b) & Hb & Hin)%list_elem_of_fmap. simpl in Hb. subst b.
      destruct (wf_exp _ _ HW _ Hin) as (t & Ht & _). eauto.
  - intros e He. by apply Harm.
Qed.

(** C18: one expiry: [handleRead] runs the callbacks of exactly the timers whose
    expiration has come, each once, ordered by expiration; then a repeating timer that
    was not cancelled meanwhile is due its interval after now, and any other of them is
    freed. *)
Theorem handleRead_runs_expired q poll :
  idle q -> 0 <= poll ->
  ∃ before after q', handleRead malloc body poll q = Ok (tt, q') ∧ idle q' ∧
    timers_ q = before ++ after ∧ (∀ e, e ∈ before -> e.1 <= poll) ∧ (∀ e, e ∈ after -> poll < e.1) ∧
    ran q' = ran q ++ callbacks_of (heap q) before ∧
    ∀ e t, e ∈ before -> heap q !! e.2 = Some t ->
      if repeat_ t && bool_decide ((e.2, s32 (sequence_ t)) ∉ cancelingTimers_ q') then
        ∃ when, addTime (clock q) (interval_ t) = Ok when ∧ (when, e.2) ∈ timers_ q' ∧
          heap q' !! e.2 = Some (mkTimer (callback_ t) when (interval_ t) (repeat_ t) (sequence_ t))
      else heap q' !! e.2 = None.
Proof.
  intros (HW & _) Hpoll.
  destruct (handleRead_spec malloc body malloc_fresh malloc_range body_sane q poll HW Hpoll)
    as (b & a & q' & E & HW' & Harm' & Et & Hb & Ha & _ & Hcall & Hran & Hfate).
  exists b, a, q'. by split_and!.
Qed.

(** Cancelling takes effect at once and on the right timer only: an id that is
    active is removed from both sets and its timer freed, every other timer stays; an
    id that is not - never valid, already cancelled, or of a timer that has run - is
    ignored. *)
Theorem cancel_exact q id :
  idle q ->
  ∃ q', cancel id q = Ok (tt, q') ∧ idle q' ∧ id_key id ∉ activeTimers_ q' ∧
    (∀ e, e ∈ timers_ q' <-> e ∈ timers_ q ∧ akey (heap q) e ≠ id_key id) ∧ ran q' = ran q ∧
    if bool_decide (id_key id ∈ activeTimers_ q)
    then heap q' = delete (timer_ id) (heap q) else heap q' = heap q ∧ timers_ q' = timers_ q.
Proof.
  intros (HW & Harm & Hcall).
  destruct (cancelInLoop_spec [] q id HW) as (q' & E & HW' & Hf & Hfd & Hn & Ht & Hcase).
  injection Hf as _ Hc' _ Hck Hran. exists q'. split; [done|]. split.
  { split; [done|]. split; [|congruence]. eapply armed_subset; [exact Harm| |done|done].
    intros e He. by apply Ht. }
  split; [done|]. split; [done|]. split; [done|]. case_bool_decide; by destruct_and?.
Qed.

(** Called from another thread, [addTimer] can read a freed timer: it takes the
    sequence number out of the [Timer] after handing it to the loop, and if the loop
    meanwhile adds a one-shot timer and handles its expiry, the object is gone. *)
Theorem addTimer_race q cb when i poll :
  idle q -> sane_time when -> sane_interval i -> SFltb (double_of_Z 0) i = false ->
  when <= poll -> 0 <= poll ->
  addTimer_with malloc (λ a, addTimerInLoop a ;; handleRead malloc body poll) cb when i q = Fault UB.
Proof.
  intros (HW & Harm & _) Hw Hi Hone Hle Hpoll.
  destruct (alloc_timer_spec malloc malloc_fresh malloc_range [] q cb when i HW Hw Hi)
    as (q1 & t & E1 & HW1 & Hh1 & Hexp & _ & Hrep & _ & _ & Hf1 & Ht1 & Hfd1 & _).
  set (a := malloc (heap q)) in *.
  assert (heap q1 !! a = Some t) as Ha by (by rewrite Hh1, lookup_insert_eq).
  destruct (addTimerInLoop_spec anytime when a [] q1 t HW1 Ha downward_anytime)
    as (q2 & E2 & HW2 & _ & HP2 & _ & Hh2 & _).
  { eapply armed_subset; [exact Harm|by rewrite Ht1|done|by injection Hf1]. }
  destruct (handleRead_spec malloc body malloc_fresh malloc_range body_sane q2 poll HW2 Hpoll)
    as (b & af & q3 & E3 & _ & _ & Et & _ & Haf & _ & _ & _ & Hfate).
  assert ((when, a) ∈ b) as Hin.
  { assert ((when, a) ∈ timers_ q2) as H by (rewrite HP2, Hexp; left).
    rewrite Et in H. apply elem_of_app in H as [|H]; [done|]. specialize (Haf _ H). simpl in Haf. tlia. }
  specialize (Hfate (when, a) t Hin ltac:(by rewrite Hh2)). rewrite Hrep, Hone in Hfate. simpl in Hfate.
  unfold addTimer_with. rewrite (bind_Ok _ _ _ _ _ E1).
  rewrite (bind_Ok _ _ q1 tt q3) by (by rewrite (bind_Ok _ _ _ _ _ E2)).
  unfold deref. msimp. by rewrite Hfate.
Qed.
End queue.

(** * A concrete queue *)

(** Addresses are handed out downwards. *)
Definition malloc_down (h : gmap Z Timer) : Z := foldr Z.min 0 (fst <$> map_to_list h) - 1.

Lemma malloc_down_fresh h : h !! malloc_down h = None.
Proof.
  destruct (h !! malloc_down h) as [t|] eqn:E; [|done]. exfalso.
  assert (∀ l a, a ∈ l -> foldr Z.min 0 l <= a) as Hmin.
  { induction l as [|x l IH]; intros a Ha; [set_solver|]. simpl.
    apply elem_of_cons in Ha as [->|Ha]; [lia|]. specialize (IH a Ha). lia. }
  assert (malloc_down h ∈ fst <$> map_to_list h) as Hin.
  { apply list_elem_of_fmap. exists (malloc_down h, t). split; [done|]. by apply elem_of_map_to_list. }
  specialize (Hmin _ _ Hin). unfold malloc_down in Hmin. lia.
Qed.

Lemma malloc_down_range h : malloc_down h ≠ NULL ∧ malloc_down h < UINTPTR_MAX.
Proof.
  assert (∀ l, foldr Z.min 0 l <= 0) as Hmin by (induction l; simpl; lia).
  unfold malloc_down, NULL, UINTPTR_MAX. specialize (Hmin (fst <$> map_to_list h)). lia.
Qed.

Lemma sane_second : sane_interval (double_of_Z 1).
Proof. intros _. exists 1000000. split; [reflexivity|lia]. Qed.

Lemma sane_once : sane_interval (double_of_Z 0).
Proof. intros H. discriminate H. Qed.

(** Two repeating timers, one of which cancels itself when it runs. *)
Definition sample_ops : list Op :=
  [OAction (AddTimer 1 2000000 (double_of_Z 1)); OAction (AddTimer 0 1500000 (double_of_Z 1));
   OClock 2000100; OHandleRead 2000000; OAction (Cancel (mkTimerId (-1) 1)); OClock 3000200;
   OHandleRead 3000100].

Lemma sample_ordered : ordered 1000000 sample_ops.
Proof.
  pose proof sane_second. simpl. unfold sane_time. repeat split; try done; vm_compute; congruence.
Qed.

(** Callback 1 cancels the first timer. *)
Definition calm_body (cb : nat) (q : TimerQueue) : list Action :=
  match cb with 1%nat => [Cancel (mkTimerId (-1) 1)] | _ => [] end.

Lemma calm_body_sane cb q x : x ∈ calm_body cb q -> sane_action x.
Proof. destruct cb as [|[|cb]]; simpl; try set_solver.  Qed.

Lemma TimerQueue_safe_witness :
  ∃ q, mapM_ (do_op malloc_down calm_body) sample_ops (new_TimerQueue 0 1000000) = Ok (tt, q) ∧
    sorted (timers_ q) ∧ ran q = [0; 1; 0]%nat ∧ timers_ q = [(4000200, -2)].
Proof.
  destruct (TimerQueue_safe malloc_down calm_body malloc_down_fresh malloc_down_range calm_body_sane
              0 1000000 sample_ops) as (q & E & Hs & _); [lia|apply sample_ordered|].
  exists q. split; [exact E|]. split; [exact Hs|].
  assert (match mapM_ (do_op malloc_down calm_body) sample_ops (new_TimerQueue 0 1000000) with
          | Ok (_, q') => ran q' = [0; 1; 0]%nat ∧ timers_ q' = [(4000200, -2)]
          | Fault _ => False end) as H by (vm_compute; split; reflexivity).
  rewrite E in H. exact H.
Defined.

(** A queue with two timers of which one has expired at 2000000. *)
Definition sample_queue : res (unit * TimerQueue) :=
  mapM_ (do_op malloc_down calm_body)
    [OAction (AddTimer 1 2000000 (double_of_Z 1)); OAction (AddTimer 0 9000000 (double_of_Z 0));
     OClock 2000100] (new_TimerQueue 0 1000000).

Lemma sample_idle : ∃ q, sample_queue = Ok (tt, q) ∧ idle q ∧ timers_ q = [(2000000, -1); (9000000, -2)].
Proof.
  destruct (run_ops_idle malloc_down calm_body malloc_down_fresh malloc_down_range calm_body_sane
    [OAction (AddTimer 1 2000000 (double_of_Z 1)); OAction (AddTimer 0 9000000 (double_of_Z 0));
     OClock 2000100] (new_TimerQueue 0 1000000) 1000000) as (q & E & HI).
  - split; [apply WF_new; lia|]. split; [|done]. intros e He. simpl in He. set_solver.
  - done.
  - pose proof sane_second. pose proof sane_once. simpl. unfold sane_time.
    repeat split; try done; vm_compute; congruence.
  - exists q. split; [exact E|]. split; [exact HI|].
    assert (match sample_queue with
            | Ok (_, q') => timers_ q' = [(2000000, -1); (9000000, -2)]
            | Fault _ => False end) as H by (vm_compute; reflexivity).
    unfold sample_queue in H. rewrite E in H. exact H.
Qed.

Lemma handleRead_runs_expired_witness :
  ∃ q before after q', sample_queue = Ok (tt, q) ∧ handleRead malloc_down calm_body 2000000 q = Ok (tt, q') ∧
    timers_ q = before ++ after ∧ ran q' = ran q ++ callbacks_of (heap q) before.
Proof.
  destruct sample_idle as (q & E & HI & _).
  destruct (handleRead_runs_expired malloc_down calm_body malloc_down_fresh malloc_down_range calm_body_sane
              q 2000000 HI) as (b & a & q' & E' & _ & Et & _ & _ & Hr & _); [lia|].
  exists q, b, a, q'. split; [exact E|]. split; [exact E'|]. split; [exact Et|exact Hr].
Defined.

Lemma cancel_exact_witness :
  ∃ q q', sample_queue = Ok (tt, q) ∧ cancel (mkTimerId (-1) 1) q = Ok (tt, q') ∧
    (9000000, -2) ∈ timers_ q' ∧ (-1, 1) ∉ activeTimers_ q'.
Proof.
  destruct sample_idle as (q & E & HI & Ht).
  destruct (cancel_exact q (mkTimerId (-1) 1) HI) as (q' & E' & _ & Hn & Hin & _).
  exists q, q'. split; [exact E|]. split; [exact E'|]. split; [|exact Hn].
  apply Hin. rewrite Ht. split; [by right; left|]. unfold akey, id_key. simpl. intros Heq. discriminate Heq.
Defined.

Lemma addTimer_race_witness :
  ∃ q, sample_queue = Ok (tt, q) ∧
    addTimer_with malloc_down (λ a, addTimerInLoop a ;; handleRead malloc_down calm_body 2000100)
      0 2000050 (double_of_Z 0) q = Fault UB.
Proof.
  destruct sample_idle as (q & E & HI & _). exists q. split; [exact E|].
  apply (addTimer_race malloc_down calm_body malloc_down_fresh malloc_down_range calm_body_sane);
    [exact HI|unfold sane_time; lia|apply sane_once|reflexivity|unfold Timestamp; lia|lia].
Defined.
