(* ===== verification/TimerLiveness.v ===== *)
(** Timers run: the timer queue together with its timerfd.  A timer that is registered and not
    cancelled is run by the first wake-up that comes at its expiration or later, never by an
    earlier one, and the wake-ups before it are few. *)
From Stdlib Require Import Floats.SpecFloat.
From S2P Require Import Prelude Timestamp Thread TimerQueue TimerInv TimerProps.
Open Scope list_scope.

(** * When the timerfd fires *)

(** The timerfd was set at [c] or later: it fires 100 microseconds after [c] at the earliest. *)
Definition late (c : Timestamp) (q : TimerQueue) : Prop :=
  c <= clock q ∧ ∀ w, timerfd_ q = Some w -> c + 100 <= w.

(** The 100 microseconds of [howMuchTimeFromNow], whatever the expiration. *)
Lemma howMuchTimeFromNow_late now when ts :
  howMuchTimeFromNow now when = Ok ts -> now + 100 <= wake_time now ts.
Proof.
  unfold howMuchTimeFromNow, int64. case_match eqn:H; [|done]. case_match eqn:H1; simplify_eq.
  injection 1 as <-. unfold wake_time. cbn [tv_sec tv_nsec].
  set (d := if _ <? 100 then _ else _).
  assert (100 <= d) as Hd by (subst d; case_match; lia). clearbody d.
  unfold kMicroSecondsPerSecond in *. change (1000 * 1000) with 1000000 in *.
  rewrite Z.quot_div_nonneg, Z.rem_mod_nonneg by lia. unfold s64.
  assert (0 <= d mod 1000000 < 1000000 ∧ d = d / 1000000 * 1000000 + d mod 1000000) as [Hm Hdm] by zlia.
  rewrite swrap_small by lia. rewrite Z.div_mul by lia. unfold Timestamp in *. lia.
Qed.

Lemma resetTimerfd_late c e : keeps (late c) (resetTimerfd e).
Proof.
  intros q u q'. unfold resetTimerfd. destruct (howMuchTimeFromNow _ _) as [ts|] eqn:E; [|done].
  intros [= _ <-] [Hc _]. split; [done|]. simpl. intros w [= <-].
  pose proof (howMuchTimeFromNow_late _ _ _ E). unfold Timestamp in *. lia.
Qed.

(** What does not touch the clock or the timerfd keeps [late]. *)
Lemma assertInLoopThread_late c : keeps (late c) assertInLoopThread.
Proof. intros q u q'. unfold assertInLoopThread. case_match; [by intros [= _ <-]|done]. Qed.

Lemma deref_late c a : keeps (late c) (deref a).
Proof. intros q t q'. unfold deref. case_match; [by intros [= _ <-]|done]. Qed.

Lemma alloc_timer_late malloc c cb w i : keeps (late c) (alloc_timer malloc cb w i).
Proof. intros q t q'. unfold alloc_timer. by intros [= _ <-]. Qed.

#[local] Hint Resolve resetTimerfd_late assertInLoopThread_late deref_late alloc_timer_late : keeps.

Ltac late_steps := repeat first [keeps_step | done].

Lemma insert_late c a : keeps (late c) (insert a).
Proof. unfold insert, assert_sizes. late_steps. Qed.
#[local] Hint Resolve insert_late : keeps.

Lemma do_action_late malloc c x : keeps (late c) (do_action malloc x).
Proof.
  unfold do_action, addTimer, addTimer_with, addTimerInLoop, cancel, cancelInLoop, delete_timer, assert_sizes.
  late_steps.
Qed.
#[local] Hint Resolve do_action_late : keeps.

Lemma run_entry_late malloc body c e : keeps (late c) (run_entry malloc body e).
Proof. unfold run_entry. late_steps. Qed.

Lemma reset_late c now : keeps (late c) (reset now).
Proof. unfold reset, reset_entry, delete_timer. late_steps. Qed.

(** * A timer that waits *)

Definition pending (e : Entry) (t : Timer) (q : TimerQueue) : Prop :=
  e ∈ timers_ q ∧ heap q !! e.2 = Some t.

(** A call that does not cancel the timer with this key. *)
Definition spares (key : ActiveTimer) (x : Action) : Prop :=
  match x with AddTimer _ _ _ => True | Cancel id => id_key id ≠ key end.

Section waiting.
Context (malloc : gmap Z Timer -> Z) (body : nat -> TimerQueue -> list Action).
Context (malloc_fresh : ∀ h, h !! malloc h = None).
Context (malloc_range : ∀ h, malloc h ≠ NULL ∧ malloc h < UINTPTR_MAX).
Context (body_sane : ∀ cb q x, x ∈ body cb q -> sane_action x).

(** The timer, its entry and its key. *)
Context (e : Entry) (t : Timer).
Abbreviation key := (e.2, s32 (sequence_ t)).
Context (body_spares : ∀ cb q x, x ∈ body cb q -> spares key x).

Lemma do_action_pending P live q x q' :
  downward P -> WF live q -> armed P q -> sane_action x -> spares key x ->
  do_action malloc x q = Ok (tt, q') -> pending e t q -> pending e t q'.
Proof.
  intros HP HW Harm Hx Hsp E [Hin Ht]. destruct x as [cb when i|id]; simpl in *.
  - destruct Hx as [Hw Hi].
    destruct (addTimer_spec malloc malloc_fresh malloc_range P live q cb when i HW Harm HP Hw Hi)
      as (q1 & t1 & E1 & _ & _ & Hh1 & _ & _ & Ht1 & _).
    rewrite (bind_Ok _ _ _ _ _ E1) in E. injection E as <-. split; [rewrite Ht1; by right|].
    rewrite Hh1, lookup_insert_ne; [done|]. intros Heq. by rewrite <- Heq, malloc_fresh in Ht.
  - destruct (cancelInLoop_spec live q id HW) as (q1 & E1 & _ & _ & _ & _ & Ht1 & Hcase).
    unfold cancel in E. rewrite E1 in E. injection E as ->. split.
    + apply Ht1. split; [done|]. unfold akey. rewrite Ht. congruence.
    + case_bool_decide as Hact; [|by destruct Hcase as [-> _]]. destruct Hcase as [-> _].
      rewrite lookup_delete_ne; [done|]. intros Heq. apply Hsp.
      destruct (active_entry live q _ _ HW Hact) as (t' & Ht' & _ & Hn).
      unfold id_key. rewrite Heq in Ht'. congruence.
Qed.

Lemma run_entries_pending P live l q q' :
  downward P -> (∀ x, x ∈ l -> x ∈ live) -> WF live q -> armed P q ->
  mapM_ (run_entry malloc body) l q = Ok (tt, q') -> pending e t q -> pending e t q'.
Proof.
  intros HP. revert q. induction l as [|x l IH]; intros q Hl HW Harm E Hp; cbn [mapM_] in E.
  { by injection E as <-. }
  destruct (wf_live _ _ HW x ltac:(apply Hl; left)) as [tx Htx].
  set (q1 := set_ran (ran q ++ [callback_ tx]) q).
  assert (∃ q2, run_entry malloc body x q = Ok (tt, q2) ∧ during P live q1 q2 ∧ pending e t q2)
    as (q2 & E2 & (HW2 & Harm2 & _) & Hp2).
  { unfold run_entry. rewrite (bind_Ok _ _ _ _ _ (deref_timer_Ok _ _ _ Htx)).
    rewrite (bind_Ok _ _ q tt q1), (bind_Ok _ _ q1 q1 q1) by done.
    apply (mapM_invariant (λ q2, during P live q1 q2 ∧ pending e t q2)).
    - split; [|exact Hp]. apply during_set_ran. split; [exact HW|]. by repeat split.
    - intros y q2 Hy [HD Hp2]. assert (sane_action y) as Hs by (by eapply body_sane).
      destruct (do_action_spec malloc malloc_fresh malloc_range P live q1 q2 y HP Hs HD) as (q3 & E3 & HD3).
      exists q3. split; [done|]. split; [done|]. destruct HD as (HW2 & Harm2 & _).
      eapply do_action_pending; eauto. }
  rewrite (bind_Ok _ _ _ _ _ E2) in E. apply (IH q2); [|done..]. intros y Hy. apply Hl. by right.
Qed.

(** A wake-up before the timer's time leaves it waiting; one at its time or later runs it. *)
Lemma handleRead_pending q poll :
  WF [] q -> 0 <= poll -> pending e t q ->
  ∃ q' l, handleRead malloc body poll q = Ok (tt, q') ∧ ran q' = ran q ++ l ∧
    ((∀ w, timerfd_ q = Some w -> w <= clock q) -> late (clock q) q') ∧
    if decide (e.1 <= poll) then callback_ t ∈ l else pending e t q'.
Proof.
  intros HW Hpoll [Hin Ht]. pose proof (wf_clock _ _ HW) as Hck.
  destruct (handleRead_steps malloc body malloc_fresh malloc_range body_sane q poll HW Hpoll)
    as (before & after & q2 & q3 & E & Et & Hb & Ha & HW2 & Harm2 & Ht2 & Hh2 & Hfd2 & Hc2 & E3 & HW3 & Harm3 & Hx3 & Hc3 & Hh3 & Hr3).
  rewrite E. set (q4 := set_calling false q3).
  assert (WF before q4) as HW4 by (destruct HW3; by split).
  destruct (reset_spec (clock q) before q4) as (q5 & E5 & HW5 & Hf5 & _ & _ & Hh5 & Hsub5 & _); [done..|].
  exists q5, (callbacks_of (heap q) before). rewrite E5. injection Hf5 as _ _ _ _ Hran5.
  split; [done|]. split; [by rewrite Hran5|]. split.
  - intros Hfired. eapply reset_late; [exact E5|]. subst q4. simpl.
    assert (late (clock q) q2) as Hl2.
    { split; [by rewrite Hc2|]. intros w Hw. destruct (Hfd2 w Hw) as [Hq Hlt]. specialize (Hfired w Hq).
      unfold Timestamp in *. lia. }
    pose proof (keeps_mapM _ _ before (run_entry_late malloc body (clock q)) _ _ _ E3 Hl2) as Hl3.
    exact Hl3.
  - rewrite Et in Hin. apply elem_of_app in Hin. case_decide as Hd.
    + destruct Hin as [Hin|Hin]; [|specialize (Ha e Hin); lia].
      apply list_elem_of_omap. exists e. split; [done|]. by rewrite Ht.
    + destruct Hin as [Hin|Hin]; [specialize (Hb e Hin); lia|].
      assert (pending e t q3) as [Hin3 Ht3].
      { eapply (run_entries_pending not_after_epoch before before q2); [apply downward_not_after_epoch|done..|].
        split; [by rewrite Ht2|by rewrite Hh2]. }
      split; [by apply Hsub5|]. rewrite Hh5; [done|]. intros Hin'.
      apply (addr_disjoint _ _ e.2 (wf_addr _ _ HW3)); [|done]. by apply elem_addr.
Qed.

(** * Runs *)

(** What may happen in a state: a call from the loop's thread that does not cancel the timer, a
    wake-up when the timerfd has fired (with the time at which the poll returned), or time
    passing. *)
Definition possible (q : TimerQueue) (o : Op) : Prop :=
  match o with
  | OAction x => sane_action x ∧ spares key x
  | OHandleRead poll => 0 <= poll <= clock q ∧ ∃ w, timerfd_ q = Some w ∧ w <= poll
  | OClock now => clock q <= now < 2 ^ 61
  end.

Fixpoint schedule (q : TimerQueue) (os : list Op) : Prop :=
  match os with
  | [] => True
  | o :: os' => possible q o ∧ ∀ q', do_op malloc body o q = Ok (tt, q') -> schedule q' os'
  end.

(** The number of wake-ups of a run. *)
Fixpoint wakes (os : list Op) : Z :=
  match os with
  | [] => 0
  | OHandleRead _ :: os' => wakes os' + 1
  | _ :: os' => wakes os'
  end.

Lemma wakes_nonneg os : 0 <= wakes os.
Proof. induction os as [|[] os IH]; simpl; lia. Qed.

Lemma possible_idle o q :
  idle q -> possible q o -> ∃ q' l, do_op malloc body o q = Ok (tt, q') ∧ idle q' ∧ clock q <= clock q' ∧
    ran q' = ran q ++ l.
Proof.
  intros HI Ho.
  destruct (do_op_idle malloc body malloc_fresh malloc_range body_sane o q (clock q) HI eq_refl) as (q' & E & HI' & Hck).
  { destruct o; simpl in *; split; try done; try apply Ho; lia. }
  assert (∃ l, ran q' = ran q ++ l) as [l Hl]; [|exists q', l; split_and!; [done..| |done]].
  - destruct HI as (HW & Harm & _). destruct o as [x|poll|now]; simpl in E.
    + destruct (do_action_spec malloc malloc_fresh malloc_range anytime [] q q x) as (q1 & E1 & _ & _ & Hf & _);
        [apply downward_anytime|apply Ho|by split; [|split_and!]|].
      rewrite E1 in E. injection E as <-. injection Hf as _ _ _ _ ->. exists []. by rewrite app_nil_r.
    + destruct (handleRead_spec malloc body malloc_fresh malloc_range body_sane q poll HW ltac:(apply Ho))
        as (b & a & q1 & E1 & _ & _ & _ & _ & _ & _ & _ & Hr & _).
      rewrite E1 in E. injection E as <-. eauto.
    + injection E as <-. exists []. by rewrite app_nil_r.
  - rewrite Hck. destruct o; simpl in *; lia.
Qed.

Lemma schedule_idle os q :
  idle q -> schedule q os -> ∃ q' l, mapM_ (do_op malloc body) os q = Ok (tt, q') ∧ idle q' ∧ ran q' = ran q ++ l.
Proof.
  revert q; induction os as [|o os IH]; intros q HI Hs; cbn [mapM_].
  { exists q, []. by rewrite app_nil_r. }
  destruct Hs as [Ho Hs]. destruct (possible_idle o q HI Ho) as (q1 & l1 & E1 & HI1 & _ & Hr1).
  destruct (IH q1 HI1 (Hs _ E1)) as (q2 & l2 & E2 & HI2 & Hr2).
  exists q2, (l1 ++ l2). rewrite (bind_Ok _ _ _ _ _ E1). split_and!; [done..|]. by rewrite Hr2, Hr1, app_assoc.
Qed.

(** One step: the timer runs, or it goes on waiting, and every wake-up that passes takes at
    least 100 microseconds of the time that is left. *)
Lemma step_pending o q :
  idle q -> possible q o -> pending e t q ->
  ∃ q' l, do_op malloc body o q = Ok (tt, q') ∧ ran q' = ran q ++ l ∧
    (callback_ t ∈ l ∨
     pending e t q' ∧
     match o with
     | OHandleRead poll => poll < e.1 ∧ late (clock q) q'
     | _ => ∀ c, late c q -> late c q'
     end).
Proof.
  intros HI Ho Hp. destruct HI as (HW & Harm & Hcall). destruct o as [x|poll|now].
  - destruct (possible_idle (OAction x) q) as (q' & l & E & _ & _ & Hr); [by split|done|].
    exists q', l. split; [done|]. split; [done|]. right. split.
    + destruct Ho as [Hx Hsp]. exact (do_action_pending anytime [] q x q' downward_anytime HW Harm Hx Hsp E Hp).
    + intros c. exact (do_action_late malloc c x q tt q' E).
  - destruct Ho as (Hpoll & w & Hw & Hle).
    destruct (handleRead_pending q poll HW ltac:(apply Hpoll) Hp) as (q' & l & E & Hr & Hlate & Hcase).
    exists q', l. split; [done|]. split; [done|]. case_decide; [by left|]. right. split; [done|]. split; [lia|].
    apply Hlate. intros w' Hw'. rewrite Hw in Hw'. injection Hw' as <-. unfold Timestamp in *. lia.
  - exists (set_clock now q), []. split; [done|]. split; [by rewrite app_nil_r|]. right. split; [exact Hp|].
    intros c [Hc Hw]. split; [|done]. simpl in *. unfold Timestamp in *. lia.
Qed.

(** The wake-ups while the timer waits, once the timerfd has been set at [c] or later. *)
Lemma waiting_late c os q :
  idle q -> schedule q os -> pending e t q -> late c q ->
  ∃ q' l, mapM_ (do_op malloc body) os q = Ok (tt, q') ∧ ran q' = ran q ++ l ∧
    (callback_ t ∈ l ∨ pending e t q' ∧ (wakes os = 0 ∨ c + 100 * wakes os < e.1)).
Proof.
  revert c q; induction os as [|o os IH]; intros c q HI Hs Hp Hl; cbn [mapM_].
  { exists q, []. rewrite app_nil_r. split_and!; [done..|]. right. split; [done|by left]. }
  destruct Hs as [Ho Hs]. destruct (step_pending o q HI Ho Hp) as (q1 & l1 & E1 & Hr1 & Hcase).
  destruct (possible_idle o q HI Ho) as (q1' & _ & E1' & HI1 & _). rewrite E1 in E1'. injection E1' as <-.
  rewrite (bind_Ok _ _ _ _ _ E1). destruct Hcase as [Hran|[Hp1 Hcase]].
  { destruct (schedule_idle os q1 HI1 (Hs _ E1)) as (q2 & l2 & E2 & _ & Hr2). exists q2, (l1 ++ l2).
    rewrite E2, Hr2, Hr1, app_assoc. split_and!; [done..|]. left. apply elem_of_app. by left. }
  assert (∃ c', late c' q1 ∧ match o with OHandleRead _ => c + 100 <= c' ∧ c + 100 < e.1 | _ => c' = c end) as (c' & Hl1 & Hc').
  { destruct o as [x|poll|now]; [exists c; split; [by apply Hcase|done]| |exists c; split; [by apply Hcase|done]].
    destruct Hcase as [Hlt Hl1], Ho as (Hpoll & w & Hw & Hle), Hl as [_ Hl]. specialize (Hl w Hw).
    exists (clock q). unfold Timestamp in *. split; [done|]. lia. }
  destruct (IH c' q1 HI1 (Hs _ E1) Hp1 Hl1) as (q2 & l2 & E2 & Hr2 & Hend).
  exists q2, (l1 ++ l2). rewrite E2, Hr2, Hr1, app_assoc. split_and!; [done..|].
  destruct Hend as [Hend|[Hp2 Hend]]; [left; apply elem_of_app; by right|]. right. split; [done|].
  pose proof (wakes_nonneg os). destruct o; simpl; unfold Timestamp in *; lia.
Qed.

Lemma waiting_bound os q :
  idle q -> schedule q os -> pending e t q ->
  ∃ q' l, mapM_ (do_op malloc body) os q = Ok (tt, q') ∧ ran q' = ran q ++ l ∧
    (callback_ t ∈ l ∨ pending e t q' ∧ 100 * (wakes os - 1) <= Z.max 0 (e.1 - clock q)).
Proof.
  revert q; induction os as [|o os IH]; intros q HI Hs Hp; cbn [mapM_].
  { exists q, []. rewrite app_nil_r. split_and!; [done..|]. right. split; [done|simpl; lia]. }
  destruct Hs as [Ho Hs]. destruct (step_pending o q HI Ho Hp) as (q1 & l1 & E1 & Hr1 & Hcase).
  destruct (possible_idle o q HI Ho) as (q1' & _ & E1' & HI1 & Hck & _). rewrite E1 in E1'. injection E1' as <-.
  rewrite (bind_Ok _ _ _ _ _ E1). destruct Hcase as [Hran|[Hp1 Hcase]].
  { destruct (schedule_idle os q1 HI1 (Hs _ E1)) as (q2 & l2 & E2 & _ & Hr2). exists q2, (l1 ++ l2).
    rewrite E2, Hr2, Hr1, app_assoc. split_and!; [done..|]. left. apply elem_of_app. by left. }
  assert (∃ q2 l2, mapM_ (do_op malloc body) os q1 = Ok (tt, q2) ∧ ran q2 = ran q1 ++ l2 ∧
    (callback_ t ∈ l2 ∨ pending e t q2 ∧ 100 * (wakes (o :: os) - 1) <= Z.max 0 (e.1 - clock q)))
    as (q2 & l2 & E2 & Hr2 & Hend).
  { destruct o as [x|poll|now].
    2: { destruct Hcase as [_ Hl1]. destruct (waiting_late (clock q) os q1 HI1 (Hs _ E1) Hp1 Hl1) as (q2 & l2 & E2 & Hr2 & Hend).
         exists q2, l2. split_and!; [done..|]. simpl. unfold Timestamp in *. destruct Hend as [|[? ?]]; [by left|right].
         split; [done|lia]. }
    all: destruct (IH q1 HI1 (Hs _ E1) Hp1) as (q2 & l2 & E2 & Hr2 & Hend); exists q2, l2; split_and!; [done..|];
      simpl; unfold Timestamp in *; destruct Hend as [|[? ?]]; [by left|right]; split; [done|lia]. }
  exists q2, (l1 ++ l2). rewrite E2, Hr2, Hr1, app_assoc. split_and!; [done..|].
  destruct Hend as [Hend|Hend]; [left; apply elem_of_app; by right|by right].
Qed.

(** C9: Timers run.  Take a registered timer that nothing cancels, and any schedule of calls,
    wake-ups and passing time, where a wake-up comes when the timerfd has fired.  No call
    fails, and either the timer's callback has been run, or the timer still waits: then the
    timerfd is set to fire by its expiration (or 100 microseconds from now), a wake-up from then
    on runs it, and no more wake-ups have gone by than one for each 100 microseconds
    that were left. *)
Theorem timer_runs os q :
  idle q -> schedule q os -> pending e t q ->
  ∃ q' l, mapM_ (do_op malloc body) os q = Ok (tt, q') ∧ ran q' = ran q ++ l ∧
    (callback_ t ∈ l ∨
     100 * (wakes os - 1) <= Z.max 0 (e.1 - clock q) ∧
     (∃ w, timerfd_ q' = Some w ∧ w <= Z.max e.1 (clock q' + 100)) ∧
     ∀ poll, Z.max 0 e.1 <= poll ->
       ∃ q'' l', handleRead malloc body poll q' = Ok (tt, q'') ∧ ran q'' = ran q' ++ l' ∧ callback_ t ∈ l').
Proof.
  intros HI Hs Hp. destruct (waiting_bound os q HI Hs Hp) as (q' & l & E & Hr & Hend).
  destruct (schedule_idle os q HI Hs) as (q1 & _ & E1 & (HW' & Harm' & _) & _). rewrite E in E1. injection E1 as <-.
  exists q', l. split_and!; [done..|]. destruct Hend as [|[Hp' Hb]]; [by left|right]. split; [done|]. split.
  - apply Harm'; [apply Hp'|done].
  - intros poll Hpoll. destruct (handleRead_pending q' poll HW' ltac:(lia) Hp') as (q'' & l' & E'' & Hr'' & _ & Hc).
    rewrite decide_True in Hc by lia. eauto.
Qed.
End waiting.

(** The one-shot timer of the sample queue; the other one runs before it and cancels itself. *)
Definition sample_timer : Timer := mkTimer 0 9000000 (double_of_Z 0) false 2.

Definition sample_schedule : list Op :=
  [OHandleRead 2000050; OClock 9000500; OHandleRead 9000400].

Lemma timer_runs_witness :
  ∃ q q' l, sample_queue = Ok (tt, q) ∧ mapM_ (do_op malloc_down calm_body) sample_schedule q = Ok (tt, q') ∧
    ran q' = ran q ++ l ∧
    (0%nat ∈ l ∨
     100 * (wakes sample_schedule - 1) <= Z.max 0 (9000000 - clock q) ∧
     (∃ w, timerfd_ q' = Some w ∧ w <= Z.max 9000000 (clock q' + 100)) ∧
     ∀ poll, Z.max 0 9000000 <= poll ->
       ∃ q'' l', handleRead malloc_down calm_body poll q' = Ok (tt, q'') ∧ ran q'' = ran q' ++ l' ∧ 0%nat ∈ l').
Proof.
  destruct sample_idle as (q & E & HI & Ht).
  destruct (timer_runs malloc_down calm_body malloc_down_fresh malloc_down_range calm_body_sane
              (9000000, -2) sample_timer) with (os := sample_schedule) (q := q) as (q' & l & E' & Hr & Hc).
  - intros cb q0 x Hx. destruct cb as [|[|cb]]; [by apply elem_of_nil in Hx| |by apply elem_of_nil in Hx].
    apply list_elem_of_singleton in Hx as ->. vm_compute. discriminate.
  - exact HI.
  - vm_compute in E. injection E as <-. cbn [sample_schedule schedule].
    repeat match goal with
      | |- _ ∧ _ => split
      | |- True => done
      | |- possible _ _ _ _ => solve [unfold possible; cbn [clock timerfd_]; unfold Timestamp; split_and?; first [lia | eexists; split; [reflexivity|lia]]]
      | |- ∀ _, _ => let E := fresh in intros ? E; vm_compute in E; injection E as <-
      end.
  - split; [rewrite Ht; right; left|]. vm_compute in E. injection E as <-. vm_compute. reflexivity.
  - exists q, q', l. split_and!; [exact E|exact E'|exact Hr|exact Hc].
Defined.
