(* ===== verification/Channel.v ===== *)
(** Channels: [PracticeMuduo/reactor.muduo/Channel.h] and [Channel.cpp].  Event sets
    are 32-bit signed integers.  Handling an event gives the callbacks that are
    called, in order; what they do belongs to their owners. *)
From Stdlib Require Import Strings.String.
From S2P Require Import Prelude FixedBuffer LogStream.
Open Scope list_scope.

(** * Event bits *)

Definition POLLIN : Z := 1.
Definition POLLPRI : Z := 2.
Definition POLLOUT : Z := 4.
Definition POLLERR : Z := 8.
Definition POLLHUP : Z := 16.
Definition POLLNVAL : Z := 32.
Definition POLLRDHUP : Z := 8192.

Definition kReadEvent : Z := Z.lor POLLIN POLLPRI.
Definition kWriteEvent : Z := POLLOUT.
Definition kNoneEvent : Z := 0.

(** [x & m] used as a condition. *)
Definition has (x m : Z) : bool := negb (Z.land x m =? 0).

(** * The class *)

Inductive Callback := CbClose | CbError | CbRead | CbWrite.

#[export] Instance Callback_eq_dec : EqDecision Callback.
Proof. solve_decision. Defined.

(** [tie_] is whether the weak pointer's owner still exists; the callbacks are the ones
    that are set. *)
Record Channel := mkChannel {
  fd_ : Z;
  events_ : Z;
  revents_ : Z;
  index_ : Z;
  tied_ : bool;
  tie_ : bool;
  eventHandling_ : bool;
  addedToLoop_ : bool;
  callbacks : gset nat }.

Definition cb_code (c : Callback) : nat :=
  match c with CbRead => 0 | CbWrite => 1 | CbClose => 2 | CbError => 3 end.

Definition new_Channel (fd : Z) : Channel := mkChannel fd 0 0 (-1) false false false false ∅.

Definition set_events (e : Z) (c : Channel) : Channel :=
  mkChannel (fd_ c) e (revents_ c) (index_ c) (tied_ c) (tie_ c) (eventHandling_ c) (addedToLoop_ c) (callbacks c).
Definition set_revents (revt : Z) (c : Channel) : Channel :=
  mkChannel (fd_ c) (events_ c) revt (index_ c) (tied_ c) (tie_ c) (eventHandling_ c) (addedToLoop_ c) (callbacks c).
Definition set_index (index : Z) (c : Channel) : Channel :=
  mkChannel (fd_ c) (events_ c) (revents_ c) index (tied_ c) (tie_ c) (eventHandling_ c) (addedToLoop_ c) (callbacks c).
Definition tie (c : Channel) : Channel :=
  mkChannel (fd_ c) (events_ c) (revents_ c) (index_ c) true true (eventHandling_ c) (addedToLoop_ c) (callbacks c).
Definition set_added (b : bool) (c : Channel) : Channel :=
  mkChannel (fd_ c) (events_ c) (revents_ c) (index_ c) (tied_ c) (tie_ c) (eventHandling_ c) b (callbacks c).
Definition set_handling (b : bool) (c : Channel) : Channel :=
  mkChannel (fd_ c) (events_ c) (revents_ c) (index_ c) (tied_ c) (tie_ c) b (addedToLoop_ c) (callbacks c).
Definition set_callback (cb : Callback) (c : Channel) : Channel :=
  mkChannel (fd_ c) (events_ c) (revents_ c) (index_ c) (tied_ c) (tie_ c) (eventHandling_ c) (addedToLoop_ c)
    ({[cb_code cb]} ∪ callbacks c).

Definition has_callback (cb : Callback) (c : Channel) : bool := bool_decide (cb_code cb ∈ callbacks c).

(** The assignments to [events_] of the five methods, before they call [update()]. *)
Definition enableReading (c : Channel) : Channel := set_events (s32 (Z.lor (events_ c) kReadEvent)) c.
Definition enableWriting (c : Channel) : Channel := set_events (s32 (Z.lor (events_ c) kWriteEvent)) c.
Definition disableReading (c : Channel) : Channel :=
  set_events (s32 (Z.lor (events_ c) (Z.lnot kReadEvent))) c.
Definition disableWriting (c : Channel) : Channel :=
  set_events (s32 (Z.lor (events_ c) (Z.lnot kWriteEvent))) c.
Definition disableAll (c : Channel) : Channel := set_events kNoneEvent c.

Definition isWriting (c : Channel) : bool := has (events_ c) kWriteEvent.
Definition isNoneEvent (c : Channel) : bool := events_ c =? kNoneEvent.

(** [~Channel()] *)
Definition Channel_dtor (c : Channel) : res unit :=
  if negb (addedToLoop_ c) then if negb (eventHandling_ c) then Ok tt else Fault AssertFail
  else Fault AssertFail.

(** [handleEventWithGuard], for callbacks that leave the channel alone: the callbacks
    that run, and the channel afterwards; it is being handled while they run. *)
Definition handleEventWithGuard (c : Channel) : list Callback * Channel :=
  let c := set_handling true c in
  let call cb := if has_callback cb c then [cb] else [] in
  ((if has (revents_ c) POLLHUP && negb (has (revents_ c) POLLIN) then call CbClose else [])
   ++ (if has (revents_ c) (Z.lor POLLERR POLLNVAL) then call CbError else [])
   ++ (if has (revents_ c) (Z.lor (Z.lor POLLIN POLLPRI) POLLRDHUP) then call CbRead else [])
   ++ (if has (revents_ c) POLLOUT then call CbWrite else []),
   set_handling false c).

Definition handleEvent (c : Channel) : list Callback * Channel :=
  if tied_ c then if tie_ c then handleEventWithGuard c else ([], c)
  else handleEventWithGuard c.

(** [eventsToString(fd, ev)] *)
Definition eventsToString_of (fd ev : Z) : list byte :=
  let bit m s := if has ev m then bytes s else [] in
  fmt_d fd ++ bytes ": " ++ bit POLLIN "IN "%string ++ bit POLLPRI "PRI "%string
  ++ bit POLLOUT "OUT "%string ++ bit POLLHUP "HUP "%string ++ bit POLLRDHUP "RDHUP"%string
  ++ bit POLLERR "ERR "%string ++ bit POLLNVAL "NVAL "%string.

Definition eventsToString (c : Channel) : list byte := eventsToString_of (fd_ c) (events_ c).
Definition reventsToString (c : Channel) : list byte := eventsToString_of (fd_ c) (revents_ c).

(** * Properties *)

Lemma has_bit x k : 0 <= k -> has x (2 ^ k) = Z.testbit x k.
Proof.
  intros Hk. unfold has. destruct (Z.testbit x k) eqn:E.
  - apply negb_true_iff, Z.eqb_neq. intros H.
    apply (f_equal (λ z, Z.testbit z k)) in H. rewrite Z.land_spec, E, Z.pow2_bits_true, Z.bits_0 in H by lia.
    done.
  - apply negb_false_iff, Z.eqb_eq, Z.bits_inj_0. intros n. rewrite Z.land_spec.
    destruct (decide (n = k)) as [->|Hne]; [by rewrite E|].
    rewrite Z.pow2_bits_false by lia. apply andb_false_r.
Qed.

(** The conversion to [int] keeps the low 32 bits. *)
Lemma s32_testbit x n : 0 <= n < 32 -> Z.testbit (s32 x) n = Z.testbit x n.
Proof.
  intros Hn. rewrite <- (Z.mod_pow2_bits_low x 32), <- (Z.mod_pow2_bits_low (s32 x) 32) by lia.
  unfold s32. by rewrite swrap_unsigned.
Qed.

(** Disabling does the opposite of what its name says: [disableWriting] (and
    [disableReading]) OR the complement of the event's mask into [events_], which leaves
    the event's own bits as they were and sets every other one; so after
    [disableWriting] the channel is interested in reading, and still in writing if it
    was. *)
Theorem disable_sets_bits c n :
  0 <= n < 32 ->
  Z.testbit (events_ (disableWriting c)) n = (if decide (n = 2) then Z.testbit (events_ c) n else true) ∧
  Z.testbit (events_ (disableReading c)) n = (if decide (n = 0 ∨ n = 1) then Z.testbit (events_ c) n else true) ∧
  isWriting (disableWriting c) = isWriting c ∧ has (events_ (disableWriting c)) kReadEvent = true ∧
  isNoneEvent (disableWriting c) = false.
Proof.
  intros Hn.
  assert (∀ n, 0 <= n < 32 -> Z.testbit (events_ (disableWriting c)) n =
            if decide (n = 2) then Z.testbit (events_ c) n else true) as HW.
  { intros k Hk. unfold disableWriting. simpl. rewrite s32_testbit, Z.lor_spec, Z.lnot_spec by lia.
    change kWriteEvent with (2 ^ 2). case_decide as Hd.
    - subst k. rewrite Z.pow2_bits_true by lia. apply orb_false_r.
    - rewrite Z.pow2_bits_false by lia. apply orb_true_r. }
  split; [by apply HW|]. split; [|split; [|split]].
  - unfold disableReading. simpl. rewrite s32_testbit, Z.lor_spec, Z.lnot_spec by lia.
    change kReadEvent with (Z.ones 2). rewrite Z.testbit_ones by lia. case_decide as Hd.
    + rewrite (proj2 (Z.leb_le 0 n)), (proj2 (Z.ltb_lt n 2)) by lia. apply orb_false_r.
    + rewrite (proj2 (Z.ltb_ge n 2)), andb_false_r by lia. apply orb_true_r.
  - unfold isWriting. change kWriteEvent with (2 ^ 2). rewrite !has_bit by lia. by rewrite HW by lia.
  - unfold has. apply negb_true_iff, Z.eqb_neq. intros H.
    apply (f_equal (λ z, Z.testbit z 0)) in H. rewrite Z.land_spec, HW in H by lia. done.
  - unfold isNoneEvent, kNoneEvent. apply Z.eqb_neq. intros H.
    specialize (HW 0 ltac:(lia)). rewrite H in HW. done.
Qed.

Lemma disable_sets_bits_witness :
  let c := enableWriting (enableReading (new_Channel 7)) in
  isWriting (disableWriting c) = true ∧ events_ (disableWriting c) = -1.
Proof.
  intros c. split; [|reflexivity].
  destruct (disable_sets_bits c 2 ltac:(lia)) as (_ & _ & H & _). rewrite H. reflexivity.
Defined.

Lemma elem_of_call (b h : bool) (x cb : Callback) :
  x ∈ (if b then if h then [cb] else [] else []) <-> b = true ∧ h = true ∧ x = cb.
Proof. destruct b, h; rewrite ?list_elem_of_singleton, ?elem_of_nil; intuition congruence. Qed.

(** Only callbacks that are set run. *)
Lemma handleEvent_set c cb : cb ∈ (handleEvent c).1 -> has_callback cb c = true.
Proof.
  assert (cb ∈ (handleEventWithGuard c).1 -> has_callback cb c = true) as H.
  { unfold handleEventWithGuard. cbn [fst]. rewrite !elem_of_app, !elem_of_call.
    by intros [(_ & H & ->)|[(_ & H & ->)|[(_ & H & ->)|(_ & H & ->)]]]. }
  unfold handleEvent. destruct (tied_ c), (tie_ c); try done. by intros ?%elem_of_nil.
Qed.

Lemma sublist_call (b h : bool) (cb : Callback) :
  (if b then if h then [cb] else [] else []) `sublist_of` [cb].
Proof. destruct b, h; try apply sublist_nil_l; done. Qed.

(** Which callbacks an event runs: nothing once the tied owner is gone; otherwise,
    of those that are set, close for a hang-up without readable data, error, read and
    write, each at most once and in this order, each exactly when one of its bits was
    reported. *)
Theorem handleEvent_dispatch c :
  let r := revents_ c in
  let live := negb (tied_ c) || tie_ c in
  (∀ cb, cb ∈ (handleEvent c).1 <->
     live = true ∧ has_callback cb c = true ∧
     match cb with
     | CbClose => Z.testbit r 4 = true ∧ Z.testbit r 0 = false
     | CbError => Z.testbit r 3 = true ∨ Z.testbit r 5 = true
     | CbRead => Z.testbit r 0 = true ∨ Z.testbit r 1 = true ∨ Z.testbit r 13 = true
     | CbWrite => Z.testbit r 2 = true
     end) ∧
  (handleEvent c).1 `sublist_of` [CbClose; CbError; CbRead; CbWrite].
Proof.
  intros r live.
  assert (∀ x a b, has x (Z.lor a b) = has x a || has x b) as Hor.
  { intros x a b. unfold has. rewrite Z.land_lor_distr_r.
    destruct (Z.eqb_spec (Z.land x a) 0) as [->|]; [by rewrite Z.lor_0_l|]. simpl.
    apply negb_true_iff, Z.eqb_neq. rewrite Z.lor_eq_0_iff. tauto. }
  assert ((handleEvent c).1 = if live then (handleEventWithGuard c).1 else []) as ->
    by (unfold handleEvent; subst live; by destruct (tied_ c), (tie_ c)).
  unfold handleEventWithGuard. cbn [fst set_handling revents_]. fold r. rewrite !Hor.
  assert (∀ cb, has_callback cb (set_handling true c) = has_callback cb c) as Hh by done. rewrite !Hh.
  change POLLHUP with (2 ^ 4). change POLLIN with (2 ^ 0). change POLLERR with (2 ^ 3).
  change POLLNVAL with (2 ^ 5). change POLLPRI with (2 ^ 1). change POLLRDHUP with (2 ^ 13).
  change POLLOUT with (2 ^ 2). rewrite !has_bit by lia.
  destruct live; [|split; [set_solver|apply sublist_nil_l]]. split.
  - intros cb. rewrite !elem_of_app, !elem_of_call.
    destruct cb; rewrite ?andb_true_iff, ?orb_true_iff, ?negb_true_iff; intuition congruence.
  - change [CbClose; CbError; CbRead; CbWrite] with ([CbClose] ++ [CbError] ++ [CbRead] ++ [CbWrite]).
    repeat apply sublist_app; apply sublist_call.
Qed.
