(* ===== verification/Poller.v ===== *)
(** The interface of the pollers: [PracticeMuduo/reactor.muduo/Poller.h] and
    [Poller.cpp], as a class with the laws its clients rely on, and the part of
    [EventLoop.cpp] and [Channel.h] that goes through it.  Channels are objects at
    addresses. *)
From S2P Require Import Prelude Channel.
Open Scope list_scope.

(** The channels, by address. *)
Abbreviation Chans := (gmap Z Channel).

(** A channel reached through its address, and an update of one. *)
Definition deref {P} (a : Z) : M (Chans * P) Channel := λ s,
  match s.1 !! a with Some c => Ok (c, s) | None => Fault UB end.

Definition set_channel {P} (a : Z) (f : Channel -> Channel) : M (Chans * P) unit :=
  c ← deref a; modify (λ s, (<[a := f c]> s.1, s.2)).

Lemma deref_Ok {P} a c (s : Chans * P) : s.1 !! a = Some c -> deref a s = Ok (c, s).
Proof. intros E. unfold deref. by rewrite E. Qed.

Lemma set_channel_Ok {P} a c f (s : Chans * P) : s.1 !! a = Some c -> set_channel a f s = Ok (tt, (<[a := f c]> s.1, s.2)).
Proof. intros E. unfold set_channel. by rewrite (bind_Ok _ _ _ _ _ (deref_Ok _ _ _ E)). Qed.

(** What a poller's [poll] returns to the loop is in the implementations' own files. *)
Class Poller (P : Type) := {
  updateChannel : Z -> M (Chans * P) unit;
  removeChannel : Z -> M (Chans * P) unit;
  channels_ : P -> gmap Z Z }.

(** Two channels that a poller cannot tell apart but for the events they ask for. *)
Definition same_registration (c c' : Channel) : Prop := fd_ c' = fd_ c ∧ index_ c' = index_ c.

(** [poller_inv]: the poller's own consistency; [removable a]: channel [a] is registered
    and has been parked by an update without events. *)
Class PollerLaws (P : Type) `{Poller P} := {
  poller_inv : Chans -> P -> Prop;
  removable : Z -> Chans -> P -> Prop;
  inv_registered chs p fd a :
    poller_inv chs p -> channels_ p !! fd = Some a -> ∃ c, chs !! a = Some c ∧ fd_ c = fd;
  inv_other chs chs' p :
    poller_inv chs p ->
    (∀ fd a c, channels_ p !! fd = Some a -> chs !! a = Some c ->
       ∃ c', chs' !! a = Some c' ∧ same_registration c c') ->
    poller_inv chs' p;
  update_new chs p a c :
    poller_inv chs p -> a ≠ 0 -> chs !! a = Some c -> 0 <= fd_ c -> index_ c = -1 ->
    channels_ p !! fd_ c = None ->
    ∃ p' i, updateChannel a (chs, p) = Ok (tt, (<[a := set_index i c]> chs, p')) ∧
      poller_inv (<[a := set_index i c]> chs) p' ∧ channels_ p' = <[fd_ c := a]> (channels_ p);
  update_known chs p a c :
    poller_inv chs p -> chs !! a = Some c -> channels_ p !! fd_ c = Some a ->
    ∃ p' i, updateChannel a (chs, p) = Ok (tt, (<[a := set_index i c]> chs, p')) ∧
      poller_inv (<[a := set_index i c]> chs) p' ∧ channels_ p' = channels_ p ∧
      (events_ c = 0 -> removable a (<[a := set_index i c]> chs) p');
  remove_parked chs p a c :
    poller_inv chs p -> chs !! a = Some c -> events_ c = 0 -> removable a chs p ->
    ∃ chs' p', removeChannel a (chs, p) = Ok (tt, (chs', p')) ∧ poller_inv chs' p' ∧
      channels_ p' = delete (fd_ c) (channels_ p) ∧
      (∀ b d, chs !! b = Some d -> ∃ i, chs' !! b = Some (set_index i d));
  removable_other chs chs' p a :
    removable a chs p ->
    (∀ c, chs !! a = Some c -> ∃ c', chs' !! a = Some c' ∧ same_registration c c' ∧ events_ c' = events_ c) ->
    removable a chs' p }.

(** [Poller::hasChannel] *)
Definition hasChannel {P} `{Poller P} (a : Z) (s : Chans * P) : res bool :=
  match s.1 !! a with
  | None => Fault UB
  | Some c => Ok (bool_decide (channels_ s.2 !! fd_ c = Some a))
  end.

(** * The loop's side *)

(** The part of an [EventLoop] that guards its poller. *)
Record LoopChannels (P : Type) := mkLoop {
  chans : Chans;
  poller_ : P;
  inLoopThread : bool;
  loopHandling : bool;              (* EventLoop::eventHandling_ *)
  currentActiveChannel_ : option Z;
  activeChannels_ : list Z }.
Arguments mkLoop {P}.
Arguments chans {P}.
Arguments poller_ {P}.
Arguments inLoopThread {P}.
Arguments loopHandling {P}.
Arguments currentActiveChannel_ {P}.
Arguments activeChannels_ {P}.

Section loop.
Context {P : Type} `{PollerLaws P}.

Definition with_poller (m : M (Chans * P) unit) : M (LoopChannels P) unit := λ l,
  match m (chans l, poller_ l) with
  | Ok (_, (chs, p)) =>
      Ok (tt, mkLoop chs p (inLoopThread l) (loopHandling l) (currentActiveChannel_ l) (activeChannels_ l))
  | Fault f => Fault f
  end.

Definition assertInLoopThread : M (LoopChannels P) unit := λ l,
  if inLoopThread l then Ok (tt, l) else Fault FatalLog.

Definition on_channel (f : Channel -> Channel) (a : Z) : M (LoopChannels P) unit := λ l,
  match chans l !! a with
  | Some c => Ok (tt, mkLoop (<[a := f c]> (chans l)) (poller_ l) (inLoopThread l) (loopHandling l)
                        (currentActiveChannel_ l) (activeChannels_ l))
  | None => Fault UB
  end.

(** [EventLoop::updateChannel], of a channel of this loop. *)
Definition loop_updateChannel (a : Z) : M (LoopChannels P) unit :=
  assertInLoopThread ;; with_poller (updateChannel a).

(** [EventLoop::removeChannel] *)
Definition loop_removeChannel (a : Z) : M (LoopChannels P) unit :=
  assertInLoopThread ;;
  l ← get;
  when (loopHandling l)
    (assert (bool_decide (currentActiveChannel_ l = Some a) || bool_decide (a ∉ activeChannels_ l))) ;;
  with_poller (removeChannel a).

(** [EventLoop::hasChannel] *)
Definition loop_hasChannel (a : Z) : M (LoopChannels P) bool :=
  assertInLoopThread ;;
  l ← get;
  match hasChannel a (chans l, poller_ l) with Ok b => mret b | Fault f => fail f end.

(** [Channel::update] *)
Definition update (a : Z) : M (LoopChannels P) unit :=
  on_channel (set_added true) a ;; loop_updateChannel a.

(** [enableReading()], ... as the callers use them: set the events, then [update()]. *)
Definition channel_enableReading (a : Z) : M (LoopChannels P) unit := on_channel enableReading a ;; update a.
Definition channel_enableWriting (a : Z) : M (LoopChannels P) unit := on_channel enableWriting a ;; update a.
Definition channel_disableReading (a : Z) : M (LoopChannels P) unit := on_channel disableReading a ;; update a.
Definition channel_disableWriting (a : Z) : M (LoopChannels P) unit := on_channel disableWriting a ;; update a.
Definition channel_disableAll (a : Z) : M (LoopChannels P) unit := on_channel disableAll a ;; update a.

(** [Channel::remove] *)
Definition remove (a : Z) : M (LoopChannels P) unit :=
  l ← get;
  c ← of_option UB (chans l !! a);
  assert (isNoneEvent c) ;;
  on_channel (set_added false) a ;;
  loop_removeChannel a.

(** * What clients can rely on *)

Definition loop_inv (l : LoopChannels P) : Prop :=
  inLoopThread l = true ∧ poller_inv (chans l) (poller_ l).

Definition registered (a : Z) (l : LoopChannels P) : Prop :=
  ∃ c, chans l !! a = Some c ∧ channels_ (poller_ l) !! fd_ c = Some a.

Lemma loop_hasChannel_registered a l : loop_inv l -> registered a l -> loop_hasChannel a l = Ok (true, l).
Proof.
  intros [Hl _] (c & Hc & Hreg). unfold loop_hasChannel, assertInLoopThread. msimp. rewrite Hl. unfold hasChannel. simpl.
  by rewrite Hc, bool_decide_true.
Qed.

(** Changes of a channel that leave its descriptor and its index alone. *)
Definition keeps (f : Channel -> Channel) : Prop := ∀ c, same_registration c (f c).

Lemma inv_insert chs p a c f :
  poller_inv chs p -> chs !! a = Some c -> keeps f -> poller_inv (<[a := f c]> chs) p.
Proof.
  intros Hi Hc Hf. eapply inv_other; [exact Hi|]. intros fd b d Hb Hd.
  destruct (decide (a = b)) as [<-|Hne].
  - rewrite lookup_insert_eq. rewrite Hc in Hd. injection Hd as <-. eexists. split; [reflexivity|apply Hf].
  - rewrite lookup_insert_ne by done. exists d. by split.
Qed.

(** Every assignment of events followed by [update()], on a channel that is registered. *)
Lemma update_registered f a l :
  keeps f -> (∀ c, addedToLoop_ (f c) = addedToLoop_ c) -> loop_inv l -> registered a l ->
  ∃ l' c i, (on_channel f a ;; update a) l = Ok (tt, l') ∧ chans l !! a = Some c ∧ loop_inv l' ∧
    chans l' = <[a := set_index i (set_added true (f c))]> (chans l) ∧
    channels_ (poller_ l') = channels_ (poller_ l) ∧ loopHandling l' = loopHandling l ∧
    currentActiveChannel_ l' = currentActiveChannel_ l ∧ activeChannels_ l' = activeChannels_ l ∧
    (events_ (f c) = 0 -> removable a (chans l') (poller_ l')).
Proof.
  intros Hf Hadd (Hl & Hi) (c & Hc & Hreg).
  set (c1 := set_added true (f c)).
  set (chs1 := <[a := c1]> (chans l)).
  assert (poller_inv chs1 (poller_ l)) as Hi1.
  { apply (inv_insert _ _ a c (λ c, set_added true (f c))); [done|done|]. intros d. apply Hf. }
  assert (chs1 !! a = Some c1) as Hc1 by apply lookup_insert_eq.
  assert (fd_ c1 = fd_ c) as Hfd by apply Hf.
  destruct (update_known chs1 (poller_ l) a c1) as (p' & i & E & Hi' & Hch & Hrem);
    [done|done|by rewrite Hfd|].
  exists (mkLoop (<[a := set_index i c1]> chs1) p' (inLoopThread l) (loopHandling l)
            (currentActiveChannel_ l) (activeChannels_ l)), c, i.
  split; [|split_and!; try done].
  - unfold update, loop_updateChannel, on_channel, assertInLoopThread, with_poller. msimp.
    rewrite Hc. simpl. rewrite lookup_insert_eq. simpl. rewrite insert_insert_eq. fold c1. rewrite Hl. simpl.
    fold chs1. by rewrite E.
  - subst chs1. simpl. by rewrite insert_insert_eq.
Qed.

(** The first update of a channel. *)
Lemma update_fresh f a c l :
  keeps f -> loop_inv l -> a ≠ 0 -> chans l !! a = Some c -> 0 <= fd_ c -> index_ c = -1 ->
  channels_ (poller_ l) !! fd_ c = None ->
  ∃ l' i, (on_channel f a ;; update a) l = Ok (tt, l') ∧ loop_inv l' ∧
    chans l' = <[a := set_index i (set_added true (f c))]> (chans l) ∧
    channels_ (poller_ l') = <[fd_ c := a]> (channels_ (poller_ l)) ∧ loopHandling l' = loopHandling l ∧
    currentActiveChannel_ l' = currentActiveChannel_ l ∧ activeChannels_ l' = activeChannels_ l.
Proof.
  intros Hf (Hl & Hi) Ha0 Hc Hfd0 Hidx Hnone.
  set (c1 := set_added true (f c)). set (chs1 := <[a := c1]> (chans l)).
  assert (poller_inv chs1 (poller_ l)) as Hi1.
  { apply (inv_insert _ _ a c (λ c, set_added true (f c))); [done|done|]. intros d. apply Hf. }
  assert (chs1 !! a = Some c1) as Hc1 by apply lookup_insert_eq.
  assert (fd_ c1 = fd_ c ∧ index_ c1 = index_ c) as [Hfd Hix] by apply Hf.
  destruct (update_new chs1 (poller_ l) a c1) as (p' & i & E & Hi' & Hch); rewrite ?Hfd, ?Hix; try done.
  exists (mkLoop (<[a := set_index i c1]> chs1) p' (inLoopThread l) (loopHandling l)
            (currentActiveChannel_ l) (activeChannels_ l)), i.
  split; [|split_and!; try done].
  - unfold update, loop_updateChannel, on_channel, assertInLoopThread, with_poller. msimp.
    rewrite Hc. simpl. rewrite lookup_insert_eq. simpl. rewrite insert_insert_eq. fold c1. rewrite Hl. simpl.
    fold chs1. by rewrite E.
  - subst chs1. simpl. by rewrite insert_insert_eq.
  - simpl. by rewrite Hch, Hfd.
Qed.

(** Removing a parked channel, with what it leaves alone. *)
Lemma remove_frame a c l :
  loop_inv l -> chans l !! a = Some c -> events_ c = 0 -> removable a (chans l) (poller_ l) ->
  (loopHandling l = true -> currentActiveChannel_ l = Some a ∨ a ∉ activeChannels_ l) ->
  ∃ l', remove a l = Ok (tt, l') ∧ loop_inv l' ∧
    channels_ (poller_ l') = delete (fd_ c) (channels_ (poller_ l)) ∧
    (∀ b d, (if decide (b = a) then Some (set_added false c) else chans l !! b) = Some d ->
       ∃ i, chans l' !! b = Some (set_index i d)) ∧
    loopHandling l' = loopHandling l ∧ currentActiveChannel_ l' = currentActiveChannel_ l ∧
    activeChannels_ l' = activeChannels_ l.
Proof.
  intros (Hl & Hi) Hc Hev Hrem Hact.
  set (chs1 := <[a := set_added false c]> (chans l)).
  assert (chs1 !! a = Some (set_added false c)) as Hc1 by apply lookup_insert_eq.
  assert (poller_inv chs1 (poller_ l)) as Hi1 by (by apply inv_insert).
  assert (removable a chs1 (poller_ l)) as Hrem1.
  { eapply removable_other; [exact Hrem|]. intros d Hd. rewrite Hc in Hd. injection Hd as <-.
    eexists. split; [exact Hc1|done]. }
  destruct (remove_parked chs1 (poller_ l) a (set_added false c) Hi1 Hc1 Hev Hrem1)
    as (chs' & p' & E & Hi' & Hch & Hkeep).
  exists (mkLoop chs' p' (inLoopThread l) (loopHandling l) (currentActiveChannel_ l) (activeChannels_ l)).
  split; [|split_and!; try done].
  2:{ intros b d Hd. apply Hkeep. subst chs1. case_decide as Hb; [by rewrite Hb, lookup_insert_eq|by rewrite lookup_insert_ne]. }
  unfold remove. rewrite (bind_Ok _ _ l l l), (bind_Ok _ _ l c l) by (done || by rewrite Hc).
  rewrite (bind_Ok _ _ l tt l) by (unfold isNoneEvent, kNoneEvent; by rewrite Hev).
  set (l1 := mkLoop chs1 (poller_ l) (inLoopThread l) (loopHandling l) (currentActiveChannel_ l) (activeChannels_ l)).
  rewrite (bind_Ok _ _ l tt l1) by (unfold on_channel; by rewrite Hc).
  unfold loop_removeChannel. rewrite (bind_Ok _ _ l1 tt l1) by (unfold assertInLoopThread; simpl; by rewrite Hl).
  rewrite (bind_Ok _ _ l1 l1 l1) by done. rewrite (bind_Ok _ _ l1 tt l1).
  - unfold with_poller. simpl. by rewrite E.
  - unfold when. simpl. destruct (loopHandling l); [|done]. apply assert_Ok.
    apply orb_true_iff. rewrite !bool_decide_eq_true. auto.
Qed.

(** Removing a parked channel. *)
Lemma remove_spec a c l :
  loop_inv l -> chans l !! a = Some c -> events_ c = 0 -> removable a (chans l) (poller_ l) ->
  (loopHandling l = true -> currentActiveChannel_ l = Some a ∨ a ∉ activeChannels_ l) ->
  ∃ l', remove a l = Ok (tt, l') ∧ loop_inv l' ∧
    channels_ (poller_ l') = delete (fd_ c) (channels_ (poller_ l)) ∧
    (∃ i, chans l' !! a = Some (set_index i (set_added false c))).
Proof.
  intros Hi Hc Hev Hrem Hact. destruct (remove_frame a c l Hi Hc Hev Hrem Hact) as (l' & E & Hi' & Hch & Hk & _).
  exists l'. split_and!; try done. apply Hk. by rewrite decide_True.
Qed.

(** The loop refuses to remove an active channel other than the one being handled. *)
Lemma remove_refused a c l :
  inLoopThread l = true -> chans l !! a = Some c -> events_ c = 0 -> loopHandling l = true ->
  currentActiveChannel_ l ≠ Some a -> a ∈ activeChannels_ l -> remove a l = Fault AssertFail.
Proof.
  intros Hl Hc Hev Hh Hcur Hact. unfold remove. rewrite (bind_Ok _ _ l l l), (bind_Ok _ _ l c l) by (done || by rewrite Hc).
  rewrite (bind_Ok _ _ l tt l) by (unfold isNoneEvent, kNoneEvent; by rewrite Hev).
  set (l1 := mkLoop (<[a := set_added false c]> (chans l)) (poller_ l) (inLoopThread l) (loopHandling l)
               (currentActiveChannel_ l) (activeChannels_ l)).
  rewrite (bind_Ok _ _ l tt l1) by (unfold on_channel; by rewrite Hc).
  unfold loop_removeChannel. rewrite (bind_Ok _ _ l1 tt l1) by (unfold assertInLoopThread; simpl; by rewrite Hl).
  rewrite (bind_Ok _ _ l1 l1 l1) by done. unfold when, assert. simpl. rewrite Hh.
  rewrite (bool_decide_eq_false_2 _ Hcur), (bool_decide_eq_false_2 (a ∉ _)) by (by intros X). done.
Qed.
End loop.
