(* ===== verification/PollPoller.v ===== *)
(** The poll poller: [PracticeMuduo/reactor.muduo/PollPoller.cpp].  A channel's index is
    its position in the array passed to [poll]; parking a channel turns its entry's
    descriptor [fd] into [-fd-1], and removing one moves the last entry into its place. *)
From S2P Require Import Prelude Channel Poller.
Open Scope list_scope.

Record pollfd := mkPollfd { pfd_fd : Z; pfd_events : Z; pfd_revents : Z }.

Record PollPoller := mkPoll { pp_channels : gmap Z Z; pollfds_ : list pollfd }.

Abbreviation PS := (Chans * PollPoller)%type.

Definition new_PollPoller : PollPoller := mkPoll ∅ [].

Definition set_pollfds (l : list pollfd) : M PS unit :=
  modify (λ s, (s.1, mkPoll (pp_channels s.2) l)).
Definition set_channels (m : gmap Z Z) : M PS unit :=
  modify (λ s, (s.1, mkPoll m (pollfds_ s.2))).

Definition pp_updateChannel (a : Z) : M PS unit :=
  c ← deref a;
  let fd := fd_ c in
  s ← get;
  if index_ c <? 0 then
    set_pollfds (pollfds_ s.2 ++ [mkPollfd fd (s16 (events_ c)) (s16 (revents_ c))]) ;;
    s ← get;
    set_channel a (set_index (zlen (pollfds_ s.2) - 1)) ;;
    s ← get;
    set_channels (<[fd := a]> (pp_channels s.2))
  else
    let idx := index_ c in
    assert ((0 <=? idx) && (idx <? zlen (pollfds_ s.2))) ;;
    pfd ← of_option UB (pollfds_ s.2 !! Z.to_nat idx);
    assert ((pfd_fd pfd =? fd) || (pfd_fd pfd =? - fd - 1)) ;;
    set_pollfds (<[Z.to_nat idx :=
      mkPollfd (if isNoneEvent c then - fd - 1 else pfd_fd pfd) (s16 (events_ c)) (s16 (revents_ c))]>
      (pollfds_ s.2)).

Definition pp_removeChannel (a : Z) : M PS unit :=
  c ← deref a;
  s ← get;
  let idx := index_ c in
  let n := length (pollfds_ s.2) in
  assert ((0 <=? idx) && (idx <? Z.of_nat n)) ;;
  pfd ← of_option UB (pollfds_ s.2 !! Z.to_nat idx);
  assert ((pfd_fd pfd =? - fd_ c - 1) && (pfd_events pfd =? events_ c)) ;;
  assert (bool_decide (is_Some (pp_channels s.2 !! fd_ c))) ;;
  set_channels (delete (fd_ c) (pp_channels s.2)) ;;
  if idx =? Z.of_nat n - 1 then set_pollfds (removelast (pollfds_ s.2))
  else
    back ← of_option UB (last (pollfds_ s.2));
    let channelAtEnd := if pfd_fd back <? 0 then - pfd_fd back - 1 else pfd_fd back in
    set_pollfds (<[(n - 1)%nat := pfd]> (<[Z.to_nat idx := back]> (pollfds_ s.2))) ;;
    s ← get;
    b ← of_option UB (pp_channels s.2 !! channelAtEnd);
    set_channel b (set_index idx) ;;
    s ← get;
    set_pollfds (removelast (pollfds_ s.2)).

(** [fillActiveChannels]: the loop over [pollfds_] while events are left.  The
    list of active channels is the result. *)
Fixpoint fill (i : nat) (l : list pollfd) (numEvents : Z) : M PS (list Z) :=
  match l with
  | [] => mret []
  | pfd :: l' =>
      if 0 <? numEvents then
        if 0 <? pfd_revents pfd then
          s ← get;
          a ← of_option AssertFail (pp_channels s.2 !! pfd_fd pfd);
          set_channel a (set_revents (pfd_revents pfd)) ;;
          set_pollfds (<[i := mkPollfd (pfd_fd pfd) (pfd_events pfd) 0]> (pollfds_ s.2)) ;;
          active ← fill (S i) l' (numEvents - 1);
          mret (a :: active)
        else fill (S i) l' numEvents
      else mret []
  end.

(** [poll], after [::poll] has stored the reported events in the entries and returned
    how many there are. *)
Definition pp_poll (reported : list Z) (numEvents : Z) : M PS (list Z) :=
  s ← get;
  let l := zip_with (λ p r, mkPollfd (pfd_fd p) (pfd_events p) r) (pollfds_ s.2) reported in
  set_pollfds l ;;
  if 0 <? numEvents then fill 0 l numEvents else mret [].

#[export] Instance PollPoller_Poller : Poller PollPoller := {
  updateChannel := pp_updateChannel;
  removeChannel := pp_removeChannel;
  channels_ := pp_channels }.

(** * The invariant *)

(** The descriptor an entry is about, parked or not. *)
Definition owner (p : pollfd) : Z := if pfd_fd p <? 0 then - pfd_fd p - 1 else pfd_fd p.

(** Every registered channel's entry is at its index, and every entry belongs to a
    registered channel. *)
Record pp_inv (chs : Chans) (p : PollPoller) : Prop := {
  pi_channel fd a : pp_channels p !! fd = Some a ->
    0 <= fd ∧ ∃ c i pfd, chs !! a = Some c ∧ fd_ c = fd ∧ index_ c = Z.of_nat i ∧
      pollfds_ p !! i = Some pfd ∧ owner pfd = fd;
  pi_entry i pfd : pollfds_ p !! i = Some pfd ->
    ∃ a c, pp_channels p !! owner pfd = Some a ∧ chs !! a = Some c ∧ index_ c = Z.of_nat i }.

(** Registered, with an entry that [poll] ignores. *)
Definition pp_parked (a : Z) (chs : Chans) (p : PollPoller) : Prop :=
  ∃ c i pfd, chs !! a = Some c ∧ pp_channels p !! fd_ c = Some a ∧ index_ c = Z.of_nat i ∧
    pollfds_ p !! i = Some pfd ∧ pfd_fd pfd = - fd_ c - 1 ∧ pfd_events pfd = events_ c.

Lemma pp_update_new chs p a c :
  pp_inv chs p -> chs !! a = Some c -> 0 <= fd_ c -> index_ c = -1 -> pp_channels p !! fd_ c = None ->
  let i := zlen (pollfds_ p) in
  let p' := mkPoll (<[fd_ c := a]> (pp_channels p))
              (pollfds_ p ++ [mkPollfd (fd_ c) (s16 (events_ c)) (s16 (revents_ c))]) in
  pp_updateChannel a (chs, p) = Ok (tt, (<[a := set_index i c]> chs, p')) ∧
  pp_inv (<[a := set_index i c]> chs) p'.
Proof.
  intros [H1 H2] Hc Hfd Hix Hnone i p'. split.
  - unfold pp_updateChannel. rewrite (bind_Ok _ _ _ _ _ (deref_Ok a c (chs, p) Hc)).
    rewrite (bind_Ok _ _ (chs, p) (chs, p) (chs, p)) by done. rewrite Hix. cbn [fst snd].
    change (-1 <? 0) with true. cbv iota.
    set (p1 := mkPoll (pp_channels p) (pollfds_ p')).
    rewrite (bind_Ok _ _ (chs, p) tt (chs, p1)), (bind_Ok _ _ (chs, p1) (chs, p1) (chs, p1)) by done.
    rewrite (bind_Ok _ _ _ _ _ (set_channel_Ok a c _ (chs, p1) Hc)). cbn [fst snd pollfds_ p1 p'].
    rewrite length_app. cbn [length]. replace (Z.of_nat (length (pollfds_ p) + 1) - 1) with i by lia. done.
  - assert (∀ fd b, pp_channels p !! fd = Some b -> b ≠ a) as Hne.
    { intros fd b Hb ->. destruct (H1 fd a Hb) as (_ & d & j & _ & Hd & _ & Hj & _).
      rewrite Hc in Hd. injection Hd as <-. lia. }
    split; simpl.
    + intros fd b Hb. destruct (decide (fd = fd_ c)) as [->|Hfdne].
      * rewrite lookup_insert_eq in Hb. injection Hb as <-. split; [done|].
        eexists _, (length (pollfds_ p)), _. rewrite lookup_insert_eq. split_and!; [done..| |].
        -- by apply list_lookup_middle.
        -- unfold owner. simpl. by rewrite (proj2 (Z.ltb_ge _ 0)).
      * rewrite lookup_insert_ne in Hb by done. destruct (H1 fd b Hb) as (? & d & j & pfd & Hd & ? & ? & Hp & ?).
        split; [done|]. exists d, j, pfd. rewrite lookup_insert_ne by (intros ->; by eapply Hne).
        split_and!; [done..| |done]. by apply lookup_app_l_Some.
    + intros j pfd [Hp|[Hj Hp]]%lookup_app_Some.
      * destruct (H2 j pfd Hp) as (b & d & Hb & Hd & ?). exists b, d.
        rewrite !lookup_insert_ne; [by split_and!|by intros ->; by eapply Hne|].
        intros Heq. by rewrite <- Heq, Hnone in Hb.
      * apply list_lookup_singleton_Some in Hp as [Hj0 <-].
        assert (owner (mkPollfd (fd_ c) (s16 (events_ c)) (s16 (revents_ c))) = fd_ c) as ->
          by (unfold owner; simpl; by rewrite (proj2 (Z.ltb_ge _ 0))).
        eexists a, _. rewrite !lookup_insert_eq. split_and!; [done..|]. subst i. simpl. lia.
Qed.

(** Replacing the entry of a channel by one about the same descriptor. *)
Lemma pp_inv_entry chs p i pfd pfd' :
  pp_inv chs p -> pollfds_ p !! i = Some pfd -> owner pfd' = owner pfd ->
  pp_inv chs (mkPoll (pp_channels p) (<[i := pfd']> (pollfds_ p))).
Proof.
  intros [H1 H2] Hi Ho. assert (i < length (pollfds_ p))%nat as Hlt by (by apply lookup_lt_Some in Hi).
  split; simpl.
  - intros fd b Hb. destruct (H1 fd b Hb) as (? & d & j & q & ? & ? & ? & Hq & Hoq).
    split; [done|]. destruct (decide (i = j)) as [<-|Hne].
    + exists d, i, pfd'. rewrite list_lookup_insert_eq by done. split_and!; [done..|]. rewrite Hi in Hq.
      injection Hq as <-. congruence.
    + exists d, j, q. rewrite list_lookup_insert_ne by done. done.
  - intros j q. destruct (decide (i = j)) as [<-|Hne].
    + rewrite list_lookup_insert_eq by done. intros [= <-]. rewrite Ho. by apply H2.
    + rewrite list_lookup_insert_ne by done. apply H2.
Qed.

Lemma set_index_id c i : index_ c = i -> set_index i c = c.
Proof. intros <-. by destruct c. Qed.

Lemma pp_update_known chs p a c :
  pp_inv chs p -> chs !! a = Some c -> pp_channels p !! fd_ c = Some a ->
  ∃ i pfd, index_ c = Z.of_nat i ∧ pollfds_ p !! i = Some pfd ∧ owner pfd = fd_ c ∧
    let p' := mkPoll (pp_channels p) (<[i :=
      mkPollfd (if isNoneEvent c then - fd_ c - 1 else pfd_fd pfd) (s16 (events_ c)) (s16 (revents_ c))]>
      (pollfds_ p)) in
    pp_updateChannel a (chs, p) = Ok (tt, (chs, p')) ∧ pp_inv chs p'.
Proof.
  intros Hi Hc Hch. pose proof Hi as [H1 H2].
  destruct (H1 _ _ Hch) as (Hfd & d & i & pfd & Hd & _ & Hix & Hp & Ho). rewrite Hc in Hd. injection Hd as <-.
  assert (pfd_fd pfd = fd_ c ∨ pfd_fd pfd = - fd_ c - 1) as Hpf
    by (unfold owner in Ho; destruct (Z.ltb_spec (pfd_fd pfd) 0); lia).
  exists i, pfd. split_and!; [done..|]. split.
  - unfold pp_updateChannel. rewrite (bind_Ok _ _ _ _ _ (deref_Ok a c (chs, p) Hc)).
    rewrite (bind_Ok _ _ (chs, p) (chs, p) (chs, p)) by done. rewrite Hix. cbn [fst snd].
    rewrite (proj2 (Z.ltb_ge _ 0)) by lia.
    assert (i < length (pollfds_ p))%nat as Hlt by (by apply lookup_lt_Some in Hp).
    rewrite (bind_Ok _ _ (chs, p) tt (chs, p)).
    2:{ apply assert_Ok. rewrite (proj2 (Z.leb_le _ _)), (proj2 (Z.ltb_lt _ _)) by lia. done. }
    rewrite Nat2Z.id. rewrite (bind_Ok _ _ (chs, p) pfd (chs, p)) by (by rewrite Hp).
    rewrite (bind_Ok _ _ (chs, p) tt (chs, p)); [done|]. apply assert_Ok, orb_true_iff.
    rewrite !Z.eqb_eq. done.
  - apply (pp_inv_entry chs p i pfd); [done|done|]. unfold owner. simpl.
    destruct (isNoneEvent c); [|done]. rewrite (proj2 (Z.ltb_lt _ 0)) by lia.
    unfold owner in Ho. lia.
Qed.

(** The array after entry [i] has been replaced by the last one. *)
Definition swap_remove (i : nat) (back : pollfd) (l : list pollfd) : list pollfd :=
  take (length l - 1) (<[i := back]> l).

Lemma lookup_swap_remove i back l j :
  (i < length l)%nat ->
  swap_remove i back l !! j =
  if decide (j < length l - 1)%nat then if decide (j = i) then Some back else l !! j else None.
Proof.
  intros Hi. unfold swap_remove. case_decide as Hj.
  - rewrite lookup_take_lt by done. case_decide as Hji; [subst; by rewrite list_lookup_insert_eq|].
    by rewrite list_lookup_insert_ne.
  - apply lookup_take_ge. lia.
Qed.

Lemma removelast_take {A} (l : list A) : removelast l = take (length l - 1) l.
Proof. rewrite removelast_firstn_len. f_equal. lia. Qed.

(** Who else could claim the parked channel's place. *)
Lemma pp_inv_unique chs p i j a c pfd :
  pp_inv chs p -> chs !! a = Some c -> pp_channels p !! fd_ c = Some a -> index_ c = Z.of_nat i ->
  pollfds_ p !! j = Some pfd -> owner pfd = fd_ c -> j = i.
Proof.
  intros [H1 H2] Hc Hch Hix Hj Ho. destruct (H2 j pfd Hj) as (b & d & Hb & Hd & Hdi).
  rewrite Ho, Hch in Hb. injection Hb as <-. rewrite Hc in Hd. injection Hd as <-. lia.
Qed.

Lemma pp_inv_removed chs p a c i back b d :
  pp_inv chs p -> chs !! a = Some c -> pp_channels p !! fd_ c = Some a -> index_ c = Z.of_nat i ->
  last (pollfds_ p) = Some back -> pp_channels p !! owner back = Some b -> chs !! b = Some d ->
  pp_inv (<[b := set_index (Z.of_nat i) d]> chs)
         (mkPoll (delete (fd_ c) (pp_channels p)) (swap_remove i back (pollfds_ p))).
Proof.
  intros Hi Hc Hch Hix Hback Hb Hd. pose proof Hi as [H1 H2]. set (l := pollfds_ p) in *.
  rewrite last_lookup in Hback. replace (pred (length l)) with (length l - 1)%nat in Hback by lia.
  assert (i < length l)%nat as Hlt.
  { destruct (H1 _ _ Hch) as (_ & d' & j & q & Hd' & _ & Hj & Hq & _). rewrite Hc in Hd'. injection Hd' as <-.
    apply lookup_lt_Some in Hq. fold l in Hq. lia. }
  destruct (H2 _ _ Hback) as (b' & d' & Hb' & Hd' & Hdi). rewrite Hb in Hb'. injection Hb' as <-.
  rewrite Hd in Hd'. injection Hd' as <-.
  assert (fd_ d = owner back) as Hdfd.
  { destruct (H1 _ _ Hb) as (_ & e & _ & _ & He & Hfd & _). congruence. }
  split; simpl.
  - intros fd x Hx. apply lookup_delete_Some in Hx as [Hfdne Hx].
    destruct (H1 fd x Hx) as (Hfd & e & j & q & He & Hefd & Hej & Hq & Hqo). split; [done|]. fold l in Hq.
    pose proof (lookup_lt_Some _ _ _ Hq) as Hjlt.
    destruct (decide (x = b)) as [->|Hxb].
    + rewrite Hd in He. injection He as <-. assert (j = length l - 1)%nat as -> by lia.
      rewrite Hback in Hq. injection Hq as <-.
      exists (set_index (Z.of_nat i) d), i, back. rewrite lookup_insert_eq, lookup_swap_remove by done.
      assert (i ≠ length l - 1)%nat.
      { intros E. apply Hfdne. rewrite <- Hefd. destruct (H1 _ _ Hch) as (_ & c' & i' & q & Hc' & _ & Hi' & Hq & Hqo').
        rewrite Hc in Hc'. injection Hc' as <-. assert (i' = i) as -> by lia. fold l in Hq.
        rewrite E, Hback in Hq. injection Hq as <-. congruence. }
      rewrite decide_True by lia. rewrite decide_True by done. by split_and!.
    + exists e, j, q. rewrite lookup_insert_ne by done. rewrite lookup_swap_remove by done.
      assert (j ≠ length l - 1)%nat.
      { intros ->. rewrite Hback in Hq. injection Hq as <-. congruence. }
      assert (j ≠ i) as Hji.
      { intros ->. destruct (H1 _ _ Hch) as (_ & c' & i' & q' & Hc' & _ & Hi' & Hq' & Hqo').
        rewrite Hc in Hc'. injection Hc' as <-. assert (i' = i) as -> by lia. fold l in Hq'.
        rewrite Hq in Hq'. injection Hq' as <-. congruence. }
      rewrite decide_True by lia. rewrite decide_False by done. by split_and!.
  - intros j q. rewrite lookup_swap_remove by done. repeat case_decide; [|..|done].
    + intros [= <-]. subst j. exists b, (set_index (Z.of_nat i) d). rewrite lookup_insert_eq.
      split_and!; [|done..]. rewrite lookup_delete_ne; [done|]. intros Ho.
      pose proof (pp_inv_unique chs p i _ a c back Hi Hc Hch Hix Hback (eq_sym Ho)). lia.
    + intros Hq. destruct (H2 j q Hq) as (x & e & Hx & He & Hej). exists x, e.
      rewrite lookup_delete_ne.
      * split_and!; [done| |done]. rewrite lookup_insert_ne; [done|]. intros ->.
        rewrite Hd in He. injection He as <-. lia.
      * intros Ho. pose proof (pp_inv_unique chs p i j a c q Hi Hc Hch Hix Hq (eq_sym Ho)). done.
Qed.

Lemma pp_removeChannel_spec chs p a c :
  pp_inv chs p -> chs !! a = Some c -> pp_parked a chs p ->
  ∃ chs' l', pp_removeChannel a (chs, p) = Ok (tt, (chs', mkPoll (delete (fd_ c) (pp_channels p)) l')) ∧
    pp_inv chs' (mkPoll (delete (fd_ c) (pp_channels p)) l') ∧
    length l' = (length (pollfds_ p) - 1)%nat ∧ (0 < length (pollfds_ p))%nat ∧
    ∀ b d, chs !! b = Some d -> ∃ i, chs' !! b = Some (set_index i d).
Proof.
  intros Hi Hc (c' & i & pfd & Hc' & Hch & Hix & Hp & Hpf & Hpe). rewrite Hc in Hc'. injection Hc' as <-.
  pose proof Hi as [H1 H2]. set (l := pollfds_ p) in *.
  assert (i < length l)%nat as Hlt by (by apply lookup_lt_Some in Hp).
  destruct (last l) as [back|] eqn:Hback; [|by apply last_None in Hback; rewrite Hback in Hlt; simpl in Hlt; lia].
  pose proof Hback as Hb. rewrite last_lookup in Hb.
  destruct (H2 _ _ Hb) as (b & d & Hchb & Hd & Hdi).
  pose proof (pp_inv_removed chs p a c i back b d Hi Hc Hch Hix Hback Hchb Hd) as Hinv. fold l in Hinv.
  set (p1 := mkPoll (delete (fd_ c) (pp_channels p)) l).
  exists (<[b := set_index (Z.of_nat i) d]> chs), (swap_remove i back l).
  split; [|split; [done|split; [|split; [fold l; lia|]]]].
  - unfold pp_removeChannel. rewrite (bind_Ok _ _ _ _ _ (deref_Ok a c (chs, p) Hc)).
    rewrite (bind_Ok _ _ (chs, p) (chs, p) (chs, p)) by done. cbn [fst snd]. fold l. rewrite Hix, Nat2Z.id.
    rewrite (bind_Ok _ _ (chs, p) tt (chs, p)).
    2:{ apply assert_Ok. rewrite (proj2 (Z.leb_le _ _)), (proj2 (Z.ltb_lt _ _)) by lia. done. }
    rewrite (bind_Ok _ _ (chs, p) pfd (chs, p)) by (by rewrite Hp).
    rewrite (bind_Ok _ _ (chs, p) tt (chs, p)) by (apply assert_Ok; by rewrite Hpf, Hpe, !Z.eqb_refl).
    rewrite (bind_Ok _ _ (chs, p) tt (chs, p)) by (apply assert_Ok, bool_decide_eq_true; eauto).
    rewrite (bind_Ok _ _ (chs, p) tt (chs, p1)) by done.
    destruct (Z.eqb_spec (Z.of_nat i) (Z.of_nat (length l) - 1)) as [E|E].
    + unfold set_pollfds. msimp. cbn [fst snd pp_channels p1]. rewrite removelast_take.
      assert (i = pred (length l)) as -> by lia. rewrite Hb in Hp. injection Hp as <-.
      unfold swap_remove. rewrite list_insert_id by done. do 3 f_equal. symmetry. apply insert_id.
      rewrite Hd. f_equal. symmetry. apply set_index_id. done.
    + rewrite (bind_Ok _ _ (chs, p1) back (chs, p1)) by (by rewrite Hback). fold (owner back).
      assert (pp_channels p1 !! owner back = Some b) as Hb1.
      { simpl. rewrite lookup_delete_ne; [done|]. intros Ho.
        pose proof (pp_inv_unique chs p i _ a c back Hi Hc Hch Hix Hb (eq_sym Ho)). lia. }
      set (p2 := mkPoll (pp_channels p1) (<[(length l - 1)%nat := pfd]> (<[i := back]> l))).
      rewrite (bind_Ok _ _ (chs, p1) tt (chs, p2)), (bind_Ok _ _ (chs, p2) (chs, p2) (chs, p2)) by done.
      rewrite (bind_Ok _ _ (chs, p2) b (chs, p2)) by (cbn [fst snd]; change (pp_channels p2) with (pp_channels p1); by rewrite Hb1).
      rewrite (bind_Ok _ _ _ _ _ (set_channel_Ok b d _ (chs, p2) Hd)). msimp. unfold set_pollfds. msimp.
      cbn [fst snd pp_channels pollfds_ p2 p1]. rewrite removelast_take, !length_insert.
      unfold swap_remove. by rewrite take_insert_ge by lia.
  - unfold swap_remove. rewrite length_take, length_insert. fold l. lia.
  - intros x e Hx. destruct (decide (b = x)) as [<-|Hne].
    + rewrite Hd in Hx. injection Hx as <-. rewrite lookup_insert_eq. eauto.
    + exists (index_ e). rewrite lookup_insert_ne by done. rewrite Hx. f_equal. symmetry. by apply set_index_id.
Qed.

#[export] Program Instance PollPoller_Laws : PollerLaws PollPoller := {
  poller_inv := pp_inv;
  removable := pp_parked }.
Next Obligation.
  intros chs p fd a Hi Hch. destruct (pi_channel _ _ Hi _ _ Hch) as (_ & c & _ & _ & ? & ? & _). eauto.
Qed.
Next Obligation.
  intros chs chs' p [H1 H2] Hsame. split.
  - intros fd a Hch. destruct (H1 fd a Hch) as (? & c & i & pfd & Hc & Hfd & Hix & ? & ?). split; [done|].
    destruct (Hsame fd a c Hch Hc) as (c' & Hc' & Hfd' & Hix'). exists c', i, pfd. split_and!; congruence.
  - intros i pfd Hp. destruct (H2 i pfd Hp) as (a & c & Hch & Hc & Hix).
    destruct (Hsame _ a c Hch Hc) as (c' & Hc' & _ & Hix'). exists a, c'. split_and!; congruence.
Qed.
Next Obligation.
  intros chs p a c Hi _ Hc Hfd Hix Hnone.
  destruct (pp_update_new chs p a c Hi Hc Hfd Hix Hnone) as [E Hi']. eauto.
Qed.
Next Obligation.
  intros chs p a c Hi Hc Hch.
  destruct (pp_update_known chs p a c Hi Hc Hch) as (i & pfd & Hix & Hp & Ho & E & Hi').
  exists (mkPoll (pp_channels p) (<[i := mkPollfd (if isNoneEvent c then - fd_ c - 1 else pfd_fd pfd)
    (s16 (events_ c)) (s16 (revents_ c))]> (pollfds_ p))), (index_ c).
  rewrite (set_index_id c _ eq_refl), (insert_id chs) by done.
  split; [exact E|]. split; [exact Hi'|]. split; [done|]. intros Hev.
  exists c, i, (mkPollfd (- fd_ c - 1) 0 (s16 (revents_ c))). cbn [pp_channels pollfds_ pfd_fd pfd_events].
  split_and!; try done. unfold isNoneEvent, kNoneEvent. rewrite Hev. simpl.
  apply list_lookup_insert_eq. by apply lookup_lt_Some in Hp.
Qed.
Next Obligation.
  intros chs p a c Hi Hc Hev Hpark.
  destruct (pp_removeChannel_spec chs p a c Hi Hc Hpark) as (chs' & l' & E & Hi' & _ & _ & Hkeep).
  eexists _, _. split; [exact E|]. split; [exact Hi'|]. split; [done|exact Hkeep].
Qed.
Next Obligation.
  intros chs chs' p a (c & i & pfd & Hc & Hch & Hix & Hp & Hpf & Hpe) Hsame.
  destruct (Hsame c Hc) as (c' & Hc' & [Hfd Hix'] & Hev). exists c', i, pfd. rewrite Hfd, Hix', Hev. by split_and!.
Qed.

(** C26: removal keeps the poll array consistent: removing a parked channel fails no
    assertion, takes exactly its descriptor out, and afterwards - although the last entry
    has moved into its place - every remaining channel's index is again the position of
    the entry about its descriptor, and every entry belongs to a registered channel. *)
Theorem PollPoller_remove chs p a c :
  pp_inv chs p -> chs !! a = Some c -> pp_parked a chs p ->
  ∃ chs' p', pp_removeChannel a (chs, p) = Ok (tt, (chs', p')) ∧
    pp_channels p' = delete (fd_ c) (pp_channels p) ∧
    S (length (pollfds_ p')) = length (pollfds_ p) ∧
    (∀ fd b, pp_channels p' !! fd = Some b -> ∃ d i pfd, chs' !! b = Some d ∧ fd_ d = fd ∧
       index_ d = Z.of_nat i ∧ pollfds_ p' !! i = Some pfd ∧ owner pfd = fd) ∧
    (∀ i pfd, pollfds_ p' !! i = Some pfd -> ∃ b, pp_channels p' !! owner pfd = Some b).
Proof.
  intros Hi Hc Hpark. destruct (pp_removeChannel_spec chs p a c Hi Hc Hpark) as (chs' & l' & E & Hi' & HL & HL0 & _).
  eexists _, _. split; [exact E|]. split; [done|]. split.
  - cbn [pollfds_]. lia.
  - split; [intros fd b Hb; apply (pi_channel _ _ Hi' fd b Hb)|].
    intros i pfd Hp. destruct (pi_entry _ _ Hi' i pfd Hp) as (b & _ & Hb & _). eauto.
Qed.

(** A parked channel stays parked: once [disableAll] and [update] have negated the
    descriptor in the channel's entry, later updates assert that it may be negative and
    set the new events but never restore it, so [poll] keeps ignoring the entry however
    many events are enabled again. *)
Theorem PollPoller_stays_parked chs p a c e :
  pp_inv chs p -> chs !! a = Some c -> pp_channels p !! fd_ c = Some a -> events_ c = 0 ->
  ∃ i p1 p2, pp_updateChannel a (chs, p) = Ok (tt, (chs, p1)) ∧
    pp_updateChannel a (<[a := set_events e c]> chs, p1) = Ok (tt, (<[a := set_events e c]> chs, p2)) ∧
    index_ c = Z.of_nat i ∧
    (pfd_fd <$> pollfds_ p1 !! i) = Some (- fd_ c - 1) ∧
    pollfds_ p2 !! i = Some (mkPollfd (- fd_ c - 1) (s16 e) (s16 (revents_ c))) ∧ - fd_ c - 1 < 0.
Proof.
  intros Hi Hc Hch Hev. destruct (pi_channel _ _ Hi _ _ Hch) as (Hfd & _).
  destruct (pp_update_known chs p a c Hi Hc Hch) as (i & pfd & Hix & Hp & Ho & E & Hi1).
  set (p1 := mkPoll _ _) in *.
  assert (i < length (pollfds_ p))%nat as Hlt by (by apply lookup_lt_Some in Hp).
  assert (pollfds_ p1 !! i = Some (mkPollfd (- fd_ c - 1) (s16 (events_ c)) (s16 (revents_ c)))) as Hp1.
  { subst p1. simpl. unfold isNoneEvent, kNoneEvent. rewrite Hev. simpl. by apply list_lookup_insert_eq. }
  set (chs1 := <[a := set_events e c]> chs).
  assert (chs1 !! a = Some (set_events e c)) as Hc1 by apply lookup_insert_eq.
  assert (pp_inv chs1 p1) as Hi1'.
  { exact (@inv_insert _ _ PollPoller_Laws chs p1 a c (set_events e) Hi1 Hc ltac:(by intros d)). }
  destruct (pp_update_known chs1 p1 a (set_events e c) Hi1' Hc1 Hch) as (j & pfd' & Hjx & Hp' & _ & E2 & _).
  simpl in Hjx. assert (j = i) as -> by lia. rewrite Hp1 in Hp'. injection Hp' as <-.
  eexists i, p1, _. split; [exact E|]. split; [exact E2|]. split; [done|]. split; [by rewrite Hp1|].
  split; [|lia]. simpl. rewrite list_lookup_insert_eq by (subst p1; simpl; rewrite length_insert; lia).
  by destruct (isNoneEvent (set_events e c)).
Qed.

(** What the loop over the entries finds, entry [i] being the first of [l]. *)
Lemma pp_fill_spec l : ∀ i n chs p,
  pp_inv chs p ->
  (∀ j pfd, l !! j = Some pfd ->
     (∃ q, pollfds_ p !! (i + j)%nat = Some q ∧ pfd_fd q = pfd_fd pfd) ∧ (0 < pfd_revents pfd -> 0 <= pfd_fd pfd)) ->
  ∃ active chs' p', fill i l n (chs, p) = Ok (active, (chs', p')) ∧ pp_inv chs' p' ∧
    pp_channels p' = pp_channels p ∧ NoDup active ∧
    (∀ a, a ∈ active -> ∃ j pfd, l !! j = Some pfd ∧ 0 <= pfd_fd pfd ∧ pp_channels p !! pfd_fd pfd = Some a) ∧
    (∀ a c, chs !! a = Some c -> ∃ re, chs' !! a = Some (set_revents re c)).
Proof.
  induction l as [|pfd l IH]; intros i n chs p Hi Hl; simpl.
  { exists [], chs, p. split_and!; try done; [constructor|by intros a ?%elem_of_nil|]. intros a [] Hc. eauto. }
  assert (∀ j pfd, l !! j = Some pfd ->
     (∃ q, pollfds_ p !! (S i + j)%nat = Some q ∧ pfd_fd q = pfd_fd pfd) ∧ (0 < pfd_revents pfd -> 0 <= pfd_fd pfd)) as Hl'.
  { intros j q Hq. destruct (Hl (S j) q Hq) as [X ?]. by rewrite Nat.add_succ_r in X. }
  destruct (0 <? n); [|exists [], chs, p; split_and!; try done; [constructor|by intros a ?%elem_of_nil|]; intros a [] Hc; eauto].
  destruct (Z.ltb_spec 0 (pfd_revents pfd)) as [Hr|Hr].
  2: { destruct (IH (S i) n chs p Hi Hl') as (active & chs' & p' & E & ? & ? & ? & Ha & ?).
       exists active, chs', p'. split_and!; try done. intros a X. destruct (Ha a X) as (j & q & ? & ?). by exists (S j), q. }
  destruct (Hl 0%nat pfd eq_refl) as [(q & Hq & Hqf) Hpos]. specialize (Hpos Hr). rewrite Nat.add_0_r in Hq.
  assert (owner q = pfd_fd pfd) as Ho by (unfold owner; rewrite Hqf; by rewrite (proj2 (Z.ltb_ge _ _) Hpos)).
  destruct (pi_entry _ _ Hi i q Hq) as (a & c & Ha & Hc & Hix). rewrite Ho in Ha.
  rewrite (bind_Ok _ _ (chs, p) (chs, p) (chs, p)) by done.
  rewrite (bind_Ok _ _ (chs, p) a (chs, p)) by (cbn [snd]; by rewrite Ha).
  rewrite (bind_Ok _ _ _ _ _ (set_channel_Ok a c _ (chs, p) Hc)). cbn [fst snd].
  set (e := mkPollfd (pfd_fd pfd) (pfd_events pfd) 0).
  set (chs1 := <[a := set_revents (pfd_revents pfd) c]> chs).
  set (p1 := mkPoll (pp_channels p) (<[i := e]> (pollfds_ p))).
  rewrite (bind_Ok _ _ (chs1, p) tt (chs1, p1)) by done.
  assert (owner e = owner q) as Heq by (unfold owner; by rewrite Hqf).
  pose proof (pp_inv_entry chs p i q e Hi Hq Heq) as [H1 H2].
  assert (pp_inv chs1 p1) as Hi1.
  { split.
    - intros fd b Hb. destruct (H1 fd b Hb) as (? & d & k & q' & Hd & Hfd & Hdk & Hq' & Hoq). split; [done|].
      destruct (decide (b = a)) as [->|Hne].
      + rewrite Hc in Hd. injection Hd as <-. eexists _, k, q'. split; [apply lookup_insert_eq|done].
      + exists d, k, q'. subst chs1. by rewrite lookup_insert_ne.
    - intros k q' Hq'. destruct (H2 k q' Hq') as (b & d & Hb & Hd & Hdk). destruct (decide (b = a)) as [->|Hne].
      + rewrite Hc in Hd. injection Hd as <-. eexists a, _. split; [done|]. split; [apply lookup_insert_eq|done].
      + exists b, d. subst chs1. by rewrite lookup_insert_ne. }
  destruct (IH (S i) (n - 1) chs1 p1 Hi1) as (active & chs' & p' & E & Hi' & Hch & Hnd & Hact & Hkeep).
  { intros j q' Hq'. subst p1. simpl. rewrite list_lookup_insert_ne by lia. by apply Hl'. }
  exists (a :: active), chs', p'. rewrite (bind_Ok _ _ _ _ _ E). split_and!; try done.
  - constructor; [|done]. intros (j & q' & Hq' & Hpos' & Ha')%Hact. change (pp_channels p1) with (pp_channels p) in Ha'.
    destruct (pi_channel _ _ Hi _ _ Ha) as (_ & c1 & _ & _ & Hc1 & Hfd1 & _).
    destruct (pi_channel _ _ Hi _ _ Ha') as (_ & c2 & _ & _ & Hc2 & Hfd2 & _).
    assert (pfd_fd q' = pfd_fd pfd) as Hff by congruence.
    destruct (Hl' j q' Hq') as [(q2 & Hq2 & Hqf2) _].
    assert (S i + j = i)%nat; [|lia]. eapply (pp_inv_unique chs p i _ a c q2); try done; [congruence|].
    unfold owner. rewrite Hqf2, Hff, (proj2 (Z.ltb_ge _ _) Hpos). congruence.
  - intros b [->|(j & q' & ? & ?)%Hact]%elem_of_cons; [by exists 0%nat, pfd|by exists (S j), q'].
  - intros b d Hb. destruct (decide (b = a)) as [->|Hne].
    + destruct (Hkeep a (set_revents (pfd_revents pfd) c)) as [re Hre]; [apply lookup_insert_eq|].
      exists re. rewrite Hc in Hb. by injection Hb as <-.
    + apply Hkeep. subst chs1. by rewrite lookup_insert_ne.
Qed.

(** What [::poll] may store: an answer for each entry, none for a negative descriptor. *)
Definition pp_reported (r : list Z * Z) (p : PollPoller) : Prop :=
  length r.1 = length (pollfds_ p) ∧
  ∀ i pfd re, pollfds_ p !! i = Some pfd -> r.1 !! i = Some re -> 0 < re -> 0 <= pfd_fd pfd.

Lemma pp_poll_spec r chs p :
  pp_inv chs p -> pp_reported r p ->
  ∃ active chs' p', pp_poll r.1 r.2 (chs, p) = Ok (active, (chs', p')) ∧ pp_inv chs' p' ∧
    pp_channels p' = pp_channels p ∧ NoDup active ∧ (∀ a, a ∈ active -> ∃ fd, pp_channels p !! fd = Some a) ∧
    (∀ a c, chs !! a = Some c -> ∃ re, chs' !! a = Some (set_revents re c)).
Proof.
  intros Hi [Hlen Hneg]. unfold pp_poll. rewrite (bind_Ok _ _ (chs, p) (chs, p) (chs, p)) by done. cbn [snd].
  set (l := zip_with _ _ _). set (p1 := mkPoll (pp_channels p) l).
  assert (∀ i q, l !! i = Some q -> ∃ pfd re, pollfds_ p !! i = Some pfd ∧ r.1 !! i = Some re ∧ q = mkPollfd (pfd_fd pfd) (pfd_events pfd) re) as Hl.
  { intros i q Hq. apply lookup_zip_with_Some in Hq as (pfd & re & -> & ? & ?). eauto. }
  assert (pp_inv chs p1) as Hi1.
  { split.
    - intros fd a Ha. destruct (pi_channel _ _ Hi fd a Ha) as (? & c & i & pfd & Hc & Hfd & Hix & Hp & Ho). split; [done|].
      destruct (lookup_lt_is_Some_2 r.1 i) as [re Hre]; [rewrite Hlen; by apply lookup_lt_Some in Hp|].
      exists c, i, (mkPollfd (pfd_fd pfd) (pfd_events pfd) re). split_and!; try done. apply lookup_zip_with_Some. eauto.
    - intros i q Hq. destruct (Hl i q Hq) as (pfd & re & Hp & _ & ->). by apply (pi_entry _ _ Hi i pfd Hp). }
  rewrite (bind_Ok _ _ (chs, p) tt (chs, p1)) by done. destruct (0 <? r.2).
  - destruct (pp_fill_spec l 0 r.2 chs p1 Hi1) as (active & chs' & p' & E & ? & ? & ? & Ha & ?).
    { intros j q Hq. split; [by exists q|]. destruct (Hl j q Hq) as (pfd & re & Hp & Hre & ->). exact (Hneg j pfd re Hp Hre). }
    exists active, chs', p'. split_and!; try done. intros a X. destruct (Ha a X) as (j & q & _ & _ & ?). eauto.
  - exists [], chs, p1. split_and!; try done; [constructor|by intros a ?%elem_of_nil|]. intros a [] Hc. eauto.
Qed.

(** Two channels, the first of them parked. *)
Definition two_channels : Chans :=
  {[ 5 := mkChannel 7 0 0 0 false false false true ∅; 6 := mkChannel 9 3 0 1 false false false true ∅ ]}.
Definition two_fds : PollPoller := mkPoll {[ 7 := 5; 9 := 6 ]} [mkPollfd (-8) 0 0; mkPollfd 9 3 0].

Lemma two_inv : pp_inv two_channels two_fds.
Proof.
  split.
  - intros fd a Hch. unfold two_fds in Hch. cbn [pp_channels] in Hch.
    apply lookup_insert_Some in Hch as [[<- <-]|[_ Hch]]; [|apply lookup_singleton_Some in Hch as [<- <-]].
    + split; [lia|]. eexists _, 0%nat, _. repeat split; reflexivity.
    + split; [lia|]. eexists _, 1%nat, _. repeat split; reflexivity.
  - intros [|[|i]] pfd Hp; simpl in Hp; [injection Hp as <-|injection Hp as <-|done].
    + eexists 5, _. repeat split; reflexivity.
    + eexists 6, _. repeat split; reflexivity.
Qed.

Lemma PollPoller_remove_witness :
  ∃ chs' p', pp_removeChannel 5 (two_channels, two_fds) = Ok (tt, (chs', p')) ∧
    pp_channels p' = delete 7 (pp_channels two_fds).
Proof.
  destruct (PollPoller_remove two_channels two_fds 5 (mkChannel 7 0 0 0 false false false true ∅) two_inv)
    as (chs' & p' & E & Hch & _); [reflexivity| |].
  - eexists _, 0%nat, _. repeat split; reflexivity.
  - exists chs', p'. split; [exact E|exact Hch].
Defined.

Lemma PollPoller_stays_parked_witness :
  ∃ p1 p2, pp_updateChannel 5 (two_channels, two_fds) = Ok (tt, (two_channels, p1)) ∧
    pollfds_ p2 !! 0%nat = Some (mkPollfd (-8) 3 0).
Proof.
  destruct (PollPoller_stays_parked two_channels two_fds 5 (mkChannel 7 0 0 0 false false false true ∅) 3 two_inv)
    as (i & p1 & p2 & E1 & _ & Hi & _ & H2 & _); [reflexivity|reflexivity|reflexivity|].
  exists p1, p2. split; [exact E1|]. assert (i = 0%nat) as -> by (simpl in Hi; lia). exact H2.
Defined.
