(* ===== verification/EPollPoller.v ===== *)
(** The epoll poller: [PracticeMuduo/reactor.muduo/EPollPoller.cpp].  The kernel's
    epoll object is a parameter: an interest list and [epoll_ctl], with the documented
    effect of its three operations. *)
From Stdlib Require Import Strings.String.
From S2P Require Import Prelude FixedBuffer LogStream Channel Poller.
Open Scope list_scope.

Definition kNew : Z := -1.
Definition kAdded : Z := 1.
Definition kDeleted : Z := 2.
Definition kInitEventListSize : Z := 16.

Definition EPOLL_CTL_ADD : Z := 1.
Definition EPOLL_CTL_DEL : Z := 2.
Definition EPOLL_CTL_MOD : Z := 3.

(** The epoll object: for each watched descriptor the events asked for and the pointer
    that is reported with them. *)
Class Epoll (K : Type) := {
  interest : K -> gmap Z (Z * Z);
  epoll_ctl : Z -> Z -> Z * Z -> K -> Z * K }.

(** [epoll_ctl(2)], resources permitting. *)
Class EpollLaws (K : Type) `{Epoll K} := {
  ctl_add k fd e :
    interest k !! fd = None ->
    ∃ k', epoll_ctl EPOLL_CTL_ADD fd e k = (0, k') ∧ interest k' = <[fd := e]> (interest k);
  ctl_mod k fd e :
    is_Some (interest k !! fd) ->
    ∃ k', epoll_ctl EPOLL_CTL_MOD fd e k = (0, k') ∧ interest k' = <[fd := e]> (interest k);
  ctl_del k fd e :
    is_Some (interest k !! fd) ->
    ∃ k', epoll_ctl EPOLL_CTL_DEL fd e k = (0, k') ∧ interest k' = delete fd (interest k) }.

Record EPollPoller (K : Type) := mkEPoll {
  ep_channels : gmap Z Z;
  epollfd_ : K;
  events_size : Z }.
Arguments mkEPoll {K}.
Arguments ep_channels {K}.
Arguments epollfd_ {K}.
Arguments events_size {K}.

Definition operationToString (op : Z) : list byte :=
  if op =? EPOLL_CTL_ADD then bytes "ADD"
  else if op =? EPOLL_CTL_DEL then bytes "DEL"
  else if op =? EPOLL_CTL_MOD then bytes "MODE"
  else bytes "Unknown Operation".

Section epoll.
Context {K : Type} `{EpollLaws K}.

Abbreviation S := (Chans * EPollPoller K)%type.

(** [EPollPoller(loop)] for what [epoll_create1] returns: [None] on an error. *)
Definition new_EPollPoller (epoll_create1 : option K) : res (EPollPoller K) :=
  match epoll_create1 with
  | None => Fault FatalLog
  | Some k => Ok (mkEPoll ∅ k kInitEventListSize)
  end.

(** [Poller::newDefaultPoller(loop)], in [DefaultPoller.cpp]. *)
Definition newDefaultPoller (epoll_create1 : option K) : res (EPollPoller K) := new_EPollPoller epoll_create1.

(** [channels_\[fd\] = channel] *)
Definition put_channel (fd a : Z) : M S unit :=
  modify (λ s, (s.1, mkEPoll (<[fd := a]> (ep_channels s.2)) (epollfd_ s.2) (events_size s.2))).

(** The private [update(operation, channel)]; a failure is fatal except for [DEL]. *)
Definition ep_update (operation a : Z) : M S unit :=
  c ← deref a;
  s ← get;
  let '(r, k) := epoll_ctl operation (fd_ c) (u32 (events_ c), a) (epollfd_ s.2) in
  put (s.1, mkEPoll (ep_channels s.2) k (events_size s.2)) ;;
  if r <? 0 then if operation =? EPOLL_CTL_DEL then mret tt else fail FatalLog else mret tt.

Definition ep_updateChannel (a : Z) : M S unit :=
  c ← deref a;
  let index := index_ c in
  let fd := fd_ c in
  s ← get;
  if (index =? kNew) || (index =? kDeleted) then
    (if index =? kNew then
       assert (bool_decide (ep_channels s.2 !! fd = None)) ;;
       put_channel fd a
     else
       assert (bool_decide (is_Some (ep_channels s.2 !! fd))) ;;
       assert (bool_decide (ep_channels s.2 !! fd = Some a))) ;;
    set_channel a (set_index kAdded) ;;
    ep_update EPOLL_CTL_ADD a
  else
    assert (bool_decide (is_Some (ep_channels s.2 !! fd))) ;;
    put_channel fd a ;;              (* assert(channels_[fd] = channel) *)
    assert (negb (a =? 0)) ;;
    assert (index =? kAdded) ;;
    if isNoneEvent c then
      ep_update EPOLL_CTL_DEL a ;; set_channel a (set_index kDeleted)
    else ep_update EPOLL_CTL_MOD a.

Definition ep_removeChannel (a : Z) : M S unit :=
  c ← deref a;
  let fd := fd_ c in
  let index := index_ c in
  s ← get;
  assert (bool_decide (is_Some (ep_channels s.2 !! fd))) ;;
  assert (bool_decide (ep_channels s.2 !! fd = Some a)) ;;
  assert (isNoneEvent c) ;;
  assert ((index =? kAdded) || (index =? kDeleted)) ;;
  modify (λ s, (s.1, mkEPoll (delete fd (ep_channels s.2)) (epollfd_ s.2) (events_size s.2))) ;;
  when (index =? kAdded) (ep_update EPOLL_CTL_DEL a) ;;
  set_channel a (set_index kNew).

(** The loop of [fillActiveChannels] over the events [epoll_wait] has stored. *)
Fixpoint fill (ready : list (Z * Z)) : M S (list Z) :=
  match ready with
  | [] => mret []
  | (ev, ptr) :: ready' =>
      c ← deref ptr;
      s ← get;
      assert (bool_decide (is_Some (ep_channels s.2 !! fd_ c))) ;;
      assert (bool_decide (ep_channels s.2 !! fd_ c = Some ptr)) ;;
      set_channel ptr (set_revents (s32 ev)) ;;
      active ← fill ready';
      mret (ptr :: active)
  end.

Definition fillActiveChannels (ready : list (Z * Z)) : M S (list Z) :=
  s ← get; assert (zlen ready <=? events_size s.2) ;; fill ready.

(** [poll], for the events [epoll_wait] reports; a timeout and an error report none.  The
    list of active channels is the result. *)
Definition ep_poll (ready : list (Z * Z)) : M S (list Z) :=
  if 0 <? zlen ready then
    active ← fillActiveChannels ready;
    s ← get;
    when (zlen ready =? events_size s.2)
      (modify (λ s, (s.1, mkEPoll (ep_channels s.2) (epollfd_ s.2) (events_size s.2 * 2)))) ;;
    mret active
  else mret [].

#[export] Instance EPollPoller_Poller : Poller (EPollPoller K) := {
  updateChannel := ep_updateChannel;
  removeChannel := ep_removeChannel;
  channels_ := ep_channels }.

(** * The invariant *)

Definition ep_index_ok (c : Channel) (k : K) : Prop :=
  index_ c = kAdded ∧ is_Some (interest k !! fd_ c) ∨ index_ c = kDeleted ∧ interest k !! fd_ c = None.

Record ep_inv (chs : Chans) (p : EPollPoller K) : Prop := {
  ei_channel fd a : ep_channels p !! fd = Some a ->
    a ≠ 0 ∧ ∃ c, chs !! a = Some c ∧ fd_ c = fd ∧ ep_index_ok c (epollfd_ p);
  ei_interest fd e : interest (epollfd_ p) !! fd = Some e -> ep_channels p !! fd = Some e.2 }.

Lemma ep_update_Ok op a c s k' :
  s.1 !! a = Some c -> epoll_ctl op (fd_ c) (u32 (events_ c), a) (epollfd_ s.2) = (0, k') ->
  ep_update op a s = Ok (tt, (s.1, mkEPoll (ep_channels s.2) k' (events_size s.2))).
Proof.
  intros E Ek. unfold ep_update. rewrite (bind_Ok _ _ _ _ _ (deref_Ok _ _ _ E)).
  rewrite (bind_Ok _ _ s s s) by done. by rewrite Ek.
Qed.

(** The registration of one channel changed: the others keep theirs. *)
Lemma ep_inv_insert chs p a c k' chm :
  ep_inv chs p -> a ≠ 0 -> ep_index_ok c k' -> chm = <[fd_ c := a]> (ep_channels p) ->
  (∀ d, chs !! a = Some d -> fd_ d = fd_ c) ->
  (∀ fd, fd ≠ fd_ c -> interest k' !! fd = interest (epollfd_ p) !! fd) ->
  (∀ e, interest k' !! fd_ c = Some e -> e.2 = a) ->
  ep_inv (<[a := c]> chs) (mkEPoll chm k' (events_size p)).
Proof.
  intros [H1 H2] Ha Hok -> Hold Hk Hka. split; simpl.
  - intros fd b Hb. destruct (decide (fd = fd_ c)) as [->|Hne].
    + rewrite lookup_insert_eq in Hb. injection Hb as <-. split; [done|].
      exists c. rewrite lookup_insert_eq. by split_and!.
    + rewrite lookup_insert_ne in Hb by done. destruct (H1 fd b Hb) as (Hb0 & d & Hd & Hfd & Hix).
      split; [done|]. exists d. rewrite lookup_insert_ne.
      * split_and!; [done..|]. unfold ep_index_ok in *. rewrite Hk by congruence. done.
      * intros ->. apply Hne. rewrite <- Hfd. by apply Hold.
  - intros fd e He. destruct (decide (fd = fd_ c)) as [->|Hne].
    + rewrite lookup_insert_eq. by rewrite (Hka e He).
    + rewrite lookup_insert_ne by done. rewrite Hk in He by done. by apply H2.
Qed.

(** What [updateChannel] asks of the kernel. *)
Definition ep_spec (c : Channel) (a : Z) (m : gmap Z (Z * Z)) : gmap Z (Z * Z) :=
  if (index_ c =? kAdded) && isNoneEvent c then delete (fd_ c) m
  else <[fd_ c := (u32 (events_ c), a)]> m.

(** A registered channel that the kernel watches or not. *)
Lemma ep_inv_added chs p a c k' :
  ep_inv chs p -> a ≠ 0 -> chs !! a = Some c ->
  interest k' = <[fd_ c := (u32 (events_ c), a)]> (interest (epollfd_ p)) ->
  ep_inv (<[a := set_index kAdded c]> chs) (mkEPoll (<[fd_ c := a]> (ep_channels p)) k' (events_size p)).
Proof.
  intros Hi Ha Hc Hk'. apply (ep_inv_insert chs p a (set_index kAdded c)); [done|done| |done| | | ]; simpl; rewrite ?Hk'.
  - left. split; [done|]. rewrite Hk'. simpl. rewrite lookup_insert_eq. eauto.
  - intros d Hd. by simplify_eq.
  - intros fd Hne. by rewrite lookup_insert_ne.
  - intros e He. rewrite lookup_insert_eq in He. by injection He as <-.
Qed.

Lemma ep_inv_deleted chs p a c k' :
  ep_inv chs p -> a ≠ 0 -> chs !! a = Some c -> interest k' = delete (fd_ c) (interest (epollfd_ p)) ->
  ep_inv (<[a := set_index kDeleted c]> chs) (mkEPoll (<[fd_ c := a]> (ep_channels p)) k' (events_size p)).
Proof.
  intros Hi Ha Hc Hk'. apply (ep_inv_insert chs p a (set_index kDeleted c)); [done|done| |done| | | ]; simpl; rewrite ?Hk'.
  - right. split; [done|]. rewrite Hk'. simpl. apply lookup_delete_eq.
  - intros d Hd. by simplify_eq.
  - intros fd Hne. by rewrite lookup_delete_ne.
  - intros e He. by rewrite lookup_delete_eq in He.
Qed.

(** A channel that is new or was deleted is not watched, one that was added is. *)
Lemma ep_status chs p a c :
  ep_inv chs p -> chs !! a = Some c ->
  ep_channels p !! fd_ c = Some a ∨ ep_channels p !! fd_ c = None ∧ index_ c = kNew ->
  ((index_ c =? kNew) || (index_ c =? kDeleted) = true ∧ interest (epollfd_ p) !! fd_ c = None ∧
   (index_ c = kNew -> ep_channels p !! fd_ c = None) ∧ (index_ c ≠ kNew -> ep_channels p !! fd_ c = Some a)) ∨
  (index_ c = kAdded ∧ is_Some (interest (epollfd_ p) !! fd_ c) ∧ ep_channels p !! fd_ c = Some a).
Proof.
  intros [H1 H2] Hc [Hch|[Hch Hix]].
  - destruct (H1 _ _ Hch) as (_ & d & Hd & _ & Hok). simplify_eq.
    destruct Hok as [[E ?]|[E ?]]; rewrite E; [by right|left]. by split_and!.
  - left. rewrite Hix. split_and!; try done.
    destruct (interest (epollfd_ p) !! fd_ c) as [e|] eqn:E; [|done]. apply H2 in E. congruence.
Qed.

(** [updateChannel] of a channel that is not watched, and of one that is. *)
Lemma ep_update_unwatched chs p a c k' :
  chs !! a = Some c -> (index_ c =? kNew) || (index_ c =? kDeleted) = true ->
  (index_ c = kNew -> ep_channels p !! fd_ c = None) -> (index_ c ≠ kNew -> ep_channels p !! fd_ c = Some a) ->
  epoll_ctl EPOLL_CTL_ADD (fd_ c) (u32 (events_ c), a) (epollfd_ p) = (0, k') ->
  ep_updateChannel a (chs, p) =
  Ok (tt, (<[a := set_index kAdded c]> chs, mkEPoll (<[fd_ c := a]> (ep_channels p)) k' (events_size p))).
Proof.
  intros Hc Hix Hnew Hdel Ek. unfold ep_updateChannel.
  rewrite (bind_Ok _ _ _ _ _ (deref_Ok a c (chs, p) Hc)), (bind_Ok _ _ (chs, p) (chs, p) (chs, p)) by done.
  cbn [fst snd]. rewrite Hix.
  rewrite (bind_Ok _ _ (chs, p) tt (chs, mkEPoll (<[fd_ c := a]> (ep_channels p)) (epollfd_ p) (events_size p))).
  - rewrite (bind_Ok _ _ _ _ _ (set_channel_Ok a c _ (chs, _) Hc)). cbn [fst snd].
    erewrite ep_update_Ok; [done|apply lookup_insert_eq|]. exact Ek.
  - destruct (Z.eqb_spec (index_ c) kNew) as [E|E].
    + rewrite (bind_Ok _ _ (chs, p) tt (chs, p)); [done|]. apply assert_Ok, bool_decide_eq_true. by apply Hnew.
    + rewrite (bind_Ok _ _ (chs, p) tt (chs, p)) by (apply assert_Ok, bool_decide_eq_true; rewrite Hdel; eauto).
      rewrite assert_Ok by (by apply bool_decide_eq_true, Hdel).
      rewrite insert_id by (by apply Hdel). by destruct p.
Qed.

Lemma ep_update_watched chs p a c :
  chs !! a = Some c -> a ≠ 0 -> index_ c = kAdded -> ep_channels p !! fd_ c = Some a ->
  ep_updateChannel a (chs, p) =
  (if isNoneEvent c then ep_update EPOLL_CTL_DEL a ;; set_channel a (set_index kDeleted)
   else ep_update EPOLL_CTL_MOD a) (chs, p).
Proof.
  intros Hc Ha Hix Hch. unfold ep_updateChannel.
  rewrite (bind_Ok _ _ _ _ _ (deref_Ok a c (chs, p) Hc)), (bind_Ok _ _ (chs, p) (chs, p) (chs, p)) by done.
  cbn [fst snd]. rewrite Hix. change ((kAdded =? kNew) || (kAdded =? kDeleted)) with false. cbv iota.
  rewrite (bind_Ok _ _ (chs, p) tt (chs, p)) by (apply assert_Ok, bool_decide_eq_true; eauto).
  rewrite (bind_Ok _ _ (chs, p) tt (chs, p)) by (unfold put_channel; msimp; rewrite insert_id by done; by destruct p).
  rewrite (bind_Ok _ _ (chs, p) tt (chs, p)) by (apply assert_Ok, negb_true_iff, Z.eqb_neq; done).
  by rewrite (bind_Ok _ _ (chs, p) tt (chs, p)) by done.
Qed.

Lemma ep_updateChannel_spec chs p a c :
  ep_inv chs p -> a ≠ 0 -> chs !! a = Some c ->
  ep_channels p !! fd_ c = Some a ∨ ep_channels p !! fd_ c = None ∧ index_ c = kNew ->
  ∃ k' i, let p' := mkEPoll (<[fd_ c := a]> (ep_channels p)) k' (events_size p) in
    ep_updateChannel a (chs, p) = Ok (tt, (<[a := set_index i c]> chs, p')) ∧
    ep_inv (<[a := set_index i c]> chs) p' ∧ interest k' = ep_spec c a (interest (epollfd_ p)).
Proof.
  intros Hi Ha Hc Hreg. cbn zeta. unfold ep_spec.
  destruct (ep_status chs p a c Hi Hc Hreg) as [(Hix & Hnone & Hnew & Hdel)|(Hix & Hsome & Hch)].
  - destruct (ctl_add (epollfd_ p) (fd_ c) (u32 (events_ c), a) Hnone) as (k' & Ek & Hk').
    exists k', kAdded. split; [by apply ep_update_unwatched|]. split; [by apply ep_inv_added|].
    rewrite Hk'. destruct (Z.eqb_spec (index_ c) kAdded) as [E|]; [by rewrite E in Hix|done].
  - rewrite Hix, (ep_update_watched chs p a c) by done. destruct (isNoneEvent c) eqn:Enone; cbn [andb].
    + destruct (ctl_del (epollfd_ p) (fd_ c) (u32 (events_ c), a) Hsome) as (k' & Ek & Hk').
      exists k', kDeleted. split; [|split; [by apply ep_inv_deleted|done]].
      rewrite (bind_Ok _ _ _ _ _ (ep_update_Ok EPOLL_CTL_DEL a c (chs, p) k' Hc Ek)). cbn [fst snd].
      rewrite (set_channel_Ok a c _ (chs, _) Hc). cbn [fst snd]. by rewrite (insert_id (ep_channels p)) by done.
    + destruct (ctl_mod (epollfd_ p) (fd_ c) (u32 (events_ c), a) Hsome) as (k' & Ek & Hk').
      exists k', kAdded. split; [|split; [by apply ep_inv_added|by rewrite Z.eqb_refl]].
      rewrite (ep_update_Ok EPOLL_CTL_MOD a c (chs, p) k' Hc Ek). cbn [fst snd].
      rewrite (insert_id (ep_channels p)) by done. do 3 f_equal. symmetry. apply insert_id.
      rewrite Hc. f_equal. rewrite <- Hix. by destruct c.
Qed.

Lemma ep_removeChannel_spec chs p a c :
  ep_inv chs p -> chs !! a = Some c -> events_ c = 0 -> ep_channels p !! fd_ c = Some a ->
  ∃ k', let p' := mkEPoll (delete (fd_ c) (ep_channels p)) k' (events_size p) in
    ep_removeChannel a (chs, p) = Ok (tt, (<[a := set_index kNew c]> chs, p')) ∧
    ep_inv (<[a := set_index kNew c]> chs) p' ∧ interest k' = delete (fd_ c) (interest (epollfd_ p)).
Proof.
  intros Hi Hc Hev Hch. pose proof Hi as [H1 H2].
  destruct (H1 _ _ Hch) as (Ha & d & Hd & _ & Hok). rewrite Hc in Hd. injection Hd as <-.
  set (p1 := mkEPoll (delete (fd_ c) (ep_channels p)) (epollfd_ p) (events_size p)).
  assert (∃ k', when (index_ c =? kAdded) (ep_update EPOLL_CTL_DEL a) (chs, p1)
                = Ok (tt, (chs, mkEPoll (ep_channels p1) k' (events_size p))) ∧
            interest k' = delete (fd_ c) (interest (epollfd_ p))) as (k' & Ek & Hk').
  { destruct Hok as [[-> Hs]|[-> Hn]].
    - destruct (ctl_del (epollfd_ p) (fd_ c) (u32 (events_ c), a) Hs) as (k' & Ek & Hk').
      exists k'. split; [|done]. exact (ep_update_Ok EPOLL_CTL_DEL a c (chs, p1) k' Hc Ek).
    - exists (epollfd_ p). split; [done|]. by rewrite delete_id. }
  exists k'. split; [|split; [|done]].
  - unfold ep_removeChannel.
    rewrite (bind_Ok _ _ _ _ _ (deref_Ok a c (chs, p) Hc)), (bind_Ok _ _ (chs, p) (chs, p) (chs, p)) by done.
    cbn [fst snd].
    rewrite (bind_Ok _ _ (chs, p) tt (chs, p)) by (apply assert_Ok, bool_decide_eq_true; eauto).
    rewrite (bind_Ok _ _ (chs, p) tt (chs, p)) by (by apply assert_Ok, bool_decide_eq_true).
    rewrite (bind_Ok _ _ (chs, p) tt (chs, p)) by (apply assert_Ok; unfold isNoneEvent; by rewrite Hev).
    rewrite (bind_Ok _ _ (chs, p) tt (chs, p)) by (apply assert_Ok; by destruct Hok as [[-> _]|[-> _]]).
    rewrite (bind_Ok _ _ (chs, p) tt (chs, p1)) by done. rewrite (bind_Ok _ _ _ _ _ Ek).
    by rewrite (set_channel_Ok a c _ (chs, _) Hc).
  - split; simpl.
    + intros fd b Hb. apply lookup_delete_Some in Hb as [Hne Hb].
      destruct (H1 fd b Hb) as (Hb0 & d & Hd & Hfd & Hix). split; [done|]. exists d.
      rewrite lookup_insert_ne by (intros ->; congruence).
      split_and!; [done..|]. unfold ep_index_ok in *. rewrite Hk', lookup_delete_ne by congruence. done.
    + intros fd e He. rewrite Hk' in He. apply lookup_delete_Some in He as [Hne He].
      rewrite lookup_delete_ne by done. by apply H2.
Qed.

#[export] Program Instance EPollPoller_Laws : PollerLaws (EPollPoller K) := {
  poller_inv := ep_inv;
  removable a chs p := ∃ c, chs !! a = Some c ∧ ep_channels p !! fd_ c = Some a }.
Next Obligation.
  intros chs p fd a Hi Hch. destruct (ei_channel _ _ Hi _ _ Hch) as (_ & c & ? & ? & _). eauto.
Qed.
Next Obligation.
  intros chs chs' p [H1 H2] Hsame. split; [|done]. intros fd a Hch.
  destruct (H1 fd a Hch) as (Ha & c & Hc & Hfd & Hok). split; [done|].
  destruct (Hsame fd a c Hch Hc) as (c' & Hc' & Hfd' & Hix'). exists c'.
  split_and!; [done|congruence|]. unfold ep_index_ok in *. by rewrite Hfd', Hix'.
Qed.
Next Obligation.
  intros chs p a c Hi Ha Hc Hfd Hix Hnone.
  destruct (ep_updateChannel_spec chs p a c Hi Ha Hc) as (k' & i & E & Hi' & _); [by right|]. eauto.
Qed.
Next Obligation.
  intros chs p a c Hi Hc Hch. destruct (ei_channel _ _ Hi _ _ Hch) as (Ha & _).
  destruct (ep_updateChannel_spec chs p a c Hi Ha Hc) as (k' & i & E & Hi' & _); [by left|].
  eexists _, i. split; [exact E|]. split; [exact Hi'|]. split; [by apply insert_id|].
  intros _. exists (set_index i c). rewrite lookup_insert_eq. split; [done|]. apply lookup_insert_eq.
Qed.
Next Obligation.
  intros chs p a c Hi Hc Hev (c' & Hc' & Hch). rewrite Hc in Hc'. injection Hc' as <-.
  destruct (ep_removeChannel_spec chs p a c Hi Hc Hev Hch) as (k' & E & Hi' & _).
  eexists _, _. split; [exact E|]. split; [exact Hi'|]. split; [done|].
  intros b d Hb. destruct (decide (a = b)) as [<-|Hne].
  - exists kNew. rewrite Hc in Hb. injection Hb as <-. apply lookup_insert_eq.
  - exists (index_ d). rewrite lookup_insert_ne by done. rewrite Hb. by destruct d.
Qed.
Next Obligation.
  intros chs chs' p a (c & Hc & Hch) Hsame. destruct (Hsame c Hc) as (c' & Hc' & [Hfd _] & _).
  exists c'. by rewrite Hfd.
Qed.

(** C17: the epoll poller keeps the kernel's interest list exact: from any consistent
    state [updateChannel] of a registered or a new channel fails nowhere and leaves the
    kernel watching the channel's descriptor for its events, with the channel as the
    reported pointer - or not at all when the channel was watched and has no events left
    - while every other descriptor's registration is unchanged; and [removeChannel] of a
    channel without events takes its descriptor out. *)
Theorem EPollPoller_interest chs p a c :
  ep_inv chs p -> a ≠ 0 -> chs !! a = Some c ->
  ep_channels p !! fd_ c = Some a ∨ ep_channels p !! fd_ c = None ∧ index_ c = kNew ->
  (∃ chs' p', ep_updateChannel a (chs, p) = Ok (tt, (chs', p')) ∧ ep_inv chs' p' ∧
     ep_channels p' !! fd_ c = Some a ∧
     interest (epollfd_ p') !! fd_ c =
       (if (index_ c =? kAdded) && (events_ c =? 0) then None else Some (u32 (events_ c), a)) ∧
     ∀ fd, fd ≠ fd_ c -> interest (epollfd_ p') !! fd = interest (epollfd_ p) !! fd) ∧
  (events_ c = 0 -> ep_channels p !! fd_ c = Some a ->
   ∃ chs' p', ep_removeChannel a (chs, p) = Ok (tt, (chs', p')) ∧ ep_inv chs' p' ∧
     ep_channels p' !! fd_ c = None ∧ interest (epollfd_ p') = delete (fd_ c) (interest (epollfd_ p))).
Proof.
  intros Hi Ha Hc Hreg. split.
  - destruct (ep_updateChannel_spec chs p a c Hi Ha Hc Hreg) as (k' & i & E & Hi' & Hk').
    eexists _, _. split; [exact E|]. split; [exact Hi'|]. cbn [ep_channels epollfd_].
    rewrite Hk'. unfold ep_spec, isNoneEvent, kNoneEvent. split; [apply lookup_insert_eq|].
    destruct ((index_ c =? kAdded) && (events_ c =? 0)).
    + split; [apply lookup_delete_eq|]. intros fd Hne. by rewrite lookup_delete_ne.
    + split; [apply lookup_insert_eq|]. intros fd Hne. by rewrite lookup_insert_ne.
  - intros Hev Hch. destruct (ep_removeChannel_spec chs p a c Hi Hc Hev Hch) as (k' & E & Hi' & Hk').
    eexists _, _. split; [exact E|]. split; [exact Hi'|]. split; [apply lookup_delete_eq|done].
Qed.

Lemma fill_spec ready chs p :
  ep_inv chs p -> (∀ e, e ∈ ready -> ∃ fd ev, interest (epollfd_ p) !! fd = Some (ev, e.2)) ->
  ∃ chs', fill ready (chs, p) = Ok (ready.*2, (chs', p)) ∧ ep_inv chs' p ∧
    ∀ a c, chs !! a = Some c -> ∃ r, chs' !! a = Some (set_revents r c).
Proof.
  revert chs; induction ready as [|[ev ptr] ready IH]; intros chs Hi Hin; cbn [fill].
  { exists chs. split_and!; [done..|]. intros a c Hc. exists (revents_ c). rewrite Hc. by destruct c. }
  destruct (Hin (ev, ptr)) as (fd & ev' & Hint); [left|]. simpl in Hint.
  pose proof (ei_interest _ _ Hi _ _ Hint) as Hch. simpl in Hch.
  destruct (ei_channel _ _ Hi _ _ Hch) as (_ & c & Hc & Hfd & _).
  rewrite (bind_Ok _ _ _ _ _ (deref_Ok ptr c (chs, p) Hc)), (bind_Ok _ _ (chs, p) (chs, p) (chs, p)) by done.
  cbn [fst snd]. rewrite Hfd, Hch.
  rewrite (bind_Ok _ _ (chs, p) tt (chs, p)) by (apply assert_Ok, bool_decide_eq_true; eauto).
  rewrite (bind_Ok _ _ (chs, p) tt (chs, p)) by (by apply assert_Ok, bool_decide_eq_true).
  rewrite (bind_Ok _ _ _ _ _ (set_channel_Ok ptr c _ (chs, p) Hc)). cbn [fst snd].
  assert (ep_inv (<[ptr := set_revents (s32 ev) c]> chs) p) as Hi1.
  { exact (@inv_insert _ _ EPollPoller_Laws chs p ptr c (set_revents (s32 ev)) Hi Hc ltac:(by intros d)). }
  destruct (IH _ Hi1) as (chs' & E & Hi' & Hkeep); [intros e He; apply Hin; by right|].
  exists chs'. rewrite (bind_Ok _ _ _ _ _ E). split_and!; [done..|].
  intros b d Hb. destruct (decide (ptr = b)) as [<-|Hne].
  - rewrite Hc in Hb. injection Hb as <-.
    destruct (Hkeep ptr (set_revents (s32 ev) c)) as (r & Hr); [apply lookup_insert_eq|].
    exists r. by rewrite Hr.
  - apply Hkeep. by rewrite lookup_insert_ne.
Qed.

(** Polling never hands a stale channel to the loop: whatever watched descriptors the
    kernel reports, up to the size of the event list, [poll] finds each of them registered,
    returns their channels in the reported order, changes nothing but the reported events,
    and doubles the event list exactly when it was full. *)
Theorem EPollPoller_poll chs p ready :
  ep_inv chs p -> zlen ready <= events_size p ->
  (∀ e, e ∈ ready -> ∃ fd ev, interest (epollfd_ p) !! fd = Some (ev, e.2)) ->
  ∃ chs' p', ep_poll ready (chs, p) = Ok (ready.*2, (chs', p')) ∧ ep_inv chs' p' ∧
    ep_channels p' = ep_channels p ∧ epollfd_ p' = epollfd_ p ∧
    (∀ a, a ∈ ready.*2 -> is_Some (chs' !! a)) ∧
    (∀ a c, chs !! a = Some c -> ∃ r, chs' !! a = Some (set_revents r c)) ∧
    (0 < zlen ready ->
     events_size p' = if zlen ready =? events_size p then events_size p * 2 else events_size p).
Proof.
  intros Hi Hlen Hin. destruct (fill_spec ready chs p Hi Hin) as (chs' & E & Hi' & Hkeep).
  assert (∀ a, a ∈ ready.*2 -> is_Some (chs' !! a)) as Hlive.
  { intros a ((ev & b) & Hb & He)%list_elem_of_fmap. simpl in Hb. subst b.
    destruct (Hin _ He) as (fd & ev' & Hint). apply (ei_interest _ _ Hi) in Hint. simpl in Hint.
    destruct (ei_channel _ _ Hi _ _ Hint) as (_ & c & Hc & _). destruct (Hkeep a c Hc) as (r & Hr). eauto. }
  unfold ep_poll. destruct (Z.ltb_spec 0 (zlen ready)) as [Hpos|Hz].
  - rewrite (bind_Ok _ _ (chs, p) ready.*2 (chs', p)).
    2:{ unfold fillActiveChannels. rewrite (bind_Ok _ _ (chs, p) (chs, p) (chs, p)) by done.
        rewrite (bind_Ok _ _ (chs, p) tt (chs, p)); [done|]. apply assert_Ok. simpl. lia. }
    rewrite (bind_Ok _ _ (chs', p) (chs', p) (chs', p)) by done. unfold when. cbn [fst snd].
    destruct (zlen ready =? events_size p).
    + exists chs', (mkEPoll (ep_channels p) (epollfd_ p) (events_size p * 2)).
      split_and!; try done. destruct Hi' as [H1 H2]. by split.
    + exists chs', p. by split_and!.
  - assert (ready = []) as -> by (destruct ready; [done|simpl in Hz; lia]).
    exists chs, p. split_and!; try done; [set_solver|].
    intros a c Hc. exists (revents_ c). rewrite Hc. by destruct c.
Qed.
End epoll.

(** * A concrete epoll object *)

Definition toy_epoll : Type := gmap Z (Z * Z).

#[export] Instance toy_Epoll : Epoll toy_epoll := {
  interest k := k;
  epoll_ctl op fd e k :=
    if op =? EPOLL_CTL_ADD then
      if bool_decide (k !! fd = None) then (0, <[fd := e]> k : toy_epoll) else (-1, k)
    else if bool_decide (k !! fd = None) then (-1, k)
    else if op =? EPOLL_CTL_DEL then (0, delete fd k : toy_epoll) else (0, <[fd := e]> k : toy_epoll) }.

#[export] Program Instance toy_EpollLaws : EpollLaws toy_epoll.
Next Obligation.
  intros k fd e Hn. simpl in *. rewrite bool_decide_eq_true_2 by done. eauto.
Qed.
Next Obligation.
  intros k fd e [x Hx]. simpl in *. rewrite bool_decide_eq_false_2; [eauto|]. intros Hn.
  pose proof (eq_trans (eq_sym Hn) Hx) as Hd. discriminate Hd.
Qed.
Next Obligation.
  intros k fd e [x Hx]. simpl in *. rewrite bool_decide_eq_false_2; [eauto|]. intros Hn.
  pose proof (eq_trans (eq_sym Hn) Hx) as Hd. discriminate Hd.
Qed.

Definition sample_chans : Chans := {[ 5 := enableReading (new_Channel 7) ]}.
Definition sample_poller : EPollPoller toy_epoll := mkEPoll ∅ (∅ : toy_epoll) kInitEventListSize.

Lemma sample_ep_inv : ep_inv sample_chans sample_poller.
Proof. split; intros fd a; simpl; by rewrite lookup_empty. Qed.

Lemma EPollPoller_interest_witness :
  ∃ chs' p', ep_updateChannel 5 (sample_chans, sample_poller) = Ok (tt, (chs', p')) ∧
    interest (epollfd_ p') !! 7 = Some (3, 5).
Proof.
  destruct (EPollPoller_interest sample_chans sample_poller 5 (enableReading (new_Channel 7)) sample_ep_inv)
    as ((chs' & p' & E & _ & _ & Hint & _) & _);
    [lia|reflexivity|right; split; reflexivity|].
  exists chs', p'. split; [exact E|exact Hint].
Defined.

Lemma EPollPoller_poll_witness :
  ∃ chs1 p1 chs' p', ep_updateChannel 5 (sample_chans, sample_poller) = Ok (tt, (chs1, p1)) ∧
    ep_poll [(1, 5)] (chs1, p1) = Ok ([5], (chs', p')).
Proof.
  destruct (ep_updateChannel_spec sample_chans sample_poller 5 (enableReading (new_Channel 7)) sample_ep_inv)
    as (k' & i & E & Hi' & Hk'); [lia|reflexivity|right; split; reflexivity|].
  destruct (EPollPoller_poll _ _ [(1, 5)] Hi') as (chs' & p' & E' & _).
  - vm_compute. discriminate.
  - intros e ->%list_elem_of_singleton. exists 7, 3. cbn [epollfd_]. rewrite Hk'. reflexivity.
  - eexists _, _, chs', p'. split; [exact E|exact E'].
Defined.
