(* ===== verification/ReactorProps.v ===== *)
(** The life of a channel under any poller that keeps the laws of [Poller.v], and its
    instances for the two pollers of the library. *)
From S2P Require Import Prelude Channel Poller PollPoller EPollPoller.
Open Scope list_scope.

(** The calls an owner makes on a channel between registering it and giving it up. *)
Inductive ChannelOp := OpEnableReading | OpEnableWriting | OpDisableReading | OpDisableWriting | OpDisableAll.

Definition op_effect (o : ChannelOp) : Channel -> Channel :=
  match o with
  | OpEnableReading => enableReading
  | OpEnableWriting => enableWriting
  | OpDisableReading => disableReading
  | OpDisableWriting => disableWriting
  | OpDisableAll => disableAll
  end.

Definition channel_op {P} `{PollerLaws P} (a : Z) (o : ChannelOp) : M (LoopChannels P) unit :=
  on_channel (op_effect o) a ;; update a.

Section lifecycle.
Context {P : Type} `{PollerLaws P}.

Lemma op_keeps o : keeps (op_effect o).
Proof. by destruct o. Qed.

(** The fields of a channel that only its owner and the loop change. *)
Definition same_owner (c c' : Channel) : Prop :=
  fd_ c' = fd_ c ∧ eventHandling_ c' = eventHandling_ c.

Lemma op_registered a o l c :
  loop_inv l -> registered a l -> chans l !! a = Some c ->
  ∃ l' c', channel_op a o l = Ok (tt, l') ∧ loop_inv l' ∧ registered a l' ∧
    chans l' !! a = Some c' ∧ events_ c' = events_ (op_effect o c) ∧ same_owner c c' ∧
    channels_ (poller_ l') = channels_ (poller_ l) ∧ loopHandling l' = loopHandling l ∧
    currentActiveChannel_ l' = currentActiveChannel_ l ∧ activeChannels_ l' = activeChannels_ l ∧
    (events_ c' = 0 -> removable a (chans l') (poller_ l')).
Proof.
  intros Hi Hr Hc.
  destruct (update_registered (op_effect o) a l (op_keeps o) ltac:(by destruct o) Hi Hr)
    as (l' & c0 & i & E & Hc0 & Hi' & Hch & Hreg & HlH & Hcur & Hact & Hrem).
  rewrite Hc in Hc0. injection Hc0 as <-. exists l', (set_index i (set_added true (op_effect o c))).
  assert (chans l' !! a = Some (set_index i (set_added true (op_effect o c)))) as Hc'
    by (rewrite Hch; apply lookup_insert_eq).
  split; [exact E|]. split; [done|]. split; [|split_and!; try done; by destruct o].
  destruct Hr as (d & Hd & Hdr). rewrite Hc in Hd. injection Hd as <-.
  eexists. split; [exact Hc'|]. rewrite Hreg. by destruct o.
Qed.

Lemma ops_registered a os l c :
  loop_inv l -> registered a l -> chans l !! a = Some c ->
  ∃ l' c', mapM_ (channel_op a) os l = Ok (tt, l') ∧ loop_inv l' ∧ registered a l' ∧
    chans l' !! a = Some c' ∧ events_ c' = events_ (foldl (flip op_effect) c os) ∧ same_owner c c' ∧
    channels_ (poller_ l') = channels_ (poller_ l) ∧ loopHandling l' = loopHandling l ∧
    currentActiveChannel_ l' = currentActiveChannel_ l ∧ activeChannels_ l' = activeChannels_ l.
Proof.
  revert l c. induction os as [|o os IH]; intros l c Hi Hr Hc; simpl.
  { exists l, c. by split_and!. }
  destruct (op_registered a o l c Hi Hr Hc)
    as (l1 & c1 & E1 & Hi1 & Hr1 & Hc1 & Hev1 & (Hfd1 & Hh1) & Hch1 & HlH1 & Hcur1 & Hact1 & _).
  destruct (IH l1 c1 Hi1 Hr1 Hc1) as (l2 & c2 & E2 & Hi2 & Hr2 & Hc2 & Hev2 & (Hfd2 & Hh2) & Hch2 & HlH2 & Hcur2 & Hact2).
  exists l2, c2. rewrite (bind_Ok _ _ _ _ _ E1). split_and!; try done; try congruence.
  - rewrite Hev2. assert (∀ d d', events_ d = events_ d' ->
      events_ (foldl (flip op_effect) d os) = events_ (foldl (flip op_effect) d' os)) as Hcong; [|by apply Hcong].
    clear. induction os as [|o os IH]; intros d d' E; simpl; [done|].
    apply IH. destruct o; simpl; by rewrite ?E.
  - split; congruence.
Qed.

(** C11: the life of a channel, under any poller that keeps the interface's laws: a fresh
    channel can be registered, take any sequence of enabling and disabling calls, and be
    disabled and removed, without a failed assertion anywhere; every call leaves the
    loop consistent, and at the end the poller's map is what it was before and the
    channel can be destroyed. *)
Theorem channel_lifecycle a c o os l :
  loop_inv l -> a ≠ 0 -> chans l !! a = Some c -> 0 <= fd_ c -> index_ c = -1 ->
  channels_ (poller_ l) !! fd_ c = None -> eventHandling_ c = false ->
  (loopHandling l = true -> a ∉ activeChannels_ l) ->
  ∃ l1 l2 c1 c2,
    (channel_op a o ;; mapM_ (channel_op a) os) l = Ok (tt, l1) ∧
    loop_inv l1 ∧ chans l1 !! a = Some c1 ∧ channels_ (poller_ l1) = <[fd_ c := a]> (channels_ (poller_ l)) ∧
    events_ c1 = events_ (foldl (flip op_effect) c (o :: os)) ∧ hasChannel a (chans l1, poller_ l1) = Ok true ∧
    (channel_disableAll a ;; remove a) l1 = Ok (tt, l2) ∧
    loop_inv l2 ∧ chans l2 !! a = Some c2 ∧ channels_ (poller_ l2) = channels_ (poller_ l) ∧
    hasChannel a (chans l2, poller_ l2) = Ok false ∧ Channel_dtor c2 = Ok tt.
Proof.
  intros Hi Ha0 Hc Hfd Hix Hnone Hnh Hact.
  destruct (update_fresh (op_effect o) a c l (op_keeps o) Hi Ha0 Hc Hfd Hix Hnone)
    as (l0 & i & E0 & Hi0 & Hch0 & Hreg0 & HlH0 & Hcur0 & Hact0).
  set (c0 := set_index i (set_added true (op_effect o c))) in *.
  assert (fd_ c0 = fd_ c ∧ eventHandling_ c0 = eventHandling_ c ∧ events_ c0 = events_ (op_effect o c))
    as (Hfd0 & Hh0 & Hev0) by (by destruct o).
  assert (chans l0 !! a = Some c0) as Hc0 by (rewrite Hch0; apply lookup_insert_eq).
  assert (registered a l0) as Hr0.
  { exists c0. split; [done|]. rewrite Hreg0, Hfd0. apply lookup_insert_eq. }
  destruct (ops_registered a os l0 c0 Hi0 Hr0 Hc0)
    as (l1 & c1 & E1 & Hi1 & Hr1 & Hc1 & Hev1 & (Hfd1 & Hh1) & Hreg1 & HlH1 & _ & Hact1).
  destruct (op_registered a OpDisableAll l1 c1 Hi1 Hr1 Hc1)
    as (l1' & c1' & E2 & Hi2 & Hr2 & Hc2 & Hev2 & (Hfd2 & Hh2) & Hreg2 & HlH2 & _ & Hact2 & Hrem).
  destruct (remove_spec a c1' l1' Hi2 Hc2 Hev2 (Hrem Hev2)) as (l2 & E3 & Hi3 & Hreg3 & j & Hc3).
  { intros HlH. right. rewrite Hact2, Hact1, Hact0. apply Hact. congruence. }
  exists l1, l2, c1, (set_index j (set_added false c1')).
  split; [by rewrite (bind_Ok _ _ _ _ _ E0)|]. split; [done|]. split; [done|].
  split; [congruence|]. split.
  { rewrite Hev1. simpl. revert Hev0. generalize (op_effect o c), c0. clear.
    induction os as [|o os IH]; intros d d' E; simpl; [done|]. apply IH. destruct o; simpl; by rewrite ?E. }
  split.
  { unfold hasChannel. cbn [fst snd]. rewrite Hc1. f_equal. apply bool_decide_eq_true.
    rewrite Hreg1, Hfd1, Hreg0, Hfd0. apply lookup_insert_eq. }
  assert (channels_ (poller_ l2) = channels_ (poller_ l)) as Hreg.
  { rewrite Hreg3, Hfd2, Hfd1, Hfd0, Hreg2, Hreg1, Hreg0. by apply delete_insert_id. }
  split; [|split; [done|split; [done|split; [done|split]]]].
  - change (channel_disableAll a) with (channel_op a OpDisableAll). by rewrite (bind_Ok _ _ _ _ _ E2).
  - unfold hasChannel. cbn [fst snd]. rewrite Hc3, Hreg. f_equal. apply bool_decide_eq_false.
    simpl. rewrite Hfd2, Hfd1, Hfd0, Hnone. done.
  - unfold Channel_dtor. simpl. by rewrite Hh2, Hh1, Hh0, Hnh.
Qed.
End lifecycle.

Definition fresh_chans : Chans := {[ 5 := new_Channel 7 ]}.

(** The two pollers keep the laws, so the theorem holds of both. *)
Lemma channel_lifecycle_witness :
  (∃ l1 l2 : LoopChannels PollPoller,
     (channel_op 5 OpEnableReading ;; mapM_ (channel_op 5) [OpEnableWriting])
       (mkLoop fresh_chans new_PollPoller true false None []) = Ok (tt, l1) ∧
     (channel_disableAll 5 ;; remove 5) l1 = Ok (tt, l2)) ∧
  (∃ l1 l2 : LoopChannels (EPollPoller toy_epoll),
     (channel_op 5 OpEnableReading ;; mapM_ (channel_op 5) [OpEnableWriting])
       (mkLoop fresh_chans sample_poller true false None []) = Ok (tt, l1) ∧
     (channel_disableAll 5 ;; remove 5) l1 = Ok (tt, l2)).
Proof.
  split.
  - destruct (channel_lifecycle 5 (new_Channel 7) OpEnableReading [OpEnableWriting]
                (mkLoop fresh_chans new_PollPoller true false None []))
      as (l1 & l2 & c1 & c2 & E1 & _ & _ & _ & _ & _ & E2 & _); try done.
    + exists l1, l2. split; [exact E1|exact E2].
  - destruct (channel_lifecycle 5 (new_Channel 7) OpEnableReading [OpEnableWriting]
                (mkLoop fresh_chans sample_poller true false None []))
      as (l1 & l2 & c1 & c2 & E1 & _ & _ & _ & _ & _ & E2 & _); try done.
    + exists l1, l2. split; [exact E1|exact E2].
Defined.
