(* ===== verification/Dispatch.v ===== *)
(** One turn of the loop with its poller and its channels: [poll] fills the list of active
    channels, the loop has each of them handle its event, and the callbacks create,
    update, close and delete channels of the same loop ([EventLoop::loop],
    [Channel::handleEvent], [EventLoop::removeChannel], [~Channel]).  It holds of any poller. *)
From S2P Require Import Prelude Channel Poller PollPoller EPollPoller ReactorProps.
Open Scope list_scope.

(** * What a poller's [poll] promises the loop *)

(** [report]: what the system call returns; [reported]: it is about watched descriptors. *)
Class PollerPoll (P : Type) `{PollerLaws P} := {
  report : Type;
  poll : report -> M (Chans * P) (list Z);
  reported : report -> Chans -> P -> Prop;
  poll_spec chs p r :
    poller_inv chs p -> reported r chs p ->
    ∃ active chs' p', poll r (chs, p) = Ok (active, (chs', p')) ∧ poller_inv chs' p' ∧
      channels_ p' = channels_ p ∧ NoDup active ∧ (∀ a, a ∈ active -> ∃ fd, channels_ p !! fd = Some a) ∧
      (∀ a c, chs !! a = Some c -> ∃ re, chs' !! a = Some (set_revents re c)) }.

(** * The turn *)

(** What a callback does with channels of the loop: make one for a descriptor and set its
    callbacks, enable or disable events, [disableAll(); remove()], delete one. *)
Inductive Act :=
| ANew (a fd : Z) (cbs : list Callback)
| AOp (a : Z) (o : ChannelOp)
| AClose (a : Z)
| ADelete (a : Z).

(** [calls]: the callbacks that have been called. *)
Record Turn (P : Type) := mkTurn { loop : LoopChannels P; calls : list (Z * Callback) }.
Arguments mkTurn {P}.
Arguments loop {P}.
Arguments calls {P}.

Section turn.
Context {P : Type} `{PollerPoll P}.

Definition set_chans (chs : Chans) (l : LoopChannels P) : LoopChannels P :=
  mkLoop chs (poller_ l) (inLoopThread l) (loopHandling l) (currentActiveChannel_ l) (activeChannels_ l).
Definition set_turn (h : bool) (cur : option Z) (act : list Z) (l : LoopChannels P) : LoopChannels P :=
  mkLoop (chans l) (poller_ l) (inLoopThread l) h cur act.

(** [~Channel()] *)
Context (dtor : Channel -> res unit).

Definition act (x : Act) : M (LoopChannels P) unit :=
  match x with
  | ANew a fd cbs => modify (λ l, set_chans (<[a := foldr set_callback (new_Channel fd) cbs]> (chans l)) l)
  | AOp a o => channel_op a o
  | AClose a => channel_disableAll a ;; remove a
  | ADelete a =>
      l ← get;
      c ← of_option UB (chans l !! a);
      match dtor c with
      | Ok _ => modify (λ l, set_chans (delete a (chans l)) l)
      | Fault f => fail f
      end
  end.

(** The user's callbacks. *)
Context (react : LoopChannels P -> Z -> Callback -> list Act).

Definition on_loop {A} (m : M (LoopChannels P) A) : M (Turn P) A := zoom loop (λ l t, mkTurn l (calls t)) m.

(** [if (revents_ & ...) if (callback) callback();] *)
Definition call_if (a : Z) (cond : Z -> bool) (cb : Callback) : M (Turn P) unit :=
  t ← get;
  c ← of_option UB (chans (loop t) !! a);
  when (cond (revents_ c) && has_callback cb c)
    (modify (λ t, mkTurn (loop t) (calls t ++ [(a, cb)])) ;;
     on_loop (mapM_ act (react (loop t) a cb))).

Definition closes (r : Z) : bool := has r POLLHUP && negb (has r POLLIN).
Definition errs (r : Z) : bool := has r (Z.lor POLLERR POLLNVAL).
Definition reads (r : Z) : bool := has r (Z.lor (Z.lor POLLIN POLLPRI) POLLRDHUP).
Definition writes (r : Z) : bool := has r POLLOUT.

(** [Channel::handleEventWithGuard], for callbacks that may change the loop's channels,
    this one included. *)
Definition handleEventWithGuard (a : Z) : M (Turn P) unit :=
  on_loop (on_channel (set_handling true) a) ;;
  call_if a closes CbClose ;;
  call_if a errs CbError ;;
  call_if a reads CbRead ;;
  call_if a writes CbWrite ;;
  on_loop (on_channel (set_handling false) a).

Definition handleEvent (a : Z) : M (Turn P) unit :=
  t ← get;
  c ← of_option UB (chans (loop t) !! a);
  when (negb (tied_ c) || tie_ c) (handleEventWithGuard a).

(** The body of [EventLoop::loop]'s [while], up to [doPendingFunctors]. *)
Definition handle_one (a : Z) : M (Turn P) unit :=
  modify (λ t, mkTurn (set_turn true (Some a) (activeChannels_ (loop t)) (loop t)) (calls t)) ;;
  handleEvent a.

Definition loop_poll (r : report) : M (LoopChannels P) unit := λ l,
  match poll r (chans l, poller_ l) with
  | Ok (active, (chs, p)) => Ok (tt, mkLoop chs p (inLoopThread l) (loopHandling l) (currentActiveChannel_ l) active)
  | Fault f => Fault f
  end.

Definition turn (r : report) : M (Turn P) unit :=
  on_loop (modify (λ l, set_turn (loopHandling l) (currentActiveChannel_ l) [] l) ;; loop_poll r) ;;
  t ← get;
  modify (λ t, mkTurn (set_turn true (currentActiveChannel_ (loop t)) (activeChannels_ (loop t)) (loop t)) (calls t)) ;;
  mapM_ handle_one (activeChannels_ (loop t)) ;;
  modify (λ t, mkTurn (set_turn false None (activeChannels_ (loop t)) (loop t)) (calls t)).
End turn.

Section props.
Context {P : Type} `{PollerPoll P}.

Abbreviation act := (act Channel_dtor).
Abbreviation call_if := (call_if Channel_dtor).
Abbreviation handleEventWithGuard := (handleEventWithGuard Channel_dtor).
Abbreviation handleEvent := (handleEvent Channel_dtor).
Abbreviation handle_one := (handle_one Channel_dtor).
Abbreviation turn := (turn Channel_dtor).

(** * What the callbacks may do *)

Definition fresh (a : Z) (l : LoopChannels P) : Prop :=
  ∃ c, chans l !! a = Some c ∧ a ≠ 0 ∧ 0 <= fd_ c ∧ index_ c = -1 ∧ channels_ (poller_ l) !! fd_ c = None.

(** Channels are made at free addresses, updated when they are new or registered, closed when
    they are registered, and deleted while they exist. *)
Definition fair (l : LoopChannels P) (x : Act) : Prop :=
  match x with
  | ANew a fd _ => a ≠ 0 ∧ chans l !! a = None ∧ 0 <= fd
  | AOp a _ => registered a l ∨ fresh a l
  | AClose a => registered a l
  | ADelete a => is_Some (chans l !! a)
  end.

(** What the assertions ask for besides. *)
Definition mild (l : LoopChannels P) (x : Act) : Prop :=
  match x with
  | AClose a => currentActiveChannel_ l = Some a ∨ a ∉ activeChannels_ l
  | ADelete a => ∀ c, chans l !! a = Some c -> addedToLoop_ c = false ∧ eventHandling_ c = false
  | _ => True
  end.

Fixpoint all_acts (Q : LoopChannels P -> Act -> Prop) (l : LoopChannels P) (xs : list Act) : Prop :=
  match xs with
  | [] => True
  | x :: xs' => Q l x ∧ ∀ l', act x l = Ok (tt, l') -> all_acts Q l' xs'
  end.

(** * The invariant of a turn *)

(** What decides how a channel handles its event. *)
Definition signature (c : Channel) : Z * gset nat * bool * bool := (revents_ c, callbacks c, tied_ c, tie_ c).

(** [cur] is being handled, [todo] are the active channels still to come. *)
Record turn_inv (cur : option Z) (todo : list Z) (l : LoopChannels P) : Prop := {
  tn_inv : loop_inv l;
  tn_added a c : chans l !! a = Some c -> channels_ (poller_ l) !! fd_ c = Some a -> addedToLoop_ c = true;
  tn_handling : loopHandling l = true;
  tn_todo a : a ∈ todo -> registered a l ∧ a ∈ activeChannels_ l;
  tn_cur a : cur = Some a ->
    currentActiveChannel_ l = Some a ∧ a ∉ todo ∧ ∃ c, chans l !! a = Some c ∧ eventHandling_ c = true }.

(** What an act leaves alone. *)
Definition undisturbed (cur : option Z) (todo : list Z) (l l' : LoopChannels P) : Prop :=
  activeChannels_ l' = activeChannels_ l ∧
  ∀ a c, cur = Some a ∨ a ∈ todo -> chans l !! a = Some c ->
    ∃ c', chans l' !! a = Some c' ∧ signature c' = signature c.

#[export] Instance undisturbed_PreOrder cur todo : PreOrder (undisturbed cur todo).
Proof.
  split; [intros l; split; [done|]; eauto|]. intros l1 l2 l3 [A1 K1] [A2 K2]. split; [congruence|].
  intros a c Ha Hc. destruct (K1 a c Ha Hc) as (c2 & Hc2 & E2). destruct (K2 a c2 Ha Hc2) as (c3 & Hc3 & E3).
  exists c3. split; [done|congruence].
Qed.

Lemma undisturbed_insert cur todo l l' a c c' :
  activeChannels_ l' = activeChannels_ l -> chans l !! a = Some c -> chans l' = <[a := c']> (chans l) ->
  signature c' = signature c -> undisturbed cur todo l l'.
Proof.
  intros Ha Hc Hch Hs. split; [done|]. intros b d _ Hd. rewrite Hch. destruct (decide (b = a)) as [->|Hne].
  - rewrite lookup_insert_eq. rewrite Hc in Hd. injection Hd as <-. eauto.
  - rewrite lookup_insert_ne by done. eauto.
Qed.

(** A change of one channel that keeps its registration. *)
Lemma turn_inv_insert cur todo l l' a c c' :
  turn_inv cur todo l -> chans l !! a = Some c -> chans l' = <[a := c']> (chans l) -> loop_inv l' ->
  fd_ c' = fd_ c -> eventHandling_ c' = eventHandling_ c -> (addedToLoop_ c = true -> addedToLoop_ c' = true) ->
  channels_ (poller_ l') = channels_ (poller_ l) ∨ channels_ (poller_ l') = <[fd_ c := a]> (channels_ (poller_ l)) ∧
    channels_ (poller_ l) !! fd_ c = None ∧ addedToLoop_ c' = true ->
  loopHandling l' = loopHandling l -> currentActiveChannel_ l' = currentActiveChannel_ l ->
  activeChannels_ l' = activeChannels_ l -> turn_inv cur todo l'.
Proof.
  intros [Hi Had Hh Ht Hcu] Hc Hch Hi' Hfd Heh Hadd Hreg HlH Hcur Hact. split; [done| |congruence| |].
  - intros b d. rewrite Hch. destruct (decide (b = a)) as [->|Hne].
    + rewrite lookup_insert_eq. intros [= <-] X. destruct Hreg as [Hr|(_ & _ & ?)]; [|done].
      apply Hadd, (Had a); [done|congruence].
    + rewrite lookup_insert_ne by done. intros Hd X. apply (Had b); [done|].
      destruct Hreg as [Hr|(Hr & Hn & _)]; [congruence|]. rewrite Hr in X. apply lookup_insert_Some in X as [[_ X]|[_ X]]; congruence.
  - intros b Hb. destruct (Ht b Hb) as [(d & Hd & Hdr) Hba]. split; [|congruence].
    destruct (decide (b = a)) as [->|Hne].
    + rewrite Hc in Hd. injection Hd as <-. exists c'. rewrite Hch, lookup_insert_eq, Hfd. split; [done|].
      destruct Hreg as [-> |(-> & _)]; [done|apply lookup_insert_eq].
    + exists d. rewrite Hch, lookup_insert_ne by done. split; [done|]. destruct Hreg as [-> |(-> & Hn & _)]; [done|].
      rewrite lookup_insert_ne; [done|]. intros X. congruence.
  - intros b Hb. destruct (Hcu b Hb) as (? & ? & d & Hd & Hdh). split; [congruence|]. split; [done|].
    rewrite Hch. destruct (decide (b = a)) as [->|Hne].
    + rewrite lookup_insert_eq. rewrite Hc in Hd. injection Hd as <-. exists c'. split; [done|congruence].
    + rewrite lookup_insert_ne by done. eauto.
Qed.

(** ** Acts *)

Definition good_act (cur : option Z) (todo : list Z) (l : LoopChannels P) (x : Act) : Prop :=
  ∃ l', act x l = Ok (tt, l') ∧ turn_inv cur todo l' ∧ undisturbed cur todo l l'.

Lemma act_new cur todo l a fd cbs : turn_inv cur todo l -> fair l (ANew a fd cbs) -> good_act cur todo l (ANew a fd cbs).
Proof.
  intros [[Hl Hi] Had Hh Ht Hcu] (Ha & Hn & Hfd). eexists. split; [reflexivity|].
  set (c0 := foldr set_callback (new_Channel fd) cbs).
  assert (∀ b c, chans l !! b = Some c -> <[a := c0]> (chans l) !! b = Some c) as Hother.
  { intros b c Hb. rewrite lookup_insert_ne; [done|]. intros <-. congruence. }
  split; [split; simpl; try done|].
  - split; [done|]. simpl. eapply inv_other; [exact Hi|]. intros f b c _ Hb. exists c. split; [by apply Hother|done].
  - intros b c Hb X. destruct (inv_registered _ _ _ _ Hi X) as (d & Hd & _).
    rewrite (Hother b d Hd) in Hb. injection Hb as <-. by apply (Had b).
  - intros b Hb. destruct (Ht b Hb) as [(c & Hc & Hr) ?]. split; [|done]. exists c. split; [by apply Hother|done].
  - intros b Hb. destruct (Hcu b Hb) as (? & ? & c & Hc & ?). split; [done|]. split; [done|]. exists c. split; [by apply Hother|done].
  - split; [done|]. intros b c _ Hb. exists c. split; [by apply Hother|done].
Qed.

Lemma act_op cur todo l a o : turn_inv cur todo l -> fair l (AOp a o) -> good_act cur todo l (AOp a o).
Proof.
  intros Hi Hf. pose proof (tn_inv _ _ _ Hi) as Hl. destruct Hf as [Hr|(c & Hc & Ha & Hfd & Hix & Hn)].
  - destruct (update_registered (op_effect o) a l (op_keeps o) ltac:(by destruct o) Hl Hr)
      as (l' & c & i & E & Hc & Hi' & Hch & Hreg & HlH & Hcur & Hact & _).
    exists l'. split; [exact E|]. split.
    + eapply (turn_inv_insert cur todo l l' a c); [done|done|exact Hch|done|by destruct o..|by left|done|done|done].
    + eapply (undisturbed_insert cur todo l l' a c); [done|done|exact Hch|by destruct o].
  - destruct (update_fresh (op_effect o) a c l (op_keeps o) Hl Ha Hc Hfd Hix Hn)
      as (l' & i & E & Hi' & Hch & Hreg & HlH & Hcur & Hact).
    exists l'. split; [exact E|]. split.
    + eapply (turn_inv_insert cur todo l l' a c); [done|done|exact Hch|done|by destruct o..|right; split_and!; try done; by destruct o|done|done|done].
    + eapply (undisturbed_insert cur todo l l' a c); [done|done|exact Hch|by destruct o].
Qed.

Lemma act_close cur todo l a :
  turn_inv (Some cur) todo l -> fair l (AClose a) ->
  good_act (Some cur) todo l (AClose a) ∨ act (AClose a) l = Fault AssertFail ∧ ¬ mild l (AClose a).
Proof.
  intros Hi (c & Hc & Hr). pose proof (tn_inv _ _ _ Hi) as Hl.
  destruct (update_registered disableAll a l ltac:(done) ltac:(done) Hl ltac:(by exists c))
    as (l1 & c0 & i & E & Hc0 & Hi1 & Hch & Hreg & HlH & Hcur & Hact & Hrem).
  rewrite Hc in Hc0. injection Hc0 as <-. set (c1 := set_index i (set_added true (disableAll c))) in *.
  assert (chans l1 !! a = Some c1) as Hc1 by (rewrite Hch; apply lookup_insert_eq).
  assert (turn_inv (Some cur) todo l1) as Ht1.
  { by eapply (turn_inv_insert _ todo l l1 a c); [done|done|exact Hch|done|done|done|done|left|..]. }
  assert (undisturbed (Some cur) todo l l1) as Hu1 by (by eapply (undisturbed_insert _ todo l l1 a c); [|done|exact Hch|]).
  assert (act (AClose a) l = remove a l1) as Hrun.
  { change (act (AClose a)) with (channel_disableAll a ;; remove a). by rewrite (bind_Ok _ _ l tt l1 E). }
  unfold good_act. rewrite Hrun.
  destruct (decide (currentActiveChannel_ l1 = Some a ∨ a ∉ activeChannels_ l1)) as [Hok|Hno].
  2: { right. split; [|unfold mild; by rewrite <- Hcur, <- Hact].
       apply (remove_refused a c1); [apply Hi1|done|done|apply (tn_handling _ _ _ Ht1)|tauto|].
       apply dec_stable. tauto. }
  left. destruct (remove_frame a c1 l1 Hi1 Hc1 ltac:(done) (Hrem ltac:(done)) ltac:(done))
    as (l2 & E2 & Hi2 & Hreg2 & Hkeep & HlH2 & Hcur2 & Hact2).
  exists l2. split; [exact E2|].
  destruct (tn_cur _ _ _ Ht1 cur eq_refl) as (Hcu & Hct & d & Hd & Hdh).
  assert (a ∉ todo) as Hat.
  { intros X. destruct (tn_todo _ _ _ Ht1 a X) as [_ Y]. destruct Hok as [Hok|]; [congruence|done]. }
  assert (∀ b e, chans l1 !! b = Some e -> ∃ e', chans l2 !! b = Some e' ∧ fd_ e' = fd_ e ∧ signature e' = signature e ∧
            eventHandling_ e' = eventHandling_ e ∧ (b ≠ a -> addedToLoop_ e' = addedToLoop_ e)) as Hkept.
  { intros b e Hb. destruct (decide (b = a)) as [->|Hne].
    - destruct (Hkeep a (set_added false c1)) as [j Hj]; [by rewrite decide_True|]. rewrite Hc1 in Hb. injection Hb as <-.
      eexists. split; [exact Hj|done].
    - destruct (Hkeep b e) as [j Hj]; [by rewrite decide_False|]. eexists. split; [exact Hj|done]. }
  split.
  - split; [done| |rewrite HlH2; apply (tn_handling _ _ _ Ht1)| |].
    + intros b e Hb X. rewrite Hreg2 in X. apply lookup_delete_Some in X as [Hne X].
      destruct (inv_registered _ _ _ _ (proj2 Hi1) X) as (e0 & Hb0 & _).
      destruct (Hkept b e0 Hb0) as (e' & Hb' & Hfd & _ & _ & Hadd). rewrite Hb in Hb'. injection Hb' as <-.
      assert (b ≠ a) as Hba by (intros ->; congruence).
      rewrite (Hadd Hba). apply (tn_added _ _ _ Ht1 b); [done|congruence].
    + intros b Hb. destruct (tn_todo _ _ _ Ht1 b Hb) as [(e & He & Her) Hba]. split; [|by rewrite Hact2].
      assert (b ≠ a) as Hne by (by intros ->). destruct (Hkept b e He) as (e' & He' & Hfd & _).
      exists e'. split; [done|]. rewrite Hreg2, Hfd, lookup_delete_ne; [done|]. intros X.
      change (fd_ c1) with (fd_ c) in X. rewrite Hreg in Her. congruence.
    + intros b [= <-]. split; [by rewrite Hcur2|]. split; [done|].
      destruct (Hkept cur d Hd) as (d' & Hd' & _ & _ & Hh & _). exists d'. split; [done|congruence].
  - transitivity l1; [done|]. split; [done|]. intros b e _ Hb. destruct (Hkept b e Hb) as (e' & ? & _ & ? & _). eauto.
Qed.

Lemma act_delete cur todo l a :
  turn_inv (Some cur) todo l -> fair l (ADelete a) ->
  good_act (Some cur) todo l (ADelete a) ∨ act (ADelete a) l = Fault AssertFail ∧ ¬ mild l (ADelete a).
Proof.
  intros Hi [c Hc]. unfold good_act, Dispatch.act. rewrite (bind_Ok _ _ l l l), (bind_Ok _ _ l c l) by (done || by rewrite Hc).
  destruct (decide (addedToLoop_ c = false ∧ eventHandling_ c = false)) as [[Ha Hh]|Hno].
  2: { right. split; [|intros X; by apply Hno, X]. unfold Channel_dtor.
       destruct (addedToLoop_ c); [done|]. destruct (eventHandling_ c); [done|tauto]. }
  left. unfold Channel_dtor. rewrite Ha, Hh. eexists. split; [reflexivity|].
  destruct Hi as [[Hl Hi] Had Hha Ht Hcu].
  assert (∀ b d, chans l !! b = Some d -> b = a ∨ delete a (chans l) !! b = Some d) as Hother.
  { intros b d Hb. destruct (decide (b = a)); [by left|right]. by rewrite lookup_delete_ne. }
  assert (∀ b d, channels_ (poller_ l) !! fd_ d = Some b -> chans l !! b = Some d -> delete a (chans l) !! b = Some d) as Hreg.
  { intros b d X Hb. destruct (Hother b d Hb) as [->|]; [|done]. rewrite Hc in Hb. injection Hb as <-.
    by rewrite (Had a c) in Ha. }
  destruct (Hcu cur eq_refl) as (Hc1 & Hc2 & d & Hd & Hdh).
  assert (cur ≠ a) as Hca by (intros ->; congruence).
  assert (∀ b, b ∈ todo -> b ≠ a) as Htd.
  { intros b Hb ->. destruct (Ht a Hb) as [(e & He & Her) _]. rewrite Hc in He. injection He as <-. by rewrite (Had a c) in Ha. }
  split; [split; simpl; try done|].
  - split; [done|]. simpl. eapply inv_other; [exact Hi|]. intros f b e X He. exists e. split; [|done].
    destruct (inv_registered _ _ _ _ Hi X) as (e0 & He0 & Hfd). rewrite He in He0. injection He0 as <-.
    apply Hreg; [by rewrite Hfd|done].
  - intros b e [_ Hb]%lookup_delete_Some X. by apply (Had b).
  - intros b Hb. destruct (Ht b Hb) as [(e & He & Her) ?]. split; [|done]. exists e. split; [by apply Hreg|done].
  - intros b [= <-]. split; [done|]. split; [done|]. exists d. by rewrite lookup_delete_ne.
  - split; [done|]. intros b e Hb He. exists e. split; [|done]. simpl. rewrite lookup_delete_ne; [done|].
    destruct Hb as [[= <-]|Hb]; [done|by apply not_eq_sym, Htd].
Qed.

Lemma act_spec cur todo l x :
  turn_inv (Some cur) todo l -> fair l x ->
  good_act (Some cur) todo l x ∨ act x l = Fault AssertFail ∧ ¬ mild l x.
Proof.
  intros Hi Hf. destruct x; [left; by apply act_new|left; by apply act_op|by apply act_close|by apply act_delete].
Qed.

Lemma acts_spec cur todo xs : ∀ l,
  turn_inv (Some cur) todo l -> all_acts fair l xs ->
  (∃ l', mapM_ act xs l = Ok (tt, l') ∧ turn_inv (Some cur) todo l' ∧ undisturbed (Some cur) todo l l') ∨
  mapM_ act xs l = Fault AssertFail ∧ ¬ all_acts mild l xs.
Proof.
  induction xs as [|x xs IH]; intros l Hi Hf; simpl; [left; exists l; by split_and!|].
  destruct Hf as [Hf Hfs]. destruct (act_spec cur todo l x Hi Hf) as [(l1 & E & Hi1 & Hu1)|[E Hm]].
  - rewrite (bind_Ok _ _ _ _ _ E). destruct (IH l1 Hi1 (Hfs _ E)) as [(l2 & E2 & Hi2 & Hu2)|[E2 Hm]].
    + left. exists l2. split_and!; [done|done|by transitivity l1].
    + right. split; [done|]. intros [_ X]. by apply Hm, X.
  - right. unfold mbind, M_bind. rewrite E. split; [done|]. by intros [X _].
Qed.

(** ** Handling events *)

Context (react : LoopChannels P -> Z -> Callback -> list Act).

Definition fair_user : Prop := ∀ l a cb, loop_inv l -> all_acts fair l (react l a cb).
Definition mild_user : Prop := ∀ l a cb, loop_inv l -> all_acts mild l (react l a cb).

Context (Hfair : fair_user).

(** A run ends as it should, or an assertion stops a user who is not mild. *)
Definition ends {S} (m : M S unit) (s : S) (Q : S -> Prop) : Prop :=
  (∃ s', m s = Ok (tt, s') ∧ Q s') ∨ m s = Fault AssertFail ∧ ¬ mild_user.

Lemma ends_bind {S} (m : M S unit) (k : unit -> M S unit) s (Q R : S -> Prop) :
  ends m s Q -> (∀ s', Q s' -> ends (k tt) s' R) -> ends (m ≫= k) s R.
Proof.
  intros [(s' & E & HQ)|[E Hm]] Hk; [|right; unfold mbind, M_bind; by rewrite E].
  unfold ends. rewrite (bind_Ok _ _ _ _ _ E). by apply Hk.
Qed.

Lemma ends_weaken {S} (m : M S unit) s (Q R : S -> Prop) : ends m s Q -> (∀ s', Q s' -> R s') -> ends m s R.
Proof. intros [(s' & E & HQ)|?] HR; [left; eauto|by right]. Qed.

(** While [a] is handled: its channel still is the one that was reported. *)
Record handling (a : Z) (todo : list Z) (c : Channel) (l0 : LoopChannels P) (cs : list (Z * Callback)) (t : Turn P) : Prop := {
  hd_inv : turn_inv (Some a) todo (loop t);
  hd_rest : undisturbed None todo l0 (loop t);
  hd_channel : ∃ c', chans (loop t) !! a = Some c' ∧ signature c' = signature c;
  hd_calls : calls t = cs }.

Lemma call_if_spec a cond cb todo c l0 cs t :
  handling a todo c l0 cs t ->
  ends (call_if react a cond cb) t
    (handling a todo c l0 (cs ++ if cond (revents_ c) && has_callback cb c then [(a, cb)] else [])).
Proof.
  intros [Hi Hu (c' & Hc & Hs) Hcs]. unfold Dispatch.call_if, ends.
  rewrite (bind_Ok _ _ t t t), (bind_Ok _ _ t c' t) by (done || by rewrite Hc).
  unfold has_callback. unfold signature in Hs. injection Hs as Hr Hcb Htd Hti. rewrite Hr, Hcb.
  assert (signature c' = signature c) as Hs by (unfold signature; congruence).
  destruct (cond (revents_ c) && _); cbn [when].
  2: { left. exists t. rewrite app_nil_r. split; [done|]. split; [done|done|by exists c'|done]. }
  set (t1 := mkTurn (loop t) (calls t ++ [(a, cb)])). rewrite (bind_Ok _ _ t tt t1) by done.
  unfold on_loop, zoom. change (loop t1) with (loop t).
  destruct (acts_spec a todo (react (loop t) a cb) (loop t) Hi (Hfair _ _ _ (tn_inv _ _ _ Hi))) as [(l' & E & Hi' & Hu')|[E Hm]].
  - left. rewrite E. eexists. split; [reflexivity|]. destruct Hu' as [Ha' Hu']. split; simpl; [done| | |by rewrite Hcs].
    + transitivity (loop t); [done|]. split; [done|]. intros b d Hb. apply Hu'. naive_solver.
    + destruct (Hu' a c' ltac:(auto) Hc) as (d & Hd & Hsd). exists d. split; [done|congruence].
  - right. rewrite E. split; [done|]. intros X. apply Hm, X, (tn_inv _ _ _ Hi).
Qed.

(** The callbacks of an event, in the order of the code. *)
Definition hits (a : Z) (c : Channel) : list (Z * Callback) := (a,.) <$> (Channel.handleEvent c).1.

Lemma fmap_if (b1 b2 : bool) (a : Z) (cb : Callback) :
  (a,.) <$> (if b1 then if b2 then [cb] else [] else []) = if b1 && b2 then [(a, cb)] else [].
Proof. by destruct b1, b2. Qed.

Lemma hits_eq a c :
  negb (tied_ c) || tie_ c = true ->
  hits a c = ((([] ++ if closes (revents_ c) && has_callback CbClose c then [(a, CbClose)] else [])
    ++ if errs (revents_ c) && has_callback CbError c then [(a, CbError)] else [])
    ++ if reads (revents_ c) && has_callback CbRead c then [(a, CbRead)] else [])
    ++ if writes (revents_ c) && has_callback CbWrite c then [(a, CbWrite)] else [].
Proof.
  intros Hl. unfold hits, Channel.handleEvent. assert (∀ A (x y : A), (if tied_ c then if tie_ c then x else y else x) = x) as ->
    by (intros; by destruct (tied_ c), (tie_ c)).
  unfold Channel.handleEventWithGuard. cbn [fst]. rewrite !fmap_app, !fmap_if, <- !app_assoc. done.
Qed.

Lemma hits_dead a c : negb (tied_ c) || tie_ c = false -> hits a c = [].
Proof. unfold hits, Channel.handleEvent. by destruct (tied_ c), (tie_ c). Qed.

(** Between two channels. *)
Record between (todo : list Z) (l0 : LoopChannels P) (cs : list (Z * Callback)) (t : Turn P) : Prop := {
  bt_inv : turn_inv None todo (loop t);
  bt_rest : undisturbed None todo l0 (loop t);
  bt_calls : calls t = cs }.

(** A change of the channel's handling flag. *)
Lemma set_handling_Ok b a (l : LoopChannels P) c :
  chans l !! a = Some c ->
  Poller.on_channel (set_handling b) a l = Ok (tt, set_chans (<[a := set_handling b c]> (chans l)) l).
Proof. intros Hc. unfold Poller.on_channel. by rewrite Hc. Qed.

Lemma loop_inv_handling b a (l : LoopChannels P) c :
  loop_inv l -> chans l !! a = Some c -> loop_inv (set_chans (<[a := set_handling b c]> (chans l)) l).
Proof. intros [Hl Hi] Hc. split; [done|]. by apply (inv_insert _ _ a c (set_handling b)). Qed.

(** The flag of a channel that is not still to come. *)
Lemma turn_inv_handling (b : bool) (cur : option Z) a todo (l : LoopChannels P) c :
  turn_inv None todo l -> chans l !! a = Some c -> a ∉ todo ->
  (cur = None ∨ cur = Some a ∧ b = true ∧ currentActiveChannel_ l = Some a) ->
  turn_inv cur todo (set_chans (<[a := set_handling b c]> (chans l)) l).
Proof.
  intros [Hi Had Hh Ht _] Hc Ha Hcur. split; simpl; [by apply loop_inv_handling| |done| |].
  - intros x d. destruct (decide (x = a)) as [->|Hne]; [rewrite lookup_insert_eq|rewrite lookup_insert_ne by done; apply Had].
    intros [= <-] X. by apply (Had a c).
  - intros x Hx. destruct (Ht x Hx) as [(d & Hd & Hr) Hxa]. split; [|done]. exists d. simpl.
    rewrite lookup_insert_ne; [done|]. by intros ->.
  - intros x ->. destruct Hcur as [|([= <-] & -> & Hcu)]; [done|]. split; [done|]. split; [done|].
    exists (set_handling true c). split; [apply lookup_insert_eq|done].
Qed.

Lemma turn_inv_None cur todo l : turn_inv cur todo l -> turn_inv None todo l.
Proof. intros [? ? ? ? _]. by split. Qed.

Lemma undisturbed_handling b a todo (l : LoopChannels P) c :
  chans l !! a = Some c -> undisturbed None todo l (set_chans (<[a := set_handling b c]> (chans l)) l).
Proof. intros Hc. by eapply (undisturbed_insert _ _ _ _ a c). Qed.

Lemma handleEventWithGuard_spec a todo c t :
  turn_inv None todo (loop t) -> chans (loop t) !! a = Some c -> a ∉ todo -> currentActiveChannel_ (loop t) = Some a ->
  negb (tied_ c) || tie_ c = true ->
  ends (handleEventWithGuard react a) t (between todo (loop t) (calls t ++ hits a c)).
Proof.
  intros Hi Hc Ha Hcur Hl. unfold Dispatch.handleEventWithGuard.
  set (l1 := set_chans (<[a := set_handling true c]> (chans (loop t))) (loop t)).
  apply ends_bind with (handling a todo c (loop t) (calls t ++ [])).
  { left. exists (mkTurn l1 (calls t)). unfold on_loop, zoom. rewrite (set_handling_Ok _ _ _ _ Hc). split; [done|].
    split; simpl; [apply turn_inv_handling; auto|by apply undisturbed_handling| |by rewrite app_nil_r].
    exists (set_handling true c). split; [apply lookup_insert_eq|done]. }
  intros t1 H1t. eapply ends_bind; [by apply call_if_spec|]. intros t2 H2t.
  eapply ends_bind; [by apply call_if_spec|]. intros t3 H3t.
  eapply ends_bind; [by apply call_if_spec|]. intros t4 H4t.
  eapply ends_bind; [by apply call_if_spec|]. intros t5 [Hi5 Hu5 (c5 & Hc5 & _) Hcs5].
  left. unfold on_loop, zoom. rewrite (set_handling_Ok _ _ _ _ Hc5). eexists. split; [reflexivity|]. split; simpl.
  - apply turn_inv_handling; [by eapply turn_inv_None|done|done|by left].
  - transitivity (loop t5); [done|by apply undisturbed_handling].
  - rewrite Hcs5, hits_eq by done. by rewrite <- !app_assoc.
Qed.

Lemma handle_one_spec a todo c l0 cs t :
  between (a :: todo) l0 cs t -> a ∉ todo -> chans l0 !! a = Some c ->
  ends (handle_one react a) t (between todo l0 (cs ++ hits a c)).
Proof.
  intros [Hi Hu Hcs] Ha Hc0. unfold Dispatch.handle_one.
  set (t1 := mkTurn (set_turn true (Some a) (activeChannels_ (loop t)) (loop t)) (calls t)).
  assert (turn_inv None todo (loop t1)) as Hi1.
  { destruct Hi as [Hl Had Hh Ht _]. split; try done. intros x Hx. destruct (Ht x ltac:(by right)) as [Hr ?]. by split. }
  destruct Hu as [Hact Hu]. destruct (Hu a c ltac:(right; by left) Hc0) as (c1 & Hc1 & Hs).
  assert (undisturbed None todo l0 (loop t1)) as Hu1.
  { split; [done|]. intros x d [|Hx]; [done|]. apply Hu. right. by right. }
  unfold signature in Hs. injection Hs as Hr Hcb Htd Hti.
  assert (hits a c1 = hits a c) as Hhits.
  { clear - Hr Hcb Htd Hti. destruct c1, c. simpl in *. subst. unfold hits, Channel.handleEvent. simpl. by destruct tied_0, tie_0. }
  apply ends_bind with (λ t', t' = t1); [left; by exists t1|]. intros t' ->. unfold Dispatch.handleEvent.
  unfold ends. rewrite (bind_Ok _ _ t1 t1 t1), (bind_Ok _ _ t1 c1 t1) by (done || by (change (chans (loop t1)) with (chans (loop t)); rewrite Hc1)).
  fold (ends (when (negb (tied_ c1) || tie_ c1) (handleEventWithGuard react a)) t1 (between todo l0 (cs ++ hits a c))).
  rewrite <- Hhits. destruct (negb (tied_ c1) || tie_ c1) eqn:Hl; cbn [when].
  - eapply ends_weaken; [apply (handleEventWithGuard_spec a todo c1 t1); done|]. intros t2 [Hi2 Hu2 Hcs2].
    split; [done|by transitivity (loop t1)|by rewrite Hcs2, <- Hcs].
  - left. exists t1. split; [done|]. rewrite hits_dead, app_nil_r by done. by split.
Qed.

Lemma handle_all_spec todo : ∀ l0 cs t,
  between todo l0 cs t -> NoDup todo -> (∀ a, a ∈ todo -> is_Some (chans l0 !! a)) ->
  ends (mapM_ (handle_one react) todo) t
    (between [] l0 (cs ++ flat_map (λ a, match chans l0 !! a with Some c => hits a c | None => [] end) todo)).
Proof.
  induction todo as [|a todo IH]; intros l0 cs t Hb Hnd Hal; simpl.
  { left. exists t. by rewrite app_nil_r. }
  apply NoDup_cons in Hnd as [Ha Hnd]. destruct (Hal a ltac:(by left)) as [c Hc].
  eapply ends_bind; [by apply (handle_one_spec a todo c l0 cs)|]. intros t1 Hb1.
  rewrite Hc, app_assoc. apply IH; [done|done|]. intros x Hx. apply Hal. by right.
Qed.

(** Every registered channel knows that it is in a loop. *)
Definition added (l : LoopChannels P) : Prop :=
  ∀ a c, chans l !! a = Some c -> channels_ (poller_ l) !! fd_ c = Some a -> addedToLoop_ c = true.

End props.

(** * Both pollers *)

#[export] Program Instance PollPoller_Poll : PollerPoll PollPoller := {
  report := list Z * Z;
  poll r := pp_poll r.1 r.2;
  reported r _ p := pp_reported r p }.
Next Obligation. intros chs p r. apply pp_poll_spec. Qed.

#[export] Program Instance EPollPoller_Poll {K} `{EpollLaws K} : PollerPoll (EPollPoller K) := {
  report := list (Z * Z);
  poll := ep_poll;
  reported ready _ p := zlen ready <= events_size p ∧ NoDup ready.*2 ∧
    ∀ e, e ∈ ready -> ∃ fd ev, interest (epollfd_ p) !! fd = Some (ev, e.2) }.
Next Obligation.
  intros K HK HL chs p r Hi (Hlen & Hnd & Hin).
  destruct (EPollPoller_poll chs p r Hi Hlen Hin) as (chs' & p' & E & Hi' & Hch & _ & _ & Hkeep & _).
  exists r.*2, chs', p'. split_and!; try done.
  intros a ((ev & b) & -> & He)%list_elem_of_fmap. destruct (Hin _ He) as (fd & ev' & Hint). exists fd.
  by apply (ei_interest _ _ Hi) in Hint.
Qed.

(** * A turn *)

(** A channel that closes itself when it is read. *)
Definition sample_react {P} `{Poller P} (l : LoopChannels P) (a : Z) (cb : Callback) : list Act :=
  match cb, chans l !! a with
  | CbRead, Some c =>
      if bool_decide (channels_ (poller_ l) !! fd_ c = Some a) && bool_decide (currentActiveChannel_ l = Some a) then [AClose a] else []
  | _, _ => []
  end.

Lemma sample_react_allowed {P} `{PollerLaws P} (Q : LoopChannels P -> Act -> Prop) l a cb :
  (registered a l -> currentActiveChannel_ l = Some a -> Q l (AClose a)) -> all_acts Q l (sample_react l a cb).
Proof.
  intros HQ. unfold sample_react. destruct cb; try done. destruct (chans l !! a) as [c|] eqn:Hc; [|done].
  destruct (bool_decide (channels_ _ !! _ = _)) eqn:E1; [|done]. destruct (bool_decide (currentActiveChannel_ l = _)) eqn:E2; [|done].
  apply bool_decide_eq_true in E1, E2. split; [|done]. apply HQ; [by exists c|done].
Qed.

Definition readable : Channel := mkChannel 7 3 0 0 false false false true {[0%nat]}.
Definition sample_turn : LoopChannels PollPoller :=
  mkLoop {[ 5 := readable ]} (mkPoll {[ 7 := 5 ]} [mkPollfd 7 3 0]) true false None [].

Lemma sample_turn_inv : loop_inv sample_turn ∧ added sample_turn.
Proof.
  split; [split; [done|split]|].
  - intros fd a Hch. simpl in Hch. apply lookup_singleton_Some in Hch as [<- <-]. split; [lia|].
    eexists _, 0%nat, _. repeat split; reflexivity.
  - intros [|i] pfd Hp; simpl in Hp; [injection Hp as <-|done]. eexists 5, _. repeat split; reflexivity.
  - intros a c Hc _. simpl in Hc. by apply lookup_singleton_Some in Hc as [_ <-].
Qed.

(** What [::poll] has stored, and its result. *)
Definition one_event : report (P := PollPoller) := ([1], 1).
Definition two_events : report (P := PollPoller) := ([1; 1], 2).


(** Two channels, the first of which closes the second although both are active. *)
Definition rude_react (l : LoopChannels PollPoller) (a : Z) (cb : Callback) : list Act :=
  if bool_decide (a = 5) then [AClose 6] else [].
Definition rude_turn : LoopChannels PollPoller :=
  mkLoop {[ 5 := readable; 6 := mkChannel 9 3 0 1 false false false true {[0%nat]} ]}
    (mkPoll {[ 7 := 5; 9 := 6 ]} [mkPollfd 7 3 0; mkPollfd 9 3 0]) true false None [].

(** The assertion of [EventLoop::removeChannel] is what stops it. *)
Example rude_turn_stops : turn Channel_dtor rude_react two_events (mkTurn rude_turn []) = Fault AssertFail.
Proof. vm_compute. reflexivity. Qed.

(** A channel that is closed and enabled again by its own callback: a [PollPoller] takes it for
    one that it knows, whose place in the vector is gone. *)
Definition reopening_react (l : LoopChannels PollPoller) (a : Z) (cb : Callback) : list Act := [AClose a; AOp a OpEnableReading].

Example reopened_stops : turn Channel_dtor reopening_react one_event (mkTurn sample_turn []) = Fault AssertFail.
Proof. vm_compute. reflexivity. Qed.
