(* ===== verification/EventLoop.v ===== *)
(** The event loop: [PracticeMuduo/reactor.muduo/EventLoop.cpp].  The loop's thread and
    the other threads run as interleaved steps on the shared state; a critical section
    of the mutex is one step.  Functors are names whose body is a list of calls on the
    loop; the poller's answer is any list of active channels that contains the wake-up
    channel exactly when its eventfd is readable. *)
From Stdlib Require Import Floats.SpecFloat.
From S2P Require Import Prelude Timestamp TimerQueue Channel Poller.
Open Scope list_scope.

Definition kPollTimeMs : Z := 10000.

(** * Data *)

Abbreviation Functor := nat.

(** What a callback does to the loop it runs in. *)
Inductive Action :=
| AQueueInLoop (f : Functor)
| ARunInLoop (cb : list Action)
| AQuit
| AWakeup.

(** An active channel: the wake-up channel or another one, with what its callbacks do. *)
Inductive Handler := HWakeup | HChannel (acts : list Action).

(** Where the loop's thread is. *)
Inductive Pc :=
| Idle      (* outside [loop()] *)
| Test      (* at the condition of the [while] *)
| Poll      (* in [poll()] *)
| Handle    (* handling the active channels *)
| Swap      (* in [doPendingFunctors()], before the critical section *)
| Run.      (* calling the functors *)

#[export] Instance Pc_eq_dec : EqDecision Pc.
Proof. solve_decision. Defined.

(** What other threads touch as well.  [waking] counts the threads that have pushed a
    functor or set [quit_] and have not yet called [wakeup()]; [queued] is the history
    of the pushes. *)
Record Shared := mkShared {
  quit_ : bool;
  pendingFunctors_ : list Functor;
  wakeupFd_ : Z;
  waking : nat;
  queued : list Functor }.

(** What belongs to the loop's thread.  [work] is what is left to do of the callback that
    is running, [active] and [functors] what is left of the two [for] loops; [executed]
    is the history of the functors called by [doPendingFunctors]. *)
Record LoopThread := mkThread {
  looping_ : bool;
  eventHandling_ : bool;
  callingPendingFunctors_ : bool;
  pc : Pc;
  work : list Action;
  active : list Handler;
  functors : list Functor;
  executed : list Functor }.

Abbreviation EventLoop := (Shared * LoopThread)%type.

Definition new_EventLoop : EventLoop :=
  (mkShared false [] 0 0 [], mkThread false false false Idle [] [] [] []).

(** * Calls on the shared state *)

(** The eventfd is non-blocking: at its largest value a write fails. *)
Definition wakeup (sh : Shared) : Shared :=
  mkShared (quit_ sh) (pendingFunctors_ sh)
    (if wakeupFd_ sh <? 2 ^ 64 - 2 then wakeupFd_ sh + 1 else wakeupFd_ sh) (waking sh) (queued sh).

Definition handleRead (sh : Shared) : Shared :=
  mkShared (quit_ sh) (pendingFunctors_ sh) 0 (waking sh) (queued sh).

(** The critical section of [queueInLoop(cb)]. *)
Definition queueInLoop_push (cb : Functor) (sh : Shared) : Shared :=
  mkShared (quit_ sh) (pendingFunctors_ sh ++ [cb]) (wakeupFd_ sh) (waking sh) (queued sh ++ [cb]).

Definition set_quit (b : bool) (sh : Shared) : Shared :=
  mkShared b (pendingFunctors_ sh) (wakeupFd_ sh) (waking sh) (queued sh).

Definition set_waking (n : nat) (sh : Shared) : Shared :=
  mkShared (quit_ sh) (pendingFunctors_ sh) (wakeupFd_ sh) n (queued sh).

Definition swap_pending (sh : Shared) : Shared :=
  mkShared (quit_ sh) [] (wakeupFd_ sh) (waking sh) (queued sh).

(** * The loop's thread *)

Definition set_work (w : list Action) (th : LoopThread) : LoopThread :=
  mkThread (looping_ th) (eventHandling_ th) (callingPendingFunctors_ th) (pc th) w
    (active th) (functors th) (executed th).

(** One call, made on the loop's thread: [queueInLoop] needs a wake-up only while functors
    are being called, [runInLoop] runs its argument, [quit] wakes nobody. *)
Definition exec (a : Action) (w : list Action) (s : EventLoop) : EventLoop :=
  let (sh, th) := s in
  match a with
  | AQueueInLoop f =>
      (queueInLoop_push f sh, set_work (if callingPendingFunctors_ th then AWakeup :: w else w) th)
  | ARunInLoop cb => (sh, set_work (cb ++ w) th)
  | AQuit => (set_quit true sh, set_work w th)
  | AWakeup => (wakeup sh, set_work w th)
  end.

Section loop.
Context (body : Functor -> list Action).

(** The next step of [loop()] and [doPendingFunctors()]; none outside [loop()] and in
    [poll()]. *)
Definition advance (s : EventLoop) : option EventLoop :=
  let (sh, th) := s in
  match work th with
  | a :: w => Some (exec a w s)
  | [] =>
      match pc th with
      | Idle | Poll => None
      | Test =>
          if quit_ sh then Some (sh, mkThread false false false Idle [] [] [] (executed th))
          else Some (sh, mkThread true false false Poll [] [] [] (executed th))
      | Handle =>
          match active th with
          | HWakeup :: l => Some (handleRead sh, mkThread true true false Handle [] l [] (executed th))
          | HChannel acts :: l => Some (sh, mkThread true true false Handle acts l [] (executed th))
          | [] => Some (sh, mkThread true false true Swap [] [] [] (executed th))
          end
      | Swap => Some (swap_pending sh, mkThread true false true Run [] [] (pendingFunctors_ sh) (executed th))
      | Run =>
          match functors th with
          | f :: fs => Some (sh, mkThread true false true Run (body f) [] fs (executed th ++ [f]))
          | [] => Some (sh, mkThread true false false Test [] [] [] (executed th))
          end
      end
  end.

(** [loop()] up to its [while]. *)
Definition enter_loop (s : EventLoop) : res EventLoop :=
  let (sh, th) := s in
  if negb (looping_ th) then
    Ok (set_quit false sh, mkThread true false (callingPendingFunctors_ th) Test [] [] [] (executed th))
  else Fault AssertFail.

(** [poll] returns with the active channels. *)
Definition poll_returns (act : list Handler) (s : EventLoop) : EventLoop :=
  (s.1, mkThread true true false Handle [] act [] (executed s.2)).

(** The steps of the program.  [early] allows the loop's thread to use the loop before it
    calls [loop()] (and after [loop()] returned). *)
Inductive step (early : Prop) : EventLoop -> EventLoop -> Prop :=
| step_advance s s' : advance s = Some s' -> step early s s'
| step_enter s s' : pc s.2 = Idle -> work s.2 = [] -> enter_loop s = Ok s' -> step early s s'
| step_poll act s :
    pc s.2 = Poll -> work s.2 = [] -> (HWakeup ∈ act <-> 0 < wakeupFd_ s.1) ->
    step early s (poll_returns act s)
| step_early acts sh th :
    early -> pc th = Idle -> work th = [] -> step early (sh, th) (sh, set_work acts th)
| step_other_queue f sh th :           (* queueInLoop and runInLoop of another thread *)
    step early (sh, th) (set_waking (S (waking sh)) (queueInLoop_push f sh), th)
| step_other_quit sh th :              (* quit() of another thread *)
    step early (sh, th) (set_waking (S (waking sh)) (set_quit true sh), th)
| step_other_wakeup n sh th :
    waking sh = S n -> step early (sh, th) (wakeup (set_waking n sh), th).

Definition reachable (early : Prop) : EventLoop -> Prop := rtc (step early) new_EventLoop.

(** * Invariants *)

(** The flags agree with where the thread is, and the locals are live only there. *)
Record thread_inv (th : LoopThread) : Prop := {
  ti_looping : looping_ th = bool_decide (pc th ≠ Idle);
  ti_handling : eventHandling_ th = bool_decide (pc th = Handle);
  ti_calling : callingPendingFunctors_ th = bool_decide (pc th = Swap ∨ pc th = Run);
  ti_functors : functors th ≠ [] -> pc th = Run;
  ti_work : work th ≠ [] -> pc th ≠ Test ∧ pc th ≠ Poll ∧ pc th ≠ Swap }.

Record loop_inv (s : EventLoop) : Prop := {
  li_thread : thread_inv s.2;
  li_fifo : queued s.1 = executed s.2 ++ functors s.2 ++ pendingFunctors_ s.1;
  li_counter : 0 <= wakeupFd_ s.1 }.

Lemma thread_inv_work th w :
  thread_inv th -> pc th = Idle ∨ pc th = Handle ∨ pc th = Run -> thread_inv (set_work w th).
Proof. intros [] Hpc. split; simpl; try done. intros _. by destruct Hpc as [->|[->| ->]]. Qed.

Lemma thread_inv_work_pc th a w :
  thread_inv th -> work th = a :: w -> pc th = Idle ∨ pc th = Handle ∨ pc th = Run.
Proof.
  intros Hi E. destruct (ti_work _ Hi) as (? & ? & ?); [by rewrite E|]. destruct (pc th); tauto.
Qed.

Lemma wakeup_counter sh : 0 <= wakeupFd_ sh -> 0 < wakeupFd_ (wakeup sh).
Proof. intros. unfold wakeup. simpl. destruct (Z.ltb_spec (wakeupFd_ sh) (2 ^ 64 - 2)); lia. Qed.

Ltac tinv := split; simpl; try done; try (by rewrite bool_decide_eq_true_2 by (left; done));
             try (by rewrite bool_decide_eq_true_2 by (right; done));
             try (by rewrite bool_decide_eq_false_2 by (intros [?|?]; done)).

Lemma exec_inv a w s :
  loop_inv s -> work s.2 = a :: w -> loop_inv (exec a w s).
Proof.
  destruct s as [sh th]. intros [Hi Hq Hc] E. simpl in *.
  pose proof (thread_inv_work_pc _ _ _ Hi E) as Hpc.
  destruct a; split; simpl; try done; try (by apply thread_inv_work).
  - by rewrite Hq, <- !app_assoc.
  - destruct (wakeupFd_ sh <? 2 ^ 64 - 2); lia.
Qed.

Lemma advance_inv s s' : loop_inv s -> advance s = Some s' -> loop_inv s'.
Proof.
  intros Hi E. pose proof Hi as [Ht Hq Hc]. destruct s as [sh th]. unfold advance in E.
  destruct (work th) as [|a w] eqn:Ew; [|injection E as <-; by apply (exec_inv a w (sh, th))].
  simpl in *.
  assert (pc th ≠ Run -> functors th = []) as Hf.
  { intros Hp. destruct (functors th) eqn:F; [done|]. destruct Hp. apply Ht. by rewrite F. }
  destruct (pc th) eqn:Hpc; simplify_eq; rewrite ?Hf in Hq by done.
  - destruct (quit_ sh); injection E as <-; split; simpl; try done; tinv.
  - destruct (active th) as [|[|acts] l]; injection E as <-; split; simpl; try done; tinv.
  - split; simpl; [tinv| |done]. by rewrite app_nil_r.
  - destruct (functors th) as [|f fs]; injection E as <-; split; simpl; try done; try tinv.
    by rewrite <- app_assoc.
Qed.

Lemma step_inv early s s' : loop_inv s -> step early s s' -> loop_inv s'.
Proof.
  intros Hi Hs. destruct Hs as [s s' E|s s' Hpc Hw E|act s Hpc Hw Hact|acts sh th _ Hpc Hw|f sh th|sh th|n sh th Hn].
  - by eapply advance_inv.
  - destruct s as [sh th], Hi as [Ht Hq Hc]. unfold enter_loop in E. simpl in *.
    destruct (looping_ th) eqn:L; simplify_eq/=.
    assert (functors th = []) as Hf.
    { destruct (functors th) eqn:F; [done|]. pose proof (ti_functors _ Ht) as Hr. rewrite F in Hr.
      by rewrite Hpc in Hr; specialize (Hr ltac:(done)). }
    split; simpl; [|by rewrite Hq, Hf|done]. pose proof (ti_calling _ Ht) as Hcal. rewrite Hpc in Hcal.
    split; simpl; try done.
  - destruct s as [sh th], Hi as [Ht Hq Hc]. simpl in *.
    assert (functors th = []) as Hf.
    { destruct (functors th) eqn:F; [done|]. pose proof (ti_functors _ Ht) as Hr. rewrite F in Hr.
      by rewrite Hpc in Hr; specialize (Hr ltac:(done)). }
    split; simpl; [tinv| |done]. by rewrite Hq, Hf.
  - destruct Hi as [Ht Hq Hc]. split; simpl; try done. apply thread_inv_work; auto.
  - destruct Hi as [Ht Hq Hc]. split; simpl; try done. simpl in Hq. by rewrite Hq, <- !app_assoc.
  - destruct Hi as [Ht Hq Hc]. by split.
  - destruct Hi as [Ht Hq Hc]. split; simpl; try done. simpl in Hc. destruct (wakeupFd_ sh <? 2 ^ 64 - 2); lia.
Qed.

Lemma reachable_inv early s : reachable early s -> loop_inv s.
Proof.
  apply rtc_invariant; [intros ? ?; apply step_inv|]. split; [tinv|done|done].
Qed.
End loop.

(** * Construction, destruction and timers *)

(** [createEventfd()], for what [eventfd] returns. *)
Definition createEventfd (evtfd : Z) : res Z := if evtfd <? 0 then Fault FatalLog else Ok evtfd.

Definition isInLoopThread (callerId pid_ : Z) : bool := callerId =? pid_.

(** [t_loopInThisThread], NULL being 0: a second loop in the thread is only logged. *)
Definition getEventLoopOfCurrentThread (t_loopInThisThread : Z) : Z := t_loopInThisThread.
Definition claim_thread (this t_loopInThisThread : Z) : Z :=
  if negb (t_loopInThisThread =? 0) then t_loopInThisThread else this.

Section channels.
Context {P : Type} `{PollerLaws P}.

(** The constructor's body, for the wake-up channel at [wakeupChannel_]. *)
Definition EventLoop_ctor (this wakeupChannel_ : Z) : M (Z * LoopChannels P) unit :=
  modify (λ s, (claim_thread this s.1, s.2)) ;;
  zoom snd (λ l s, (s.1, l)) (on_channel (set_callback CbRead) wakeupChannel_ ;; channel_enableReading wakeupChannel_).

(** [~EventLoop()] *)
Definition EventLoop_dtor (th : LoopThread) (wakeupChannel_ : Z) : M (Z * LoopChannels P) unit :=
  assert (negb (looping_ th)) ;;
  modify (λ s, (0, s.2)) ;;
  zoom snd (λ l s, (s.1, l)) (channel_disableAll wakeupChannel_ ;; remove wakeupChannel_).

(** Construction and destruction outside [loop()] succeed under every poller, and leave
    the poller as it was. *)
Lemma EventLoop_ctor_dtor this w fd t (l : LoopChannels P) th :
  Poller.loop_inv l -> w ≠ 0 -> chans l !! w = Some (new_Channel fd) -> 0 <= fd ->
  channels_ (poller_ l) !! fd = None -> loopHandling l = false -> looping_ th = false ->
  ∃ t' l' l'', EventLoop_ctor this w (t, l) = Ok (tt, (t', l')) ∧
    channels_ (poller_ l') = <[fd := w]> (channels_ (poller_ l)) ∧
    EventLoop_dtor th w (t', l') = Ok (tt, (0, l'')) ∧ channels_ (poller_ l'') = channels_ (poller_ l).
Proof.
  intros Hi Hw Hc Hfd Hn Hh Hl. set (c0 := set_callback CbRead (new_Channel fd)).
  set (l0 := mkLoop (<[w := c0]> (chans l)) (poller_ l) (inLoopThread l) (loopHandling l)
               (currentActiveChannel_ l) (activeChannels_ l)).
  assert (chans l0 !! w = Some c0) as Hc0 by apply lookup_insert_eq.
  assert (Poller.loop_inv l0) as Hi0.
  { destruct Hi as [? ?]. split; [done|]. by apply (inv_insert _ _ _ _ (set_callback CbRead)). }
  destruct (update_fresh enableReading w c0 l0) as (l1 & i & E1 & Hi1 & Hch1 & Hreg1 & Hh1 & _ & _); try done.
  assert (registered w l1) as Hr1.
  { eexists. split; [rewrite Hch1; apply lookup_insert_eq|]. rewrite Hreg1. apply lookup_insert_eq. }
  destruct (update_registered disableAll w l1) as (l2 & c1 & j & E2 & Hc1 & Hi2 & Hch2 & Hreg2 & Hh2 & _ & _ & Hrem);
    [done|done|done|done|].
  assert (c1 = set_index i (set_added true (enableReading c0))) as ->
    by (rewrite Hch1, lookup_insert_eq in Hc1; congruence).
  destruct (remove_spec w (set_index j (set_added true (disableAll (set_index i (set_added true (enableReading c0)))))) l2)
    as (l3 & E3 & _ & Hreg3 & _); [done|rewrite Hch2; apply lookup_insert_eq|done|by apply Hrem|intros X; rewrite Hh2, Hh1 in X; simpl in X; congruence|].
  exists (claim_thread this t), l1, l3. split; [|split; [by rewrite Hreg1|split]].
  - assert ((on_channel (set_callback CbRead) w ;; channel_enableReading w) l = Ok (tt, l1)) as E.
    { rewrite (bind_Ok _ _ l tt l0) by (unfold on_channel; by rewrite Hc). exact E1. }
    unfold EventLoop_ctor. rewrite (bind_Ok _ _ _ tt (claim_thread this t, l)) by done.
    unfold zoom. cbn [fst snd]. by rewrite E.
  - assert ((channel_disableAll w ;; remove w) l1 = Ok (tt, l3)) as E
      by (by rewrite (bind_Ok (channel_disableAll w) _ _ _ _ E2)).
    unfold EventLoop_dtor. rewrite Hl. rewrite (bind_Ok _ _ _ tt (claim_thread this t, l1)) by done.
    rewrite (bind_Ok _ _ _ tt (0, l1)) by done. unfold zoom. cbn [fst snd]. by rewrite E.
  - rewrite Hreg3, Hreg2, Hreg1. by apply delete_insert_id.
Qed.
End channels.

(** [runAt], [runAfter] and [runEvery], on the loop's thread. *)
Section timers.
Context (malloc : gmap Z Timer -> Z).

Definition runAt (time : Timestamp) (cb : nat) : M TimerQueue TimerId :=
  addTimer malloc cb time (double_of_Z 0).
Definition runAfter (delay : double) (cb : nat) : M TimerQueue TimerId := λ q,
  match addTime (clock q) delay with Ok when => runAt when cb q | Fault f => Fault f end.
Definition runEvery (interval : double) (cb : nat) : M TimerQueue TimerId := λ q,
  match addTime (clock q) interval with Ok when => addTimer malloc cb when interval q | Fault f => Fault f end.
Definition loop_cancel (timerId : TimerId) : M TimerQueue unit := TimerQueue.cancel timerId.
End timers.
