(* ===== verification/EventLoopProps.v ===== *)
(** What the event loop promises: no functor and no [quit] is left waiting in [poll], and
    every iteration runs the functors that were queued before it swapped the list. *)
From S2P Require Import Prelude EventLoop.
Open Scope list_scope.

Section props.
Context (body : Functor -> list Action).

(** * Wake-ups *)

(** Someone will make [poll] return. *)
Definition woken (sh : Shared) : Prop := 0 < wakeupFd_ sh ∨ (0 < waking sh)%nat.

Record wake_inv (s : EventLoop) : Prop := {
  wi_pending : pendingFunctors_ s.1 ≠ [] ->
    woken s.1 ∨ pc s.2 = Handle ∨ pc s.2 = Swap ∨ ∃ w, work s.2 = AWakeup :: w;
  wi_quit : quit_ s.1 = true -> pc s.2 = Poll -> woken s.1;
  wi_idle : pc s.2 = Idle -> work s.2 = [] }.

Lemma woken_wakeup sh : 0 <= wakeupFd_ sh -> woken (wakeup sh).
Proof. left. by apply wakeup_counter. Qed.

Lemma exec_wake a w s :
  loop_inv s -> wake_inv s -> work s.2 = a :: w -> wake_inv (exec a w s).
Proof.
  destruct s as [sh th]. intros [Ht _ Hc] [Hp Hq Hi] E. simpl in *.
  pose proof (thread_inv_work_pc _ _ _ Ht E) as Hpc.
  assert (pc th ≠ Idle) as Hni by (intros X; rewrite (Hi X) in E; done).
  assert (pc th ≠ Poll) as Hnp by (destruct Hpc as [X|[X|X]]; rewrite X; done).
  destruct a as [f|cb| |]; split; simpl; try done.
  - intros _. destruct Hpc as [?|[?|Hr]]; [done|auto|].
    rewrite (ti_calling _ Ht), Hr. rewrite bool_decide_eq_true_2 by auto. eauto.
  - intros X. destruct (Hp X) as [?|[?|[?|(w' & W)]]]; [auto..|congruence].
  - intros X. destruct (Hp X) as [?|[?|[?|(w' & W)]]]; [auto..|congruence].
  - intros _. left. by apply woken_wakeup.
Qed.

Lemma advance_wake s s' : loop_inv s -> wake_inv s -> advance body s = Some s' -> wake_inv s'.
Proof.
  intros Hi Hwi E. destruct s as [sh th]. unfold advance in E.
  destruct (work th) as [|a w] eqn:Ew; [|injection E as <-; by apply (exec_wake a w (sh, th))].
  destruct Hwi as [Hp Hq Hw]. simpl in *. rewrite Ew in Hp.
  assert (pc th ≠ Handle -> pc th ≠ Swap -> pendingFunctors_ sh ≠ [] -> woken sh) as Hpw.
  { intros ? ? X. destruct (Hp X) as [?|[?|[?|(w' & W)]]]; done. }
  destruct (pc th) eqn:Hpc; simplify_eq.
  - destruct (quit_ sh) eqn:Hquit; injection E as <-; split; simpl; try done; [auto|auto|congruence].
  - destruct (active th) as [|[|acts] l]; injection E as <-; split; simpl; try done; auto.
  - by split.
  - destruct (functors th) as [|f fs]; injection E as <-; split; simpl; try done; auto.
Qed.

Lemma step_wake s s' : loop_inv s -> wake_inv s -> step body False s s' -> wake_inv s'.
Proof.
  intros Hi Hwi Hs.
  destruct Hs as [s s' E|s s' Hpc Hw E|act s Hpc Hw Hact|acts sh th F|f sh th|sh th|n sh th Hn]; [|..|done| | |].
  - by eapply advance_wake.
  - destruct s as [sh th], Hwi as [Hp Hq Hw']. unfold enter_loop in E. simpl in *.
    destruct (looping_ th) eqn:L; simplify_eq/=. split; simpl; try done.
    intros X. destruct (Hp X) as [?|[?|[?|(w' & W)]]]; [auto|congruence..].
  - destruct s as [sh th], Hwi as [Hp Hq Hw']. split; simpl; try done. auto.
  - destruct Hwi as [Hp Hq Hw']. split; simpl; try done; intros; unfold woken; simpl; auto with lia.
  - destruct Hwi as [Hp Hq Hw']. split; simpl; try done; intros; unfold woken; simpl; auto with lia.
  - destruct Hwi as [Hp Hq Hw']. pose proof (li_counter _ Hi) as Hc. simpl in *.
    split; simpl; try done; intros; [left|]; by apply woken_wakeup.
Qed.

Lemma reachable_wake s : reachable body False s -> loop_inv s ∧ wake_inv s.
Proof.
  apply (rtc_invariant (step body False) (λ s, loop_inv s ∧ wake_inv s)).
  - intros s1 s2 [Hi Hw] Hs. split; [by eapply step_inv|by eapply step_wake].
  - split; [by apply (reachable_inv body False), rtc_refl|by split].
Qed.

(** C8: no wake-up is lost: if the loop's own thread has queued nothing before it called [loop()],
    then whenever it sits in [poll] although a functor is pending - queued by another thread, or
    by a callback or functor of the loop - or [quit] was called, the wake-up channel is readable,
    or another thread is on its way from its push (or its store) to the call of [wakeup] that
    makes it so.  Functors that the thread queues before [loop()] do wait
    ([early_functor_waits]). *)
Theorem EventLoop_no_lost_wakeup s :
  reachable body False s -> pc s.2 = Poll -> pendingFunctors_ s.1 ≠ [] ∨ quit_ s.1 = true ->
  0 < wakeupFd_ s.1 ∨ (0 < waking s.1)%nat.
Proof.
  intros Hr Hpc [Hp|Hq]; destruct (reachable_wake s Hr) as [Hi [Hwp Hwq _]]; [|by apply Hwq].
  destruct (Hwp Hp) as [?|[?|[?|(w & Hw)]]]; [done|congruence..|].
  destruct (ti_work _ (li_thread _ Hi)) as (_ & X & _); [by rewrite Hw|done].
Qed.

(** The condition is needed: a functor that the loop's own thread queues before it
    calls [loop()] wakes nobody, since no functors are being called; the loop then waits in
    [poll] for its whole time-out with the functor pending. *)
Theorem early_functor_waits f :
  ∃ s, reachable body True s ∧ pc s.2 = Poll ∧ pendingFunctors_ s.1 = [f] ∧
    wakeupFd_ s.1 = 0 ∧ waking s.1 = 0%nat ∧ executed s.2 = [].
Proof.
  set (idle acts := mkThread false false false Idle acts [] [] []).
  exists (mkShared false [f] 0 0 [f], mkThread true false false Poll [] [] [] []).
  split; [|done]. unfold reachable.
  eapply rtc_l; [by apply (step_early body True [AQueueInLoop f] (mkShared false [] 0 0 []) (idle []))|].
  eapply rtc_l; [apply step_advance; reflexivity|].
  eapply rtc_l; [eapply step_enter; reflexivity|].
  eapply rtc_l; [apply step_advance; reflexivity|]. apply rtc_refl.
Qed.

(** * One iteration *)

(** The functors a call queues and whether it quits, inside nested [runInLoop]s too. *)
Fixpoint queues (a : Action) : list Functor :=
  match a with
  | AQueueInLoop f => [f]
  | ARunInLoop cb => flat_map queues cb
  | AQuit | AWakeup => []
  end.
Fixpoint quits (a : Action) : bool :=
  match a with
  | AQuit => true
  | ARunInLoop cb => existsb quits cb
  | AQueueInLoop _ | AWakeup => false
  end.
Fixpoint size (a : Action) : nat :=
  match a with
  | ARunInLoop cb => S (list_sum (map size cb))
  | _ => 1
  end.

Definition handler_queues (h : Handler) : list Functor :=
  match h with HWakeup => [] | HChannel acts => flat_map queues acts end.
Definition handler_quits (h : Handler) : bool :=
  match h with HWakeup => false | HChannel acts => existsb quits acts end.

(** The loop's thread alone. *)
Definition runs : relation EventLoop := rtc (λ s s', advance body s = Some s').

Lemma runs_step s s' s'' : advance body s = Some s' -> runs s' s'' -> runs s s''.
Proof. intros E; by apply (rtc_l (λ s s', advance body s = Some s')). Qed.

(** What a stretch of the thread's run does to the shared state: [q] is queued, [b]
    tells whether something quits, [woken] whether the new functors wake the loop. *)
Record effect (q : list Functor) (b calling : bool) (sh sh' : Shared) : Prop := {
  ef_pending : pendingFunctors_ sh' = pendingFunctors_ sh ++ q;
  ef_quit : quit_ sh' = quit_ sh || b;
  ef_counter : 0 <= wakeupFd_ sh -> 0 <= wakeupFd_ sh';
  ef_woken : calling = true -> 0 <= wakeupFd_ sh -> q ≠ [] ∨ 0 < wakeupFd_ sh -> 0 < wakeupFd_ sh' }.

Lemma effect_refl c sh : effect [] false c sh sh.
Proof. split; [by rewrite app_nil_r|by rewrite orb_false_r|done|]. by intros _ _ [?|?]. Qed.

Lemma effect_trans q1 q2 b1 b2 c sh1 sh2 sh3 :
  effect q1 b1 c sh1 sh2 -> effect q2 b2 c sh2 sh3 -> effect (q1 ++ q2) (b1 || b2) c sh1 sh3.
Proof.
  intros [P1 Q1 C1 W1] [P2 Q2 C2 W2]. split.
  - by rewrite P2, P1, app_assoc.
  - by rewrite Q2, Q1, orb_assoc.
  - auto.
  - intros Hc H0 Hq. apply W2; [done|auto|].
    destruct q1; simpl in Hq; [|right; apply W1; auto; by left].
    destruct Hq; [by left|right; apply W1; auto].
Qed.

(** A callback's calls are carried out to the last one. *)
Lemma drain n acts : ∀ w sh th, (list_sum (map size acts) <= n)%nat -> work th = acts ++ w ->
  ∃ sh', runs (sh, th) (sh', set_work w th) ∧
    effect (flat_map queues acts) (existsb quits acts) (callingPendingFunctors_ th) sh sh'.
Proof.
  revert acts. induction n as [n IH] using lt_wf_ind. intros acts w sh th Hn Hw.
  destruct acts as [|a acts]; simpl in *.
  { exists sh. split; [|apply effect_refl]. destruct th; simpl in *. subst. apply rtc_refl. }
  assert (∀ sh1 b q, (list_sum (map size acts) < n)%nat ->
            effect q b (callingPendingFunctors_ th) sh sh1 ->
            runs (sh, th) (sh1, set_work (acts ++ w) th) ->
            ∃ sh', runs (sh, th) (sh', set_work w th) ∧
              effect (q ++ flat_map queues acts) (b || existsb quits acts) (callingPendingFunctors_ th) sh sh')
    as Hrest.
  { intros sh1 b q Hlt He Hr.
    destruct (IH _ Hlt acts w sh1 (set_work (acts ++ w) th)) as (sh' & Hr' & He'); [done|done|].
    exists sh'. split; [by eapply rtc_trans|]. by eapply effect_trans. }
  assert (∀ s', exec a (acts ++ w) (sh, th) = s' -> advance body (sh, th) = Some s') as Hadv
    by (intros s' <-; unfold advance; by rewrite Hw).
  destruct a as [f|cb| |]; simpl in *.
  - apply (Hrest (if callingPendingFunctors_ th then wakeup (queueInLoop_push f sh) else queueInLoop_push f sh) false [f]).
    + lia.
    + destruct (callingPendingFunctors_ th); (split; simpl; [done|by rewrite orb_false_r| |]).
      * intros. destruct (_ <? _); lia.
      * intros _ H0 _. apply (wakeup_counter (queueInLoop_push f sh)). done.
      * done.
      * done.
    + eapply runs_step; [by apply Hadv|]. destruct (callingPendingFunctors_ th) eqn:C; [|apply rtc_refl].
      eapply runs_step; [reflexivity|]. apply rtc_refl.
  - destruct (IH (list_sum (map size cb) + list_sum (map size acts))%nat ltac:(lia) (cb ++ acts) w sh
                (set_work (cb ++ acts ++ w) th)) as (sh' & Hr' & He').
    + by rewrite map_app, list_sum_app.
    + simpl. by rewrite app_assoc.
    + exists sh'. rewrite flat_map_app, existsb_app in He'. split; [|done].
      eapply runs_step; [by apply Hadv|]. done.
  - apply (Hrest (set_quit true sh) true []); [lia| |eapply runs_step; [by apply Hadv|apply rtc_refl]].
    split; simpl; [by rewrite app_nil_r|by rewrite orb_true_r|done|]. by intros _ _ [?|?].
  - apply (Hrest (wakeup sh) false []); [lia| |eapply runs_step; [by apply Hadv|apply rtc_refl]].
    split; [by rewrite app_nil_r|by rewrite orb_false_r| |].
    + intros. pose proof (wakeup_counter sh). lia.
    + intros. by apply wakeup_counter.
Qed.

Definition body_queues (f : Functor) : list Functor := flat_map queues (body f).
Definition body_quits (f : Functor) : bool := existsb quits (body f).

Lemma handlers_run hs : ∀ sh ex, 0 <= wakeupFd_ sh ->
  ∃ sh', runs (sh, mkThread true true false Handle [] hs [] ex) (sh', mkThread true false true Swap [] [] [] ex) ∧
    pendingFunctors_ sh' = pendingFunctors_ sh ++ flat_map handler_queues hs ∧
    quit_ sh' = quit_ sh || existsb handler_quits hs ∧ 0 <= wakeupFd_ sh'.
Proof.
  induction hs as [|[|acts] hs IH]; intros sh ex Hc; simpl.
  - exists sh. rewrite app_nil_r, orb_false_r. split; [|done].
    by eapply runs_step; [reflexivity|apply rtc_refl].
  - destruct (IH (handleRead sh) ex) as (sh' & Hr & Hp & Hq & Hc'); [done|].
    exists sh'. split; [|done]. by eapply runs_step; [reflexivity|].
  - destruct (drain (list_sum (map size acts)) acts [] sh (mkThread true true false Handle acts hs [] ex))
      as (sh1 & Hr1 & [P1 Q1 C1 _]); [done|simpl; by rewrite app_nil_r|].
    destruct (IH sh1 ex) as (sh' & Hr & Hp & Hq & Hc'); [auto|].
    exists sh'. split; [|split_and!; [by rewrite Hp, P1, app_assoc|by rewrite Hq, Q1, orb_assoc|done]].
    eapply runs_step; [reflexivity|]. by eapply rtc_trans.
Qed.

Lemma functors_run fs : ∀ sh ex,
  ∃ sh', runs (sh, mkThread true false true Run [] [] fs ex) (sh', mkThread true false false Test [] [] [] (ex ++ fs)) ∧
    effect (flat_map body_queues fs) (existsb body_quits fs) true sh sh'.
Proof.
  induction fs as [|f fs IH]; intros sh ex; simpl.
  - exists sh. rewrite app_nil_r. split; [|apply effect_refl].
    by eapply runs_step; [reflexivity|apply rtc_refl].
  - destruct (drain (list_sum (map size (body f))) (body f) [] sh (mkThread true false true Run (body f) [] fs (ex ++ [f])))
      as (sh1 & Hr1 & He1); [done|simpl; by rewrite app_nil_r|].
    destruct (IH sh1 (ex ++ [f])) as (sh' & Hr & He). rewrite <- app_assoc in Hr.
    exists sh'. split; [|by eapply effect_trans].
    eapply runs_step; [reflexivity|]. by eapply rtc_trans.
Qed.

(** C7: an iteration of the loop, from [poll]'s return to the next test of [quit_], comes
    to its end whatever the callbacks do; it calls the functors that were pending when
    the handlers were through, those the handlers queued included, in the order they
    were queued, and no others: what these functors queue in their turn is left for the next
    iteration, with the wake-up channel readable so that [poll] returns at once. *)
Theorem EventLoop_iteration s act :
  reachable body False s -> pc s.2 = Poll -> (HWakeup ∈ act <-> 0 < wakeupFd_ s.1) ->
  let fs := pendingFunctors_ s.1 ++ flat_map handler_queues act in
  ∃ s', step body False s (poll_returns act s) ∧ runs (poll_returns act s) s' ∧ pc s'.2 = Test ∧
    executed s'.2 = executed s.2 ++ fs ∧
    pendingFunctors_ s'.1 = flat_map body_queues fs ∧
    (pendingFunctors_ s'.1 ≠ [] -> 0 < wakeupFd_ s'.1) ∧
    quit_ s'.1 = quit_ s.1 || existsb handler_quits act || existsb body_quits fs ∧
    (if quit_ s'.1 then ∃ s'', advance body s' = Some s'' ∧ pc s''.2 = Idle ∧ looping_ s''.2 = false
     else ∃ s'', advance body s' = Some s'' ∧ pc s''.2 = Poll).
Proof.
  intros Hr Hpc Hact fs. destruct s as [sh th]. simpl in *.
  destruct (reachable_inv _ _ _ Hr) as [Ht _ Hc]. simpl in *.
  destruct (handlers_run act sh (executed th) Hc) as (sh1 & Hr1 & Hp1 & Hq1 & Hc1).
  destruct (functors_run fs (swap_pending sh1) (executed th)) as (sh2 & Hr2 & [P2 Q2 C2 W2]).
  exists (sh2, mkThread true false false Test [] [] [] (executed th ++ fs)). simpl in *.
  split; [|split_and!; try done].
  - apply (step_poll body False act (sh, th)); [done| |done]. destruct (work th) eqn:W; [done|].
    destruct (ti_work _ Ht) as (_ & X & _); [by rewrite W|done].
  - eapply rtc_trans; [exact Hr1|]. eapply runs_step; [reflexivity|].
    rewrite Hp1. exact Hr2.
  - rewrite P2. intros X. apply W2; auto.
  - by rewrite Q2, Hq1.
  - destruct (quit_ sh2); eexists; done.
Qed.

(** Functors run in the order in which they were queued, by whichever thread: those
    called, those of the batch being called and those pending are together what was
    queued; and [callingPendingFunctors_], [eventHandling_] and [looping_] say where the
    loop's thread is. *)
Theorem EventLoop_fifo early s :
  reachable body early s ->
  queued s.1 = executed s.2 ++ functors s.2 ++ pendingFunctors_ s.1 ∧
  (callingPendingFunctors_ s.2 = true <-> pc s.2 = Swap ∨ pc s.2 = Run) ∧
  (eventHandling_ s.2 = true <-> pc s.2 = Handle) ∧ (looping_ s.2 = false <-> pc s.2 = Idle).
Proof.
  intros Hr. destruct (reachable_inv _ _ _ Hr) as [[Hl Hh Hc _ _] Hq _].
  rewrite Hl, Hh, Hc, bool_decide_eq_false, !bool_decide_eq_true. split_and!; try done.
  split; [apply dec_stable|tauto].
Qed.
End props.

(** * Witnesses *)

(** Functor 1 queues functor 2; another thread queues 1 while the loop is in [poll]. *)
Definition sample_body (f : Functor) : list Action := if decide (f = 1%nat) then [AQueueInLoop 2] else [].
Definition sample_loop : EventLoop :=
  (mkShared false [1%nat] 1 0 [1%nat], mkThread true false false Poll [] [] [] []).

Lemma sample_reachable early : reachable sample_body early sample_loop.
Proof.
  unfold reachable, new_EventLoop.
  eapply rtc_l; [eapply step_enter; reflexivity|].
  eapply rtc_l; [apply step_advance; reflexivity|].
  eapply rtc_l; [apply (step_other_queue _ _ 1)|].
  eapply rtc_l; [by apply (step_other_wakeup _ _ 0)|]. apply rtc_refl.
Qed.

Lemma EventLoop_no_lost_wakeup_witness : 0 < wakeupFd_ sample_loop.1 ∨ (0 < waking sample_loop.1)%nat.
Proof. apply (EventLoop_no_lost_wakeup sample_body); [apply sample_reachable|reflexivity|left; done]. Defined.

Lemma EventLoop_iteration_witness :
  ∃ s', runs sample_body (poll_returns [HChannel [ARunInLoop [AQueueInLoop 3]]; HWakeup] sample_loop) s' ∧
    executed s'.2 = [1; 3]%nat ∧ pendingFunctors_ s'.1 = [2]%nat ∧ 0 < wakeupFd_ s'.1.
Proof.
  destruct (EventLoop_iteration sample_body sample_loop [HChannel [ARunInLoop [AQueueInLoop 3]]; HWakeup])
    as (s' & _ & Hr & _ & He & Hp & Hw & _); [apply sample_reachable|reflexivity| |].
  - simpl. split; [done|]. intros _. right. left.
  - exists s'. split; [exact Hr|]. split; [exact He|]. split; [exact Hp|]. apply Hw. rewrite Hp. done.
Defined.

Lemma EventLoop_fifo_witness : queued sample_loop.1 = executed sample_loop.2 ++ [] ++ pendingFunctors_ sample_loop.1.
Proof. apply (EventLoop_fifo sample_body False sample_loop (sample_reachable False)). Defined.
