(* ===== verification/EarlierReactor.v ===== *)
(** The earlier reactor, [PracticeMuduo/issues/test_timestamp]: the copies of [Channel],
    [Poller], [PollPoller], [EventLoop], [Timer] and [TimerQueue] that a bug was traced in.
    Functions whose code is the current one's, word for word, are named after it here;
    those that differ are translated, and compared: the timer queue behaves the same, the
    channel has fewer operations and a destructor that misses a check. *)
From Stdlib Require Import Floats.SpecFloat.
From S2P Require Import Prelude Timestamp Thread TimerQueue Channel Poller PollPoller EPollPoller EventLoop ReactorProps Dispatch.
Open Scope list_scope.

(** * Channel_TS *)

Module Channel_TS.
Definition kReadEvent : Z := Channel.kReadEvent.
Definition new_Channel : Z -> Channel := Channel.new_Channel.

(** The only callback that can be set. *)
Definition setReadCallback (c : Channel) : Channel := set_callback CbRead c.

Definition set_revents : Z -> Channel -> Channel := Channel.set_revents.
Definition enableReading : Channel -> Channel := Channel.enableReading.
Definition enableWriting : Channel -> Channel := Channel.enableWriting.
Definition disableAll : Channel -> Channel := Channel.disableAll.
Definition tie : Channel -> Channel := Channel.tie.
Definition handleEventWithGuard : Channel -> list Callback * Channel := Channel.handleEventWithGuard.
Definition handleEvent : Channel -> list Callback * Channel := Channel.handleEvent.
Definition eventsToString : Channel -> list byte := Channel.eventsToString.
Definition reventsToString : Channel -> list byte := Channel.reventsToString.
Definition eventsToString_of : Z -> Z -> list byte := Channel.eventsToString_of.
Definition update {P} `{Poller P} : Z -> M (LoopChannels P) unit := Poller.update.
Definition remove {P} `{Poller P} : Z -> M (LoopChannels P) unit := Poller.remove.

(** [~Channel()]: it does not ask whether the channel is handling an event. *)
Definition Channel_dtor (c : Channel) : res unit := if negb (addedToLoop_ c) then Ok tt else Fault AssertFail.

(** What a channel's owner can do with it. *)
Inductive made : Channel -> Prop :=
| made_new fd : made (new_Channel fd)
| made_read c : made c -> made (setReadCallback c)
| made_tie c : made c -> made (tie c)
| made_reading c : made c -> made (enableReading c)
| made_writing c : made c -> made (enableWriting c)
| made_none c : made c -> made (disableAll c)
| made_revents r c : made c -> made (set_revents r c).

Lemma made_callbacks c cb : made c -> has_callback cb c = true -> cb = CbRead.
Proof.
  unfold has_callback. rewrite bool_decide_eq_true.
  induction 1 as [fd|c _ IH|c _ IH|c _ IH|c _ IH|c _ IH|r c _ IH]; try (exact IH); simpl; [set_solver|].
  rewrite elem_of_union, elem_of_singleton. intros [Hc|Hc]; [by destruct cb|by apply IH].
Qed.

(** An earlier channel's event calls its read callback or nothing: hang-ups, errors and
    writability go unnoticed. *)
Theorem reads_only c : made c -> (handleEvent c).1 = [] ∨ (handleEvent c).1 = [CbRead].
Proof.
  intros Hm. assert (∀ cb, cb ≠ CbRead -> has_callback cb c = false) as Hno.
  { intros cb Hcb. destruct (has_callback cb c) eqn:E; [|done]. by apply (made_callbacks c cb Hm) in E. }
  assert ((handleEventWithGuard c).1 = [] ∨ (handleEventWithGuard c).1 = [CbRead]) as H.
  { unfold handleEventWithGuard, Channel.handleEventWithGuard. cbn [fst].
    assert (∀ cb, cb ≠ CbRead -> has_callback cb (set_handling true c) = false) as Hno' by exact Hno.
    rewrite (Hno' CbClose), (Hno' CbError), (Hno' CbWrite) by done. destruct (has_callback CbRead _); repeat case_match; auto. }
  unfold handleEvent, Channel.handleEvent. fold handleEventWithGuard. destruct (tied_ c), (tie_ c); auto.
Qed.
End Channel_TS.

(** * PollPoller_TS and EventLoop_TS *)

Module PollPoller_TS.
Definition new_PollPoller : PollPoller := PollPoller.new_PollPoller.
Definition poll : list Z -> Z -> M PS (list Z) := pp_poll.
Definition fillActiveChannels : nat -> list pollfd -> Z -> M PS (list Z) := PollPoller.fill.
Definition updateChannel : Z -> M PS unit := pp_updateChannel.
Definition removeChannel : Z -> M PS unit := pp_removeChannel.
Definition hasChannel : Z -> PS -> res bool := Poller.hasChannel.
End PollPoller_TS.

Module EventLoop_TS.
(** [addTime(time_t, long)], which nothing calls. *)
Definition addTime (t seconds : Z) : res Z := int64 (t + seconds).

Definition createEventfd : Z -> res Z := EventLoop.createEventfd.
Definition new_EventLoop : EventLoop := EventLoop.new_EventLoop.
Definition ctor {P} `{PollerLaws P} : Z -> Z -> M (Z * LoopChannels P) unit := EventLoop_ctor.
Definition dtor {P} `{PollerLaws P} : LoopThread -> Z -> M (Z * LoopChannels P) unit := EventLoop_dtor.
Definition enter_loop : EventLoop -> res EventLoop := EventLoop.enter_loop.
Definition advance : (Functor -> list Action) -> EventLoop -> option EventLoop := EventLoop.advance.
Definition updateChannel {P} `{Poller P} : Z -> M (LoopChannels P) unit := loop_updateChannel.
Definition removeChannel {P} `{Poller P} : Z -> M (LoopChannels P) unit := loop_removeChannel.
Definition swap_pending : Shared -> Shared := EventLoop.swap_pending.
Definition isInLoopThread : Z -> Z -> bool := EventLoop.isInLoopThread.
Definition exec : Action -> list Action -> EventLoop -> EventLoop := EventLoop.exec.
Definition runAt : (gmap Z Timer -> Z) -> Timestamp -> nat -> M TimerQueue TimerId := EventLoop.runAt.
Definition runAfter : (gmap Z Timer -> Z) -> double -> nat -> M TimerQueue TimerId := EventLoop.runAfter.
Definition runEvery : (gmap Z Timer -> Z) -> double -> nat -> M TimerQueue TimerId := EventLoop.runEvery.
Definition wakeup : Shared -> Shared := EventLoop.wakeup.
Definition handleRead : Shared -> Shared := EventLoop.handleRead.
End EventLoop_TS.

(** * TimerQueue_TS *)

Module TimerQueue_TS.
Definition new_Timer : nat -> Timestamp -> double -> Z -> Timer := TimerQueue.new_Timer.
Definition restart : Timestamp -> Timer -> res Timer := TimerQueue.restart.
Definition createTimerfd : Z -> res Z := TimerQueue.createTimerfd.
Definition howMuchTimeFromNow : Timestamp -> Timestamp -> res timespec := TimerQueue.howMuchTimeFromNow.
Definition readTimerfd : M TimerQueue unit := TimerQueue.readTimerfd.
Definition resetTimerfd : Timestamp -> M TimerQueue unit := TimerQueue.resetTimerfd.
Definition new_TimerQueue : Z -> Timestamp -> TimerQueue := TimerQueue.new_TimerQueue.
Definition TimerQueue_dtor : M TimerQueue unit := TimerQueue.TimerQueue_dtor.
Definition insert : Z -> M TimerQueue bool := TimerQueue.insert.
Definition addTimerInLoop : Z -> M TimerQueue unit := TimerQueue.addTimerInLoop.
Definition cancelInLoop : TimerId -> M TimerQueue unit := TimerQueue.cancelInLoop.
Definition reset : Timestamp -> M TimerQueue unit := TimerQueue.reset.

(** [getExpired(now)] returns a copy of [expired_]. *)
Definition getExpired (now : Timestamp) : M TimerQueue (list Entry) :=
  assert_sizes ;;
  modify (set_expired []) ;;
  q ← get;
  let '(before, from_end) := lower_bound (now, UINTPTR_MAX) (timers_ q) in
  assert (match from_end with [] => true | e :: _ => op_lt now e.1 end) ;;
  modify (set_expired before) ;;
  modify (set_timers from_end) ;;
  q ← get;
  mapM_ erase_active (expired_ q) ;;
  assert_sizes ;;
  q ← get;
  mret (expired_ q).

Section queue.
Context (malloc : gmap Z Timer -> Z) (body : nat -> TimerQueue -> list TimerQueue.Action).

Definition addTimer : nat -> Timestamp -> double -> M TimerQueue TimerId := TimerQueue.addTimer malloc.
Definition cancel : TimerId -> M TimerQueue unit := TimerQueue.cancel.

(** [handleRead] drops the copy and runs [expired_]. *)
Definition handleRead (pollReturnTime : Timestamp) : M TimerQueue unit :=
  TimerQueue.assertInLoopThread ;;
  q ← get;
  let now := clock q in
  readTimerfd ;;
  getExpired pollReturnTime ;;
  modify (set_calling true) ;;
  modify (set_canceling ∅) ;;
  q ← get;
  mapM_ (run_entry malloc body) (expired_ q) ;;
  modify (set_calling false) ;;
  reset now.

Definition do_op (o : TimerQueue.Op) : M TimerQueue unit :=
  match o with
  | OAction (AddTimer cb when interval) => addTimer cb when interval ;; mret tt
  | OAction (Cancel id) => cancel id
  | OHandleRead p => handleRead p
  | OClock now => modify (set_clock now)
  end.

Lemma getExpired_same now q :
  getExpired now q = match TimerQueue.getExpired now q with Ok (_, q') => Ok (expired_ q', q') | Fault f => Fault f end.
Proof.
  unfold getExpired, TimerQueue.getExpired, assert_sizes. msimp.
  destruct (assert (sizes_agree q) q) as [[[] q0]|]; [|done]. cbn [timers_ set_expired].
  destruct (lower_bound _ _) as [before from_end].
  destruct (assert _ _) as [[[] q1]|]; [|done]. cbn [expired_ set_timers set_expired].
  destruct (mapM_ erase_active before _) as [[[] q2]|]; [|done]. by destruct (assert _ q2) as [[[] q3]|].
Qed.

Lemma handleRead_same p q : handleRead p q = TimerQueue.handleRead malloc body p q.
Proof.
  unfold handleRead, TimerQueue.handleRead, readTimerfd. unfold mbind, M_bind.
  destruct (TimerQueue.assertInLoopThread q) as [[[] q0]|]; [|done]. unfold get.
  destruct (TimerQueue.readTimerfd q0) as [[[] q1]|]; [|done]. rewrite getExpired_same.
  by destruct (TimerQueue.getExpired p q1) as [[[] q2]|].
Qed.

(** The earlier queue does what the current one does, call by call and fault by fault,
    whatever is called and whatever the callbacks do. *)
Theorem earlier_queue_same ops q : mapM_ do_op ops q = mapM_ (TimerQueue.do_op malloc body) ops q.
Proof.
  revert q. induction ops as [|o ops IH]; intros q; [done|]. cbn [mapM_]. unfold mbind, M_bind.
  assert (do_op o q = TimerQueue.do_op malloc body o q) as ->.
  { destruct o as [[]| |]; try done. apply handleRead_same. }
  destruct (TimerQueue.do_op malloc body o q) as [[[] q']|]; [apply IH|done].
Qed.
End queue.
End TimerQueue_TS.

(** * What the missing assertion catches *)

(** A channel whose read callback closes and deletes it. *)
Definition suicidal (l : LoopChannels PollPoller) (a : Z) (cb : Callback) : list Act := [AClose a; ADelete a].

(** With the earlier destructor the program goes on and [handleEventWithGuard], back from the
    callback, writes to the freed channel; the current one stops it. *)
Theorem earlier_dtor_dangles :
  turn Channel_TS.Channel_dtor suicidal one_event (mkTurn sample_turn []) = Fault UB ∧
  turn Channel_dtor suicidal one_event (mkTurn sample_turn []) = Fault AssertFail.
Proof. vm_compute. by split. Qed.
