(* ===== verification/EventLoopThread.v ===== *)
(** A thread with an event loop and a pool of them:
    [PracticeMuduo/reactor.muduo/EventLoopThread.cpp] and [EventLoopThreadPool.cpp].  The
    owner of the object and the new thread run as interleaved steps. *)
From S2P Require Import Prelude EventLoop EventLoopProps.
Open Scope list_scope.

(** * EventLoopThread *)

(** The new thread, in [threadFunc]. *)
Inductive TPc :=
| TNew         (* not started *)
| TInit        (* the [EventLoop] exists, the callback runs on it *)
| TEnter       (* [loop_] is published, [loop.loop()] comes next *)
| TLooping     (* in [loop.loop()] *)
| TExit.       (* [loop_ = NULL] done, the [EventLoop] destroyed *)

(** The thread that owns the object. *)
Inductive OPc :=
| OIdle                 (* constructed *)
| OWait                 (* in [startLoop()], thread started *)
| OReturn               (* [loop_ != NULL] seen, the mutex released *)
| OStarted (r : bool)   (* [startLoop()] returned a loop, or NULL *)
| OQuit                 (* in the destructor, [loop_ != NULL] seen *)
| OWake                 (* in [loop_->quit()], after [quit_ = true] *)
| OJoin                 (* in [thread_.join()] *)
| OGone.                (* destroyed *)

Record EventLoopThread := mkELT {
  loop_ : bool;           (* loop_ != NULL *)
  exiting_ : bool;
  tpc : TPc;
  opc : OPc;
  the_loop : EventLoop }.

Definition new_EventLoopThread : EventLoopThread := mkELT false false TNew OIdle new_EventLoop.

Section thread.
Context (body : Functor -> list Action) (callback_ : list Action).

(** A step of the loop in which nobody calls [quit()]. *)
Definition quiet (l l' : EventLoop) : Prop := quit_ l'.1 = true -> quit_ l.1 = true.

(** Apart from the owner's destructor nobody quits the loop once [loop()] runs. *)
Inductive tstep : EventLoopThread -> EventLoopThread -> Prop :=
| t_startLoop e l :                              (* assert(!thread_.started()); thread_.start() *)
    tstep (mkELT e false TNew OIdle l) (mkELT e false TInit OWait (l.1, set_work callback_ l.2))
| t_callback e x o l l' :                        (* callback_(&loop) *)
    advance body l = Some l' -> tstep (mkELT e x TInit o l) (mkELT e x TInit o l')
| t_publish e x o l :
    work l.2 = [] -> tstep (mkELT e x TInit o l) (mkELT true x TEnter o l)
| t_waited x t l :                               (* the wait ends *)
    tstep (mkELT true x t OWait l) (mkELT true x t OReturn l)
| t_started e x t l :                            (* return loop_ *)
    tstep (mkELT e x t OReturn l) (mkELT e x t (OStarted e) l)
| t_enter e x o l l' :                           (* loop.loop() *)
    enter_loop l = Ok l' -> tstep (mkELT e x TEnter o l) (mkELT e x TLooping o l')
| t_loop e x o l l' :
    pc l.2 ≠ Idle -> step body False l l' -> quiet l l' -> tstep (mkELT e x TLooping o l) (mkELT e x TLooping o l')
| t_other e x t o l l' :                         (* other threads use the loop *)
    step body False l l' -> l'.2 = l.2 -> quiet l l' -> t = TEnter ∨ t = TLooping ->
    tstep (mkELT e x t o l) (mkELT e x t o l')
| t_exit e x o l :                               (* loop_ = NULL; ~EventLoop *)
    pc l.2 = Idle -> tstep (mkELT e x TLooping o l) (mkELT false x TExit o l)
| t_dtor r e x t l :                             (* exiting_ = true; if (loop_ != NULL) *)
    tstep (mkELT e x t (OStarted r) l) (mkELT e true t (if e then OQuit else OGone) l)
| t_quit e x t l :                               (* quit_ = true *)
    tstep (mkELT e x t OQuit l) (mkELT e x t OWake (set_quit true l.1, l.2))
| t_wakeup e x t l :
    tstep (mkELT e x t OWake l) (mkELT e x t OJoin (wakeup l.1, l.2))
| t_join e x l :                                 (* thread_.join() returns *)
    tstep (mkELT e x TExit OJoin l) (mkELT e x TExit OGone l).

Definition treachable : EventLoopThread -> Prop := rtc tstep new_EventLoopThread.

Definition undisturbed (l : EventLoop) : Prop := quit_ l.1 = false ∧ pc l.2 ≠ Idle.

(** Where the two threads can be together, and what holds there. *)
Definition thread_inv (e : EventLoopThread) : Prop :=
  match opc e, tpc e with
  | OIdle, TNew | OWait, TInit => loop_ e = false
  | OWait, TEnter | OReturn, TEnter | OStarted true, TEnter | OQuit, TEnter => loop_ e = true
  | OWait, TLooping | OReturn, TLooping | OStarted true, TLooping | OQuit, TLooping =>
      loop_ e = true ∧ undisturbed (the_loop e)
  | OWake, TEnter | OWake, TLooping | OJoin, TEnter | OJoin, TLooping => loop_ e = true
  | OWake, TExit | OJoin, TExit | OGone, TExit => loop_ e = false
  | _, _ => False
  end.

(** A loop nobody has quit does not end. *)
Lemma quiet_stays l l' :
  quit_ l.1 = false -> pc l.2 ≠ Idle -> step body False l l' -> quiet l l' ->
  quit_ l'.1 = false ∧ pc l'.2 ≠ Idle.
Proof.
  intros Hq Hp Hs Hquiet.
  split; [destruct (quit_ l'.1) eqn:E; [by rewrite Hquiet in Hq|done]|].
  destruct Hs as [s s' E|s s' Hpc|act s Hpc|acts sh th F|f sh th|sh th|n sh th Hn]; try done.
  destruct s as [sh th]. unfold advance in E. simpl in *.
  destruct (work th) as [|a w]; [|injection E as <-; by destruct a].
  destruct (pc th); simplify_eq; try done.
  - rewrite Hq in E. by injection E as <-.
  - by destruct (active th) as [|[|acts] l]; injection E as <-.
  - by destruct (functors th); injection E as <-.
Qed.

Lemma enter_loop_undisturbed l l' : enter_loop l = Ok l' -> undisturbed l'.
Proof. destruct l as [sh th]. unfold enter_loop. by destruct (looping_ th); intros; simplify_eq/=. Qed.

Lemma tstep_inv e e' : thread_inv e -> tstep e e' -> thread_inv e'.
Proof.
  intros Hi Hs.
  destruct Hs as [e l|e x o l l' E|e x o l E|x t l|e x t l|e x o l l' E|e x o l l' Hp Hs Hq|e x t o l l' Hs Hth Hq Ht
                 |e x o l E|r e x t l|e x t l|e x t l|e x l]; unfold thread_inv in *; simpl in *.
  - done.
  - done.
  - by destruct o as [| | |[]| | | |].
  - by destruct t.
  - destruct t, e; try done; by destruct Hi.
  - apply enter_loop_undisturbed in E. by destruct o as [| | |[]| | | |].
  - destruct o as [| | |[]| | | |]; try done; (split; [apply Hi|]); apply (quiet_stays l); by try apply Hi.
  - destruct Ht as [-> | ->], o as [| | |[]| | | |]; try done;
      (split; [apply Hi|]); apply (quiet_stays l); by try apply Hi.
  - destruct o as [| | |[]| | | |]; try done; by destruct Hi as (_ & _ & []).
  - destruct r, t, e; try done; by destruct Hi.
  - destruct t; try done; by destruct Hi.
  - by destruct t.
  - done.
Qed.

Lemma treachable_inv e : treachable e -> thread_inv e.
Proof. apply (rtc_invariant tstep thread_inv); [apply tstep_inv|done]. Qed.

(** C38: as long as nobody else quits the loop, [startLoop()] returns a loop and not NULL,
    the loop stays alive and running until the destructor quits it, and the
    destructor's [loop_->quit()] finds it alive. *)
Theorem EventLoopThread_start_alive e :
  treachable e ->
  (∀ r, opc e = OStarted r -> r = true) ∧
  ((∃ r, opc e = OStarted r) ∨ opc e = OQuit -> loop_ e = true ∧ (tpc e = TEnter ∨ tpc e = TLooping)) ∧
  (opc e = OGone -> tpc e = TExit).
Proof.
  intros Hr%treachable_inv. unfold thread_inv in Hr. split_and!.
  - intros r E. rewrite E in Hr. by destruct r.
  - intros [[[] E]|E]; rewrite E in Hr; destruct (tpc e); try done; by destruct Hr; auto.
  - intros E. rewrite E in Hr. by destruct (tpc e).
Qed.

(** A [quit()] that comes before [loop()] is lost: [loop()] begins by clearing [quit_].
    So an [EventLoopThread] can be destroyed before its thread has entered [loop()], and
    then the destructor's [join()] never returns, unless somebody else quits the loop. *)
Theorem EventLoopThread_quit_lost :
  callback_ = [] ->
  ∃ e, treachable e ∧ opc e = OJoin ∧ tpc e = TLooping ∧
    ∀ e', rtc tstep e e' -> opc e' = OJoin ∧ tpc e' = TLooping ∧ quit_ (the_loop e').1 = false.
Proof.
  intros Hcb. set (l0 := (new_EventLoop.1, set_work callback_ new_EventLoop.2)).
  set (l1 := (wakeup (set_quit true l0.1), l0.2) : EventLoop).
  set (l2 := (set_quit false l1.1, EventLoop.mkThread true false false Test [] [] [] [])).
  exists (mkELT true true TLooping OJoin l2). split; [|split; [done|split; [done|]]].
  - unfold treachable, new_EventLoopThread.
    eapply rtc_l; [apply t_startLoop|]. fold l0.
    eapply rtc_l; [apply t_publish; by rewrite <- Hcb|].
    eapply rtc_l; [apply t_waited|]. eapply rtc_l; [apply t_started|].
    eapply rtc_l; [apply t_dtor|]. eapply rtc_l; [apply t_quit|]. eapply rtc_l; [apply t_wakeup|].
    eapply rtc_l; [by apply (t_enter true true OJoin l1 l2)|]. apply rtc_refl.
  - intros e' Hr.
    assert (opc e' = OJoin ∧ tpc e' = TLooping ∧ undisturbed (the_loop e')) as (? & ? & ? & _); [|done].
    revert Hr. apply (rtc_invariant tstep (λ e, opc e = OJoin ∧ tpc e = TLooping ∧ undisturbed (the_loop e))); [|done].
    intros e1 e2 (Ho & Ht & Hu) Hs.
    destruct Hs as [| | | | | |e x o l l' Hp Hs Hq|e x t o l l' Hs Hth Hq Hal|e x o l E| | | |]; simpl in *; simplify_eq.
    + split_and!; [done..|]. destruct Hu. by apply (quiet_stays l).
    + split_and!; [done..|]. destruct Hu. by apply (quiet_stays l).
    + by destruct Hu.
Qed.
End thread.

Lemma EventLoopThread_start_alive_witness :
  let e := mkELT true false TEnter (OStarted true) new_EventLoop in
  treachable sample_body [] e ∧ loop_ e = true.
Proof.
  intros e. assert (treachable sample_body [] e) as Hr.
  { unfold treachable, new_EventLoopThread.
    eapply rtc_l; [apply t_startLoop|]. eapply rtc_l; [by apply t_publish|].
    eapply rtc_l; [apply t_waited|]. eapply rtc_l; [apply t_started|]. apply rtc_refl. }
  split; [exact Hr|]. apply (EventLoopThread_start_alive sample_body [] e Hr). left. by exists true.
Defined.

Lemma EventLoopThread_quit_lost_witness :
  ∃ e, treachable sample_body [] e ∧ opc e = OJoin ∧ tpc e = TLooping.
Proof.
  destruct (EventLoopThread_quit_lost sample_body [] eq_refl) as (e & Hr & Ho & Ht & _). by exists e.
Defined.

(** * EventLoopThreadPool *)

(** Loops are named by addresses. *)
Record EventLoopThreadPool := mkPool {
  baseLoop_ : Z;
  started_ : bool;
  numThreads_ : Z;
  next_ : Z;
  loops_ : list Z }.

Definition new_EventLoopThreadPool (baseLoop : Z) : EventLoopThreadPool := mkPool baseLoop false 0 0 [].

Definition setThreadNum (num : Z) (p : EventLoopThreadPool) : EventLoopThreadPool :=
  mkPool (baseLoop_ p) (started_ p) num (next_ p) (loops_ p).

(** [start(cb)]: [startLoop i] is the loop the [i]-th new thread's [startLoop()]
    returns; the result is the loops the callback runs on in this thread. *)
Definition pool_start (inLoop cb : bool) (startLoop : nat -> Z) : M EventLoopThreadPool (list Z) :=
  p ← get;
  assert (negb (started_ p)) ;;
  (if inLoop then mret tt else fail FatalLog) ;;
  put (mkPool (baseLoop_ p) true (numThreads_ p) (next_ p)
         (loops_ p ++ map startLoop (seq 0 (Z.to_nat (numThreads_ p))))) ;;
  mret (if (numThreads_ p =? 0) && cb then [baseLoop_ p] else []).

Definition getNextLoop (inLoop : bool) : M EventLoopThreadPool Z :=
  (if inLoop then mret tt else fail FatalLog) ;;
  p ← get;
  assert (started_ p) ;;
  if bool_decide (loops_ p = []) then mret (baseLoop_ p)
  else
    loop ← of_option UB (if next_ p <? 0 then None else loops_ p !! Z.to_nat (next_ p));
    let next := next_ p + 1 in
    put (mkPool (baseLoop_ p) (started_ p) (numThreads_ p)
           (if zlen (loops_ p) <=? next then 0 else next) (loops_ p)) ;;
    mret loop.

Definition getLoopForHash (inLoop : bool) (hashCode : Z) : M EventLoopThreadPool Z :=
  (if inLoop then mret tt else fail FatalLog) ;;
  p ← get;
  if bool_decide (loops_ p = []) then mret (baseLoop_ p)
  else of_option UB (loops_ p !! Z.to_nat (hashCode mod zlen (loops_ p))).

Definition getAllLoops (inLoop : bool) : M EventLoopThreadPool (list Z) :=
  (if inLoop then mret tt else fail FatalLog) ;;
  p ← get;
  assert (started_ p) ;;
  mret (if bool_decide (loops_ p = []) then [baseLoop_ p] else loops_ p).

(** [n] calls of [getNextLoop]. *)
Fixpoint next_loops (n : nat) : M EventLoopThreadPool (list Z) :=
  match n with
  | O => mret []
  | S n' => l ← getNextLoop true; ls ← next_loops n'; mret (l :: ls)
  end.

Lemma getNextLoop_spec p :
  started_ p = true -> loops_ p ≠ [] -> 0 <= next_ p < zlen (loops_ p) ->
  ∃ l, loops_ p !! Z.to_nat (next_ p) = Some l ∧
    getNextLoop true p = Ok (l, mkPool (baseLoop_ p) true (numThreads_ p)
                                  ((next_ p + 1) mod zlen (loops_ p)) (loops_ p)).
Proof.
  intros Hs Hl Hn. destruct (lookup_lt_is_Some_2 (loops_ p) (Z.to_nat (next_ p))) as [l E]; [lia|].
  exists l. split; [done|]. unfold getNextLoop. msimp. rewrite Hs. simpl.
  rewrite bool_decide_eq_false_2 by done. rewrite (proj2 (Z.ltb_ge _ 0)) by lia. rewrite E. simpl.
  do 4 f_equal. destruct (Z.leb_spec (zlen (loops_ p)) (next_ p + 1)).
  - replace (next_ p + 1) with (zlen (loops_ p)) by lia. by rewrite Z.mod_same by lia.
  - by rewrite Z.mod_small by lia.
Qed.

Lemma next_loops_spec n p :
  started_ p = true -> loops_ p ≠ [] -> 0 <= next_ p < zlen (loops_ p) ->
  ∃ ls p', next_loops n p = Ok (ls, p') ∧ length ls = n ∧
    (∀ i, (i < n)%nat -> ls !! i = loops_ p !! Z.to_nat ((next_ p + Z.of_nat i) mod zlen (loops_ p))).
Proof.
  revert p. induction n as [|n IH]; intros p Hs Hl Hn; simpl.
  { exists [], p. split_and!; [done..|lia]. }
  destruct (getNextLoop_spec p Hs Hl Hn) as (l & El & E). rewrite (bind_Ok _ _ _ _ _ E).
  assert (zlen (loops_ p) ≠ 0) by lia.
  destruct (IH (mkPool (baseLoop_ p) true (numThreads_ p) ((next_ p + 1) mod zlen (loops_ p)) (loops_ p)))
    as (ls & p' & E' & Hlen & Hi); [done|done|simpl; apply Z.mod_pos_bound; lia|].
  rewrite (bind_Ok _ _ _ _ _ E'). exists (l :: ls), p'. split; [done|]. split; [simpl; lia|].
  intros [|i] Hlt; simpl.
  - by rewrite Z.add_0_r, Z.mod_small.
  - rewrite Hi by lia. simpl. rewrite Z.add_mod_idemp_l by lia. do 3 f_equal. lia.
Qed.

(** A started pool hands its loops out in turn: the [i]-th call of [getNextLoop] gives
    the loop of thread [i] modulo the number of threads; without threads every call gives
    the base loop. *)
Theorem pool_round_robin base num startLoop cb n :
  0 <= num ->
  ∃ ls p', (pool_start true cb startLoop ;; next_loops n) (setThreadNum num (new_EventLoopThreadPool base))
             = Ok (ls, p') ∧ length ls = n ∧
    ∀ i, (i < n)%nat -> ls !! i =
      Some (if decide (num = 0) then base else startLoop (Z.to_nat (Z.of_nat i mod num))).
Proof.
  intros Hnum. set (p := mkPool base true num 0 (map startLoop (seq 0 (Z.to_nat num)))).
  assert (∃ c, pool_start true cb startLoop (setThreadNum num (new_EventLoopThreadPool base)) = Ok (c, p))
    as (c & E) by (eexists; reflexivity).
  rewrite (bind_Ok _ _ _ _ _ E). case_decide as Hz.
  - assert (∀ n, next_loops n p = Ok (replicate n base, p)) as En.
    { clear E. subst. induction n0 as [|k IH]; simpl; [done|].
      rewrite (bind_Ok _ _ p base p) by done. by rewrite (bind_Ok _ _ _ _ _ IH). }
    rewrite En. exists (replicate n base), p. split_and!; [done|apply length_replicate|].
    intros i Hi. by apply lookup_replicate_2.
  - assert (length (loops_ p) = Z.to_nat num) as Hlen by (simpl; by rewrite length_map, length_seq).
    destruct (next_loops_spec n p) as (ls & p' & E' & Hl & Hi); [done| |simpl in *; lia|].
    { intros X. rewrite X in Hlen. simpl in Hlen. lia. }
    exists ls, p'. split_and!; [done|done|]. intros i Hlt. rewrite Hi by done.
    replace (zlen (loops_ p)) with num by lia. simpl. rewrite Z.add_0_l.
    pose proof (Z.mod_pos_bound (Z.of_nat i) num ltac:(lia)).
    rewrite list_lookup_fmap. rewrite lookup_seq_lt by lia. done.
Qed.

Lemma pool_round_robin_witness :
  ∃ ls p', (pool_start true false (λ i, 100 + Z.of_nat i) ;; next_loops 5)
             (setThreadNum 2 (new_EventLoopThreadPool 7)) = Ok (ls, p') ∧ ls !! 4%nat = Some 100.
Proof.
  destruct (pool_round_robin 7 2 (λ i, 100 + Z.of_nat i) false 5 ltac:(lia)) as (ls & p' & E & _ & H).
  exists ls, p'. split; [exact E|]. rewrite H by lia. reflexivity.
Defined.
