(* ===== verification/TcpConnection.v ===== *)
(** TCP connections: [PracticeMuduo/tcp.muduo/TcpConnection.cpp], and the part of
    [TcpServer.cpp] that takes a closed connection out of its map.  The kernel's answers
    are parameters; the user's callbacks are arbitrary lists of calls on the
    connection; functors handed to the loop wait in a queue.  The poller's side of the
    channel's updates is in [Poller.v]. *)
From S2P Require Import Prelude Buffer Channel.
Open Scope list_scope.

(** * Data *)

Inductive StateE := kConnecting | kConnected | kDisconnecting | kDisconnected.

#[export] Instance StateE_eq_dec : EqDecision StateE.
Proof. solve_decision. Defined.

(** The functors a connection hands to its loop; [FRemoveConnection] is for its server's loop. *)
Inductive ConnFunctor :=
| FSendInLoop (message : list byte)
| FShutdownInLoop
| FForceCloseInLoop
| FWriteComplete
| FHighWaterMark (len : Z)
| FRemoveConnection
| FConnectDestroyed.

#[export] Instance ConnFunctor_eq_dec : EqDecision ConnFunctor.
Proof. solve_decision. Defined.

(** What the user of a connection calls. *)
Inductive Call := CSend (message : list byte) | CShutdown | CForceClose.

(** What the user is told. *)
Inductive UserEvent :=
| UConnection (connected : bool)
| UMessage (inputBuffer : list byte)
| UWriteComplete
| UHighWaterMark (len : Z).

(** [in_map]: the connection is in its server's map.  [functors] is its part of the loop's
    queue.  [accepted], [written], [writes], [shut_wr] and [events] record what reached
    [sendInLoop], what [write] took, how often it was called, whether [shutdownWrite] was,
    and what the user was told. *)
Record TcpConnection := mkConn {
  state_ : StateE;
  channel_ : Channel;
  inputBuffer_ : Buffer;
  outputBuffer_ : Buffer;
  writeCompleteCallback_ : bool;
  highWaterMarkCallback_ : bool;
  highWaterMark_ : Z;
  in_map : bool;
  functors : list ConnFunctor;
  accepted : list byte;
  written : list byte;
  writes : nat;
  shut_wr : bool;
  events : list UserEvent }.

Definition set_state (x : StateE) (s : TcpConnection) : TcpConnection :=
  mkConn x (channel_ s) (inputBuffer_ s) (outputBuffer_ s) (writeCompleteCallback_ s) (highWaterMarkCallback_ s)
    (highWaterMark_ s) (in_map s) (functors s) (accepted s) (written s) (writes s) (shut_wr s) (events s).
Definition set_chan (x : Channel) (s : TcpConnection) : TcpConnection :=
  mkConn (state_ s) x (inputBuffer_ s) (outputBuffer_ s) (writeCompleteCallback_ s) (highWaterMarkCallback_ s)
    (highWaterMark_ s) (in_map s) (functors s) (accepted s) (written s) (writes s) (shut_wr s) (events s).
Definition set_input (x : Buffer) (s : TcpConnection) : TcpConnection :=
  mkConn (state_ s) (channel_ s) x (outputBuffer_ s) (writeCompleteCallback_ s) (highWaterMarkCallback_ s)
    (highWaterMark_ s) (in_map s) (functors s) (accepted s) (written s) (writes s) (shut_wr s) (events s).
Definition set_output (x : Buffer) (s : TcpConnection) : TcpConnection :=
  mkConn (state_ s) (channel_ s) (inputBuffer_ s) x (writeCompleteCallback_ s) (highWaterMarkCallback_ s)
    (highWaterMark_ s) (in_map s) (functors s) (accepted s) (written s) (writes s) (shut_wr s) (events s).
Definition set_in_map (x : bool) (s : TcpConnection) : TcpConnection :=
  mkConn (state_ s) (channel_ s) (inputBuffer_ s) (outputBuffer_ s) (writeCompleteCallback_ s) (highWaterMarkCallback_ s)
    (highWaterMark_ s) x (functors s) (accepted s) (written s) (writes s) (shut_wr s) (events s).
Definition set_functors (x : list ConnFunctor) (s : TcpConnection) : TcpConnection :=
  mkConn (state_ s) (channel_ s) (inputBuffer_ s) (outputBuffer_ s) (writeCompleteCallback_ s) (highWaterMarkCallback_ s)
    (highWaterMark_ s) (in_map s) x (accepted s) (written s) (writes s) (shut_wr s) (events s).
Definition add_accepted (x : list byte) (s : TcpConnection) : TcpConnection :=
  mkConn (state_ s) (channel_ s) (inputBuffer_ s) (outputBuffer_ s) (writeCompleteCallback_ s) (highWaterMarkCallback_ s)
    (highWaterMark_ s) (in_map s) (functors s) (accepted s ++ x) (written s) (writes s) (shut_wr s) (events s).
Definition add_written (x : list byte) (s : TcpConnection) : TcpConnection :=
  mkConn (state_ s) (channel_ s) (inputBuffer_ s) (outputBuffer_ s) (writeCompleteCallback_ s) (highWaterMarkCallback_ s)
    (highWaterMark_ s) (in_map s) (functors s) (accepted s) (written s ++ x) (S (writes s)) (shut_wr s) (events s).
Definition shutdownWrite (s : TcpConnection) : TcpConnection :=
  mkConn (state_ s) (channel_ s) (inputBuffer_ s) (outputBuffer_ s) (writeCompleteCallback_ s) (highWaterMarkCallback_ s)
    (highWaterMark_ s) (in_map s) (functors s) (accepted s) (written s) (writes s) true (events s).
Definition add_event (x : UserEvent) (s : TcpConnection) : TcpConnection :=
  mkConn (state_ s) (channel_ s) (inputBuffer_ s) (outputBuffer_ s) (writeCompleteCallback_ s) (highWaterMarkCallback_ s)
    (highWaterMark_ s) (in_map s) (functors s) (accepted s) (written s) (writes s) (shut_wr s) (events s ++ [x]).
Definition setWriteCompleteCallback (s : TcpConnection) : TcpConnection :=
  mkConn (state_ s) (channel_ s) (inputBuffer_ s) (outputBuffer_ s) true (highWaterMarkCallback_ s)
    (highWaterMark_ s) (in_map s) (functors s) (accepted s) (written s) (writes s) (shut_wr s) (events s).
Definition setHighWaterMarkCallback (highWaterMark : Z) (s : TcpConnection) : TcpConnection :=
  mkConn (state_ s) (channel_ s) (inputBuffer_ s) (outputBuffer_ s) (writeCompleteCallback_ s) true
    highWaterMark (in_map s) (functors s) (accepted s) (written s) (writes s) (shut_wr s) (events s).

(** The constructor, for a connected socket; [highWaterMark_] is not initialised. *)
Definition new_TcpConnection (sockfd garbage : Z) : res TcpConnection :=
  match new_Buffer kInitialSize with
  | Fault f => Fault f
  | Ok b =>
      Ok (mkConn kConnecting
            (set_callback CbError (set_callback CbClose (set_callback CbRead (new_Channel sockfd))))
            b b false false garbage true [] [] [] 0 false [])
  end.

(** [defaultConnectionCallback] only logs; [defaultMessageCallback] retrieves everything. *)
Definition defaultConnectionCallback (connected : bool) : list Call := [].
Definition defaultMessageCallback (input : list byte) : Z * list Call := (zlen input, []).

Section connection.
(** [write n d]: what the [n]-th [write] on the socket answers for [d], an [errno] or the
    number of bytes taken.  The user's callbacks; the message callback first retrieves
    a number of bytes of the input buffer. *)
Context (write : nat -> list byte -> Z + Z).
Context (onConnection : bool -> list Call) (onMessage : list byte -> Z * list Call).
Context (onWriteComplete : list Call) (onHighWaterMark : Z -> list Call).

Abbreviation C := TcpConnection.

Definition queueInLoop (f : ConnFunctor) : M C unit := modify (λ s, set_functors (functors s ++ [f]) s).

(** [channel_->enableReading()] and the like. *)
Definition on_channel (f : Channel -> Channel) : M C unit :=
  modify (λ s, set_chan (set_added true (f (channel_ s))) s).

(** [channel_->remove()] *)
Definition channel_remove : M C unit :=
  s ← get; assert (isNoneEvent (channel_ s)) ;; modify (λ s, set_chan (set_added false (channel_ s)) s).

(** A system call [write]: its result, -1 for an error. *)
Definition sys_write (d : list byte) : M C Z :=
  s ← get;
  match write (writes s) d with
  | inl _ => modify (add_written []) ;; mret (-1)
  | inr n => modify (add_written (take (Z.to_nat n) d)) ;; mret n
  end.

Definition on_output (m : M Buffer unit) : M C unit := zoom outputBuffer_ set_output m.

(** ** Sending *)

Definition sendInLoop (message : list byte) : M C unit :=
  modify (add_accepted message) ;;
  s ← get;
  nr ← (if negb (isWriting (channel_ s)) && (readableBytes (outputBuffer_ s) =? 0) then
          n ← sys_write message;
          if 0 <=? n then
            (if n <? zlen message then mret tt else when (writeCompleteCallback_ s) (queueInLoop FWriteComplete)) ;;
            mret (n, u64 (zlen message - n))
          else mret (0, zlen message)
        else mret (0, zlen message));
  let '(nwrote, remaining) := nr in
  assert (0 <=? nwrote) ;;
  when (nwrote <? zlen message)
    (s ← get;
     let oldLen := readableBytes (outputBuffer_ s) in
     when ((highWaterMark_ s <=? u64 (oldLen + remaining)) && (oldLen <? highWaterMark_ s)
           && highWaterMarkCallback_ s)
       (queueInLoop (FHighWaterMark (u64 (oldLen + remaining)))) ;;
     on_output (append (drop (Z.to_nat nwrote) message)) ;;
     when (negb (isWriting (channel_ s))) (on_channel enableWriting)).

Definition send (inLoop : bool) (message : list byte) : M C unit :=
  s ← get;
  when (bool_decide (state_ s = kConnected))
    (if inLoop then sendInLoop message else queueInLoop (FSendInLoop message)).

Definition shutdownInLoop : M C unit :=
  s ← get; when (negb (isWriting (channel_ s))) (modify shutdownWrite).

Definition shutdown (inLoop : bool) : M C unit :=
  s ← get;
  when (bool_decide (state_ s = kConnected))
    (modify (set_state kDisconnecting) ;;
     if inLoop then shutdownInLoop else queueInLoop FShutdownInLoop).

Definition handleWrite : M C unit :=
  s ← get;
  when (isWriting (channel_ s))
    (n ← sys_write (content (outputBuffer_ s));
     when (0 <? n)
       (on_output (retrieve n) ;;
        s ← get;
        when (readableBytes (outputBuffer_ s) =? 0)
          (on_channel disableWriting ;;
           when (writeCompleteCallback_ s) (queueInLoop FWriteComplete) ;;
           when (bool_decide (state_ s = kDisconnecting)) shutdownInLoop))).

(** ** Closing *)

Definition forceClose : M C unit :=
  s ← get;
  when (bool_decide (state_ s = kConnected) || bool_decide (state_ s = kDisconnecting))
    (modify (set_state kDisconnecting) ;; queueInLoop FForceCloseInLoop).

(** [TcpServer::removeConnectionInLoop], for this connection. *)
Definition removeConnectionInLoop : M C unit :=
  s ← get;
  assert (in_map s) ;;           (* size_t n = connections_.erase(conn->name()); assert(n == 1) *)
  modify (set_in_map false) ;;
  queueInLoop FConnectDestroyed.

(** [TcpServer::removeConnection], the close callback a server sets; [inLoop]: the connection's
    loop is the server's. *)
Definition removeConnection (inLoop : bool) : M C unit :=
  if inLoop then removeConnectionInLoop else queueInLoop FRemoveConnection.

Context (closeCallback : M C unit).

Definition handleClose : M C unit :=
  s ← get;
  assert (bool_decide (state_ s = kConnected) || bool_decide (state_ s = kDisconnecting)) ;;
  on_channel disableAll ;;
  closeCallback.

Definition forceCloseInLoop : M C unit :=
  s ← get;
  when (bool_decide (state_ s = kConnected) || bool_decide (state_ s = kDisconnecting)) handleClose.

(** [handleError] only logs. *)
Definition handleError : M C unit := mret tt.

(** ** The user's side *)

(** A call by the user, on the loop's thread or another one. *)
Definition call (inLoop : bool) (c : Call) : M C unit :=
  match c with
  | CSend m => send inLoop m
  | CShutdown => shutdown inLoop
  | CForceClose => forceClose
  end.

(** A callback of the user: he is told [e] and makes some calls. *)
Definition tell (e : UserEvent) (cs : list Call) : M C unit := modify (add_event e) ;; mapM_ (call true) cs.

(** ** Reading and the life of the connection *)

Definition handleRead (readv : Z -> list Z -> Z + list byte) : M C unit :=
  s ← get;
  match readFd readv (fd_ (channel_ s)) (inputBuffer_ s) with
  | Fault f => fail f
  | Ok ((n, _), b) =>
      modify (set_input b) ;;
      if 0 <? n then
        let '(k, cs) := onMessage (content b) in
        modify (add_event (UMessage (content b))) ;;
        zoom inputBuffer_ set_input (retrieve k) ;;
        mapM_ (call true) cs
      else if n =? 0 then handleClose
      else handleError
  end.

Definition connectEstablished : M C unit :=
  s ← get;
  assert (bool_decide (state_ s = kConnecting)) ;;
  modify (set_state kConnected) ;;
  on_channel enableReading ;;
  tell (UConnection true) (onConnection true).

Definition connectDestroyed : M C unit :=
  s ← get;
  assert (bool_decide (state_ s = kConnected) || bool_decide (state_ s = kDisconnecting)) ;;
  modify (set_state kDisconnected) ;;
  on_channel disableAll ;;
  tell (UConnection false) (onConnection false) ;;
  channel_remove.

Definition run_functor (f : ConnFunctor) : M C unit :=
  match f with
  | FSendInLoop m => sendInLoop m
  | FShutdownInLoop => shutdownInLoop
  | FForceCloseInLoop => forceCloseInLoop
  | FWriteComplete => tell UWriteComplete onWriteComplete
  | FHighWaterMark n => tell (UHighWaterMark n) (onHighWaterMark n)
  | FRemoveConnection => removeConnectionInLoop
  | FConnectDestroyed => connectDestroyed
  end.

(** What the channel's callbacks are bound to. *)
Definition run_callback (readv : Z -> list Z -> Z + list byte) (cb : Callback) : M C unit :=
  match cb with
  | CbRead => handleRead readv
  | CbWrite => handleWrite
  | CbClose => handleClose
  | CbError => handleError
  end.

(** An event of the socket, dispatched by its channel. *)
Definition handle_event (revents : Z) (readv : Z -> list Z -> Z + list byte) : M C unit :=
  modify (λ s, set_chan (set_revents revents (channel_ s)) s) ;;
  s ← get;
  mapM_ (run_callback readv) (handleEvent (channel_ s)).1.

(** The next functor of the queue. *)
Definition run_next : M C unit :=
  s ← get;
  match functors s with
  | [] => mret tt
  | f :: fs => modify (set_functors fs) ;; run_functor f
  end.

(** * Runs *)

Inductive Op :=
| OEstablish
| OCall (inLoop : bool) (c : Call)
| OEvent (revents : Z) (readv : Z -> list Z -> Z + list byte)
| ONext.

(** A channel without interest reports nothing. *)
Definition do_op (o : Op) : M C unit :=
  match o with
  | OEstablish => connectEstablished
  | OCall inLoop c => call inLoop c
  | OEvent r readv => s ← get; when (negb (isNoneEvent (channel_ s))) (handle_event r readv)
  | ONext => run_next
  end.
End connection.
