(* ===== verification/TcpProps.v ===== *)
(** What a TCP connection does with the bytes it is given and with its own life. *)
From S2P Require Import Prelude Buffer Channel TcpConnection.
Open Scope list_scope.

(** * Runs that stay in a preorder *)

Section mono.
Context {S : Type} (R : relation S) `{!PreOrder R}.

Definition mono {A} (m : M S A) : Prop := ∀ s a s', m s = Ok (a, s') -> R s s'.

Lemma mono_ret {A} (a : A) : mono (mret a).
Proof. intros s a' s' E. injection E as _ <-. done. Qed.
Lemma mono_get : mono get.
Proof. intros s a' s' E. injection E as _ <-. done. Qed.
Lemma mono_fail {A} f : mono (fail (A := A) f).
Proof. intros s a' s' E. discriminate E. Qed.
Lemma mono_assert b : mono (assert b).
Proof. intros s a s' [_ ->]%assert_inv. done. Qed.
Lemma mono_modify f : (∀ s, R s (f s)) -> mono (modify f).
Proof. intros Hf s a s' E. injection E as _ <-. apply Hf. Qed.
Lemma mono_bind {A B} (m : M S A) (k : A -> M S B) : mono m -> (∀ a, mono (k a)) -> mono (m ≫= k).
Proof. intros Hm Hk s b s'' (a & s' & E1 & E2)%bind_inv. etrans; [by eapply Hm|by eapply Hk]. Qed.
Lemma mono_when b m : mono m -> mono (when b m).
Proof. destruct b; [done|intros _; apply mono_ret]. Qed.
Lemma mono_mapM {A} (f : A -> M S unit) l : (∀ x, mono (f x)) -> mono (mapM_ f l).
Proof. intros Hf. induction l; simpl; [apply mono_ret|by apply mono_bind]. Qed.
Lemma mono_mapM_in {A} (f : A -> M S unit) l : (∀ x, x ∈ l -> mono (f x)) -> mono (mapM_ f l).
Proof. induction l; intros Hf; simpl; [apply mono_ret|]. apply mono_bind; [apply Hf|intros; apply IHl; intros; apply Hf]; set_solver. Qed.
Lemma mono_if {A} (b : bool) (m1 m2 : M S A) : mono m1 -> mono m2 -> mono (if b then m1 else m2).
Proof. by destruct b. Qed.
Lemma mono_zoom {T A} (g : S -> T) p (m : M T A) : (∀ s t, R s (p t s)) -> mono (zoom g p m).
Proof. intros Hp s a s' E. unfold zoom in E. destruct (m (g s)) as [[b t]|]; [|done]. by injection E as _ <-. Qed.
End mono.

Ltac mono_step :=
  match goal with
  | |- PreOrder _ => apply _
  | |- mono _ (@mret _ _ _ _) => apply mono_ret
  | |- mono _ get => apply mono_get
  | |- mono _ (fail _) => apply mono_fail
  | |- mono _ (assert _) => apply mono_assert
  | |- mono _ (@mbind _ _ _ _ _ _) => apply mono_bind
  | |- mono _ (when _ _) => apply mono_when
  | |- mono _ (if _ then _ else _) => apply mono_if
  | |- mono _ (mapM_ _ _) => apply mono_mapM
  | |- mono _ (match ?x with _ => _ end) => destruct x
  | |- mono _ (modify _) => apply mono_modify
  | |- mono _ (zoom _ _ _) => apply mono_zoom
  | |- ∀ _, mono _ _ => intros ?
  end.

(** A field that a run leaves alone. *)
Definition same {S X} (g : S -> X) : relation S := λ s s', g s' = g s.
#[export] Instance same_PreOrder {S X} (g : S -> X) : PreOrder (same g).
Proof. split; [by intros s|intros x y z H1 H2; unfold same in *; congruence]. Qed.

Abbreviation C := TcpConnection.

Section connection.
Context (write : nat -> list byte -> Z + Z).
Context (onConnection : bool -> list Call) (onMessage : list byte -> Z * list Call).
Context (onWriteComplete : list Call) (onHighWaterMark : Z -> list Call).

(** [write(2)] takes at most what it is given. *)
Context (Hwrite : ∀ n d k, write n d = inr k -> 0 <= k <= zlen d).

Abbreviation sendInLoop := (sendInLoop write).
Abbreviation call := (call write).
(** The server's own loop is the connection's. *)
Abbreviation close := (removeConnection true).
Abbreviation do_op := (do_op write onConnection onMessage onWriteComplete onHighWaterMark close).

(** * The bytes *)

Abbreviation out s := (content (outputBuffer_ s)).

(** The memory there is for the output. *)
Definition fits (s : C) : Prop := kCheapPrepend + kInitialSize + zlen (accepted s) <= max_size.

(** [sendInLoop]'s bytes are written or in the output buffer, in order; while the
    connection is in use the channel is writing exactly when the buffer is not empty; and
    there is no write callback. *)
Record bytes_inv (s : C) : Prop := {
  bi_wf : wf (outputBuffer_ s);
  bi_size : kCheapPrepend <= zlen (buffer_ (outputBuffer_ s)) <= kCheapPrepend + kInitialSize + zlen (accepted s);
  bi_bytes : accepted s = written s ++ out s;
  bi_writing : in_map s = true -> (isWriting (channel_ s) = true <-> out s ≠ []);
  bi_functors : FConnectDestroyed ∈ functors s -> in_map s = false;
  bi_callbacks : has_callback CbWrite (channel_ s) = false }.

(** What sending needs of the output buffer. *)
Record out_room (s : C) : Prop := {
  rm_wf : wf (outputBuffer_ s);
  rm_size : kCheapPrepend <= zlen (buffer_ (outputBuffer_ s)) <= kCheapPrepend + kInitialSize + zlen (accepted s);
  rm_out : zlen (out s) <= zlen (accepted s) }.

Lemma bytes_room s : bytes_inv s -> out_room s.
Proof. intros [Hwf Hsz Hby _ _ _]. split; [done|done|]. rewrite Hby, length_app. lia. Qed.

(** What every operation respects: [accepted] grows, the invariant stays, and once bytes
    are left in the output buffer nothing more is written. *)
Definition bytes_rel (s s' : C) : Prop :=
  accepted s `prefix_of` accepted s' ∧
  (fits s' -> bytes_inv s -> bytes_inv s' ∧
     (out s ≠ [] -> written s' = written s ∧ out s `prefix_of` out s')).

Lemma fits_prefix s s' : accepted s `prefix_of` accepted s' -> fits s' -> fits s.
Proof. intros Hp%prefix_length. unfold fits. lia. Qed.

#[export] Instance bytes_rel_PreOrder : PreOrder bytes_rel.
Proof.
  split.
  - intros s. split; [done|]. intros _ Hi. split; [done|]. by intros _.
  - intros s1 s2 s3 [P1 H1] [P2 H2]. split; [by etrans|]. intros Hf Hi.
    destruct (H1 (fits_prefix _ _ P2 Hf) Hi) as [Hi2 Ho2]. destruct (H2 Hf Hi2) as [Hi3 Ho3].
    split; [done|]. intros Ho. destruct (Ho2 Ho) as [W2 Q2].
    assert (out s2 ≠ []) as Hne by (intros X; rewrite X in Q2; by apply prefix_nil_inv in Q2).
    destruct (Ho3 Hne) as [W3 Q3]. split; [congruence|by etrans].
Qed.

(** Changes of fields the invariant does not speak of. *)
Lemma bytes_rel_same (s s' : C) :
  accepted s' = accepted s -> written s' = written s -> outputBuffer_ s' = outputBuffer_ s ->
  channel_ s' = channel_ s -> in_map s' = in_map s ->
  (FConnectDestroyed ∈ functors s' -> FConnectDestroyed ∈ functors s) -> bytes_rel s s'.
Proof.
  intros Ha Hw Ho Hc Hm Hf. split; [by rewrite Ha|]. intros _ [? ? ? ? Hd ?].
  split; [|by rewrite Hw, Ho]. split; rewrite ?Ha, ?Hw, ?Ho, ?Hc, ?Hm; auto.
Qed.

Lemma queueInLoop_bytes f : f ≠ FConnectDestroyed -> mono bytes_rel (queueInLoop f).
Proof.
  intros Hf. apply mono_modify. intros s. apply bytes_rel_same; try done. simpl.
  rewrite elem_of_app, list_elem_of_singleton. by intros [?|<-].
Qed.

Lemma isWriting_enableWriting c : isWriting (enableWriting c) = true.
Proof.
  unfold isWriting, enableWriting, kWriteEvent. simpl. change POLLOUT with (2 ^ 2).
  rewrite has_bit, s32_testbit, Z.lor_spec by lia. change (2 ^ 2) with 4. apply orb_true_r.
Qed.

Lemma isWriting_enableReading c : isWriting (enableReading c) = isWriting c.
Proof.
  unfold isWriting, enableReading, kWriteEvent. simpl. change POLLOUT with (2 ^ 2).
  rewrite !has_bit, s32_testbit, Z.lor_spec by lia. apply orb_false_r.
Qed.

Lemma readable_zlen b : wf b -> (readableBytes b =? 0) = bool_decide (content b = []).
Proof.
  intros Hwf. rewrite <- zlen_content by done. destruct (content b); [done|].
  rewrite bool_decide_eq_false_2 by done. apply Z.eqb_neq. simpl. lia.
Qed.

(** ** [sendInLoop] *)

(** The bytes [write] is given and the number it takes: none unless the channel is idle. *)
Definition direct (m : list byte) (s : C) : Z :=
  if negb (isWriting (channel_ s)) && bool_decide (out s = []) then
    match write (writes s) m with inl _ => 0 | inr n => n end
  else 0.

Lemma direct_range m s : 0 <= direct m s <= zlen m.
Proof.
  unfold direct. destruct (_ && _); [|lia]. destruct (write (writes s) m) as [e|n] eqn:E; [lia|].
  by apply Hwrite in E.
Qed.

Definition crosses (m : list byte) (s : C) : bool :=
  (highWaterMark_ s <=? zlen (out s) + (zlen m - direct m s)) && (zlen (out s) <? highWaterMark_ s)
  && highWaterMarkCallback_ s.

Lemma on_output_Ok m s b : m (outputBuffer_ s) = Ok (tt, b) -> on_output m s = Ok (tt, set_output b s).
Proof. intros E. unfold on_output, zoom. by rewrite E. Qed.

(** What sending leaves alone. *)
Definition frame (s s' : C) : Prop :=
  state_ s' = state_ s ∧ in_map s' = in_map s ∧ events s' = events s ∧ shut_wr s' = shut_wr s ∧
  inputBuffer_ s' = inputBuffer_ s ∧ highWaterMark_ s' = highWaterMark_ s ∧
  highWaterMarkCallback_ s' = highWaterMarkCallback_ s.

(** The first half of [sendInLoop]: the direct write. *)
Lemma sendInLoop_direct m s :
  wf (outputBuffer_ s) -> zlen m <= max_size ->
  let s1 := add_accepted m s in
  ∃ s2, (if negb (isWriting (channel_ s1)) && (readableBytes (outputBuffer_ s1) =? 0) then
          n ← sys_write write m;
          if 0 <=? n then
            (if n <? zlen m then mret tt else when (writeCompleteCallback_ s1) (queueInLoop FWriteComplete)) ;;
            mret (n, u64 (zlen m - n))
          else mret (0, zlen m)
        else mret (0, zlen m)) s1 = Ok ((direct m s, zlen m - direct m s), s2) ∧
    accepted s2 = accepted s ++ m ∧ written s2 = written s ++ take (Z.to_nat (direct m s)) m ∧
    outputBuffer_ s2 = outputBuffer_ s ∧ channel_ s2 = channel_ s ∧ frame s s2 ∧
    functors s2 = functors s ++
      (if direct m s <? zlen m then []
       else if negb (isWriting (channel_ s)) && bool_decide (out s = []) && writeCompleteCallback_ s
               && (match write (writes s) m with inl _ => false | inr _ => true end)
            then [FWriteComplete] else []).
Proof.
  intros Hwf Hm s1. unfold max_size in Hm. pose proof (readable_zlen (outputBuffer_ s) Hwf) as Hr. unfold direct.
  change (outputBuffer_ s1) with (outputBuffer_ s). change (channel_ s1) with (channel_ s). rewrite Hr.
  destruct (negb (isWriting (channel_ s)) && bool_decide (out s = [])) eqn:Eg.
  2: { exists s1. rewrite Z.sub_0_r. split; [done|]. split; [done|]. split; [by rewrite app_nil_r|].
       split_and!; try done. destruct (_ <? _); by rewrite app_nil_r. }
  destruct (write (writes s) m) as [e|n] eqn:Ew.
  - exists (add_written [] s1). rewrite Z.sub_0_r, andb_false_r. split.
    { unfold sys_write. msimp. change (writes s1) with (writes s). by rewrite Ew. }
    split_and!; try done. simpl. destruct (_ <? _); by rewrite app_nil_r.
  - pose proof (Hwrite _ _ _ Ew) as Hn. rewrite andb_true_r, andb_true_l.
    set (s2 := add_written (take (Z.to_nat n) m) s1).
    assert (sys_write write m s1 = Ok (n, s2)) as Es
      by (unfold sys_write; msimp; change (writes s1) with (writes s); by rewrite Ew).
    rewrite (bind_Ok _ _ _ _ _ Es). rewrite (proj2 (Z.leb_le 0 n)) by lia.
    rewrite u64_small by lia. destruct (n <? zlen m) eqn:El.
    + exists s2. rewrite app_nil_r. by split_and!.
    + change (writeCompleteCallback_ s1) with (writeCompleteCallback_ s). destruct (writeCompleteCallback_ s).
      * exists (set_functors (functors s2 ++ [FWriteComplete]) s2). by split_and!.
      * exists s2. rewrite app_nil_r. by split_and!.
Qed.

Lemma sendInLoop_spec m s :
  out_room s -> kCheapPrepend + kInitialSize + (zlen (accepted s) + zlen m) <= max_size ->
  ∃ s', sendInLoop m s = Ok (tt, s') ∧
    accepted s' = accepted s ++ m ∧
    written s' = written s ++ take (Z.to_nat (direct m s)) m ∧
    out s' = out s ++ drop (Z.to_nat (direct m s)) m ∧
    (wf (outputBuffer_ s') ∧ zlen (buffer_ (outputBuffer_ s)) <= zlen (buffer_ (outputBuffer_ s'))
                                <= zlen (buffer_ (outputBuffer_ s)) + zlen m) ∧
    channel_ s' = (if (direct m s <? zlen m) && negb (isWriting (channel_ s))
                   then set_added true (enableWriting (channel_ s)) else channel_ s) ∧
    functors s' = functors s ++
      (if direct m s <? zlen m then
         if crosses m s then [FHighWaterMark (zlen (out s) + (zlen m - direct m s))] else []
       else if negb (isWriting (channel_ s)) && bool_decide (out s = []) && writeCompleteCallback_ s
                && (match write (writes s) m with inl _ => false | inr _ => true end)
            then [FWriteComplete] else []) ∧
    frame s s'.
Proof.
  intros [Hwf Hsz Hol] Hmax. pose proof (direct_range m s) as Hd.
  pose proof Hwf as [Hri Hwi]. unfold kCheapPrepend, kInitialSize, max_size in *.
  destruct (sendInLoop_direct m s Hwf ltac:(unfold max_size; lia)) as (s2 & E & Ha & Hw & Ho & Hc & Hfr & Hfu).
  set (d := direct m s) in *.
  unfold TcpConnection.sendInLoop. rewrite (bind_Ok _ _ s tt (add_accepted m s)) by done.
  rewrite (bind_Ok _ _ (add_accepted m s) (add_accepted m s) (add_accepted m s)) by done.
  rewrite (bind_Ok _ _ _ _ _ E). rewrite (bind_Ok _ _ s2 tt s2) by (apply assert_Ok; apply Z.leb_le; lia).
  destruct (Z.ltb_spec d (zlen m)) as [Hlt|Hge]; cbn [when].
  2: { exists s2. split; [done|]. split; [done|]. split; [done|]. split.
       - rewrite Ho. rewrite drop_ge by lia. by rewrite app_nil_r.
       - rewrite Ho, Hc. cbn [andb]. split_and!; try done; lia. }
  rewrite (bind_Ok _ _ s2 s2 s2) by done. cbv zeta. rewrite Ho, Hc.
  pose proof (zlen_content _ Hwf) as Hlen. rewrite <- Hlen.
  rewrite u64_small by lia. destruct Hfr as (Hst & Him & Hev & Hsh & Hib & Hhw & Hhc). rewrite Hhw, Hhc.
  set (cr := crosses m s). set (cross := (_ && _ && _)%bool).
  assert (cross = cr) as -> by done.
  set (s3 := if cr then set_functors (functors s2 ++ [FHighWaterMark (zlen (out s) + (zlen m - d))]) s2 else s2).
  rewrite (bind_Ok _ _ s2 tt s3) by (subst s3; by destruct cr).
  assert (outputBuffer_ s3 = outputBuffer_ s) as Ho3 by (subst s3; by destruct cr).
  destruct (append_spec (outputBuffer_ s) (drop (Z.to_nat d) m)) as (b & Eb & Hwfb & Hcb & _ & Hszb);
    [done|rewrite length_drop; unfold max_size; lia|]. rewrite length_drop in Hszb.
  rewrite (bind_Ok _ _ s3 tt (set_output b s3)) by (apply on_output_Ok; by rewrite Ho3).
  set (s4 := set_output b s3).
  set (s5 := if negb (isWriting (channel_ s)) then set_chan (set_added true (enableWriting (channel_ s4))) s4 else s4).
  exists s5. split; [subst s5; by destruct (isWriting (channel_ s))|].
  assert (channel_ s3 = channel_ s) as Hc3 by (subst s3; by destruct cr).
  assert (outputBuffer_ s5 = b) as Ho5 by (subst s5; by destruct (isWriting (channel_ s))).
  rewrite Ho5. split; [subst s5 s4 s3; by destruct (isWriting (channel_ s)), cr|].
  split; [subst s5 s4 s3; by destruct (isWriting (channel_ s)), cr|].
  split; [done|]. split; [split; [done|lia]|].
  split; [subst s5 s4; simpl; destruct (isWriting (channel_ s)); simpl; by rewrite Hc3|].
  split.
  - subst s5 s4 s3. rewrite app_nil_r in Hfu. fold cr. destruct (isWriting (channel_ s)), cr; simpl; rewrite Hfu, ?app_nil_r; done.
  - unfold frame. subst s5 s4 s3. by destruct (isWriting (channel_ s)), cr; split_and!.
Qed.

(** ** The other operations *)

Lemma sendInLoop_accepted m s u s' : sendInLoop m s = Ok (u, s') -> accepted s' = accepted s ++ m.
Proof.
  intros E. unfold TcpConnection.sendInLoop in E. rewrite (bind_Ok _ _ s tt (add_accepted m s)) in E by done.
  change (same accepted (add_accepted m s) s'). revert E. generalize (add_accepted m s) as s1. intros s1.
  refine (_ s1 u s'). change (mono (same accepted) (A := unit)) with (λ m : M C unit, ∀ s a s', m s = Ok (a, s') -> same accepted s s').
  match goal with |- ∀ s1 u s', ?m s1 = _ -> _ => change (mono (same accepted) m) end.
  unfold sys_write, on_channel, queueInLoop, on_output. by repeat mono_step.
Qed.

Lemma sendInLoop_bytes m : mono bytes_rel (sendInLoop m).
Proof.
  intros s [] s' E. pose proof (sendInLoop_accepted _ _ _ _ E) as Ha.
  split; [rewrite Ha; by apply prefix_app_r|]. intros Hfit Hi. unfold fits in Hfit. rewrite Ha, length_app in Hfit.
  destruct (sendInLoop_spec m s (bytes_room s Hi)) as (s1 & E1 & _ & Hw & Ho & (Hwf & Hsz) & Hc & Hfu & Hfr); [lia|].
  rewrite E in E1. injection E1 as <-. pose proof (direct_range m s) as Hd.
  destruct Hi as [Hwf0 Hsz0 Hby Hwr Hf Hcb]. destruct Hfr as (_ & Him & _).
  assert (out s ≠ [] -> direct m s = 0) as Hz.
  { intros X. unfold direct. rewrite (bool_decide_eq_false_2 _ X). by rewrite andb_false_r. }
  split; [|intros X; rewrite Hw, Ho, (Hz X); simpl; by rewrite app_nil_r; split; [|apply prefix_app_r]].
  split.
  - done.
  - rewrite Ha, length_app. lia.
  - rewrite Ha, Hw, Ho, Hby. destruct (decide (out s = [])) as [->|X].
    + by rewrite app_nil_r, <- app_assoc, app_nil_l, take_drop.
    + rewrite (Hz X). simpl. by rewrite !app_nil_r, <- app_assoc.
  - rewrite Him, Hc, Ho. intros Hm. specialize (Hwr Hm). destruct (Z.ltb_spec (direct m s) (zlen m)) as [Hlt|Hge]; simpl.
    + assert (drop (Z.to_nat (direct m s)) m ≠ []) as X.
      { intros X. apply (f_equal length) in X. rewrite length_drop in X. simpl in X. lia. }
      split; [intros _ [_ Y]%app_eq_nil; done|]. intros _. destruct (isWriting (channel_ s)) eqn:W; simpl; [done|].
      apply isWriting_enableWriting.
    + rewrite drop_ge, app_nil_r by lia. done.
  - rewrite Him, Hfu, elem_of_app. intros [X|X]; [by apply Hf|].
    repeat case_match; try (by apply elem_of_nil in X); apply list_elem_of_singleton in X; done.
  - clear Hfu Hwr. rewrite Hc. destruct (direct m s <? zlen m), (isWriting (channel_ s)); exact Hcb.
Qed.

Ltac bytes_same := apply bytes_rel_same; simpl; try done; try (rewrite ?elem_of_app, ?list_elem_of_singleton; naive_solver).

Lemma shutdownInLoop_bytes : mono bytes_rel shutdownInLoop.
Proof. unfold shutdownInLoop. repeat mono_step. intros s. bytes_same. Qed.

Lemma call_bytes inLoop c : mono bytes_rel (call inLoop c).
Proof.
  destruct c as [m| |]; simpl; unfold send, shutdown, forceClose, queueInLoop; repeat mono_step;
    try (intros s; by bytes_same); [apply sendInLoop_bytes|apply shutdownInLoop_bytes].
Qed.

Lemma tell_bytes e cs : mono bytes_rel (tell write e cs).
Proof. unfold tell. repeat mono_step; [intros s; bytes_same|apply call_bytes]. Qed.

Lemma isWriting_disableAll c : isWriting (disableAll c) = false.
Proof. done. Qed.

Lemma removeConnectionInLoop_Ok s u s' :
  removeConnectionInLoop s = Ok (u, s') ->
  in_map s = true ∧ s' = set_functors (functors s ++ [FConnectDestroyed]) (set_in_map false s).
Proof. intros E. unfold removeConnectionInLoop, queueInLoop in E. minv E. simpl in *. by destruct s. Qed.

Lemma removeConnectionInLoop_bytes : mono bytes_rel removeConnectionInLoop.
Proof.
  intros s u s' E. apply removeConnectionInLoop_Ok in E as (Him & ->). split; [done|].
  intros _ [? ? ? ? ? ?]. split; [by split|]. by intros _.
Qed.

Lemma handleClose_Ok s u s' :
  handleClose close s = Ok (u, s') ->
  in_map s = true ∧ (state_ s = kConnected ∨ state_ s = kDisconnecting) ∧
  s' = set_functors (functors s ++ [FConnectDestroyed])
         (set_in_map false (set_chan (set_added true (disableAll (channel_ s))) s)).
Proof.
  intros E. unfold handleClose, removeConnection, removeConnectionInLoop, on_channel, queueInLoop in E. minv E.
  rewrite orb_true_iff, !bool_decide_eq_true in *. simpl in *. destruct s; simpl in *. by split_and!.
Qed.

Lemma handleClose_bytes : mono bytes_rel (handleClose close).
Proof.
  intros s u s' E. apply handleClose_Ok in E as (Him & _ & ->). split; [done|].
  intros _ [? ? ? ? ? ?]. split; [by split|]. by intros _.
Qed.

Lemma handleRead_bytes readv : mono bytes_rel (handleRead write onMessage close readv).
Proof.
  unfold handleRead, handleError. apply mono_bind; [apply _|repeat mono_step|intros s].
  destruct (readFd _ _ _) as [[[n e] b]|]; [|apply mono_fail].
  repeat mono_step; try (intros; by bytes_same).
  - apply call_bytes.
  - apply handleClose_bytes.
Qed.

(** [handleWrite] changes no accepted byte. *)
Lemma run_callback_accepted readv cb : mono (λ s s' : C, accepted s `prefix_of` accepted s') (run_callback write onMessage close readv cb).
Proof.
  assert (PreOrder (λ s s' : C, accepted s `prefix_of` accepted s')).
  { split; [by intros s|intros x y z; by etrans]. }
  destruct cb; simpl.
  - intros s a s' E. by apply handleClose_bytes in E as [? _].
  - unfold handleError. repeat mono_step.
  - intros s a s' E. by apply handleRead_bytes in E as [? _].
  - unfold handleWrite, sys_write, on_output, on_channel, queueInLoop, shutdownInLoop. by repeat mono_step.
Qed.

Lemma handle_event_bytes revents readv : mono bytes_rel (handle_event write onMessage close revents readv).
Proof.
  intros s u s' E. unfold handle_event in E.
  set (s1 := set_chan (set_revents revents (channel_ s)) s) in *.
  rewrite (bind_Ok _ _ s tt s1) in E by done. rewrite (bind_Ok _ _ s1 s1 s1) in E by done.
  assert (mono (λ s s' : C, accepted s `prefix_of` accepted s')
            (mapM_ (run_callback write onMessage close readv) (handleEvent (channel_ s1)).1)) as Hpre.
  { apply mono_mapM; [split; [by intros ?|intros x y z; by etrans]|apply run_callback_accepted]. }
  split; [by apply Hpre in E|]. intros Hfit Hi.
  assert (bytes_rel s s1) as H01.
  { split; [done|]. intros _ [? ? ? ? ? ?]. split; [by split|]. by intros _. }
  assert (mono bytes_rel (mapM_ (run_callback write onMessage close readv) (handleEvent (channel_ s1)).1)) as Hm.
  { apply mono_mapM_in; [apply _|]. intros cb Hcb%handleEvent_set. destruct cb; simpl.
    - apply handleClose_bytes.
    - apply mono_ret, _.
    - apply handleRead_bytes.
    - pose proof (bi_callbacks _ Hi) as X. change (has_callback CbWrite (channel_ s1) = false) in X. congruence. }
  assert (bytes_rel s s') as [_ Hr]; [|by apply Hr].
  transitivity s1; [exact H01|by eapply Hm].
Qed.

Lemma connectEstablished_bytes : mono bytes_rel (connectEstablished write onConnection).
Proof.
  unfold connectEstablished, on_channel. repeat mono_step; try (intros s; by bytes_same); [|apply tell_bytes].
  intros s. split; [done|]. intros _ [? ? ? Hw ? ?]. split; [|by intros _]. split; try done.
  change (in_map s = true -> isWriting (enableReading (channel_ s)) = true <-> out s ≠ []).
  by rewrite isWriting_enableReading.
Qed.

Lemma connectDestroyed_bytes s u s' :
  in_map s = false -> connectDestroyed write onConnection s = Ok (u, s') -> bytes_rel s s'.
Proof.
  intros Him E. unfold connectDestroyed, on_channel in E.
  rewrite (bind_Ok _ _ s s s) in E by done. apply bind_inv in E as ([] & s0 & [_ ->]%assert_inv & E).
  set (s1 := set_state kDisconnected s) in *. rewrite (bind_Ok _ _ s tt s1) in E by done.
  set (s2 := set_chan (set_added true (disableAll (channel_ s1))) s1) in *.
  rewrite (bind_Ok _ _ s1 tt s2) in E by done.
  assert (bytes_rel s s2) as H02.
  { split; [done|]. intros _ [? ? ? ? ? ?]. split; [|by intros _]. split; try done.
    change (in_map s2) with (in_map s). by rewrite Him. }
  transitivity s2; [exact H02|]. revert E. match goal with |- ?m s2 = _ -> _ => enough (mono bytes_rel m) as X by apply X end.
  unfold channel_remove. repeat mono_step; [apply tell_bytes|]. intros x. split; [done|]. intros _ [? ? ? ? ? ?].
  split; [by split|by intros _].
Qed.

Lemma run_next_bytes : mono bytes_rel (run_next write onConnection onWriteComplete onHighWaterMark close).
Proof.
  intros s u s' E. unfold run_next in E. rewrite (bind_Ok _ _ s s s) in E by done.
  destruct (functors s) as [|f fs] eqn:Ef; [by injection E as _ <-|].
  set (s1 := set_functors fs s) in *. rewrite (bind_Ok _ _ s tt s1) in E by done.
  assert (bytes_rel s s1) as H01 by (bytes_same; rewrite Ef; set_solver).
  destruct f; simpl in E.
  - transitivity s1; [exact H01|]. by eapply sendInLoop_bytes.
  - transitivity s1; [exact H01|]. by eapply shutdownInLoop_bytes.
  - transitivity s1; [exact H01|]. revert E. unfold forceCloseInLoop.
    match goal with |- ?m s1 = _ -> _ => enough (mono bytes_rel m) as X by apply X end.
    repeat mono_step. apply handleClose_bytes.
  - transitivity s1; [exact H01|]. by eapply tell_bytes.
  - transitivity s1; [exact H01|]. by eapply tell_bytes.
  - transitivity s1; [exact H01|]. by eapply removeConnectionInLoop_bytes.
  - assert (mono (λ s s' : C, accepted s `prefix_of` accepted s') (connectDestroyed write onConnection)) as Hpre.
    { assert (PreOrder (λ s s' : C, accepted s `prefix_of` accepted s')).
      { split; [by intros ?|intros x y z; by etrans]. }
      unfold connectDestroyed, on_channel, channel_remove. repeat mono_step; try done.
      intros x ? y Ex. by apply tell_bytes in Ex as [? _]. }
    split; [by apply Hpre in E|]. intros Hfit Hi.
    assert (bytes_rel s s') as [_ Hr]; [|by apply Hr]. transitivity s1; [exact H01|].
    apply connectDestroyed_bytes with u; [|done]. apply (bi_functors _ Hi). rewrite Ef. set_solver.
Qed.

Lemma do_op_bytes o : mono bytes_rel (do_op o).
Proof.
  destruct o; simpl.
  - apply connectEstablished_bytes.
  - apply call_bytes.
  - repeat mono_step. apply handle_event_bytes.
  - apply run_next_bytes.
Qed.

(** * The life of a connection *)

Definition conn_events (s : C) : list bool :=
  omap (λ e, match e with UConnection b => Some b | _ => None end) (events s).

Definition is_destroy (f : ConnFunctor) : bool := match f with FConnectDestroyed => true | _ => false end.
Definition destroys (s : C) : nat := length (List.filter is_destroy (functors s)).
Definition removing (s : C) : bool := bool_decide (FRemoveConnection ∈ functors s).

Definition rank (x : StateE) : nat :=
  match x with kConnecting => 0 | kConnected => 1 | kDisconnecting => 2 | kDisconnected => 3 end.

(** The user hears of the connection once when it is up and once when it is down; it
    leaves its server's map once, and is then destroyed by exactly one functor. *)
Record life_inv (s : C) : Prop := {
  lf_events : conn_events s =
    match state_ s with kConnecting => [] | kConnected | kDisconnecting => [true] | kDisconnected => [true; false] end;
  lf_destroys : destroys s = if in_map s || bool_decide (state_ s = kDisconnected) then 0%nat else 1%nat;
  lf_map : state_ s = kDisconnected -> in_map s = false;
  lf_connecting : state_ s = kConnecting -> in_map s = true;
  lf_removing : removing s = false }.

Definition life_rel (s s' : C) : Prop :=
  life_inv s -> life_inv s' ∧ (rank (state_ s) <= rank (state_ s'))%nat.

#[export] Instance life_rel_PreOrder : PreOrder life_rel.
Proof.
  split; [by intros s Hi|]. intros s1 s2 s3 H1 H2 Hi. destruct (H1 Hi) as [Hi2 R2].
  destruct (H2 Hi2) as [Hi3 R3]. split; [done|lia].
Qed.

Definition life (s : C) := (state_ s, in_map s, conn_events s, destroys s, removing s).

Lemma life_same s s' : same life s s' -> life_rel s s'.
Proof.
  intros E [? ? ? ? ?]. unfold same, life in E. injection E as E1 E2 E3 E4 E5.
  split; [|by rewrite E1]. split; rewrite ?E1, ?E2, ?E3, ?E4, ?E5; done.
Qed.

Lemma mono_life {A} (m : M C A) : mono (same life) m -> mono life_rel m.
Proof. intros Hm s a s' E. by eapply life_same, Hm. Qed.

Lemma removing_app f s : f ≠ FRemoveConnection -> removing (set_functors (functors s ++ [f]) s) = removing s.
Proof.
  intros Hf. apply bool_decide_ext. simpl. rewrite elem_of_app, list_elem_of_singleton. split; [|by left].
  intros [?|<-]; done.
Qed.

Lemma removing_tail f fs s :
  functors s = f :: fs -> f ≠ FRemoveConnection -> removing (set_functors fs s) = removing s.
Proof. intros E Hf. apply bool_decide_ext. simpl. rewrite E, elem_of_cons. split; [by right|]. by intros [<-|?]. Qed.

Lemma life_queue f s :
  is_destroy f = false -> f ≠ FRemoveConnection -> same life s (set_functors (functors s ++ [f]) s).
Proof.
  intros Hf Hr. unfold same, life. rewrite (removing_app f s Hr). unfold destroys. simpl.
  by rewrite List.filter_app, length_app; simpl; rewrite Hf, Nat.add_0_r.
Qed.

Lemma life_event e s : (∀ b, e ≠ UConnection b) -> same life s (add_event e s).
Proof.
  intros He. unfold same, life, conn_events. simpl. rewrite omap_app. simpl.
  destruct e as [b| | |]; [by destruct (He b)|by rewrite app_nil_r..].
Qed.

Ltac life_same := first [done | by apply life_queue | by apply life_event].

Lemma sendInLoop_life m : mono (same life) (sendInLoop m).
Proof.
  unfold TcpConnection.sendInLoop, sys_write, on_channel, queueInLoop, on_output.
  repeat mono_step; intros; life_same.
Qed.

Lemma shutdownInLoop_life : mono (same life) shutdownInLoop.
Proof. unfold shutdownInLoop. by repeat mono_step. Qed.

Lemma disconnecting_life s :
  state_ s = kConnected ∨ state_ s = kDisconnecting -> life_rel s (set_state kDisconnecting s).
Proof.
  intros Hs [He Hd Hm Hc]. split; [|simpl; by destruct Hs as [-> | ->]; simpl; lia].
  split; simpl; try done.
  - change (conn_events s = [true]). rewrite He. by destruct Hs as [-> | ->].
  - change (destroys s = if in_map s || bool_decide (kDisconnecting = kDisconnected) then 0%nat else 1%nat).
    rewrite Hd. by destruct Hs as [-> | ->].
Qed.

Lemma call_life inLoop c : mono life_rel (call inLoop c).
Proof.
  destruct c as [m| |]; simpl.
  - apply mono_life. unfold send, queueInLoop. repeat mono_step; [apply sendInLoop_life|intros; life_same].
  - intros s u s' E. unfold shutdown in E. rewrite (bind_Ok _ _ s s s) in E by done.
    destruct (bool_decide (state_ s = kConnected)) eqn:D; [|by injection E as _ <-].
    apply bool_decide_eq_true in D. cbn [when] in E.
    rewrite (bind_Ok _ _ s tt (set_state kDisconnecting s)) in E by done.
    transitivity (set_state kDisconnecting s); [apply disconnecting_life; auto|].
    revert E. match goal with |- ?m _ = _ -> _ => enough (mono life_rel m) as X by apply X end.
    apply mono_life. unfold queueInLoop. repeat mono_step; [apply shutdownInLoop_life|intros; life_same].
  - intros s u s' E. unfold forceClose in E. rewrite (bind_Ok _ _ s s s) in E by done.
    destruct (_ || _) eqn:D in E; [|by injection E as _ <-].
    rewrite orb_true_iff, !bool_decide_eq_true in D. cbn [when] in E.
    rewrite (bind_Ok _ _ s tt (set_state kDisconnecting s)) in E by done.
    transitivity (set_state kDisconnecting s); [by apply disconnecting_life|].
    injection E as _ <-. apply life_same. by apply (life_queue FForceCloseInLoop (set_state kDisconnecting s)).
Qed.

Lemma tell_life e cs : (∀ b, e ≠ UConnection b) -> mono life_rel (tell write e cs).
Proof.
  intros He. unfold tell. repeat mono_step; [intros; apply life_same; by apply life_event|apply call_life].
Qed.

Lemma handleClose_life : mono life_rel (handleClose close).
Proof.
  intros s u s' E. apply handleClose_Ok in E as (Him & Hs & ->). intros [He Hd Hm Hc Hrm].
  split; [|done]. split; simpl; try done.
  - rewrite Him in Hd. unfold destroys in *. simpl. rewrite List.filter_app, length_app, Hd. simpl.
    by rewrite bool_decide_eq_false_2 by (by destruct Hs as [-> | ->]).
  - destruct Hs as [-> | ->]; done.
  - rewrite <- Hrm. by apply (removing_app FConnectDestroyed s).
Qed.

Lemma handleRead_life readv : mono life_rel (handleRead write onMessage close readv).
Proof.
  unfold handleRead, handleError. apply mono_bind; [apply _|repeat mono_step|intros s].
  destruct (readFd _ _ _) as [[[n e] b]|]; [|apply mono_fail].
  repeat mono_step; try (intros; apply life_same; life_same); [apply call_life|apply handleClose_life].
Qed.

Lemma handle_event_life revents readv : mono life_rel (handle_event write onMessage close revents readv).
Proof.
  unfold handle_event. repeat mono_step; [intros; by apply life_same|].
  match goal with |- mono _ (run_callback _ _ _ _ ?cb) => destruct cb end; simpl.
  - apply handleClose_life.
  - apply mono_ret, _.
  - apply handleRead_life.
  - apply mono_life. unfold handleWrite, sys_write, on_output, on_channel, queueInLoop.
    repeat mono_step; intros; try life_same. apply shutdownInLoop_life.
Qed.

Lemma connectEstablished_life : mono life_rel (connectEstablished write onConnection).
Proof.
  intros s u s' E. unfold connectEstablished, on_channel, tell in E.
  rewrite (bind_Ok _ _ s s s) in E by done. apply bind_inv in E as ([] & s0 & [Hs ->]%assert_inv & E).
  apply bool_decide_eq_true in Hs.
  set (s1 := set_state kConnected s) in *. rewrite (bind_Ok _ _ s tt s1) in E by done.
  set (s2 := set_chan (set_added true (enableReading (channel_ s1))) s1). rewrite (bind_Ok _ _ s1 tt s2) in E by done.
  set (s3 := add_event (UConnection true) s2). rewrite (bind_Ok _ _ s2 tt s3) in E by done.
  transitivity s3; [|by eapply (mono_mapM life_rel); [intros; apply call_life|exact E]].
  intros [He Hd Hm Hc]. rewrite Hs in *. split; [|simpl; lia]. split; simpl; try done.
  unfold conn_events in *. simpl. by rewrite omap_app, He.
Qed.

Lemma connectDestroyed_life fs s u s' :
  functors s = FConnectDestroyed :: fs -> connectDestroyed write onConnection (set_functors fs s) = Ok (u, s') -> life_rel s s'.
Proof.
  intros Hf E. unfold connectDestroyed, on_channel, tell in E.
  set (s0 := set_functors fs s) in *.
  rewrite (bind_Ok _ _ s0 s0 s0) in E by done. apply bind_inv in E as ([] & s00 & [Hs ->]%assert_inv & E).
  rewrite orb_true_iff, !bool_decide_eq_true in Hs.
  set (s1 := set_state kDisconnected s0) in *. rewrite (bind_Ok _ _ s0 tt s1) in E by done.
  set (s2 := set_chan (set_added true (disableAll (channel_ s1))) s1). rewrite (bind_Ok _ _ s1 tt s2) in E by done.
  apply bind_inv in E as ([] & s4 & E4 & E).
  set (s3 := add_event (UConnection false) s2). rewrite (bind_Ok _ _ s2 tt s3) in E4 by done.
  transitivity s4.
  - transitivity s3; [|by eapply (mono_mapM life_rel); [intros; apply call_life|exact E4]].
    intros [He Hd Hm Hc Hrm]. change (state_ s0) with (state_ s) in Hs.
    assert (destroys s = S (destroys s0)) as Hds by (unfold destroys; rewrite Hf; done).
    assert (in_map s = false) as Him by (destruct (in_map s); [simpl in Hd; lia|done]).
    split; [|simpl; destruct (state_ s); simpl; lia]. split; simpl; try done.
    + unfold conn_events in *. simpl. rewrite omap_app, He. by destruct Hs as [-> | ->].
    + change (destroys s3) with (destroys s0). rewrite orb_true_r. rewrite Him in Hd.
      destruct (bool_decide _) in Hd; simpl in Hd; lia.
    + rewrite <- Hrm. by apply (removing_tail FConnectDestroyed fs s).
  - revert E. match goal with |- ?m s4 = _ -> _ => enough (mono life_rel m) as X by apply X end.
    unfold channel_remove. repeat mono_step. intros. by apply life_same.
Qed.

Lemma run_next_life : mono life_rel (run_next write onConnection onWriteComplete onHighWaterMark close).
Proof.
  intros s u s' E. unfold run_next in E. rewrite (bind_Ok _ _ s s s) in E by done.
  destruct (functors s) as [|f fs] eqn:Ef; [by injection E as _ <-|].
  set (s1 := set_functors fs s) in *. rewrite (bind_Ok _ _ s tt s1) in E by done.
  destruct (decide (f = FRemoveConnection)) as [->|Hr].
  { intros Hi. pose proof (lf_removing _ Hi) as X. unfold removing in X. rewrite Ef in X.
    apply bool_decide_eq_false in X. destruct X. by left. }
  assert (is_destroy f = false -> life_rel s s1) as H01.
  { intros Hf. apply life_same. unfold same, life, s1. rewrite (removing_tail f fs s Ef Hr).
    unfold destroys. rewrite Ef. simpl. by rewrite Hf. }
  destruct f; simpl in E; [..|done|by eapply connectDestroyed_life]; (transitivity s1; [by apply H01|]).
  - exact (mono_life _ (sendInLoop_life _) _ _ _ E).
  - exact (mono_life _ shutdownInLoop_life _ _ _ E).
  - revert E. unfold forceCloseInLoop.
    match goal with |- ?m s1 = _ -> _ => enough (mono life_rel m) as X by apply X end.
    repeat mono_step. apply handleClose_life.
  - by eapply tell_life; [|exact E].
  - by eapply tell_life; [|exact E].
Qed.

Lemma do_op_life o : mono life_rel (do_op o).
Proof.
  destruct o; simpl.
  - apply connectEstablished_life.
  - apply call_life.
  - repeat mono_step. apply handle_event_life.
  - apply run_next_life.
Qed.

(** * Runs of a connection *)

(** A new connection, with the callbacks its user has set. *)
Definition configured (sockfd garbage : Z) (wc : bool) (hw : option Z) : res C :=
  match new_TcpConnection sockfd garbage with
  | Fault f => Fault f
  | Ok s =>
      let s := if wc then setWriteCompleteCallback s else s in
      Ok (match hw with Some n => setHighWaterMarkCallback n s | None => s end)
  end.

Definition cstep (s s' : C) : Prop := ∃ o, do_op o s = Ok (tt, s').

Definition creachable (s : C) : Prop :=
  ∃ fd g wc hw s0, configured fd g wc hw = Ok s0 ∧ rtc cstep s0 s.

Lemma configured_inv fd g wc hw s0 : configured fd g wc hw = Ok s0 -> bytes_inv s0 ∧ life_inv s0 ∧ s0.(functors) = [].
Proof.
  unfold configured, new_TcpConnection.
  destruct (new_Buffer_spec kInitialSize ltac:(done) ltac:(done)) as (b & -> & Hwf & Hc & _ & Hsz).
  intros [= <-].
  assert (isWriting (set_callback CbError (set_callback CbClose (set_callback CbRead (new_Channel fd)))) = false) as Hw by done.
  split; [|by destruct wc, hw; split].
  split; (destruct wc, hw; simpl; try done; try (unfold kCheapPrepend, kInitialSize in *; lia); try (by rewrite Hc);
    by intros ?%elem_of_nil).
Qed.

Lemma rtc_mono (R : relation C) `{!PreOrder R} s s' :
  (∀ o, mono R (do_op o)) -> rtc cstep s s' -> R s s'.
Proof. intros Hm Hr. induction Hr as [s|s1 s2 s3 [o E] _ IH]; [done|]. transitivity s2; [by eapply Hm|done]. Qed.

Lemma reachable_bytes s : creachable s -> fits s -> bytes_inv s.
Proof.
  intros (fd & g & wc & hw & s0 & E & Hr) Hf. apply configured_inv in E as [Hi _].
  apply (rtc_mono bytes_rel) in Hr as [_ Hr]; [|apply do_op_bytes]. by apply Hr.
Qed.

Lemma reachable_life s : creachable s -> life_inv s.
Proof.
  intros (fd & g & wc & hw & s0 & E & Hr). apply configured_inv in E as (_ & Hi & _).
  apply (rtc_mono life_rel) in Hr; [|apply do_op_life]. by apply Hr.
Qed.

(** C3: no byte is lost, duplicated or reordered: whatever the calls, events and functors,
    what reached [sendInLoop] is what [write] has taken followed by the contents of the
    output buffer - as long as the output fits in memory.  [shutdownInLoop] shuts the socket down
    for writing when the channel does not ask to write; while the connection is in its
    server's table that is exactly when every byte has been written.  Once it has been closed
    its channel asks for nothing, and a late [shutdownInLoop] gives up what is left
    ([shutdown_after_close]). *)
Theorem TcpConnection_stream s :
  creachable s -> fits s ->
  accepted s = written s ++ out s ∧
  (in_map s = true -> (isWriting (channel_ s) = true <-> out s ≠ [])) ∧
  ∃ s', shutdownInLoop s = Ok (tt, s') ∧ shut_wr s' = shut_wr s || negb (isWriting (channel_ s)) ∧
    written s' = written s ∧
    (in_map s = true -> shut_wr s = false -> (shut_wr s' = true <-> written s = accepted s)).
Proof.
  intros Hr Hf. destruct (reachable_bytes s Hr Hf) as [_ _ Hb Hw _ _]. split; [done|]. split; [done|].
  assert (out s = [] <-> written s = accepted s) as Hall.
  { rewrite Hb. split; [intros ->; by rewrite app_nil_r|]. intros E.
    apply (app_inv_head (written s)). by rewrite app_nil_r. }
  unfold shutdownInLoop. rewrite (bind_Ok _ _ s s s) by done. setoid_rewrite <- Hall.
  destruct (isWriting (channel_ s)) eqn:W; cbn [negb when]; eexists; (split; [reflexivity|]).
  - rewrite orb_false_r. split_and!; [done|done|]. intros Hm ->. split; [done|]. intros X. by apply Hw in X.
  - rewrite orb_true_r. split_and!; [done|done|]. intros Hm _. split; [|done]. intros _.
    destruct (decide (out s = [])) as [|X]; [done|]. apply Hw in X; [congruence|done].
Qed.

(** A partial write is the last: the constructor sets no write callback, so once bytes
    are left in the output buffer no operation ever writes again, on this connection,
    whatever the socket reports; later messages only queue up behind them. *)
Theorem TcpConnection_output_stuck s s' :
  creachable s -> out s ≠ [] -> rtc cstep s s' -> fits s' ->
  written s' = written s ∧ out s `prefix_of` out s'.
Proof.
  intros Hr Ho Hs Hf. apply (rtc_mono bytes_rel) in Hs as [Hp Hs]; [|apply do_op_bytes].
  assert (bytes_inv s) as Hi by (apply reachable_bytes; [done|by eapply fits_prefix]).
  by apply (Hs Hf Hi).
Qed.

(** C25: what sending a message does, on every branch: on an idle connection the message is
    written directly and what the kernel does not take is buffered, otherwise all of it
    is; writing is enabled exactly when something is buffered; the write-complete callback
    is queued when the direct write took everything, the high-water-mark callback, with the
    new length, exactly when the buffered length reaches the mark from below it. *)
Theorem TcpConnection_send m s :
  creachable s -> kCheapPrepend + kInitialSize + (zlen (accepted s) + zlen m) <= max_size ->
  let d := direct m s in
  ∃ s', sendInLoop m s = Ok (tt, s') ∧ 0 <= d <= zlen m ∧
    written s' = written s ++ take (Z.to_nat d) m ∧ out s' = out s ++ drop (Z.to_nat d) m ∧
    (d < zlen m -> isWriting (channel_ s') = true) ∧
    functors s' = functors s ++
      (if d <? zlen m then
         if crosses m s then [FHighWaterMark (zlen (out s) + (zlen m - d))] else []
       else if negb (isWriting (channel_ s)) && bool_decide (out s = []) && writeCompleteCallback_ s
                && (match write (writes s) m with inl _ => false | inr _ => true end)
            then [FWriteComplete] else []) ∧
    state_ s' = state_ s ∧ events s' = events s.
Proof.
  intros Hr Hmax d. assert (bytes_inv s) as Hi by (apply reachable_bytes; [done|unfold fits; lia]).
  destruct (sendInLoop_spec m s (bytes_room s Hi) Hmax) as (s' & E & _ & Hw & Ho & _ & Hc & Hf & Hs & _ & He & _).
  exists s'. split; [done|]. split; [apply direct_range|]. split_and!; try done.
  intros Hlt. rewrite Hc, (proj2 (Z.ltb_lt (direct m s) (zlen m)) Hlt). destruct (isWriting (channel_ s)) eqn:W; [done|].
  apply isWriting_enableWriting.
Qed.

(** C16: the life of a connection: its state only moves forward; the user is told once that
    it is up and once, afterwards, that it is down, as the state says; it leaves its server's
    map at most once, from then on exactly one functor will destroy it until it has, and a
    destroyed connection is not in the map. *)
Theorem TcpConnection_life s s' :
  creachable s -> rtc cstep s s' ->
  (rank (state_ s) <= rank (state_ s'))%nat ∧
  conn_events s = match state_ s with
                  | kConnecting => [] | kConnected | kDisconnecting => [true] | kDisconnected => [true; false]
                  end ∧
  destroys s = (if in_map s || bool_decide (state_ s = kDisconnected) then 0%nat else 1%nat) ∧
  (state_ s = kDisconnected -> in_map s = false) ∧ (state_ s = kConnecting -> in_map s = true).
Proof.
  intros Hr Hs. pose proof (reachable_life s Hr) as Hi.
  apply (rtc_mono life_rel) in Hs; [|apply do_op_life]. destruct (Hs Hi) as [_ Hk]. by destruct Hi.
Qed.

(** [forceClose()] called twice stops the program: neither it nor [handleClose] moves
    the state past [kDisconnecting], so the second queued [forceCloseInLoop] closes the
    connection again before [connectDestroyed] has run, and the server's
    [assert(n == 1)] fails on a connection that has left its map. *)
Theorem TcpConnection_forceClose_twice s :
  creachable s -> state_ s = kConnected ∨ state_ s = kDisconnecting -> functors s = [] ->
  mapM_ do_op [OCall true CForceClose; OCall true CForceClose; ONext; ONext] s = Fault AssertFail.
Proof.
  intros Hr Hs Hf. pose proof (reachable_life s Hr) as [_ Hd _ _ _].
  assert (in_map s = true) as Him.
  { unfold destroys in Hd. rewrite Hf in Hd. destruct (in_map s); [done|]. by destruct Hs as [X|X]; rewrite X in Hd. }
  destruct s as [st ch ib ob wc hc hw im fu ac wr ws sh ev]. simpl in *. subst fu im.
  by destruct Hs as [-> | ->].
Qed.
End connection.

(** * Witnesses *)

(** A kernel that takes at most three bytes at a time, and a user who greets, echoes and
    does nothing else. *)
Definition write3 (n : nat) (d : list byte) : Z + Z := inr (Z.min 3 (zlen d)).
Definition hello : list byte := [x68; x65; x6c; x6c; x6f].
Definition greet (b : bool) : list Call := if b then [CSend hello] else [].
Definition echo (m : list byte) : Z * list Call := (zlen m, [CSend m]).

Lemma write3_bounded n d k : write3 n d = inr k -> 0 <= k <= zlen d.
Proof. intros [= <-]. lia. Qed.

Abbreviation sample_op := (do_op write3 greet echo [] (λ _, []) (removeConnection true)).
Abbreviation sample_reachable := (creachable write3 greet echo [] (λ _, [])).

Definition sample_run (ops : list Op) : res (unit * TcpConnection) :=
  match configured 7 0 true (Some 2) with Ok s => mapM_ sample_op ops s | Fault f => Fault f end.

Lemma mapM_steps ops s s' : mapM_ sample_op ops s = Ok (tt, s') -> rtc (cstep write3 greet echo [] (λ _, [])) s s'.
Proof.
  revert s. induction ops as [|o ops IH]; intros s E; simpl in E; [injection E as <-; apply rtc_refl|].
  apply bind_inv in E as ([] & s1 & E1 & E). apply rtc_l with s1; [by exists o|by apply IH].
Qed.

Lemma sample_run_reachable ops :
  is_ok (sample_run ops) = true -> ∃ s, sample_run ops = Ok (tt, s) ∧ sample_reachable s.
Proof.
  destruct (sample_run ops) as [[[] s]|f] eqn:E; [intros _; exists s|done]. split; [done|].
  unfold sample_run in E. destruct (configured 7 0 true (Some 2)) as [s0|] eqn:E0; [|done].
  exists 7, 0, true, (Some 2), s0. split; [done|]. by eapply mapM_steps.
Qed.

(** A fact of the state after a concrete run. *)
Definition after (ops : list Op) (P : TcpConnection -> bool) : bool :=
  match sample_run ops with Ok (_, s) => P s | Fault _ => false end.

Lemma after_run ops P s : after ops P = true -> sample_run ops = Ok (tt, s) -> P s = true.
Proof. unfold after. intros H E. by rewrite E in H. Qed.

Lemma TcpConnection_stream_witness :
  ∃ s, sample_run [OEstablish; OCall true CShutdown] = Ok (tt, s) ∧
    accepted s = written s ++ content (outputBuffer_ s) ∧ zlen (accepted s) = 5.
Proof.
  destruct (sample_run_reachable [OEstablish; OCall true CShutdown]) as (s & E & Hr); [vm_compute; reflexivity|].
  exists s. split; [exact E|]. assert (zlen (accepted s) = 5) as H5.
  { apply Z.eqb_eq. apply (after_run _ (λ s, zlen (accepted s) =? 5) s) in E; [exact E|vm_compute; reflexivity]. }
  split; [|exact H5].
  apply (TcpConnection_stream write3 greet echo [] (λ _, []) write3_bounded s Hr).
  unfold fits. rewrite H5. vm_compute. discriminate.
Defined.

(** The peer goes while two bytes wait and a [shutdown] of another thread is under way. *)
Example shutdown_after_close :
  after [OEstablish; OCall false CShutdown; OEvent POLLHUP (λ _ _, inl 0); ONext; ONext; ONext]
    (λ s, shut_wr s && (zlen (accepted s) =? 5) && (zlen (written s) =? 3) && negb (in_map s)) = true.
Proof. vm_compute. reflexivity. Qed.

Lemma TcpConnection_output_stuck_witness :
  ∃ s s', sample_run [OEstablish] = Ok (tt, s) ∧ mapM_ sample_op [OCall true (CSend hello); OEvent 4 (λ _ _, inl 11)] s = Ok (tt, s') ∧
    zlen (written s) = 3 ∧ written s' = written s.
Proof.
  destruct (sample_run_reachable [OEstablish]) as (s & E & Hr); [vm_compute; reflexivity|].
  set (ops := [OCall true (CSend hello); OEvent 4 (λ _ _, inl 11)]).
  assert (after [OEstablish] (λ s, match mapM_ sample_op ops s with
      | Ok (_, s') => (zlen (written s) =? 3) && (zlen (accepted s') =? 10) && negb (zlen (content (outputBuffer_ s)) =? 0)
      | _ => false end) = true) as Ha by (vm_compute; reflexivity).
  apply (after_run _ _ s) in Ha; [|exact E]. cbv beta in Ha.
  destruct (mapM_ sample_op ops s) as [[[] s']|] eqn:E'; [|discriminate Ha].
  rewrite !andb_true_iff, negb_true_iff, !Z.eqb_eq, Z.eqb_neq in Ha. destruct Ha as [[H3 H10] Hne].
  exists s, s'. split; [exact E|]. split; [exact E'|]. split; [exact H3|].
  apply (TcpConnection_output_stuck write3 greet echo [] (λ _, []) write3_bounded s s' Hr).
  - intros X. rewrite X in Hne. apply Hne. reflexivity.
  - by apply (mapM_steps ops).
  - unfold fits. rewrite H10. vm_compute. discriminate.
Defined.

Lemma TcpConnection_send_witness :
  ∃ s s', sample_run [OEstablish] = Ok (tt, s) ∧ sendInLoop write3 hello s = Ok (tt, s') ∧
    content (outputBuffer_ s') = content (outputBuffer_ s) ++ drop (Z.to_nat (direct write3 hello s)) hello.
Proof.
  destruct (sample_run_reachable [OEstablish]) as (s & E & Hr); [vm_compute; reflexivity|].
  assert (zlen (accepted s) = 5) as H5.
  { apply Z.eqb_eq. apply (after_run _ (λ s, zlen (accepted s) =? 5) s) in E; [exact E|vm_compute; reflexivity]. }
  destruct (TcpConnection_send write3 greet echo [] (λ _, []) write3_bounded hello s Hr)
    as (s' & Es & _ & _ & Ho & _); [rewrite H5; vm_compute; discriminate|].
  exists s, s'. split; [exact E|]. split; [exact Es|exact Ho].
Defined.

Lemma TcpConnection_life_witness :
  ∃ s, sample_run [OEstablish; OCall true CForceClose; ONext; ONext; ONext] = Ok (tt, s) ∧
    conn_events s = [true; false] ∧ destroys s = 0%nat.
Proof.
  destruct (sample_run_reachable [OEstablish; OCall true CForceClose; ONext; ONext; ONext]) as (s & E & Hr);
    [vm_compute; reflexivity|].
  assert (state_ s = kDisconnected) as Hs.
  { apply (bool_decide_eq_true (state_ s = kDisconnected)). apply (after_run _ (λ s, bool_decide (state_ s = kDisconnected)) s) in E;
      [exact E|vm_compute; reflexivity]. }
  destruct (TcpConnection_life write3 greet echo [] (λ _, []) s s Hr (rtc_refl _ _)) as (_ & He & Hd & Hm & _).
  exists s. split; [exact E|]. rewrite He, Hd, (Hm Hs), Hs. split; reflexivity.
Defined.

Lemma TcpConnection_forceClose_twice_witness :
  ∃ s, sample_run [OEstablish; ONext] = Ok (tt, s) ∧
    mapM_ sample_op [OCall true CForceClose; OCall true CForceClose; ONext; ONext] s = Fault AssertFail.
Proof.
  destruct (sample_run_reachable [OEstablish; ONext]) as (s & E & Hr); [vm_compute; reflexivity|].
  assert (after [OEstablish; ONext] (λ s, bool_decide (state_ s = kConnected) && Nat.eqb (length (functors s)) 0) = true)
    as Ha by (vm_compute; reflexivity).
  apply (after_run _ _ s) in Ha; [|exact E]. cbv beta in Ha.
  rewrite andb_true_iff, bool_decide_eq_true, Nat.eqb_eq in Ha. destruct Ha as [Hs Hf].
  exists s. split; [exact E|].
  apply (TcpConnection_forceClose_twice write3 greet echo [] (λ _, []) s Hr); [left; exact Hs|].
  destruct (functors s); [reflexivity|discriminate Hf].
Defined.
