(* ===== verification/TcpPair.v ===== *)
(** Two connections that talk to each other: what one user sends is what the other retrieves.
    The network between them is what has been written and not yet read. *)
From S2P Require Import Prelude Buffer Channel TcpConnection TcpProps.
Open Scope list_scope.

Abbreviation input s := (content (inputBuffer_ s)).

(** The memory there is for a read. *)
Definition input_ok (s : TcpConnection) : Prop :=
  wf (inputBuffer_ s) ∧ kCheapPrepend <= zlen (buffer_ (inputBuffer_ s)).
Definition room (s : TcpConnection) : Prop := zlen (buffer_ (inputBuffer_ s)) + extrabuf_size <= max_size.

Section connection.
Context (write : nat -> list byte -> Z + Z).
Context (onConnection : bool -> list Call) (onMessage : list byte -> Z * list Call).
Context (onWriteComplete : list Call) (onHighWaterMark : Z -> list Call).

Abbreviation close := (removeConnection true).
Abbreviation do_op := (do_op write onConnection onMessage onWriteComplete onHighWaterMark close).

(** * What is written stays written *)

Definition wrote : relation TcpConnection := λ s s', written s `prefix_of` written s'.

#[export] Instance wrote_PreOrder : PreOrder wrote.
Proof. unfold wrote. split; [by intros s|intros x y z; by etrans]. Qed.

Ltac wrote_steps := repeat mono_step; try (intros; unfold wrote; simpl; first [done | by apply prefix_app_r]).

Lemma sendInLoop_wrote m : mono wrote (sendInLoop write m).
Proof. unfold sendInLoop, sys_write, on_output, on_channel, queueInLoop. wrote_steps. Qed.

Lemma call_wrote inLoop c : mono wrote (call write inLoop c).
Proof.
  destruct c; simpl; unfold send, shutdown, shutdownInLoop, forceClose, queueInLoop; wrote_steps.
  apply sendInLoop_wrote.
Qed.

Lemma handleClose_wrote : mono wrote (handleClose close).
Proof. unfold handleClose, removeConnection, removeConnectionInLoop, on_channel, queueInLoop. wrote_steps. Qed.

Lemma tell_wrote e cs : mono wrote (tell write e cs).
Proof. unfold tell. wrote_steps. apply call_wrote. Qed.

Lemma run_functor_wrote f : mono wrote (run_functor write onConnection onWriteComplete onHighWaterMark close f).
Proof.
  destruct f; simpl; unfold shutdownInLoop, forceCloseInLoop, removeConnectionInLoop, queueInLoop, connectDestroyed, on_channel, channel_remove; wrote_steps;
    first [apply sendInLoop_wrote | apply handleClose_wrote | apply tell_wrote].
Qed.

Lemma run_callback_wrote readv cb : mono wrote (run_callback write onMessage close readv cb).
Proof.
  destruct cb; simpl; unfold handleError; [apply handleClose_wrote|wrote_steps| |].
  - unfold handleRead, handleError. apply mono_bind; [apply _|wrote_steps|intros s].
    destruct (readFd _ _ _) as [[[n e] b]|]; [|apply mono_fail]. wrote_steps; [apply call_wrote|apply handleClose_wrote].
  - unfold handleWrite, sys_write, on_output, on_channel, queueInLoop, shutdownInLoop. wrote_steps.
Qed.

Lemma do_op_wrote o : mono wrote (do_op o).
Proof.
  destruct o; simpl.
  - unfold connectEstablished, on_channel. wrote_steps. apply tell_wrote.
  - apply call_wrote.
  - unfold handle_event. wrote_steps. apply run_callback_wrote.
  - unfold run_next. wrote_steps. apply run_functor_wrote.
Qed.

(** * Only a read changes the input buffer *)

Abbreviation keeps_input := (mono (same inputBuffer_)).
Ltac input_steps := repeat mono_step; try (intros; done).

Lemma sendInLoop_input m : keeps_input (sendInLoop write m).
Proof. unfold sendInLoop, sys_write, on_output, on_channel, queueInLoop. input_steps. Qed.

Lemma call_input inLoop c : keeps_input (call write inLoop c).
Proof.
  destruct c; simpl; unfold send, shutdown, shutdownInLoop, forceClose, queueInLoop; input_steps.
  apply sendInLoop_input.
Qed.

Lemma handleClose_input : keeps_input (handleClose close).
Proof. unfold handleClose, removeConnection, removeConnectionInLoop, on_channel, queueInLoop. input_steps. Qed.

Lemma tell_input e cs : keeps_input (tell write e cs).
Proof. unfold tell. input_steps. apply call_input. Qed.

Lemma run_functor_input f : keeps_input (run_functor write onConnection onWriteComplete onHighWaterMark close f).
Proof.
  destruct f; simpl; unfold shutdownInLoop, forceCloseInLoop, removeConnectionInLoop, queueInLoop, connectDestroyed, on_channel, channel_remove; input_steps;
    first [apply sendInLoop_input | apply handleClose_input | apply tell_input].
Qed.

Lemma connectEstablished_input : keeps_input (connectEstablished write onConnection).
Proof. unfold connectEstablished, on_channel. input_steps. apply tell_input. Qed.

Lemma run_next_input : keeps_input (run_next write onConnection onWriteComplete onHighWaterMark close).
Proof. unfold run_next. input_steps. apply run_functor_input. Qed.

Lemma run_callback_input readv cb :
  cb ≠ CbRead ∨ (∃ e, ∀ fd lens, readv fd lens = inl e) -> keeps_input (run_callback write onMessage close readv cb).
Proof.
  intros Hcb. destruct cb; simpl; unfold handleError; [apply handleClose_input|input_steps| |].
  - destruct Hcb as [|[e He]]; [done|]. intros s u s' E. unfold handleRead in E.
    rewrite (bind_Ok _ _ s s s) in E by done. unfold readFd in E. cbn zeta in E.
    rewrite (bind_Ok _ _ (inputBuffer_ s) (inputBuffer_ s) (inputBuffer_ s)) in E by done.
    rewrite He in E. injection E as _ <-. done.
  - unfold handleWrite, sys_write, on_output, on_channel, queueInLoop, shutdownInLoop. input_steps.
Qed.

(** What an event's callbacks are. *)
Definition dispatched (r : Z) (s : TcpConnection) : list Callback := (handleEvent (set_revents r (channel_ s))).1.

(** An operation that reads nothing. *)
Definition quiet (o : Op) (s : TcpConnection) : Prop :=
  match o with
  | OEvent r readv => CbRead ∉ dispatched r s ∨ ∃ e, ∀ fd lens, readv fd lens = inl e
  | _ => True
  end.

Lemma quiet_input o s u s' : quiet o s -> do_op o s = Ok (u, s') -> inputBuffer_ s' = inputBuffer_ s.
Proof.
  intros Hq. change (do_op o s = Ok (u, s') -> same inputBuffer_ s s'). destruct o; simpl in *.
  - apply connectEstablished_input.
  - apply call_input.
  - intros E. rewrite (bind_Ok _ _ s s s) in E by done. unfold when in E.
    destruct (negb _); [|by injection E as _ <-]. unfold handle_event in E.
    rewrite (bind_Ok _ _ s tt (set_chan (set_revents revents (channel_ s)) s)) in E by done.
    rewrite (bind_Ok _ _ _ (set_chan (set_revents revents (channel_ s)) s) (set_chan (set_revents revents (channel_ s)) s)) in E by done.
    change (same inputBuffer_ (set_chan (set_revents revents (channel_ s)) s) s').
    eapply (mono_mapM_in (same inputBuffer_)); [|exact E]. intros cb Hcb. apply run_callback_input.
    destruct Hq as [Hq|Hq]; [left; by intros ->|by right].
  - apply run_next_input.
Qed.

(** * A read *)

(** The kernel's answer that delivers [d], if it fits, and what the buffer offers it. *)
Definition answers (d : list byte) (fd : Z) (lens : list Z) : Z + list byte :=
  if zlen d <=? foldr Z.add 0 lens then inr d else inl 22.
Definition offered (b : Buffer) : list Z :=
  if writableBytes b <? extrabuf_size then [writableBytes b; extrabuf_size] else [writableBytes b].

(** What the user retrieves when [d] has come in; [d] is empty at the end of the stream. *)
Definition retrieved (s : TcpConnection) (d : list byte) : list byte :=
  match d with [] => [] | _ => take (Z.to_nat (onMessage (input s ++ d)).1) (input s ++ d) end.

Context (onMessage_size : ∀ m, 0 <= (onMessage m).1).

Lemma answers_bounded d : readv_bounded (answers d).
Proof. intros fd lens d'. unfold answers. destruct (Z.leb_spec (zlen d) (foldr Z.add 0 lens)); [by intros [= <-]|done]. Qed.

Lemma handleRead_input d s u s' :
  input_ok s -> room s -> zlen d <= foldr Z.add 0 (offered (inputBuffer_ s)) ->
  handleRead write onMessage close (answers d) s = Ok (u, s') ->
  input_ok s' ∧ input s ++ d = retrieved s d ++ input s'.
Proof.
  intros [Hwf Hk] Hroom Hd E. unfold handleRead in E. rewrite (bind_Ok _ _ s s s) in E by done.
  destruct (readFd_spec (answers d) (fd_ (channel_ s)) (inputBuffer_ s) d (answers_bounded d) Hwf Hroom)
    as (b & Eb & Hwfb & Hcb & Hsz).
  { unfold answers. fold (offered (inputBuffer_ s)). by rewrite (proj2 (Z.leb_le _ _) Hd). }
  rewrite Eb in E. set (s1 := set_input b s) in *. rewrite (bind_Ok _ _ s tt s1) in E by done.
  assert (input_ok s1) as Hok1 by (split; [done|simpl; lia]).
  destruct d as [|x d].
  { change (0 <? zlen []) with false in E. change (zlen [] =? 0) with true in E. cbv iota in E.
    apply handleClose_input in E. unfold same in E. unfold input_ok. rewrite E. split; [exact Hok1|]. simpl. by rewrite Hcb. }
  rewrite (proj2 (Z.ltb_lt 0 (zlen (x :: d)))) in E by (simpl; lia). rewrite Hcb in E.
  pose proof (onMessage_size (input s ++ x :: d)) as Hpos. unfold retrieved.
  destruct (onMessage (input s ++ x :: d)) as [k cs]. simpl in Hpos |- *.
  set (s2 := add_event (UMessage (input s ++ x :: d)) s1) in *. rewrite (bind_Ok _ _ s1 tt s2) in E by done.
  apply bind_inv in E as (v & s3 & E3 & E). unfold zoom in E3. change (inputBuffer_ s2) with b in E3.
  destruct (retrieve k b) as [[v' b3]|] eqn:Er; [|done]. injection E3 as _ <-.
  assert (k <= readableBytes b) as Hle.
  { unfold retrieve in Er. rewrite (bind_Ok _ _ b b b) in Er by done. apply bind_inv in Er as (? & ? & [Ha _]%assert_inv & _). lia. }
  destruct (retrieve_spec b k Hwfb ltac:(lia) ltac:(lia)) as (b4 & Er' & Hwf4 & Hc4 & _ & Hb4).
  rewrite Er in Er'. injection Er' as _ ->.
  assert (same inputBuffer_ (set_input b4 s2) s') as Hs.
  { eapply (mono_mapM (same inputBuffer_)); [|exact E]. intros c. apply call_input. }
  unfold same in Hs. unfold input_ok. rewrite Hs. cbn [inputBuffer_ set_input]. rewrite Hb4, Hc4, Hcb, take_drop.
  split; [split; [done|lia]|done].
Qed.

Lemma read_input r d s u s' :
  isNoneEvent (channel_ s) = false -> dispatched r s = [CbRead] ->
  input_ok s -> room s -> zlen d <= foldr Z.add 0 (offered (inputBuffer_ s)) ->
  do_op (OEvent r (answers d)) s = Ok (u, s') -> input_ok s' ∧ input s ++ d = retrieved s d ++ input s'.
Proof.
  intros Hn Hr Hok Hroom Hd E. simpl in E. rewrite (bind_Ok _ _ s s s) in E by done. unfold when in E. rewrite Hn in E.
  unfold handle_event in E. set (s1 := set_chan (set_revents r (channel_ s)) s) in *. simpl in E.
  rewrite (bind_Ok _ _ s tt s1), (bind_Ok _ _ s1 s1 s1) in E by done.
  change ((handleEvent (channel_ s1)).1) with (dispatched r s) in E. rewrite Hr in E. cbn [mapM_ run_callback] in E.
  apply bind_inv in E as ([] & s2 & E & E2). injection E2 as _ <-.
  by apply (handleRead_input d s1 tt s2 Hok Hroom Hd).
Qed.
End connection.

(** With the default message callback every message that arrives is dropped: the input buffer is
    empty after each read. *)
Lemma default_callback_drops write close d s :
  input_ok s -> room s -> 0 < zlen d <= foldr Z.add 0 (offered (inputBuffer_ s)) ->
  ∃ s', handleRead write defaultMessageCallback close (answers d) s = Ok (tt, s') ∧
    input s' = [] ∧ input_ok s' ∧ state_ s' = state_ s ∧ functors s' = functors s.
Proof.
  intros [Hwf Hk] Hroom Hd. unfold handleRead. rewrite (bind_Ok _ _ s s s) by done.
  destruct (readFd_spec (answers d) (fd_ (channel_ s)) (inputBuffer_ s) d (answers_bounded d) Hwf Hroom)
    as (b & Eb & Hwfb & Hcb & Hsz).
  { unfold answers. fold (offered (inputBuffer_ s)). by rewrite (proj2 (Z.leb_le _ _) (proj2 Hd)). }
  rewrite Eb, (bind_Ok _ _ s tt (set_input b s)) by done. rewrite (proj2 (Z.ltb_lt 0 _)) by lia. cbn [defaultMessageCallback].
  set (s2 := add_event (UMessage (content b)) (set_input b s)). rewrite (bind_Ok _ _ _ tt s2) by done.
  pose proof (zlen_content _ Hwfb) as Hz.
  destruct (retrieve_spec b (zlen (content b)) Hwfb ltac:(lia) ltac:(lia)) as (b' & E & Hwf' & Hc & _ & Hb).
  exists (set_input b' s2). split.
  - rewrite (bind_Ok _ _ s2 tt (set_input b' s2)); [done|]. unfold zoom. change (inputBuffer_ s2) with b. by rewrite E.
  - cbn [inputBuffer_ set_input]. split; [by rewrite Hc, drop_ge by lia|]. split; [|done]. split; [done|]. simpl. rewrite Hb. lia.
Qed.

(** * Two connections *)

(** What [write] answers on a side, and what its user does. *)
Record User := mkUser {
  write : nat -> list byte -> Z + Z;
  onConnection : bool -> list Call;
  onMessage : list byte -> Z * list Call;
  onWriteComplete : list Call;
  onHighWaterMark : Z -> list Call }.

Definition user_op (U : User) : Op -> M TcpConnection unit :=
  TcpConnection.do_op (write U) (onConnection U) (onMessage U) (onWriteComplete U) (onHighWaterMark U) (removeConnection true).

(** [write] takes at most what it is given, and a callback retrieves a [size_t]. *)
Record sane_user (U : User) : Prop := {
  su_write : ∀ n d k, write U n d = inr k -> 0 <= k <= zlen d;
  su_message : ∀ m, 0 <= (onMessage U m).1 }.

(** A connection and what its user has retrieved so far. *)
Record Side := mkSide { conn : TcpConnection; taken : list byte }.
Definition Pair : Type := Side * Side.

Definition side (b : bool) (p : Pair) : Side := if b then p.1 else p.2.
Definition set_side (b : bool) (x : Side) (p : Pair) : Pair := if b then (x, p.2) else (p.1, x).

Lemma side_same b x p : side b (set_side b x p) = x.
Proof. by destruct b. Qed.
Lemma side_other b x p : side (negb b) (set_side b x p) = side (negb b) p.
Proof. by destruct b. Qed.

Section pair.
Context (U : bool -> User) (HU : ∀ b, sane_user (U b)).

(** [d] are the next bytes on their way to side [b], and [flight] those behind them. *)
Definition on_the_way (b : bool) (p : Pair) (d flight : list byte) : Prop :=
  written (conn (side (negb b) p)) = taken (side b p) ++ input (conn (side b p)) ++ d ++ flight.

(** Either side does anything that reads nothing, or its channel finds it readable and it reads
    some of what is on the way (or the end of the stream, or of the connection). *)
Inductive pstep (p : Pair) : Pair -> Prop :=
| pstep_quiet b o c' :
    quiet o (conn (side b p)) -> user_op (U b) o (conn (side b p)) = Ok (tt, c') ->
    pstep p (set_side b (mkSide c' (taken (side b p))) p)
| pstep_read b r d flight c' :
    let s := conn (side b p) in
    on_the_way b p d flight -> isNoneEvent (channel_ s) = false -> dispatched r s = [CbRead] ->
    room s -> zlen d <= foldr Z.add 0 (offered (inputBuffer_ s)) ->
    user_op (U b) (OEvent r (answers d)) s = Ok (tt, c') ->
    pstep p (set_side b (mkSide c' (taken (side b p) ++ retrieved (onMessage (U b)) s d)) p).

(** Two new connections. *)
Definition new_side (c : TcpConnection) : Prop := ∃ fd g wc hw, configured fd g wc hw = Ok c.
Definition preachable (p : Pair) : Prop :=
  ∃ c1 c2, new_side c1 ∧ new_side c2 ∧ rtc pstep (mkSide c1 [], mkSide c2 []) p.

Record pair_inv (p : Pair) : Prop := {
  pi_reach b : creachable (write (U b)) (onConnection (U b)) (onMessage (U b)) (onWriteComplete (U b))
                 (onHighWaterMark (U b)) (conn (side b p));
  pi_input b : input_ok (conn (side b p));
  pi_flight b : ∃ flight, on_the_way b p [] flight }.

Lemma creachable_op b o c c' :
  creachable (write (U b)) (onConnection (U b)) (onMessage (U b)) (onWriteComplete (U b)) (onHighWaterMark (U b)) c ->
  user_op (U b) o c = Ok (tt, c') ->
  creachable (write (U b)) (onConnection (U b)) (onMessage (U b)) (onWriteComplete (U b)) (onHighWaterMark (U b)) c'.
Proof.
  intros (fd & g & wc & hw & s0 & E & Hr) Eo. exists fd, g, wc, hw, s0. split; [done|].
  eapply rtc_r; [exact Hr|]. by exists o.
Qed.

(** A side's step, from what it does to its own stream in and out. *)
Lemma pair_inv_step p b o c' tk :
  pair_inv p -> user_op (U b) o (conn (side b p)) = Ok (tt, c') -> input_ok c' ->
  (∃ flight, written (conn (side (negb b) p)) = tk ++ input c' ++ flight) ->
  pair_inv (set_side b (mkSide c' tk) p).
Proof.
  intros [Hr Hi Hf] E Hok Hin. pose proof (do_op_wrote _ _ _ _ _ _ _ _ _ E) as [more Hw]. split.
  - intros b'. destruct (decide (b' = b)) as [->|Hne].
    + rewrite side_same. by apply (creachable_op b o (conn (side b p))).
    + replace b' with (negb b) by (by destruct b, b'). rewrite side_other. apply Hr.
  - intros b'. destruct (decide (b' = b)) as [->|Hne]; [by rewrite side_same|].
    replace b' with (negb b) by (by destruct b, b'). rewrite side_other. apply Hi.
  - intros b'. unfold on_the_way. destruct (decide (b' = b)) as [->|Hne].
    + rewrite side_same, side_other. exact Hin.
    + replace b' with (negb b) by (by destruct b, b'). rewrite negb_involutive, side_same, side_other.
      destruct (Hf (negb b)) as [fl Hfl]. unfold on_the_way in Hfl. rewrite negb_involutive in Hfl.
      exists (fl ++ more). cbn [conn]. rewrite Hw, Hfl. simpl. by rewrite <- !app_assoc.
Qed.

Lemma pstep_inv p p' : pair_inv p -> pstep p p' -> pair_inv p'.
Proof.
  intros Hi Hs. destruct Hs as [b o c' Hq E|b r d flight c' s Hway Hn Hr Hroom Hd E].
  - pose proof (quiet_input _ _ _ _ _ _ _ _ _ Hq E) as Heq. eapply pair_inv_step; [exact Hi|exact E|..].
    + unfold input_ok. rewrite Heq. apply (pi_input _ Hi).
    + rewrite Heq. destruct (pi_flight _ Hi b) as [fl Hfl]. exists fl. exact Hfl.
  - destruct (read_input (write (U b)) (onConnection (U b)) (onMessage (U b)) (onWriteComplete (U b)) (onHighWaterMark (U b))
                (su_message _ (HU b)) r d s tt c' Hn Hr (pi_input _ Hi b) Hroom Hd E) as [Hok Hin].
    eapply pair_inv_step; [exact Hi|exact E|exact Hok|]. exists flight. unfold on_the_way in Hway. rewrite Hway.
    rewrite <- app_assoc. f_equal. rewrite !app_assoc. f_equal. exact Hin.
Qed.

Lemma new_side_inv c1 c2 : new_side c1 -> new_side c2 -> pair_inv (mkSide c1 [], mkSide c2 []).
Proof.
  intros H1 H2.
  assert (∀ c, new_side c -> input_ok c ∧ input c = [] ∧ written c = []) as Hnew.
  { intros c (fd & g & wc & hw & E). unfold configured, new_TcpConnection in E.
    destruct (new_Buffer_spec kInitialSize ltac:(done) ltac:(done)) as (b & Eb & Hwf & Hc & _ & Hsz). rewrite Eb in E.
    injection E as <-. unfold input_ok. destruct wc, hw; simpl; (split; [split; [done|unfold kCheapPrepend, kInitialSize in *; lia]|done]). }
  assert (∀ b c, new_side c -> creachable (write (U b)) (onConnection (U b)) (onMessage (U b)) (onWriteComplete (U b)) (onHighWaterMark (U b)) c) as Hreach.
  { intros b c (fd & g & wc & hw & E). exists fd, g, wc, hw, c. split; [done|constructor]. }
  destruct (Hnew c1 H1) as (I1 & E1 & W1), (Hnew c2 H2) as (I2 & E2 & W2).
  split; intros []; simpl; auto; exists []; unfold on_the_way; simpl; rewrite ?E1, ?E2, ?W1, ?W2; done.
Qed.

(** C4: Between two users nothing is lost, duplicated or reordered.  However the two
    connections run - calls, callbacks, partial writes, reads of any size, errors, closing -
    every byte that reached one side's [sendInLoop] is in exactly one place, in order: retrieved
    by the other side's user, in that side's input buffer, on its way, or in the sender's output
    buffer. *)
Theorem tcp_pair p b :
  preachable p -> fits (conn (side (negb b) p)) ->
  ∃ flight, accepted (conn (side (negb b) p)) =
    taken (side b p) ++ input (conn (side b p)) ++ flight ++ content (outputBuffer_ (conn (side (negb b) p))).
Proof.
  intros (c1 & c2 & H1 & H2 & Hr) Hfit.
  assert (pair_inv p) as Hi by (eapply rtc_invariant; [apply pstep_inv|by apply (new_side_inv c1 c2)|exact Hr]).
  destruct (pi_flight _ Hi b) as [fl Hfl]. exists fl. unfold on_the_way in Hfl.
  destruct (reachable_bytes _ _ _ _ _ (su_write _ (HU (negb b))) _ (pi_reach _ Hi (negb b)) Hfit) as [_ _ Hb _ _ _].
  rewrite Hb, Hfl. simpl. by rewrite <- !app_assoc.
Qed.
End pair.

(** * A run of two connections *)

(** The left user greets, the right one echoes; [write] takes three bytes at a time. *)
Definition sample_user (b : bool) : User :=
  if b then mkUser write3 greet (λ m, (zlen m, [])) [] (λ _, [])
  else mkUser write3 (λ _, []) echo [] (λ _, []).

Lemma sample_user_sane b : sane_user (sample_user b).
Proof. destruct b; split; simpl; try apply write3_bounded; intros; lia. Qed.

Inductive PairEvent := PQuiet (b : bool) (o : Op) | PRead (b : bool) (r : Z) (d : list byte).

Definition pair_event (ev : PairEvent) (p : Pair) : option Pair :=
  match ev with
  | PQuiet b (OEvent _ _) => None
  | PQuiet b o =>
      match user_op (sample_user b) o (conn (side b p)) with
      | Ok (_, c) => Some (set_side b (mkSide c (taken (side b p))) p)
      | Fault _ => None
      end
  | PRead b r d =>
      let s := conn (side b p) in
      let sofar := taken (side b p) ++ input s ++ d in
      if decide (take (length sofar) (written (conn (side (negb b) p))) = sofar) then
        if decide (isNoneEvent (channel_ s) = false ∧ dispatched r s = [CbRead]) then
          if (zlen (buffer_ (inputBuffer_ s)) + extrabuf_size <=? max_size)
             && (zlen d <=? foldr Z.add 0 (offered (inputBuffer_ s))) then
            match user_op (sample_user b) (OEvent r (answers d)) s with
            | Ok (_, c) => Some (set_side b (mkSide c (taken (side b p) ++ retrieved (onMessage (sample_user b)) s d)) p)
            | Fault _ => None
            end
          else None
        else None
      else None
  end.

Fixpoint pair_run (evs : list PairEvent) (p : Pair) : option Pair :=
  match evs with
  | [] => Some p
  | ev :: evs' => p' ← pair_event ev p; pair_run evs' p'
  end.

Lemma pair_event_step ev p p' : pair_event ev p = Some p' -> pstep sample_user p p'.
Proof.
  destruct ev as [b o|b r d]; cbn [pair_event]; cbn zeta.
  - intros E. assert (quiet o (conn (side b p)) ∧ ∃ u c, user_op (sample_user b) o (conn (side b p)) = Ok (u, c) ∧
      p' = set_side b (mkSide c (taken (side b p))) p) as (Hq & [] & c & Eo & ->).
    { destruct o; try done; (split; [done|]); destruct (user_op _ _ _) as [[u c0]|]; simplify_eq; eauto. }
    by apply (pstep_quiet _ p b o c).
  - case_decide as Hw; [|done]. case_decide as Hc; [|done]. destruct Hc as [Hn Hd].
    destruct (_ && _) eqn:Hb; [|done]. apply andb_true_iff in Hb as [Hb1%Z.leb_le Hb2%Z.leb_le].
    destruct (user_op _ _ _) as [[[] c]|] eqn:Eo; [|done]. intros [= <-].
    apply (pstep_read _ p b r d (drop (length (taken (side b p) ++ input (conn (side b p)) ++ d)) (written (conn (side (negb b) p)))) c); try done.
    unfold on_the_way. rewrite <- (take_drop (length (taken (side b p) ++ input (conn (side b p)) ++ d)) (written _)) at 1.
    rewrite Hw. by rewrite <- !app_assoc.
Qed.

Lemma pair_run_steps evs p p' : pair_run evs p = Some p' -> rtc (pstep sample_user) p p'.
Proof.
  revert p; induction evs as [|ev evs IH]; intros p E; simpl in E; [injection E as <-; constructor|].
  destruct (pair_event ev p) as [p1|] eqn:E1; [|done]. econstructor; [by eapply pair_event_step|by apply IH].
Qed.

(** The right side reads two of the three bytes that the left one's [write] has taken. *)
Definition sample_events : list PairEvent :=
  [PQuiet true OEstablish; PQuiet false OEstablish; PRead false POLLIN [x68; x65]].

Definition sample_pair : option Pair :=
  match configured 7 0 true None, configured 8 0 false None with
  | Ok c1, Ok c2 => pair_run sample_events (mkSide c1 [], mkSide c2 [])
  | _, _ => None
  end.

Lemma sample_pair_runs :
  match sample_pair with
  | Some p => bool_decide (taken p.2 = [x68; x65]) && (zlen (accepted (conn p.1)) =? 5)
  | None => false
  end = true.
Proof. vm_compute. reflexivity. Qed.

Lemma sample_pair_reachable p : sample_pair = Some p -> preachable sample_user p.
Proof.
  unfold sample_pair. destruct (configured 7 0 true None) as [c1|] eqn:E1; [|done].
  destruct (configured 8 0 false None) as [c2|] eqn:E2; [|done]. intros E. exists c1, c2.
  split; [exists 7, 0, true, None; exact E1|]. split; [exists 8, 0, false, None; exact E2|].
  exact (pair_run_steps _ _ _ E).
Qed.

Lemma tcp_pair_witness :
  ∃ p flight, sample_pair = Some p ∧ taken p.2 = [x68; x65] ∧
    accepted (conn p.1) = taken p.2 ++ input (conn p.2) ++ flight ++ content (outputBuffer_ (conn p.1)).
Proof.
  pose proof sample_pair_runs as Hc.
  destruct sample_pair as [p|] eqn:E; [|discriminate Hc]. apply andb_true_iff in Hc as [Ht%bool_decide_eq_true Ha%Z.eqb_eq].
  destruct (tcp_pair sample_user sample_user_sane p false (sample_pair_reachable p E)) as [flight Hf].
  { unfold fits. cbn [side negb]. rewrite Ha. vm_compute. discriminate. }
  exists p, flight. split; [done|]. split; [exact Ht|exact Hf].
Defined.
