(* ===== verification/Connector.v ===== *)
(** Connecting to a server: [PracticeMuduo/tcp.muduo/Connector.cpp].  The kernel's answers
    are arguments; sockets are numbered as they are created and every [close] is
    recorded; functors and retry timers wait in queues. *)
From S2P Require Import Prelude Channel.
Open Scope list_scope.

Definition kMaxRetryDelayMs : Z := 30 * 1000.
Definition kInitRetryDelayMs : Z := 500.

Inductive States := kDisconnected | kConnecting | kConnected.

#[export] Instance States_eq_dec : EqDecision States.
Proof. solve_decision. Defined.

Inductive Functor := FStartInLoop | FStopInLoop | FResetChannel.

(** [sockfd_] is not initialised.  [created] numbers the sockets; [closed] and
    [handed_over] (to [newConnectionCallback_]) are histories; [timers] are the delays of
    the retry timers that have not fired, [delays] those of all that were set since the
    last [restart()]. *)
Record Connector := mkConnector {
  connect_ : bool;
  state_ : States;
  sockfd_ : Z;
  channel_ : option Channel;
  retryDelayMs_ : Z;
  functors : list Functor;
  timers : list Z;
  created : Z;
  closed : list Z;
  handed_over : list Z;
  delays : list Z }.

Definition new_Connector (garbage : Z) : Connector :=
  mkConnector false kDisconnected garbage None kInitRetryDelayMs [] [] 0 [] [] [].

Abbreviation C := Connector.

Definition set_connect (b : bool) (s : C) : C :=
  mkConnector b (state_ s) (sockfd_ s) (channel_ s) (retryDelayMs_ s) (functors s) (timers s) (created s)
    (closed s) (handed_over s) (delays s).
Definition setState (x : States) (s : C) : C :=
  mkConnector (connect_ s) x (sockfd_ s) (channel_ s) (retryDelayMs_ s) (functors s) (timers s) (created s)
    (closed s) (handed_over s) (delays s).
Definition set_channel (x : option Channel) (s : C) : C :=
  mkConnector (connect_ s) (state_ s) (sockfd_ s) x (retryDelayMs_ s) (functors s) (timers s) (created s)
    (closed s) (handed_over s) (delays s).
Definition set_functors (l : list Functor) (s : C) : C :=
  mkConnector (connect_ s) (state_ s) (sockfd_ s) (channel_ s) (retryDelayMs_ s) l (timers s) (created s)
    (closed s) (handed_over s) (delays s).
Definition set_timers (l : list Z) (s : C) : C :=
  mkConnector (connect_ s) (state_ s) (sockfd_ s) (channel_ s) (retryDelayMs_ s) (functors s) l (created s)
    (closed s) (handed_over s) (delays s).
Definition reset_delay (s : C) : C :=
  mkConnector (connect_ s) (state_ s) (sockfd_ s) (channel_ s) kInitRetryDelayMs (functors s) (timers s) (created s)
    (closed s) (handed_over s) [].
(** [sockfd_ = sockets::createNonblockingOrDie(...)] *)
Definition create_socket (s : C) : C :=
  mkConnector (connect_ s) (state_ s) (created s) (channel_ s) (retryDelayMs_ s) (functors s) (timers s) (created s + 1)
    (closed s) (handed_over s) (delays s).
(** [sockets::close(sockfd_)] *)
Definition close_socket (s : C) : C :=
  mkConnector (connect_ s) (state_ s) (sockfd_ s) (channel_ s) (retryDelayMs_ s) (functors s) (timers s) (created s)
    (closed s ++ [sockfd_ s]) (handed_over s) (delays s).
(** [newConnectionCallback_(sockfd_)] *)
Definition hand_over (s : C) : C :=
  mkConnector (connect_ s) (state_ s) (sockfd_ s) (channel_ s) (retryDelayMs_ s) (functors s) (timers s) (created s)
    (closed s) (handed_over s ++ [sockfd_ s]) (delays s).
(** [loop_->runAfter(retryDelayMs_ / 1000.0, ...)], then the delay is doubled. *)
Definition set_retry_timer (s : C) : C :=
  mkConnector (connect_ s) (state_ s) (sockfd_ s) (channel_ s) (Z.min (s32 (retryDelayMs_ s * 2)) kMaxRetryDelayMs)
    (functors s) (timers s ++ [retryDelayMs_ s]) (created s) (closed s) (handed_over s) (delays s ++ [retryDelayMs_ s]).

Definition queueInLoop (f : Functor) : M C unit := modify (λ s, set_functors (functors s ++ [f]) s).

(** [channel_->...] *)
Definition on_channel (f : Channel -> Channel) : M C unit :=
  s ← get; c ← of_option UB (channel_ s); modify (set_channel (Some (f c))).

(** * The methods *)

Definition retry : M C unit :=
  modify close_socket ;;
  modify (setState kDisconnected) ;;
  s ← get;
  when (connect_ s) (modify set_retry_timer).

Definition connecting : M C unit :=
  modify (setState kConnecting) ;;
  s ← get;
  assert (bool_decide (channel_ s = None)) ;;
  modify (set_channel (Some (set_callback CbError (set_callback CbWrite (new_Channel (sockfd_ s)))))) ;;
  on_channel (λ c, set_added true (enableWriting c)).

Definition EINTR : Z := 4.
Definition EAGAIN : Z := 11.
Definition EADDRINUSE : Z := 98.
Definition EADDRNOTAVAIL : Z := 99.
Definition ENETUNREACH : Z := 101.
Definition EISCONN : Z := 106.
Definition ECONNREFUSED : Z := 111.
Definition EINPROGRESS : Z := 115.

(** [connect()], for the [errno] of the system call (0 if it succeeded). *)
Definition connect (savedErrno : Z) : M C unit :=
  modify create_socket ;;
  if bool_decide (savedErrno ∈ [0; EINPROGRESS; EINTR; EISCONN]) then connecting
  else if bool_decide (savedErrno ∈ [EAGAIN; EADDRINUSE; EADDRNOTAVAIL; ECONNREFUSED; ENETUNREACH]) then retry
  else modify close_socket.

Definition startInLoop (savedErrno : Z) : M C unit :=
  s ← get;
  assert (bool_decide (state_ s = kDisconnected)) ;;
  when (connect_ s) (connect savedErrno).

Definition start (inLoop : bool) (savedErrno : Z) : M C unit :=
  modify (set_connect true) ;;
  if inLoop then startInLoop savedErrno else queueInLoop FStartInLoop.

Definition removeAndResetChannel : M C unit :=
  on_channel (λ c, set_added true (disableAll c)) ;;
  s ← get;
  c ← of_option UB (channel_ s);
  assert (isNoneEvent c) ;;                    (* Channel::remove() *)
  on_channel (set_added false) ;;
  queueInLoop FResetChannel.

Definition resetChannel : M C unit := modify (set_channel None).

Definition stopInLoop : M C unit :=
  s ← get;
  when (bool_decide (state_ s = kConnecting))
    (modify (setState kDisconnected) ;; removeAndResetChannel ;; retry).

Definition stop : M C unit := modify (set_connect false) ;; queueInLoop FStopInLoop.

Definition restart (savedErrno : Z) : M C unit :=
  modify (setState kDisconnected) ;;
  modify reset_delay ;;
  modify (set_connect true) ;;
  startInLoop savedErrno.

(** [handleWrite()], for the socket's error and whether it is connected to itself. *)
Definition handleWrite (err : Z) (selfConnect : bool) : M C unit :=
  s ← get;
  if bool_decide (state_ s = kConnecting) then
    removeAndResetChannel ;;
    if negb (err =? 0) then retry
    else if selfConnect then retry
    else
      modify (setState kConnected) ;;
      s ← get;
      if connect_ s then modify hand_over else modify close_socket
  else assert (bool_decide (state_ s = kDisconnected)).

Definition handleError : M C unit :=
  s ← get;
  when (bool_decide (state_ s = kConnecting)) (removeAndResetChannel ;; retry).

(** [~Connector()] *)
Definition Connector_dtor : M C unit := s ← get; assert (bool_decide (channel_ s = None)).

Definition run_callback (err : Z) (selfConnect : bool) (cb : Callback) : M C unit :=
  match cb with
  | CbWrite => handleWrite err selfConnect
  | CbError => handleError
  | CbRead | CbClose => mret tt            (* not set *)
  end.

Definition run_functor (savedErrno : Z) (f : Functor) : M C unit :=
  match f with
  | FStartInLoop => startInLoop savedErrno
  | FStopInLoop => stopInLoop
  | FResetChannel => resetChannel
  end.

(** What happens to a connector.  The loop runs the pending functors before it polls
    again, and a retry timer is at least half a second long, so no timer fires
    while functors are pending. *)
Inductive Op :=
| OStart (inLoop : bool) (savedErrno : Z)
| OStop
| ORestart (savedErrno : Z)
| OEvent (revents err : Z) (selfConnect : bool)
| OTimer (savedErrno : Z)
| ONext (savedErrno : Z).

Definition do_op (o : Op) : M C unit :=
  match o with
  | OStart inLoop e => start inLoop e
  | OStop => stop
  | ORestart e => restart e
  | OEvent r e self =>
      s ← get;
      match channel_ s with
      | Some c => when (negb (isNoneEvent c))
            (on_channel (set_revents r) ;; mapM_ (run_callback e self) (handleEvent (set_revents r c)).1)
      | None => mret tt
      end
  | OTimer e =>
      s ← get;
      match timers s, functors s with
      | _ :: ts, [] => modify (set_timers ts) ;; startInLoop e
      | _, _ => mret tt
      end
  | ONext e =>
      s ← get;
      match functors s with
      | f :: fs => modify (set_functors fs) ;; run_functor e f
      | [] => mret tt
      end
  end.

(** * A connector that is started once *)

(** The [i]-th retry's delay. *)
Definition backoff (i : nat) : Z := Z.min (kInitRetryDelayMs * 2 ^ Z.of_nat i) kMaxRetryDelayMs.

Definition backoffs (n : nat) : list Z := map backoff (seq 0 n).

Definition connecting_channel (fd revents : Z) : Channel :=
  set_revents revents (set_added true (enableWriting (set_callback CbError (set_callback CbWrite (new_Channel fd))))).

(** The socket that is being connected. *)
Definition open (s : C) : list Z := if decide (state_ s = kConnecting) then [sockfd_ s] else [].

Definition idle_channel (o : option Channel) : Prop := match o with Some c => isNoneEvent c = true | None => True end.

(** Where a connector can be that was started once and never stopped. *)
Definition phase (s : C) : Prop :=
  match state_ s with
  | kConnecting => functors s = [] ∧ timers s = [] ∧ handed_over s = [] ∧
                   ∃ r, channel_ s = Some (connecting_channel (sockfd_ s) r)
  | kConnected => timers s = [] ∧ length (handed_over s) = 1%nat ∧ idle_channel (channel_ s) ∧
                  (functors s = [FResetChannel] ∨ functors s = [] ∧ channel_ s = None)
  | kDisconnected => handed_over s = [] ∧ idle_channel (channel_ s) ∧
      (functors s = [FStartInLoop] ∧ timers s = [] ∧ channel_ s = None ∨
       functors s = [FResetChannel] ∧ length (timers s) = 1%nat ∨
       functors s = [] ∧ (length (timers s) <= 1)%nat ∧ channel_ s = None)
  end.

Record run_inv (s : C) : Prop := {
  ri_connect : connect_ s = true;
  ri_delays : ∃ n, delays s = backoffs n ∧ retryDelayMs_ s = backoff n;
  ri_sockets : closed s ++ handed_over s ++ open s = seqZ 0 (created s);
  ri_created : 0 <= created s;
  ri_phase : phase s }.

Lemma backoff_S n : Z.min (s32 (backoff n * 2)) kMaxRetryDelayMs = backoff (S n).
Proof.
  unfold backoff, kInitRetryDelayMs, kMaxRetryDelayMs.
  assert (0 < 2 ^ Z.of_nat n) by (apply Z.pow_pos_nonneg; lia).
  unfold s32. rewrite swrap_small by lia. rewrite Nat2Z.inj_succ, Z.pow_succ_r by lia. lia.
Qed.

Lemma backoffs_S n : backoffs (S n) = backoffs n ++ [backoff n].
Proof. unfold backoffs. rewrite seq_S, map_app. done. Qed.

Lemma seqZ_snoc n : 0 <= n -> seqZ 0 (n + 1) = seqZ 0 n ++ [n].
Proof. intros Hn. rewrite seqZ_app by lia. done. Qed.

(** [retry()] while the socket is open. *)
Lemma retry_spec s cl :
  connect_ s = true -> (∃ n, delays s = backoffs n ∧ retryDelayMs_ s = backoff n) ->
  handed_over s = [] -> cl ++ [sockfd_ s] = seqZ 0 (created s) -> closed s = cl ->
  ∃ s', retry s = Ok (tt, s') ∧ state_ s' = kDisconnected ∧ connect_ s' = true ∧
    (∃ n, delays s' = backoffs n ∧ retryDelayMs_ s' = backoff n) ∧
    closed s' = seqZ 0 (created s') ∧ handed_over s' = [] ∧ created s' = created s ∧
    functors s' = functors s ∧ length (timers s') = S (length (timers s)) ∧ channel_ s' = channel_ s.
Proof.
  intros Hc (n & Hd & Hr) Hh Hcl <-. eexists. split.
  { unfold retry. msimp. simpl. rewrite Hc. reflexivity. }
  split_and!; try done; simpl.
  - exists (S n). rewrite Hd, Hr, backoffs_S. split; [done|apply backoff_S].
  - rewrite length_app. simpl. lia.
Qed.

Lemma startInLoop_run e s :
  connect_ s = true -> (∃ n, delays s = backoffs n ∧ retryDelayMs_ s = backoff n) ->
  closed s = seqZ 0 (created s) -> 0 <= created s ->
  state_ s = kDisconnected -> handed_over s = [] -> functors s = [] -> timers s = [] -> channel_ s = None ->
  ∃ s', startInLoop e s = Ok (tt, s') ∧ run_inv s'.
Proof.
  intros Hc Hd Hcl Hcr Hst Hh Hf Ht Hch. unfold startInLoop.
  rewrite (bind_Ok _ _ s s s), (bind_Ok _ _ s tt s) by (done || by rewrite Hst). rewrite Hc. cbn [when].
  unfold connect. set (s1 := create_socket s). rewrite (bind_Ok _ _ s tt s1) by done.
  assert (closed s ++ [created s] = seqZ 0 (created s + 1)) as Hs by (by rewrite seqZ_snoc, Hcl).
  destruct (bool_decide (e ∈ [0; _; _; _])); [|destruct (bool_decide _)].
  - eexists. split; [unfold connecting, on_channel; msimp; simpl; rewrite Hch; reflexivity|].
    split; simpl; try done; [|lia|].
    + by rewrite Hh.
    + split_and!; try done. by exists 0.
  - destruct (retry_spec s1 (closed s)) as (s' & E & Hst' & Hc' & Hd' & Hcl' & Hh' & Hcr' & Hf' & Ht' & Hch'); try done.
    exists s'. split; [done|]. simpl in *.
    split; [done|done| | |].
    + unfold open. rewrite Hst', Hcl', Hh'. simpl. by rewrite app_nil_r.
    + rewrite Hcr'. lia.
    + unfold phase. rewrite Hst', Hch', Hch. split_and!; try done. right. right.
      rewrite Hf', Hf, Ht', Ht. done.
  - eexists. split; [reflexivity|]. split; simpl; try done; [| |].
    + unfold open. simpl. by rewrite Hst, Hh, app_nil_r.
    + lia.
    + unfold phase. simpl. rewrite Hst, Hh, Hf, Ht, Hch. split_and!; try done. right. right. split_and!; try done. simpl. lia.
Qed.

(** [removeAndResetChannel()] while connecting. *)
Lemma remove_run s r :
  channel_ s = Some (connecting_channel (sockfd_ s) r) ->
  ∃ c, removeAndResetChannel s =
         Ok (tt, set_functors (functors s ++ [FResetChannel]) (set_channel (Some c) s)) ∧ isNoneEvent c = true.
Proof.
  intros Hc. eexists. split; [unfold removeAndResetChannel, on_channel; msimp; rewrite Hc; reflexivity|done].
Qed.

(** After an event of the connecting socket. *)
Lemma handleError_run s r :
  run_inv s -> state_ s = kConnecting -> channel_ s = Some (connecting_channel (sockfd_ s) r) ->
  ∃ s', handleError s = Ok (tt, s') ∧ run_inv s' ∧ state_ s' = kDisconnected.
Proof.
  intros [Hc Hd Hso Hcr Hp] Hst Hch. unfold phase in Hp. rewrite Hst in Hp. destruct Hp as (Hf & Ht & Hh & _).
  destruct (remove_run s r Hch) as (c & E & Hnone).
  set (s1 := set_functors _ _) in E.
  unfold open in Hso. rewrite decide_True, Hh in Hso by done. simpl in Hso.
  destruct (retry_spec s1 (closed s)) as (s' & E' & Hst' & Hc' & Hd' & Hcl' & Hh' & Hcr' & Hf' & Ht' & Hch'); try done.
  exists s'. split; [|split; [|done]].
  - unfold handleError. rewrite (bind_Ok _ _ s s s) by done. rewrite Hst. simpl. by rewrite (bind_Ok _ _ _ _ _ E).
  - split; [done|done| | |].
    + unfold open. rewrite Hst', Hcl', Hh'. simpl. by rewrite app_nil_r.
    + by rewrite Hcr'.
    + unfold phase. rewrite Hst', Hch', Hf', Ht'. split_and!; try done. right. left. simpl. by rewrite Hf, Ht.
Qed.

Lemma handleWrite_run err self s r :
  run_inv s -> state_ s = kConnecting -> channel_ s = Some (connecting_channel (sockfd_ s) r) ->
  ∃ s', handleWrite err self s = Ok (tt, s') ∧ run_inv s'.
Proof.
  intros Hi Hst Hch. pose proof (handleError_run s r Hi Hst Hch) as (s' & E & Hi' & _).
  unfold handleError in E. rewrite (bind_Ok _ _ s s s) in E by done. rewrite Hst in E. simpl in E.
  destruct (remove_run s r Hch) as (c & Er & Hnone). set (s1 := set_functors _ _) in Er.
  rewrite (bind_Ok _ _ _ _ _ Er) in E.
  unfold handleWrite. rewrite (bind_Ok _ _ s s s) by done. rewrite Hst. simpl. rewrite (bind_Ok _ _ _ _ _ Er).
  destruct (negb (err =? 0)); [by exists s'|]. destruct self; [by exists s'|].
  destruct Hi as [Hc Hd Hso Hcr Hp]. unfold phase in Hp. rewrite Hst in Hp. destruct Hp as (Hf & Ht & Hh & _).
  unfold open in Hso. rewrite decide_True, Hh in Hso by done. simpl in Hso.
  eexists. split; [msimp; simpl; rewrite Hc; reflexivity|].
  split; simpl; try done.
  - by rewrite Hh.
  - unfold phase. simpl. rewrite Hh, Hf. split_and!; try done. by left.
Qed.

(** The connecting channel runs its error callback before its write callback. *)
Lemma connecting_events fd r :
  ∃ be bw : bool, (handleEvent (connecting_channel fd r)).1 =
    (if be then [CbError] else []) ++ (if bw then [CbWrite] else []).
Proof.
  set (c := set_handling true (connecting_channel fd r)).
  assert (has_callback CbClose c = false ∧ has_callback CbRead c = false ∧
          has_callback CbError c = true ∧ has_callback CbWrite c = true) as (H1 & H2 & H3 & H4) by done.
  exists (has r (Z.lor POLLERR POLLNVAL)), (has r POLLOUT).
  unfold handleEvent, handleEventWithGuard. fold c. rewrite H1, H2, H3, H4.
  change (tied_ (connecting_channel fd r)) with false. change (revents_ c) with r. cbn [fst].
  by destruct (_ && _), (has r (Z.lor (Z.lor POLLIN POLLPRI) POLLRDHUP)).
Qed.

Lemma event_run r err self s :
  run_inv s -> ∃ s', do_op (OEvent r err self) s = Ok (tt, s') ∧ run_inv s'.
Proof.
  intros Hi. pose proof Hi as [Hc Hd Hso Hcr Hp]. simpl. rewrite (bind_Ok _ _ s s s) by done.
  assert (∀ c, channel_ s = Some c -> isNoneEvent c = true ∨ state_ s = kConnecting) as Hnone.
  { intros c E. unfold phase in Hp. destruct (state_ s); [left|by right|left].
    - destruct Hp as (_ & Hp & _). by rewrite E in Hp.
    - destruct Hp as (_ & _ & Hp & _). by rewrite E in Hp. }
  destruct (channel_ s) as [c|] eqn:E; [|by exists s]. destruct (isNoneEvent c) eqn:En; [by exists s|]. cbn [negb when].
  destruct (Hnone c eq_refl) as [?|Hst]; [congruence|].
  unfold phase in Hp. rewrite Hst in Hp. destruct Hp as (Hf & Ht & Hh & r0 & Hch). rewrite E in Hch. injection Hch as ->.
  set (s1 := set_channel (Some (connecting_channel (sockfd_ s) r)) s).
  rewrite (bind_Ok _ _ s tt s1) by (unfold on_channel; msimp; by rewrite E).
  assert (run_inv s1) as Hi1.
  { split; try done. unfold phase. simpl. rewrite Hst. split_and!; try done. by exists r. }
  change (set_revents r (connecting_channel (sockfd_ s) r0)) with (connecting_channel (sockfd_ s) r).
  destruct (connecting_events (sockfd_ s) r) as (be & bw & ->).
  destruct (handleError_run s1 r Hi1 Hst eq_refl) as (s2 & E2 & Hi2 & Hst2).
  destruct (handleWrite_run err self s1 r Hi1 Hst eq_refl) as (s3 & E3 & Hi3).
  destruct be, bw; cbn [app mapM_ run_callback].
  - exists s2. split; [|done]. rewrite (bind_Ok _ _ _ _ _ E2). unfold handleWrite. msimp. by rewrite Hst2.
  - exists s2. split; [|done]. by rewrite (bind_Ok _ _ _ _ _ E2).
  - exists s3. split; [|done]. by rewrite (bind_Ok _ _ _ _ _ E3).
  - by exists s1.
Qed.

(** What the world may do after the one [start()]. *)
Definition unattended (o : Op) : Prop :=
  match o with OEvent _ _ _ | OTimer _ | ONext _ => True | _ => False end.

Lemma op_run o s : run_inv s -> unattended o -> ∃ s', do_op o s = Ok (tt, s') ∧ run_inv s'.
Proof.
  intros Hi Ho. destruct o as [| | |r e self|e|e]; try done; [by apply event_run|..];
    pose proof Hi as [Hc Hd Hso Hcr Hp]; simpl; rewrite (bind_Ok _ _ s s s) by done.
  - destruct (timers s) as [|d ts] eqn:Et; [by exists s|]. destruct (functors s) eqn:Ef; [|by exists s].
    unfold phase, open in *. destruct (state_ s) eqn:Hst; [|destruct Hp as (_ & X & _); congruence|destruct Hp as (X & _); congruence].
    destruct Hp as (Hh & _ & [(X & _)|[(X & _)|(_ & Hl & Hch)]]); [congruence..|].
    rewrite Et in Hl. simpl in Hl. destruct ts; [|simpl in Hl; lia].
    set (s1 := set_timers [] s). rewrite (bind_Ok _ _ s tt s1) by done.
    apply startInLoop_run; try done. rewrite Hh in Hso. simpl in Hso. by rewrite app_nil_r in Hso.
  - destruct (functors s) as [|f fs] eqn:Ef; [by exists s|].
    set (s1 := set_functors fs s). rewrite (bind_Ok _ _ s tt s1) by done.
    unfold phase, open in *. destruct (state_ s) eqn:Hst; [|destruct Hp; congruence|].
    + destruct Hp as (Hh & Hid & [(X & Ht & Hch)|[(X & Ht)|(X & _)]]); [| |congruence];
        rewrite Ef in X; injection X as -> ->; simpl.
      * apply startInLoop_run; try done. rewrite Hh in Hso. simpl in Hso. by rewrite app_nil_r in Hso.
      * eexists. split; [reflexivity|]. split; try done; unfold open, phase; simpl; rewrite Hst; [done|].
        split_and!; try done. right. right. rewrite Ht. by split_and!; try lia.
    + destruct Hp as (Ht & Hh & Hid & [X|[X _]]); [|congruence]. rewrite Ef in X. injection X as -> ->. simpl.
      eexists. split; [reflexivity|]. split; try done; unfold open, phase; simpl; rewrite Hst; [done|].
      split_and!; try done. by right.
Qed.

(** C12: a connector that is started once and then left to the network never fails an
    assertion, whatever the kernel answers: it has at most one socket at a time, every
    socket it creates is closed or handed over exactly once, at most one is handed over
    and then nothing more happens; and its retries wait 500, 1000, 2000, ... milliseconds,
    at most 30 seconds. *)
Theorem Connector_single_start g inLoop e ops :
  Forall unattended ops ->
  ∃ s, mapM_ do_op (OStart inLoop e :: ops) (new_Connector g) = Ok (tt, s) ∧
    closed s ++ handed_over s ++ open s = seqZ 0 (created s) ∧
    (handed_over s = [] ∨ state_ s = kConnected ∧ length (handed_over s) = 1%nat ∧ timers s = []) ∧
    (length (timers s) <= 1)%nat ∧ delays s = backoffs (length (delays s)).
Proof.
  intros Hops.
  assert (∃ s1, do_op (OStart inLoop e) (new_Connector g) = Ok (tt, s1) ∧ run_inv s1) as (s1 & E1 & Hi1).
  { simpl. unfold start. set (s0 := set_connect true (new_Connector g)).
    rewrite (bind_Ok _ _ _ tt s0) by done. destruct inLoop.
    - apply startInLoop_run; try done. by exists 0%nat.
    - eexists. split; [reflexivity|]. split; try done; [by exists 0%nat|]. unfold phase. simpl. split_and!; try done. by left. }
  destruct (mapM_invariant run_inv do_op ops s1 Hi1) as (s & E & Hi).
  { intros o s Ho Hs. apply op_run; [done|]. by eapply Forall_forall in Hops. }
  exists s. cbn [mapM_]. rewrite (bind_Ok _ _ _ _ _ E1). split; [done|].
  destruct Hi as [Hc (n & Hd & Hr) Hso Hcr Hp]. split; [done|].
  assert (length (delays s) = n) as -> by (rewrite Hd; unfold backoffs; by rewrite length_map, length_seq).
  split; [|split; [|done]]; unfold phase in Hp; destruct (state_ s); simpl in *.
  - left. apply Hp.
  - left. apply Hp.
  - right. split_and!; apply Hp || done.
  - destruct Hp as (_ & _ & [(_ & -> & _)|[(_ & ->)|(_ & ? & _)]]); simpl; lia || done.
  - destruct Hp as (_ & -> & _). simpl. lia.
  - destruct Hp as (-> & _). simpl. lia.
Qed.

Lemma Connector_single_start_witness :
  ∃ s, mapM_ do_op [OStart true ECONNREFUSED; OTimer EINPROGRESS; OEvent 12 111 false; ONext 0; OTimer 115; OEvent 4 0 false]
         (new_Connector 42) = Ok (tt, s) ∧ closed s ++ handed_over s = [0; 1; 2] ∧ delays s = [500; 1000].
Proof.
  destruct (Connector_single_start 42 true ECONNREFUSED [OTimer EINPROGRESS; OEvent 12 111 false; ONext 0; OTimer 115; OEvent 4 0 false])
    as (s & E & Hs & _ & _ & Hd); [repeat constructor|].
  exists s. split; [exact E|]. vm_compute in E. injection E as <-. split; [exact Hs|exact Hd].
Defined.

(** [stop()] does not cancel the retry timer: a connector that is stopped while a
    retry is pending and started again before it fires has the old timer fail
    [startInLoop]'s assertion while it is connecting. *)
Theorem Connector_stop_start_race g e e' :
  mapM_ do_op [OStart true ECONNREFUSED; OStop; ONext e'; OStart true EINPROGRESS; OTimer e] (new_Connector g)
    = Fault AssertFail.
Proof. reflexivity. Qed.
