(* ===== verification/ConnectorLife.v ===== *)
(** A connector that its owner starts, stops and restarts ([TcpClient.cc] does all three):
    what its state, channel, retry timer and pending functors have to do with each
    other, whatever the network answers. *)
From S2P Require Import Prelude Channel Connector.
Open Scope list_scope.

(** The owner's side of [Connector.do_op]: he starts a connector that is idle, and restarts
    one that is connected and has dropped its channel. *)
Definition others (f : Functor) : Prop := f = FStopInLoop.

Definition stops (fs : list Functor) : Prop := Forall others fs.

(** [start()] is wanted: the connector has nothing under way. *)
Definition startable (k : Connector) : Prop :=
  state_ k = kDisconnected ∧ timers k = [] ∧ channel_ k = None ∧ stops (functors k).

Definition restartable (k : Connector) : Prop :=
  state_ k = kConnected ∧ FResetChannel ∉ functors k.

Definition owner_polite (o : Op) (k : Connector) : Prop :=
  match o with OStart _ _ => startable k | ORestart _ => restartable k | _ => True end.

(** The channel has been given up and waits to be reset, or has been. *)
Definition released (k : Connector) : Prop :=
  channel_ k = None ∧ stops (functors k) ∨
  idle_channel (channel_ k) ∧ ∃ a b, functors k = a ++ FResetChannel :: b ∧ stops a ∧ stops b.

(** A [start()] of another thread is on its way. *)
Definition starting (k : Connector) : Prop :=
  timers k = [] ∧ channel_ k = None ∧ ∃ a b, functors k = a ++ FStartInLoop :: b ∧ stops a ∧ stops b.

Definition stage (k : Connector) : Prop :=
  match state_ k with
  | kConnecting => timers k = [] ∧ stops (functors k) ∧ ∃ r, channel_ k = Some (connecting_channel (sockfd_ k) r)
  | kConnected => timers k = [] ∧ released k
  | kDisconnected => (length (timers k) <= 1)%nat ∧ released k ∨ starting k
  end.

Record life_inv (k : Connector) : Prop := {
  li_sockets : closed k ++ handed_over k ++ open k ≡ₚ seqZ 0 (created k);
  li_created : 0 <= created k;
  li_stage : stage k }.

Lemma stops_app a b : stops (a ++ b) <-> stops a ∧ stops b.
Proof. apply Forall_app. Qed.

Lemma stops_no_reset fs : stops fs -> FResetChannel ∉ fs.
Proof. intros H Hin. unfold stops in H. rewrite Forall_forall in H. by specialize (H _ Hin). Qed.

Lemma released_none k : released k -> FResetChannel ∉ functors k -> channel_ k = None ∧ stops (functors k).
Proof.
  intros [?|(_ & a & b & E & _)] Hn; [done|]. exfalso. apply Hn. rewrite E. set_solver.
Qed.

Lemma released_no_timer k : released k -> functors k = [] -> channel_ k = None.
Proof. intros [[? _]|(_ & a & b & E & _)] Hf; [done|]. rewrite Hf in E. by destruct a. Qed.

(** ** The steps *)

Lemma retry_life k :
  handed_over k ++ closed k ++ [sockfd_ k] ≡ₚ seqZ 0 (created k) -> 0 <= created k -> timers k = [] -> released k ->
  ∃ k', retry k = Ok (tt, k') ∧ life_inv k' ∧ handed_over k' = handed_over k ∧ connect_ k' = connect_ k ∧
    state_ k' = kDisconnected ∧ functors k' = functors k.
Proof.
  intros Hs Hc Ht Hr.
  assert (closed k ++ [sockfd_ k] ++ handed_over k ≡ₚ seqZ 0 (created k)) as Hp by (rewrite <- Hs; solve_Permutation).
  unfold retry. destruct (connect_ k) eqn:Ec.
  - eexists. split; [msimp; simpl; rewrite Ec; reflexivity|]. split_and!; try done. split; simpl; [|done|].
    + rewrite app_nil_r, <- (assoc_L (++)). done.
    + unfold stage. simpl. left. rewrite Ht. split; [simpl; lia|exact Hr].
  - eexists. split; [msimp; simpl; rewrite Ec; reflexivity|]. split_and!; try done. split; simpl; [|done|].
    + rewrite app_nil_r, <- (assoc_L (++)). done.
    + unfold stage. simpl. left. rewrite Ht. split; [simpl; lia|exact Hr].
Qed.

(** [startInLoop()] where it is allowed to run. *)
Lemma startInLoop_life e k :
  life_inv k -> state_ k = kDisconnected -> timers k = [] -> channel_ k = None -> stops (functors k) ->
  ∃ k', startInLoop e k = Ok (tt, k') ∧ life_inv k' ∧ handed_over k' = handed_over k ∧ connect_ k' = connect_ k ∧
    state_ k' ≠ kConnected ∧ functors k' = functors k.
Proof.
  intros [Hs Hc Hst] Hd Ht Hch Hf. unfold open in Hs. rewrite decide_False, app_nil_r in Hs by congruence.
  unfold startInLoop. rewrite (bind_Ok _ _ k k k), (bind_Ok _ _ k tt k) by (done || by rewrite Hd).
  destruct (connect_ k) eqn:Ec; cbn [when].
  2:{ exists k. split; [done|]. split_and!; try done; [|congruence]. split; [|done|done].
      unfold open. by rewrite decide_False, app_nil_r by congruence. }
  unfold connect. set (k1 := create_socket k). rewrite (bind_Ok _ _ k tt k1) by done.
  assert (seqZ 0 (created k + 1) = seqZ 0 (created k) ++ [created k]) as Hseq by (by apply seqZ_snoc).
  destruct (bool_decide (e ∈ [0; _; _; _])); [|destruct (bool_decide _)].
  - eexists. split; [unfold connecting, on_channel; msimp; simpl; rewrite Hch; reflexivity|].
    split_and!; try done. split; simpl; [|lia|].
    + rewrite Hseq, <- Hs, <- (assoc_L (++)). done.
    + unfold stage. simpl. split_and!; try done. by exists 0.
  - destruct (retry_life k1) as (k' & E & Hi & Hh & Hc' & Hst' & Hf'); simpl; try done; [|lia|by left|].
    + change (handed_over k ++ closed k ++ [created k] ≡ₚ seqZ 0 (created k + 1)). rewrite Hseq, <- Hs. solve_Permutation.
    + exists k'. rewrite Hst'. split_and!; try done. by rewrite Hc'.
  - eexists. split; [reflexivity|]. split_and!; try done; [|simpl; congruence]. split; simpl; [|lia|].
    + unfold open. simpl. rewrite decide_False, app_nil_r by congruence. rewrite Hseq, <- Hs. solve_Permutation.
    + unfold stage. simpl. rewrite Hd. left. rewrite Ht. split; [simpl; lia|by left].
Qed.

(** Giving the channel of a connecting socket up. *)
Lemma remove_life k r :
  channel_ k = Some (connecting_channel (sockfd_ k) r) -> stops (functors k) ->
  ∃ k', removeAndResetChannel k = Ok (tt, k') ∧ released k' ∧ functors k' = functors k ++ [FResetChannel] ∧
    timers k' = timers k ∧ closed k' = closed k ∧ handed_over k' = handed_over k ∧ created k' = created k ∧
    sockfd_ k' = sockfd_ k ∧ connect_ k' = connect_ k ∧ state_ k' = state_ k.
Proof.
  intros Hch Hf. destruct (remove_run k r Hch) as (c & E & Hn). eexists. split; [exact E|]. split; [|done].
  right. split; [done|]. exists (functors k), []. split_and!; [done|done|constructor].
Qed.

(** A failed attempt: the channel is given up and the socket closed. *)
Lemma attempt_failed k r :
  life_inv k -> state_ k = kConnecting -> channel_ k = Some (connecting_channel (sockfd_ k) r) ->
  ∃ k', (removeAndResetChannel ;; retry) k = Ok (tt, k') ∧ life_inv k' ∧ handed_over k' = handed_over k ∧
    connect_ k' = connect_ k ∧ state_ k' = kDisconnected ∧ functors k' = functors k ++ [FResetChannel].
Proof.
  intros [Hs Hc Hst] Hk Hch. unfold stage in Hst. rewrite Hk in Hst. destruct Hst as (Ht & Hf & _).
  unfold open in Hs. rewrite decide_True in Hs by done.
  destruct (remove_life k r Hch Hf) as (k1 & E1 & Hr & Hf1 & Ht1 & Hcl & Hh & Hcr & Hso & Hco & _).
  destruct (retry_life k1) as (k2 & E2 & Hi & Hh2 & Hc2 & Hst2 & Hf2); [| |congruence|done|].
  - rewrite Hcl, Hh, Hcr, Hso, <- Hs. solve_Permutation.
  - by rewrite Hcr.
  - exists k2. rewrite (bind_Ok _ _ _ _ _ E1). split_and!; try done; congruence.
Qed.

Lemma handleError_life k r :
  life_inv k -> state_ k = kConnecting -> channel_ k = Some (connecting_channel (sockfd_ k) r) ->
  ∃ k', handleError k = Ok (tt, k') ∧ life_inv k' ∧ handed_over k' = handed_over k ∧ connect_ k' = connect_ k ∧
    state_ k' = kDisconnected ∧ functors k' = functors k ++ [FResetChannel].
Proof.
  intros Hi Hk Hch. destruct (attempt_failed k r Hi Hk Hch) as (k' & E & H). exists k'. split; [|done].
  unfold handleError. rewrite (bind_Ok _ _ k k k) by done. by rewrite Hk.
Qed.

(** What an event of the connecting socket can come to: the attempt fails, or the socket is
    handed over if it is still wanted. *)
Definition outcome (k k' : Connector) : Prop :=
  connect_ k' = connect_ k ∧
  (functors k' = functors k ∨ state_ k = kConnecting ∧ functors k' = functors k ++ [FResetChannel]) ∧
  (handed_over k' = handed_over k ∧ (state_ k = kConnected -> k' = k) ∨
   handed_over k' = handed_over k ++ [sockfd_ k'] ∧ connect_ k = true ∧ state_ k = kConnecting ∧ state_ k' = kConnected).

Lemma handleWrite_life err self k r :
  life_inv k -> state_ k = kConnecting -> channel_ k = Some (connecting_channel (sockfd_ k) r) ->
  ∃ k', handleWrite err self k = Ok (tt, k') ∧ life_inv k' ∧ outcome k k'.
Proof.
  intros Hi Hk Hch. pose proof (attempt_failed k r Hi Hk Hch) as (k' & E & Hi' & Hh & Hco & Hst & Hff).
  assert (outcome k k') as Hout by (split; [done|split; [by right|left; split; [done|congruence]]]).
  destruct Hi as [Hs Hc Hsg]. unfold stage in Hsg. rewrite Hk in Hsg. destruct Hsg as (Ht & Hf & _).
  unfold open in Hs. rewrite decide_True in Hs by done.
  destruct (remove_life k r Hch Hf) as (k1 & E1 & Hr & Hf1 & Ht1 & Hcl & Hh1 & Hcr & Hso & Hc1 & Hst1).
  rewrite (bind_Ok _ _ _ _ _ E1) in E.
  unfold handleWrite. rewrite (bind_Ok _ _ k k k) by done. rewrite Hk. cbn [bool_decide decide].
  rewrite bool_decide_true by done. rewrite (bind_Ok _ _ _ _ _ E1).
  destruct (negb (err =? 0)); [by exists k'|]. destruct self; [by exists k'|].
  rewrite (bind_Ok _ _ k1 tt (setState kConnected k1)) by done.
  rewrite (bind_Ok _ _ _ (setState kConnected k1) (setState kConnected k1)) by done.
  cbn [setState Connector.connect_]. rewrite Hc1. destruct (connect_ k) eqn:Ec; (eexists; split; [reflexivity|]).
  - split.
    + split; simpl; [|lia|].
      * unfold open. simpl. rewrite Hcl, Hh1, Hcr, Hso, app_nil_r, <- Hs. done.
      * unfold stage. simpl. split; [congruence|exact Hr].
    + split; [simpl; congruence|]. split; [by right|]. right. simpl. by rewrite Hh1.
  - split.
    + split; simpl; [|lia|].
      * unfold open. simpl. rewrite Hcl, Hh1, Hcr, Hso, app_nil_r, <- Hs. solve_Permutation.
      * unfold stage. simpl. split; [congruence|exact Hr].
    + split; [simpl; congruence|]. split; [by right|]. left. simpl. split; [done|congruence].
Qed.

(** A channel that reports events is that of a connecting socket. *)
Lemma active_connecting k c :
  life_inv k -> channel_ k = Some c -> isNoneEvent c = false ->
  state_ k = kConnecting ∧ ∃ r, c = connecting_channel (sockfd_ k) r.
Proof.
  intros [_ _ Hsg] Hch Hn.
  assert (released k -> False) as Hno.
  { intros [[X _]|[X _]]; [congruence|]. rewrite Hch in X. simpl in X. congruence. }
  unfold stage in Hsg. destruct (state_ k).
  - destruct Hsg as [[_ []%Hno]|(_ & X & _)]. congruence.
  - destruct Hsg as (_ & _ & r & X). split; [done|]. exists r. congruence.
  - by destruct Hsg as [_ []%Hno].
Qed.

Lemma set_revents_life k r0 r :
  life_inv k -> state_ k = kConnecting -> channel_ k = Some (connecting_channel (sockfd_ k) r0) ->
  life_inv (set_channel (Some (connecting_channel (sockfd_ k) r)) k).
Proof.
  intros [Hs Hc Hsg] Hk Hch. split; [done|done|]. unfold stage in *. simpl. rewrite Hk in *.
  destruct Hsg as (? & ? & _). split_and!; try done. by exists r.
Qed.

Lemma event_life r err self k :
  life_inv k -> ∃ k', do_op (OEvent r err self) k = Ok (tt, k') ∧ life_inv k' ∧ outcome k k'.
Proof.
  intros Hi. simpl. rewrite (bind_Ok _ _ k k k) by done.
  assert (outcome k k) as Hsame by (split; [done|split; by left]).
  destruct (channel_ k) as [c|] eqn:Hch; [|by exists k]. destruct (isNoneEvent c) eqn:Hn; [by exists k|]. cbn [negb when].
  destruct (active_connecting k c Hi Hch Hn) as (Hk & r0 & ->).
  set (k1 := set_channel (Some (connecting_channel (sockfd_ k) r)) k).
  rewrite (bind_Ok _ _ k tt k1) by (unfold on_channel; msimp; by rewrite Hch).
  pose proof (set_revents_life k r0 r Hi Hk Hch) as Hi1. fold k1 in Hi1.
  change (set_revents r (connecting_channel (sockfd_ k) r0)) with (connecting_channel (sockfd_ k) r).
  destruct (connecting_events (sockfd_ k) r) as (be & bw & ->).
  destruct (handleError_life k1 r Hi1 Hk eq_refl) as (k2 & E2 & Hi2 & Hh2 & Hc2 & Hst2 & Hf2).
  destruct (handleWrite_life err self k1 r Hi1 Hk eq_refl) as (k3 & E3 & Hi3 & Ho3).
  assert (outcome k k2) as Ho2 by (split; [done|split; [by right|left; split; [done|congruence]]]).
  destruct be, bw; cbn [app mapM_ run_callback].
  - exists k2. split; [|done]. rewrite (bind_Ok _ _ _ _ _ E2). unfold handleWrite. msimp. by rewrite Hst2.
  - exists k2. split; [|done]. by rewrite (bind_Ok _ _ _ _ _ E2).
  - exists k3. split; [by rewrite (bind_Ok _ _ _ _ _ E3)|]. split; [done|].
    destruct Ho3 as (Hc3 & Hf3 & [[Hh3 X]|Ho]); (split; [done|split; [exact Hf3|]]); [left; split; [done|congruence]|by right].
  - exists k1. split; [done|]. split; [done|]. split; [done|]. split; [by left|]. left. split; [done|congruence].
Qed.

(** ** Functors and timers *)

Lemma released_head f fs k :
  released k -> functors k = f :: fs ->
  f = FStopInLoop ∧ released (set_functors fs k) ∨ f = FResetChannel ∧ stops fs.
Proof.
  intros [[Hn Hs]|(Hid & a & b & E & Ha & Hb)] Hf; rewrite Hf in *.
  - apply Forall_cons in Hs as [Ho Hs]. left. split; [done|]. by left.
  - destruct a as [|g a]; injection E as -> ->; [by right|]. apply Forall_cons in Ha as [Ho Ha]. left. split; [done|].
    right. split; [done|]. by exists a, b.
Qed.

Lemma starting_head f fs k :
  starting k -> functors k = f :: fs ->
  f = FStopInLoop ∧ starting (set_functors fs k) ∨ f = FStartInLoop ∧ timers k = [] ∧ channel_ k = None ∧ stops fs.
Proof.
  intros (Ht & Hc & a & b & E & Ha & Hb) Hf. rewrite Hf in E.
  destruct a as [|g a]; injection E as -> ->; [right; by split_and!|]. apply Forall_cons in Ha as [Ho Ha]. left. split; [done|].
  split_and!; [done|done|]. by exists a, b.
Qed.

(** Only [restart()] takes a connector out of [kConnected]. *)
Definition settles (k k' : Connector) : Prop :=
  connect_ k' = connect_ k ∧ handed_over k' = handed_over k ∧ (state_ k' = kConnected <-> state_ k = kConnected).

Lemma settles_not k k' :
  connect_ k' = connect_ k -> handed_over k' = handed_over k -> state_ k ≠ kConnected -> state_ k' ≠ kConnected -> settles k k'.
Proof. intros H1 H2 H3 H4. split_and!; [done|done|by split]. Qed.

Lemma reset_life fs k :
  life_inv k -> functors k = FResetChannel :: fs -> stops fs ->
  life_inv (set_channel None (set_functors fs k)).
Proof.
  intros [Hs Hc Hsg] Hf Hfs. split; [done|done|]. unfold stage in *. simpl.
  assert (released (set_channel None (set_functors fs k))) as Hr by (by left).
  destruct (state_ k).
  - left. split; [|done]. destruct Hsg as [[? _]|(-> & _)]; [done|simpl; lia].
  - destruct Hsg as (_ & X & _). rewrite Hf in X. apply Forall_cons in X as [X _]. discriminate X.
  - by destruct Hsg as [? _].
Qed.

Lemma next_life e f fs k :
  life_inv k -> functors k = f :: fs ->
  ∃ k', do_op (ONext e) k = Ok (tt, k') ∧ life_inv k' ∧ settles k k' ∧
    (functors k' = fs ∨ f = FStopInLoop ∧ state_ k = kConnecting ∧ functors k' = fs ++ [FResetChannel]).
Proof.
  intros Hi Hf. pose proof Hi as [Hs Hc Hsg]. simpl. rewrite (bind_Ok _ _ k k k) by done. rewrite Hf.
  set (k1 := set_functors fs k). rewrite (bind_Ok _ _ k tt k1) by done.
  assert (∀ g, f = FStopInLoop -> (state_ k1 = kConnecting -> False) -> life_inv k1 ->
    ∃ k', run_functor g f k1 = Ok (tt, k') ∧ life_inv k' ∧ settles k k' ∧
      (functors k' = fs ∨ f = FStopInLoop ∧ state_ k = kConnecting ∧ functors k' = fs ++ [FResetChannel])) as Hskip.
  { intros g -> Hn Hi1. exists k1. split; [|split; [done|split; [by split_and!|by left]]]. unfold run_functor, stopInLoop.
    rewrite (bind_Ok _ _ k1 k1 k1) by done. by rewrite bool_decide_false by (intros X; by apply Hn). }
  unfold stage in Hsg. destruct (state_ k) eqn:Hst.
  - destruct Hsg as [[Ht Hr]|Hstart].
    + destruct (released_head f fs k Hr Hf) as [[-> Hr1]|[-> Hfs]].
      * apply Hskip; [done|simpl; congruence|]. split; [done|done|]. unfold stage. simpl. rewrite Hst. by left.
      * exists (set_channel None k1). split; [done|]. split; [by apply reset_life|]. split; [|by left].
        split_and!; [done|done|]. simpl. by rewrite Hst.
    + destruct (starting_head f fs k Hstart Hf) as [[-> Hr1]|(-> & Ht & Hch & Hfs)].
      * apply Hskip; [done|simpl; congruence|]. split; [done|done|]. unfold stage. simpl. rewrite Hst. by right.
      * destruct (startInLoop_life e k1) as (k' & E & Hi' & Hh & Hco & Hn & Hf'); try done.
        { split; [done|done|]. unfold stage. simpl. rewrite Hst. left. rewrite Ht. split; [simpl; lia|by left]. }
        exists k'. split; [exact E|]. split; [done|]. split; [|by left]. apply settles_not; try done. congruence.
  - destruct Hsg as (Ht & Hstops & r & Hch). rewrite Hf in Hstops. apply Forall_cons in Hstops as [Ho Hfs].
    unfold others in Ho. subst f.
    set (k2 := setState kDisconnected k1).
    assert (life_inv k1) as Hi1.
    { split; [done|done|]. unfold stage. simpl. rewrite Hst. split_and!; try done. by exists r. }
    (* the state is set before the channel is given up, which does not look at it *)
    destruct (remove_life k2 r Hch Hfs) as (k3 & E3 & Hr3 & Hf3 & Ht3 & Hcl & Hh3 & Hcr & Hso & Hc3 & Hst3).
    unfold open in Hs. rewrite decide_True in Hs by done.
    destruct (retry_life k3) as (k' & E & Hi' & Hh & Hco & Hst' & Hf'); [| |by rewrite Ht3|done|].
    + rewrite Hcl, Hh3, Hcr, Hso. change (handed_over k ++ closed k ++ [sockfd_ k] ≡ₚ seqZ 0 (created k)). rewrite <- Hs. solve_Permutation.
    + by rewrite Hcr.
    + exists k'. split.
      { unfold run_functor, stopInLoop. rewrite (bind_Ok _ _ k1 k1 k1) by done. rewrite bool_decide_true by done. cbn [when].
        rewrite (bind_Ok _ _ k1 tt k2) by done. by rewrite (bind_Ok _ _ _ _ _ E3). }
      split; [done|]. split; [apply settles_not; [by rewrite Hco, Hc3|by rewrite Hh, Hh3|congruence|congruence]|].
      right. split_and!; [done|done|]. by rewrite Hf', Hf3.
  - destruct Hsg as [Ht Hr]. destruct (released_head f fs k Hr Hf) as [[-> Hr1]|[-> Hfs]].
    + apply Hskip; [done|simpl; congruence|]. split; [done|done|]. unfold stage. simpl. rewrite Hst. by split.
    + exists (set_channel None k1). split; [done|]. split; [by apply reset_life|]. split; [|by left].
      split_and!; [done|done|]. simpl. by rewrite Hst.
Qed.

Lemma timer_life e k :
  life_inv k -> ∃ k', do_op (OTimer e) k = Ok (tt, k') ∧ life_inv k' ∧ settles k k' ∧ functors k' = functors k.
Proof.
  intros Hi. pose proof Hi as [Hs Hc Hsg]. simpl. rewrite (bind_Ok _ _ k k k) by done.
  assert (settles k k) as Hsame by (by split_and!).
  destruct (timers k) as [|d ts] eqn:Et; [by exists k|]. destruct (functors k) as [|f fs] eqn:Ef; [|by exists k].
  unfold stage in Hsg. rewrite Et in Hsg. destruct (state_ k) eqn:Hst; [|by destruct Hsg|by destruct Hsg].
  destruct Hsg as [[Hl Hr]|(X & _)]; [|congruence]. simpl in Hl. destruct ts; [|simpl in Hl; lia].
  set (k1 := set_timers [] k). rewrite (bind_Ok _ _ k tt k1) by done.
  assert (channel_ k = None) as Hch by (by apply released_no_timer).
  destruct (startInLoop_life e k1) as (k' & E & Hi' & Hh & Hco & Hn & Hf'); try done.
  - split; [done|done|]. unfold stage. simpl. rewrite Hst. left. split; [lia|done].
  - simpl. rewrite Ef. constructor.
  - exists k'. split; [exact E|]. split; [done|]. split; [apply settles_not; try done; congruence|]. by rewrite Hf'.
Qed.

Lemma stop_life k :
  life_inv k -> ∃ k', stop k = Ok (tt, k') ∧ life_inv k' ∧ connect_ k' = false ∧ handed_over k' = handed_over k ∧
    state_ k' = state_ k ∧ functors k' = functors k ++ [FStopInLoop] ∧ timers k' = timers k.
Proof.
  intros [Hs Hc Hsg]. eexists. split; [reflexivity|]. split_and!; try done. split; [done|done|].
  assert (stops [FStopInLoop]) as H1 by (by repeat constructor).
  assert (∀ k', functors k' = functors k ++ [FStopInLoop] -> channel_ k' = channel_ k -> released k -> released k') as Hrel.
  { intros k' Ef Ec [[X Y]|(X & a & b & Z & Ha & Hb)]; [left|right]; rewrite Ec, Ef.
    - split; [done|by apply stops_app].
    - split; [done|]. exists a, (b ++ [FStopInLoop]). rewrite Z, <- (assoc_L (++)). split_and!; try done. by apply stops_app. }
  unfold stage in *. simpl. destruct (state_ k).
  - destruct Hsg as [[Ht Hr]|(Ht & Hch & a & b & Z & Ha & Hb)]; [left; split; [done|by eapply Hrel]|right].
    split_and!; [done|done|]. simpl. exists a, (b ++ [FStopInLoop]). rewrite Z, <- (assoc_L (++)). split_and!; try done. by apply stops_app.
  - destruct Hsg as (Ht & Hf & Hr). split_and!; [done|by apply stops_app|done].
  - destruct Hsg as [Ht Hr]. split; [done|by eapply Hrel].
Qed.

Lemma start_life inLoop e k :
  life_inv k -> startable k -> ∃ k', start inLoop e k = Ok (tt, k') ∧ life_inv k' ∧ connect_ k' = true ∧
    handed_over k' = handed_over k ∧ state_ k' ≠ kConnected ∧
    functors k' = functors k ++ (if inLoop then [] else [FStartInLoop]).
Proof.
  intros [Hs Hc Hsg] (Hst & Ht & Hch & Hf). unfold start. set (k1 := set_connect true k). rewrite (bind_Ok _ _ k tt k1) by done.
  destruct inLoop.
  - destruct (startInLoop_life e k1) as (k' & E & Hi' & Hh & Hco & Hn & Hf'); try done.
    exists k'. split_and!; try done. by rewrite app_nil_r.
  - eexists. split; [reflexivity|]. split_and!; try done; [|simpl; congruence]. split; [done|done|].
    unfold stage. simpl. rewrite Hst. right. split_and!; [done|done|]. simpl. exists (functors k), []. split_and!; [done|done|constructor].
Qed.

Lemma restart_life e k :
  life_inv k -> restartable k -> ∃ k', restart e k = Ok (tt, k') ∧ life_inv k' ∧ connect_ k' = true ∧
    handed_over k' = handed_over k ∧ state_ k' ≠ kConnected ∧ functors k' = functors k.
Proof.
  intros [Hs Hc Hsg] [Hst Hnr]. unfold stage in Hsg. rewrite Hst in Hsg. destruct Hsg as [Ht Hr].
  destruct (released_none k Hr Hnr) as [Hch Hf]. unfold open in Hs. rewrite decide_False in Hs by congruence.
  unfold restart. set (k3 := set_connect true (reset_delay (setState kDisconnected k))).
  destruct (startInLoop_life e k3) as (k' & E & Hi' & Hh & Hco & Hn & Hf'); try done.
  - split; [done|done|]. unfold stage. simpl. left. rewrite Ht. split; [simpl; lia|by left].
  - exists k'. split; [exact E|]. by split_and!.
Qed.

(** ** A connector that is off *)

Lemma event_idle r err self k : life_inv k -> state_ k ≠ kConnecting -> do_op (OEvent r err self) k = Ok (tt, k).
Proof.
  intros Hi Hk. simpl. rewrite (bind_Ok _ _ k k k) by done. destruct (channel_ k) as [c|] eqn:Hch; [|done].
  destruct (isNoneEvent c) eqn:Hn; [done|]. by destruct (active_connecting k c Hi Hch Hn) as [? _].
Qed.

Lemma startInLoop_off e k : state_ k = kDisconnected -> connect_ k = false -> startInLoop e k = Ok (tt, k).
Proof.
  intros Hst Hc. unfold startInLoop. rewrite (bind_Ok _ _ k k k), (bind_Ok _ _ k tt k) by (done || by rewrite Hst).
  by rewrite Hc.
Qed.

(** With [connect_] unset, a functor never starts a connection. *)
Lemma next_off e f fs k k' :
  life_inv k -> functors k = f :: fs -> connect_ k = false -> do_op (ONext e) k = Ok (tt, k') -> state_ k' ≠ kConnecting.
Proof.
  intros Hi Hf Hc E. destruct (next_life e f fs k Hi Hf) as (k2 & E2 & Hi' & (_ & _ & Hcon) & Hff).
  rewrite E in E2. injection E2 as <-.
  simpl in E. rewrite (bind_Ok _ _ k k k) in E by done. rewrite Hf in E.
  set (k1 := set_functors fs k) in *. rewrite (bind_Ok _ _ k tt k1) in E by done.
  destruct Hi as [_ _ Hsg]. unfold stage in Hsg. destruct (state_ k) eqn:Hst.
  - destruct f; simpl in E.
    + rewrite startInLoop_off in E by done. injection E as <-. simpl. by rewrite Hst.
    + unfold stopInLoop in E. rewrite (bind_Ok _ _ k1 k1 k1) in E by done.
      rewrite bool_decide_false in E by (simpl; congruence). injection E as <-. simpl. by rewrite Hst.
    + injection E as <-. simpl. by rewrite Hst.
  - destruct Hsg as (_ & Hs & _). rewrite Hf in Hs. apply Forall_cons in Hs as [Ho Hs]. unfold others in Ho. subst f.
    intros X. destruct Hi' as [_ _ Hsg']. unfold stage in Hsg'. rewrite X in Hsg'. destruct Hsg' as (_ & Hs' & _).
    destruct Hff as [Hff|(_ & _ & Hff)]; [|rewrite Hff in Hs'; apply stops_app in Hs' as [_ Hs']; by inversion Hs'].
    simpl in E. unfold stopInLoop in E. rewrite (bind_Ok _ _ k1 k1 k1) in E by done.
    rewrite bool_decide_true in E by done. cbn [when] in E. apply bind_inv in E as ([] & k3 & E3 & E). injection E3 as <-.
    apply bind_inv in E as ([] & k4 & _ & E). unfold retry in E.
    rewrite (bind_Ok _ _ k4 tt (close_socket k4)) in E by done.
    rewrite (bind_Ok _ _ _ tt (setState kDisconnected (close_socket k4))) in E by done.
    rewrite (bind_Ok _ _ _ (setState kDisconnected (close_socket k4)) (setState kDisconnected (close_socket k4))) in E by done.
    simpl in E. destruct (connect_ k4); injection E as <-; discriminate X.
  - rewrite (proj2 Hcon eq_refl). done.
Qed.

Lemma timer_off e k k' :
  life_inv k -> connect_ k = false ∨ state_ k = kConnected -> do_op (OTimer e) k = Ok (tt, k') -> state_ k' = state_ k.
Proof.
  intros [_ _ Hsg] Hc E. simpl in E. rewrite (bind_Ok _ _ k k k) in E by done.
  destruct (timers k) as [|d ts] eqn:Et; [by injection E as <-|]. destruct (functors k); [|by injection E as <-].
  unfold stage in Hsg. rewrite Et in Hsg. destruct (state_ k) eqn:Hst; [|by destruct Hsg|by destruct Hsg].
  destruct Hc as [Hc|]; [|done]. rewrite (bind_Ok _ _ k tt (set_timers ts k)) in E by done.
  rewrite startInLoop_off in E by done. by injection E as <-.
Qed.

(** Without functors and not connecting, the channel is gone. *)
Lemma idle_no_channel k : life_inv k -> state_ k ≠ kConnecting -> functors k = [] -> channel_ k = None.
Proof.
  intros [_ _ Hsg] Hst Hf. unfold stage in Hsg. destruct (state_ k); [|done|].
  - destruct Hsg as [[_ Hr]|(_ & ? & _)]; [by apply released_no_timer|done].
  - destruct Hsg as [_ Hr]. by apply released_no_timer.
Qed.

Lemma new_life g : life_inv (new_Connector g).
Proof. split; [done|done|]. unfold stage. simpl. left. split; [lia|]. left. split; [done|constructor]. Qed.

Lemma op_life o k : life_inv k -> owner_polite o k -> ∃ k', do_op o k = Ok (tt, k') ∧ life_inv k'.
Proof.
  intros Hi Hp. destruct o as [inLoop e| |e|r err self|e|e]; simpl in Hp.
  - destruct (start_life inLoop e k Hi Hp) as (k' & E & Hi' & _). by exists k'.
  - destruct (stop_life k Hi) as (k' & E & Hi' & _). by exists k'.
  - destruct (restart_life e k Hi Hp) as (k' & E & Hi' & _). by exists k'.
  - destruct (event_life r err self k Hi) as (k' & E & Hi' & _). by exists k'.
  - destruct (timer_life e k Hi) as (k' & E & Hi' & _). by exists k'.
  - destruct (functors k) as [|f fs] eqn:Ef.
    + exists k. simpl. rewrite (bind_Ok _ _ k k k) by done. by rewrite Ef.
    + destruct (next_life e f fs k Hi Ef) as (k' & E & Hi' & _). by exists k'.
Qed.

(** What an owner does with a connector, and the world. *)
Definition used (k k' : Connector) : Prop := ∃ o, owner_polite o k ∧ do_op o k = Ok (tt, k').

(** C13: a connector whose owner starts it only when it is idle and restarts it only from
    [kConnected], after its channel was reset, never fails an assertion, however often he
    stops it and whatever the network does: from every state every operation succeeds.
    Every socket it has made was closed once, or handed over, or is being
    connected, at most one at a time; and at most one retry timer runs. *)
Theorem connector_life g k :
  rtc used (new_Connector g) k ->
  (∀ o, owner_polite o k -> ∃ k', do_op o k = Ok (tt, k')) ∧
  closed k ++ handed_over k ++ open k ≡ₚ seqZ 0 (created k) ∧ (length (timers k) <= 1)%nat ∧
  (state_ k ≠ kConnecting -> FResetChannel ∉ functors k -> channel_ k = None).
Proof.
  intros Hr.
  assert (life_inv k) as Hi.
  { eapply (rtc_invariant used); [|apply (new_life g)|exact Hr]. intros k1 k2 Hi (o & Hp & E).
    destruct (op_life o k1 Hi Hp) as (k' & E' & Hi'). congruence. }
  split; [|split_and!].
  - intros o Hp. destruct (op_life o k Hi Hp) as (k' & E & _). by exists k'.
  - apply Hi.
  - destruct Hi as [_ _ Hsg]. unfold stage in Hsg. destruct (state_ k).
    + destruct Hsg as [[? _]|(-> & _)]; [done|simpl; lia].
    + destruct Hsg as (-> & _). simpl. lia.
    + destruct Hsg as (-> & _). simpl. lia.
  - intros Hn Hf. destruct Hi as [_ _ Hsg]. unfold stage in Hsg. destruct (state_ k); [|done|].
    + destruct Hsg as [[_ ?]|(_ & ? & _)]; [by apply released_none|done].
    + destruct Hsg as [_ ?]. by apply released_none.
Qed.

(** A client's life: connected, its connection lost, restarted, stopped while connecting. *)
Definition sample_life : list Op :=
  [OStart true ECONNREFUSED; OTimer EINPROGRESS; OEvent 4 0 false; ONext 0; ORestart EINPROGRESS; OStop; ONext 0; ONext 0].

Fixpoint used_run (ops : list Op) (k : Connector) : option Connector :=
  match ops with
  | [] => Some k
  | o :: ops' => match do_op o k with Ok (_, k') => used_run ops' k' | Fault _ => None end
  end.

Lemma connector_life_witness :
  ∃ k, used_run sample_life (new_Connector 42) = Some k ∧ closed k ++ handed_over k ++ open k ≡ₚ [0; 1; 2] ∧ channel_ k = None.
Proof.
  eexists. split; [vm_compute; reflexivity|].
  match goal with |- context [closed ?k] => destruct (connector_life 42 k) as (_ & Hs & _ & Hc) end.
  { unfold sample_life. eapply rtc_l; [exists (OStart true ECONNREFUSED); split; [repeat split; constructor|vm_compute; reflexivity]|].
    eapply rtc_l; [exists (OTimer EINPROGRESS); split; [done|vm_compute; reflexivity]|].
    eapply rtc_l; [exists (OEvent 4 0 false); split; [done|vm_compute; reflexivity]|].
    eapply rtc_l; [exists (ONext 0); split; [done|vm_compute; reflexivity]|].
    eapply rtc_l; [exists (ORestart EINPROGRESS); split; [split; [reflexivity|by apply not_elem_of_nil]|vm_compute; reflexivity]|].
    eapply rtc_l; [exists OStop; split; [done|vm_compute; reflexivity]|].
    eapply rtc_l; [exists (ONext 0); split; [done|vm_compute; reflexivity]|].
    eapply rtc_l; [exists (ONext 0); split; [done|vm_compute; reflexivity]|]. apply rtc_refl. }
  split; [exact Hs|]. apply Hc; [discriminate|by apply not_elem_of_nil].
Defined.
