(* ===== verification/Sockets.v ===== *)
(** Addresses and socket calls: [PracticeMuduo/socket.muduo/InetAddress.cpp],
    [SocketsOps.cpp] and [Socket.cpp], and [PracticeMuduo/common/Atomic.h].  The
    system calls' results, [inet_pton], [inet_ntop] and the resolver are arguments. *)
From Stdlib Require Import Strings.String.
From S2P Require Import Prelude FixedBuffer LogStream Endian Timestamp.
Open Scope list_scope.

(** * AtomicIntegerT<T>, for a [T] of [w] bits *)

Section atomic.
Context (w : Z).

(** [__sync_fetch_and_add] wraps around. *)
Definition getAndAdd (x : Z) : M Z Z := λ v, Ok (v, swrap w (v + x)).
Definition atomic_get : M Z Z := λ v, Ok (v, v).
(** The sum is computed in [T]; a signed overflow is undefined. *)
Definition addAndGet (x : Z) : M Z Z :=
  v ← getAndAdd x;
  if bool_decide (- 2 ^ (w - 1) <= v + x < 2 ^ (w - 1)) then mret (v + x) else fail UB.
Definition incrementAndGet : M Z Z := addAndGet 1.
Definition decrementAndGet : M Z Z := addAndGet (-1).
Definition atomic_add (x : Z) : M Z unit := getAndAdd x ;; mret tt.
Definition increment : M Z unit := incrementAndGet ;; mret tt.
Definition decrement : M Z unit := decrementAndGet ;; mret tt.
Definition getAndSet (newValue : Z) : M Z Z := λ v, Ok (v, newValue).
End atomic.

(** * Addresses *)

Definition AF_INET : Z := 2.
Definition AF_INET6 : Z := 10.
Definition INADDR_ANY : Z := 0.
Definition INADDR_LOOPBACK : Z := 0x7f000001.

(** The union of [sockaddr_in] and [sockaddr_in6], whose family and port share their
    places; port and IPv4 address in network byte order. *)
Inductive InetAddress :=
| Inet (sin_port s_addr : Z)
| Inet6 (sin6_port : Z) (sin6_addr : list byte).

#[export] Instance InetAddress_eq_dec : EqDecision InetAddress.
Proof. solve_decision. Defined.

Definition in6addr_any : list byte := replicate 16 x00.
Definition in6addr_loopback : list byte := replicate 15 x00 ++ [x01].

(** [InetAddress(port, loopbackOnly, ipv6)] *)
Definition new_InetAddress (port : Z) (loopbackOnly ipv6 : bool) : InetAddress :=
  if ipv6 then
    Inet6 (sockets.hostToNetwork16 (u16 port)) (if loopbackOnly then in6addr_loopback else in6addr_any)
  else
    Inet (sockets.hostToNetwork16 (u16 port))
      (u32 (sockets.hostToNetwork32 (if loopbackOnly then INADDR_LOOPBACK else INADDR_ANY))).

(** [sockets::fromIpPort], for what [inet_pton] makes of the text: a text it refuses is logged
    and leaves the address zeroed. *)
Definition fromIpPort4 (pton4 : list byte -> option Z) (ip : list byte) (port : Z) : InetAddress :=
  Inet (sockets.hostToNetwork16 (u16 port)) (default 0 (pton4 ip)).
Definition fromIpPort6 (pton6 : list byte -> option (list byte)) (ip : list byte) (port : Z) : InetAddress :=
  Inet6 (sockets.hostToNetwork16 (u16 port)) (default in6addr_any (pton6 ip)).

(** [InetAddress(ip, port, ipv6)] *)
Definition InetAddress_of_text (pton4 : list byte -> option Z) (pton6 : list byte -> option (list byte))
    (ip : list byte) (port : Z) (ipv6 : bool) : InetAddress :=
  if ipv6 then fromIpPort6 pton6 ip port else fromIpPort4 pton4 ip port.

Definition family (a : InetAddress) : Z := match a with Inet _ _ => AF_INET | Inet6 _ _ => AF_INET6 end.
Definition portNetEndian (a : InetAddress) : Z := match a with Inet p _ | Inet6 p _ => p end.
Definition toPort (a : InetAddress) : Z := sockets.networkToHost16 (portNetEndian a).
Definition ipNetEndian (a : InetAddress) : res Z :=
  match a with Inet _ ip => Ok ip | Inet6 _ _ => Fault AssertFail end.

Definition INET_ADDRSTRLEN : Z := 16.
Definition INET6_ADDRSTRLEN : Z := 46.

Section text.
(** [inet_ntop] of an address. *)
Context (ntop4 : Z -> list byte) (ntop6 : list byte -> list byte).

(** [sockets::toIp] into [size] bytes. *)
Definition toIp_sized (size : Z) (a : InetAddress) : res (list byte) :=
  match a with
  | Inet _ ip => if INET_ADDRSTRLEN <=? size then Ok (ntop4 ip) else Fault AssertFail
  | Inet6 _ ip => if INET6_ADDRSTRLEN <=? size then Ok (ntop6 ip) else Fault AssertFail
  end.

(** [sockets::toIpPort] *)
Definition toIpPort_sized (size : Z) (a : InetAddress) : res (list byte) :=
  match toIp_sized size a with
  | Fault f => Fault f
  | Ok ip =>
      let end_ := zlen ip in
      if end_ <? size then Ok (ip ++ snprintf (size - end_) (bytes ":" ++ fmt_d (toPort a))) else Fault AssertFail
  end.

Definition toIp (a : InetAddress) : res (list byte) := toIp_sized 64 a.
Definition toIpPort (a : InetAddress) : res (list byte) := toIpPort_sized 64 a.
End text.

(** [resolve(hostname, out)], for the resolver's answer: only the address is stored. *)
Definition resolve (answer : option Z) (out : InetAddress) : bool * InetAddress :=
  match answer with
  | Some ip => (true, match out with Inet p _ => Inet p ip | Inet6 p a => Inet6 p a end)
  | None => (false, out)
  end.

(** * Socket calls *)

Definition createNonblockingOrDie (sockfd : Z) : res Z := if sockfd <? 0 then Fault FatalLog else Ok sockfd.
Definition listenOrDie (ret : Z) : res unit := if ret <? 0 then Fault FatalLog else Ok tt.
(** A failure is only logged. *)
Definition bindOrDie (ret : Z) : res unit := Ok tt.

Definition EPERM : Z := 1.
Definition EINTR : Z := 4.
Definition EAGAIN : Z := 11.
Definition EMFILE : Z := 24.
Definition EPROTO : Z := 71.
Definition ECONNABORTED : Z := 103.

(** [sockets::accept], for the result of [accept4]: an [errno] or the descriptor; the errors
    that are not expected are fatal. *)
Definition accept (accept4 : Z + Z) : res (Z * Z) :=
  match accept4 with
  | inr connfd => Ok (connfd, 0)
  | inl savedErrno =>
      if bool_decide (savedErrno ∈ [EAGAIN; ECONNABORTED; EINTR; EPROTO; EPERM; EMFILE])
      then Ok (-1, savedErrno) else Fault FatalLog
  end.

(** [getSocketError], for what [getsockopt] returns, stores and leaves in [errno]. *)
Definition getSocketError (ret optval errno : Z) : Z := if ret <? 0 then errno else optval.

(** The [sockaddr_in6] of [getLocalAddr] and [getPeerAddr]: [None] if the call failed, which is
    logged and leaves it zeroed. *)
Abbreviation Sockaddr := (option InetAddress).
Definition getLocalAddr (getsockname : option InetAddress) : Sockaddr := getsockname.
Definition getPeerAddr (getpeername : option InetAddress) : Sockaddr := getpeername.

(** Its fields, as either of the two structures: the IPv4 address lies where the flow label is,
    the IPv6 address behind it. *)
Definition sa_family (a : Sockaddr) : Z := match a with Some a => family a | None => 0 end.
Definition sin_port (a : Sockaddr) : Z := match a with Some a => portNetEndian a | None => 0 end.
Definition s_addr (a : Sockaddr) : Z := match a with Some (Inet _ ip) => ip | _ => 0 end.
Definition sin6_addr (a : Sockaddr) : list byte := match a with Some (Inet6 _ ip) => ip | _ => in6addr_any end.

(** [isSelfConnect], for the socket's two addresses; flow labels are 0. *)
Definition isSelfConnect (getsockname getpeername : option InetAddress) : bool :=
  let localaddr := getLocalAddr getsockname in
  let peeraddr := getPeerAddr getpeername in
  if sa_family localaddr =? AF_INET then
    (sin_port localaddr =? sin_port peeraddr) && (s_addr localaddr =? s_addr peeraddr)
  else if sa_family localaddr =? AF_INET6 then
    (sin_port localaddr =? sin_port peeraddr) && bool_decide (sin6_addr localaddr = sin6_addr peeraddr)
  else false.

(** * Properties *)

(** Decimal numbers: their lengths, and no two have one text. *)
Lemma fmt_d_length v m : 0 <= v < 10 ^ Z.of_nat (S m) -> v < 2 ^ 64 -> (length (fmt_d v) <= S m)%nat.
Proof.
  intros Hv Hv'. destruct (fmt_d_digits v) as (ds & -> & _ & _ & Hlen & _); [lia|].
  rewrite length_fmap. apply Hlen. lia.
Qed.

Lemma fmt_d_inj v w : 0 <= v < 2 ^ 64 -> 0 <= w < 2 ^ 64 -> fmt_d v = fmt_d w -> v = w.
Proof.
  intros Hv Hw E. destruct (parse_fmt_d v Hv) as [Pv _]. destruct (parse_fmt_d w Hw) as [Pw _].
  rewrite E in Pv. rewrite Pv in Pw. by injection Pw.
Qed.

(** The text of an address and port is not cut off: it is the text of the address, a colon
    and the port in decimal, and the port can be read back from the address. *)
Theorem InetAddress_text ntop4 ntop6 port loopback ipv6 :
  0 <= port < 2 ^ 16 ->
  (∀ a, zlen (ntop4 a) < INET_ADDRSTRLEN) -> (∀ a, zlen (ntop6 a) < INET6_ADDRSTRLEN) ->
  let a := new_InetAddress port loopback ipv6 in
  toPort a = port ∧ family a = (if ipv6 then AF_INET6 else AF_INET) ∧
  ∃ ip, toIp ntop4 ntop6 a = Ok ip ∧ toIpPort ntop4 ntop6 a = Ok (ip ++ bytes ":" ++ fmt_d port).
Proof.
  intros Hp H4 H6 a.
  assert (toPort a = port) as Ht.
  { subst a. unfold toPort, new_InetAddress. destruct ipv6; simpl;
      rewrite networkToHost16_hostToNetwork16; unfold u16; rewrite Z.mod_mod, Z.mod_small; lia. }
  split; [done|]. split; [by destruct ipv6|].
  assert (∃ ip, toIp ntop4 ntop6 a = Ok ip ∧ zlen ip < 46) as (ip & E & Hl).
  { subst a. destruct ipv6; eexists; (split; [reflexivity|]); [apply H6|].
    pose proof (H4 (u32 (sockets.hostToNetwork32 (if loopback then INADDR_LOOPBACK else INADDR_ANY)))).
    unfold INET_ADDRSTRLEN in *. lia. }
  exists ip. split; [done|]. unfold toIpPort, toIpPort_sized. unfold toIp in E. rewrite E, Ht.
  rewrite (proj2 (Z.ltb_lt _ _)) by lia. do 2 f_equal.
  pose proof (fmt_d_length port 4 ltac:(change (10 ^ Z.of_nat 5) with 100000; lia) ltac:(lia)).
  unfold snprintf. apply take_ge. change (bytes ":") with [x3a]. rewrite length_app. cbn [length]. lia.
Qed.

(** A connected socket has two addresses of one family: it is connected to itself exactly when
    they are the same. *)
Lemma isSelfConnect_same a b :
  family a = family b -> isSelfConnect (Some a) (Some b) = bool_decide (a = b).
Proof.
  destruct a as [p ip|p ip], b as [p' ip'|p' ip']; try done; intros _; unfold isSelfConnect; simpl.
  - destruct (Z.eqb_spec p p') as [->|]; simpl; [|rewrite bool_decide_eq_false_2 by congruence; done].
    destruct (Z.eqb_spec ip ip') as [->|]; [by rewrite bool_decide_eq_true_2|rewrite bool_decide_eq_false_2 by congruence; done].
  - destruct (Z.eqb_spec p p') as [->|]; simpl; [|rewrite bool_decide_eq_false_2 by congruence; done].
    apply bool_decide_ext. split; congruence.
Qed.

(** An address with a port survives its text, if the text of its IP does: what [toIp] and
    [toPort] say of it makes the same address again. *)
Theorem InetAddress_roundtrip ntop4 ntop6 pton4 pton6 a :
  (∀ ip, pton4 (ntop4 ip) = Some ip) -> (∀ ip, pton6 (ntop6 ip) = Some ip) ->
  0 <= portNetEndian a < 2 ^ 16 ->
  ∃ ip, toIp ntop4 ntop6 a = Ok ip ∧
    InetAddress_of_text pton4 pton6 ip (toPort a) (bool_decide (family a = AF_INET6)) = a.
Proof.
  intros H4 H6 Hp.
  assert (sockets.hostToNetwork16 (u16 (toPort a)) = portNetEndian a) as E.
  { unfold toPort, sockets.networkToHost16, sockets.hostToNetwork16, be16toh, htobe16, u16.
    rewrite Z.mod_mod by done. change (2 ^ 16) with (256 ^ Z.of_nat 2) in *.
    by rewrite bswap_mod, bswap_involutive, Z.mod_mod, Z.mod_small. }
  destruct a as [p ip|p ip]; (eexists; split; [reflexivity|]); unfold InetAddress_of_text; simpl in *.
  - unfold fromIpPort4. by rewrite E, H4.
  - unfold fromIpPort6. by rewrite E, H6.
Qed.
