(* ===== verification/Acceptor.v ===== *)
(** Accepting connections: [PracticeMuduo/tcp.muduo/Acceptor.cpp].  The process's descriptors
    and the listening socket's backlog are the kernel's: a parameter with the
    documented effect of [accept4], [close] and [open]. *)
From S2P Require Import Prelude Sockets.
Open Scope list_scope.

(** What the kernel keeps: the open descriptors, how many there may be, and the peers
    waiting to be accepted. *)
Class Kernel (K : Type) := {
  fds : K -> gset Z;
  limit : K -> nat;
  backlog : K -> list Z;
  sys_accept : K -> (Z + Z) * K;
  sys_close : Z -> K -> K;
  sys_open : K -> Z * K }.

Class KernelLaws (K : Type) `{Kernel K} := {
  accept_empty k : backlog k = [] -> sys_accept k = (inl EAGAIN, k);
  accept_full k : backlog k ≠ [] -> (limit k <= size (fds k))%nat -> sys_accept k = (inl EMFILE, k);
  accept_ok k p ps :
    backlog k = p :: ps -> (size (fds k) < limit k)%nat ->
    ∃ fd k', sys_accept k = (inr fd, k') ∧ 0 <= fd ∧ fd ∉ fds k ∧ fds k' = {[fd]} ∪ fds k ∧
      limit k' = limit k ∧ backlog k' = ps;
  close_ok k fd :
    fds (sys_close fd k) = fds k ∖ {[fd]} ∧ limit (sys_close fd k) = limit k ∧ backlog (sys_close fd k) = backlog k;
  open_ok k :
    (size (fds k) < limit k)%nat ->
    ∃ fd k', sys_open k = (fd, k') ∧ 0 <= fd ∧ fd ∉ fds k ∧ fds k' = {[fd]} ∪ fds k ∧
      limit k' = limit k ∧ backlog k' = backlog k }.

Section acceptor.
Context {K : Type} `{KernelLaws K}.

Record Acceptor := mkAcceptor {
  listenning_ : bool;
  newConnectionCallback_ : bool;
  idleFd_ : Z;
  kernel : K;
  handed : list Z }.         (* the descriptors newConnectionCallback_ was given *)

Definition set_kernel (k : K) (s : Acceptor) : Acceptor :=
  mkAcceptor (listenning_ s) (newConnectionCallback_ s) (idleFd_ s) k (handed s).
Definition set_idleFd (fd : Z) (s : Acceptor) : Acceptor :=
  mkAcceptor (listenning_ s) (newConnectionCallback_ s) fd (kernel s) (handed s).
Definition newConnection (connfd : Z) (s : Acceptor) : Acceptor :=
  mkAcceptor (listenning_ s) (newConnectionCallback_ s) (idleFd_ s) (kernel s) (handed s ++ [connfd]).
Definition setNewConnectionCallback (s : Acceptor) : Acceptor :=
  mkAcceptor (listenning_ s) true (idleFd_ s) (kernel s) (handed s).

(** The constructor's members: a descriptor of /dev/null is kept in reserve. *)
Definition new_Acceptor (k : K) : Acceptor := let '(fd, k') := sys_open k in mkAcceptor false false fd k' [].

(** [listen()], for the result of the system call; reading is then enabled. *)
Definition listen (ret : Z) : M Acceptor unit := λ s,
  match listenOrDie ret with
  | Ok _ => Ok (tt, mkAcceptor true (newConnectionCallback_ s) (idleFd_ s) (kernel s) (handed s))
  | Fault f => Fault f
  end.

Definition close (fd : Z) : M Acceptor unit := modify (λ s, set_kernel (sys_close fd (kernel s)) s).

(** [accept] through the socket: the descriptor and [errno]. *)
Definition socket_accept : M Acceptor (Z * Z) := λ s,
  let '(r, k) := sys_accept (kernel s) in
  match accept r with Ok v => Ok (v, set_kernel k s) | Fault f => Fault f end.

(** [::accept], without its wrapper; -1 on an error. *)
Definition raw_accept : M Acceptor Z := λ s,
  let '(r, k) := sys_accept (kernel s) in
  Ok (match r with inr fd => fd | inl _ => -1 end, set_kernel k s).

Definition raw_open : M Acceptor Z := λ s,
  let '(fd, k) := sys_open (kernel s) in Ok (fd, set_kernel k s).

Definition handleRead : M Acceptor unit :=
  '(connfd, errno) ← socket_accept;
  if 0 <=? connfd then
    s ← get;
    if newConnectionCallback_ s then modify (newConnection connfd) else close connfd
  else
    when (errno =? EMFILE)
      (s ← get;
       close (idleFd_ s) ;;
       fd ← raw_accept;
       modify (set_idleFd fd) ;;
       close fd ;;
       fd ← raw_open;
       modify (set_idleFd fd)).

(** The spare descriptor is open; the program does not exceed its limit. *)
Definition acceptor_inv (s : Acceptor) : Prop :=
  idleFd_ s ∈ fds (kernel s) ∧ (size (fds (kernel s)) <= limit (kernel s))%nat.

Lemma size_delete (X : gset Z) x : x ∈ X -> size (X ∖ {[x]}) = (size X - 1)%nat.
Proof.
  intros Hx. rewrite size_difference by set_solver. by rewrite size_singleton.
Qed.

Lemma size_insert (X : gset Z) x : x ∉ X -> size ({[x]} ∪ X) = S (size X).
Proof. intros Hx. rewrite size_union by set_solver. by rewrite size_singleton. Qed.

Lemma insert_then_delete (X : gset Z) x : x ∉ X -> ({[x]} ∪ X) ∖ {[x]} = X.
Proof. set_solver. Qed.

Lemma elem_of_insert (X : gset Z) x : x ∈ ({[x]} ∪ X : gset Z).
Proof. set_solver. Qed.

(** C21: a readable listening socket: the first waiting peer is taken off the backlog
    whatever the state of the descriptor table, so the level-triggered loop cannot spin on
    a full one: its connection is handed to the server, or closed if nobody wants it
    or if no descriptor is left; the spare descriptor is open again afterwards and no other
    descriptor has changed. *)
Theorem Acceptor_handleRead s p ps :
  acceptor_inv s -> backlog (kernel s) = p :: ps ->
  ∃ s', handleRead s = Ok (tt, s') ∧ acceptor_inv s' ∧ backlog (kernel s') = ps ∧
    (if decide (limit (kernel s) <= size (fds (kernel s)))%nat then
       handed s' = handed s ∧ fds (kernel s') ∖ {[idleFd_ s']} = fds (kernel s) ∖ {[idleFd_ s]} ∧
       idleFd_ s' ∉ fds (kernel s) ∖ {[idleFd_ s]}
     else
       ∃ fd, fd ∉ fds (kernel s) ∧ idleFd_ s' = idleFd_ s ∧
         if newConnectionCallback_ s then handed s' = handed s ++ [fd] ∧ fds (kernel s') = {[fd]} ∪ fds (kernel s)
         else handed s' = handed s ∧ fds (kernel s') = fds (kernel s)).
Proof.
  intros [Hidle Hlim] Hb. unfold handleRead. case_decide as Hfull.
  - assert (socket_accept s = Ok ((-1, EMFILE), s)) as E1.
    { unfold socket_accept. rewrite accept_full by (rewrite ?Hb; done). by destruct s. }
    rewrite (bind_Ok _ _ _ _ _ E1). cbn [Z.leb Z.compare]. change (EMFILE =? EMFILE) with true. cbn [when].
    destruct (close_ok (kernel s) (idleFd_ s)) as (F1 & L1 & B1).
    set (k1 := sys_close (idleFd_ s) (kernel s)) in *.
    assert (size (fds k1) < limit k1)%nat as Hroom.
    { rewrite F1, L1, size_delete by done. assert (size (fds (kernel s)) ≠ 0%nat); [|lia].
      intros Z0. apply size_empty_inv in Z0. set_solver. }
    destruct (accept_ok k1 p ps) as (fd & k2 & E2 & Hfd0 & Hfd & F2 & L2 & B2); [by rewrite B1|done|].
    destruct (close_ok k2 fd) as (F3 & L3 & B3). set (k3 := sys_close fd k2) in *.
    assert (fds k3 = fds k1) as Fk by (rewrite F3, F2; by apply insert_then_delete).
    destruct (open_ok k3) as (fd' & k4 & E4 & Hfd'0 & Hfd' & F4 & L4 & B4); [rewrite Fk, L3, L2; done|].
    exists (mkAcceptor (listenning_ s) (newConnectionCallback_ s) fd' k4 (handed s)).
    split.
    { msimp. unfold close, raw_accept, raw_open. msimp. simpl. fold k1. rewrite E2. simpl. fold k3. by rewrite E4. }
    unfold acceptor_inv. simpl. rewrite Fk, F1 in F4. rewrite Fk, F1 in Hfd'. rewrite F4. split_and!.
    + apply elem_of_insert.
    + rewrite L4, L3, L2, L1, size_insert by done. rewrite F1, L1 in Hroom. lia.
    + by rewrite B4, B3, B2.
    + done.
    + by apply insert_then_delete.
    + done.
  - destruct (accept_ok (kernel s) p ps) as (fd & k' & E & Hfd0 & Hfd & F & L & B); [done|lia|].
    assert (socket_accept s = Ok ((fd, 0), set_kernel k' s)) as E1 by (unfold socket_accept; by rewrite E).
    rewrite (bind_Ok _ _ _ _ _ E1). rewrite (proj2 (Z.leb_le 0 fd)) by done.
    rewrite (bind_Ok _ _ (set_kernel k' s) (set_kernel k' s) (set_kernel k' s)) by done.
    change (newConnectionCallback_ (set_kernel k' s)) with (newConnectionCallback_ s).
    destruct (newConnectionCallback_ s) eqn:Ecb.
    + eexists. split; [reflexivity|]. simpl. unfold acceptor_inv. simpl. rewrite F, L. split_and!.
      * by apply elem_of_union_r.
      * rewrite size_insert by done. lia.
      * done.
      * exists fd. done.
    + destruct (close_ok k' fd) as (F3 & L3 & B3).
      assert (fds (sys_close fd k') = fds (kernel s)) as Fk by (rewrite F3, F; by apply insert_then_delete).
      eexists. split; [reflexivity|]. simpl. unfold acceptor_inv. simpl. rewrite Fk, L3, L, B3. split_and!; try done.
      exists fd. done.
Qed.
End acceptor.
Arguments Acceptor K : clear implicits.

(** * A concrete kernel *)

Record toy_kernel := mkToy { toy_fds : gset Z; toy_limit : nat; toy_backlog : list Z }.

(** A descriptor that is not in use. *)
Definition unused (X : gset Z) : Z := 1 + foldr Z.max 0 (elements X).

Lemma unused_spec X : 0 <= unused X ∧ unused X ∉ X.
Proof.
  unfold unused. assert (∀ l : list Z, 0 <= foldr Z.max 0 l ∧ ∀ x, x ∈ l -> x <= foldr Z.max 0 l) as Hm.
  { induction l as [|y l [IH1 IH2]]; simpl; [split; [lia|by intros x ?%elem_of_nil]|].
    split; [lia|]. intros x [->|Hx]%elem_of_cons; [lia|]. specialize (IH2 x Hx). lia. }
  destruct (Hm (elements X)) as [H1 H2]. split; [lia|]. intros Hin%elem_of_elements%H2. lia.
Qed.

#[export] Instance toy_Kernel : Kernel toy_kernel := {
  fds := toy_fds;
  limit := toy_limit;
  backlog := toy_backlog;
  sys_accept k :=
    match toy_backlog k with
    | [] => (inl EAGAIN, k)
    | _ :: ps =>
        if decide (toy_limit k <= size (toy_fds k))%nat then (inl EMFILE, k)
        else (inr (unused (toy_fds k)), mkToy ({[unused (toy_fds k)]} ∪ toy_fds k) (toy_limit k) ps)
    end;
  sys_close fd k := mkToy (toy_fds k ∖ {[fd]}) (toy_limit k) (toy_backlog k);
  sys_open k := (unused (toy_fds k), mkToy ({[unused (toy_fds k)]} ∪ toy_fds k) (toy_limit k) (toy_backlog k)) }.

#[export] Program Instance toy_KernelLaws : KernelLaws toy_kernel.
Next Obligation. intros k Hb. simpl in *. by rewrite Hb. Qed.
Next Obligation. intros k Hb Hl. simpl in *. destruct (toy_backlog k); [done|]. by rewrite decide_True. Qed.
Next Obligation.
  intros k p ps Hb Hl. simpl in *. rewrite Hb, decide_False by lia. destruct (unused_spec (toy_fds k)).
  eexists _, _. by split_and!.
Qed.
Next Obligation. done. Qed.
Next Obligation. intros k Hl. destruct (unused_spec (toy_fds k)). eexists _, _. by split_and!. Qed.

Lemma Acceptor_handleRead_witness :
  ∃ s', handleRead (mkAcceptor true true 4 (mkToy {[3; 4]} 2 [77; 78]) []) = Ok (tt, s') ∧
    backlog (kernel s') = [78] ∧ handed s' = [].
Proof.
  destruct (Acceptor_handleRead (mkAcceptor true true 4 (mkToy {[3; 4]} 2 [77; 78]) []) 77 [78])
    as (s' & E & _ & Hb & Hrest).
  - split; [set_solver|]. vm_compute. lia.
  - reflexivity.
  - exists s'. split; [exact E|]. split; [exact Hb|].
    rewrite decide_True in Hrest by (vm_compute; lia). destruct Hrest as [Hh _]. exact Hh.
Defined.
