(* ===== verification/SocketCalls.v ===== *)
(** What the program asks of the kernel for its sockets: the wrappers of
    [PracticeMuduo/socket.muduo/SocketsOps.cpp] and [Socket.cpp], and the construction,
    start and destruction of an [Acceptor] ([PracticeMuduo/tcp.muduo/Acceptor.cpp]),
    its channel included.  The calls made so far are a list; what the kernel answers to a
    call, and the [errno] it leaves, are functions of that list. *)
From Stdlib Require Import Strings.String.
From S2P Require Import Prelude FixedBuffer LogStream Timestamp Channel Poller PollPoller EPollPoller Sockets.
Open Scope list_scope.

Definition SOCK_STREAM : Z := 1.
Definition SOCK_NONBLOCK : Z := 2048.
Definition SOCK_CLOEXEC : Z := 524288.
Definition IPPROTO_TCP : Z := 6.
Definition SHUT_WR : Z := 1.
Definition SOMAXCONN : Z := 128.
Definition F_GETFD : Z := 1.
Definition F_SETFD : Z := 2.
Definition F_GETFL : Z := 3.
Definition F_SETFL : Z := 4.
Definition FD_CLOEXEC : Z := 1.
Definition O_NONBLOCK : Z := 2048.
Definition O_RDONLY : Z := 0.
Definition O_CLOEXEC : Z := 524288.
Definition SOL_SOCKET : Z := 1.
Definition SO_REUSEADDR : Z := 2.
Definition SO_KEEPALIVE : Z := 9.
Definition SO_REUSEPORT : Z := 15.
Definition SOL_TCP : Z := 6.
Definition TCP_NODELAY : Z := 1.
Definition TCP_INFO : Z := 11.
Definition EBADF : Z := 9.
(** [sizeof(struct sockaddr_in6)] *)
Definition sizeof_sockaddr_in6 : Z := 28.

(** A system call with the arguments that matter. *)
Inductive Syscall :=
| SysSocket (domain type protocol : Z)
| SysClose (fd : Z)
| SysShutdown (fd how : Z)
| SysBind (fd : Z) (addr : InetAddress) (len : Z)
| SysListen (fd backlog : Z)
| SysAccept (fd : Z)
| SysAccept4 (fd flags : Z)
| SysConnect (fd : Z) (addr : InetAddress) (len : Z)
| SysReadv (fd : Z) (iov : list Z)          (* the buffers' lengths *)
| SysFcntl (fd cmd arg : Z)
| SysSetsockopt (fd level name optval : Z)
| SysGetsockopt (fd level name : Z)
| SysOpen (path : list byte) (flags : Z).

#[export] Instance Syscall_eq_dec : EqDecision Syscall.
Proof. solve_decision. Defined.

Abbreviation Trace := (list Syscall).

(** The fields of [struct tcp_info] that the program reads, unsigned. *)
Record tcp_info := mkTcpInfo {
  tcpi_retransmits : Z;
  tcpi_rto : Z;
  tcpi_ato : Z;
  tcpi_snd_mss : Z;
  tcpi_rcv_mss : Z;
  tcpi_lost : Z;
  tcpi_retrans : Z;
  tcpi_rtt : Z;
  tcpi_rttvar : Z;
  tcpi_snd_ssthresh : Z;
  tcpi_snd_cwnd : Z;
  tcpi_total_retrans : Z }.

Definition zero_tcp_info : tcp_info := mkTcpInfo 0 0 0 0 0 0 0 0 0 0 0 0.

(** The text of [getTcpInfoString], before it is cut to the buffer. *)
Definition tcp_info_text (t : tcp_info) : list byte :=
  bytes "unrecovered=" ++ fmt_d (tcpi_retransmits t) ++ bytes " rto=" ++ fmt_d (tcpi_rto t) ++
  bytes " ato=" ++ fmt_d (tcpi_ato t) ++ bytes " snd_mss=" ++ fmt_d (tcpi_snd_mss t) ++
  bytes " rcv_mss=" ++ fmt_d (tcpi_rcv_mss t) ++ bytes " lost=" ++ fmt_d (tcpi_lost t) ++
  bytes " retrans=" ++ fmt_d (tcpi_retrans t) ++ bytes " rtt=" ++ fmt_d (tcpi_rtt t) ++
  bytes " rttvar=" ++ fmt_d (tcpi_rttvar t) ++ bytes " sshthresh=" ++ fmt_d (tcpi_snd_ssthresh t) ++
  bytes " cwnd=" ++ fmt_d (tcpi_snd_cwnd t) ++ bytes " total_retrans=" ++ fmt_d (tcpi_total_retrans t).

(** An acceptor and the things it owns: its socket, its channel's address, its spare
    descriptor. *)
Record AcceptorObject := mkAcceptorObject {
  acceptSocket_ : Z;
  acceptChannel_ : Z;
  listenning_ : bool;
  idleFd_ : Z }.

(** The calls so far, and the event loop. *)
Record Env (P : Type) := mkEnv { trace : Trace; env_loop : LoopChannels P }.
Arguments mkEnv {P}. Arguments trace {P}. Arguments env_loop {P}.

(** A result used inside a method. *)
Definition lift {S A} (r : res A) : M S A := λ s, match r with Ok a => Ok (a, s) | Fault f => Fault f end.

Section calls.
Context (answer : Trace -> Syscall -> Z) (errno : Trace -> Z).

Definition sys (c : Syscall) : M Trace Z := λ h, Ok (answer h c, h ++ [c]).
(** A call whose failure is at most logged. *)
Definition sys_ (c : Syscall) : M Trace unit := sys c ;; mret tt.

(** * SocketsOps.cpp *)

(** Without [accept4] (under valgrind, or when NO_ACCEPT4 is defined) the flags are set
    afterwards; a failed [fcntl] is -1, to which the flag is added all the same. *)
Definition setNonBlockAndCloseOnExec (sockfd : Z) : M Trace unit :=
  flags ← sys (SysFcntl sockfd F_GETFL 0);
  sys_ (SysFcntl sockfd F_SETFL (Z.lor flags O_NONBLOCK)) ;;
  flags ← sys (SysFcntl sockfd F_GETFD 0);
  sys_ (SysFcntl sockfd F_SETFD (Z.lor flags FD_CLOEXEC)).

Definition createNonblockingOrDie (valgrind : bool) (family : Z) : M Trace Z :=
  if valgrind then
    sockfd ← sys (SysSocket family SOCK_STREAM IPPROTO_TCP);
    sockfd ← lift (Sockets.createNonblockingOrDie sockfd);
    setNonBlockAndCloseOnExec sockfd ;;
    mret sockfd
  else
    sockfd ← sys (SysSocket family (Z.lor (Z.lor SOCK_STREAM SOCK_NONBLOCK) SOCK_CLOEXEC) IPPROTO_TCP);
    lift (Sockets.createNonblockingOrDie sockfd).

Definition close (sockfd : Z) : M Trace unit := sys_ (SysClose sockfd).
Definition shutdownWrite (sockfd : Z) : M Trace unit := sys_ (SysShutdown sockfd SHUT_WR).
Definition bindOrDie (sockfd : Z) (addr : InetAddress) : M Trace unit :=
  ret ← sys (SysBind sockfd addr sizeof_sockaddr_in6);
  lift (Sockets.bindOrDie ret).
Definition listenOrDie (sockfd : Z) : M Trace unit :=
  ret ← sys (SysListen sockfd SOMAXCONN);
  lift (Sockets.listenOrDie ret).
Definition connect (sockfd : Z) (addr : InetAddress) : M Trace Z := sys (SysConnect sockfd addr sizeof_sockaddr_in6).
Definition readv (sockfd : Z) (iov : list Z) : M Trace Z := sys (SysReadv sockfd iov).

(** [sockets::accept]: the descriptor, and the [errno] if there is none. *)
Definition accept (no_accept4 : bool) (sockfd : Z) : M Trace (Z * Z) :=
  connfd ← (if no_accept4 then
              connfd ← sys (SysAccept sockfd);
              setNonBlockAndCloseOnExec connfd ;;
              mret connfd
            else sys (SysAccept4 sockfd (Z.lor SOCK_NONBLOCK SOCK_CLOEXEC)));
  h ← get;
  lift (Sockets.accept (if connfd <? 0 then inl (errno h) else inr connfd)).

(** * Socket.cpp, of a socket known by its descriptor *)

Definition socket_dtor (sockfd_ : Z) : M Trace unit := close sockfd_.
Definition socket_bindAddress (sockfd_ : Z) (addr : InetAddress) : M Trace unit := bindOrDie sockfd_ addr.
Definition socket_listen (sockfd_ : Z) : M Trace unit := listenOrDie sockfd_.
Definition socket_shutdownWrite (sockfd_ : Z) : M Trace unit := shutdownWrite sockfd_.
Definition setTcpNoDelay (sockfd_ : Z) (on : bool) : M Trace unit :=
  sys_ (SysSetsockopt sockfd_ IPPROTO_TCP TCP_NODELAY (if on then 1 else 0)).
Definition setReuseAddr (sockfd_ : Z) (on : bool) : M Trace unit :=
  sys_ (SysSetsockopt sockfd_ SOL_SOCKET SO_REUSEADDR (if on then 1 else 0)).
(** Where [SO_REUSEPORT] is defined. *)
Definition setReusePort (sockfd_ : Z) (on : bool) : M Trace unit :=
  sys_ (SysSetsockopt sockfd_ SOL_SOCKET SO_REUSEPORT (if on then 1 else 0)).
Definition setKeepAlive (sockfd_ : Z) (on : bool) : M Trace unit :=
  sys_ (SysSetsockopt sockfd_ SOL_SOCKET SO_KEEPALIVE (if on then 1 else 0)).

(** For what the kernel stores in the zeroed structure when the call succeeds. *)
Definition getTcpInfo (stored : tcp_info) (sockfd_ : Z) : M Trace (bool * tcp_info) :=
  ret ← sys (SysGetsockopt sockfd_ SOL_TCP TCP_INFO);
  mret (ret =? 0, if ret =? 0 then stored else zero_tcp_info).

(** The text in the [len] bytes of [buf], if it is written. *)
Definition getTcpInfoString (stored : tcp_info) (sockfd_ len : Z) : M Trace (bool * option (list byte)) :=
  '(ok, tcpi) ← getTcpInfo stored sockfd_;
  mret (ok, if ok : bool then Some (snprintf len (tcp_info_text tcpi)) else None).

(** * Acceptor.cpp *)

Section acceptor.
Context {P : Type} `{PollerLaws P}.

Definition on_trace {A} (m : M Trace A) : M (Env P) A := zoom trace (λ h e, mkEnv h (env_loop e)) m.
Definition on_loop {A} (m : M (LoopChannels P) A) : M (Env P) A := zoom env_loop (λ l e, mkEnv (trace e) l) m.

(** A channel is constructed at, or destroyed at, an address. *)
Definition construct (a : Z) (c : Channel) : M (LoopChannels P) unit :=
  modify (λ l, mkLoop (<[a := c]> (chans l)) (poller_ l) (inLoopThread l) (loopHandling l)
                 (currentActiveChannel_ l) (activeChannels_ l)).
Definition destroy (a : Z) : M (LoopChannels P) unit :=
  l ← get;
  c ← of_option UB (chans l !! a);
  lift (Channel_dtor c) ;;
  modify (λ l, mkLoop (delete a (chans l)) (poller_ l) (inLoopThread l) (loopHandling l)
                 (currentActiveChannel_ l) (activeChannels_ l)).

Definition acceptor_ctor (valgrind : bool) (a : Z) (listenAddr : InetAddress) (reusePort : bool) : M (Env P) AcceptorObject :=
  fd ← on_trace (createNonblockingOrDie valgrind (family listenAddr));
  on_loop (construct a (new_Channel fd)) ;;
  idle ← on_trace (sys (SysOpen (bytes "/dev/null") (Z.lor O_RDONLY O_CLOEXEC)));
  on_trace (setReuseAddr fd true) ;;
  on_trace (setReusePort fd reusePort) ;;
  on_trace (socket_bindAddress fd listenAddr) ;;
  on_loop (on_channel (set_callback CbRead) a) ;;
  mret (mkAcceptorObject fd a false idle).

Definition acceptor_listen (x : AcceptorObject) : M (Env P) AcceptorObject :=
  on_loop assertInLoopThread ;;
  let x := mkAcceptorObject (acceptSocket_ x) (acceptChannel_ x) true (idleFd_ x) in
  on_trace (socket_listen (acceptSocket_ x)) ;;
  on_loop (channel_enableReading (acceptChannel_ x)) ;;
  mret x.

(** The body, then the members' destructors, the last one first. *)
Definition acceptor_dtor (x : AcceptorObject) : M (Env P) unit :=
  on_loop (channel_disableAll (acceptChannel_ x)) ;;
  on_loop (remove (acceptChannel_ x)) ;;
  on_loop (destroy (acceptChannel_ x)) ;;
  on_trace (socket_dtor (acceptSocket_ x)).
End acceptor.
End calls.

(** * Properties *)

Section props.
Context (answer : Trace -> Syscall -> Z) (errno : Trace -> Z).

(** Where [accept4] is used, the errors the program expects come back with the descriptor -1,
    and the others end the program. *)
Lemma accept4_errors fd h :
  let h' := h ++ [SysAccept4 fd (Z.lor SOCK_NONBLOCK SOCK_CLOEXEC)] in
  answer h (SysAccept4 fd (Z.lor SOCK_NONBLOCK SOCK_CLOEXEC)) = -1 ->
  accept answer errno false fd h =
    if bool_decide (errno h' ∈ [EAGAIN; ECONNABORTED; EINTR; EPROTO; EPERM; EMFILE])
    then Ok ((-1, errno h'), h') else Fault FatalLog.
Proof.
  intros h' E. unfold accept, sys. msimp. rewrite E. unfold lift, Sockets.accept. cbn [Z.ltb Z.compare]. fold h'.
  by case_bool_decide.
Qed.

(** Without it, [fcntl] is called on the descriptor -1 before the error is looked at and leaves
    its own [errno]: any failure of [accept], even an interrupted or empty one, ends the
    program. *)
Theorem accept_without_accept4 fd h :
  (∀ h cmd arg, errno (h ++ [SysFcntl (-1) cmd arg]) = EBADF) ->
  answer h (SysAccept fd) = -1 ->
  accept answer errno true fd h = Fault FatalLog.
Proof.
  intros He E. unfold accept, setNonBlockAndCloseOnExec, sys_, sys. msimp. rewrite E. rewrite He. reflexivity.
Qed.

(** The numbers of a [tcp_info] are of 32 bits, the first of 8. *)
Record tcp_info_ok (t : tcp_info) : Prop := {
  ok_retransmits : 0 <= tcpi_retransmits t < 2 ^ 8;
  ok_rto : 0 <= tcpi_rto t < 2 ^ 32;
  ok_ato : 0 <= tcpi_ato t < 2 ^ 32;
  ok_snd_mss : 0 <= tcpi_snd_mss t < 2 ^ 32;
  ok_rcv_mss : 0 <= tcpi_rcv_mss t < 2 ^ 32;
  ok_lost : 0 <= tcpi_lost t < 2 ^ 32;
  ok_retrans : 0 <= tcpi_retrans t < 2 ^ 32;
  ok_rtt : 0 <= tcpi_rtt t < 2 ^ 32;
  ok_rttvar : 0 <= tcpi_rttvar t < 2 ^ 32;
  ok_snd_ssthresh : 0 <= tcpi_snd_ssthresh t < 2 ^ 32;
  ok_snd_cwnd : 0 <= tcpi_snd_cwnd t < 2 ^ 32;
  ok_total_retrans : 0 <= tcpi_total_retrans t < 2 ^ 32 }.

Lemma fmt_u32_length v : 0 <= v < 2 ^ 32 -> (length (fmt_d v) <= 10)%nat.
Proof. intros Hv. apply (fmt_d_length v 9); [change (10 ^ Z.of_nat 10) with 10000000000|]; lia. Qed.

Lemma tcp_info_text_length t : tcp_info_ok t -> (length (tcp_info_text t) < 224)%nat.
Proof.
  intros [H1 H2 H3 H4 H5 H6 H7 H8 H9 H10 H11 H12]. unfold tcp_info_text. rewrite !length_app.
  pose proof (fmt_d_length (tcpi_retransmits t) 2 ltac:(change (10 ^ Z.of_nat 3) with 1000; lia) ltac:(lia)).
  repeat match goal with H : 0 <= ?v < 2 ^ 32 |- _ => apply fmt_u32_length in H end.
  repeat match goal with |- context [length (bytes ?s)] =>
    let n := eval vm_compute in (length (bytes s)) in change (length (bytes s)) with n end.
  lia.
Qed.

(** A buffer of 224 bytes holds the whole text, whatever the numbers; a smaller one its
    beginning. *)
Theorem tcp_info_string t fd len h :
  tcp_info_ok t ->
  let r := answer h (SysGetsockopt fd SOL_TCP TCP_INFO) in
  getTcpInfoString answer t fd len h =
    Ok ((r =? 0, if r =? 0 then Some (take (Z.to_nat (len - 1)) (tcp_info_text t)) else None),
        h ++ [SysGetsockopt fd SOL_TCP TCP_INFO]) ∧
  (224 <= len -> take (Z.to_nat (len - 1)) (tcp_info_text t) = tcp_info_text t).
Proof.
  intros Ht r. split.
  - unfold getTcpInfoString, getTcpInfo, sys. msimp. fold r. by destruct (r =? 0).
  - intros Hlen. apply take_ge. pose proof (tcp_info_text_length t Ht). lia.
Qed.

(** * The life of an acceptor *)

Section acceptor.
Context {P : Type} `{PollerLaws P}.

Lemma on_trace_Ok {A} (m : M Trace A) (e : Env P) a h' :
  m (trace e) = Ok (a, h') -> on_trace m e = Ok (a, mkEnv h' (env_loop e)).
Proof. intros E. unfold on_trace, zoom. by rewrite E. Qed.

Lemma on_loop_Ok {A} (m : M (LoopChannels P) A) (e : Env P) a l' :
  m (env_loop e) = Ok (a, l') -> on_loop m e = Ok (a, mkEnv (trace e) l').
Proof. intros E. unfold on_loop, zoom. by rewrite E. Qed.

(** A new object at a free address is nothing to the poller. *)
Lemma inv_new_object chs p a c : poller_inv chs p -> chs !! a = None -> poller_inv (<[a := c]> chs) p.
Proof.
  intros Hi Ha. eapply inv_other; [exact Hi|]. intros fd b d _ Hb. exists d.
  rewrite lookup_insert_ne by congruence. by split.
Qed.

(** Nor is the end of an object that is not registered. *)
Lemma inv_delete_object chs p a :
  poller_inv chs p -> (∀ fd, channels_ p !! fd ≠ Some a) -> poller_inv (delete a chs) p.
Proof.
  intros Hi Ha. eapply inv_other; [exact Hi|]. intros fd b d Hb Hd. exists d.
  rewrite lookup_delete_ne by (intros ->; by apply (Ha fd)). by split.
Qed.

Lemma no_object_no_registration (l : LoopChannels P) a fd :
  loop_inv l -> chans l !! a = None -> channels_ (poller_ l) !! fd ≠ Some a.
Proof. intros [_ Hi] Ha E. destruct (inv_registered _ _ _ _ Hi E) as (c & Hc & _). congruence. Qed.

Lemma createNonblockingOrDie_Ok fam h :
  let c := SysSocket fam (Z.lor (Z.lor SOCK_STREAM SOCK_NONBLOCK) SOCK_CLOEXEC) IPPROTO_TCP in
  0 <= answer h c -> createNonblockingOrDie answer false fam h = Ok (answer h c, h ++ [c]).
Proof.
  intros c Hc. unfold createNonblockingOrDie, sys. msimp. fold c. unfold lift, Sockets.createNonblockingOrDie.
  by rewrite (proj2 (Z.ltb_ge _ _)).
Qed.

(** What the constructor leaves: the channel at its address, and the calls it made, the options
    before the [bind]. *)
Definition ctor_calls (fd : Z) (addr : InetAddress) (reusePort : bool) : Trace :=
  [ SysSocket (family addr) (Z.lor (Z.lor SOCK_STREAM SOCK_NONBLOCK) SOCK_CLOEXEC) IPPROTO_TCP;
    SysOpen (bytes "/dev/null") (Z.lor O_RDONLY O_CLOEXEC);
    SysSetsockopt fd SOL_SOCKET SO_REUSEADDR 1;
    SysSetsockopt fd SOL_SOCKET SO_REUSEPORT (if reusePort then 1 else 0);
    SysBind fd addr sizeof_sockaddr_in6 ].

Definition acceptor_channel (fd : Z) : Channel := set_callback CbRead (new_Channel fd).

Lemma acceptor_ctor_spec a addr reusePort (l : LoopChannels P) h :
  let fd := answer h (SysSocket (family addr) (Z.lor (Z.lor SOCK_STREAM SOCK_NONBLOCK) SOCK_CLOEXEC) IPPROTO_TCP) in
  0 <= fd ->
  ∃ idle, acceptor_ctor answer false a addr reusePort (mkEnv h l) =
    Ok (mkAcceptorObject fd a false idle,
        mkEnv (h ++ ctor_calls fd addr reusePort)
          (mkLoop (<[a := acceptor_channel fd]> (chans l)) (poller_ l) (inLoopThread l) (loopHandling l)
             (currentActiveChannel_ l) (activeChannels_ l))).
Proof.
  intros fd Hfd. eexists. unfold acceptor_ctor.
  rewrite (bind_Ok _ _ _ _ _ (on_trace_Ok _ (mkEnv h l) _ _ (createNonblockingOrDie_Ok (family addr) h Hfd))). fold fd.
  unfold on_trace, on_loop, construct, sys, setReuseAddr, setReusePort, socket_bindAddress, bindOrDie, sys_, on_channel,
    lift, Sockets.bindOrDie, sys. msimp. simpl. rewrite lookup_insert_eq. rewrite insert_insert_eq.
  rewrite <- !(assoc_L (++)). reflexivity.
Qed.

Lemma acceptor_listen_spec fd a idle (l : LoopChannels P) h :
  loop_inv l -> a ≠ 0 -> chans l !! a = Some (acceptor_channel fd) -> 0 <= fd ->
  channels_ (poller_ l) !! fd = None -> 0 <= answer h (SysListen fd SOMAXCONN) ->
  ∃ l', acceptor_listen answer (mkAcceptorObject fd a false idle) (mkEnv h l) =
      Ok (mkAcceptorObject fd a true idle, mkEnv (h ++ [SysListen fd SOMAXCONN]) l') ∧
    loop_inv l' ∧ channels_ (poller_ l') = <[fd := a]> (channels_ (poller_ l)) ∧
    (∃ i, chans l' !! a = Some (set_index i (set_added true (enableReading (acceptor_channel fd))))) ∧
    loopHandling l' = loopHandling l ∧ currentActiveChannel_ l' = currentActiveChannel_ l ∧
    activeChannels_ l' = activeChannels_ l.
Proof.
  intros Hi Ha0 Hc Hfd Hnone Hlisten.
  destruct (update_fresh enableReading a _ l ltac:(done) Hi Ha0 Hc Hfd eq_refl Hnone)
    as (l' & i & E & Hi' & Hch & Hreg & Hh & Hcur & Hact).
  exists l'. split_and!; try done; [|exists i; rewrite Hch; apply lookup_insert_eq].
  unfold acceptor_listen. rewrite (bind_Ok _ _ _ _ _ (on_loop_Ok assertInLoopThread (mkEnv h l) tt l
    ltac:(unfold assertInLoopThread; simpl; by rewrite (proj1 Hi)))). cbn [acceptSocket_ acceptChannel_ idleFd_ trace].
  rewrite (bind_Ok _ _ _ tt (mkEnv (h ++ [SysListen fd SOMAXCONN]) l)).
  - rewrite (bind_Ok _ _ _ _ _ (on_loop_Ok _ (mkEnv _ l) _ _ E)). done.
  - apply on_trace_Ok. unfold socket_listen, listenOrDie, sys, lift, Sockets.listenOrDie. msimp. simpl.
    by rewrite (proj2 (Z.ltb_ge _ _)).
Qed.

Lemma acceptor_dtor_spec x c (l : LoopChannels P) h :
  loop_inv l -> chans l !! acceptChannel_ x = Some c -> eventHandling_ c = false ->
  channels_ (poller_ l) !! fd_ c = Some (acceptChannel_ x) ->
  (loopHandling l = true -> acceptChannel_ x ∉ activeChannels_ l) ->
  ∃ l', acceptor_dtor answer x (mkEnv h l) = Ok (tt, mkEnv (h ++ [SysClose (acceptSocket_ x)]) l') ∧
    loop_inv l' ∧ channels_ (poller_ l') = delete (fd_ c) (channels_ (poller_ l)) ∧ chans l' !! acceptChannel_ x = None.
Proof.
  intros Hi Hc Hh Hreg Hact. set (a := acceptChannel_ x) in *.
  destruct (update_registered disableAll a l) as (l1 & c' & i & E1 & Hc' & Hi1 & Hch1 & Hreg1 & Hh1 & _ & Hact1 & Hrem);
    [done|done|done|by exists c|]. rewrite Hc in Hc'. injection Hc' as <-.
  assert (chans l1 !! a = Some (set_index i (set_added true (disableAll c)))) as Hc1 by (rewrite Hch1; apply lookup_insert_eq).
  destruct (remove_frame a _ l1 Hi1 Hc1 eq_refl (Hrem eq_refl)) as (l2 & E2 & Hi2 & Hreg2 & Hk2 & _);
    [intros X; right; rewrite Hact1; apply Hact; congruence|].
  destruct (Hk2 a _ ltac:(by rewrite decide_True)) as [j Hc2].
  set (l3 := mkLoop (delete a (chans l2)) (poller_ l2) (inLoopThread l2) (loopHandling l2) (currentActiveChannel_ l2) (activeChannels_ l2)).
  exists l3. split.
  - unfold acceptor_dtor. fold a. rewrite (bind_Ok _ _ _ _ _ (on_loop_Ok _ (mkEnv h l) _ _ E1)).
    rewrite (bind_Ok _ _ _ _ _ (on_loop_Ok _ (mkEnv _ l1) _ _ E2)). rewrite (bind_Ok _ _ _ tt (mkEnv h l3)); [done|].
    apply (on_loop_Ok _ (mkEnv h l2)). unfold destroy. cbn [env_loop]. rewrite (bind_Ok _ _ l2 l2 l2) by done.
    rewrite (bind_Ok _ _ l2 _ l2) by (by rewrite Hc2). rewrite (bind_Ok _ _ l2 tt l2); [done|].
    unfold lift, Channel_dtor. simpl. by rewrite Hh.
  - assert (channels_ (poller_ l2) = delete (fd_ c) (channels_ (poller_ l))) as Hreg' by (rewrite Hreg2, Hreg1; done).
    split_and!; [|done|apply lookup_delete_eq]. split; [apply Hi2|]. apply inv_delete_object; [apply Hi2|].
    intros fd Hfd. destruct (inv_registered _ _ _ _ (proj2 Hi2) Hfd) as (d & Hd & Hdfd). rewrite Hc2 in Hd. injection Hd as <-.
    cbn in Hdfd. subst fd. change (poller_ l3) with (poller_ l2) in Hfd. rewrite Hreg', lookup_delete_eq in Hfd. done.
Qed.

(** C22: The life of a listening acceptor, under any poller that keeps the interface's laws and
    whatever [bind] and [setsockopt] answer: the socket's options are set before [bind], [bind]
    before [listen]; while it listens its channel is registered for reading; after its
    destructor the loop and the poller's map are as they were, the channel is gone and the socket
    closed, once.  The spare descriptor is never closed. *)
Theorem acceptor_life a addr reusePort (l : LoopChannels P) h :
  let fd := answer h (SysSocket (family addr) (Z.lor (Z.lor SOCK_STREAM SOCK_NONBLOCK) SOCK_CLOEXEC) IPPROTO_TCP) in
  loop_inv l -> a ≠ 0 -> chans l !! a = None -> 0 <= fd -> channels_ (poller_ l) !! fd = None ->
  (loopHandling l = true -> a ∉ activeChannels_ l) ->
  (∀ h, 0 <= answer h (SysListen fd SOMAXCONN)) ->
  ∃ x x' l1 l2 l3 c, let h1 := h ++ ctor_calls fd addr reusePort in
    acceptor_ctor answer false a addr reusePort (mkEnv h l) = Ok (x, mkEnv h1 l1) ∧
    acceptor_listen answer x (mkEnv h1 l1) = Ok (x', mkEnv (h1 ++ [SysListen fd SOMAXCONN]) l2) ∧
    chans l2 !! a = Some c ∧ events_ c = kReadEvent ∧ channels_ (poller_ l2) = <[fd := a]> (channels_ (poller_ l)) ∧
    acceptor_dtor answer x' (mkEnv (h1 ++ [SysListen fd SOMAXCONN]) l2) =
      Ok (tt, mkEnv (h1 ++ [SysListen fd SOMAXCONN; SysClose fd]) l3) ∧
    loop_inv l3 ∧ channels_ (poller_ l3) = channels_ (poller_ l) ∧ chans l3 !! a = None.
Proof.
  intros fd Hi Ha0 Ha Hfd Hnone Hact Hlisten.
  destruct (acceptor_ctor_spec a addr reusePort l h Hfd) as [idle E1]. fold fd in E1.
  set (l1 := mkLoop (<[a := acceptor_channel fd]> (chans l)) (poller_ l) (inLoopThread l) (loopHandling l)
               (currentActiveChannel_ l) (activeChannels_ l)) in *.
  assert (loop_inv l1) as Hi1 by (split; [apply Hi|by apply inv_new_object, Ha; apply Hi]).
  destruct (acceptor_listen_spec fd a idle l1 (h ++ ctor_calls fd addr reusePort) Hi1 Ha0)
    as (l2 & E2 & Hi2 & Hreg2 & [i Hc2] & Hh2 & _ & Hact2); [apply lookup_insert_eq|done..|].
  destruct (acceptor_dtor_spec (mkAcceptorObject fd a true idle) _ l2
    ((h ++ ctor_calls fd addr reusePort) ++ [SysListen fd SOMAXCONN]) Hi2 Hc2 eq_refl)
    as (l3 & E3 & Hi3 & Hreg3 & Hc3); [rewrite Hreg2; apply lookup_insert_eq|rewrite Hh2, Hact2; exact Hact|].
  do 6 eexists. cbv zeta. split_and!; [exact E1|exact E2|exact Hc2|reflexivity|exact Hreg2| |exact Hi3| |exact Hc3].
  - rewrite E3. cbn [acceptSocket_]. by rewrite <- (assoc_L (++)).
  - rewrite Hreg3, Hreg2. by apply delete_insert_id.
Qed.
End acceptor.
End props.

Definition sample_answer (h : Trace) (c : Syscall) : Z :=
  match c with SysSocket _ _ _ => 5 | SysOpen _ _ => 6 | _ => 0 end.

Definition any_4000 : InetAddress := new_InetAddress 4000 false false.
Definition empty_loop : LoopChannels PollPoller := mkLoop ∅ new_PollPoller true false None [].

(** Under the poll poller an acceptor that never listened cannot be destroyed: [disableAll]
    registers its channel for the first time, without parking it as [removeChannel] expects.
    Under the epoll poller, the default, it can. *)
Lemma unheard_acceptor_aborts :
  let unheard {P} `{PollerLaws P} (p : P) :=
    (acceptor_ctor sample_answer false 1 any_4000 true ≫= acceptor_dtor sample_answer)
      (mkEnv [] (mkLoop ∅ p true false None [])) in
  unheard new_PollPoller = Fault AssertFail ∧ is_ok (unheard sample_poller) = true.
Proof. vm_compute. split; reflexivity. Qed.

Lemma acceptor_life_witness :
  ∃ x x' l1 l2 l3,
    acceptor_ctor sample_answer false 1 any_4000 true (mkEnv [] empty_loop) = Ok (x, mkEnv (ctor_calls 5 any_4000 true) l1) ∧
    acceptor_listen sample_answer x (mkEnv (ctor_calls 5 any_4000 true) l1) =
      Ok (x', mkEnv (ctor_calls 5 any_4000 true ++ [SysListen 5 SOMAXCONN]) l2) ∧
    acceptor_dtor sample_answer x' (mkEnv (ctor_calls 5 any_4000 true ++ [SysListen 5 SOMAXCONN]) l2) =
      Ok (tt, mkEnv (ctor_calls 5 any_4000 true ++ [SysListen 5 SOMAXCONN; SysClose 5]) l3).
Proof.
  destruct (acceptor_life sample_answer 1 any_4000 true empty_loop []) as (x & x' & l1 & l2 & l3 & c & E1 & E2 & _ & _ & _ & E3 & _);
    try done.
  exists x, x', l1, l2, l3. split_and!; [exact E1|exact E2|exact E3].
Defined.
