(* ===== verification/TcpServer.v ===== *)
(** Servers and clients: [PracticeMuduo/tcp.muduo/TcpServer.cpp] and [TcpClient.cc]: the table of
    connections, their names and their loops, and a client's reconnecting.  Connections
    and loops are names; the functors handed to other loops are recorded. *)
From Stdlib Require Import Strings.String.
From S2P Require Import Prelude FixedBuffer LogStream Timestamp Sockets EventLoopThread Connector.
Open Scope list_scope.

#[export] Instance byte_countable : Countable byte :=
  inj_countable Byte.to_N Byte.of_N Byte.of_to_N.

(** * TcpServer *)

(** A connection as its server sets it up: name, loop and which callbacks it was given. *)
Record Conn := mkConnection {
  c_name : list byte;
  c_loop : Z;
  c_connectionCallback : bool;
  c_messageCallback : bool;
  c_writeCompleteCallback : bool }.

#[export] Instance Conn_eq_dec : EqDecision Conn.
Proof. solve_decision. Defined.

Inductive ServerFunctor := FListen | FConnectEstablished (c : Conn) | FConnectDestroyed (c : Conn).

Record TcpServer := mkServer {
  name_ : list byte;
  ipPort_ : list byte;
  listenning_ : bool;
  threadPool_ : EventLoopThreadPool;
  connectionCallback_ : bool;
  messageCallback_ : bool;
  writeCompleteCallback_ : bool;
  started_ : Z;
  nextConnId_ : Z;
  connections_ : gmap (list byte) Conn;
  queued : list (Z * ServerFunctor) }.

Definition new_TcpServer (loop : Z) (ipPort : list byte) : TcpServer :=
  mkServer ipPort ipPort false (new_EventLoopThreadPool loop) false false false 0 1 ∅ [].

Definition set_pool (p : EventLoopThreadPool) (s : TcpServer) : TcpServer :=
  mkServer (name_ s) (ipPort_ s) (listenning_ s) p (connectionCallback_ s) (messageCallback_ s)
    (writeCompleteCallback_ s) (started_ s) (nextConnId_ s) (connections_ s) (queued s).
Definition set_started (x : Z) (s : TcpServer) : TcpServer :=
  mkServer (name_ s) (ipPort_ s) (listenning_ s) (threadPool_ s) (connectionCallback_ s) (messageCallback_ s)
    (writeCompleteCallback_ s) x (nextConnId_ s) (connections_ s) (queued s).
Definition set_nextConnId (x : Z) (s : TcpServer) : TcpServer :=
  mkServer (name_ s) (ipPort_ s) (listenning_ s) (threadPool_ s) (connectionCallback_ s) (messageCallback_ s)
    (writeCompleteCallback_ s) (started_ s) x (connections_ s) (queued s).
Definition set_connections (m : gmap (list byte) Conn) (s : TcpServer) : TcpServer :=
  mkServer (name_ s) (ipPort_ s) (listenning_ s) (threadPool_ s) (connectionCallback_ s) (messageCallback_ s)
    (writeCompleteCallback_ s) (started_ s) (nextConnId_ s) m (queued s).
Definition runInLoop (loop : Z) (f : ServerFunctor) (s : TcpServer) : TcpServer :=
  mkServer (name_ s) (ipPort_ s) (listenning_ s) (threadPool_ s) (connectionCallback_ s) (messageCallback_ s)
    (writeCompleteCallback_ s) (started_ s) (nextConnId_ s) (connections_ s) (queued s ++ [(loop, f)]).
Definition set_queued (q : list (Z * ServerFunctor)) (s : TcpServer) : TcpServer :=
  mkServer (name_ s) (ipPort_ s) (listenning_ s) (threadPool_ s) (connectionCallback_ s) (messageCallback_ s)
    (writeCompleteCallback_ s) (started_ s) (nextConnId_ s) (connections_ s) q.
Definition set_callbacks (cc mc wc : bool) (s : TcpServer) : TcpServer :=
  mkServer (name_ s) (ipPort_ s) (listenning_ s) (threadPool_ s) cc mc wc
    (started_ s) (nextConnId_ s) (connections_ s) (queued s).

Definition server_setThreadNum (numThreads : Z) : M TcpServer unit :=
  assert (0 <=? numThreads) ;; modify (λ s, set_pool (setThreadNum numThreads (threadPool_ s)) s).

(** [start()], with the loops the pool's threads will have. *)
Definition start (cb : bool) (startLoop : nat -> Z) : M TcpServer unit :=
  old ← zoom started_ set_started (getAndSet 1);
  when (old =? 0)
    (zoom threadPool_ set_pool (pool_start true cb startLoop) ;;
     s ← get;
     assert (negb (listenning_ s)) ;;
     modify (runInLoop (baseLoop_ (threadPool_ s)) FListen)).

(** [name_ + "-ipPort#id"], the second part cut to 63 characters. *)
Definition connName (s : TcpServer) (id : Z) : list byte :=
  name_ s ++ snprintf 64 (bytes "-" ++ ipPort_ s ++ bytes "#" ++ fmt_d id).

(** [newConnection(sockfd, peerAddr)], on the server's loop. *)
Definition newConnection : M TcpServer unit :=
  ioLoop ← zoom threadPool_ set_pool (getNextLoop true);
  s ← get;
  let id := nextConnId_ s in
  (if id <? 2 ^ 31 - 1 then modify (set_nextConnId (id + 1)) else fail UB) ;;
  let name := connName s id in
  let conn := mkConnection name ioLoop (connectionCallback_ s) (messageCallback_ s) false in
  modify (λ s, set_connections (<[name := conn]> (connections_ s)) s) ;;
  modify (runInLoop ioLoop (FConnectEstablished conn)).

Definition removeConnectionInLoop (conn : Conn) : M TcpServer unit :=
  s ← get;
  let n := if bool_decide (is_Some (connections_ s !! c_name conn)) then 1 else 0 in
  modify (set_connections (delete (c_name conn) (connections_ s))) ;;
  assert (n =? 1) ;;
  modify (runInLoop (c_loop conn) (FConnectDestroyed conn)).

(** ** The table *)

Definition pool_ok (p : EventLoopThreadPool) : Prop :=
  EventLoopThread.started_ p = true ∧ (loops_ p ≠ [] -> 0 <= next_ p < zlen (loops_ p)).

(** Names are cut off only for addresses longer than any the program prints. *)
Record server_inv (s : TcpServer) : Prop := {
  si_pool : pool_ok (threadPool_ s);
  si_ip : zlen (ipPort_ s) <= 51;
  si_id : 1 <= nextConnId_ s < 2 ^ 31;
  si_names nm c : connections_ s !! nm = Some c ->
    c_name c = nm ∧ ∃ i, 1 <= i < nextConnId_ s ∧ nm = connName s i }.

Lemma connName_inj s i j :
  zlen (ipPort_ s) <= 51 -> 1 <= i < 2 ^ 31 -> 1 <= j < 2 ^ 31 -> connName s i = connName s j -> i = j.
Proof.
  intros Hl Hi Hj E. unfold connName in E. apply app_inv_head in E.
  assert (∀ v, 1 <= v < 2 ^ 31 -> snprintf 64 (bytes "-" ++ ipPort_ s ++ bytes "#" ++ fmt_d v) =
            bytes "-" ++ ipPort_ s ++ bytes "#" ++ fmt_d v) as Hcut.
  { intros v Hv. pose proof (fmt_d_length v 9 ltac:(change (10 ^ Z.of_nat 10) with (10 ^ 10); lia) ltac:(lia)).
    unfold snprintf. apply take_ge. change (bytes "-") with [x2d]. change (bytes "#") with [x23].
    rewrite !length_app. cbn [length]. lia. }
  rewrite !Hcut in E by done. do 3 apply app_inv_head in E. apply fmt_d_inj; [lia..|done].
Qed.

Lemma getNextLoop_ok p :
  pool_ok p -> ∃ l p', getNextLoop true p = Ok (l, p') ∧ pool_ok p' ∧ loops_ p' = loops_ p ∧ baseLoop_ p' = baseLoop_ p ∧
    l = default (baseLoop_ p) (loops_ p !! Z.to_nat (next_ p)).
Proof.
  intros [Hs Hn]. destruct (decide (loops_ p = [])) as [Hl|Hl].
  - exists (baseLoop_ p), p. unfold getNextLoop. msimp. rewrite Hs. simpl. rewrite bool_decide_eq_true_2 by done.
    rewrite Hl. by split_and!.
  - destruct (getNextLoop_spec p Hs Hl (Hn Hl)) as (l & E & R). eexists l, _. split; [exact R|].
    rewrite E. split_and!; try done. split; [done|]. intros _. simpl. apply Z.mod_pos_bound. specialize (Hn Hl). lia.
Qed.

Inductive server_step : TcpServer -> TcpServer -> Prop :=
| s_new s s' : newConnection s = Ok (tt, s') -> server_step s s'
| s_remove c s s' : removeConnectionInLoop c s = Ok (tt, s') -> server_step s s'
| s_callbacks cc mc wc s : server_step s (set_callbacks cc mc wc s).

Lemma newConnection_spec s :
  server_inv s -> nextConnId_ s < 2 ^ 31 - 1 ->
  let nm := connName s (nextConnId_ s) in
  ∃ s' c, newConnection s = Ok (tt, s') ∧ connections_ s !! nm = None ∧ connections_ s' = <[nm := c]> (connections_ s) ∧
    c_name c = nm ∧ c_loop c = default (baseLoop_ (threadPool_ s)) (loops_ (threadPool_ s) !! Z.to_nat (next_ (threadPool_ s))) ∧
    c_connectionCallback c = connectionCallback_ s ∧ c_messageCallback c = messageCallback_ s ∧
    c_writeCompleteCallback c = false ∧
    queued s' = queued s ++ [(c_loop c, FConnectEstablished c)] ∧
    (name_ s' = name_ s ∧ ipPort_ s' = ipPort_ s ∧ nextConnId_ s' = nextConnId_ s + 1 ∧
     baseLoop_ (threadPool_ s') = baseLoop_ (threadPool_ s)) ∧ server_inv s'.
Proof.
  intros [Hp Hl Hid Hn] Hmax nm. destruct (getNextLoop_ok _ Hp) as (l & p' & E & Hp' & Hlo & Hba & Hloop).
  assert (connections_ s !! nm = None) as Hfresh.
  { destruct (connections_ s !! nm) as [c|] eqn:X; [|done]. destruct (Hn _ _ X) as (_ & i & Hi & Hnm).
    apply connName_inj in Hnm; [lia|done|lia|lia]. }
  set (c := mkConnection nm l (connectionCallback_ s) (messageCallback_ s) false).
  eexists _, c. split.
  { unfold newConnection. rewrite (bind_Ok _ _ s l (set_pool p' s)) by (unfold zoom; by rewrite E).
    rewrite (bind_Ok _ _ (set_pool p' s) (set_pool p' s) (set_pool p' s)) by done.
    cbn [set_pool nextConnId_]. rewrite (proj2 (Z.ltb_lt _ _) Hmax). reflexivity. }
  split; [done|]. split_and!; try done. split; simpl; try done; [lia|].
  intros nm' c'. destruct (decide (nm' = nm)) as [->|Hne].
  - rewrite lookup_insert_eq. intros [= <-]. split; [done|]. exists (nextConnId_ s). split; [lia|done].
  - rewrite lookup_insert_ne by done. intros X. destruct (Hn _ _ X) as (? & i & ? & ?). split; [done|]. exists i. split; [lia|done].
Qed.

Lemma remove_inv s c : server_inv s -> server_inv (set_connections (delete (c_name c) (connections_ s)) s).
Proof.
  intros [Hp Hl Hid Hn]. split; simpl; try done. intros nm c'. rewrite lookup_delete_Some. intros [_ X]. by apply Hn.
Qed.

Lemma newConnection_id s x s' : server_inv s -> newConnection s = Ok (x, s') -> nextConnId_ s < 2 ^ 31 - 1.
Proof.
  intros Hi E. destruct (decide (nextConnId_ s < 2 ^ 31 - 1)) as [Hm|Hm]; [done|]. exfalso.
  unfold newConnection in E. destruct (getNextLoop_ok _ (si_pool _ Hi)) as (l & p' & El & _).
  rewrite (bind_Ok _ _ s l (set_pool p' s)) in E by (unfold zoom; by rewrite El).
  rewrite (bind_Ok _ _ (set_pool p' s) (set_pool p' s) (set_pool p' s)) in E by done.
  cbn [set_pool nextConnId_] in E. by rewrite (proj2 (Z.ltb_ge _ _)) in E by lia.
Qed.

Lemma server_step_inv s s' : server_inv s -> server_step s s' -> server_inv s'.
Proof.
  intros Hi Hs. destruct Hs as [s1 s1' E|c s1 s1' E|cc mc wc s1].
  - destruct (newConnection_spec s1 Hi (newConnection_id _ _ _ Hi E)) as (s2 & c & E2 & H).
    rewrite E in E2. injection E2 as <-. apply H.
  - unfold removeConnectionInLoop in E. minv E. injection Hk as <-. simpl in *. apply (remove_inv s1 c) in Hi. destruct Hi as [? ? ? Hn]. by split.
  - destruct Hi as [? ? ? Hn]. by split.
Qed.

(** C20: a server's table of connections: in every state a started server reaches, the next
    connection gets a name no connection has, so that entering it into the table
    replaces none; it is given to the next loop of the pool; and every connection of the
    table can be removed, which takes exactly its entry and hands it back to its own
    loop to be destroyed.  The write-complete callback is not passed on. *)
Theorem TcpServer_connections s0 s :
  server_inv s0 -> rtc server_step s0 s ->
  (nextConnId_ s < 2 ^ 31 - 1 ->
     let nm := connName s (nextConnId_ s) in
     ∃ s' c, newConnection s = Ok (tt, s') ∧ connections_ s !! nm = None ∧
       connections_ s' = <[nm := c]> (connections_ s) ∧ c_name c = nm ∧
       c_loop c = default (baseLoop_ (threadPool_ s)) (loops_ (threadPool_ s) !! Z.to_nat (next_ (threadPool_ s))) ∧
       c_writeCompleteCallback c = false ∧ queued s' = queued s ++ [(c_loop c, FConnectEstablished c)]) ∧
  (∀ nm c, connections_ s !! nm = Some c ->
     ∃ s', removeConnectionInLoop c s = Ok (tt, s') ∧ connections_ s' = delete nm (connections_ s) ∧
       queued s' = queued s ++ [(c_loop c, FConnectDestroyed c)]).
Proof.
  intros Hi0 Hr. assert (server_inv s) as Hi by (eapply (rtc_invariant server_step); [apply server_step_inv|done|done]).
  split.
  - intros Hm nm. destruct (newConnection_spec s Hi Hm) as (s' & c & E & Hf & Hc & Hnm & Hl & _ & _ & Hw & Hq & _).
    exists s', c. by split_and!.
  - intros nm c Hc. destruct (si_names _ Hi _ _ Hc) as [Hn _].
    exists (runInLoop (c_loop c) (FConnectDestroyed c) (set_connections (delete nm (connections_ s)) s)). split; [|done].
    unfold removeConnectionInLoop. rewrite Hn. msimp. by rewrite Hc.
Qed.

Definition sample_server : TcpServer := set_pool (mkPool 1 true 2 0 [10; 11]) (new_TcpServer 1 (bytes "127.0.0.1:9981")).

Lemma TcpServer_connections_witness :
  ∃ s' c, newConnection sample_server = Ok (tt, s') ∧ connections_ s' !! c_name c = Some c ∧ c_loop c = 10.
Proof.
  assert (server_inv sample_server) as Hi.
  { split; [split; [reflexivity|intros _; vm_compute; split; congruence]|vm_compute; congruence|vm_compute; split; congruence|].
    intros nm c Hc. simpl in Hc. by rewrite lookup_empty in Hc. }
  destruct (TcpServer_connections sample_server sample_server Hi (rtc_refl _ _)) as [H _].
  destruct H as (s' & c & E & _ & Hc & Hn & Hl & _ & _); [vm_compute; reflexivity|].
  exists s', c. split; [exact E|]. split; [|exact Hl]. rewrite Hc, Hn. apply lookup_insert_eq.
Defined.

(** * TcpClient *)

Inductive ClientFunctor := CDestroy (id : Z) | CShutdown (id : Z) | CForceClose (id : Z) | CSetCloseCallback (id : Z).

(** [connection_] is the number of the connection; [cl_functors] are the calls on it that
    are handed to the loop; [cl_writeCompleteCallback]: the user has set one. *)
Record TcpClient := mkClient {
  connector_ : Connector;
  cl_name : list byte;
  retry_ : bool;
  connect_ : bool;
  cl_nextConnId : Z;
  connection_ : option Z;
  cl_functors : list ClientFunctor;
  cl_writeCompleteCallback : bool }.

Definition new_TcpClient (connector : Connector) (nameArg : list byte) : TcpClient :=
  mkClient connector nameArg false true 1 None [] false.

Definition set_connector (c : Connector) (s : TcpClient) : TcpClient :=
  mkClient c (cl_name s) (retry_ s) (connect_ s) (cl_nextConnId s) (connection_ s) (cl_functors s) (cl_writeCompleteCallback s).
Definition set_connect (b : bool) (s : TcpClient) : TcpClient :=
  mkClient (connector_ s) (cl_name s) (retry_ s) b (cl_nextConnId s) (connection_ s) (cl_functors s) (cl_writeCompleteCallback s).
Definition enableRetry (s : TcpClient) : TcpClient :=
  mkClient (connector_ s) (cl_name s) true (connect_ s) (cl_nextConnId s) (connection_ s) (cl_functors s) (cl_writeCompleteCallback s).
Definition set_connection (c : option Z) (s : TcpClient) : TcpClient :=
  mkClient (connector_ s) (cl_name s) (retry_ s) (connect_ s) (cl_nextConnId s) c (cl_functors s) (cl_writeCompleteCallback s).
Definition queue_client (f : ClientFunctor) (s : TcpClient) : TcpClient :=
  mkClient (connector_ s) (cl_name s) (retry_ s) (connect_ s) (cl_nextConnId s) (connection_ s) (cl_functors s ++ [f]) (cl_writeCompleteCallback s).

Definition client_setWriteCompleteCallback (s : TcpClient) : TcpClient :=
  mkClient (connector_ s) (cl_name s) (retry_ s) (connect_ s) (cl_nextConnId s) (connection_ s) (cl_functors s) true.

Definition on_connector (m : M Connector unit) : M TcpClient unit := zoom connector_ set_connector m.

Definition client_connect (inLoop : bool) (savedErrno : Z) : M TcpClient unit :=
  modify (set_connect true) ;; on_connector (Connector.start inLoop savedErrno).

Definition client_disconnect : M TcpClient unit :=
  modify (set_connect false) ;;
  s ← get;
  match connection_ s with Some id => modify (queue_client (CShutdown id)) | None => mret tt end.

Definition client_stop : M TcpClient unit := modify (set_connect false) ;; on_connector Connector.stop.

(** The name of a new connection: the part after the client's is cut to 31 characters. *)
Definition client_connName (s : TcpClient) (peer : list byte) (id : Z) : list byte :=
  cl_name s ++ snprintf 32 (bytes ":" ++ peer ++ bytes "#" ++ fmt_d id).

(** [newConnection(sockfd)]: the name is the result. *)
Definition client_newConnection (peer : list byte) : M TcpClient (list byte) :=
  s ← get;
  let id := cl_nextConnId s in
  (if id <? 2 ^ 31 - 1 then mret tt else fail UB) ;;
  put (mkClient (connector_ s) (cl_name s) (retry_ s) (connect_ s) (id + 1) (Some id) (cl_functors s) (cl_writeCompleteCallback s)) ;;
  mret (client_connName s peer id).

Definition client_removeConnection (id : Z) (savedErrno : Z) : M TcpClient unit :=
  s ← get;
  assert (bool_decide (connection_ s = Some id)) ;;
  modify (set_connection None) ;;
  modify (queue_client (CDestroy id)) ;;
  when (retry_ s && connect_ s) (on_connector (Connector.restart savedErrno)).

(** [~TcpClient()]; [unique]: nobody else holds the connection. *)
Definition TcpClient_dtor (unique : bool) : M TcpClient unit :=
  s ← get;
  match connection_ s with
  | Some id => modify (queue_client (CSetCloseCallback id)) ;; when unique (modify (queue_client (CForceClose id)))
  | None => on_connector Connector.stop
  end.

(** A client that retries connects again when its connection goes down: the connector
    starts afresh, with the shortest delay. *)
Theorem TcpClient_reconnect s id e :
  connection_ s = Some id -> retry_ s = true -> connect_ s = true ->
  channel_ (connector_ s) = None -> timers (connector_ s) = [] ->
  ∃ s', client_removeConnection id e s = Ok (tt, s') ∧ connection_ s' = None ∧
    cl_functors s' = cl_functors s ++ [CDestroy id] ∧
    (state_ (connector_ s') = kConnecting ∨ timers (connector_ s') = [kInitRetryDelayMs] ∨
     state_ (connector_ s') = kDisconnected ∧ closed (connector_ s') = closed (connector_ s) ++ [created (connector_ s)]).
Proof.
  intros Hc Hr Hco Hch Ht. unfold client_removeConnection. rewrite (bind_Ok _ _ s s s) by done.
  rewrite (bind_Ok _ _ s tt s) by (rewrite Hc; by apply assert_Ok, bool_decide_eq_true).
  rewrite Hr, Hco. cbn [andb when].
  set (s1 := queue_client (CDestroy id) (set_connection None s)).
  rewrite (bind_Ok _ _ s tt (set_connection None s)), (bind_Ok _ _ _ tt s1) by done.
  unfold on_connector, zoom, restart, startInLoop, connect. msimp. cbn [s1 queue_client set_connection connector_].
  destruct (bool_decide (e ∈ [0; _; _; _]));
    [|destruct (bool_decide (e ∈ [EAGAIN; EADDRINUSE; EADDRNOTAVAIL; ECONNREFUSED; ENETUNREACH]))].
  - unfold connecting, Connector.on_channel. msimp. simpl. rewrite Hch. eexists. split; [reflexivity|]. simpl. split_and!; auto.
  - unfold retry. msimp. simpl. eexists. split; [reflexivity|]. simpl. rewrite Ht. split_and!; auto.
  - simpl. eexists. split; [reflexivity|]. simpl. split_and!; auto.
Qed.

(** The names a client gives its connections are cut off: for a peer whose text takes 30
    characters or more, an IPv6 peer, all its connections have the same name. *)
Theorem TcpClient_names_cut s peer i j :
  30 <= zlen peer -> client_connName s peer i = client_connName s peer j.
Proof.
  intros Hl. unfold client_connName, snprintf. f_equal. change (bytes ":") with [x3a].
  assert (∀ r, take (Z.to_nat (32 - 1)) ([x3a] ++ peer ++ r) = take (Z.to_nat (32 - 1)) ([x3a] ++ peer)) as E.
  { intros r. rewrite app_assoc. apply take_app_le. rewrite length_app. cbn [length]. lia. }
  by rewrite !E.
Qed.
