(* ===== verification/ServerSystem.v ===== *)
(** A server at work: [TcpServer.cpp] with the connections it has made, each a
    [TcpConnection] that lives in one of the loops of its pool, and the functors that pass
    between the loops' threads.  Connections are shared objects: they are freed when the
    last [shared_ptr] to them goes, and a functor that is bound to a raw [this] does not
    keep them alive. *)
From S2P Require Import Prelude EventLoopThread TcpServer Buffer Channel TcpConnection TcpProps TcpPair.
Open Scope list_scope.

(** * The functors of a loop *)

(** [pendingFunctors_], and the vector that [doPendingFunctors] has swapped out of it, of which
    it has [called] some and is [calling] the others.  The vector, and what its functors are
    bound to, goes when the last of them has been called. *)
Record Queue (A : Type) := mkQueue {
  called : list A;
  calling : list A;
  pendingFunctors_ : list A }.
Arguments mkQueue {A}.
Arguments called {A}.
Arguments calling {A}.
Arguments pendingFunctors_ {A}.

Section queue.
Context {A : Type}.

Definition no_functors : Queue A := mkQueue [] [] [].

(** The functors that are still to be called. *)
Definition todo (q : Queue A) : list A := calling q ++ pendingFunctors_ q.

(** [pendingFunctors_.push_back(f)] *)
Definition pushed (fs : list A) (q : Queue A) : Queue A := mkQueue (called q) (calling q) (pendingFunctors_ q ++ fs).

(** [functors.swap(pendingFunctors_)] *)
Definition swapped (q : Queue A) : Queue A := mkQueue [] (pendingFunctors_ q) [].

(** [functors[i]] is called next: [f], and [fs] are behind it. *)
Definition taken (f : A) (fs : list A) (q : Queue A) : Queue A :=
  mkQueue (match fs with [] => [] | _ => called q ++ [f] end) fs (pendingFunctors_ q).

(** The loop is not in [doPendingFunctors]. *)
Definition at_poll (q : Queue A) : bool := match calling q with [] => true | _ => false end.

Lemma todo_pushed fs q : todo (pushed fs q) = todo q ++ fs.
Proof. unfold todo. cbn. apply app_assoc. Qed.

Lemma todo_swapped q : calling q = [] -> todo (swapped q) = todo q.
Proof. unfold todo. intros ->. cbn. apply app_nil_r. Qed.

Lemma todo_taken f fs q : calling q = f :: fs -> todo q = f :: todo (taken f fs q).
Proof. unfold todo. by intros ->. Qed.
End queue.

(** * State *)

(** What a functor of a loop does with the connection it is bound to. *)
Inductive Job := JEstablished | JDestroyed | JRemove | JConn (f : ConnFunctor).
Definition Pending : Type := Conn * Job.

(** [objects]: the connections that have been made and not freed; [queues]: the functors of
    each loop; [held]: the connections of which the user has kept a [shared_ptr]. *)
Record System := mkSystem {
  server : TcpServer;
  objects : gmap (list byte) (Conn * TcpConnection);
  queues : gmap Z (Queue Pending);
  held : gset (list byte) }.

Definition new_System (sv : TcpServer) : System := mkSystem sv ∅ ∅ ∅.

Definition set_server (x : TcpServer) (s : System) : System := mkSystem x (objects s) (queues s) (held s).
Definition set_objects (x : gmap (list byte) (Conn * TcpConnection)) (s : System) : System :=
  mkSystem (server s) x (queues s) (held s).
Definition set_object (c : Conn) (t : TcpConnection) (s : System) : System :=
  set_objects (<[c_name c := (c, t)]> (objects s)) s.
Definition set_queue (l : Z) (q : Queue Pending) (s : System) : System :=
  mkSystem (server s) (objects s) (<[l := q]> (queues s)) (held s).
Definition set_held (x : gset (list byte)) (s : System) : System :=
  mkSystem (server s) (objects s) (queues s) x.

Definition loop_of (s : System) (l : Z) : Queue Pending := default no_functors (queues s !! l).
Definition queue_of (s : System) (l : Z) : list Pending := todo (loop_of s l).
Definition polling (s : System) (l : Z) : bool := at_poll (loop_of s l).

(** The server's own loop. *)
Definition base (s : System) : Z := baseLoop_ (threadPool_ (server s)).

(** [loop->queueInLoop(f)] *)
Definition queueInLoop (l : Z) (f : Pending) (s : System) : System := set_queue l (pushed [f] (loop_of s l)) s.
Definition swap_functors (l : Z) (s : System) : System := set_queue l (swapped (loop_of s l)) s.
Definition take_up (l : Z) (f : Pending) (fs : list Pending) (s : System) : System := set_queue l (taken f fs (loop_of s l)) s.

(** * Who keeps a connection alive *)

(** [send] and [shutdown] bind [this]; the other functors bind a [shared_ptr]. *)
Definition raw (j : Job) : bool :=
  match j with JConn (FSendInLoop _) | JConn FShutdownInLoop => true | _ => false end.

Definition refers (nm : list byte) (f : Pending) : bool := negb (raw f.2) && bool_decide (c_name f.1 = nm).

Definition referenced (s : System) (nm : list byte) : bool :=
  bool_decide (is_Some (connections_ (server s) !! nm)) || bool_decide (nm ∈ held s)
  || existsb (λ q, existsb (refers nm) (called q.2 ++ todo q.2)) (map_to_list (queues s)).

(** Frees the connections that nobody refers to: [~TcpConnection()] destroys the channel. *)
Definition collect : M System unit :=
  s ← get;
  assert (forallb (λ x, referenced s x.1 || is_ok (Channel_dtor (channel_ x.2.2))) (map_to_list (objects s))) ;;
  modify (set_objects (filter (λ x, referenced s x.1 = true) (objects s))).

(** * The server's handlers *)

(** A method of the server; the result are the functors it hands to loops. *)
Definition on_server (m : M TcpServer unit) : M System (list (Z * ServerFunctor)) := λ s,
  match m (server s) with
  | Ok (_, sv) => Ok (queued sv, set_server (set_queued [] sv) s)
  | Fault f => Fault f
  end.

Definition job (f : ServerFunctor) : list Pending :=
  match f with
  | FListen => []
  | FConnectEstablished c => [(c, JEstablished)]
  | TcpServer.FConnectDestroyed c => [(c, JDestroyed)]
  end.

(** [removeConnectionInLoop(conn)], on the server's loop. *)
Definition removeConnectionInLoop (c : Conn) : M System unit :=
  q ← on_server (TcpServer.removeConnectionInLoop c);
  mapM_ (λ x, mapM_ (λ f, modify (queueInLoop x.1 f)) (job x.2)) q.

(** [removeConnection(conn)], on the connection's loop: [loop_->runInLoop(...)]. *)
Definition removeConnection (c : Conn) : M System unit :=
  s ← get;
  if c_loop c =? base s then removeConnectionInLoop c else modify (queueInLoop (base s) (c, JRemove)).

(** What a method of a connection has left in its part of a queue goes to the loops. *)
Definition hand_over (c : Conn) (f : ConnFunctor) : M System unit :=
  match f with
  | FRemoveConnection => removeConnection c
  | _ => modify (queueInLoop (c_loop c) (c, JConn f))
  end.

(** A method of the connection; [UB] if it has been freed. *)
Definition on_conn (c : Conn) (m : M TcpConnection unit) : M System unit :=
  s ← get;
  match objects s !! c_name c with
  | None => fail UB
  | Some (_, t) =>
      match m t with
      | Fault f => fail f
      | Ok (_, t') => modify (set_object c (set_functors [] t')) ;; mapM_ (hand_over c) (functors t')
      end
  end.

Section system.
(** The kernel's answers and the user's callbacks, for each connection. *)
Context (U : list byte -> User).

(** The close callback only says that it was called: [hand_over] runs it. *)
Abbreviation close := (TcpConnection.removeConnection false).

Definition run_job (f : Pending) : M System unit :=
  let '(c, j) := f in
  let u := U (c_name c) in
  match j with
  | JEstablished => on_conn c (connectEstablished (write u) (onConnection u))
  | JDestroyed => on_conn c (connectDestroyed (write u) (onConnection u))
  | JRemove => removeConnectionInLoop c
  | JConn f => on_conn c (run_functor (write u) (onConnection u) (onWriteComplete u) (onHighWaterMark u) close f)
  end.

(** [newConnection(sockfd, peerAddr)], called by the acceptor on the server's loop. *)
Definition newConnection (sockfd garbage : Z) : M System unit :=
  q ← on_server TcpServer.newConnection;
  mapM_ (λ x,
    match x.2 with
    | FConnectEstablished c =>
        match new_TcpConnection sockfd garbage with
        | Fault f => fail f
        | Ok t =>
            modify (set_object c t) ;;
            s ← get;
            if x.1 =? base s then run_job (c, JEstablished) else modify (queueInLoop x.1 (c, JEstablished))
        end
    | _ => mret tt
    end) q.

(** * Runs *)

Inductive SysOp :=
| OpAccept (sockfd garbage : Z)
| OpRun (l : Z)
| OpEvent (nm : list byte) (revents : Z) (readv : Z -> list Z -> Z + list byte)
| OpCall (nm : list byte) (inLoop : bool) (c : Call)
| OpHold (nm : list byte)
| OpRelease (nm : list byte).

(** A loop takes its next step in [doPendingFunctors]: it swaps the vector, or calls the next
    functor.  The acceptor has a new socket, or a poller reports an event of a channel that is
    registered with some interest, when the loop is not in [doPendingFunctors].  A thread calls a
    connection that the user holds. *)
Definition sys_op (o : SysOp) : M System unit :=
  match o with
  | OpAccept sockfd garbage => s ← get; when (polling s (base s)) (newConnection sockfd garbage)
  | OpRun l =>
      s ← get;
      match calling (loop_of s l) with
      | [] => modify (swap_functors l)
      | f :: fs => modify (take_up l f fs) ;; run_job f
      end
  | OpEvent nm r readv =>
      s ← get;
      match objects s !! nm with
      | Some (c, t) =>
          when (polling s (c_loop c) && addedToLoop_ (channel_ t) && negb (isNoneEvent (channel_ t)))
            (on_conn c (handle_event (write (U nm)) (onMessage (U nm)) close r readv))
      | None => mret tt
      end
  | OpCall nm inLoop cl =>
      s ← get;
      match objects s !! nm with
      | Some (c, _) => when (bool_decide (nm ∈ held s)) (on_conn c (call (write (U nm)) inLoop cl))
      | None => mret tt
      end
  | OpHold nm => s ← get; when (bool_decide (is_Some (objects s !! nm))) (modify (set_held ({[nm]} ∪ held s)))
  | OpRelease nm => s ← get; modify (set_held (held s ∖ {[nm]}))
  end.

Definition sys_step (o : SysOp) : M System unit := sys_op o ;; collect.
End system.
