(* ===== verification/ServerProps.v ===== *)
(** What a server's threads promise each other about its connections: each is established,
    removed, destroyed and freed once, in its own loop, whatever the interleaving; and what
    goes wrong when a thread calls a connection that is on its way out. *)
From S2P Require Import Prelude EventLoopThread TcpServer Buffer Channel TcpConnection TcpProps TcpPair ServerSystem.
Open Scope list_scope.

(** * A method of a connection, seen from its server *)

Definition up (t : TcpConnection) : Prop := state_ t = kConnected ∨ state_ t = kDisconnecting.

#[export] Instance up_dec t : Decision (up t).
Proof. unfold up. apply _. Defined.

(** What a method may leave in the queue; [r]: it is called by another thread, which may
    leave functors with a raw pointer but does not close the connection. *)
Definition leaves (r : bool) (f : ConnFunctor) : Prop :=
  match f with
  | FSendInLoop _ | FShutdownInLoop => r = true
  | FRemoveConnection => r = false
  | FConnectDestroyed => False
  | _ => True
  end.

(** A method of a connection that is up keeps it up, says nothing to the user about that,
    and does not destroy it. *)
Record upkeep (r : bool) (t t' : TcpConnection) : Prop := {
  uk_up : up t -> up t';
  uk_events : conn_events t' = conn_events t;
  uk_handling : eventHandling_ (channel_ t') = eventHandling_ (channel_ t);
  uk_functors : ∃ out, functors t' = functors t ++ out ∧ Forall (leaves r) out }.

#[export] Instance upkeep_PreOrder r : PreOrder (upkeep r).
Proof.
  split; [intros t; split; try done; exists []; by rewrite app_nil_r|].
  intros t1 t2 t3 [U1 E1 H1 (o1 & F1 & L1)] [U2 E2 H2 (o2 & F2 & L2)]. split; [auto|congruence|congruence|].
  exists (o1 ++ o2). split; [by rewrite F2, F1, app_assoc|by apply Forall_app].
Qed.

Lemma upkeep_same r t t' :
  state_ t' = state_ t -> conn_events t' = conn_events t -> eventHandling_ (channel_ t') = eventHandling_ (channel_ t) ->
  functors t' = functors t -> upkeep r t t'.
Proof. intros Hs He Hh Hf. split; try done; [unfold up; by rewrite Hs|]. exists []. by rewrite app_nil_r. Qed.

Lemma upkeep_queue r f t : leaves r f -> upkeep r t (set_functors (functors t ++ [f]) t).
Proof. intros Hf. split; try done. exists [f]. split; [done|by constructor]. Qed.

Lemma upkeep_event r e t : (∀ b, e ≠ UConnection b) -> upkeep r t (add_event e t).
Proof.
  intros He. apply upkeep_same; try done. unfold conn_events. simpl. rewrite omap_app. simpl.
  destruct e as [b| | |]; [by destruct (He b)|by rewrite app_nil_r..].
Qed.

Lemma upkeep_disconnecting r t : upkeep r t (set_state kDisconnecting t).
Proof. split; try done; [by right|]. exists []. by rewrite app_nil_r. Qed.

Ltac upkeep_steps :=
  repeat mono_step;
  try (intros; first [by apply upkeep_same | by apply upkeep_queue | by apply upkeep_event | by apply upkeep_disconnecting]).

Section connection.
Context (u : User).

Abbreviation close := (TcpConnection.removeConnection false).

Lemma sendInLoop_upkeep r m : mono (upkeep r) (sendInLoop (write u) m).
Proof. unfold sendInLoop, sys_write, on_output, on_channel, TcpConnection.queueInLoop. upkeep_steps. Qed.

Lemma call_upkeep inLoop c : mono (upkeep (negb inLoop)) (call (write u) inLoop c).
Proof.
  destruct c; simpl; unfold send, shutdown, shutdownInLoop, forceClose, TcpConnection.queueInLoop; destruct inLoop; upkeep_steps;
    apply sendInLoop_upkeep.
Qed.

Lemma tell_upkeep e cs : (∀ b, e ≠ UConnection b) -> mono (upkeep false) (tell (write u) e cs).
Proof. intros He. unfold tell. upkeep_steps. apply (call_upkeep true). Qed.

Lemma handleClose_upkeep : mono (upkeep false) (handleClose close).
Proof. unfold handleClose, TcpConnection.removeConnection, on_channel, TcpConnection.queueInLoop. upkeep_steps. Qed.

Lemma run_functor_upkeep f :
  leaves true f ->
  mono (upkeep false) (run_functor (write u) (onConnection u) (onWriteComplete u) (onHighWaterMark u) close f).
Proof.
  intros Hl. destruct f; try done; simpl; unfold shutdownInLoop, forceCloseInLoop;
    upkeep_steps; try (by apply tell_upkeep); [apply sendInLoop_upkeep|apply handleClose_upkeep].
Qed.

Lemma handleRead_upkeep readv : mono (upkeep false) (handleRead (write u) (onMessage u) close readv).
Proof.
  unfold handleRead, handleError. apply mono_bind; [apply _|upkeep_steps|intros t].
  destruct (readFd _ _ _) as [[[n e] b]|]; [|apply mono_fail].
  upkeep_steps; [apply (call_upkeep true)|apply handleClose_upkeep].
Qed.

Lemma handle_event_upkeep revents readv : mono (upkeep false) (handle_event (write u) (onMessage u) close revents readv).
Proof.
  unfold handle_event. upkeep_steps.
  match goal with |- mono _ (run_callback _ _ _ _ ?cb) => destruct cb end; simpl.
  - apply handleClose_upkeep.
  - apply mono_ret, _.
  - apply handleRead_upkeep.
  - unfold handleWrite, sys_write, on_output, on_channel, TcpConnection.queueInLoop, shutdownInLoop. upkeep_steps.
Qed.

(** ** A connection that is not up does nothing *)

Lemma not_up t : ¬ up t ->
  bool_decide (state_ t = kConnected) = false ∧ bool_decide (state_ t = kDisconnecting) = false.
Proof. unfold up. rewrite !bool_decide_eq_false. tauto. Qed.

Lemma call_down inLoop c t : ¬ up t -> call (write u) inLoop c t = Ok (tt, t).
Proof.
  intros [H1 H2]%not_up. destruct c; simpl; unfold send, shutdown, forceClose; rewrite (bind_Ok _ _ t t t) by done; by rewrite H1, ?H2.
Qed.

Lemma calls_down cs t : ¬ up t -> mapM_ (call (write u) true) cs t = Ok (tt, t).
Proof. intros Ht. induction cs; simpl; [done|]. by rewrite (bind_Ok _ _ t tt t) by (by apply call_down). Qed.

Lemma run_functor_down f t x t' :
  ¬ up t -> leaves false f -> leaves true f ->
  run_functor (write u) (onConnection u) (onWriteComplete u) (onHighWaterMark u) close f t = Ok (x, t') ->
  state_ t' = state_ t ∧ channel_ t' = channel_ t ∧ conn_events t' = conn_events t ∧ functors t' = functors t.
Proof.
  intros Ht Hl Hr E.
  assert (∀ e cs, (∀ b, e ≠ UConnection b) -> tell (write u) e cs t = Ok (x, t') ->
            state_ t' = state_ t ∧ channel_ t' = channel_ t ∧ conn_events t' = conn_events t ∧ functors t' = functors t) as Htell.
  { intros e cs He Ee. unfold tell in Ee. rewrite (bind_Ok _ _ t tt (add_event e t)) in Ee by done.
    rewrite calls_down in Ee by done. injection Ee as _ <-. split_and!; try done. by apply (uk_events false), upkeep_event. }
  destruct f; try done; simpl in E; [|by eapply Htell; [|exact E]..].
  unfold forceCloseInLoop in E. rewrite (bind_Ok _ _ t t t) in E by done.
  destruct (not_up t Ht) as [H1 H2]. rewrite H1, H2 in E. by injection E as _ <-.
Qed.

(** ** Up and down *)

Lemma connectEstablished_up t x t' :
  conn_events t = [] -> functors t = [] -> connectEstablished (write u) (onConnection u) t = Ok (x, t') ->
  up t' ∧ conn_events t' = [true] ∧ eventHandling_ (channel_ t') = eventHandling_ (channel_ t) ∧ Forall (leaves false) (functors t').
Proof.
  intros He Hf E. unfold connectEstablished, on_channel, tell in E.
  rewrite (bind_Ok _ _ t t t) in E by done. apply bind_inv in E as ([] & t0 & [Hs ->]%assert_inv & E).
  set (t1 := set_state kConnected t) in *. rewrite (bind_Ok _ _ t tt t1) in E by done.
  set (t2 := set_chan (set_added true (enableReading (channel_ t1))) t1). rewrite (bind_Ok _ _ t1 tt t2) in E by done.
  set (t3 := add_event (UConnection true) t2). rewrite (bind_Ok _ _ t2 tt t3) in E by done.
  apply (mono_mapM (upkeep false)) in E; [|intros; apply (call_upkeep true)].
  destruct E as [U E H (out & F & L)]. split; [apply U; by left|].
  split; [rewrite E; unfold conn_events in *; simpl; by rewrite omap_app, He|]. split; [done|].
  rewrite F. change (functors t3) with (functors t). by rewrite Hf.
Qed.

Lemma connectDestroyed_runs t : up t -> ∃ t', connectDestroyed (write u) (onConnection u) t = Ok (tt, t').
Proof.
  intros Hu. unfold connectDestroyed, on_channel, tell. rewrite (bind_Ok _ _ t t t) by done.
  rewrite (bind_Ok _ _ t tt t) by (apply assert_Ok, orb_true_iff; rewrite !bool_decide_eq_true; exact Hu).
  set (t1 := set_state kDisconnected t). rewrite (bind_Ok _ _ t tt t1) by done.
  set (t2 := set_chan (set_added true (disableAll (channel_ t1))) t1). rewrite (bind_Ok _ _ t1 tt t2) by done.
  set (t3 := add_event (UConnection false) t2).
  rewrite (bind_Ok _ _ t2 tt t3) by (rewrite (bind_Ok _ _ t2 tt t3) by done; apply calls_down; by intros []).
  by eexists.
Qed.

Lemma connectDestroyed_down t x t' :
  conn_events t = [true] -> connectDestroyed (write u) (onConnection u) t = Ok (x, t') ->
  state_ t' = kDisconnected ∧ conn_events t' = [true; false] ∧ eventHandling_ (channel_ t') = eventHandling_ (channel_ t) ∧
  addedToLoop_ (channel_ t') = false ∧ functors t' = functors t.
Proof.
  intros He E. unfold connectDestroyed, on_channel, tell in E.
  rewrite (bind_Ok _ _ t t t) in E by done. apply bind_inv in E as ([] & t0 & [Hs ->]%assert_inv & E).
  set (t1 := set_state kDisconnected t) in *. rewrite (bind_Ok _ _ t tt t1) in E by done.
  set (t2 := set_chan (set_added true (disableAll (channel_ t1))) t1) in *. rewrite (bind_Ok _ _ t1 tt t2) in E by done.
  set (t3 := add_event (UConnection false) t2) in *.
  rewrite (bind_Ok _ _ t2 tt t3) in E by (rewrite (bind_Ok _ _ t2 tt t3) by done; apply calls_down; by intros []).
  injection E as _ <-. split_and!; try done. unfold conn_events in *. simpl. by rewrite omap_app, He.
Qed.
End connection.

(** * A call closes nothing *)

(** A method leaves no [removeConnection] to be done. *)
Definition calm (t t' : TcpConnection) : Prop :=
  ∃ out, functors t' = functors t ++ out ∧ FRemoveConnection ∉ out.

#[export] Instance calm_PreOrder : PreOrder calm.
Proof.
  split; [intros t; exists []; by rewrite app_nil_r; set_solver|].
  intros t1 t2 t3 (o1 & F1 & L1) (o2 & F2 & L2). exists (o1 ++ o2). split; [by rewrite F2, F1, app_assoc|set_solver].
Qed.

Lemma calm_same t t' : functors t' = functors t -> calm t t'.
Proof. intros Hf. exists []. rewrite app_nil_r. split; [done|set_solver]. Qed.

Lemma calm_queue f t : f ≠ FRemoveConnection -> calm t (set_functors (functors t ++ [f]) t).
Proof. intros Hf. exists [f]. split; [done|set_solver]. Qed.

Ltac calm_steps := repeat mono_step; try (intros; first [by apply calm_same | by apply calm_queue]).

Section calm.
Context (u : User).

Lemma sendInLoop_calm m : mono calm (sendInLoop (write u) m).
Proof. unfold sendInLoop, sys_write, on_output, on_channel, TcpConnection.queueInLoop. calm_steps. Qed.

Lemma call_calm inLoop c : mono calm (call (write u) inLoop c).
Proof.
  destruct c; simpl; unfold send, shutdown, shutdownInLoop, forceClose, TcpConnection.queueInLoop; destruct inLoop; calm_steps;
    apply sendInLoop_calm.
Qed.

Lemma connectEstablished_calm : mono calm (connectEstablished (write u) (onConnection u)).
Proof. unfold connectEstablished, on_channel, tell. calm_steps. apply (call_calm true). Qed.
End calm.

(** * The invariant *)

(** The jobs of a queue for one connection. *)
Definition own (nm : list byte) (q : list Pending) : list Job := snd <$> filter (λ f, c_name f.1 = nm) q.

(** A call or callback of the connection; [r]: with a raw pointer or not. *)
Definition conn_job (r : bool) (j : Job) : Prop :=
  match j with JConn f => leaves true f ∧ (r = false -> leaves false f) | _ => False end.

(** Where a connection is in its life; [inT]: it is in the server's table, [js]: its jobs in its
    loop's queue. *)
Definition phase (inT : bool) (js : list Job) (x : StateE) : Prop :=
  match x with
  | kConnecting => inT = true ∧ js = [JEstablished]
  | kConnected | kDisconnecting =>
      if inT then Forall (conn_job true) js
      else ∃ a b, js = a ++ JDestroyed :: b ∧ Forall (conn_job true) a ∧ Forall (conn_job false) b
  | kDisconnected => inT = false ∧ Forall (conn_job false) js
  end.

Definition told (x : StateE) : list bool :=
  match x with kConnecting => [] | kConnected | kDisconnecting => [true] | kDisconnected => [true; false] end.

Definition placed (s : System) (l : Z) (f : Pending) : Prop :=
  match f.2 with JRemove => l = base s ∧ c_loop f.1 ≠ base s | _ => l = c_loop f.1 end.

Definition in_table (s : System) (nm : list byte) : bool := bool_decide (is_Some (connections_ (server s) !! nm)).

Record good (t : TcpConnection) : Prop := {
  go_functors : functors t = [];
  go_handling : eventHandling_ (channel_ t) = false;
  go_told : conn_events t = told (state_ t);
  go_resting : ¬ up t -> addedToLoop_ (channel_ t) = false }.

(** [hole] is a connection in the middle of a change. *)
Record sys_inv (hole : option (list byte)) (s : System) : Prop := {
  sv_server : server_inv (server s);
  sv_queued : queued (server s) = [];
  sv_table nm c : connections_ (server s) !! nm = Some c -> ∃ t, objects s !! nm = Some (c, t);
  sv_name nm c t : objects s !! nm = Some (c, t) ->
    c_name c = nm ∧ ∃ i, 1 <= i < nextConnId_ (server s) ∧ nm = connName (server s) i;
  sv_good nm c t : objects s !! nm = Some (c, t) -> good t;
  sv_phase nm c t : objects s !! nm = Some (c, t) -> hole ≠ Some nm ->
    phase (in_table s nm) (own nm (queue_of s (c_loop c))) (state_ t);
  sv_jobs l f : f ∈ queue_of s l ->
    placed s l f ∧ ∃ t, objects s !! c_name f.1 = Some (f.1, t) ∧ (f.2 = JRemove -> state_ t ≠ kConnecting) }.

Lemma sys_inv_weaken s nm : sys_inv None s -> sys_inv (Some nm) s.
Proof. intros [? ? ? ? ? Hp ?]. split; try done. intros nm' c t E _. by apply (Hp nm' c t). Qed.

Lemma sys_inv_fill s c t :
  sys_inv (Some (c_name c)) s -> objects s !! c_name c = Some (c, t) ->
  phase (in_table s (c_name c)) (own (c_name c) (queue_of s (c_loop c))) (state_ t) -> sys_inv None s.
Proof.
  intros [? ? ? ? ? Hp ?] E Hph. split; try done. intros nm c' t' E' _. destruct (decide (nm = c_name c)) as [->|Hne].
  - rewrite E in E'. injection E' as <- <-. done.
  - apply (Hp nm c' t'); [done|congruence].
Qed.

(** ** Queues *)

Lemma loop_of_set l q s l' : loop_of (set_queue l q s) l' = if decide (l' = l) then q else loop_of s l'.
Proof.
  unfold loop_of. simpl. destruct (decide (l' = l)) as [->|Hne]; [by rewrite lookup_insert_eq|by rewrite lookup_insert_ne].
Qed.

Lemma queue_of_push l f s l' :
  queue_of (queueInLoop l f s) l' = if decide (l' = l) then queue_of s l ++ [f] else queue_of s l'.
Proof. unfold queue_of, queueInLoop. rewrite loop_of_set. case_decide; [apply todo_pushed|done]. Qed.

Lemma queue_of_swap l s l' : calling (loop_of s l) = [] -> queue_of (swap_functors l s) l' = queue_of s l'.
Proof.
  intros E. unfold queue_of, swap_functors. rewrite loop_of_set. case_decide as Hl; [rewrite Hl; by apply todo_swapped|done].
Qed.

(** What is left to call when [f] is called and [fs] are behind it. *)
Definition left_of (s : System) (l : Z) (f : Pending) (fs : list Pending) : list Pending := todo (taken f fs (loop_of s l)).

Lemma queue_of_calling l f fs s : calling (loop_of s l) = f :: fs -> queue_of s l = f :: left_of s l f fs.
Proof. apply todo_taken. Qed.

Lemma queue_of_take_up l f fs s l' :
  queue_of (take_up l f fs s) l' = if decide (l' = l) then left_of s l f fs else queue_of s l'.
Proof. unfold queue_of, take_up. rewrite loop_of_set. by case_decide. Qed.

Lemma own_app nm q1 q2 : own nm (q1 ++ q2) = own nm q1 ++ own nm q2.
Proof. unfold own. by rewrite filter_app, fmap_app. Qed.

Lemma own_cons nm c j q : own nm ((c, j) :: q) = (if decide (c_name c = nm) then [j] else []) ++ own nm q.
Proof.
  unfold own. rewrite filter_cons. simpl. by destruct (decide (c_name c = nm)).
Qed.

Lemma own_nil nm q : (∀ f, f ∈ q -> c_name f.1 ≠ nm) -> own nm q = [].
Proof.
  intros Hq. induction q as [|[c j] q IH]; [done|]. rewrite own_cons, IH by (intros; apply Hq; by right).
  rewrite decide_False; [done|]. apply (Hq (c, j)). by left.
Qed.

(** A job for a connection stands somewhere in the queue. *)
Lemma own_split nm q a j b :
  own nm q = a ++ j :: b -> ∃ q1 c q2, q = q1 ++ (c, j) :: q2 ∧ c_name c = nm.
Proof.
  revert a. induction q as [|[c j'] q IH]; intros a E; [by destruct a|].
  rewrite own_cons in E. destruct (decide (c_name c = nm)) as [Hc|Hc]; simpl in E.
  - destruct a as [|x a]; simpl in E.
    + injection E as -> _. by exists [], c, q.
    + injection E as _ E. destruct (IH _ E) as (q1 & c1 & q2 & -> & ?). by exists ((c, j') :: q1), c1, q2.
  - destruct (IH _ E) as (q1 & c1 & q2 & -> & ?). by exists ((c, j') :: q1), c1, q2.
Qed.

(** What the push of a job does to the jobs of a connection. *)
Lemma own_push nm l c j s l' :
  own nm (queue_of (queueInLoop l (c, j) s) l') =
    own nm (queue_of s l') ++ (if decide (l' = l ∧ c_name c = nm) then [j] else []).
Proof.
  rewrite queue_of_push. destruct (decide (l' = l)) as [->|Hne].
  - rewrite own_app, own_cons, app_nil_r. f_equal. by repeat case_decide; intuition.
  - rewrite decide_False by tauto. by rewrite app_nil_r.
Qed.

(** A job of the connection whose life is in the middle of a change is queued. *)
Lemma push_inv l c j s t :
  sys_inv (Some (c_name c)) s -> objects s !! c_name c = Some (c, t) ->
  placed s l (c, j) -> (j = JRemove -> state_ t ≠ kConnecting) -> sys_inv (Some (c_name c)) (queueInLoop l (c, j) s).
Proof.
  intros [? ? ? ? ? Hp Hj] E Hpl Hr. split; try done.
  - intros nm c' t' E' Hne. rewrite own_push, decide_False by (intros [_ ?]; congruence). rewrite app_nil_r. by apply Hp.
  - intros l' f. rewrite queue_of_push. case_decide as Hl; [|apply Hj]. subst l'.
    rewrite elem_of_app, list_elem_of_singleton. intros [Hf| ->]; [by apply Hj|]. split; [done|]. by exists t.
Qed.

Lemma pop_inv l c j fs s :
  sys_inv None s -> calling (loop_of s l) = (c, j) :: fs -> sys_inv (Some (c_name c)) (take_up l (c, j) fs s).
Proof.
  intros [? ? ? ? ? Hp Hj] E%queue_of_calling. split; try done.
  - intros nm c' t' E' Hne. rewrite queue_of_take_up. specialize (Hp nm c' t' E' ltac:(done)).
    case_decide as Hl; [|done]. rewrite Hl, E, own_cons, decide_False in Hp by congruence. done.
  - intros l' f. rewrite queue_of_take_up. case_decide as Hl; [|apply Hj]. intros Hf. subst l'. apply Hj. rewrite E. by right.
Qed.

Lemma swap_inv l s : sys_inv None s -> calling (loop_of s l) = [] -> sys_inv None (swap_functors l s).
Proof.
  intros [? ? ? ? ? Hp Hj] E. split; try done.
  - intros nm c t X Hne. rewrite queue_of_swap by done. by apply (Hp nm c t).
  - intros l' f. rewrite queue_of_swap by done. apply Hj.
Qed.

(** ** Objects *)

Lemma set_object_inv c t0 t s :
  sys_inv (Some (c_name c)) s -> objects s !! c_name c = Some (c, t0) -> good t ->
  (state_ t = kConnecting -> state_ t0 = kConnecting) -> sys_inv (Some (c_name c)) (set_object c t s).
Proof.
  intros [? ? Ht Hn Hg Hp Hj] E Hgt Hst. split; try done; simpl.
  - intros nm c' X. destruct (Ht nm c' X) as [t' E']. destruct (decide (nm = c_name c)) as [->|Hne].
    + rewrite E in E'. injection E' as <- <-. rewrite lookup_insert_eq. eauto.
    + rewrite lookup_insert_ne by done. eauto.
  - intros nm c' t'. rewrite lookup_insert_Some. intros [[<- [= <- <-]]|[_ X]]; [by apply (Hn _ _ t0)|by apply (Hn _ _ t')].
  - intros nm c' t'. rewrite lookup_insert_Some. intros [[<- [= <- <-]]|[_ X]]; [done|by apply (Hg nm c')].
  - intros nm c' t'. rewrite lookup_insert_Some. intros [[<- _]|[_ X]] Hne; [done|by apply Hp].
  - intros l f Hf. destruct (Hj l f Hf) as (Hpl & t' & E' & Hr). split; [done|].
    destruct (decide (c_name f.1 = c_name c)) as [Heq|Hne].
    + rewrite Heq in E'. rewrite E in E'. injection E' as Hc <-. rewrite Heq, lookup_insert_eq. exists t.
      split; [by rewrite Hc|]. intros J X. by apply (Hr J), Hst.
    + rewrite lookup_insert_ne by done. eauto.
Qed.

(** ** Removing *)

Lemma phase_removed js x : x ≠ kConnecting -> phase true js x -> phase false (js ++ [JDestroyed]) x.
Proof. destruct x; try done; simpl; intros _ H; [exists js, []; by split_and!..|by destruct H]. Qed.

Lemma server_remove_Ok c sv x sv' :
  TcpServer.removeConnectionInLoop c sv = Ok (x, sv') ->
  is_Some (connections_ sv !! c_name c) ∧
  sv' = runInLoop (c_loop c) (TcpServer.FConnectDestroyed c) (TcpServer.set_connections (delete (c_name c) (connections_ sv)) sv).
Proof.
  intros E. unfold TcpServer.removeConnectionInLoop in E. minv E. simpl in *.
  split; [|done]. by destruct (bool_decide_reflect (is_Some (connections_ sv !! c_name c))).
Qed.

Lemma server_inv_queued q sv : server_inv sv -> server_inv (set_queued q sv).
Proof. intros [? ? ? ?]. by split. Qed.

Lemma removeConnectionInLoop_inv c t s x s' :
  sys_inv None s -> objects s !! c_name c = Some (c, t) -> state_ t ≠ kConnecting ->
  removeConnectionInLoop c s = Ok (x, s') -> sys_inv None s' ∧ objects s' = objects s.
Proof.
  intros Hi E Hst R. unfold removeConnectionInLoop, on_server in R.
  apply bind_inv in R as (q & s1 & R1 & R).
  destruct (TcpServer.removeConnectionInLoop c (server s)) as [[y sv]|] eqn:Es; [|done].
  apply server_remove_Ok in Es as [Hin ->]. injection R1 as <- <-. cbn [queued runInLoop] in R.
  change (queued (TcpServer.set_connections _ _)) with (queued (server s)) in R. rewrite (sv_queued _ _ Hi) in R. injection R as _ <-.
  split; [|done].
  set (s1 := set_server _ s). set (s2 := queueInLoop (c_loop c) (c, JDestroyed) s1).
  assert (sys_inv (Some (c_name c)) s1) as H1.
  { destruct Hi as [Hs ? Ht Hn Hg Hp Hj]. split; try done; simpl.
    - apply server_inv_queued. by apply (remove_inv (server s) c) in Hs as [? ? ? ?].
    - intros nm c'. rewrite lookup_delete_Some. intros [_ X]. by apply Ht.
    - intros nm c' t' X Hne. specialize (Hp nm c' t' X ltac:(done)). unfold in_table in *. simpl.
      rewrite lookup_delete_ne by congruence. done. }
  assert (sys_inv (Some (c_name c)) s2) as H2 by (eapply push_inv; [done|exact E|done|done]).
  apply (sys_inv_fill s2 c t); [done|exact E|]. subst s2. rewrite own_push, decide_True by done.
  pose proof (sv_phase _ _ Hi _ _ _ E ltac:(done)) as Hp. unfold in_table in *. simpl.
  rewrite lookup_delete_eq, (bool_decide_eq_false_2 (is_Some None)) by (intros [? ?]; done).
  rewrite (bool_decide_eq_true_2 _ Hin) in Hp. by apply phase_removed.
Qed.

(** ** What a method hands over *)

Lemma phase_pushed (r inT : bool) js x f :
  x = kConnected ∨ x = kDisconnecting -> leaves r f -> f ≠ FRemoveConnection -> (r = true -> inT = true) ->
  phase inT js x -> phase inT (js ++ [JConn f]) x.
Proof.
  intros Hx Hl Hf Hr.
  assert (leaves true f ∧ (inT = false -> leaves false f)) as [H1 H2].
  { destruct r, f; simpl in *; split; try done; intros ->; by specialize (Hr eq_refl). }
  destruct Hx as [-> | ->]; simpl; (destruct inT;
    [intros H; apply Forall_app; split; [done|constructor; [by split|done]]
    |intros (a & b & -> & Ha & Hb); exists a, (b ++ [JConn f]); rewrite <- app_assoc; split_and!; try done;
     apply Forall_app; split; [done|constructor; [by split; auto|done]]]).
Qed.

Lemma hand_over_inv r c t f s x s' :
  sys_inv None s -> objects s !! c_name c = Some (c, t) -> up t -> leaves r f ->
  (r = true -> in_table s (c_name c) = true) -> hand_over c f s = Ok (x, s') ->
  sys_inv None s' ∧ objects s' = objects s ∧ (r = true -> in_table s' (c_name c) = true).
Proof.
  intros Hi E Hup Hl Hr R.
  assert (state_ t ≠ kConnecting) as Hst by (by destruct Hup as [-> | ->]).
  destruct (decide (f = FRemoveConnection)) as [->|Hf].
  - assert (r = false) as -> by done. simpl in R. unfold removeConnection in R. rewrite (bind_Ok _ _ s s s) in R by done.
    destruct (Z.eqb_spec (c_loop c) (base s)) as [Hb|Hb].
    + apply (removeConnectionInLoop_inv c t) in R as [H1 H2]; try done.
    + injection R as _ <-. split; [|done].
      apply (sys_inv_fill _ c t); [|exact E|].
      * apply (push_inv _ _ _ _ t); [by apply sys_inv_weaken|exact E|done|done].
      * rewrite own_push, decide_False, app_nil_r by tauto. by apply (sv_phase _ _ Hi _ _ _ E).
  - assert (hand_over c f s = Ok (tt, queueInLoop (c_loop c) (c, JConn f) s)) as R' by (by destruct f).
    rewrite R' in R. injection R as _ <-. split; [|done].
    apply (sys_inv_fill _ c t); [|exact E|].
    + apply (push_inv _ _ _ _ t); [by apply sys_inv_weaken|exact E|done|done].
    + rewrite own_push, decide_True by done. apply (phase_pushed r); try done. by apply (sv_phase _ _ Hi _ _ _ E).
Qed.

Lemma hand_overs_inv r c t out : ∀ s x s',
  sys_inv None s -> objects s !! c_name c = Some (c, t) -> up t -> Forall (leaves r) out ->
  (r = true -> in_table s (c_name c) = true) -> mapM_ (hand_over c) out s = Ok (x, s') ->
  sys_inv None s' ∧ objects s' = objects s.
Proof.
  induction out as [|f out IH]; intros s x s' Hi E Hup Hl Hr R; simpl in R; [by injection R as _ <-|].
  inversion_clear Hl as [|? ? Hf Hout]. apply bind_inv in R as (y & s1 & R1 & R).
  destruct (hand_over_inv r c t f s y s1 Hi E Hup Hf Hr R1) as (Hi1 & Ho1 & Hr1).
  destruct (IH s1 x s' Hi1 ltac:(by rewrite Ho1) Hup Hout Hr1 R) as [Hi2 Ho2]. split; [done|congruence].
Qed.

(** A method of a connection, from what it does to the connection. *)
Lemma on_conn_inv (r : bool) c t m s x s' :
  sys_inv (Some (c_name c)) s -> objects s !! c_name c = Some (c, t) ->
  (∀ y t', m t = Ok (y, t') ->
     good (set_functors [] t') ∧ (state_ t' = kConnecting -> state_ t = kConnecting) ∧
     phase (in_table s (c_name c)) (own (c_name c) (queue_of s (c_loop c))) (state_ t') ∧
     (functors t' = [] ∨ up t' ∧ Forall (leaves r) (functors t'))) ->
  (r = true -> in_table s (c_name c) = true) -> on_conn c m s = Ok (x, s') ->
  sys_inv None s' ∧ ∃ y t', m t = Ok (y, t') ∧ objects s' = <[c_name c := (c, set_functors [] t')]> (objects s).
Proof.
  intros Hi E Hm Hr R. unfold on_conn in R. rewrite (bind_Ok _ _ s s s) in R by done. rewrite E in R.
  destruct (m t) as [[y t']|]; [|done]. destruct (Hm y t' eq_refl) as (Hg & Hst & Hp & Hf).
  set (s1 := set_object c (set_functors [] t') s). rewrite (bind_Ok _ _ s tt s1) in R by done.
  assert (objects s1 !! c_name c = Some (c, set_functors [] t')) as E1 by apply lookup_insert_eq.
  assert (sys_inv None s1) as H1.
  { apply (sys_inv_fill s1 c (set_functors [] t')); [by apply (set_object_inv c t)|exact E1|exact Hp]. }
  destruct Hf as [Hf|[Hup Hf]].
  - rewrite Hf in R. injection R as _ <-. split; [done|]. by exists y, t'.
  - destruct (hand_overs_inv r c _ _ s1 x s' H1 E1 Hup Hf Hr R) as [H2 Ho]. split; [done|]. exists y, t'. by rewrite Ho.
Qed.

(** ** Accepting *)

Lemma new_TcpConnection_good sockfd garbage :
  ∃ t, new_TcpConnection sockfd garbage = Ok t ∧ good t ∧ state_ t = kConnecting.
Proof.
  unfold new_TcpConnection. destruct (new_Buffer_spec kInitialSize ltac:(done) ltac:(done)) as (b & -> & _).
  eexists. split; [done|]. split; [|done]. by split.
Qed.

(** A new connection with its entry in the table. *)
Lemma add_object_inv s sv c t :
  sys_inv None s -> state_ t = kConnecting -> good t -> server_inv sv ->
  let nm := connName (server s) (nextConnId_ (server s)) in
  c_name c = nm -> connections_ sv = <[nm := c]> (connections_ (server s)) ->
  name_ sv = name_ (server s) -> ipPort_ sv = ipPort_ (server s) -> nextConnId_ sv = nextConnId_ (server s) + 1 ->
  baseLoop_ (threadPool_ sv) = base s ->
  let s' := set_object c t (set_server (set_queued [] sv) s) in
  sys_inv (Some nm) s' ∧ (∀ l, own nm (queue_of s' l) = []) ∧ in_table s' nm = true.
Proof.
  intros Hi Hst Hgt Hsv nm Hc Hcs Hnm Hip Hid Hb s'. pose proof Hi as [Hs Hq Ht Hn Hg Hp Hj].
  assert (∀ i, connName (set_queued [] sv) i = connName (server s) i) as Hname.
  { intros i. unfold connName. cbn [set_queued name_ ipPort_]. by rewrite Hnm, Hip. }
  assert (objects s !! nm = None) as Hfresh.
  { destruct (objects s !! nm) as [[c' t']|] eqn:X; [|done]. destruct (Hn _ _ _ X) as (_ & i & Hi1 & E).
    pose proof (si_id _ Hs). apply connName_inj in E; [lia|apply Hs|lia|lia]. }
  split; [|split].
  - split; simpl.
    + by apply server_inv_queued.
    + done.
    + intros nm' c'. rewrite Hcs, lookup_insert_Some. intros [[<- <-]|[Hne X]].
      * exists t. rewrite Hc. apply lookup_insert_eq.
      * rewrite Hc, lookup_insert_ne by done. by apply Ht.
    + intros nm' c' t'. rewrite Hc, lookup_insert_Some, Hid. intros [[<- [= <- <-]]|[_ X]].
      * split; [done|]. exists (nextConnId_ (server s)). pose proof (si_id _ Hs). split; [lia|by rewrite Hname].
      * destruct (Hn _ _ _ X) as (? & i & Hi1 & E). split; [done|]. exists i. split; [lia|by rewrite Hname].
    + intros nm' c' t'. rewrite lookup_insert_Some. intros [[<- [= <- <-]]|[_ X]]; [done|by apply (Hg nm' c')].
    + intros nm' c' t'. rewrite Hc, lookup_insert_Some. intros [[<- _]|[Hne X]] Hh; [done|].
      unfold in_table. simpl. rewrite Hcs, lookup_insert_ne by done. by apply (Hp nm' c' t').
    + intros l f Hf. destruct (Hj l f Hf) as (Hpl & t' & E & Hr). split.
      * unfold placed in *. rewrite (Hb : base s' = base s). exact Hpl.
      * exists t'. rewrite Hc, lookup_insert_ne; [done|]. intros X. by rewrite <- X, Hfresh in E.
  - intros l. apply own_nil. intros f Hf. destruct (Hj l f Hf) as (_ & t' & E & _). intros X. by rewrite X, Hfresh in E.
  - unfold in_table. simpl. rewrite Hcs. apply bool_decide_eq_true_2. rewrite lookup_insert_eq. eauto.
Qed.

Lemma established_good u t y t' :
  good t -> state_ t = kConnecting -> connectEstablished (write u) (onConnection u) t = Ok (y, t') ->
  good (set_functors [] t') ∧ up t' ∧ Forall (leaves false) (functors t').
Proof.
  intros [Hf Hh Ht Hr] Hst E. rewrite Hst in Ht. destruct (connectEstablished_up u t y t' Ht Hf E) as (Hu & He & Hh' & Hl).
  split; [|done]. split; simpl; try done; [by rewrite Hh'|].
  change (conn_events t' = told (state_ t')). rewrite He. by destruct Hu as [-> | ->].
Qed.

Lemma up_phase x : x = kConnected ∨ x = kDisconnecting -> ∀ js, Forall (conn_job true) js -> phase true js x.
Proof. by intros [-> | ->]. Qed.

Section system.
Context (U : list byte -> User).

(** [connectEstablished] of a connection in the table without other jobs. *)
Lemma established_inv c t s x s' :
  sys_inv (Some (c_name c)) s -> objects s !! c_name c = Some (c, t) -> state_ t = kConnecting ->
  own (c_name c) (queue_of s (c_loop c)) = [] -> in_table s (c_name c) = true ->
  run_job U (c, JEstablished) s = Ok (x, s') -> sys_inv None s'.
Proof.
  intros Hi E Hst Ho Hin R. eapply (on_conn_inv false c t); [done|done| |done|exact R]. intros y t' Et.
  destruct (established_good _ _ _ _ (sv_good _ _ Hi _ _ _ E) Hst Et) as (Hg & Hu & Hl).
  split; [done|]. split; [done|]. split; [|by right]. rewrite Ho, Hin. by apply up_phase.
Qed.

Lemma newConnection_inv fd g s x s' : sys_inv None s -> newConnection U fd g s = Ok (x, s') -> sys_inv None s'.
Proof.
  intros Hi R. unfold newConnection, on_server in R. apply bind_inv in R as (q & s1 & R1 & R).
  destruct (TcpServer.newConnection (server s)) as [[y sv]|] eqn:Es; [|done]. injection R1 as <- <-.
  pose proof (newConnection_id _ _ _ (sv_server _ _ Hi) Es) as Hmax.
  destruct (newConnection_spec _ (sv_server _ _ Hi) Hmax)
    as (sv' & c & E & _ & Hcs & Hc & _ & _ & _ & _ & Hq & (Hnm & Hip & Hid & Hb) & Hsv).
  rewrite Es in E. injection E as _ <-. rewrite Hq, (sv_queued _ _ Hi) in R. cbn [app mapM_ fst snd] in R.
  destruct (new_TcpConnection_good fd g) as (t & Et & Hg & Hst). rewrite Et in R.
  set (s2 := set_object c t (set_server (set_queued [] sv) s)) in *.
  destruct (add_object_inv s sv c t Hi Hst Hg Hsv Hc Hcs Hnm Hip Hid Hb) as (Hi2 & Ho & Hin).
  fold s2 in Hi2, Ho, Hin. rewrite <- Hc in Hi2, Ho, Hin.
  assert (objects s2 !! c_name c = Some (c, t)) as E2 by apply lookup_insert_eq.
  apply bind_inv in R as ([] & s3 & R & R3). injection R3 as _ <-.
  apply bind_inv in R as ([] & s2' & R2 & R). injection R2 as <-.
  rewrite (bind_Ok _ _ s2 s2 s2) in R by done. destruct (c_loop c =? base s2).
  - by eapply established_inv.
  - injection R as <-. apply (sys_inv_fill _ c t); [by eapply push_inv|exact E2|].
    rewrite own_push, decide_True, Ho by done. rewrite Hst. split; [exact Hin|done].
Qed.

(** ** Running a functor *)

Lemma phase_est inT js x : phase inT (JEstablished :: js) x -> x = kConnecting ∧ inT = true ∧ js = [].
Proof.
  assert (∀ r, ¬ Forall (conn_job r) (JEstablished :: js)) as Hno by (intros r; by inversion_clear 1).
  destruct x; simpl.
  - by intros [-> [= ->]].
  - destruct inT; [by intros []%Hno|]. intros ([|j a] & b & [= <- ->] & Ha & _). by inversion_clear Ha.
  - destruct inT; [by intros []%Hno|]. intros ([|j a] & b & [= <- ->] & Ha & _). by inversion_clear Ha.
  - by intros [_ []%Hno].
Qed.

Lemma phase_destroyed inT js x :
  phase inT (JDestroyed :: js) x -> (x = kConnected ∨ x = kDisconnecting) ∧ inT = false ∧ Forall (conn_job false) js.
Proof.
  assert (∀ r, ¬ Forall (conn_job r) (JDestroyed :: js)) as Hno by (intros r; by inversion_clear 1).
  destruct x; simpl.
  - by intros [_ [=]].
  - destruct inT; [by intros []%Hno|]. intros ([|j a] & b & E & Ha & Hb); simplify_eq/=; [by auto|by inversion_clear Ha].
  - destruct inT; [by intros []%Hno|]. intros ([|j a] & b & E & Ha & Hb); simplify_eq/=; [by auto|by inversion_clear Ha].
  - by intros [_ []%Hno].
Qed.

Lemma conn_jobs_cons r f js :
  Forall (conn_job r) (JConn f :: js) -> Forall (conn_job r) js ∧ leaves true f ∧ (r = false -> leaves false f).
Proof. intros [[? ?] ?]%Forall_cons. done. Qed.

Lemma phase_conn inT f js x :
  phase inT (JConn f :: js) x ->
  phase inT js x ∧ leaves true f ∧ x ≠ kConnecting ∧ (x = kDisconnected -> leaves false f).
Proof.
  assert ((∃ a b, JConn f :: js = a ++ JDestroyed :: b ∧ Forall (conn_job true) a ∧ Forall (conn_job false) b) ->
    (∃ a b, js = a ++ JDestroyed :: b ∧ Forall (conn_job true) a ∧ Forall (conn_job false) b) ∧ leaves true f) as Hd.
  { intros ([|j a] & b & E & Ha & Hb); simplify_eq/=. apply conn_jobs_cons in Ha as (? & ? & _). split; [by exists a, b|done]. }
  destruct x, inT; simpl.
  1,2: by intros [_ [=]].
  1,3: intros (? & ? & _)%conn_jobs_cons; by split_and!.
  1,2: intros [? ?]%Hd; by split_and!.
  1: by intros [? _].
  intros [_ (? & ? & ?)%conn_jobs_cons]. split_and!; auto.
Qed.

Lemma up_phases inT js x x' :
  x = kConnected ∨ x = kDisconnecting -> x' = kConnected ∨ x' = kDisconnecting -> phase inT js x -> phase inT js x'.
Proof. by intros [-> | ->] [-> | ->]. Qed.

Lemma down_phase t : ¬ up t -> state_ t ≠ kConnecting -> state_ t = kDisconnected.
Proof. unfold up. destruct (state_ t); tauto. Qed.

(** A method that keeps a connection up. *)
Lemma upkeep_inv (r : bool) c t m s x s' :
  sys_inv None s -> objects s !! c_name c = Some (c, t) -> up t -> (∀ y t', m t = Ok (y, t') -> upkeep r t t') ->
  (r = true -> in_table s (c_name c) = true) -> on_conn c m s = Ok (x, s') -> sys_inv None s'.
Proof.
  intros Hi E Hu Hm Hr R. eapply (on_conn_inv r c t); [by apply sys_inv_weaken|done| |done|exact R].
  intros y t' Et. destruct (Hm y t' Et) as [U1 E1 H1 (out & F1 & L1)]. pose proof (sv_good _ _ Hi _ _ _ E) as [Hf Hh Ht Hre].
  specialize (U1 Hu). split; [|split; [by destruct U1 as [-> | ->]|split]].
  - split; simpl; [done|by rewrite H1|change (conn_events t' = told (state_ t')); rewrite E1, Ht|intros X; by destruct X].
    by destruct Hu as [-> | ->], U1 as [-> | ->].
  - eapply up_phases; [exact Hu|exact U1|]. by apply (sv_phase _ _ Hi _ _ _ E).
  - right. rewrite F1, Hf. done.
Qed.

Lemma run_job_inv l f fs s x s' :
  sys_inv None s -> calling (loop_of s l) = f :: fs -> run_job U f (take_up l f fs s) = Ok (x, s') -> sys_inv None s'.
Proof.
  intros Hi Ec R. pose proof (queue_of_calling _ _ _ _ Ec) as Eq. destruct f as [c j]. destruct (sv_jobs _ _ Hi l (c, j)) as (Hpl & t & E & Hrem); [rewrite Eq; by left|].
  cbn [fst snd] in *. pose proof (pop_inv _ _ _ _ _ Hi Ec) as Hi1. set (s1 := take_up l (c, j) fs s) in *.
  pose proof (sv_phase _ _ Hi _ _ _ E ltac:(done)) as Hp.
  assert (objects s1 !! c_name c = Some (c, t)) as E1 by done.
  assert (j ≠ JRemove -> phase (in_table s (c_name c)) (j :: own (c_name c) (queue_of s1 (c_loop c))) (state_ t)) as Hpj.
  { intros Hj. assert (l = c_loop c) as -> by (by destruct j). subst s1.
    rewrite Eq, own_cons, decide_True in Hp by done. by rewrite queue_of_take_up, decide_True. }
  destruct j as [| | |f].
  - destruct (phase_est _ _ _ (Hpj ltac:(done))) as (Hst & Hin & Ho). by eapply established_inv.
  - destruct (phase_destroyed _ _ _ (Hpj ltac:(done))) as (Hst & Hin & Ho).
    eapply (on_conn_inv false c t); [exact Hi1|exact E1| |done|exact R]. intros y t' Et.
    destruct (sv_good _ _ Hi _ _ _ E) as [Hf Hh Ht Hr].
    destruct (connectDestroyed_down (U (c_name c)) t y t') as (Hs' & He & Hh' & Ha & Hf'); [by rewrite Ht; destruct Hst as [-> | ->]|exact Et|].
    rewrite Hs'. split; [|split; [done|split; [by split|left; congruence]]].
    split; simpl; [done|congruence| |done]. change (conn_events t' = told (state_ t')). by rewrite He, Hs'.
  - destruct Hpl as [-> Hb].
    assert (sys_inv None s1) as Hi2.
    { apply (sys_inv_fill s1 c t); [done|done|]. subst s1. rewrite queue_of_take_up, decide_False by done. exact Hp. }
    by eapply removeConnectionInLoop_inv; [exact Hi2|exact E1|auto|exact R].
  - clear Hp. destruct (phase_conn _ _ _ _ (Hpj ltac:(done))) as (Hp & Hl & Hnc & Hd).
    assert (sys_inv None s1) as Hi2 by (by apply (sys_inv_fill s1 c t)).
    destruct (decide (up t)) as [Hu|Hu].
    + eapply (upkeep_inv false c t); [exact Hi2|exact E1|exact Hu| |done|exact R].
      intros y t'. by apply run_functor_upkeep.
    + pose proof (down_phase t Hu Hnc) as Hst.
      eapply (on_conn_inv false c t); [exact Hi1|exact E1| |done|exact R]. intros y t' Et.
      destruct (run_functor_down (U (c_name c)) f t y t' Hu (Hd Hst) Hl Et) as (Hs' & Hc' & He & Hf).
      destruct (sv_good _ _ Hi _ _ _ E) as [Gf Gh Gt Gr].
      rewrite Hs'. split; [|split; [done|split; [done|left; congruence]]].
      split; simpl; [done|by rewrite Hc'| |]; [change (conn_events t' = told (state_ t')); by rewrite He, Hs'|].
      intros _. rewrite Hc'. by apply Gr.
Qed.

(** ** Freeing *)

(** All functors of a loop's vectors. *)
Definition functors_of (s : System) (l : Z) : list Pending := called (loop_of s l) ++ queue_of s l.

Lemma referenced_spec s nm :
  referenced s nm = true <->
  is_Some (connections_ (server s) !! nm) ∨ nm ∈ held s ∨ ∃ l f, f ∈ functors_of s l ∧ raw f.2 = false ∧ c_name f.1 = nm.
Proof.
  unfold referenced. rewrite !orb_true_iff, !bool_decide_eq_true, existsb_exists, <- (assoc or). do 2 f_equiv. split.
  - intros ([l q] & Hl%list_elem_of_In%elem_of_map_to_list & (f & Hf%list_elem_of_In & Hr)%existsb_exists).
    unfold refers in Hr. rewrite andb_true_iff, negb_true_iff, bool_decide_eq_true in Hr.
    exists l, f. unfold functors_of, queue_of, loop_of. by rewrite Hl.
  - intros (l & f & Hf & Hr & Hn). unfold functors_of, queue_of, loop_of in Hf.
    destruct (queues s !! l) as [q|] eqn:E; [|by apply elem_of_nil in Hf]. exists (l, q). split.
    + by apply list_elem_of_In, elem_of_map_to_list.
    + apply existsb_exists. exists f. split; [by apply list_elem_of_In|]. unfold refers. rewrite Hr. by apply bool_decide_eq_true.
Qed.

Lemma referenced_job s l f :
  f ∈ queue_of s l -> raw f.2 = false -> referenced s (c_name f.1) = true.
Proof.
  intros Hf Hr. apply referenced_spec. right. right. exists l, f. split; [|done]. apply elem_of_app. by right.
Qed.

(** Functors with a raw pointer do not count. *)
Lemma referenced_ext s s' nm :
  connections_ (server s') = connections_ (server s) -> held s' = held s ->
  (∀ l f, raw f.2 = false -> f ∈ functors_of s' l <-> f ∈ functors_of s l) -> referenced s' nm = referenced s nm.
Proof.
  intros Hc Hh Hf. apply eq_true_iff_eq. rewrite !referenced_spec, Hc, Hh. do 2 f_equiv.
  split; intros (l & f & Hin & Hr & Hn); exists l, f; split_and!; try done; by apply Hf.
Qed.

Lemma in_table_referenced s nm : in_table s nm = true -> referenced s nm = true.
Proof. intros H. unfold referenced. by rewrite (H : bool_decide _ = true). Qed.

Lemma own_elem nm j q : j ∈ own nm q -> ∃ c, c_name c = nm ∧ (c, j) ∈ q.
Proof.
  unfold own. rewrite list_elem_of_fmap. intros ([c j'] & -> & [Hn Hf]%list_elem_of_filter). by exists c.
Qed.

(** A connection that is still connecting, up or about to be destroyed is kept alive. *)
Lemma alive_referenced s nm c t :
  sys_inv None s -> objects s !! nm = Some (c, t) -> state_ t ≠ kDisconnected -> referenced s nm = true.
Proof.
  intros Hi E Hst. pose proof (sv_phase _ _ Hi _ _ _ E ltac:(done)) as Hp.
  destruct (in_table s nm) eqn:Hin; [by apply in_table_referenced|].
  assert (JDestroyed ∈ own nm (queue_of s (c_loop c))) as (c' & <- & Hf)%own_elem.
  { destruct (state_ t); try done; simpl in Hp; [by destruct Hp| |]; destruct Hp as (a & b & -> & _); set_solver. }
  by apply (referenced_job s (c_loop c) (c', JDestroyed)).
Qed.

(** A job's connection is alive, with a [shared_ptr] or without. *)
Lemma job_referenced s l f : sys_inv None s -> f ∈ queue_of s l -> referenced s (c_name f.1) = true.
Proof.
  intros Hi Hf. destruct (raw f.2) eqn:Hr; [|by eapply referenced_job].
  destruct (sv_jobs _ _ Hi l f Hf) as (Hpl & t & E & _). eapply alive_referenced; [done|exact E|].
  intros Hst. pose proof (sv_phase _ _ Hi _ _ _ E ltac:(done)) as Hp. rewrite Hst in Hp. destruct Hp as [_ Hp].
  assert (l = c_loop f.1) as -> by (unfold placed in Hpl; by destruct f as [? []]).
  assert (f.2 ∈ own (c_name f.1) (queue_of s (c_loop f.1))) as Hown.
  { unfold own. apply list_elem_of_fmap. exists f. split; [done|]. by apply list_elem_of_filter. }
  rewrite Forall_forall in Hp. specialize (Hp _ Hown). destruct f as [? [| | |g]]; try done. destruct Hp as [_ Hp].
  specialize (Hp eq_refl). by destruct g.
Qed.

(** What [collect] leaves, if it does not fail. *)
Definition collected (s : System) : System := set_objects (filter (λ x, referenced s x.1 = true) (objects s)) s.

Lemma collect_collected s x s' : collect s = Ok (x, s') -> s' = collected s.
Proof.
  unfold collect. rewrite (bind_Ok _ _ s s s) by done. by intros ([] & s1 & [_ ->]%assert_inv & [= _ <-])%bind_inv.
Qed.

(** When somebody refers to each connection nothing happens. *)
Lemma collect_idle s : (∀ nm, is_Some (objects s !! nm) -> referenced s nm = true) -> collect s = Ok (tt, s).
Proof.
  intros H. unfold collect. rewrite (bind_Ok _ _ s s s) by done. rewrite (bind_Ok _ _ s tt s).
  - unfold modify. f_equal. f_equal. destruct s as [sv ob qs h]. unfold set_objects. simpl. f_equal. apply map_filter_id.
    intros nm x E. apply H. by exists x.
  - apply assert_Ok, forallb_forall. intros [nm x] E%list_elem_of_In%elem_of_map_to_list. cbn [fst]. rewrite H; [done|by exists x].
Qed.

Lemma collect_inv s :
  sys_inv None s ->
  ∃ s', collect s = Ok (tt, s') ∧ sys_inv None s' ∧
    (∀ nm, is_Some (objects s' !! nm) <-> is_Some (objects s !! nm) ∧ referenced s nm = true) ∧
    (∀ nm, referenced s' nm = referenced s nm) ∧
    (∀ nm c t, objects s !! nm = Some (c, t) -> objects s' !! nm = None -> conn_events t = [true; false]).
Proof.
  intros Hi. set (s' := set_objects (filter (λ x, referenced s x.1 = true) (objects s)) s).
  assert (∀ nm x, objects s' !! nm = Some x <-> objects s !! nm = Some x ∧ referenced s nm = true) as Hlook
    by (intros; apply map_lookup_filter_Some).
  assert (∀ nm c t, objects s !! nm = Some (c, t) -> referenced s nm = false -> state_ t = kDisconnected) as Hdead.
  { intros nm c t E Hr. destruct (decide (state_ t = kDisconnected)); [done|].
    by rewrite (alive_referenced s nm c t) in Hr. }
  exists s'. split; [|split; [|split; [|split; [done|]]]].
  - unfold collect. rewrite (bind_Ok _ _ s s s) by done. rewrite (bind_Ok _ _ s tt s); [done|]. apply assert_Ok, forallb_forall.
    intros [nm [c t]] Hin%list_elem_of_In%elem_of_map_to_list. apply orb_true_iff. cbn [fst snd].
    destruct (referenced s nm) eqn:Hr; [by left|right]. pose proof (Hdead _ _ _ Hin Hr) as Hst.
    destruct (sv_good _ _ Hi _ _ _ Hin) as [_ Hh _ Ha]. unfold Channel_dtor. rewrite Hh, Ha; [done|].
    unfold up. rewrite Hst. by intros [|].
  - pose proof Hi as [Hs Hq Ht Hn Hg Hp Hj]. split; try done.
    + intros nm c X. destruct (Ht _ _ X) as [t E]. exists t. apply Hlook. split; [done|].
      apply in_table_referenced, bool_decide_eq_true. by exists c.
    + intros nm c t [X _]%Hlook. by apply (Hn _ _ t).
    + intros nm c t [X _]%Hlook. by apply (Hg nm c).
    + intros nm c t [X _]%Hlook _. by apply (Hp nm c t).
    + intros l f Hf. destruct (Hj l f Hf) as (Hpl & t & E & Hr). split; [done|]. exists t. split; [|done].
      apply Hlook. split; [done|]. by eapply job_referenced.
  - intros nm. split.
    + intros [x [X Hr]%Hlook]. split; [by exists x|done].
    + intros [[x X] Hr]. exists x. by apply Hlook.
  - intros nm c t E X. destruct (referenced s nm) eqn:Hr.
    + rewrite (proj2 (Hlook nm (c, t))) in X by done. done.
    + destruct (sv_good _ _ Hi _ _ _ E) as [_ _ -> _]. by rewrite (Hdead _ _ _ E Hr).
Qed.

(** ** Runs *)

(** A thread other than the connection's calls it only while the server has it. *)
Definition polite (o : SysOp) (s : System) : Prop :=
  match o with OpCall nm false _ => in_table s nm = true | _ => True end.

Lemma sys_inv_held s h : sys_inv None s -> sys_inv None (set_held h s).
Proof. intros [? ? ? ? ? ? ?]. by split. Qed.

Lemma down_call_inv inLoop cl c t s x s' :
  sys_inv None s -> objects s !! c_name c = Some (c, t) -> ¬ up t ->
  on_conn c (call (write (U (c_name c))) inLoop cl) s = Ok (x, s') -> sys_inv None s'.
Proof.
  intros Hi E Hu R. pose proof (sv_good _ _ Hi _ _ _ E) as Hg.
  eapply (on_conn_inv false c t); [by apply sys_inv_weaken|exact E| |done|exact R].
  intros y t'. rewrite call_down by done. intros [= _ <-]. pose proof (go_functors _ Hg) as Hf.
  split; [by destruct Hg|]. split; [done|]. split; [by apply (sv_phase _ _ Hi _ _ _ E)|by left].
Qed.

Lemma sys_op_inv o s x s' : sys_inv None s -> polite o s -> sys_op U o s = Ok (x, s') -> sys_inv None s'.
Proof.
  intros Hi Hpo R. destruct o as [fd g|l|nm r readv|nm inLoop cl|nm|nm]; simpl in R;
    try (rewrite (bind_Ok _ _ s s s) in R by done).
  - destruct (polling s (base s)); [by eapply newConnection_inv|by injection R as _ <-].
  - destruct (calling (loop_of s l)) as [|f fs] eqn:Ec; [injection R as _ <-; by apply swap_inv|].
    rewrite (bind_Ok _ _ s tt (take_up l f fs s)) in R by done. by eapply run_job_inv.
  - destruct (objects s !! nm) as [[c t]|] eqn:E; [|by injection R as _ <-].
    destruct (polling s (c_loop c)); [|by injection R as _ <-].
    destruct (addedToLoop_ (channel_ t)) eqn:Ha; [|by injection R as _ <-]. simpl in R.
    destruct (isNoneEvent (channel_ t)); [by injection R as _ <-|]. cbn [negb when] in R.
    destruct (sv_name _ _ Hi _ _ _ E) as [<- _].
    eapply (upkeep_inv false c t); [done|exact E| |intros y t'; apply handle_event_upkeep|done|exact R].
    destruct (decide (up t)) as [|Hu]; [done|]. by rewrite (go_resting _ (sv_good _ _ Hi _ _ _ E) Hu) in Ha.
  - destruct (objects s !! nm) as [[c t]|] eqn:E; [|by injection R as _ <-].
    destruct (bool_decide _); [|by injection R as _ <-]. cbn [when] in R. destruct (sv_name _ _ Hi _ _ _ E) as [<- _].
    destruct (decide (up t)) as [Hu|Hu]; [|by eapply down_call_inv].
    eapply (upkeep_inv (negb inLoop) c t); [done|exact E|done|intros y t'; apply call_upkeep| |exact R]. by destruct inLoop.
  - destruct (bool_decide _); [|by injection R as _ <-]. injection R as _ <-. by apply sys_inv_held.
  - injection R as _ <-. by apply sys_inv_held.
Qed.

Definition moves (s s' : System) : Prop := ∃ o, polite o s ∧ sys_step U o s = Ok (tt, s').

(** ** The vectors *)

Definition batch_of (s : System) (l : Z) : list Pending * list Pending := (called (loop_of s l), calling (loop_of s l)).

(** Only the loops themselves touch the vectors they have swapped. *)
Definition keeps_batches (s s' : System) : Prop := ∀ l, batch_of s' l = batch_of s l.

#[export] Instance keeps_batches_PreOrder : PreOrder keeps_batches.
Proof. split; [by intros s l|intros s1 s2 s3 H1 H2 l; by rewrite H2]. Qed.

Lemma queueInLoop_batches l f s : keeps_batches s (queueInLoop l f s).
Proof. intros l'. unfold batch_of, queueInLoop. rewrite loop_of_set. case_decide as Hl; [by rewrite Hl|done]. Qed.

Lemma removeConnectionInLoop_batches c : mono keeps_batches (removeConnectionInLoop c).
Proof.
  unfold removeConnectionInLoop. apply mono_bind; [apply _| |].
  - intros s q s' E. unfold on_server in E. destruct (TcpServer.removeConnectionInLoop c (server s)) as [[]|]; by simplify_eq.
  - repeat mono_step. intros. apply queueInLoop_batches.
Qed.

Lemma hand_over_batches c f : mono keeps_batches (hand_over c f).
Proof.
  destruct f; simpl; try (apply mono_modify; intros; apply queueInLoop_batches).
  unfold removeConnection. repeat mono_step; [apply removeConnectionInLoop_batches|intros; apply queueInLoop_batches].
Qed.

Lemma on_conn_batches c m : mono keeps_batches (on_conn c m).
Proof.
  unfold on_conn. apply mono_bind; [apply _|apply mono_get, _|]. intros s0. destruct (objects s0 !! c_name c) as [[c' t]|]; [|apply mono_fail].
  destruct (m t) as [[y t']|]; [|apply mono_fail]. repeat mono_step; [by intros s|apply hand_over_batches].
Qed.

Lemma run_job_batches f : mono keeps_batches (run_job U f).
Proof. destruct f as [c []]; simpl; first [apply on_conn_batches|apply removeConnectionInLoop_batches]. Qed.

Lemma newConnection_batches fd g : mono keeps_batches (newConnection U fd g).
Proof.
  unfold newConnection. apply mono_bind; [apply _| |].
  - intros s q s' E. unfold on_server in E. destruct (TcpServer.newConnection (server s)) as [[]|]; by simplify_eq.
  - intros q. apply mono_mapM; [apply _|]. intros [l [|c|c]]; cbn [fst snd]; [apply mono_ret, _| |apply mono_ret, _].
    destruct (new_TcpConnection fd g) as [t|]; [|apply mono_fail].
    repeat mono_step; [by intros s|apply (run_job_batches (c, JEstablished))|intros; apply queueInLoop_batches].
Qed.

(** A vector all of whose functors have been called is gone. *)
Definition batches (s : System) : Prop := ∀ l, calling (loop_of s l) = [] -> called (loop_of s l) = [].

Lemma keeps_batches_inv s s' : keeps_batches s s' -> batches s -> batches s'.
Proof. intros H Hb l. specialize (H l). specialize (Hb l). unfold batch_of in H. injection H as -> ->. done. Qed.

Lemma sys_op_batches o s x s' : batches s -> sys_op U o s = Ok (x, s') -> batches s'.
Proof.
  intros Hb R.
  assert (∀ m : M System unit, mono keeps_batches m -> ∀ s x s', m s = Ok (x, s') -> batches s -> batches s') as Hm
    by (intros m Hm s1 y s2 E; by eapply keeps_batches_inv, Hm).
  destruct o as [fd g|l|nm r readv|nm inLoop cl|nm|nm]; simpl in R; rewrite (bind_Ok _ _ s s s) in R by done.
  - eapply Hm; [|exact R|done]. apply mono_when; [apply _|apply newConnection_batches].
  - destruct (calling (loop_of s l)) as [|f fs] eqn:Ec.
    + injection R as _ <-. intros l'. unfold swap_functors. rewrite loop_of_set. case_decide; [done|apply Hb].
    + rewrite (bind_Ok _ _ s tt (take_up l f fs s)) in R by done. eapply Hm; [apply (run_job_batches f)|exact R|].
      intros l'. unfold take_up. rewrite loop_of_set. case_decide; [by destruct fs|apply Hb].
  - destruct (objects s !! nm) as [[c t]|]; [|by injection R as _ <-].
    eapply Hm; [|exact R|done]. apply mono_when; [apply _|apply on_conn_batches].
  - destruct (objects s !! nm) as [[c t]|]; [|by injection R as _ <-].
    eapply Hm; [|exact R|done]. apply mono_when; [apply _|apply on_conn_batches].
  - eapply Hm; [|exact R|done]. by repeat mono_step.
  - by injection R as _ <-.
Qed.

(** A server that has not accepted anything. *)
Definition fresh_server (sv : TcpServer) : Prop := server_inv sv ∧ queued sv = [] ∧ connections_ sv = ∅.

Record kept (s : System) : Prop := {
  kp_inv : sys_inv None s;
  kp_referenced nm : is_Some (objects s !! nm) -> referenced s nm = true;
  kp_batches : batches s }.

Lemma fresh_kept sv : fresh_server sv -> kept (new_System sv).
Proof.
  intros (Hs & Hq & Hc). split; [split; simpl; try done|by intros nm [x X]|done].
  - intros nm c. by rewrite Hc.
  - intros l f Hf. by apply elem_of_nil in Hf.
Qed.

Lemma moves_kept s s' : kept s -> moves s s' -> kept s'.
Proof.
  intros [Hi _ Hb] (o & Hp & E). unfold sys_step in E. apply bind_inv in E as ([] & s1 & E1 & E).
  pose proof (sys_op_inv o s tt s1 Hi Hp E1) as Hi1. destruct (collect_inv s1 Hi1) as (s2 & E2 & Hi2 & Ho & Hr & _).
  rewrite E in E2. injection E2 as <-. split; [done|intros nm Hn; rewrite Hr; by apply Ho|].
  rewrite (collect_collected _ _ _ E). exact (sys_op_batches o s tt s1 Hb E1).
Qed.

Lemma reachable_kept sv s : fresh_server sv -> rtc moves (new_System sv) s -> kept s.
Proof. intros Hs. apply (rtc_invariant moves); [apply moves_kept|by apply fresh_kept]. Qed.

Lemma server_remove_runs c sv :
  is_Some (connections_ sv !! c_name c) -> ∃ sv', TcpServer.removeConnectionInLoop c sv = Ok (tt, sv').
Proof.
  intros Hc. unfold TcpServer.removeConnectionInLoop. rewrite (bind_Ok _ _ sv sv sv) by done.
  rewrite (bool_decide_eq_true_2 _ Hc). eexists. reflexivity.
Qed.

Lemma removeConnectionInLoop_runs c s :
  queued (server s) = [] -> in_table s (c_name c) = true -> ∃ s', removeConnectionInLoop c s = Ok (tt, s').
Proof.
  intros Hq Hin%bool_decide_eq_true. destruct (server_remove_runs c (server s) Hin) as [sv E].
  unfold removeConnectionInLoop, on_server. eexists. unfold mbind, M_bind. rewrite E.
  apply server_remove_Ok in E as [_ ->]. cbn [queued runInLoop].
  change (queued (TcpServer.set_connections _ _)) with (queued (server s)). rewrite Hq. reflexivity.
Qed.

(** What a loop finds when it takes up its next functor. *)
Definition ready (s : System) (l : Z) (c : Conn) (t : TcpConnection) (j : Job) : Prop :=
  match j with
  | JEstablished => l = c_loop c ∧ state_ t = kConnecting
  | JDestroyed => l = c_loop c ∧ up t ∧ in_table s (c_name c) = false
  | JRemove =>
      l = base s ∧ l ≠ c_loop c ∧
      (in_table s (c_name c) = true -> ∃ s', removeConnectionInLoop c s = Ok (tt, s'))
  | JConn f => l = c_loop c ∧ (raw (JConn f) = true -> up t)
  end.

Lemma next_ready s l c j q :
  sys_inv None s -> queue_of s l = (c, j) :: q -> ∃ t, objects s !! c_name c = Some (c, t) ∧ ready s l c t j.
Proof.
  intros Hi Eq. destruct (sv_jobs _ _ Hi l (c, j)) as (Hpl & t & E & _); [rewrite Eq; by left|].
  exists t. split; [done|]. cbn [fst] in *. unfold placed in Hpl. cbn [fst snd] in Hpl.
  pose proof (sv_phase _ _ Hi _ _ _ E ltac:(done)) as Hp.
  destruct j as [| | |f]; simpl; [..|destruct Hpl as [-> Hb]; split_and!; [done|congruence|apply removeConnectionInLoop_runs, Hi]|];
    subst l; rewrite Eq, own_cons, decide_True in Hp by done.
  - apply phase_est in Hp. by destruct Hp.
  - apply phase_destroyed in Hp as (Hst & Hin & _). by split_and!.
  - apply phase_conn in Hp as (_ & _ & Hnc & Hd). split; [done|]. intros Hr.
    destruct (decide (up t)) as [|Hu]; [done|]. specialize (Hd (down_phase t Hu Hnc)). by destruct f.
Qed.


(** When no functor is pending and the user keeps no connection, the connections that exist are
    those of the server's table, and they are up. *)
Lemma at_rest sv s :
  fresh_server sv -> rtc moves (new_System sv) s -> (∀ l, queue_of s l = []) -> held s = ∅ ->
  ∀ nm c t, objects s !! nm = Some (c, t) ->
    connections_ (server s) !! nm = Some c ∧ up t ∧ conn_events t = [true].
Proof.
  intros Hs Hr Hq Hh nm c t E. destruct (reachable_kept sv s Hs Hr) as [Hi Hk Hb].
  assert (in_table s nm = true) as Hin.
  { specialize (Hk nm ltac:(eauto)). apply referenced_spec in Hk as [Hk|[Hk|(l & f & Hf & _)]].
    - by apply bool_decide_eq_true.
    - rewrite Hh in Hk. set_solver.
    - unfold functors_of in Hf. specialize (Hq l). rewrite Hq, app_nil_r in Hf. unfold queue_of in Hq.
      apply app_eq_nil in Hq as [Hc _]. rewrite (Hb l Hc) in Hf. by apply elem_of_nil in Hf. }
  pose proof (sv_phase _ _ Hi _ _ _ E ltac:(done)) as Hp. rewrite Hin, Hq in Hp.
  assert (up t) as Hu by (unfold up; destruct (state_ t); simpl in Hp; [by destruct Hp|tauto|tauto|by destruct Hp]).
  split; [|split; [done|]].
  - apply bool_decide_eq_true in Hin as [c' Hc]. destruct (sv_table _ _ Hi _ _ Hc) as [t' E']. congruence.
  - rewrite (go_told _ (sv_good _ _ Hi _ _ _ E)). by destruct Hu as [-> | ->].
Qed.
(** ** Late calls *)

(** A functor with a raw pointer changes nothing about who is freed. *)
Lemma functors_of_push l f s l' :
  functors_of (queueInLoop l f s) l' = functors_of s l' ++ (if decide (l' = l) then [f] else []).
Proof.
  unfold functors_of. rewrite queue_of_push. unfold queueInLoop. rewrite loop_of_set.
  case_decide as Hl; [rewrite Hl; cbn; by rewrite app_assoc|by rewrite app_nil_r].
Qed.

Lemma referenced_raw l f s nm : raw f.2 = true -> referenced (queueInLoop l f s) nm = referenced s nm.
Proof.
  intros Hr. apply referenced_ext; [done|done|]. intros l' g Hg. rewrite functors_of_push, elem_of_app. case_decide.
  - rewrite list_elem_of_singleton. split; [intros [?| ->]; [done|congruence]|by left].
  - rewrite elem_of_nil. tauto.
Qed.

Lemma collect_raw l f s s' : raw f.2 = true -> collect s = Ok (tt, s') -> collect (queueInLoop l f s) = Ok (tt, queueInLoop l f s').
Proof.
  intros Hr E. pose proof (collect_collected _ _ _ E) as ->. set (q := queueInLoop l f s).
  unfold collect in E |- *. rewrite (bind_Ok _ _ s s s) in E by done. rewrite (bind_Ok _ _ q q q) by done.
  apply bind_inv in E as ([] & s1 & [Ha _]%assert_inv & _). rewrite (bind_Ok _ _ q tt q).
  - unfold modify. f_equal. f_equal. unfold collected. change (objects q) with (objects s).
    assert (filter (λ x : list byte * (Conn * TcpConnection), referenced q x.1 = true) (objects s) =
      filter (λ x, referenced s x.1 = true) (objects s)) as ->; [|done].
    apply map_filter_ext. intros nm x _. cbn [fst]. unfold q. by rewrite referenced_raw.
  - apply assert_Ok. rewrite forallb_forall in Ha |- *. intros x Hx. unfold q. rewrite referenced_raw by done. by apply Ha.
Qed.

(** A swap frees nothing. *)
Lemma swap_collect l s :
  kept s -> calling (loop_of s l) = [] -> collect (swap_functors l s) = Ok (tt, swap_functors l s).
Proof.
  intros [_ Hr Hb] Hc. apply collect_idle. intros nm Hn. rewrite <- (Hr nm Hn). apply referenced_ext; [done|done|].
  intros l' f _. unfold functors_of. rewrite queue_of_swap by done. unfold swap_functors. rewrite loop_of_set.
  case_decide as Hl; [|done]. by rewrite Hl, (Hb l Hc).
Qed.

(** The functor of a loop's vector that destroys a connection, when it is the last. *)
Definition destroyed (c : Conn) (t' : TcpConnection) (s : System) : System :=
  set_object c (set_functors [] t') (take_up (c_loop c) (c, JDestroyed) [] s).

Lemma destroy_runs s c t l :
  sys_inv None s -> objects s !! c_name c = Some (c, t) -> calling (loop_of s l) = [(c, JDestroyed)] ->
  l = c_loop c ∧ up t ∧ in_table s (c_name c) = false ∧
  ∃ t', connectDestroyed (write (U (c_name c))) (onConnection (U (c_name c))) t = Ok (tt, t') ∧ functors t' = [].
Proof.
  intros Hi E Hc. pose proof (queue_of_calling _ _ _ _ Hc) as Eq.
  destruct (next_ready s l c JDestroyed _ Hi Eq) as (t1 & E1 & -> & Hu & Hin). rewrite E in E1. injection E1 as <-.
  split_and!; [done|done|done|]. destruct (connectDestroyed_runs (U (c_name c)) t Hu) as [t' Et]. exists t'. split; [done|].
  destruct (sv_good _ _ Hi _ _ _ E) as [Hf _ Ht _].
  destruct (connectDestroyed_down (U (c_name c)) t tt t') as (_ & _ & _ & _ & ->); [|done|done].
  by rewrite Ht; destruct Hu as [-> | ->].
Qed.

Lemma destroy_step s c t t' :
  objects s !! c_name c = Some (c, t) -> calling (loop_of s (c_loop c)) = [(c, JDestroyed)] ->
  connectDestroyed (write (U (c_name c))) (onConnection (U (c_name c))) t = Ok (tt, t') -> functors t' = [] ->
  sys_op U (OpRun (c_loop c)) s = Ok (tt, destroyed c t' s).
Proof.
  intros E Hc Et Hf. simpl. rewrite (bind_Ok _ _ s s s) by done. rewrite Hc. set (s1 := take_up (c_loop c) (c, JDestroyed) [] s).
  rewrite (bind_Ok _ _ s tt s1) by done. simpl. unfold on_conn. rewrite (bind_Ok _ _ s1 s1 s1) by done.
  change (objects s1) with (objects s). rewrite E, Et.
  rewrite (bind_Ok _ _ s1 tt (destroyed c t' s)) by done. by rewrite Hf.
Qed.

(** The user gives up a connection, and its loop destroys it: it is freed with the vector. *)
Lemma let_go s c t :
  kept s -> objects s !! c_name c = Some (c, t) -> up t -> calling (loop_of s (c_loop c)) = [(c, JDestroyed)] ->
  pendingFunctors_ (loop_of s (c_loop c)) = [] ->
  (∀ l f, l ≠ c_loop c -> f ∈ functors_of s l -> c_name f.1 ≠ c_name c) ->
  ∃ sA sC t', collect (set_held (held s ∖ {[c_name c]}) s) = Ok (tt, sA) ∧ objects sA !! c_name c = Some (c, t) ∧
    calling (loop_of sA (c_loop c)) = [(c, JDestroyed)] ∧
    connectDestroyed (write (U (c_name c))) (onConnection (U (c_name c))) t = Ok (tt, t') ∧ functors t' = [] ∧
    collect (destroyed c t' sA) = Ok (tt, sC) ∧ kept sC ∧ objects sC !! c_name c = None ∧ loop_of sC (c_loop c) = no_functors.
Proof.
  intros [Hi Hk Hb] E Hu Hc Hp Hothers. set (sA := set_held (held s ∖ {[c_name c]}) s).
  pose proof (sys_inv_held s (held s ∖ {[c_name c]}) Hi : sys_inv None sA) as HiA.
  destruct (collect_inv sA HiA) as (sA' & EA & HiA' & _). pose proof (collect_collected _ _ _ EA) as HA.
  assert (objects sA' !! c_name c = Some (c, t)) as EA'.
  { rewrite HA. apply map_lookup_filter_Some. split; [done|]. eapply alive_referenced; [exact HiA|exact E|]. by destruct Hu as [-> | ->]. }
  assert (∀ l', loop_of sA' l' = loop_of s l') as HlA by (by rewrite HA).
  assert (calling (loop_of sA' (c_loop c)) = [(c, JDestroyed)]) as HcA by (by rewrite HlA).
  destruct (destroy_runs sA' c t _ HiA' EA' HcA) as (_ & _ & Hin & t' & Et & Hf').
  pose proof (destroy_step sA' c t t' EA' HcA Et Hf') as EB. set (sB := destroyed c t' sA') in *.
  pose proof (sys_op_inv (OpRun (c_loop c)) sA' tt sB HiA' I EB) as HiB.
  assert (batches sB) as HbB by (refine (sys_op_batches (OpRun (c_loop c)) sA' tt sB _ EB); intros l'; rewrite HlA; apply Hb).
  assert (∀ l', loop_of sB l' = if decide (l' = c_loop c) then no_functors else loop_of s l') as HlB.
  { intros l'. change (loop_of sB l') with (loop_of (take_up (c_loop c) (c, JDestroyed) [] sA') l').
    unfold take_up. rewrite loop_of_set, !HlA. unfold taken. by rewrite Hp. }
  destruct (collect_inv sB HiB) as (sC & EC & HiC & HoC & HrC & _). pose proof (collect_collected _ _ _ EC) as HC.
  exists sA', sC, t'. split_and!; try done.
  - split; [done|intros x Hx; rewrite HrC; by apply HoC|rewrite HC; exact HbB].
  - destruct (objects sC !! c_name c) as [x|] eqn:X; [|done]. destruct (proj1 (HoC (c_name c)) ltac:(by rewrite X)) as [_ Y].
    apply referenced_spec in Y as [Y|[Y|(l' & f & Y & _ & Hn)]].
    + apply bool_decide_eq_false in Hin. by destruct Hin.
    + assert (held sB = held s ∖ {[c_name c]}) as Hh by (change (held sB) with (held sA'); by rewrite HA).
      rewrite Hh in Y. set_solver.
    + unfold functors_of, queue_of in Y. rewrite HlB in Y. case_decide as Hl; [by apply elem_of_nil in Y|by destruct (Hothers l' f Hl Y)].
  - rewrite HC. change (loop_of (collected sB) (c_loop c)) with (loop_of sB (c_loop c)). by rewrite HlB, decide_True.
Qed.

(** What a late functor finds there. *)
Definition late (c : Conn) (m : list byte) : System -> System := queueInLoop (c_loop c) (c, JConn (FSendInLoop m)).

Lemma late_call s c t m :
  kept s -> objects s !! c_name c = Some (c, t) -> c_name c ∈ held s -> state_ t = kConnected ->
  sys_step U (OpCall (c_name c) false (CSend m)) s = Ok (tt, late c m s).
Proof.
  intros [Hi Hk _] E Hh Hst. pose proof (go_functors _ (sv_good _ _ Hi _ _ _ E)) as Hf. unfold sys_step.
  rewrite (bind_Ok _ _ s tt (late c m s)); [by apply collect_raw, collect_idle|].
  simpl. rewrite (bind_Ok _ _ s s s) by done. rewrite E, bool_decide_true by done. cbn [when].
  unfold on_conn. rewrite (bind_Ok _ _ s s s) by done. rewrite E.
  assert (send (write (U (c_name c))) false m t = Ok (tt, set_functors [FSendInLoop m] t)) as ->.
  { unfold send, TcpConnection.queueInLoop. msimp. by rewrite bool_decide_true, Hf by done. }
  assert (set_functors [] (set_functors [FSendInLoop m] t) = t) as -> by (destruct t; simpl in Hf; by subst).
  assert (set_object c t s = s) as Hs by (destruct s; unfold set_object, set_objects; simpl; f_equal; by apply insert_id).
  rewrite (bind_Ok _ _ s tt (set_object c t s)) by done. by rewrite Hs.
Qed.

Lemma late_destroyed c m t' s : destroyed c t' (late c m s) = late c m (destroyed c t' s).
Proof.
  unfold destroyed, late, take_up, queueInLoop, set_object, set_objects, set_queue, loop_of. cbn [queues server objects held].
  rewrite !lookup_insert_eq, !insert_insert_eq. done.
Qed.

Lemma late_ub s c m :
  kept s -> objects s !! c_name c = None -> loop_of s (c_loop c) = no_functors ->
  mapM_ (sys_step U) [OpRun (c_loop c); OpRun (c_loop c)] (late c m s) = Fault UB.
Proof.
  intros [_ Hk _] E Hl. set (s1 := swap_functors (c_loop c) (late c m s)).
  assert (∀ l, loop_of s1 l = if decide (l = c_loop c) then mkQueue [] [(c, JConn (FSendInLoop m))] [] else loop_of s l) as Hl1.
  { intros l. unfold s1, swap_functors, late, queueInLoop. rewrite !loop_of_set. case_decide; [|done]. by rewrite decide_True, Hl by done. }
  assert (sys_step U (OpRun (c_loop c)) (late c m s) = Ok (tt, s1)) as E1.
  { unfold sys_step. rewrite (bind_Ok _ _ _ tt s1).
    - apply collect_idle. intros nm Hn. rewrite <- (Hk nm Hn). apply referenced_ext; [done|done|].
      intros l f Hr. unfold functors_of, queue_of. rewrite Hl1. case_decide as Hd; [|done]. rewrite Hd, Hl. cbn.
      rewrite list_elem_of_singleton, elem_of_nil. split; [intros ->; done|done].
    - simpl. rewrite (bind_Ok _ _ (late c m s) (late c m s) (late c m s)) by done. unfold late at 1, queueInLoop.
      by rewrite loop_of_set, decide_True, Hl. }
  assert (sys_op U (OpRun (c_loop c)) s1 = Fault UB) as E2.
  { simpl. rewrite (bind_Ok _ _ s1 s1 s1) by done. rewrite Hl1, decide_True by done. cbn [calling].
    set (s2 := take_up (c_loop c) (c, JConn (FSendInLoop m)) [] s1). rewrite (bind_Ok _ _ s1 tt s2) by done.
    simpl. unfold on_conn. rewrite (bind_Ok _ _ s2 s2 s2) by done. change (objects s2) with (objects s). by rewrite E. }
  cbn [mapM_]. rewrite (bind_Ok _ _ _ _ _ E1). unfold sys_step, mbind, M_bind. by rewrite E2.
Qed.

End system.

(** * Runs *)

Definition sample_users (nm : list byte) : User := mkUser write3 greet echo [] (λ _, []).
Definition sample_conn : list byte := connName sample_server 1.

Definition system_run (ops : list SysOp) : res (unit * System) :=
  mapM_ (sys_step sample_users) ops (new_System sample_server).

(** A peer closes its connection, and the server's and the connection's thread see to it. *)
Definition peer_closes : SysOp := OpEvent sample_conn POLLIN (λ _ _, inr []).

(** A connection that its peer has closed and its user has kept, up to where its loop is about
    to destroy it. *)
Definition leaving : list SysOp :=
  [OpAccept 7 0; OpRun 10; OpRun 10; OpHold sample_conn; peer_closes; OpRun 1; OpRun 1].
Definition late_send : SysOp := OpCall sample_conn false (CSend hello).

(** Late calls.  The functor of a [send] that has missed the vector of the destroying functor
    finds the connection freed; if it has not missed it, or the user has kept the connection, it
    writes to a connection that is down, which puts its channel back into the poller, so that
    freeing it fails [~Channel]'s assertion. *)
Lemma late_call_runs :
  is_ok (system_run (leaving ++ [OpRun 10; late_send])) = true ∧
  system_run (leaving ++ [OpRun 10; late_send; OpRelease sample_conn; OpRun 10; OpRun 10; OpRun 10]) = Fault UB ∧
  system_run (leaving ++ [late_send; OpRelease sample_conn; OpRun 10; OpRun 10; OpRun 10]) = Fault AssertFail ∧
  system_run (leaving ++ [OpRun 10; late_send; OpRun 10; OpRun 10; OpRun 10; OpRelease sample_conn]) = Fault AssertFail.
Proof. vm_compute. split_and!; reflexivity. Qed.

(** Whether the operations of a run are polite. *)
Fixpoint polite_run (ops : list SysOp) (s : System) : option System :=
  match ops with
  | [] => Some s
  | o :: ops' =>
      if match o with OpCall nm false _ => in_table s nm | _ => true end then
        match sys_step sample_users o s with Ok (_, s') => polite_run ops' s' | Fault _ => None end
      else None
  end.

Lemma polite_run_moves ops s s' : polite_run ops s = Some s' -> rtc (moves sample_users) s s'.
Proof.
  revert s. induction ops as [|o ops IH]; intros s E; simpl in E; [injection E as <-; apply rtc_refl|].
  destruct (match o with OpCall nm false _ => in_table s nm | _ => true end) eqn:Hp; [|done].
  destruct (sys_step sample_users o s) as [[[] s1]|] eqn:E1; [|done].
  apply rtc_l with s1; [|by apply IH]. exists o. split; [|done]. by destruct o as [| | |? []| |].
Qed.

Lemma sample_fresh : fresh_server sample_server.
Proof.
  split; [|done]. split; [split; [reflexivity|intros _; vm_compute; split; congruence]|vm_compute; congruence|vm_compute; split; congruence|].
  intros nm c Hc. simpl in Hc. by rewrite lookup_empty in Hc.
Qed.

(** Two connections; the first is called by another thread and closed. *)
Definition sample_ops : list SysOp :=
  [OpAccept 7 0; OpAccept 8 0; OpRun 10; OpRun 10; OpRun 11; OpRun 11; OpHold sample_conn; late_send;
   peer_closes; OpRelease sample_conn; OpRun 1; OpRun 1].

Definition sample_check (s : System) : bool :=
  match queue_of s 10 with
  | [(c, JConn (FSendInLoop _)); (c', JDestroyed)] => bool_decide (c_name c' = c_name c)
  | _ => false
  end.

Lemma sample_system : match polite_run sample_ops (new_System sample_server) with Some s => sample_check s | None => false end = true.
Proof. vm_compute. reflexivity. Qed.


(** The loops but for those in [ls] have no functors at all. *)
Definition no_others (ls : list Z) (s : System) : bool :=
  forallb (λ x : Z * Queue Pending, bool_decide (x.1 ∈ ls) ||
    match x.2 with mkQueue [] [] [] => true | _ => false end) (map_to_list (queues s)).

Lemma no_others_spec ls s l : no_others ls s = true -> l ∉ ls -> functors_of s l = [].
Proof.
  unfold no_others. rewrite forallb_forall. intros H Hl. unfold functors_of, queue_of, loop_of.
  destruct (queues s !! l) as [q|] eqn:E; [|done].
  specialize (H (l, q) ltac:(by apply list_elem_of_In, elem_of_map_to_list)). simpl in H.
  rewrite bool_decide_eq_false_2 in H by done. by destruct q as [[] [] []].
Qed.

(** The connection has left the table and is about to be destroyed; its user has kept it. *)
Definition late_check (s : System) : bool :=
  match objects s !! sample_conn, loop_of s 10 with
  | Some (c, t), mkQueue [] [(c', JDestroyed)] [] =>
      bool_decide (sample_conn ∈ held s) && bool_decide (state_ t = kConnected) && bool_decide (c_loop c = 10) &&
      bool_decide (c = c') && no_others [10] s
  | _, _ => false
  end.

Lemma sample_late_runs :
  match polite_run (leaving ++ [OpRun 10]) (new_System sample_server) with Some s => late_check s | None => false end = true.
Proof. vm_compute. reflexivity. Qed.

