(* ===== verification/ServerRest.v ===== *)
(** A server comes to rest: the functors of a server's loops can be called and run out, as long
    as the users' write-complete and high-water callbacks make no calls, and what is left then
    are the connections of the server's table. *)
From S2P Require Import Prelude EventLoopThread TcpServer Buffer Channel TcpConnection TcpProps TcpPair ServerSystem ServerProps.
Open Scope list_scope.

(** * Weights *)

(** How many functors can come of one, itself included. *)
Definition functor_weight (f : ConnFunctor) : nat :=
  match f with
  | FSendInLoop _ => 3
  | FForceCloseInLoop => 3
  | FRemoveConnection => 2
  | FShutdownInLoop | FWriteComplete | FHighWaterMark _ | FConnectDestroyed => 1
  end.

Definition functors_weight (fs : list ConnFunctor) : nat := foldr (λ f n, functor_weight f + n)%nat 0%nat fs.

Lemma functors_weight_app fs gs : functors_weight (fs ++ gs) = (functors_weight fs + functors_weight gs)%nat.
Proof. induction fs as [|f fs IH]; simpl; [done|]. rewrite IH. lia. Qed.

Lemma functor_weight_pos f : (1 <= functor_weight f)%nat.
Proof. destruct f; simpl; lia. Qed.

(** ** What a method of a connection can queue *)

Definition costs (n : nat) {A} (m : M TcpConnection A) : Prop :=
  ∀ t x t', m t = Ok (x, t') -> (functors_weight (functors t') <= functors_weight (functors t) + n)%nat.

Lemma costs_ret {A} (a : A) : costs 0 (mret a).
Proof. intros t x t' E. injection E as _ <-. lia. Qed.
Lemma costs_get : costs 0 get.
Proof. intros t x t' E. injection E as _ <-. lia. Qed.
Lemma costs_fail {A} f : costs 0 (fail (A := A) f).
Proof. intros t x t' E. discriminate E. Qed.
Lemma costs_assert b : costs 0 (assert b).
Proof. intros t x t' [_ ->]%assert_inv. lia. Qed.
Lemma costs_modify f : (∀ t, functors (f t) = functors t) -> costs 0 (modify f).
Proof. intros Hf t x t' E. injection E as _ <-. rewrite Hf. lia. Qed.
Lemma costs_queue f : costs (functor_weight f) (TcpConnection.queueInLoop f).
Proof. intros t x t' E. injection E as _ <-. simpl. rewrite functors_weight_app. simpl. lia. Qed.
Lemma costs_zoom {T A} (g : TcpConnection -> T) p (m : M T A) :
  (∀ t u, functors (p u t) = functors t) -> costs 0 (zoom g p m).
Proof. intros Hp t x t' E. unfold zoom in E. destruct (m (g t)) as [[b u]|]; [|done]. injection E as _ <-. rewrite Hp. lia. Qed.

Lemma costs_le n k {A} (m : M TcpConnection A) : (n <= k)%nat -> costs n m -> costs k m.
Proof. intros Hn Hm t x t' E. specialize (Hm t x t' E). lia. Qed.

Lemma costs_bind n k {A B} (m : M TcpConnection A) (h : A -> M TcpConnection B) :
  costs n m -> (∀ a, costs k (h a)) -> costs (n + k) (m ≫= h).
Proof. intros Hm Hh t x t' (a & t1 & E1 & E2)%bind_inv. specialize (Hm _ _ _ E1). specialize (Hh _ _ _ _ E2). lia. Qed.

Lemma costs_when n b m : costs n m -> costs n (when b m).
Proof. intros Hm. destruct b; [done|]. eapply costs_le; [|apply costs_ret]. lia. Qed.

Lemma costs_if n {A} (b : bool) (m1 m2 : M TcpConnection A) : costs n m1 -> costs n m2 -> costs n (if b then m1 else m2).
Proof. by destruct b. Qed.

Lemma costs_mapM n {A} (f : A -> M TcpConnection unit) l : (∀ x, costs n (f x)) -> costs (n * length l) (mapM_ f l).
Proof.
  intros Hf. induction l as [|x l IH]; simpl; [rewrite Nat.mul_0_r; apply costs_ret|].
  rewrite Nat.mul_succ_r, Nat.add_comm. by apply costs_bind.
Qed.

Lemma costs_if_max n k {A} (b : bool) (m1 m2 : M TcpConnection A) : costs n m1 -> costs k m2 -> costs (n `max` k) (if b then m1 else m2).
Proof. intros H1 H2. apply costs_if; (eapply costs_le; [|done]); lia. Qed.

(** Follows the code and adds up what it queues. *)
Ltac cost_step :=
  lazymatch goal with
  | |- ∀ _, _ => intros ?
  | |- costs _ (mret _) => apply costs_ret
  | |- costs _ get => apply costs_get
  | |- costs _ (assert _) => apply costs_assert
  | |- costs _ (modify _) => apply costs_modify; by intros
  | |- costs _ (zoom _ _ _) => apply costs_zoom; by intros
  | |- costs _ (TcpConnection.queueInLoop ?f) => let w := eval cbn in (functor_weight f) in apply (costs_queue f : costs w _)
  | |- costs _ (when _ _) => apply costs_when
  | |- costs _ (if _ then _ else _) => apply costs_if_max
  | |- costs _ (let '(_, _) := ?p in _) => destruct p
  | |- costs _ (_ ≫= _) => eapply costs_bind
  end.
Ltac cost := eapply costs_le; [|repeat (cost_step || (progress intros) || solve [eauto with costs])]; simpl; lia.

Create HintDb costs.

Section connection.
Context (u : User).

Lemma sys_write_costs d : costs 0 (sys_write (write u) d).
Proof.
  unfold sys_write. apply (costs_bind 0 0); [apply costs_get|]. intros t. destruct (write u _ _); cost.
Qed.
#[local] Hint Resolve sys_write_costs : costs.

Lemma on_channel_costs f : costs 0 (on_channel f).
Proof. unfold on_channel. cost. Qed.
#[local] Hint Resolve on_channel_costs : costs.

Lemma sendInLoop_costs m : costs 2 (sendInLoop (write u) m).
Proof. unfold sendInLoop, on_output. cost. Qed.
#[local] Hint Resolve sendInLoop_costs : costs.

Lemma call_costs c : costs 3 (call (write u) true c).
Proof. destruct c; simpl; unfold send, shutdown, shutdownInLoop, forceClose; cost. Qed.

Lemma handleClose_costs : costs 2 (handleClose (TcpConnection.removeConnection false)).
Proof. unfold handleClose, TcpConnection.removeConnection. cost. Qed.

Lemma tell_quiet e : costs 0 (tell (write u) e []).
Proof. unfold tell. simpl. cost. Qed.

Lemma connectEstablished_costs : costs (3 * length (onConnection u true)) (connectEstablished (write u) (onConnection u)).
Proof.
  unfold connectEstablished, tell. eapply costs_le; [|repeat (cost_step || solve [eauto with costs])].
  2:{ apply (costs_mapM 3), call_costs. } lia.
Qed.

(** By then the state is [kDisconnected], in which calls do nothing. *)
Lemma connectDestroyed_costs : costs 0 (connectDestroyed (write u) (onConnection u)).
Proof.
  intros t x t' E. unfold connectDestroyed, on_channel, tell in E. rewrite (bind_Ok _ _ t t t) in E by done.
  apply bind_inv in E as ([] & t0 & [_ ->]%assert_inv & E). rewrite (bind_Ok _ _ t tt (set_state kDisconnected t)) in E by done.
  set (t2 := set_chan (set_added true (disableAll (channel_ t))) (set_state kDisconnected t)) in *.
  rewrite (bind_Ok _ _ _ tt t2) in E by done. set (t3 := add_event (UConnection false) t2) in *.
  rewrite (bind_Ok _ _ t2 tt t3) in E; [injection E as _ <-; simpl; lia|].
  rewrite (bind_Ok _ _ t2 tt t3) by done. apply calls_down. by intros [].
Qed.

Definition quiet : Prop := onWriteComplete u = [] ∧ ∀ n, onHighWaterMark u n = [].

Lemma run_functor_costs f :
  quiet -> costs (functor_weight f - 1)
    (run_functor (write u) (onConnection u) (onWriteComplete u) (onHighWaterMark u) (TcpConnection.removeConnection false) f).
Proof.
  intros [Hw Hh]. destruct f; cbn [functor_weight run_functor].
  - apply sendInLoop_costs.
  - unfold shutdownInLoop. cost.
  - unfold forceCloseInLoop. eapply costs_le; [|repeat cost_step; apply handleClose_costs]. simpl. lia.
  - rewrite Hw. apply tell_quiet.
  - rewrite Hh. apply tell_quiet.
  - unfold TcpConnection.removeConnectionInLoop. cost.
  - apply connectDestroyed_costs.
Qed.
End connection.

(** * The output buffer *)

Section room.
Context (u : User) (Hwrite : ∀ n d k, write u n d = inr k -> 0 <= k <= zlen d).

Abbreviation C := TcpConnection.
Abbreviation close := (TcpConnection.removeConnection false).

(** While the output fits in memory its buffer stays in order. *)
Definition room_rel (t t' : C) : Prop :=
  accepted t `prefix_of` accepted t' ∧ (fits t' -> out_room t -> out_room t').

#[local] Instance room_rel_PreOrder : PreOrder room_rel.
Proof.
  split; [by split|]. intros t1 t2 t3 [P1 R1] [P2 R2]. split; [by transitivity (accepted t2)|].
  intros Hf H1. apply R2, R1; [done| |done]. by eapply fits_prefix.
Qed.

Lemma room_same t t' : accepted t' = accepted t -> outputBuffer_ t' = outputBuffer_ t -> room_rel t t'.
Proof. intros Ha Ho. split; [by rewrite Ha|]. intros _ [? ? ?]. split; by rewrite ?Ho, ?Ha. Qed.

Ltac room_steps := repeat mono_step; try (intros; by apply room_same).

Lemma sendInLoop_room m : mono room_rel (sendInLoop (write u) m).
Proof.
  intros t [] t' E. pose proof (sendInLoop_accepted _ _ _ _ _ E) as Ha. split; [rewrite Ha; by apply prefix_app_r|].
  intros Hfit Hr. unfold fits in Hfit. rewrite Ha, length_app in Hfit.
  destruct (sendInLoop_spec (write u) Hwrite m t Hr) as (t1 & E1 & _ & _ & Ho & (Hwf & Hsz) & _); [lia|].
  rewrite E in E1. injection E1 as <-. destruct Hr as [_ Hs Hl]. split; [done|rewrite Ha, length_app; lia|].
  rewrite Ho, Ha, !length_app, length_drop. lia.
Qed.

Lemma call_room inLoop c : mono room_rel (call (write u) inLoop c).
Proof.
  destruct c; simpl; unfold send, shutdown, shutdownInLoop, forceClose, TcpConnection.queueInLoop; destruct inLoop; room_steps;
    apply sendInLoop_room.
Qed.

Lemma tell_room e cs : mono room_rel (tell (write u) e cs).
Proof. unfold tell. room_steps. apply (call_room true). Qed.

Lemma handleClose_room : mono room_rel (handleClose close).
Proof. unfold handleClose, TcpConnection.removeConnection, on_channel, TcpConnection.queueInLoop. room_steps. Qed.

Lemma run_functor_room f :
  mono room_rel (run_functor (write u) (onConnection u) (onWriteComplete u) (onHighWaterMark u) close f).
Proof.
  destruct f; simpl; unfold shutdownInLoop, forceCloseInLoop, TcpConnection.removeConnectionInLoop, connectDestroyed,
    channel_remove, on_channel, TcpConnection.queueInLoop; room_steps; try apply tell_room; [apply sendInLoop_room|apply handleClose_room].
Qed.

Lemma connectEstablished_room : mono room_rel (connectEstablished (write u) (onConnection u)).
Proof. unfold connectEstablished, on_channel. room_steps. apply tell_room. Qed.

Lemma connectDestroyed_room : mono room_rel (connectDestroyed (write u) (onConnection u)).
Proof. exact (run_functor_room FConnectDestroyed). Qed.

Lemma handleRead_room readv : mono room_rel (handleRead (write u) (onMessage u) close readv).
Proof.
  unfold handleRead, handleError. apply mono_bind; [apply _|room_steps|intros t].
  destruct (readFd _ _ _) as [[[n e] b]|]; [|apply mono_fail].
  room_steps; [apply (call_room true)|apply handleClose_room].
Qed.

(** Bytes that were written leave the buffer. *)
Lemma retrieve_room t n x t' :
  0 < n <= readableBytes (outputBuffer_ t) -> on_output (retrieve n) t = Ok (x, t') -> room_rel t t'.
Proof.
  intros Hn E. unfold on_output, zoom in E. destruct (retrieve n (outputBuffer_ t)) as [[y b]|] eqn:Er; [|done].
  injection E as _ <-. split; [done|]. intros _ [Hwf Hs Hl].
  destruct (retrieve_spec (outputBuffer_ t) n Hwf ltac:(lia) ltac:(lia)) as (b' & Er' & Hwf' & Hc & _ & Hb).
  rewrite Er in Er'. injection Er' as _ <-. split; simpl; [done|by rewrite Hb|]. rewrite Hc, length_drop. lia.
Qed.

Lemma sys_write_room t x t' :
  wf (outputBuffer_ t) -> sys_write (write u) (content (outputBuffer_ t)) t = Ok (x, t') ->
  room_rel t t' ∧ outputBuffer_ t' = outputBuffer_ t ∧ x <= readableBytes (outputBuffer_ t).
Proof.
  intros Hwf E. unfold sys_write in E. rewrite (bind_Ok _ _ t t t) in E by done.
  rewrite <- zlen_content by done. destruct (write u (writes t) _) as [e|n] eqn:Ew.
  - rewrite (bind_Ok _ _ t tt (add_written [] t)) in E by done. injection E as <- <-. split; [by apply room_same|]. split; [done|]. lia.
  - set (d := take (Z.to_nat n) (content (outputBuffer_ t))) in *.
    rewrite (bind_Ok _ _ t tt (add_written d t)) in E by done. injection E as <- <-. apply Hwrite in Ew. split; [by apply room_same|]. split; [done|]. lia.
Qed.

Lemma handleWrite_room : mono room_rel (handleWrite (write u)).
Proof.
  assert (mono (same accepted) (handleWrite (write u))) as Hacc
    by (unfold handleWrite, sys_write, on_output, on_channel, TcpConnection.queueInLoop, shutdownInLoop; by repeat mono_step).
  intros t x t' E. split; [by rewrite (Hacc t x t' E)|]. intros Hfit Hr. pose proof (rm_wf _ Hr) as Hwf. revert Hfit Hr.
  unfold handleWrite in E. rewrite (bind_Ok _ _ t t t) in E by done.
  destruct (isWriting (channel_ t)); [|injection E as _ <-; done]. cbn [when] in E.
  apply bind_inv in E as (n & t1 & E1 & E).
  assert (∀ t2, mono room_rel (when (readableBytes (outputBuffer_ t2) =? 0)
      (on_channel disableWriting ;; when (writeCompleteCallback_ t2) (TcpConnection.queueInLoop FWriteComplete) ;;
       when (bool_decide (state_ t2 = kDisconnecting)) shutdownInLoop))) as Hrest
    by (intros t2; unfold on_channel, TcpConnection.queueInLoop, shutdownInLoop; room_steps).
  destruct (sys_write_room t n t1 Hwf E1) as (H1 & Ho & Hn).
  enough (room_rel t1 t') as H2 by (apply (PreOrder_Transitive t t1 t' H1 H2)).
  destruct (Z.ltb_spec 0 n); [|injection E as _ <-; done]. cbn [when] in E. apply bind_inv in E as ([] & t2 & E2 & E).
  transitivity t2; [eapply retrieve_room; [|exact E2]; rewrite Ho; lia|].
  rewrite (bind_Ok _ _ t2 t2 t2) in E by done. by apply Hrest in E.
Qed.

Lemma handle_event_room revents readv : mono room_rel (handle_event (write u) (onMessage u) close revents readv).
Proof.
  unfold handle_event. room_steps.
  match goal with |- mono _ (run_callback _ _ _ _ ?cb) => destruct cb end; simpl.
  - apply handleClose_room.
  - apply mono_ret, _.
  - apply handleRead_room.
  - apply handleWrite_room.
Qed.

(** ** What runs *)

(** The bytes some calls send. *)
Definition sends (cs : list Call) : Z := foldr (λ c n, match c with CSend m => zlen m + n | _ => n end) 0 cs.

Lemma sends_pos cs : 0 <= sends cs.
Proof. induction cs as [|[m| |] cs IH]; simpl; lia. Qed.

(** There is memory for [n] more bytes. *)
Definition memory (t : C) (n : Z) : Prop := kCheapPrepend + kInitialSize + (zlen (accepted t) + n) <= max_size.

Lemma memory_fits t n : 0 <= n -> memory t n -> fits t.
Proof. unfold memory, fits. lia. Qed.

Lemma call_runs c t n :
  out_room t -> 0 <= n -> memory t (sends [c] + n) ->
  ∃ t', call (write u) true c t = Ok (tt, t') ∧ out_room t' ∧ memory t' n.
Proof.
  intros Hr Hn Hm. assert (∀ t', call (write u) true c t = Ok (tt, t') -> zlen (accepted t') <= zlen (accepted t) + sends [c] ->
      ∃ t', call (write u) true c t = Ok (tt, t') ∧ out_room t' ∧ memory t' n) as Hdone.
  { intros t' E Ha. exists t'. unfold memory in *. split_and!; [done| |lia]. apply call_room in E as [_ E]. apply E; [unfold fits; lia|done]. }
  destruct c as [m| |]; cbn [call sends foldr] in *.
  - unfold send in *. rewrite (bind_Ok _ _ t t t) in * by done. destruct (bool_decide (state_ t = kConnected)); cbn [when] in *.
    + destruct (sendInLoop_spec (write u) Hwrite m t Hr) as (t' & E & Ha & _); [unfold memory in Hm; lia|].
      apply (Hdone t' E). rewrite Ha, length_app. lia.
    + by apply (Hdone t); [|lia].
  - unfold shutdown, shutdownInLoop in *. rewrite (bind_Ok _ _ t t t) in * by done.
    destruct (bool_decide (state_ t = kConnected)); cbn [when] in *; [|by apply (Hdone t); [|lia]].
    rewrite (bind_Ok _ _ t tt (set_state kDisconnecting t)) in * by done. set (t1 := set_state kDisconnecting t) in *.
    rewrite (bind_Ok _ _ t1 t1 t1) in * by done.
    destruct (negb (isWriting (channel_ t1))); [apply (Hdone (shutdownWrite t1))|apply (Hdone t1)]; simpl; (done || lia).
  - unfold forceClose in *. rewrite (bind_Ok _ _ t t t) in * by done.
    destruct (_ || _); cbn [when] in *; [|by apply (Hdone t); [|lia]].
    rewrite (bind_Ok _ _ t tt (set_state kDisconnecting t)) in * by done. eapply Hdone; [reflexivity|simpl; lia].
Qed.

Lemma calls_run cs : ∀ t, out_room t -> memory t (sends cs) -> ∃ t', mapM_ (call (write u) true) cs t = Ok (tt, t').
Proof.
  induction cs as [|c cs IH]; intros t Hr Hm; simpl; [by exists t|].
  destruct (call_runs c t (sends cs) Hr (sends_pos cs)) as (t1 & E & Hr1 & Hm1).
  { destruct c; unfold memory in *; simpl in *; lia. }
  rewrite (bind_Ok _ _ _ _ _ E). by apply IH.
Qed.

Lemma connectEstablished_runs t :
  state_ t = kConnecting -> out_room t -> memory t (sends (onConnection u true)) ->
  ∃ t', connectEstablished (write u) (onConnection u) t = Ok (tt, t').
Proof.
  intros Hst Hr Hm. unfold connectEstablished, on_channel, tell. rewrite (bind_Ok _ _ t t t) by done.
  rewrite (bind_Ok _ _ t tt t) by (by apply assert_Ok, bool_decide_eq_true).
  set (t1 := set_state kConnected t). rewrite (bind_Ok _ _ t tt t1) by done.
  set (t2 := set_chan (set_added true (enableReading (channel_ t1))) t1). rewrite (bind_Ok _ _ t1 tt t2) by done.
  set (t3 := add_event (UConnection true) t2). rewrite (bind_Ok _ _ t2 tt t3) by done.
  apply calls_run; [|done]. destruct (room_same t t3 eq_refl eq_refl) as [_ H]. apply H; [|done].
  by eapply memory_fits, Hm; apply sends_pos.
Qed.

(** What a functor needs, and leaves. *)
Lemma run_functor_runs f t :
  quiet u -> leaves true f -> functors t = [] -> (∀ m, f = FSendInLoop m -> out_room t ∧ memory t (zlen m)) ->
  ∃ t', run_functor (write u) (onConnection u) (onWriteComplete u) (onHighWaterMark u) close f t = Ok (tt, t') ∧
    (FRemoveConnection ∉ functors t' ∨ f = FForceCloseInLoop ∧ up t ∧ functors t' = [FRemoveConnection]).
Proof.
  intros [Hw Hh] Hl Hf Hm. destruct f as [m| | | |n| |]; try done; cbn [run_functor].
  - destruct (Hm m eq_refl) as [Hr Hmem]. destruct (sendInLoop_spec (write u) Hwrite m t Hr Hmem) as (t' & E & _).
    exists t'. split; [done|]. left. destruct (sendInLoop_calm u m t tt t' E) as (o & -> & Ho). by rewrite Hf.
  - unfold shutdownInLoop. rewrite (bind_Ok _ _ t t t) by done.
    destruct (negb _); eexists; (split; [reflexivity|left; simpl; rewrite Hf; apply not_elem_of_nil]).
  - unfold forceCloseInLoop. rewrite (bind_Ok _ _ t t t) by done.
    destruct (bool_decide _ || bool_decide _) eqn:Hb; cbn [when].
    + unfold handleClose. rewrite (bind_Ok _ _ t t t) by done. rewrite Hb. rewrite (bind_Ok _ _ t tt t) by done.
      eexists. split; [reflexivity|]. right. split; [done|]. simpl. rewrite Hf. split; [|done].
      by apply orb_true_iff in Hb as [?%bool_decide_eq_true|?%bool_decide_eq_true]; [left|right].
    + exists t. split; [done|]. left. rewrite Hf. apply not_elem_of_nil.
  - rewrite Hw. eexists. split; [reflexivity|]. left. simpl. rewrite Hf. apply not_elem_of_nil.
  - rewrite Hh. eexists. split; [reflexivity|]. left. simpl. rewrite Hf. apply not_elem_of_nil.
Qed.
End room.

(** * The loops' queues *)

Section system.
Context (U : list byte -> User).

Definition job_weight (f : Pending) : nat :=
  match f.2 with
  | JEstablished => 1 + 3 * length (onConnection (U (c_name f.1)) true)
  | JDestroyed => 1
  | JRemove => 2
  | JConn f => functor_weight f
  end.

Definition queue_weight (q : list Pending) : nat := foldr (λ f n, job_weight f + n)%nat 0%nat q.

(** The steps a loop may have to take: a functor, and what comes of it, may need a swap each. *)
Definition loop_work (q : Queue Pending) : nat :=
  match calling q with
  | [] => 2 * queue_weight (pendingFunctors_ q)
  | _ => 2 * (queue_weight (calling q) + queue_weight (pendingFunctors_ q)) - 1
  end.

Definition work_left (s : System) : nat := map_fold (λ _ q n, loop_work q + n)%nat 0%nat (queues s).

#[local] Arguments work_left : simpl never.

Lemma job_weight_pos f : (1 <= job_weight f)%nat.
Proof. destruct f as [c [| | |f]]; cbn; [lia..|apply functor_weight_pos]. Qed.

Lemma queue_weight_app q1 q2 : queue_weight (q1 ++ q2) = (queue_weight q1 + queue_weight q2)%nat.
Proof. induction q1 as [|f q1 IH]; simpl; [done|]. rewrite IH. lia. Qed.

Lemma set_queue_work l q s : (work_left (set_queue l q s) + loop_work (loop_of s l) = work_left s + loop_work q)%nat.
Proof.
  unfold work_left, loop_of. cbn [queues set_queue].
  rewrite <- insert_delete_eq, map_fold_insert_L; [|intros; lia|apply lookup_delete_eq].
  destruct (queues s !! l) as [q0|] eqn:E; cbn [from_option id].
  - rewrite (map_fold_delete_L _ 0%nat l q0 (queues s)); [lia|intros; lia|done].
  - rewrite delete_id by done. cbn. lia.
Qed.

Lemma queueInLoop_work l f s : work_left (queueInLoop l f s) = (work_left s + 2 * job_weight f)%nat.
Proof.
  unfold queueInLoop. pose proof (set_queue_work l (pushed [f] (loop_of s l)) s) as H. revert H. generalize (loop_of s l) as q. intros q H.
  unfold pushed in H |- *.
  unfold loop_work in H. cbn [calling pendingFunctors_] in H. rewrite queue_weight_app in H. cbn in H.
  destruct (calling q) as [|g fs]; cbn in H; [lia|]. pose proof (job_weight_pos g). lia.
Qed.

(** The server itself has nothing queued between its methods. *)
Definition settled (s : System) : Prop := queued (server s) = [].

Lemma removeConnectionInLoop_work c s x s' :
  settled s -> removeConnectionInLoop c s = Ok (x, s') -> settled s' ∧ work_left s' = (work_left s + 2)%nat.
Proof.
  intros Hs E. unfold removeConnectionInLoop in E. apply bind_inv in E as (q & s1 & E1 & E).
  unfold on_server in E1. destruct (TcpServer.removeConnectionInLoop c (server s)) as [[y sv]|] eqn:Er; [|done].
  apply server_remove_Ok in Er as [_ ->]. injection E1 as <- <-. cbn [queued runInLoop] in E.
  change (queued (TcpServer.set_connections _ _)) with (queued (server s)) in E. rewrite Hs in E. injection E as _ <-.
  split; [done|]. exact (queueInLoop_work (c_loop c) (c, JDestroyed) (set_server _ s)).
Qed.

Lemma hand_over_work c f s x s' :
  settled s -> hand_over c f s = Ok (x, s') -> settled s' ∧ (work_left s' <= work_left s + 2 * functor_weight f)%nat.
Proof.
  intros Hs E. assert (∀ l j, s' = queueInLoop l (c, j) s -> (job_weight (c, j) <= functor_weight f)%nat ->
    settled s' ∧ (work_left s' <= work_left s + 2 * functor_weight f)%nat) as Hpush.
  { intros l j -> Hj. split; [done|]. rewrite queueInLoop_work. lia. }
  destruct f; unfold hand_over in E; try (injection E as _ <-; by eapply Hpush).
  unfold removeConnection in E. rewrite (bind_Ok _ _ s s s) in E by done. destruct (c_loop c =? base s).
  - apply removeConnectionInLoop_work in E as [? ->]; [|done]. simpl. split; [done|lia].
  - injection E as _ <-. by eapply Hpush.
Qed.

Lemma hand_overs_work c fs s x s' :
  settled s -> mapM_ (hand_over c) fs s = Ok (x, s') -> settled s' ∧ (work_left s' <= work_left s + 2 * functors_weight fs)%nat.
Proof.
  revert s. induction fs as [|f fs IH]; intros s Hs E; simpl in E; [injection E as _ <-; split; [done|simpl; lia]|].
  apply bind_inv in E as (y & s1 & E1 & E). apply hand_over_work in E1 as [Hs1 H1]; [|done].
  destruct (IH s1 Hs1 E) as [Hs2 H2]. split; [done|]. simpl. lia.
Qed.

(** A method that costs [n] adds as much to the queues. *)
Lemma on_conn_work c n m s x s' :
  settled s -> (∀ nm c t, objects s !! nm = Some (c, t) -> functors t = []) -> costs n m ->
  on_conn c m s = Ok (x, s') -> settled s' ∧ (work_left s' <= work_left s + 2 * n)%nat.
Proof.
  intros Hs Hf Hm E. unfold on_conn in E. rewrite (bind_Ok _ _ s s s) in E by done.
  destruct (objects s !! c_name c) as [[c' t]|] eqn:Eo; [|done]. destruct (m t) as [[y t']|] eqn:Em; [|done].
  apply Hm in Em. rewrite (Hf _ _ _ Eo) in Em. simpl in Em.
  rewrite (bind_Ok _ _ s tt (set_object c (set_functors [] t') s)) in E by done.
  apply hand_overs_work in E as [Hs' Hw]; [|done]. split; [done|].
  change (work_left (set_object c (set_functors [] t') s)) with (work_left s) in Hw. lia.
Qed.

Lemma run_job_work f s x s' :
  (∀ nm, quiet (U nm)) -> settled s -> (∀ nm c t, objects s !! nm = Some (c, t) -> functors t = []) ->
  run_job U f s = Ok (x, s') -> (work_left s' + 2 <= work_left s + 2 * job_weight f)%nat.
Proof.
  intros Hq Hs Hf E. destruct f as [c [| | |f]]; cbn [run_job job_weight fst snd] in E |- *.
  - eapply on_conn_work in E as [_ Hw]; [|done|done|apply connectEstablished_costs]. lia.
  - eapply on_conn_work in E as [_ Hw]; [|done|done|apply connectDestroyed_costs]. lia.
  - apply removeConnectionInLoop_work in E as [_ ->]; [lia|done].
  - eapply on_conn_work in E as [_ Hw]; [|done|done|apply run_functor_costs, Hq]. pose proof (functor_weight_pos f). lia.
Qed.

(** A loop that has functors takes its next step. *)
Definition works (s s' : System) : Prop := ∃ l, queue_of s l ≠ [] ∧ sys_step U (OpRun l) s = Ok (tt, s').

Lemma works_moves s s' : works s s' -> moves U s s'.
Proof. intros (l & _ & E). by exists (OpRun l). Qed.

Lemma works_less s s' : (∀ nm, quiet (U nm)) -> kept s -> works s s' -> (work_left s' < work_left s)%nat.
Proof.
  intros Hq [Hi _ _] (l & Hl & E). unfold sys_step in E. apply bind_inv in E as ([] & s1 & E1 & E).
  rewrite (collect_collected _ _ _ E). change (work_left (collected s1)) with (work_left s1). clear E.
  simpl in E1. rewrite (bind_Ok _ _ s s s) in E1 by done. destruct (calling (loop_of s l)) as [|f fs] eqn:Ec.
  - injection E1 as <-. pose proof (set_queue_work l (swapped (loop_of s l)) s) as Hw.
    change (set_queue l _ s) with (swap_functors l s) in Hw.
    unfold queue_of, todo in Hl. rewrite Ec in Hl. unfold loop_work, swapped in Hw. rewrite Ec in Hw.
    cbn [calling pendingFunctors_] in Hw. destruct (pendingFunctors_ (loop_of s l)) as [|g q]; [done|].
    cbn in Hw. pose proof (job_weight_pos g). lia.
  - rewrite (bind_Ok _ _ s tt (take_up l f fs s)) in E1 by done.
    pose proof (set_queue_work l (taken f fs (loop_of s l)) s) as Hw.
    change (set_queue l _ s) with (take_up l f fs s) in Hw. unfold loop_work, taken in Hw. rewrite Ec in Hw.
    cbn [calling pendingFunctors_] in Hw. generalize dependent (pendingFunctors_ (loop_of s l)). intros q.
    change (queue_weight (f :: fs)) with (job_weight f + queue_weight fs)%nat. intros Hw.
    apply run_job_work in E1; [|done|by apply (sv_queued _ _ Hi)|intros nm c t Eo; by apply (go_functors _ (sv_good _ _ Hi nm c t Eo))].
    pose proof (job_weight_pos f). destruct fs as [|g fs]; cbn in Hw; [|pose proof (job_weight_pos g)]; fold (queue_weight q) in Hw; lia.
Qed.

Lemma works_bounded n s s' :
  (∀ nm, quiet (U nm)) -> kept s -> nsteps works n s s' -> (n + work_left s' <= work_left s)%nat ∧ kept s'.
Proof.
  intros Hq Hk Hn. induction Hn as [s|n s s1 s' Hw Hn IH]; [split; [lia|done]|].
  pose proof (works_less _ _ Hq Hk Hw) as Hlt.
  destruct (IH (moves_kept U s s1 Hk (works_moves _ _ Hw))) as [Hle Hk']. split; [lia|done].
Qed.

Lemma no_work s : work_left s = 0%nat -> ∀ l, queue_of s l = [].
Proof.
  intros Hz l. pose proof (set_queue_work l no_functors s) as Hw. rewrite Hz in Hw.
  unfold queue_of, todo. unfold loop_work in Hw. cbn in Hw. destruct (calling (loop_of s l)) as [|f fs].
  - destruct (pendingFunctors_ (loop_of s l)) as [|g q]; [done|]. cbn in Hw. pose proof (job_weight_pos g). lia.
  - cbn in Hw. pose proof (job_weight_pos f). lia.
Qed.

(** ** The output buffers of the connections *)

Context (Hwrite : ∀ nm n d k, write (U nm) n d = inr k -> 0 <= k <= zlen d).

Definition rooms (s : System) : Prop := ∀ nm c t, objects s !! nm = Some (c, t) -> fits t -> out_room t.

Lemma hand_over_objects c f : mono (same objects) (hand_over c f).
Proof.
  assert (mono (same objects) (removeConnectionInLoop c)) as Hrem.
  { unfold removeConnectionInLoop. apply mono_bind; [apply _| |].
    - intros s q s' E. unfold on_server in E. destruct (TcpServer.removeConnectionInLoop c (server s)) as [[]|]; by simplify_eq.
    - by repeat mono_step. }
  destruct f; simpl; try (by apply mono_modify). unfold removeConnection. by repeat mono_step.
Qed.

Lemma on_conn_objects c m s x s' :
  on_conn c m s = Ok (x, s') ->
  ∃ c0 t y t', objects s !! c_name c = Some (c0, t) ∧ m t = Ok (y, t') ∧
    objects s' = <[c_name c := (c, set_functors [] t')]> (objects s).
Proof.
  intros R. unfold on_conn in R. rewrite (bind_Ok _ _ s s s) in R by done.
  destruct (objects s !! c_name c) as [[c0 t]|] eqn:E; [|done]. destruct (m t) as [[y t']|] eqn:Em; [|done].
  set (s1 := set_object c (set_functors [] t') s). rewrite (bind_Ok _ _ s tt s1) in R by done.
  apply (mono_mapM (same objects)) in R; [|intros f; apply hand_over_objects]. by exists c0, t, y, t'.
Qed.

Lemma on_conn_rooms c m s x s' : mono room_rel m -> rooms s -> on_conn c m s = Ok (x, s') -> rooms s'.
Proof.
  intros Hm Hr (c0 & t & y & t' & E & Em & Eo)%on_conn_objects nm c1 t1. rewrite Eo, lookup_insert_Some.
  intros [[<- [= <- <-]]|[_ X]]; [|by apply (Hr nm c1)]. intros Hf. destruct (Hm _ _ _ Em) as [Hp H].
  enough (out_room t') as [? ? ?] by (by split). apply H; [done|]. apply (Hr _ _ _ E). by eapply fits_prefix.
Qed.

Lemma same_rooms s s' : objects s' = objects s -> rooms s -> rooms s'.
Proof. intros E Hr nm c t. rewrite E. apply Hr. Qed.

Lemma newConnection_rooms fd g s x s' : rooms s -> newConnection U fd g s = Ok (x, s') -> rooms s'.
Proof.
  intros Hr E. unfold newConnection in E. apply bind_inv in E as (q & s1 & E1 & E).
  assert (rooms s1) as Hr1.
  { unfold on_server in E1. destruct (TcpServer.newConnection (server s)) as [[y sv]|]; simplify_eq. by apply (same_rooms s). }
  clear E1 Hr. revert s1 Hr1 E. induction q as [|[l f] q IH]; intros s1 Hr1 E; cbn [mapM_ fst snd] in E; [by injection E as _ <-|].
  apply bind_inv in E as (y & s2 & E1 & E). apply (IH s2); [|exact E]. destruct f as [|c|c]; try (by injection E1 as _ <-).
  cbn [fst snd] in E1. destruct (new_TcpConnection fd g) as [t|] eqn:Et; [|discriminate E1]. set (s3 := set_object c t s1).
  assert (rooms s3) as Hr3.
  { intros nm c1 t1. unfold s3. simpl. rewrite lookup_insert_Some. intros [[<- [= <- <-]]|[_ X]]; [|by apply (Hr1 nm c1)]. intros _.
    assert (configured fd g false None = Ok t) as Ec by (unfold configured; by rewrite Et).
    by apply configured_inv in Ec as [Hb%bytes_room _]. }
  rewrite (bind_Ok _ _ s1 tt s3), (bind_Ok _ _ s3 s3 s3) in E1 by done. destruct (l =? base s3).
  - eapply on_conn_rooms; [|exact Hr3|exact E1]. apply connectEstablished_room, Hwrite.
  - injection E1 as _ <-. by apply (same_rooms s3).
Qed.

Lemma run_job_rooms f s x s' : rooms s -> run_job U f s = Ok (x, s') -> rooms s'.
Proof.
  intros Hr E. destruct f as [c [| | |f]]; simpl in E.
  - eapply on_conn_rooms; [|exact Hr|exact E]. apply connectEstablished_room, Hwrite.
  - eapply on_conn_rooms; [|exact Hr|exact E]. apply connectDestroyed_room, Hwrite.
  - apply (same_rooms s); [|done]. unfold removeConnectionInLoop in E. apply bind_inv in E as (q & s1 & E1 & E).
    unfold on_server in E1. destruct (TcpServer.removeConnectionInLoop c (server s)) as [[y sv]|]; simplify_eq.
    assert (mono (same objects) (mapM_ (λ x, mapM_ (λ f, modify (queueInLoop x.1 f)) (job x.2)) (queued sv))) as Hm by (by repeat mono_step).
    exact (Hm _ _ _ E).
  - eapply on_conn_rooms; [|exact Hr|exact E]. apply run_functor_room, Hwrite.
Qed.

Lemma moves_rooms s s' : rooms s -> moves U s s' -> rooms s'.
Proof.
  intros Hr (o & _ & E). unfold sys_step in E. apply bind_inv in E as ([] & s1 & E1 & E2%collect_collected). subst s'.
  enough (rooms s1) as Hr1 by (intros nm c t [X _]%map_lookup_filter_Some; by apply (Hr1 nm c)).
  destruct o as [fd g|l|nm r readv|nm inLoop cl|nm|nm]; simpl in E1; rewrite (bind_Ok _ _ s s s) in E1 by done.
  - destruct (polling s (base s)); [by eapply newConnection_rooms|by injection E1 as <-].
  - destruct (calling (loop_of s l)) as [|f fs]; [injection E1 as <-; by apply (same_rooms s)|].
    rewrite (bind_Ok _ _ s tt (take_up l f fs s)) in E1 by done. eapply run_job_rooms; [|exact E1]. by apply (same_rooms s).
  - destruct (objects s !! nm) as [[c t]|]; [|by injection E1 as <-]. destruct (_ && _); [|by injection E1 as <-].
    eapply on_conn_rooms; [|exact Hr|exact E1]. apply handle_event_room, Hwrite.
  - destruct (objects s !! nm) as [[c t]|]; [|by injection E1 as <-]. destruct (bool_decide _); [|by injection E1 as <-].
    eapply on_conn_rooms; [|exact Hr|exact E1]. apply call_room, Hwrite.
  - destruct (bool_decide _); injection E1 as <-; [by apply (same_rooms s)|done].
  - injection E1 as <-. by apply (same_rooms s).
Qed.

(** ** The next step of a loop *)

(** What a functor asks for besides: that its connection was not removed before - a second
    [forceClose] fails [removeConnectionInLoop]'s assertion - and memory for what it sends. *)
Definition unhindered (s : System) (f : Pending) : Prop :=
  ∀ t, objects s !! c_name f.1 = Some (f.1, t) ->
    match f.2 with
    | JEstablished => memory t (sends (onConnection (U (c_name f.1)) true))
    | JRemove => in_table s (c_name f.1) = true
    | JConn FForceCloseInLoop => up t -> in_table s (c_name f.1) = true
    | JConn (FSendInLoop m) => memory t (zlen m)
    | _ => True
    end.

Lemma hand_overs_run c fs s : FRemoveConnection ∉ fs -> ∃ s', mapM_ (hand_over c) fs s = Ok (tt, s').
Proof.
  revert s. induction fs as [|f fs IH]; intros s Hn; simpl; [by eexists|].
  apply not_elem_of_cons in Hn as [Hf Hn].
  assert (hand_over c f s = Ok (tt, queueInLoop (c_loop c) (c, JConn f) s)) as E by (by destruct f).
  rewrite (bind_Ok _ _ _ _ _ E). by apply IH.
Qed.

Lemma on_conn_runs c c0 m s t t' :
  objects s !! c_name c = Some (c0, t) -> m t = Ok (tt, t') ->
  (FRemoveConnection ∉ functors t' ∨ functors t' = [FRemoveConnection] ∧ settled s ∧ in_table s (c_name c) = true) ->
  ∃ s', on_conn c m s = Ok (tt, s').
Proof.
  intros E Em Hf. unfold on_conn. rewrite (bind_Ok _ _ s s s) by done. rewrite E, Em.
  set (s1 := set_object c (set_functors [] t') s). rewrite (bind_Ok _ _ s tt s1) by done.
  destruct Hf as [Hf|(-> & Hs & Hin)]; [by apply hand_overs_run|]. simpl. unfold removeConnection.
  assert (∃ s2, (s ← get; if c_loop c =? base s then removeConnectionInLoop c else modify (queueInLoop (base s) (c, JRemove))) s1 = Ok (tt, s2))
    as [s2 E2]; [|exists s2; by rewrite (bind_Ok _ _ _ _ _ E2)].
  rewrite (bind_Ok _ _ s1 s1 s1) by done. destruct (c_loop c =? base s1); [|by eexists]. by apply removeConnectionInLoop_runs.
Qed.

Lemma next_runs l f fs s :
  (∀ nm, quiet (U nm)) -> sys_inv None s -> rooms s -> calling (loop_of s l) = f :: fs -> unhindered s f ->
  ∃ s', sys_op U (OpRun l) s = Ok (tt, s').
Proof.
  intros Hq Hi Hr Hc Hun. destruct f as [c j]. pose proof (queue_of_calling _ _ _ _ Hc) as Eq.
  destruct (next_ready s l c j _ Hi Eq) as (t & E & Hready). specialize (Hun t E). cbn [fst snd] in Hun.
  pose proof (sv_good _ _ Hi _ _ _ E) as Hg.
  set (s1 := take_up l (c, j) fs s). assert (objects s1 !! c_name c = Some (c, t)) as E1 by done.
  assert (settled s1) as Hs1 by apply (sv_queued _ _ Hi).
  assert (sys_op U (OpRun l) s = run_job U (c, j) s1) as ->.
  { simpl. rewrite (bind_Ok _ _ s s s) by done. rewrite Hc. by rewrite (bind_Ok _ _ s tt s1). }
  destruct j as [| | |f]; cbn [run_job ready] in *.
  - destruct Hready as [_ Hst]. assert (out_room t) as Hroom.
    { apply (Hr _ _ _ E). by eapply memory_fits, Hun; apply sends_pos. }
    destruct (connectEstablished_runs (U (c_name c)) (Hwrite _) t Hst Hroom Hun) as [t' Et].
    eapply on_conn_runs; [exact E1|exact Et|]. left.
    destruct (connectEstablished_calm (U (c_name c)) t tt t' Et) as (o & -> & Ho). by rewrite (go_functors _ Hg).
  - destruct Hready as (_ & Hu & _). destruct (connectDestroyed_runs (U (c_name c)) t Hu) as [t' Et].
    eapply on_conn_runs; [exact E1|exact Et|]. left.
    destruct (connectDestroyed_down (U (c_name c)) t tt t') as (_ & _ & _ & _ & ->); [|done|rewrite (go_functors _ Hg); apply not_elem_of_nil].
    rewrite (go_told _ Hg). by destruct Hu as [-> | ->].
  - apply removeConnectionInLoop_runs; [apply Hs1|exact Hun].
  - assert (leaves true f) as Hl.
    { pose proof (sv_phase _ _ Hi _ _ _ E ltac:(done)) as Hp. destruct Hready as [-> _].
      rewrite Eq, own_cons, decide_True in Hp by done. by apply phase_conn in Hp as (_ & ? & _). }
    destruct (run_functor_runs (U (c_name c)) (Hwrite _) f t (Hq _) Hl (go_functors _ Hg)) as (t' & Et & Hf).
    { intros m ->. split; [|done]. apply (Hr _ _ _ E). by eapply memory_fits, Hun; lia. }
    eapply on_conn_runs; [exact E1|exact Et|]. destruct Hf as [Hf|(-> & Hu & Hf)]; [by left|right]. split_and!; [done|done|by apply Hun].
Qed.

Lemma loop_runs l s :
  (∀ nm, quiet (U nm)) -> sys_inv None s -> rooms s -> (∀ f fs, calling (loop_of s l) = f :: fs -> unhindered s f) ->
  ∃ s', sys_step U (OpRun l) s = Ok (tt, s').
Proof.
  intros Hq Hi Hr Hun. assert (∃ s1, sys_op U (OpRun l) s = Ok (tt, s1)) as [s1 E1].
  { destruct (calling (loop_of s l)) as [|f fs] eqn:Hc; [|by eapply next_runs; [..|apply (Hun f fs)]].
    simpl. rewrite (bind_Ok _ _ s s s) by done. rewrite Hc. by eexists. }
  destruct (collect_inv U s1) as (s2 & E2 & _); [by apply (sys_op_inv U (OpRun l) s tt s1)|]. exists s2.
  unfold sys_step. by rewrite (bind_Ok _ _ _ _ _ E1).
Qed.

End system.

(** * A run *)

(** The loops [ls] take a step each. *)
Fixpoint works_run (ls : list Z) (s : System) : option System :=
  match ls with
  | [] => Some s
  | l :: ls' =>
      match queue_of s l, sys_step sample_users (OpRun l) s with
      | _ :: _, Ok (_, s') => works_run ls' s'
      | _, _ => None
      end
  end.

Lemma works_run_steps ls s s' : works_run ls s = Some s' -> nsteps (works sample_users) (length ls) s s'.
Proof.
  revert s. induction ls as [|l ls IH]; intros s E; simpl in E; [injection E as <-; constructor|].
  destruct (queue_of s l) as [|f q] eqn:Eq; [done|]. destruct (sys_step sample_users (OpRun l) s) as [[[] s1]|] eqn:E1; [|done].
  apply nsteps_l with s1; [|by apply IH]. exists l. split; [by rewrite Eq|done].
Qed.

Definition rest_check (s : System) : bool :=
  no_others [] s && bool_decide (held s = ∅) && bool_decide (size (objects s) = 1%nat).

(** A closed connection whose [send] is still to be done, and one that stays: a swap and two
    functors. *)
Lemma sample_rests :
  match polite_run sample_ops (new_System sample_server) ≫= works_run [10; 10; 10] with Some s => rest_check s | None => false end = true.
Proof. vm_compute. reflexivity. Qed.

Lemma no_others_rest s : no_others [] s = true -> ∀ l, queue_of s l = [].
Proof.
  intros H l. pose proof (no_others_spec [] s l H ltac:(apply not_elem_of_nil)) as Hf. unfold functors_of in Hf.
  by apply app_eq_nil in Hf as [_ Hf].
Qed.

