(* ===== verification/ClientSystem.v ===== *)
(** A client at work: [TcpClient.cc] with its connector, the connections it has made, and the
    functors and timers of the loop that all of them live in.  The connector's functors and
    callbacks and the client's callbacks are bound to a raw [this]; what keeps the connector
    alive are the client, the retry timers and the timer that [~TcpClient()] sets. *)
From S2P Require Import Prelude Channel Connector TcpServer Buffer TcpConnection TcpPair ServerSystem.
Open Scope list_scope.

(** * State *)

#[export] Instance Functor_eq_dec : EqDecision Connector.Functor.
Proof. solve_decision. Defined.

Inductive Task :=
| TConnector (f : Connector.Functor)
| TConn (id : Z) (j : Job)
| TSetClose (id : Z).

(** [conns]: the connections that have been made and not freed, with whether
    [detail::removeConnection] is their close callback; [loop]: the functors of the loop;
    [held]: the connections of which the user has kept a [shared_ptr]; [alive] and
    [connector_alive]: the client and its connector have not been destroyed; [keeper]: the
    timer of [~TcpClient()] that has a [shared_ptr] to the connector. *)
Record World := mkWorld {
  client : TcpClient;
  alive : bool;
  connector_alive : bool;
  keeper : bool;
  conns : gmap Z (TcpConnection * bool);
  loop : Queue Task;
  held : gset Z }.

Definition new_World (c : TcpClient) : World := mkWorld c true true false ∅ no_functors ∅.

Definition the_connector (s : World) : Connector := connector_ (client s).

Definition set_client (c : TcpClient) (s : World) : World :=
  mkWorld c (alive s) (connector_alive s) (keeper s) (conns s) (loop s) (held s).
Definition set_lives (a k t : bool) (s : World) : World := mkWorld (client s) a k t (conns s) (loop s) (held s).
Definition set_conns (x : gmap Z (TcpConnection * bool)) (s : World) : World :=
  mkWorld (client s) (alive s) (connector_alive s) (keeper s) x (loop s) (held s).
Definition set_conn (id : Z) (t : TcpConnection) (detail : bool) (s : World) : World :=
  set_conns (<[id := (t, detail)]> (conns s)) s.
Definition set_queue (q : Queue Task) (s : World) : World :=
  mkWorld (client s) (alive s) (connector_alive s) (keeper s) (conns s) q (held s).
Definition set_held (x : gset Z) (s : World) : World :=
  mkWorld (client s) (alive s) (connector_alive s) (keeper s) (conns s) (loop s) x.

(** The functors that are still to be called. *)
Definition queue (s : World) : list Task := todo (loop s).

(** [loop_->queueInLoop(...)] *)
Definition push (ts : list Task) (s : World) : World := set_queue (pushed ts (loop s)) s.

(** * Who keeps what alive *)

Definition refers (id : Z) (t : Task) : bool :=
  match t with
  | TConn id' j => negb (raw j) && (id' =? id)
  | TSetClose id' => id' =? id
  | TConnector _ => false
  end.

(** Somebody other than the client has a [shared_ptr] to the connection: the user, or a functor
    of the loop, until the vector it is in has been called to the end. *)
Definition shared (s : World) (id : Z) : bool :=
  bool_decide (id ∈ held s) || existsb (refers id) (called (loop s) ++ queue s).

Definition referenced (s : World) (id : Z) : bool := bool_decide (connection_ (client s) = Some id) || shared s id.

Definition connector_referenced (s : World) : bool := alive s || keeper s || negb (bool_decide (timers (the_connector s) = [])).

(** Frees what nobody refers to. *)
Definition collect : M World unit :=
  s ← get;
  assert (forallb (λ x, referenced s x.1 || is_ok (Channel_dtor (channel_ x.2.1))) (map_to_list (conns s))) ;;
  modify (set_conns (filter (λ x, referenced s x.1 = true) (conns s))) ;;
  when (connector_alive s && negb (connector_referenced s))
    (assert (is_ok (Connector_dtor (the_connector s))) ;; modify (set_lives (alive s) false (keeper s))).

(** * Handlers *)

(** What a method has appended to the connector's functors is what it has queued. *)
Definition queued_by (k k' : Connector) : list Task :=
  map TConnector (drop (length (Connector.functors k)) (Connector.functors k')).

(** A method of the client; the result are its functors and its calls on the connection. *)
Definition on_client (m : M TcpClient unit) : M World (list ClientFunctor) := λ s,
  if alive s then
    match m (client s) with
    | Ok (_, c) =>
        Ok (cl_functors c,
            push (queued_by (the_connector s) (connector_ c))
              (set_client (mkClient (connector_ c) (cl_name c) (retry_ c) (TcpServer.connect_ c) (cl_nextConnId c)
                (connection_ c) [] (cl_writeCompleteCallback c)) s))
    | Fault f => Fault f
    end
  else Fault UB.

Definition destroys (f : ClientFunctor) : list Task := match f with CDestroy id => [TConn id JDestroyed] | _ => [] end.

(** The close callback: [TcpClient::removeConnection], or [detail::removeConnection]. *)
Definition removeConnection (savedErrno : Z) (id : Z) : M World unit :=
  s ← get;
  match conns s !! id with
  | Some (_, true) => modify (push [TConn id JDestroyed])
  | _ => q ← on_client (client_removeConnection id savedErrno); mapM_ (λ f, modify (push (destroys f))) q
  end.

Definition hand_over (savedErrno : Z) (id : Z) (f : ConnFunctor) : M World unit :=
  match f with
  | FRemoveConnection => removeConnection savedErrno id
  | _ => modify (push [TConn id (JConn f)])
  end.

(** A method of the connection; [UB] if it has been freed. *)
Definition on_conn (savedErrno : Z) (id : Z) (m : M TcpConnection unit) : M World unit :=
  s ← get;
  match conns s !! id with
  | None => fail UB
  | Some (t, d) =>
      match m t with
      | Fault f => fail f
      | Ok (_, t') => modify (set_conn id (set_functors [] t') d) ;; mapM_ (hand_over savedErrno id) (functors t')
      end
  end.

Definition setCloseCallback (id : Z) : M World unit :=
  s ← get;
  match conns s !! id with
  | None => fail UB
  | Some (t, _) => modify (set_conn id t true)
  end.

Section world.
(** The kernel's answers and the user's callbacks, for each connection. *)
Context (U : Z -> User).

Abbreviation close := (TcpConnection.removeConnection false).

(** What a method of the client has the loop or the connection do. *)
Definition client_functor (inLoop : bool) (e : Z) (f : ClientFunctor) : M World unit :=
  match f with
  | CDestroy id => modify (push [TConn id JDestroyed])
  | TcpServer.CShutdown id => on_conn e id (call (write (U id)) inLoop CShutdown)
  | TcpServer.CForceClose id => on_conn e id (call (write (U id)) inLoop CForceClose)
  | CSetCloseCallback id => if inLoop then setCloseCallback id else modify (push [TSetClose id])
  end.

(** [newConnection(sockfd)]: the connection is made, known to the client, and established. *)
Definition newConnection (e : Z) (peer : list byte) (garbage : Z) (sockfd : Z) : M World unit :=
  s ← get;
  if alive s then
    match client_newConnection peer (client s) with
    | Fault f => fail f
    | Ok (_, c) =>
        match new_TcpConnection sockfd garbage with
        | Fault f => fail f
        | Ok t =>
            let id := cl_nextConnId (client s) in
            let t := if cl_writeCompleteCallback c then setWriteCompleteCallback t else t in
            modify (set_client c) ;;
            modify (set_conn id t false) ;;
            on_conn e id (connectEstablished (write (U id)) (onConnection (U id)))
        end
    end
  else fail UB.

(** A method of the connector.  The socket it hands over, if any, is the last thing it does. *)
Definition on_connector (e : Z) (peer : list byte) (garbage : Z) (m : M Connector unit) : M World unit :=
  s ← get;
  if connector_alive s then
    let k := the_connector s in
    match m k with
    | Fault f => fail f
    | Ok (_, k') =>
        modify (λ s, push (queued_by k k') (set_client (set_connector k' (client s)) s)) ;;
        mapM_ (newConnection e peer garbage) (drop (length (Connector.handed_over k)) (Connector.handed_over k'))
    end
  else fail UB.

Definition run_task (e : Z) (t : Task) : M World unit :=
  match t with
  | TConnector f =>
      modify (λ s, set_client (set_connector (Connector.set_functors (tail (Connector.functors (the_connector s))) (the_connector s))
                                (client s)) s) ;;
      on_connector e [] 0 (Connector.run_functor e f)
  | TConn id j =>
      let u := U id in
      on_conn e id
        match j with
        | JDestroyed => connectDestroyed (write u) (onConnection u)
        | JConn f => run_functor (write u) (onConnection u) (onWriteComplete u) (onHighWaterMark u) close f
        | _ => mret tt
        end
  | TSetClose id => setCloseCallback id
  end.

(** [~TcpClient()], and the end of its members. *)
Definition destroy (inLoop : bool) (e : Z) : M World unit :=
  s ← get;
  let conn := connection_ (client s) in
  let unique := match conn with Some id => negb (shared s id) | None => false end in
  q ← on_client (TcpClient_dtor unique);
  mapM_ (client_functor inLoop e) q ;;
  modify (λ s, set_lives false (connector_alive s) (bool_decide (conn = None)) (set_client (set_connection None (client s)) s)).

(** * Runs *)

Inductive ClientOp :=
| KConnect (inLoop : bool)
| KDisconnect (inLoop : bool)
| KStop
| KEnableRetry
| KSetWriteComplete
| KDestroy (inLoop : bool)
| KSocket (revents err : Z) (selfConnect : bool) (peer : list byte) (garbage : Z)
| KTimer
| KKeeper
| KRun
| KEvent (id : Z) (revents : Z) (readv : Z -> list Z -> Z + list byte)
| KCall (id : Z) (inLoop : bool) (c : Call)
| KHold (id : Z)
| KRelease (id : Z).

(** The loop is not in [doPendingFunctors]. *)
Definition polling (s : World) : bool := at_poll (loop s).

(** [e] is what the kernel answers to a [connect].  [KRun] is the loop's next step in
    [doPendingFunctors]: it swaps the vector, or calls the next functor; sockets have events,
    and timers go off, when the loop is not in it.  A functor that the connecting socket's
    event has queued runs before the loop polls again, so before the new connection has
    events; the [keeper] goes off a second after the last functors of the connector were
    queued, when they have run. *)
Definition client_op (e : Z) (o : ClientOp) : M World unit :=
  s ← get;
  let k := the_connector s in
  match o with
  | KConnect inLoop => when (alive s) (q ← on_client (client_connect inLoop e); mapM_ (client_functor inLoop e) q)
  | KDisconnect inLoop => when (alive s) (q ← on_client client_disconnect; mapM_ (client_functor inLoop e) q)
  | KStop => when (alive s) (q ← on_client client_stop; mapM_ (client_functor true e) q)
  | KEnableRetry => when (alive s) (modify (λ s, set_client (enableRetry (client s)) s))
  | KSetWriteComplete => when (alive s) (modify (λ s, set_client (client_setWriteCompleteCallback (client s)) s))
  | KDestroy inLoop => when (alive s) (destroy inLoop e)
  | KSocket r err self peer g =>
      when (polling s && bool_decide (is_Some (Connector.channel_ k))) (on_connector e peer g (Connector.do_op (Connector.OEvent r err self)))
  | KTimer => when (polling s && negb (bool_decide (timers k = []))) (on_connector e [] 0 (Connector.do_op (Connector.OTimer e)))
  | KKeeper => when (polling s && keeper s && bool_decide (Connector.functors k = [])) (modify (set_lives (alive s) (connector_alive s) false))
  | KRun =>
      match calling (loop s) with
      | [] => modify (set_queue (swapped (loop s)))
      | t :: q => modify (set_queue (taken t q (loop s))) ;; run_task e t
      end
  | KEvent id r readv =>
      match conns s !! id with
      | Some (t, _) =>
          when (polling s && addedToLoop_ (channel_ t) && negb (isNoneEvent (channel_ t)) &&
                negb (bool_decide (connection_ (client s) = Some id ∧ FResetChannel ∈ Connector.functors k)))
            (on_conn e id (handle_event (write (U id)) (onMessage (U id)) close r readv))
      | None => mret tt
      end
  | KCall id inLoop c =>
      when (bool_decide (id ∈ held s) && bool_decide (is_Some (conns s !! id))) (on_conn e id (call (write (U id)) inLoop c))
  | KHold id => when (bool_decide (is_Some (conns s !! id))) (modify (set_held ({[id]} ∪ held s)))
  | KRelease id => modify (set_held (held s ∖ {[id]}))
  end.

Definition client_step (e : Z) (o : ClientOp) : M World unit := client_op e o ;; collect.
End world.
