(* ===== verification/ClientInv.v ===== *)
(** A client's invariant: how its connector, its connections and the functors that wait for
    them fit together, and what the methods of a connection and the close callback do to
    it. *)
From S2P Require Import Prelude Channel Connector ConnectorLife TcpServer Buffer TcpConnection TcpProps TcpPair ServerSystem ServerProps ClientSystem.
Open Scope list_scope.

(** * The queue *)

Definition jobs_of (id : Z) (q : list Task) : list Job :=
  omap (λ t, match t with TConn id' j => if decide (id' = id) then Some j else None | _ => None end) q.

Definition functors_of (q : list Task) : list Connector.Functor :=
  omap (λ t, match t with TConnector f => Some f | _ => None end) q.

Lemma jobs_of_app id q1 q2 : jobs_of id (q1 ++ q2) = jobs_of id q1 ++ jobs_of id q2.
Proof. apply omap_app. Qed.

Lemma functors_of_app q1 q2 : functors_of (q1 ++ q2) = functors_of q1 ++ functors_of q2.
Proof. apply omap_app. Qed.

Lemma jobs_of_connector id fs : jobs_of id (map TConnector fs) = [].
Proof. induction fs; [done|exact IHfs]. Qed.

Lemma functors_of_connector fs : functors_of (map TConnector fs) = fs.
Proof. induction fs; [done|]. simpl. unfold functors_of in *. simpl. by rewrite IHfs. Qed.

Lemma jobs_of_conn id id' j : jobs_of id [TConn id' j] = if decide (id' = id) then [j] else [].
Proof. unfold jobs_of. simpl. by destruct (decide (id' = id)). Qed.

Lemma functors_of_conn id j : functors_of [TConn id j] = [].
Proof. done. Qed.

Lemma jobs_of_elem id j q : j ∈ jobs_of id q <-> TConn id j ∈ q.
Proof.
  unfold jobs_of. rewrite list_elem_of_omap. split.
  - intros ([f|id' j'|id'] & Hin & E); try done. destruct (decide (id' = id)) as [->|]; [|done]. by injection E as ->.
  - intros Hin. exists (TConn id j). split; [done|]. by rewrite decide_True.
Qed.

Lemma jobs_of_nil id q : (∀ j, TConn id j ∉ q) -> jobs_of id q = [].
Proof.
  intros H. destruct (jobs_of id q) as [|j js] eqn:E; [done|]. destruct (H j). apply jobs_of_elem. rewrite E. by left.
Qed.

Lemma queue_push ts s : queue (push ts s) = queue s ++ ts.
Proof. apply todo_pushed. Qed.

Lemma push_nil s : push [] s = s.
Proof. destruct s as [? ? ? ? ? [] ?]. unfold push, pushed, set_queue. cbn. by rewrite app_nil_r. Qed.

(** A functor is taken up. *)
Lemma queue_taken t ts s : calling (loop s) = t :: ts -> queue s = t :: todo (taken t ts (loop s)).
Proof. apply todo_taken. Qed.

#[global] Arguments queue : simpl never.
#[global] Arguments todo : simpl never.

Create Rewrite HintDb queue.
#[export] Hint Rewrite queue_push jobs_of_app functors_of_app jobs_of_connector functors_of_connector jobs_of_conn functors_of_conn app_nil_r : queue.

(** The functor that resets the connecting channel comes before every job of the connection. *)
Definition settled (id : Z) (q : list Task) : Prop :=
  ∃ a b, q = a ++ b ∧ jobs_of id a = [] ∧ FResetChannel ∉ functors_of b.

Lemma settled_push id q q' : FResetChannel ∉ functors_of q' -> settled id q -> settled id (q ++ q').
Proof.
  intros Hn (a & b & -> & Ha & Hb). exists a, (b ++ q'). rewrite <- app_assoc. split_and!; try done.
  rewrite functors_of_app. set_solver.
Qed.

Lemma settled_pop id t q : settled id (t :: q) -> settled id q.
Proof.
  intros ([|x a] & b & E & Ha & Hb).
  - simpl in E. subst b. exists [], q. split_and!; try done. intros X. apply Hb. destruct t; [by right|done..].
  - injection E as <- ->. exists a, b. split_and!; try done. destruct t as [|id' j|]; try done.
    unfold jobs_of in *. simpl in Ha. by destruct (decide (id' = id)).
Qed.

(** When a job of the connection is next, the channel has been reset. *)
Lemma settled_next id j q : settled id (TConn id j :: q) -> FResetChannel ∉ functors_of q.
Proof.
  intros ([|x a] & b & E & Ha & Hb).
  - simpl in E. by subst b.
  - injection E as <- ->. unfold jobs_of in Ha. simpl in Ha. by rewrite decide_True in Ha.
Qed.

(** * Where a connection is in its life *)

(** [detail::removeConnection] does not know whether it was called before. *)
Definition later (j : Job) : Prop := j = JDestroyed ∨ conn_job false j.
Definition ends (j : Job) : Prop := j = JDestroyed ∨ j = JConn FForceCloseInLoop.

(** [cur]: it is the client's; [det]: [detail::removeConnection] is its close callback; [js]: its
    jobs. *)
Definition client_phase (cur det : bool) (js : list Job) (x : StateE) : Prop :=
  if det then
    cur = false ∧
    match x with
    | kConnecting => False
    | kDisconnected => Forall later js
    | _ => Exists ends js ∧ ∃ a b, js = a ++ b ∧ Forall (conn_job true) a ∧ Forall later b
    end
  else x ≠ kConnecting ∧ phase cur js x.

Definition upstate (x : StateE) : Prop := x = kConnected ∨ x = kDisconnecting.

Lemma cphase_up cur det js x x' : upstate x -> upstate x' -> client_phase cur det js x -> client_phase cur det js x'.
Proof. by intros [-> | ->] [-> | ->]; unfold client_phase; destruct det; simpl; intros [? ?]. Qed.

Lemma conn_job_later (r cur : bool) f :
  leaves r f -> f ≠ FRemoveConnection -> (r = true -> cur = true) -> cur = false -> later (JConn f).
Proof.
  intros Hl Hf Hr ->. right. destruct r; [by specialize (Hr eq_refl)|]. by destruct f.
Qed.

Lemma cphase_pushed (r cur det : bool) js x f :
  upstate x -> leaves r f -> f ≠ FRemoveConnection -> (r = true -> cur = true) ->
  client_phase cur det js x -> client_phase cur det (js ++ [JConn f]) x.
Proof.
  intros Hx Hl Hf Hr. unfold client_phase. destruct det.
  - intros [Hc H]. split; [done|]. pose proof (conn_job_later r cur f Hl Hf Hr Hc) as Hj.
    destruct Hx as [-> | ->]; destruct H as (He & a & b & -> & Ha & Hb);
      (split; [by apply Exists_app; left|]; exists a, (b ++ [JConn f]); rewrite <- app_assoc; split_and!; try done;
       apply Forall_app; split; [done|by constructor]).
  - intros [Hn H]. split; [done|]. by apply (phase_pushed r).
Qed.

Lemma cphase_removed js x : client_phase true false js x -> client_phase false false (js ++ [JDestroyed]) x.
Proof. intros [Hn H]. split; [done|]. by apply phase_removed. Qed.

Lemma cphase_closed js x :
  upstate x -> (∃ a b, js = a ++ b ∧ Forall (conn_job true) a ∧ Forall later b) ->
  client_phase false true (js ++ [JDestroyed]) x.
Proof.
  intros Hx (a & b & -> & Ha & Hb). split; [done|].
  destruct Hx as [-> | ->];
    (split; [apply Exists_app; right; constructor; by left|]; exists a, (b ++ [JDestroyed]); rewrite <- app_assoc; split_and!; try done;
     apply Forall_app; split; [done|constructor; [by left|done]]).
Qed.

Lemma later_cons j js : Forall later (j :: js) -> Forall later js.
Proof. by intros [_ ?]%Forall_cons. Qed.

(** A job that destroys the connection comes up. *)
Lemma cphase_destroyed cur det js x :
  client_phase cur det (JDestroyed :: js) x ->
  cur = false ∧ client_phase false det js kDisconnected ∧ (upstate x ∨ det = true ∧ x = kDisconnected).
Proof.
  unfold client_phase. destruct det.
  - intros [-> H]. split; [done|]. destruct x; [done|..|split; [|by right]; split; [done|by apply later_cons in H]].
    all: destruct H as (_ & a & b & E & Ha & Hb);
      destruct a as [|j a]; [|by injection E as <- _; inversion Ha]; simpl in E; subst b; apply later_cons in Hb;
      split; [by split|left; unfold upstate; auto].
  - intros [Hn H]. apply phase_destroyed in H as (Hx & -> & Hj). split_and!; try done. by left.
Qed.

(** A call or callback comes up. *)
Lemma cphase_conn cur det f js x :
  client_phase cur det (JConn f :: js) x ->
  leaves true f ∧ x ≠ kConnecting ∧ (x = kDisconnected -> leaves false f) ∧
  (det = false ∨ x = kDisconnected ∨ f ≠ FForceCloseInLoop -> client_phase cur det js x) ∧
  (upstate x -> det = true -> cur = false ∧ ∃ a b, js = a ++ b ∧ Forall (conn_job true) a ∧ Forall later b).
Proof.
  unfold client_phase. destruct det.
  - intros [-> H].
    assert (∀ r, upstate x -> (∃ a b, JConn f :: js = a ++ b ∧ Forall (conn_job true) a ∧ Forall later b) ->
      leaves true f ∧ (r = true -> ∃ a b, js = a ++ b ∧ Forall (conn_job true) a ∧ Forall later b)) as Hup.
    { intros r _ ([|j a] & b & E & Ha & Hb); simpl in E.
      - subst b. apply Forall_cons in Hb as [[Hj|Hj] Hb]; [done|]. split; [by destruct Hj|]. intros _. by exists [], js.
      - injection E as <- ->. apply Forall_cons in Ha as [[Hj _] Ha]. split; [done|]. intros _. by exists a, b. }
    destruct x; [done| | |].
    1,2: destruct H as [He H]; destruct (Hup true ltac:(unfold upstate; auto) H) as [Hl Hs]; split_and!; try done;
      [intros [|[|Hf]]; [done|done|]; split; [done|]; split; [|by apply Hs];
       inversion He as [? ? Hj|? ? Hj]; subst; [destruct Hj; congruence|done]
      |intros _ _; split; [done|by apply Hs]].
    apply Forall_cons in H as [[Hj|[Hl Hj]] H]; [done|]. split_and!; try done; [by intros _; apply Hj|].
    by intros [|].
  - intros [Hn H]. apply phase_conn in H as (Hp & Hl & _ & Hd). by split_and!.
Qed.

(** No other jobs come up. *)
Lemma cphase_job cur det j js x : client_phase cur det (j :: js) x -> j = JDestroyed ∨ ∃ f, j = JConn f.
Proof.
  assert (∀ r, conn_job r j -> j = JDestroyed ∨ ∃ f, j = JConn f) as Hc by (intros r; destruct j as [| | |f]; try done; right; by exists f).
  assert (later j -> j = JDestroyed ∨ ∃ f, j = JConn f) as Hl by (intros [?|?]; [by left|by eapply Hc]).
  assert (∀ (P Q : Job -> Prop), (P j -> j = JDestroyed ∨ ∃ f, j = JConn f) -> (Q j -> j = JDestroyed ∨ ∃ f, j = JConn f) ->
    (∃ a b, j :: js = a ++ b ∧ Forall P a ∧ Forall Q b) -> j = JDestroyed ∨ ∃ f, j = JConn f) as Hs.
  { intros P Q HP HQ ([|y a] & b & E & Ha & Hb); simpl in E; [subst b; apply Forall_cons in Hb as [? _]; auto|].
    injection E as <- _. apply Forall_cons in Ha as [? _]; auto. }
  unfold client_phase. destruct det.
  - intros [_ H]. destruct x; [done|..|by apply Forall_cons in H as [? _]; auto]; destruct H as [_ H]; by apply (Hs _ _ (Hc true) Hl).
  - intros [Hn H]. destruct x; [done|..]; simpl in H.
    3: destruct H as [_ H]; by apply Forall_cons in H as [?%Hc _].
    all: destruct cur; [by apply Forall_cons in H as [?%Hc _]|]; destruct H as ([|y a] & b & E & Ha & Hb);
      [injection E as -> _; by left|injection E as <- _; by apply Forall_cons in Ha as [?%Hc _]].
Qed.

Lemma cphase_current det js x : client_phase true det js x -> det = false ∧ upstate x.
Proof.
  unfold client_phase, upstate. destruct det; [by intros [? _]|]. intros [Hn H]. split; [done|].
  destruct x; [done|auto|auto|]. by destruct H.
Qed.

(** A connection that is up has somebody who keeps it. *)
Lemma cphase_kept det js x :
  client_phase false det js x -> upstate x -> JDestroyed ∈ js ∨ JConn FForceCloseInLoop ∈ js.
Proof.
  unfold client_phase. destruct det.
  - intros [_ H] [-> | ->]; destruct H as [He _]; apply Exists_exists in He as (j & Hj & [-> | ->]); auto.
  - intros [_ H] [-> | ->]; destruct H as (a & b & -> & _); left; set_solver.
Qed.

(** A job with a raw pointer comes only while the connection is up. *)
Lemma cphase_raw cur det js x j : client_phase cur det js x -> j ∈ js -> raw j = true -> upstate x.
Proof.
  assert (∀ j', later j' -> raw j' = true -> False) as Hlater.
  { intros j' [->|Hj]; [done|]. destruct j' as [| | |f]; try done. destruct Hj as [_ Hj]. specialize (Hj eq_refl). by destruct f. }
  unfold client_phase, upstate. destruct det.
  - intros [_ H] Hin Hr. destruct x; [done|auto|auto|]. rewrite Forall_forall in H. by destruct (Hlater j (H _ Hin)).
  - intros [Hn H] Hin Hr. destruct x; [done|auto|auto|]. destruct H as [_ H]. rewrite Forall_forall in H.
    destruct (Hlater j); [right; by apply H|done].
Qed.

(** * The invariant *)

Definition cur (s : World) (id : Z) : bool := bool_decide (connection_ (client s) = Some id).

(** [hole] is a connection in the middle of a change. *)
Record client_inv (hole : option Z) (s : World) : Prop := {
  w_life : ConnectorLife.life_inv (the_connector s);
  w_clean : cl_functors (client s) = [];
  w_functors : Connector.functors (the_connector s) = functors_of (queue s);
  w_owner : alive s = true -> connector_alive s = true;
  w_dead : alive s = false ->
    connection_ (client s) = None ∧ (keeper s = false -> Connector.functors (the_connector s) = []) ∧
    (Connector.connect_ (the_connector s) = false ∨ Connector.state_ (the_connector s) = Connector.kConnected) ∧
    (Connector.state_ (the_connector s) ≠ Connector.kConnecting ∨ FStopInLoop ∈ Connector.functors (the_connector s));
  w_gone : connector_alive s = false -> connector_referenced s = false;
  w_count : 1 <= cl_nextConnId (client s) < 2 ^ 31 ∧
    zlen (Connector.handed_over (the_connector s)) = cl_nextConnId (client s) - 1;
  w_current id : connection_ (client s) = Some id ->
    Connector.state_ (the_connector s) = Connector.kConnected ∧ settled id (queue s) ∧ ∃ t, conns s !! id = Some (t, false);
  w_ids id x : conns s !! id = Some x -> 1 <= id < cl_nextConnId (client s);
  w_good id t d : conns s !! id = Some (t, d) -> good t;
  w_phase id t d : conns s !! id = Some (t, d) -> hole ≠ Some id ->
    client_phase (cur s id) d (jobs_of id (queue s)) (state_ t);
  w_jobs id j : TConn id j ∈ queue s -> is_Some (conns s !! id);
  w_close id : TSetClose id ∉ queue s }.

Lemma client_inv_weaken s id : client_inv None s -> client_inv (Some id) s.
Proof. intros [? ? ? ? ? ? ? ? ? ? Hp ? ?]. split; try done. intros id' t d E _. by apply (Hp id' t d). Qed.

Lemma client_inv_fill s id t d :
  client_inv (Some id) s -> conns s !! id = Some (t, d) -> client_phase (cur s id) d (jobs_of id (queue s)) (state_ t) ->
  client_inv None s.
Proof.
  intros [? ? ? ? ? ? ? ? ? ? Hp ? ?] E Hph. split; try done. intros id' t' d' E' _. destruct (decide (id' = id)) as [->|Hne].
  - rewrite E in E'. by injection E' as <- <-.
  - apply (Hp id' t' d'); [done|congruence].
Qed.

Lemma client_inv_held s hole h : client_inv hole s -> client_inv hole (set_held h s).
Proof. intros [? ? ? ? ? ? ? ? ? ? ? ? ?]. by split. Qed.

(** A job of the connection that is in the middle of a change. *)
Lemma push_job s id j t d :
  client_inv (Some id) s -> conns s !! id = Some (t, d) -> client_inv (Some id) (push [TConn id j] s).
Proof.
  intros [? ? Hf ? ? ? ? Hc ? ? Hp Hj Hn] E. split; try done; simpl.
  - change (the_connector (push _ s)) with (the_connector s). by autorewrite with queue.
  - intros id' Hid. destruct (Hc id' Hid) as (? & ? & ?). split_and!; try done. rewrite queue_push. apply settled_push; [set_solver|done].
  - intros id' t' d' E' Hne. autorewrite with queue. rewrite decide_False by congruence. rewrite app_nil_r. by apply (Hp id' t' d').
  - intros id' j'. rewrite queue_push, elem_of_app, list_elem_of_singleton. intros [X|[= -> ->]]; [by eapply Hj|eauto].
  - intros id'. rewrite queue_push, elem_of_app, list_elem_of_singleton. intros [X|[=]]. by eapply Hn.
Qed.

(** A job is taken up. *)
Lemma pop_job s id j q : client_inv None s -> queue s = TConn id j :: todo q -> client_inv (Some id) (set_queue q s).
Proof.
  intros [? ? Hf ? ? ? ? Hc ? ? Hp Hj Hn] E. split; try done; change (queue (set_queue q s)) with (todo q); simpl.
  - change (the_connector (set_queue _ s)) with (the_connector s). by rewrite Hf, E.
  - intros id' Hid. destruct (Hc id' Hid) as (? & Hs & ?). split_and!; try done. rewrite E in Hs. by eapply settled_pop.
  - intros id' t' d' E' Hne. specialize (Hp id' t' d' E' ltac:(done)). rewrite E in Hp.
    change (TConn id j :: todo q) with ([TConn id j] ++ todo q) in Hp. autorewrite with queue in Hp.
    by rewrite decide_False in Hp by congruence.
  - intros id' j' X. eapply Hj. rewrite E. by right.
  - intros id' X. eapply Hn. rewrite E. by right.
Qed.

Lemma set_conn_inv s id t0 t d :
  client_inv (Some id) s -> conns s !! id = Some (t0, d) -> good t -> client_inv (Some id) (set_conn id t d s).
Proof.
  intros [? ? ? ? ? ? ? Hc Hi Hg Hp Hj ?] E Hgt. split; try done; simpl.
  - intros id' Hid. destruct (Hc id' Hid) as (? & ? & t' & E'). split_and!; try done. destruct (decide (id' = id)) as [->|Hne].
    + rewrite E in E'. injection E' as _ ->. exists t. by rewrite lookup_insert_eq.
    + exists t'. by rewrite lookup_insert_ne.
  - intros id' x. rewrite lookup_insert_Some. intros [[<- _]|[_ X]]; by eapply Hi.
  - intros id' t' d'. rewrite lookup_insert_Some. intros [[<- [= <- _]]|[_ X]]; [done|by eapply Hg].
  - intros id' t' d'. rewrite lookup_insert_Some. intros [[<- _]|[_ X]] Hne; [done|by apply (Hp id' t' d')].
  - intros id' j' X. rewrite lookup_insert_is_Some. destruct (decide (id = id')); [by left|right; split; [done|by eapply Hj]].
Qed.

(** ** The connector's steps *)

(** [q] is what is left of the queue when the connector starts to run. *)
Definition popped (s : World) (q : Queue Task) : Prop := queue s = todo q ∨ ∃ f, queue s = TConnector f :: todo q.

Definition moved (k' : Connector) (new : list Connector.Functor) (q : Queue Task) (s : World) : World :=
  push (map TConnector new) (set_client (set_connector k' (client s)) (set_queue q s)).

Lemma popped_jobs s q id : popped s q -> jobs_of id (queue s) = jobs_of id (todo q).
Proof. by intros [->|[f ->]]. Qed.

Lemma popped_elem s q t : popped s q -> t ∈ todo q -> t ∈ queue s.
Proof. intros [->|[f ->]]; [done|by right]. Qed.

Lemma popped_settled s q id : popped s q -> settled id (queue s) -> settled id (todo q).
Proof. intros [->|[f ->]]; [done|apply settled_pop]. Qed.

Lemma queue_moved k' new q s : queue (moved k' new q s) = todo q ++ map TConnector new.
Proof. apply queue_push. Qed.

Lemma moved_jobs id (new : list Connector.Functor) q s :
  popped s q -> jobs_of id (todo q ++ map TConnector new) = jobs_of id (queue s).
Proof. intros Hq. rewrite (popped_jobs s q id Hq). by autorewrite with queue. Qed.

Lemma moved_elem t new q s : popped s q -> t ∈ todo q ++ map TConnector new -> t ∈ queue s ∨ ∃ f, t = TConnector f.
Proof.
  intros Hq. rewrite elem_of_app, list_elem_of_fmap. intros [X|(f & -> & _)]; [left; by eapply popped_elem|right; by exists f].
Qed.

(** What a step of the connector may do while the client has a connection, and when the client is
    gone. *)
Record connector_ok (s : World) (q : Queue Task) (k' : Connector) (new : list Connector.Functor) : Prop := {
  co_life : ConnectorLife.life_inv k';
  co_functors : Connector.functors k' = functors_of (todo q) ++ new;
  co_current : is_Some (connection_ (client s)) -> Connector.state_ k' = Connector.kConnected ∧ FResetChannel ∉ new;
  co_dead : alive s = false ->
    (keeper s = false -> Connector.functors k' = []) ∧
    (Connector.connect_ k' = false ∨ Connector.state_ k' = Connector.kConnected) ∧
    (Connector.state_ k' ≠ Connector.kConnecting ∨ FStopInLoop ∈ Connector.functors k') }.

Lemma connector_inv hole s q k' new :
  client_inv hole s -> connector_alive s = true -> popped s q -> connector_ok s q k' new ->
  Connector.handed_over k' = Connector.handed_over (the_connector s) ->
  client_inv hole (moved k' new q s).
Proof.
  intros [Hl Hcl Hf Ho Hd Hgo Hcnt Hc Hi Hg Hp Hj Hn] Hal Hq [Kl Kf Kc Kd] Hh.
  split; try done; change (the_connector (moved k' new q s)) with k'; rewrite ?queue_moved; simpl.
  - rewrite Kf. by autorewrite with queue.
  - intros Ha. destruct (Hd Ha) as (? & _). by specialize (Kd Ha).
  - by rewrite Hal.
  - by rewrite Hh.
  - intros id Hid. destruct (Hc id Hid) as (_ & Hs & X). destruct (Kc ltac:(by rewrite Hid)) as [Hst Hnr].
    split_and!; try done. apply settled_push; [by autorewrite with queue|]. by eapply popped_settled.
  - intros id t d E Hne. rewrite (moved_jobs id new q s Hq). by apply (Hp id t d).
  - intros id j X. destruct (moved_elem (TConn id j) new q s Hq X) as [?|[? ?]]; [by eapply Hj|done].
  - intros id X. destruct (moved_elem (TSetClose id) new q s Hq X) as [?|[? ?]]; [by eapply Hn|done].
Qed.

(** The connector has handed a socket over, and the client has made a connection of it. *)
Lemma handed_inv s q k' new fd peer nm c t :
  client_inv None s -> alive s = true -> connection_ (client s) = None -> popped s q ->
  ConnectorLife.life_inv k' -> Connector.functors k' = functors_of (todo q) ++ new -> Connector.state_ k' = Connector.kConnected ->
  Connector.handed_over k' = Connector.handed_over (the_connector s) ++ [fd] ->
  client_newConnection peer (set_connector k' (client s)) = Ok (nm, c) -> good t ->
  let id := cl_nextConnId (client s) in
  let s' := set_conn id t false (set_client c (moved k' new q s)) in
  client_inv (Some id) s' ∧ cur s' id = true ∧ jobs_of id (queue s') = [].
Proof.
  intros [Hl Hcl Hf Ho Hd Hgo Hcnt Hc Hi Hg Hp Hj Hn] Ha Hno Hq Kl Kf Kst Kh E Hgt id s'.
  unfold client_newConnection in E. rewrite (bind_Ok _ _ (set_connector k' (client s)) (set_connector k' (client s)) (set_connector k' (client s))) in E by done.
  cbn [set_connector cl_nextConnId] in E. fold id in E, Hcnt, Hi.
  destruct (Z.ltb_spec id (2 ^ 31 - 1)) as [Hlt|]; [|discriminate E]. injection E as _ <-.
  assert (∀ j, TConn id j ∉ queue s) as Hfresh.
  { intros j X. destruct (Hj id j X) as [x Ex]. specialize (Hi _ _ Ex). lia. }
  assert (jobs_of id (queue s') = []) as Hjs.
  { change (queue s') with (queue (moved k' new q s)). rewrite queue_moved, (moved_jobs id new q s Hq). by apply jobs_of_nil. }
  split; [|split; [by apply bool_decide_eq_true|exact Hjs]].
  change (queue s') with (queue (moved k' new q s)) in Hjs. rewrite queue_moved in Hjs.
  split; try done; change (the_connector s') with k'; change (queue s') with (queue (moved k' new q s)); rewrite ?queue_moved; simpl.
  - rewrite Kf. by autorewrite with queue.
  - by rewrite Ha.
  - by rewrite (Ho Ha).
  - rewrite Kh, length_app, Nat2Z.inj_add.
    change (zlen [fd]) with 1. fold id. lia.
  - intros id' [= <-]. split_and!; [exact Kst| |exists t; apply lookup_insert_eq].
    exists (todo q ++ map TConnector new), []. rewrite app_nil_r. split_and!; [done|exact Hjs|set_solver].
  - intros id' x. rewrite lookup_insert_Some. fold id. intros [[<- _]|[_ X]]; [lia|]. specialize (Hi _ _ X). lia.
  - intros id' t' d'. rewrite lookup_insert_Some. intros [[<- [= <- _]]|[_ X]]; [done|by eapply Hg].
  - intros id' t' d'. rewrite lookup_insert_Some. intros [[<- _]|[Hx X]] Hne; [done|].
    rewrite (moved_jobs id' new q s Hq). specialize (Hp id' t' d' X ltac:(done)).
    unfold cur in *. rewrite Hno in Hp. simpl. rewrite (bool_decide_eq_false_2 (Some id = Some id')) by congruence.
    by rewrite bool_decide_eq_false_2 in Hp by done.
  - intros id' j X. rewrite lookup_insert_is_Some. destruct (decide (id = id')); [by left|right; split; [done|]].
    destruct (moved_elem (TConn id' j) new q s Hq X) as [?|[? ?]]; [by eapply Hj|done].
  - intros id' X. destruct (moved_elem (TSetClose id') new q s Hq X) as [?|[? ?]]; [by eapply Hn|done].
Qed.

(** ** Running the connector *)

Lemma queued_by_app k k' new :
  Connector.functors k' = Connector.functors k ++ new -> queued_by k k' = map TConnector new.
Proof. intros E. unfold queued_by. by rewrite E, drop_app_length. Qed.

Lemma popped_here s : popped s (loop s).
Proof. by left. Qed.

(** What is left of the client when its functors have been taken. *)
Definition cleared (c : TcpClient) : TcpClient :=
  mkClient (connector_ c) (cl_name c) (retry_ c) (TcpServer.connect_ c) (cl_nextConnId c) (connection_ c) []
    (cl_writeCompleteCallback c).

Lemma cleared_clean c : cl_functors c = [] -> cleared c = c.
Proof. destruct c. simpl. by intros ->. Qed.

Lemma on_client_run m c new s :
  alive s = true -> m (client s) = Ok (tt, c) ->
  Connector.functors (connector_ c) = Connector.functors (the_connector s) ++ new ->
  on_client m s = Ok (cl_functors c, push (map TConnector new) (set_client (cleared c) s)).
Proof. intros Ha E Hf. unfold on_client. rewrite Ha, E. by rewrite (queued_by_app _ _ _ Hf). Qed.

Section client.
Context (U : Z -> User).

Lemma on_connector_run e peer g s m k' new :
  connector_alive s = true -> m (the_connector s) = Ok (tt, k') ->
  Connector.functors k' = Connector.functors (the_connector s) ++ new ->
  Connector.handed_over k' = Connector.handed_over (the_connector s) ->
  on_connector U e peer g m s = Ok (tt, moved k' new (loop s) s).
Proof.
  intros Ha E Hf Hh. unfold on_connector. rewrite (bind_Ok _ _ s s s) by done. rewrite Ha. cbv zeta. rewrite E.
  rewrite (queued_by_app _ _ _ Hf), Hh, drop_all. reflexivity.
Qed.

Lemma on_connector_handed e peer g s m k' new fd :
  connector_alive s = true -> m (the_connector s) = Ok (tt, k') ->
  Connector.functors k' = Connector.functors (the_connector s) ++ new ->
  Connector.handed_over k' = Connector.handed_over (the_connector s) ++ [fd] ->
  on_connector U e peer g m s = (newConnection U e peer g fd ;; mret tt) (moved k' new (loop s) s).
Proof.
  intros Ha E Hf Hh. unfold on_connector. rewrite (bind_Ok _ _ s s s) by done. rewrite Ha. cbv zeta. rewrite E.
  rewrite (queued_by_app _ _ _ Hf), Hh, drop_app_length. reflexivity.
Qed.

(** ** Removing a connection *)

(** The connection's events and jobs come when the channel of its connector has been reset. *)
Definition reset_done (s : World) (id : Z) : Prop :=
  connection_ (client s) = Some id -> FResetChannel ∉ Connector.functors (the_connector s).

(** The client's part of it: it forgets the connection, and may connect again. *)
Lemma client_remove_spec c id e :
  ConnectorLife.life_inv (connector_ c) -> connection_ c = Some id -> restartable (connector_ c) ->
  ∃ k', client_removeConnection id e c =
      Ok (tt, set_connector k' (queue_client (CDestroy id) (TcpServer.set_connection None c))) ∧
    ConnectorLife.life_inv k' ∧ Connector.functors k' = Connector.functors (connector_ c) ∧
    Connector.handed_over k' = Connector.handed_over (connector_ c).
Proof.
  intros Hl Hc Hr. unfold client_removeConnection. rewrite (bind_Ok _ _ c c c) by done.
  rewrite (bind_Ok _ _ c tt c) by (rewrite Hc; by apply assert_Ok, bool_decide_eq_true).
  set (c1 := queue_client (CDestroy id) (TcpServer.set_connection None c)).
  rewrite (bind_Ok _ _ c tt (TcpServer.set_connection None c)), (bind_Ok _ _ _ tt c1) by done.
  destruct (retry_ c && TcpServer.connect_ c).
  - destruct (restart_life e (connector_ c) Hl Hr) as (k' & E & Hl' & _ & Hh & _ & Hf).
    exists k'. split; [|done]. cbn [when]. unfold TcpServer.on_connector, zoom. by rewrite (E : restart e (connector_ c1) = _).
  - exists (connector_ c). split; [|done]. by destruct c.
Qed.

Lemma forget_inv s id :
  client_inv None s -> connection_ (client s) = Some id ->
  client_inv (Some id) (set_client (TcpServer.set_connection None (client s)) s).
Proof.
  intros [Hl Hcl Hf Ho Hd Hgo Hcnt Hc Hi Hg Hp Hj Hn] E. split; try done.
  - intros Ha. destruct (Hd Ha) as [? _]. congruence.
  - intros id' t d X Hne. specialize (Hp id' t d X ltac:(done)). unfold cur in *. rewrite E in Hp. simpl.
    by rewrite bool_decide_eq_false_2 in Hp by congruence.
Qed.

Lemma removeConnection_current e s id t :
  client_inv None s -> alive s = true -> connection_ (client s) = Some id -> conns s !! id = Some (t, false) -> reset_done s id ->
  ∃ s', removeConnection e id s = Ok (tt, s') ∧ client_inv None s' ∧ conns s' = conns s ∧ connection_ (client s') = None.
Proof.
  intros Hi Ha Hc E Hr. pose proof Hi as [Hl Hcl Hf Ho _ _ _ Hcur _ _ Hp _ _].
  destruct (Hcur id Hc) as (Hst & _ & _).
  destruct (client_remove_spec (client s) id e Hl Hc) as (k' & Ek & Hl' & Hf' & Hh'); [by split; [|apply Hr]|].
  set (s1 := set_client (TcpServer.set_connection None (client s)) s). set (s2 := moved k' [] (loop s1) s1).
  assert (client_inv (Some id) s2) as H2.
  { apply connector_inv; [by apply forget_inv|by apply Ho|by left| |done].
    split; [done|by rewrite Hf', app_nil_r|by intros [? ?]|]. change (alive s1) with (alive s). by rewrite Ha. }
  exists (push [TConn id JDestroyed] s2). split; [|split; [|done]].
  - unfold removeConnection. rewrite (bind_Ok _ _ s s s) by done. rewrite E.
    rewrite (bind_Ok _ _ s [CDestroy id] s2); [done|].
    rewrite (on_client_run _ _ [] s Ha Ek) by (simpl; by rewrite Hf', app_nil_r).
    change (cl_functors (set_connector _ _)) with (cl_functors (client s) ++ [CDestroy id]). rewrite Hcl.
    change (cleared _) with (cleared (set_connector k' (TcpServer.set_connection None (client s)))). by rewrite cleared_clean.
  - apply (client_inv_fill _ id t false); [by eapply push_job|done|].
    assert (queue s2 = queue s) as Hq2 by (unfold s2; rewrite queue_moved; apply app_nil_r).
    rewrite queue_push, Hq2, jobs_of_app, jobs_of_conn, decide_True by done.
    change (cur _ id) with (bool_decide (@None Z = Some id)). rewrite bool_decide_eq_false_2 by done.
    apply cphase_removed. specialize (Hp id t false E ltac:(done)). unfold cur in Hp. by rewrite Hc, bool_decide_eq_true_2 in Hp.
Qed.

(** What [FRemoveConnection] comes to. *)
Lemma removeConnection_inv e s id t d x s' :
  client_inv None s -> conns s !! id = Some (t, d) -> up t -> reset_done s id -> removeConnection e id s = Ok (x, s') ->
  client_inv None s' ∧ conns s' = conns s ∧ reset_done s' id.
Proof.
  intros Hi E Hu Hr R. destruct d.
  - unfold removeConnection in R. rewrite (bind_Ok _ _ s s s) in R by done. rewrite E in R. injection R as _ <-.
    split; [|done]. apply (client_inv_fill _ id t true); [by eapply push_job; [apply client_inv_weaken|]|done|].
    rewrite queue_push, jobs_of_app, jobs_of_conn, decide_True by done.
    pose proof (w_phase _ _ Hi id t true E ltac:(done)) as Hp. change (cur (push _ s) id) with (cur s id).
    assert (cur s id = false) as -> by (by destruct Hp). apply cphase_closed; [done|]. destruct Hp as [_ Hp].
    by destruct Hu as [Hu|Hu]; rewrite Hu in Hp; destruct Hp.
  - assert (alive s = true ∧ connection_ (client s) = Some id) as [Ha Hc].
    { unfold removeConnection in R. rewrite (bind_Ok _ _ s s s) in R by done. rewrite E in R.
      apply bind_inv in R as (q & s1 & R & _). unfold on_client in R. destruct (alive s); [|done]. split; [done|].
      destruct (client_removeConnection id e (client s)) as [[y c]|] eqn:Ec; [|done].
      unfold client_removeConnection in Ec. rewrite (bind_Ok _ _ (client s) (client s) (client s)) in Ec by done.
      apply bind_inv in Ec as ([] & c1 & [Hb _]%assert_inv & _). by apply bool_decide_eq_true in Hb. }
    destruct (removeConnection_current e s id t Hi Ha Hc E Hr) as (s2 & R2 & Hi2 & Hc2 & Hn2).
    rewrite R in R2. injection R2 as _ <-. split_and!; try done. intros X. congruence.
Qed.

(** ** What a method of a connection hands over *)

Lemma client_hand_over_inv (r : bool) e id t d f s x s' :
  client_inv None s -> conns s !! id = Some (t, d) -> up t -> leaves r f -> (r = true -> cur s id = true) ->
  (f = FRemoveConnection -> reset_done s id) -> hand_over e id f s = Ok (x, s') ->
  client_inv None s' ∧ conns s' = conns s ∧ (r = true -> cur s' id = true) ∧ (reset_done s id -> reset_done s' id).
Proof.
  intros Hi E Hu Hl Hr Hd R. destruct (decide (f = FRemoveConnection)) as [->|Hf].
  - assert (r = false) as -> by done.
    destruct (removeConnection_inv e s id t d x s' Hi E Hu (Hd eq_refl) R) as (H1 & H2 & H3). by split_and!.
  - assert (hand_over e id f s = Ok (tt, push [TConn id (JConn f)] s)) as R' by (by destruct f).
    rewrite R' in R. injection R as _ <-. split_and!; try done.
    apply (client_inv_fill _ id t d); [by eapply push_job; [apply client_inv_weaken|]|done|].
    rewrite queue_push, jobs_of_app, jobs_of_conn, decide_True by done.
    apply (cphase_pushed r); try done. by apply (w_phase _ _ Hi).
Qed.

Lemma client_hand_overs_inv (r : bool) e id t d out : ∀ s x s',
  client_inv None s -> conns s !! id = Some (t, d) -> up t -> Forall (leaves r) out -> (r = true -> cur s id = true) ->
  (FRemoveConnection ∈ out -> reset_done s id) -> mapM_ (hand_over e id) out s = Ok (x, s') ->
  client_inv None s' ∧ conns s' = conns s.
Proof.
  induction out as [|f out IH]; intros s x s' Hi E Hu Hl Hr Hd R; simpl in R; [by injection R as _ <-|].
  apply Forall_cons in Hl as [Hf Hl]. apply bind_inv in R as (y & s1 & R1 & R).
  destruct (client_hand_over_inv r e id t d f s y s1 Hi E Hu Hf Hr) as (Hi1 & Ho1 & Hr1 & Hd1); [|exact R1|].
  { intros ->. apply Hd. by left. }
  destruct (IH s1 x s' Hi1 ltac:(by rewrite Ho1) Hu Hl Hr1) as [Hi2 Ho2]; [|exact R|split; [done|congruence]].
  intros X. apply Hd1, Hd. by right.
Qed.

(** A method of a connection, from what it does to the connection. *)
Lemma client_on_conn_inv (r : bool) e id t d m s x s' :
  client_inv (Some id) s -> conns s !! id = Some (t, d) ->
  (∀ y t', m t = Ok (y, t') ->
     good (set_functors [] t') ∧ client_phase (cur s id) d (jobs_of id (queue s)) (state_ t') ∧
     (functors t' = [] ∨ up t' ∧ Forall (leaves r) (functors t')) ∧ (FRemoveConnection ∈ functors t' -> reset_done s id)) ->
  (r = true -> cur s id = true) -> on_conn e id m s = Ok (x, s') -> client_inv None s'.
Proof.
  intros Hi E Hm Hr R. unfold on_conn in R. rewrite (bind_Ok _ _ s s s) in R by done. rewrite E in R.
  destruct (m t) as [[y t']|]; [|done]. destruct (Hm y t' eq_refl) as (Hg & Hp & Hf & Hd).
  set (s1 := set_conn id (set_functors [] t') d s). rewrite (bind_Ok _ _ s tt s1) in R by done.
  assert (conns s1 !! id = Some (set_functors [] t', d)) as E1 by apply lookup_insert_eq.
  assert (client_inv None s1) as H1.
  { apply (client_inv_fill s1 id (set_functors [] t') d); [by apply (set_conn_inv s id t)|exact E1|exact Hp]. }
  destruct Hf as [Hf|[Hu Hf]].
  - rewrite Hf in R. by injection R as _ <-.
  - by destruct (client_hand_overs_inv r e id _ d _ s1 x s' H1 E1 Hu Hf Hr Hd R).
Qed.

(** A method that keeps a connection up. *)
Lemma client_upkeep_inv (r : bool) e id t d m s x s' :
  client_inv (Some id) s -> conns s !! id = Some (t, d) -> up t ->
  client_phase (cur s id) d (jobs_of id (queue s)) (state_ t) ->
  (∀ y t', m t = Ok (y, t') -> upkeep r t t' ∧ (calm t t' ∨ reset_done s id)) ->
  (r = true -> cur s id = true) -> on_conn e id m s = Ok (x, s') -> client_inv None s'.
Proof.
  intros Hi E Hu Hp Hm Hr R. eapply (client_on_conn_inv r e id t d); [exact Hi|exact E| |exact Hr|exact R].
  intros y t' Et. destruct (Hm y t' Et) as [[U1 E1 H1 (out & F1 & L1)] Hd].
  destruct (w_good _ _ Hi _ _ _ E) as [Hf Hh Ht Hre]. specialize (U1 Hu). rewrite Hf in F1. simpl in F1. split; [|split; [|split]].
  - split; simpl; [done|by rewrite H1|change (conn_events t' = told (state_ t')); rewrite E1, Ht|intros X; by destruct X].
    by destruct Hu as [-> | ->], U1 as [-> | ->].
  - by eapply cphase_up; [exact Hu|exact U1|].
  - right. by rewrite F1.
  - intros X. destruct Hd as [(o & Fo & Ho)|Hd]; [|done]. rewrite Fo, Hf in X. by destruct Ho.
Qed.

(** A call on a connection that is up or down. *)
Lemma call_inv e id t d inLoop c s x s' :
  client_inv None s -> conns s !! id = Some (t, d) -> (inLoop = false -> cur s id = true) ->
  on_conn e id (call (write (U id)) inLoop c) s = Ok (x, s') -> client_inv None s'.
Proof.
  intros Hi E Hr R. pose proof (w_phase _ _ Hi _ _ _ E ltac:(done)) as Hp. destruct (decide (up t)) as [Hu|Hu].
  - eapply (client_upkeep_inv (negb inLoop) e id t d); [by apply client_inv_weaken|exact E|exact Hu|exact Hp| | |exact R].
    + intros y t' Et. split; [by eapply call_upkeep|left; by eapply call_calm].
    + destruct inLoop; [done|intros _; by apply Hr].
  - eapply (client_on_conn_inv false e id t d); [by apply client_inv_weaken|exact E| |done|exact R].
    intros y t'. rewrite call_down by done. intros [= _ <-]. pose proof (w_good _ _ Hi _ _ _ E) as Hg.
    pose proof (go_functors _ Hg) as Hf. split; [by destruct Hg|]. split; [done|]. split; [by left|]. rewrite Hf. set_solver.
Qed.
End client.
