(* ===== verification/ClientProps.v ===== *)
(** What the parts of a client promise each other: the connector starts, retries and stops, the
    connections come and go, and the client may be destroyed in the middle of it; and the
    orders of events in which they let each other down. *)
From S2P Require Import Prelude Channel Connector ConnectorLife TcpServer Buffer TcpConnection TcpProps TcpPair ServerSystem ServerProps ClientSystem ClientInv.
Open Scope list_scope.

(** * The steps *)

(** A connector that is gone has nothing that could wake it. *)
Lemma gone_idle s :
  client_inv None s -> connector_alive s = false ->
  Connector.functors (the_connector s) = [] ∧ timers (the_connector s) = [] ∧ Connector.channel_ (the_connector s) = None.
Proof.
  intros Hi Ha. pose proof (w_gone _ _ Hi Ha) as Hg. unfold connector_referenced in Hg. rewrite !orb_false_iff, negb_false_iff in Hg.
  destruct Hg as [[Hal Hk] Ht%bool_decide_eq_true]. destruct (w_dead _ _ Hi Hal) as (_ & Hf & _ & Hst). specialize (Hf Hk).
  split_and!; [done|done|]. apply idle_no_channel; [apply Hi| |done]. destruct Hst as [?|Hst]; [done|]. rewrite Hf in Hst. set_solver.
Qed.

Lemma connector_busy s :
  client_inv None s -> Connector.functors (the_connector s) ≠ [] ∨ timers (the_connector s) ≠ [] ∨ is_Some (Connector.channel_ (the_connector s)) ->
  connector_alive s = true.
Proof.
  intros Hi H. destruct (connector_alive s) eqn:Ha; [done|]. destruct (gone_idle s Hi Ha) as (H1 & H2 & H3).
  destruct H as [?|[?|[c Hc]]]; [done|done|]. congruence.
Qed.

Section steps.
Context (U : Z -> User).

(** The connector has handed a socket over: its connection is made and established. *)
Lemma client_newConnection_inv e peer g fd s q k' new x s' :
  client_inv None s -> alive s = true -> connection_ (client s) = None -> popped s q ->
  ConnectorLife.life_inv k' -> Connector.functors k' = functors_of (todo q) ++ new -> Connector.state_ k' = Connector.kConnected ->
  Connector.handed_over k' = Connector.handed_over (the_connector s) ++ [fd] ->
  newConnection U e peer g fd (moved k' new q s) = Ok (x, s') -> client_inv None s'.
Proof.
  intros Hi Ha Hc Hq Kl Kf Kst Kh R. unfold newConnection in R. set (s0 := moved k' new q s) in *.
  rewrite (bind_Ok _ _ s0 s0 s0) in R by done. change (alive s0) with (alive s) in R. rewrite Ha in R.
  change (client s0) with (set_connector k' (client s)) in R.
  destruct (client_newConnection peer (set_connector k' (client s))) as [[nm c]|] eqn:Ec; [|done].
  destruct (new_TcpConnection_good fd g) as (t0 & Et & Hg0 & Hst0). rewrite Et in R. cbv zeta in R.
  set (t := if cl_writeCompleteCallback c then setWriteCompleteCallback t0 else t0) in R.
  assert (good t ∧ state_ t = kConnecting) as [Hg Hst] by (subst t; destruct (cl_writeCompleteCallback c); [by destruct Hg0|done]).
  change (cl_nextConnId (set_connector k' (client s))) with (cl_nextConnId (client s)) in R.
  destruct (handed_inv s q k' new fd peer nm c t Hi Ha Hc Hq Kl Kf Kst Kh Ec Hg) as (Hi2 & Hcur & Hjs).
  set (id := cl_nextConnId (client s)) in *. set (s2 := set_conn id t false (set_client c (moved k' new q s))) in *.
  rewrite (bind_Ok _ _ s0 tt (set_client c s0)), (bind_Ok _ _ _ tt s2) in R by done.
  eapply (client_on_conn_inv false e id t false); [exact Hi2|apply lookup_insert_eq| |done|exact R]. intros y t' Ey.
  destruct (established_good _ _ _ _ Hg Hst Ey) as (Hg' & Hu & Hl). split; [done|]. split; [|split; [by right|]].
  - rewrite Hjs, Hcur. split; [by destruct Hu as [-> | ->]|]. by apply up_phase.
  - intros X. destruct (connectEstablished_calm (U id) t y t' Ey) as (o & Fo & Ho). rewrite Fo, (go_functors _ Hg) in X. by destruct Ho.
Qed.

(** An event of the connecting socket: the connector's part of it succeeds, and if it hands a
    socket over, the client is there and has no connection. *)
Lemma socket_event r err self s :
  client_inv None s ->
  ∃ k', Connector.do_op (Connector.OEvent r err self) (the_connector s) = Ok (tt, k') ∧
    ((∃ new, connector_ok s (loop s) k' new) ∧ Connector.handed_over k' = Connector.handed_over (the_connector s) ∨
     (∃ new, Connector.functors k' = functors_of (queue s) ++ new) ∧ ConnectorLife.life_inv k' ∧ Connector.state_ k' = Connector.kConnected ∧
     Connector.handed_over k' = Connector.handed_over (the_connector s) ++ [Connector.sockfd_ k'] ∧
     alive s = true ∧ connection_ (client s) = None).
Proof.
  intros Hi. set (k := the_connector s). pose proof Hi as [Hl _ Hfu _ Hd _ _ Hc _ _ _ _ _]. fold k in Hl, Hfu, Hd, Hc.
  destruct (event_life r err self k Hl) as (k' & E & Hl' & Hco & Hf & Hh). exists k'. split; [exact E|].
  assert (∃ new, Connector.functors k' = functors_of (queue s) ++ new ∧
            (new = [] ∨ Connector.state_ k = Connector.kConnecting)) as (new & Hnew & Hwhy).
  { destruct Hf as [Hf|[Hst Hf]]; [exists []|exists [FResetChannel]]; rewrite Hf, Hfu; rewrite ?app_nil_r; auto. }
  assert (Connector.state_ k ≠ Connector.kConnecting -> k' = k) as Hidle.
  { intros Hst. rewrite (event_idle r err self k Hl Hst) in E. congruence. }
  destruct Hh as [[Hh Hcon]|(Hh & Hct & Hst & Hst')].
  - left. split; [|exact Hh]. exists new. split; [exact Hl'|exact Hnew| |].
    + intros [id Hid]. destruct (Hc id Hid) as (Hst & _). destruct Hwhy as [->|?]; [|congruence].
      rewrite (Hcon Hst). split; [exact Hst|set_solver].
    + intros Ha. destruct (Hd Ha) as (_ & Hke & Hoff & Hstop). split_and!.
      * intros Hk. rewrite Hidle; [by apply Hke|]. destruct Hstop as [?|Hstop]; [done|]. rewrite (Hke Hk) in Hstop. set_solver.
      * destruct Hoff as [Hoff|Hoff]; [left; congruence|right; rewrite (Hcon Hoff); exact Hoff].
      * destruct Hstop as [Hstop|Hstop]; [left; by rewrite Hidle|right]. rewrite Hnew, <- Hfu. apply elem_of_app. by left.
  - right. split; [by exists new|]. split_and!; try done.
    + destruct (alive s) eqn:Ha; [done|]. destruct (Hd eq_refl) as (_ & _ & [Hoff|Hoff] & _); congruence.
    + destruct (connection_ (client s)) as [id|] eqn:Hid; [|done]. destruct (Hc id eq_refl) as (Hst2 & _). congruence.
Qed.

Lemma socket_inv r err self e peer g s x s' :
  client_inv None s -> connector_alive s = true ->
  on_connector U e peer g (Connector.do_op (Connector.OEvent r err self)) s = Ok (x, s') -> client_inv None s'.
Proof.
  intros Hi Ha R. destruct (socket_event r err self s Hi) as (k' & E & [[[new Hok] Hh]|([new Hf] & Hl & Hst & Hh & Hal & Hno)]).
  - rewrite (on_connector_run U e peer g s _ k' new Ha E) in R; [|by rewrite (co_functors _ _ _ _ Hok), (w_functors _ _ Hi)|exact Hh].
    injection R as _ <-. apply connector_inv; [exact Hi|exact Ha|apply popped_here|exact Hok|exact Hh].
  - rewrite (on_connector_handed U e peer g s _ k' new (Connector.sockfd_ k') Ha E) in R; [|by rewrite Hf, (w_functors _ _ Hi)|exact Hh].
    apply bind_inv in R as (y & s1 & R & R1). injection R1 as _ <-.
    by eapply client_newConnection_inv; [exact Hi|exact Hal|exact Hno|apply popped_here|exact Hl|exact Hf|exact Hst|exact Hh|exact R].
Qed.

(** The retry timer fires. *)
Lemma timer_step e s :
  client_inv None s -> timers (the_connector s) ≠ [] ->
  ∃ s', on_connector U e [] 0 (Connector.do_op (Connector.OTimer e)) s = Ok (tt, s') ∧ client_inv None s'.
Proof.
  intros Hi Ht. pose proof Hi as [Hl _ Hfu _ Hd _ _ Hc _ _ _ _ _].
  destruct (timer_life e _ Hl) as (k' & E & Hl' & (Hco & Hh & Hcon) & Hf).
  assert (connector_alive s = true) as Ha by (by apply connector_busy; auto).
  exists (moved k' [] (loop s) s). split; [by apply on_connector_run; rewrite ?app_nil_r|].
  apply connector_inv; [done|done|apply popped_here| |done]. split; [done|by rewrite Hf, app_nil_r| |].
  - intros [id Hid]. destruct (Hc id Hid) as (Hst & _). split; [by apply Hcon|set_solver].
  - intros Hal. destruct (Hd Hal) as (_ & Hke & Hoff & Hstop). rewrite Hf, Hco, (timer_off e _ _ Hl Hoff E). by split_and!.
Qed.

(** A functor of the connector is next. *)
Lemma functor_step e f q s :
  client_inv None s -> queue s = TConnector f :: todo q ->
  ∃ s', run_task U e (TConnector f) (set_queue q s) = Ok (tt, s') ∧ client_inv None s'.
Proof.
  intros Hi Eq. pose proof Hi as [Hl _ Hfu _ Hd _ _ Hc _ _ _ _ _]. set (k := the_connector s) in *.
  rewrite Eq in Hfu. change (functors_of (TConnector f :: todo q)) with (f :: functors_of (todo q)) in Hfu.
  destruct (next_life e f _ k Hl Hfu) as (k' & E & Hl' & (Hco & Hh & Hcon) & Hf).
  assert (connector_alive s = true) as Ha by (apply connector_busy; [done|left; fold k; by rewrite Hfu]).
  assert (∃ new, Connector.functors k' = functors_of (todo q) ++ new ∧
            (new = [] ∨ Connector.state_ k = Connector.kConnecting)) as (new & Hnew & Hwhy).
  { destruct Hf as [Hf|(_ & Hst & Hf)]; [exists []|exists [FResetChannel]]; rewrite Hf; rewrite ?app_nil_r; auto. }
  exists (moved k' new q s). split.
  - unfold run_task. set (k1 := Connector.set_functors (functors_of (todo q)) k). set (s1 := set_client (set_connector k1 (client s)) (set_queue q s)).
    assert (tail (Connector.functors k) = functors_of (todo q)) as Htl by (by rewrite Hfu).
    rewrite (bind_Ok _ _ _ tt s1) by (by unfold s1, k1; rewrite <- Htl).
    rewrite (on_connector_run U e [] 0 s1 _ k' new Ha); [done| |exact Hnew|exact Hh].
    simpl in E. rewrite (bind_Ok _ _ k k k) in E by done. rewrite Hfu in E. by rewrite (bind_Ok _ _ k tt k1) in E.
  - apply connector_inv; [done|done|by right; exists f| |done]. split; [done|done| |].
    + intros [id Hid]. destruct (Hc id Hid) as (Hst & _). split; [by apply Hcon|]. destruct Hwhy as [->|?]; [set_solver|congruence].
    + intros Hal. destruct (Hd Hal) as (_ & Hke & Hoff & _). split_and!.
      * intros Hk. specialize (Hke Hk). congruence.
      * destruct Hoff as [?|?]; [left; congruence|right; by apply Hcon].
      * left. destruct Hoff as [Hoff|Hoff]; [exact (next_off e f _ k k' Hl Hfu Hoff E)|]. by rewrite (proj2 Hcon Hoff).
Qed.

(** ** The jobs of the connections *)

Lemma destroyed_inv e id t d s x s' :
  client_inv (Some id) s -> conns s !! id = Some (t, d) -> cur s id = false ->
  client_phase false d (jobs_of id (queue s)) kDisconnected -> upstate (state_ t) ∨ state_ t = kDisconnected ->
  on_conn e id (connectDestroyed (write (U id)) (onConnection (U id))) s = Ok (x, s') -> client_inv None s'.
Proof.
  intros Hi E Hcur Hp Hst R. eapply (client_on_conn_inv false e id t d); [exact Hi|exact E| |done|exact R]. intros y t' Et.
  destruct (w_good _ _ Hi _ _ _ E) as [Hf Hh Ht Hr].
  assert (upstate (state_ t)) as Hu.
  { destruct Hst as [?|Hst]; [done|]. unfold connectDestroyed in Et. rewrite (bind_Ok _ _ t t t) in Et by done.
    apply bind_inv in Et as ([] & t0 & [Hs _]%assert_inv & _). rewrite Hst in Hs. discriminate Hs. }
  destruct (connectDestroyed_down (U id) t y t') as (Hs' & He & Hh' & Ha & Hf'); [by rewrite Ht; destruct Hu as [-> | ->]|exact Et|].
  rewrite Hs'. split; [|split; [by rewrite Hcur|split; [left; congruence|rewrite Hf', Hf; set_solver]]].
  split; simpl; [done|congruence| |done]. change (conn_events t' = told (state_ t')). by rewrite He, Hs'.
Qed.

(** [~TcpClient()]'s [forceClose]: the connection is closed, however often it was before. *)
Lemma forced_inv e id t s x s' :
  client_inv (Some id) s -> conns s !! id = Some (t, true) -> up t -> cur s id = false ->
  (∃ a b, jobs_of id (queue s) = a ++ b ∧ Forall (conn_job true) a ∧ Forall later b) ->
  on_conn e id (run_functor (write (U id)) (onConnection (U id)) (onWriteComplete (U id)) (onHighWaterMark (U id))
    (TcpConnection.removeConnection false) FForceCloseInLoop) s = Ok (x, s') -> client_inv None s'.
Proof.
  intros Hi E Hu Hcur Hjs R. set (t1 := set_chan (set_added true (disableAll (channel_ t))) t).
  destruct (w_good _ _ Hi _ _ _ E) as [Hf Hh Ht Hr].
  assert (run_functor (write (U id)) (onConnection (U id)) (onWriteComplete (U id)) (onHighWaterMark (U id))
    (TcpConnection.removeConnection false) FForceCloseInLoop t = Ok (tt, set_functors [FRemoveConnection] t1)) as Et.
  { simpl. unfold forceCloseInLoop, handleClose, TcpConnection.removeConnection, TcpConnection.on_channel, TcpConnection.queueInLoop.
    assert (bool_decide (state_ t = kConnected) || bool_decide (state_ t = kDisconnecting) = true) as Hb by (by destruct Hu as [-> | ->]).
    rewrite (bind_Ok _ _ t t t) by done. rewrite Hb. cbn [when]. rewrite (bind_Ok _ _ t t t) by done. rewrite Hb.
    rewrite (bind_Ok _ _ t tt t), (bind_Ok _ _ t tt t1) by done.
    unfold modify. change (functors t1) with (functors t). by rewrite Hf. }
  unfold on_conn in R. rewrite (bind_Ok _ _ s s s) in R by done. rewrite E, Et in R.
  set (t2 := set_functors [] t1). set (s2 := set_conn id t2 true s).
  rewrite (bind_Ok _ _ s tt s2) in R by done. simpl in R. unfold removeConnection in R.
  assert (conns s2 !! id = Some (t2, true)) as E2 by apply lookup_insert_eq.
  rewrite (bind_Ok _ _ s2 tt (push [TConn id JDestroyed] s2)) in R by (rewrite (bind_Ok _ _ s2 s2 s2) by done; by rewrite E2).
  injection R as _ <-. assert (good t2) as Hg.
  { split; simpl; [done|done|exact Ht|intros X; by destruct X]. }
  apply (client_inv_fill _ id t2 true); [by eapply push_job; [by eapply set_conn_inv|]|exact E2|].
  rewrite queue_push, jobs_of_app, jobs_of_conn, decide_True by done.
  change (cur _ id) with (cur s id). rewrite Hcur. by apply cphase_closed.
Qed.

Lemma job_inv e id j q s x s' :
  client_inv None s -> queue s = TConn id j :: todo q -> run_task U e (TConn id j) (set_queue q s) = Ok (x, s') -> client_inv None s'.
Proof.
  intros Hi Eq R. destruct (w_jobs _ _ Hi id j) as [[t d] E]; [rewrite Eq; by left|].
  pose proof (pop_job _ _ _ _ Hi Eq) as Hi1. set (s1 := set_queue q s) in *.
  pose proof (w_phase _ _ Hi _ _ _ E ltac:(done)) as Hp. rewrite Eq in Hp.
  change (TConn id j :: todo q) with ([TConn id j] ++ todo q) in Hp. rewrite jobs_of_app, jobs_of_conn, decide_True in Hp by done. simpl in Hp.
  assert (conns s1 !! id = Some (t, d)) as E1 by done.
  destruct (cphase_job _ _ _ _ _ Hp) as [->|[f ->]].
  - destruct (cphase_destroyed _ _ _ _ Hp) as (Hcur & Hp' & Hst).
    eapply (destroyed_inv e id t d s1); [exact Hi1|exact E1|exact Hcur|exact Hp'| |exact R]. destruct Hst as [?|[_ ?]]; auto.
  - destruct (cphase_conn _ _ _ _ _ Hp) as (Hl & Hnc & Hdn & Hp' & Hforce). simpl in R.
    destruct (decide (up t)) as [Hu|Hu].
    + destruct d eqn:Hd; [destruct (decide (f = FForceCloseInLoop)) as [->|Hne]|].
      * destruct (Hforce Hu eq_refl) as [Hcur Hs]. by apply (forced_inv e id t s1 x s' Hi1 E1 Hu Hcur Hs).
      * eapply (client_upkeep_inv false e id t true); [exact Hi1|exact E1|exact Hu|by apply Hp'; auto| |done|exact R].
        intros y t' Et. split; [by eapply run_functor_upkeep|right]. intros Hc. by destruct (w_current _ _ Hi id Hc) as (_ & _ & ? & ?); congruence.
      * eapply (client_upkeep_inv false e id t false); [exact Hi1|exact E1|exact Hu|by apply Hp'; auto| |done|exact R].
        intros y t' Et. split; [by eapply run_functor_upkeep|right]. intros Hc. destruct (w_current _ _ Hi id Hc) as (_ & Hs & _).
        change (the_connector s1) with (the_connector s). rewrite (w_functors _ _ Hi), Eq. rewrite Eq in Hs. by apply settled_next in Hs.
    + pose proof (down_phase t Hu Hnc) as Hst.
      eapply (client_on_conn_inv false e id t d); [exact Hi1|exact E1| |done|exact R]. intros y t' Et.
      destruct (run_functor_down (U id) f t y t' Hu (Hdn Hst) Hl Et) as (Hs' & Hc' & He & Hf).
      destruct (w_good _ _ Hi _ _ _ E) as [Gf Gh Gt Gr].
      rewrite Hs'. split; [|split; [by apply Hp'; auto|split; [left; congruence|rewrite Hf, Gf; set_solver]]].
      split; simpl; [done|by rewrite Hc'| |]; [change (conn_events t' = told (state_ t')); by rewrite He, Hs'|].
      intros _. rewrite Hc'. by apply Gr.
Qed.

(** ** The owner of the client *)

Lemma client_inv_same s c :
  client_inv None s -> connector_ c = the_connector s -> cl_functors c = [] -> cl_nextConnId c = cl_nextConnId (client s) ->
  connection_ c = connection_ (client s) -> client_inv None (set_client c s).
Proof.
  intros [Hl Hcl Hf Ho Hd Hgo Hcnt Hc Hi Hg Hp Hj Hn] Ek Ef En Ec.
  assert (the_connector (set_client c s) = the_connector s) as Ek' by done.
  assert (∀ id, cur (set_client c s) id = cur s id) as Hcur by (intros id; unfold cur; simpl; by rewrite Ec).
  split; rewrite ?Ek'; try done; simpl; rewrite ?Ec, ?En; try done.
  - unfold connector_referenced. by rewrite Ek'.
  - intros id t d E Hne. rewrite Hcur. by apply Hp.
Qed.

(** A method of the client that comes down to one of its connector. *)
Lemma connector_call m s b k' new :
  client_inv None s -> alive s = true -> m (the_connector s) = Ok (tt, k') -> connector_ok s (loop s) k' new ->
  Connector.handed_over k' = Connector.handed_over (the_connector s) ->
  ∃ s', on_client (modify (TcpServer.set_connect b) ;; TcpServer.on_connector m) s = Ok ([], s') ∧ client_inv None s' ∧
    alive s' = true ∧ connector_alive s' = true ∧ the_connector s' = k' ∧ connection_ (client s') = connection_ (client s).
Proof.
  intros Hi Ha E Hok Hh. set (c := set_connector k' (TcpServer.set_connect b (client s))).
  assert (cl_functors c = []) as Hcl by apply (w_clean _ _ Hi).
  set (s1 := set_client (TcpServer.set_connect b (client s)) s).
  assert (client_inv None s1) as H1 by (by apply client_inv_same; [..|apply Hi| |]).
  exists (moved k' new (loop s1) s1). split; [|split; [|by split_and!; [|apply (w_owner _ _ Hi)| |]]].
  - rewrite (on_client_run _ c new s Ha).
    + rewrite Hcl, cleared_clean by done. done.
    + rewrite (bind_Ok _ _ (client s) tt (TcpServer.set_connect b (client s))) by done. unfold TcpServer.on_connector, zoom.
      change (connector_ (TcpServer.set_connect b (client s))) with (the_connector s). by rewrite E.
    + change (connector_ c) with k'. by rewrite (co_functors _ _ _ _ Hok), (w_functors _ _ Hi).
  - apply connector_inv; [done|by apply (w_owner _ _ Hi)|apply popped_here|by destruct Hok|done].
Qed.

Lemma connect_step inLoop e s :
  client_inv None s -> alive s = true -> startable (the_connector s) ->
  ∃ s', client_op U e (KConnect inLoop) s = Ok (tt, s') ∧ client_inv None s'.
Proof.
  intros Hi Ha Hst. destruct (start_life inLoop e _ (w_life _ _ Hi) Hst) as (k' & E & Hl & _ & Hh & Hn & Hf).
  destruct (connector_call (Connector.start inLoop e) s true k' (if inLoop then [] else [FStartInLoop])) as (s' & R & Hi' & _); try done.
  - split; [done|by rewrite Hf, (w_functors _ _ Hi)| |congruence].
    intros [id Hid]. destruct (w_current _ _ Hi id Hid) as (Hc & _). destruct Hst as [Hst _]. congruence.
  - exists s'. split; [|done]. unfold client_op. rewrite (bind_Ok _ _ s s s) by done. rewrite Ha. cbn [when].
    by rewrite (bind_Ok _ _ s [] s').
Qed.

(** What [stop()] does to the connector of a client. *)
Lemma stop_ok s :
  client_inv None s -> alive s = true ->
  ∃ k', Connector.stop (the_connector s) = Ok (tt, k') ∧ connector_ok s (loop s) k' [FStopInLoop] ∧
    Connector.handed_over k' = Connector.handed_over (the_connector s) ∧ Connector.connect_ k' = false ∧
    FStopInLoop ∈ Connector.functors k'.
Proof.
  intros Hi Ha. destruct (stop_life _ (w_life _ _ Hi)) as (k' & E & Hl & Hc & Hh & Hst & Hf & _).
  exists k'. split; [exact E|]. split; [|split_and!; [done|done|rewrite Hf; apply elem_of_app; right; by left]].
  split; [done|by rewrite Hf, (w_functors _ _ Hi)| |congruence].
  intros [id Hid]. rewrite Hst. split; [by apply (w_current _ _ Hi id)|set_solver].
Qed.

Lemma stop_step e s :
  client_inv None s -> alive s = true -> ∃ s', client_op U e KStop s = Ok (tt, s') ∧ client_inv None s'.
Proof.
  intros Hi Ha. destruct (stop_ok s Hi Ha) as (k' & E & Hok & Hh & _).
  destruct (connector_call Connector.stop s false k' [FStopInLoop] Hi Ha E Hok Hh) as (s' & R & Hi' & _).
  exists s'. split; [|done]. unfold client_op. rewrite (bind_Ok _ _ s s s) by done. rewrite Ha. cbn [when].
  by rewrite (bind_Ok _ _ s [] s').
Qed.

(** [shutdown()] never fails. *)
Lemma shutdown_runs e id t d inLoop s :
  conns s !! id = Some (t, d) -> functors t = [] ->
  ∃ s', on_conn e id (call (write (U id)) inLoop TcpConnection.CShutdown) s = Ok (tt, s').
Proof.
  intros E Hf.
  assert (∃ t', call (write (U id)) inLoop TcpConnection.CShutdown t = Ok (tt, t') ∧
            (functors t' = [] ∨ functors t' = [FShutdownInLoop])) as (t' & Et & Ht').
  { simpl. unfold shutdown. rewrite (bind_Ok _ _ t t t) by done. destruct (bool_decide _); [|exists t; by auto]. cbn [when].
    rewrite (bind_Ok _ _ t tt (set_state kDisconnecting t)) by done. destruct inLoop.
    - unfold shutdownInLoop. rewrite (bind_Ok _ _ _ (set_state kDisconnecting t) (set_state kDisconnecting t)) by done.
      destruct (negb _); eexists; (split; [reflexivity|by left]).
    - eexists. split; [reflexivity|right]. simpl. by rewrite Hf. }
  unfold on_conn. rewrite (bind_Ok _ _ s s s) by done. rewrite E, Et.
  destruct Ht' as [-> | ->]; eexists; reflexivity.
Qed.

Lemma disconnect_step inLoop e s :
  client_inv None s -> alive s = true -> ∃ s', client_op U e (KDisconnect inLoop) s = Ok (tt, s') ∧ client_inv None s'.
Proof.
  intros Hi Ha. set (c := TcpServer.set_connect false (client s)). set (s1 := set_client c s).
  assert (client_inv None s1) as H1 by (by apply client_inv_same; [..|apply Hi| |]).
  unfold client_op. rewrite (bind_Ok _ _ s s s) by done. rewrite Ha. cbn [when].
  assert (∀ q, cl_functors c ++ q = q) as Hcl by (intros q; by rewrite (w_clean _ _ Hi : cl_functors c = [])).
  destruct (connection_ (client s)) as [id|] eqn:Hc.
  - rewrite (bind_Ok _ _ s [TcpServer.CShutdown id] s1).
    2:{ rewrite (on_client_run _ (queue_client (TcpServer.CShutdown id) c) [] s Ha); [| |by rewrite app_nil_r].
        - simpl. rewrite Hcl. change (cleared _) with (cleared c). rewrite cleared_clean by apply (w_clean _ _ Hi). do 2 f_equal. apply push_nil.
        - unfold client_disconnect. rewrite (bind_Ok _ _ (client s) tt c), (bind_Ok _ _ c c c) by done.
          change (connection_ c) with (connection_ (client s)). by rewrite Hc. }
    destruct (w_current _ _ H1 id Hc) as (_ & _ & t & E).
    destruct (shutdown_runs e id t false inLoop s1 E) as (s2 & R); [apply (w_good _ _ H1 _ _ _ E)|].
    exists s2. split; [cbn [mapM_]; rewrite (bind_Ok _ _ s1 tt s2); [done|exact R]|].
    eapply (call_inv U e id t false inLoop); [exact H1|exact E| |exact R]. intros _. by apply bool_decide_eq_true.
  - rewrite (bind_Ok _ _ s [] s1); [by exists s1|].
    rewrite (on_client_run _ c [] s Ha); [| |by rewrite app_nil_r].
    + rewrite <- (app_nil_r (cl_functors c)), Hcl, cleared_clean by apply (w_clean _ _ Hi). do 2 f_equal. apply push_nil.
    + unfold client_disconnect. rewrite (bind_Ok _ _ (client s) tt c), (bind_Ok _ _ c c c) by done.
      change (connection_ c) with (connection_ (client s)). by rewrite Hc.
Qed.

(** [~TcpClient()] while it has no connection: the connector is stopped, and kept for a second. *)
Lemma destroy_idle inLoop e s :
  client_inv None s -> alive s = true -> connection_ (client s) = None ->
  ∃ s', destroy U inLoop e s = Ok (tt, s') ∧ client_inv None s'.
Proof.
  intros Hi Ha Hc. destruct (stop_ok s Hi Ha) as (k' & E & Hok & Hh & Hoff & Hin).
  pose proof (connector_inv None s (loop s) k' [FStopInLoop] Hi (w_owner _ _ Hi Ha) (popped_here s) Hok Hh) as H1.
  set (s1 := moved k' [FStopInLoop] (loop s) s) in *.
  exists (set_lives false (connector_alive s1) true (set_client (TcpServer.set_connection None (client s1)) s1)). split.
  - unfold destroy. rewrite (bind_Ok _ _ s s s) by done. rewrite Hc. cbv zeta. rewrite (bind_Ok _ _ s [] s1); [done|].
    set (c := set_connector k' (client s)).
    rewrite (on_client_run _ c [FStopInLoop] s Ha).
    + rewrite cleared_clean by apply (w_clean _ _ Hi). by rewrite (w_clean _ _ Hi : cl_functors c = []).
    + unfold TcpClient_dtor. rewrite (bind_Ok _ _ (client s) (client s) (client s)) by done. rewrite Hc.
      unfold TcpServer.on_connector, zoom. change (connector_ (client s)) with (the_connector s). by rewrite E.
    + change (connector_ c) with k'. by rewrite (co_functors _ _ _ _ Hok), (w_functors _ _ Hi).
  - destruct H1 as [Hl Hcl Hf Ho Hd Hgo Hcnt Hcu Hid Hg Hp Hj Hn]. split; try done.
    + intros _. split_and!; [done|done|by left|by right].
    + intros X. change (connector_alive s = false) in X. by rewrite (w_owner _ _ Hi Ha) in X.
    + intros id t d X Hne. specialize (Hp id t d X Hne). unfold cur in *.
      change (connection_ (client s1)) with (connection_ (client s)) in Hp. by rewrite Hc in Hp.
Qed.

(** The connection of a client that is gone: it will be closed. *)
Definition orphan (t : TcpConnection) : TcpConnection := set_functors [] (set_state kDisconnecting t).

Definition orphaned (id : Z) (t : TcpConnection) (s : World) : World :=
  set_lives false (connector_alive s) false
    (set_client (TcpServer.set_connection None (client s))
      (push [TConn id (JConn FForceCloseInLoop)] (set_conn id (orphan t) true s))).

Lemma orphaned_inv id t s :
  client_inv None s -> connection_ (client s) = Some id -> conns s !! id = Some (t, false) -> alive s = true ->
  Connector.functors (the_connector s) = [] -> client_inv None (orphaned id t s).
Proof.
  intros Hi Hc E Ha Hfn. destruct (w_current _ _ Hi id Hc) as (Hst & _).
  pose proof (w_phase _ _ Hi _ _ _ E ltac:(done)) as Hph. unfold cur in Hph. rewrite bool_decide_eq_true_2 in Hph by done.
  destruct (cphase_current _ _ _ Hph) as [_ Hu].
  destruct Hi as [Hl Hcl Hf Ho Hd Hgo Hcnt Hcu Hid Hg Hp Hj Hn]. destruct (Hg _ _ _ E) as [Gf Gh Gt Gr].
  assert (queue (orphaned id t s) = queue s ++ [TConn id (JConn FForceCloseInLoop)]) as Hq by apply todo_pushed.
  split; try done; change (the_connector (orphaned id t s)) with (the_connector s); rewrite ?Hq; simpl.
  - rewrite Hf. by autorewrite with queue.
  - intros _. split_and!; [done|done|by right|left; congruence].
  - rewrite (Ho Ha). done.
  - intros id' x. rewrite lookup_insert_Some. intros [[<- _]|[_ X]]; by eapply Hid.
  - intros id' t' d'. rewrite lookup_insert_Some. intros [[<- [= <- _]]|[_ X]]; [|by eapply Hg].
    split; simpl; [done|done|change (conn_events t = [true]); by rewrite Gt; destruct Hu as [-> | ->]|intros X; destruct X; by right].
  - intros id' t' d'. rewrite lookup_insert_Some. autorewrite with queue. intros [[<- [= <- <-]]|[Hne X]] _.
    + rewrite decide_True by done. split; [done|]. simpl. split; [apply Exists_app; right; constructor; by right|].
      exists (jobs_of id (queue s) ++ [JConn FForceCloseInLoop]), []. rewrite app_nil_r. split_and!; [done| |done].
      apply Forall_app. split; [|by repeat constructor]. destruct Hph as [_ Hph]. by destruct Hu as [Hu|Hu]; rewrite Hu in Hph.
    + rewrite decide_False, app_nil_r by done. specialize (Hp _ _ _ X ltac:(done)). unfold cur in *.
      change (connection_ (client (orphaned id t s))) with (@None Z). rewrite Hc in Hp.
      by rewrite bool_decide_eq_false_2 in Hp by congruence.
  - intros id' j. rewrite elem_of_app, list_elem_of_singleton, lookup_insert_is_Some. destruct (decide (id = id')); [by left|].
    intros [X|[= -> ->]]; [right; split; [done|by eapply Hj]|done].
  - intros id'. rewrite elem_of_app, list_elem_of_singleton. intros [X|[=]]. by eapply Hn.
Qed.

(** [~TcpClient()] while it has a connection that nobody else keeps. *)
Lemma destroy_connected e id s :
  client_inv None s -> alive s = true -> connection_ (client s) = Some id -> Connector.functors (the_connector s) = [] ->
  shared s id = false -> ∃ s', destroy U true e s = Ok (tt, s') ∧ client_inv None s'.
Proof.
  intros Hi Ha Hc Hfn Hsh. destruct (w_current _ _ Hi id Hc) as (_ & _ & t & E).
  exists (orphaned id t s). split; [|by apply orphaned_inv].
  unfold destroy. rewrite (bind_Ok _ _ s s s) by done. rewrite Hc. cbv zeta. rewrite Hsh. cbn [negb].
  assert (set_client (client s) s = s) as Hsame by (by destruct s).
  rewrite (bind_Ok _ _ s [CSetCloseCallback id; TcpServer.CForceClose id] s).
  2:{ rewrite (on_client_run _ (queue_client (TcpServer.CForceClose id) (queue_client (CSetCloseCallback id) (client s))) [] s Ha);
        [| |by rewrite app_nil_r].
      - change (cl_functors (queue_client _ _)) with ((cl_functors (client s) ++ [CSetCloseCallback id]) ++ [TcpServer.CForceClose id]).
        rewrite (w_clean _ _ Hi). change (cleared _) with (cleared (client s)). rewrite cleared_clean by apply (w_clean _ _ Hi).
        do 2 f_equal. rewrite Hsame. apply push_nil.
      - unfold TcpClient_dtor. rewrite (bind_Ok _ _ (client s) (client s) (client s)) by done. by rewrite Hc. }
  set (s1 := set_conn id t true s).
  assert (conns s1 !! id = Some (t, true)) as E1 by apply lookup_insert_eq.
  set (s2 := push [TConn id (JConn FForceCloseInLoop)] (set_conn id (orphan t) true s1)).
  assert (on_conn e id (call (write (U id)) true TcpConnection.CForceClose) s1 = Ok (tt, s2)) as R.
  { unfold on_conn. rewrite (bind_Ok _ _ s1 s1 s1) by done. rewrite E1. simpl. unfold forceClose.
    pose proof (w_phase _ _ Hi _ _ _ E ltac:(done)) as Hph. unfold cur in Hph. rewrite bool_decide_eq_true_2 in Hph by done.
    destruct (cphase_current _ _ _ Hph) as [_ Hu].
    assert (bool_decide (state_ t = kConnected) || bool_decide (state_ t = kDisconnecting) = true) as Hb by (by destruct Hu as [-> | ->]).
    rewrite (bind_Ok _ _ t t t) by done. rewrite Hb. cbn [when].
    rewrite (bind_Ok _ _ t tt (set_state kDisconnecting t)) by done. unfold TcpConnection.queueInLoop, modify.
    change (functors (set_state kDisconnecting t)) with (functors t). by rewrite (go_functors _ (w_good _ _ Hi _ _ _ E)). }
  rewrite (bind_Ok _ _ s tt s2).
  2:{ cbn [mapM_ client_functor]. rewrite (bind_Ok _ _ s tt s1) by (unfold setCloseCallback; rewrite (bind_Ok _ _ s s s) by done; by rewrite E).
      by rewrite (bind_Ok _ _ s1 tt s2) by exact R. }
  unfold modify, orphaned. f_equal. f_equal. unfold s2, s1, set_conn, set_conns, push, set_queue, set_lives, set_client. simpl.
  by rewrite insert_insert_eq.
Qed.

(** * Runs *)

(** The client is told to connect when its connector has nothing under way; another thread calls
    its connection, and none that it has let go; and it is destroyed, if it has a connection,
    in the loop's thread, when the connector's functors have run and nobody else keeps the
    connection. *)
Definition client_polite (o : ClientOp) (s : World) : Prop :=
  match o with
  | KConnect _ => startable (the_connector s)
  | KDestroy inLoop =>
      match connection_ (client s) with
      | Some id => inLoop = true ∧ Connector.functors (the_connector s) = [] ∧ shared s id = false
      | None => True
      end
  | KCall id false _ => connection_ (client s) = Some id
  | _ => True
  end.

(** The operations that never fail: the owner's, and the timers. *)
Definition steady (o : ClientOp) : bool :=
  match o with
  | KConnect _ | KDisconnect _ | KStop | KEnableRetry | KSetWriteComplete | KDestroy _ | KTimer | KKeeper | KHold _ | KRelease _ => true
  | _ => false
  end.

Lemma keeper_inv s :
  client_inv None s -> keeper s = true -> Connector.functors (the_connector s) = [] ->
  client_inv None (set_lives (alive s) (connector_alive s) false s).
Proof.
  intros [Hl Hcl Hf Ho Hd Hgo Hcnt Hcu Hid Hg Hp Hj Hn] Hk Hfn. split; try done.
  - intros Ha. destruct (Hd Ha) as (? & _ & ? & ?). by split_and!.
  - intros Ha. simpl in Ha. specialize (Hgo Ha). unfold connector_referenced in *. rewrite Hk in Hgo. by rewrite orb_true_r in Hgo.
Qed.

Lemma steady_step e o s :
  client_inv None s -> client_polite o s -> steady o = true -> ∃ s', client_op U e o s = Ok (tt, s') ∧ client_inv None s'.
Proof.
  intros Hi Hp Hst. destruct o as [b|b| | | |b|r err self p g| | | |id r rv|id b c|id|id]; try done.
  1,2,3,4,5,6: destruct (alive s) eqn:Ha;
    [|exists s; split; [|done]; unfold client_op; rewrite (bind_Ok _ _ s s s) by done; by rewrite Ha].
  - by apply connect_step.
  - by apply disconnect_step.
  - by apply stop_step.
  - exists (set_client (enableRetry (client s)) s). split; [|by apply client_inv_same; [..|apply Hi| |]].
    unfold client_op. rewrite (bind_Ok _ _ s s s) by done. by rewrite Ha.
  - exists (set_client (client_setWriteCompleteCallback (client s)) s). split; [|by apply client_inv_same; [..|apply Hi| |]].
    unfold client_op. rewrite (bind_Ok _ _ s s s) by done. by rewrite Ha.
  - assert (client_op U e (KDestroy b) s = destroy U b e s) as ->.
    { unfold client_op. rewrite (bind_Ok _ _ s s s) by done. by rewrite Ha. }
    simpl in Hp. destruct (connection_ (client s)) as [id|] eqn:Hc; [|by apply destroy_idle].
    destruct Hp as (-> & Hf & Hsh). by eapply destroy_connected.
  - unfold client_op. rewrite (bind_Ok _ _ s s s) by done. cbv zeta. destruct (polling s); [|by exists s].
    destruct (decide (timers (the_connector s) = [])) as [Ht|Ht]; [rewrite bool_decide_true by done; by exists s|].
    destruct (timer_step e s Hi Ht) as (s' & R & Hi'). exists s'. split; [|done]. by rewrite bool_decide_false.
  - unfold client_op. rewrite (bind_Ok _ _ s s s) by done. cbv zeta.
    destruct (polling s); [|by exists s]. destruct (keeper s) eqn:Hk; [|by exists s]. destruct (decide (Connector.functors (the_connector s) = [])) as [Hf|Hf].
    + rewrite bool_decide_true by done. eexists. split; [reflexivity|]. by apply keeper_inv.
    + rewrite bool_decide_false by done. by exists s.
  - unfold client_op. rewrite (bind_Ok _ _ s s s) by done. cbv zeta. destruct (bool_decide _); [|by exists s].
    eexists. split; [reflexivity|]. by apply client_inv_held.
  - unfold client_op. rewrite (bind_Ok _ _ s s s) by done. eexists. split; [reflexivity|]. by apply client_inv_held.
Qed.

(** The loop swaps its vector. *)
Lemma swapped_inv s :
  client_inv None s -> calling (loop s) = [] -> client_inv None (set_queue (swapped (loop s)) s).
Proof.
  intros [Hl Hcl Hf Ho Hd Hgo Hcnt Hc Hi Hg Hp Hj Hn] Ec.
  assert (queue (set_queue (swapped (loop s)) s) = queue s) as Hq by (by apply todo_swapped).
  split; rewrite ?Hq; try done.
Qed.

Lemma client_op_inv e o s x s' :
  client_inv None s -> client_polite o s -> client_op U e o s = Ok (x, s') -> client_inv None s'.
Proof.
  intros Hi Hp R. destruct (steady o) eqn:Hst.
  { destruct (steady_step e o s Hi Hp Hst) as (s2 & R2 & Hi2). congruence. }
  destruct o as [b|b| | | |b|r err self p g| | | |id r rv|id b c|id|id]; try done;
    unfold client_op in R; rewrite (bind_Ok _ _ s s s) in R by done; cbv zeta in R.
  - destruct (polling s); [|by injection R as _ <-]. cbn [andb] in R.
    destruct (bool_decide_reflect (is_Some (Connector.channel_ (the_connector s)))) as [Hch|]; [|by injection R as _ <-].
    eapply socket_inv; [exact Hi| |exact R]. apply connector_busy; auto.
  - destruct (calling (loop s)) as [|t ts] eqn:Ec; [injection R as _ <-; by apply swapped_inv|].
    pose proof (queue_taken t ts s Ec) as Eq. rewrite (bind_Ok _ _ s tt (set_queue (taken t ts (loop s)) s)) in R by done.
    destruct t as [f|id j|id].
    + destruct (functor_step e f _ s Hi Eq) as (s2 & R2 & Hi2). congruence.
    + by eapply job_inv.
    + destruct (w_close _ _ Hi id). rewrite Eq. by left.
  - destruct (conns s !! id) as [[t d]|] eqn:E; [|by injection R as _ <-].
    destruct (polling s); [|by injection R as _ <-]. destruct (addedToLoop_ (channel_ t)) eqn:Had; [|by injection R as _ <-]. simpl in R.
    destruct (isNoneEvent (channel_ t)); [by injection R as _ <-|]. cbn [negb andb] in R.
    destruct (bool_decide_reflect (connection_ (client s) = Some id ∧ FResetChannel ∈ Connector.functors (the_connector s))) as [|Hres];
      [by injection R as _ <-|]. cbn [negb when] in R.
    eapply (client_upkeep_inv false e id t d); [by apply client_inv_weaken|exact E| |by apply (w_phase _ _ Hi)| |done|exact R].
    + destruct (decide (up t)) as [|Hu]; [done|]. by rewrite (go_resting _ (w_good _ _ Hi _ _ _ E) Hu) in Had.
    + intros y t' Et. split; [by eapply handle_event_upkeep|right]. intros Hc X. by apply Hres.
  - destruct (bool_decide (id ∈ held s)); [|by injection R as _ <-]. cbn [andb] in R.
    destruct (bool_decide_reflect (is_Some (conns s !! id))) as [[[t d] E]|]; [|by injection R as _ <-]. cbn [when] in R.
    eapply (call_inv U e id t d b); [exact Hi|exact E| |exact R]. intros ->. by apply bool_decide_eq_true.
Qed.

(** ** Freeing *)

Lemma job_shared s id j : TConn id j ∈ queue s -> raw j = false -> referenced s id = true.
Proof.
  intros Hin Hr. unfold referenced, shared. rewrite !orb_true_iff. right. right. apply existsb_exists. exists (TConn id j).
  split; [apply list_elem_of_In, elem_of_app; by right|]. simpl. by rewrite Hr, Z.eqb_refl.
Qed.

(** Somebody keeps a connection that is up, and one for which a functor waits. *)
Lemma up_referenced s id t d :
  client_inv None s -> conns s !! id = Some (t, d) -> up t -> referenced s id = true.
Proof.
  intros Hi E Hu. destruct (cur s id) eqn:Hc; [unfold referenced; by rewrite (Hc : bool_decide _ = true)|].
  pose proof (w_phase _ _ Hi _ _ _ E ltac:(done)) as Hp. rewrite Hc in Hp.
  destruct (cphase_kept _ _ _ Hp Hu) as [Hj|Hj]; apply jobs_of_elem in Hj; by eapply job_shared.
Qed.

Lemma client_job_referenced s id j : client_inv None s -> TConn id j ∈ queue s -> referenced s id = true.
Proof.
  intros Hi Hin. destruct (raw j) eqn:Hr; [|by eapply job_shared]. destruct (w_jobs _ _ Hi id j Hin) as [[t d] E].
  eapply up_referenced; [done|exact E|]. eapply (cphase_raw _ _ _ _ j); [by apply (w_phase _ _ Hi _ _ _ E)|by apply jobs_of_elem|done].
Qed.

Lemma freed_down s id t d :
  client_inv None s -> conns s !! id = Some (t, d) -> referenced s id = false -> state_ t = kDisconnected.
Proof.
  intros Hi E Hr. destruct (decide (up t)) as [Hu|Hu]; [by rewrite (up_referenced s id t d) in Hr|].
  apply down_phase; [done|]. pose proof (w_phase _ _ Hi _ _ _ E ltac:(done)) as Hp.
  unfold client_phase in Hp. destruct d; [destruct Hp as [_ Hp]; by intros X; rewrite X in Hp|by destruct Hp].
Qed.

Lemma conns_inv s :
  client_inv None s ->
  client_inv None (set_conns (filter (λ x, referenced s x.1 = true) (conns s)) s).
Proof.
  intros Hi. pose proof Hi as [Hl Hcl Hf Ho Hd Hgo Hcnt Hcu Hid Hg Hp Hj Hn].
  assert (∀ id x, filter (λ x, referenced s x.1 = true) (conns s) !! id = Some x <-> conns s !! id = Some x ∧ referenced s id = true) as Hlook
    by (intros; apply map_lookup_filter_Some).
  split; try done; simpl.
  - intros id Hc. destruct (Hcu id Hc) as (? & ? & t & E). split_and!; try done. exists t. apply Hlook. split; [done|].
    unfold referenced. by rewrite bool_decide_eq_true_2.
  - intros id x [X _]%Hlook. by eapply Hid.
  - intros id t d [X _]%Hlook. by eapply Hg.
  - intros id t d [X _]%Hlook. by apply Hp.
  - intros id j Hin. destruct (Hj id j Hin) as [x X]. exists x. apply Hlook. split; [done|]. by eapply client_job_referenced.
Qed.

(** Nothing is freed too early. *)
Lemma client_collect_inv s :
  client_inv None s ->
  ∃ s', collect s = Ok (tt, s') ∧ client_inv None s' ∧
    (∀ id, is_Some (conns s' !! id) -> referenced s' id = true) ∧
    (connector_alive s' = true -> connector_referenced s' = true) ∧
    (∀ id t d, conns s !! id = Some (t, d) -> conns s' !! id = None -> conn_events t = [true; false]).
Proof.
  intros Hi. set (s1 := set_conns (filter (λ x, referenced s x.1 = true) (conns s)) s).
  pose proof (conns_inv s Hi : client_inv None s1) as H1.
  assert (∀ id x, conns s1 !! id = Some x <-> conns s !! id = Some x ∧ referenced s id = true) as Hlook
    by (intros; apply map_lookup_filter_Some).
  assert (∀ id t d, conns s !! id = Some (t, d) -> conns s1 !! id = None -> conn_events t = [true; false]) as Hfreed.
  { intros id t d E X. destruct (referenced s id) eqn:Hr; [by rewrite (proj2 (Hlook id (t, d))) in X|].
    rewrite (go_told _ (w_good _ _ Hi _ _ _ E)). by rewrite (freed_down s id t d Hi E Hr). }
  assert (∀ id, is_Some (conns s1 !! id) -> referenced s1 id = true) as Hkept by (by intros id [x [_ X]%Hlook]).
  assert (collect s = (when (connector_alive s && negb (connector_referenced s))
    (assert (is_ok (Connector_dtor (the_connector s))) ;; modify (set_lives (alive s) false (keeper s)))) s1) as ->.
  { unfold collect. rewrite (bind_Ok _ _ s s s) by done. rewrite (bind_Ok _ _ s tt s).
    - by rewrite (bind_Ok _ _ s tt s1).
    - apply assert_Ok, forallb_forall. intros [id [t d]] Hin%list_elem_of_In%elem_of_map_to_list. apply orb_true_iff. cbn [fst snd].
      destruct (referenced s id) eqn:Hr; [by left|right]. pose proof (freed_down s id t d Hi Hin Hr) as Hst.
      destruct (w_good _ _ Hi _ _ _ Hin) as [_ Hh _ Ha]. unfold Channel_dtor. rewrite Hh, Ha; [done|].
      unfold up. rewrite Hst. by intros [|]. }
  destruct (connector_alive s) eqn:Hca; cbn [andb].
  2:{ exists s1. split; [done|]. split; [done|]. split; [done|]. split; [|done].
      change (connector_alive s1) with (connector_alive s). by rewrite Hca. }
  destruct (connector_referenced s) eqn:Hcr; cbn [negb].
  { exists s1. split; [done|]. split; [done|]. split; [done|]. by split. }
  pose proof Hcr as Hcr'. unfold connector_referenced in Hcr'. rewrite !orb_false_iff in Hcr'. destruct Hcr' as [[Hal Hk] _].
  destruct (w_dead _ _ Hi Hal) as (_ & Hfn & _ & Hst). specialize (Hfn Hk).
  assert (Connector.channel_ (the_connector s) = None) as Hch.
  { apply idle_no_channel; [apply Hi| |done]. destruct Hst as [?|Hst]; [done|]. rewrite Hfn in Hst. set_solver. }
  exists (set_lives (alive s) false (keeper s) s1). split; [|split; [|by split]].
  - cbn [when]. rewrite (bind_Ok _ _ s1 tt s1); [done|]. apply assert_Ok. unfold Connector_dtor.
    rewrite (bind_Ok _ _ (the_connector s) (the_connector s) (the_connector s)) by done. by rewrite Hch.
  - destruct H1 as [Hl Hcl Hf Ho Hd Hgo Hcnt Hcu Hid Hg Hp Hj Hn]. split; try done.
    intros Ha. simpl in Ha. congruence.
Qed.

Definition client_moves (s s' : World) : Prop := ∃ e o, client_polite o s ∧ client_step U e o s = Ok (tt, s').

Record client_kept (s : World) : Prop := {
  ck_inv : client_inv None s;
  ck_conns id : is_Some (conns s !! id) -> referenced s id = true;
  ck_connector : connector_alive s = true -> connector_referenced s = true }.

Lemma fresh_client g nm : client_kept (new_World (new_TcpClient (new_Connector g) nm)).
Proof.
  split; [split; simpl; try done|by intros id [x X]|done].
  - apply new_life.
  - intros id j Hin. by apply elem_of_nil in Hin.
  - intros id Hin. by apply elem_of_nil in Hin.
Qed.

Lemma client_moves_kept s s' : client_kept s -> client_moves s s' -> client_kept s'.
Proof.
  intros [Hi _ _] (e & o & Hp & E). unfold client_step in E. apply bind_inv in E as ([] & s1 & E1 & E).
  pose proof (client_op_inv e o s tt s1 Hi Hp E1) as Hi1. destruct (client_collect_inv s1 Hi1) as (s2 & E2 & Hi2 & Hc & Hk & _).
  rewrite E in E2. injection E2 as <-. by split.
Qed.

Lemma reachable_client g nm s : rtc client_moves (new_World (new_TcpClient (new_Connector g) nm)) s -> client_kept s.
Proof. apply (rtc_invariant client_moves); [apply client_moves_kept|apply fresh_client]. Qed.

(** What the loop finds when it takes up its next functor. *)
Definition client_ready (s : World) (t : Task) : Prop :=
  match t with
  | TConnector _ => connector_alive s = true ∧ ∀ e, ∃ s', client_op U e KRun s = Ok (tt, s')
  | TConn id j => ∃ t d, conns s !! id = Some (t, d) ∧ (raw j = true -> up t) ∧
      (j = JDestroyed -> up t ∨ d = true ∧ state_ t = kDisconnected)
  | TSetClose _ => False
  end.

Lemma next_client_ready s t ts : client_inv None s -> calling (loop s) = t :: ts -> client_ready s t.
Proof.
  intros Hi Ec. pose proof (queue_taken t ts s Ec) as Eq. destruct t as [f|id j|id]; simpl.
  - split.
    + apply connector_busy; [done|left]. rewrite (w_functors _ _ Hi), Eq. done.
    + intros e. destruct (functor_step e f _ s Hi Eq) as (s' & R & _). exists s'.
      unfold client_op. rewrite (bind_Ok _ _ s s s) by done. cbv zeta. rewrite Ec.
      by rewrite (bind_Ok _ _ s tt (set_queue (taken (TConnector f) ts (loop s)) s)).
  - assert (TConn id j ∈ queue s) as Hin by (rewrite Eq; by left). destruct (w_jobs _ _ Hi id j Hin) as [[t d] E].
    exists t, d. split; [done|]. pose proof (w_phase _ _ Hi _ _ _ E ltac:(done)) as Hp. split.
    + intros Hr. eapply (cphase_raw _ _ _ _ j); [exact Hp|by apply jobs_of_elem|done].
    + intros ->. rewrite Eq in Hp. set (q := todo _) in Hp.
      change (TConn id JDestroyed :: q) with ([TConn id JDestroyed] ++ q) in Hp. rewrite jobs_of_app, jobs_of_conn, decide_True in Hp by done.
      by apply cphase_destroyed in Hp as (_ & _ & ?).
  - destruct (w_close _ _ Hi id). rewrite Eq. by left.
Qed.

(** C6: a client, its connector and its connections, for polite users: the owner connects when
    the connector has nothing under way, and destroys a client that has a connection in the
    loop's thread, when the connector's functors have run and nobody else, no functor of the
    loop's vector either, keeps the connection; and other threads call the client's current
    connection only ([client_accidents] shows what comes of other uses).  In whatever order
    sockets, timers, functors and such calls come, every socket of the connector was closed, is
    being connected, or became exactly one connection; the client's connection is up, and its
    connector settled; what the user was told of each connection, and the functors that wait
    for it, agree with its state.  The owner's polite operations, the timers and the
    connector's functors never fail; an event of the connecting socket finds the connector
    alive, and if it hands the socket over, the client alive and without a connection; and
    connections and the connector are freed only when they are done. *)
Theorem client_system g nm s :
  rtc client_moves (new_World (new_TcpClient (new_Connector g) nm)) s ->
  let k := the_connector s in
  (∀ id t d, conns s !! id = Some (t, d) ->
     conn_events t = told (state_ t) ∧ client_phase (cur s id) d (jobs_of id (queue s)) (state_ t)) ∧
  (Connector.closed k ++ Connector.handed_over k ++ Connector.open k ≡ₚ seqZ 0 (created k) ∧
   zlen (Connector.handed_over k) = cl_nextConnId (client s) - 1 ∧
   ∀ id, connection_ (client s) = Some id ->
     Connector.state_ k = Connector.kConnected ∧ ∃ t, conns s !! id = Some (t, false) ∧ up t) ∧
  (∀ t ts, calling (loop s) = t :: ts -> client_ready s t) ∧
  (∀ e o, client_polite o s -> steady o = true -> ∃ s', client_op U e o s = Ok (tt, s')) ∧
  (∀ r err self, is_Some (Connector.channel_ k) -> connector_alive s = true ∧
     ∃ k', Connector.do_op (Connector.OEvent r err self) k = Ok (tt, k') ∧
       (Connector.handed_over k' = Connector.handed_over k ∨
        Connector.handed_over k' = Connector.handed_over k ++ [Connector.sockfd_ k'] ∧
        alive s = true ∧ connection_ (client s) = None)) ∧
  (∀ e o s1, client_polite o s -> client_op U e o s = Ok (tt, s1) -> ∃ s2, collect s1 = Ok (tt, s2) ∧
     ∀ id t d, conns s1 !! id = Some (t, d) -> conns s2 !! id = None -> conn_events t = [true; false]).
Proof.
  intros Hr k. destruct (reachable_client g nm s Hr) as [Hi _ _]. split; [|split; [|split; [|split; [|split]]]].
  - intros id t d E. split; [by apply (w_good _ _ Hi _ _ _ E)|by apply (w_phase _ _ Hi)].
  - split; [apply (w_life _ _ Hi)|]. split; [apply (w_count _ _ Hi)|]. intros id Hc.
    destruct (w_current _ _ Hi id Hc) as (Hst & _ & t & E). split; [done|]. exists t. split; [done|].
    pose proof (w_phase _ _ Hi _ _ _ E ltac:(done)) as Hp. unfold cur in Hp. rewrite bool_decide_eq_true_2 in Hp by done.
    by apply cphase_current in Hp as [_ ?].
  - intros t ts Ec. by eapply next_client_ready.
  - intros e o Hp Hst. destruct (steady_step e o s Hi Hp Hst) as (s' & R & _). by exists s'.
  - intros r err self Hch. split; [apply connector_busy; auto|].
    destruct (socket_event r err self s Hi) as (k' & E & H). exists k'. split; [exact E|].
    destruct H as [[_ Hh]|(_ & _ & _ & Hh & Ha & Hn)]; [by left|right; by split_and!].
  - intros e o s1 Hp R. pose proof (client_op_inv e o s tt s1 Hi Hp R) as H1.
    destruct (client_collect_inv s1 H1) as (s2 & E2 & _ & _ & _ & Hd). by exists s2.
Qed.

(** A client that is gone leaves nothing behind: when no functor and no timer is pending and the
    user keeps no connection, there is no connection and no connector. *)
Lemma client_leaves_nothing g nm s :
  rtc client_moves (new_World (new_TcpClient (new_Connector g) nm)) s ->
  alive s = false -> loop s = no_functors -> held s = ∅ -> keeper s = false -> timers (the_connector s) = [] ->
  conns s = ∅ ∧ connector_alive s = false.
Proof.
  intros Hr Ha Hq Hh Hk Ht. destruct (reachable_client g nm s Hr) as [Hi Hc Hcon]. split.
  - apply map_eq. intros id. rewrite lookup_empty. destruct (conns s !! id) as [x|] eqn:E; [|done].
    specialize (Hc id ltac:(by rewrite E)). unfold referenced, shared, queue, todo in Hc. rewrite Hh, Hq in Hc.
    rewrite (proj1 (w_dead _ _ Hi Ha)) in Hc. rewrite !bool_decide_eq_false_2 in Hc by (done || set_solver). done.
  - destruct (connector_alive s); [|done]. specialize (Hcon eq_refl). unfold connector_referenced in Hcon.
    rewrite Ha, Hk, Ht in Hcon. done.
Qed.
End steps.

(** * Runs *)

Definition sample_client : World := new_World (new_TcpClient (new_Connector 0) []).
Definition salute (b : bool) : list Call := if b then [CSend (take 3 hello)] else [].
Definition client_users (id : Z) : User := mkUser write3 salute echo [] (λ _, []).

Definition client_run (ops : list (Z * ClientOp)) : res (unit * World) :=
  mapM_ (λ x, client_step client_users x.1 x.2) ops sample_client.

(** The loop swaps its vector of functors and calls one, or [n]. *)
Definition calls (n : nat) : list (Z * ClientOp) := repeat (0, KRun) (S n).

(** The connection comes up, and its connector's channel is reset. *)
Definition connects : list (Z * ClientOp) := [(EINPROGRESS, KConnect true); (0, KSocket POLLOUT 0 false [] 0)].
Definition comes_up : list (Z * ClientOp) := connects ++ calls 1.

Definition server_closes (id : Z) : Z * ClientOp := (EINPROGRESS, KEvent id POLLIN (λ _ _, inr [])).

(** What an owner had better not do.  Connecting again when the connection went down and the
    client does not retry: the connector is still in [kConnected].  Destroying a client
    before its connector's channel was reset; right after [stop()]; while the user keeps
    its connection, which is not closed then, and not up to being freed; when the server
    closes the connection at the same time; or from another thread, whose [setCloseCallback]
    comes too late. *)
Lemma client_accidents :
  is_ok (client_run comes_up) = true ∧
  client_run (comes_up ++ [server_closes 1] ++ calls 1 ++ [(EINPROGRESS, KConnect true)]) = Fault AssertFail ∧
  client_run [(EINPROGRESS, KConnect true); (0, KSocket POLLOUT 0 false [] 0); (0, KDestroy true)] = Fault AssertFail ∧
  client_run (comes_up ++ [(0, KStop); (0, KDestroy true)] ++ calls 1) = Fault UB ∧
  client_run (comes_up ++ [(0, KHold 1); (0, KDestroy true); (0, KRelease 1)]) = Fault AssertFail ∧
  client_run (comes_up ++ [(0, KDestroy true); server_closes 1] ++ calls 2 ++ calls 1) = Fault AssertFail ∧
  client_run (comes_up ++ [(0, KDestroy false); server_closes 1]) = Fault UB.
Proof. vm_compute. split_and!; reflexivity. Qed.

(** Whether an operation is polite. *)
Definition politeb (o : ClientOp) (s : World) : bool :=
  let k := the_connector s in
  match o with
  | KConnect _ =>
      bool_decide (Connector.state_ k = Connector.kDisconnected) && bool_decide (timers k = []) &&
      negb (is_ok (of_option UB (Connector.channel_ k) tt)) && forallb (λ f, bool_decide (f = FStopInLoop)) (Connector.functors k)
  | KDestroy inLoop =>
      match connection_ (client s) with
      | Some id => inLoop && bool_decide (Connector.functors k = []) && negb (shared s id)
      | None => true
      end
  | KCall id false _ => bool_decide (connection_ (client s) = Some id)
  | _ => true
  end.

Lemma politeb_polite o s : politeb o s = true -> client_polite o s.
Proof.
  destruct o as [b|b| | | |b|r err self p g| | | |id r rv|id b c|id|id]; try done; simpl.
  - rewrite !andb_true_iff, !bool_decide_eq_true, negb_true_iff, forallb_forall. intros [[[Hst Ht] Hc] Hf]. split_and!; try done.
    + by destruct (Connector.channel_ (the_connector s)).
    + apply Forall_forall. intros f Hin. apply list_elem_of_In in Hin. by apply Hf, bool_decide_eq_true in Hin.
  - destruct (connection_ (client s)) as [id|]; [|done]. rewrite !andb_true_iff, bool_decide_eq_true, negb_true_iff. by intros [[? ?] ?].
  - destruct b; [done|]. apply bool_decide_eq_true.
Qed.

Fixpoint polite_client_run (ops : list (Z * ClientOp)) (s : World) : option World :=
  match ops with
  | [] => Some s
  | (e, o) :: ops' =>
      if politeb o s then
        match client_step client_users e o s with Ok (_, s') => polite_client_run ops' s' | Fault _ => None end
      else None
  end.

Lemma polite_client_moves ops s s' : polite_client_run ops s = Some s' -> rtc (client_moves client_users) s s'.
Proof.
  revert s. induction ops as [|[e o] ops IH]; intros s E; simpl in E; [injection E as <-; apply rtc_refl|].
  destruct (politeb o s) eqn:Hp; [|done]. destruct (client_step client_users e o s) as [[[] s1]|] eqn:E1; [|done].
  apply rtc_l with s1; [|by apply IH]. exists e, o. split; [by apply politeb_polite|done].
Qed.

(** A connection of the client tells when it has written everything, if the client was given a
    write-complete callback before it was made. *)
Lemma client_write_complete :
  queue <$> polite_client_run ((0, KSetWriteComplete) :: connects) sample_client =
    Some [TConnector FResetChannel; TConn 1 (JConn FWriteComplete)] ∧
  queue <$> polite_client_run connects sample_client = Some [TConnector FResetChannel].
Proof. split; vm_compute; reflexivity. Qed.

(** A client that retries: its connection goes down and it connects again. *)
Definition reconnects : list (Z * ClientOp) :=
  [(0, KEnableRetry)] ++ comes_up ++ [server_closes 1] ++ calls 1 ++ [(0, KSocket POLLOUT 0 false [] 0)] ++ calls 1.

Definition reconnected (s : World) : bool :=
  bool_decide (connection_ (client s) = Some 2) && bool_decide (Connector.handed_over (the_connector s) = [0; 1]) &&
  bool_decide (map fst (map_to_list (conns s)) = [2]).

Lemma reconnects_runs : match polite_client_run reconnects sample_client with Some s => reconnected s | None => false end = true.
Proof. vm_compute. reflexivity. Qed.

Lemma client_system_witness :
  ∃ s t, polite_client_run reconnects sample_client = Some s ∧ Connector.handed_over (the_connector s) = [0; 1] ∧
    Connector.state_ (the_connector s) = Connector.kConnected ∧ conns s !! 2 = Some (t, false) ∧ up t ∧ conn_events t = [true].
Proof.
  pose proof reconnects_runs as Hc. destruct (polite_client_run reconnects sample_client) as [s|] eqn:E; [|discriminate Hc].
  unfold reconnected in Hc. rewrite !andb_true_iff, !bool_decide_eq_true in Hc. destruct Hc as [[Hid Hh] _].
  destruct (client_system client_users 0 [] s (polite_client_moves _ _ _ E)) as (Hconns & (_ & _ & Hcur) & _).
  destruct (Hcur 2 Hid) as (Hst & t & Et & Hu). exists s, t. split; [reflexivity|]. split; [exact Hh|]. split; [exact Hst|].
  split; [exact Et|]. split; [exact Hu|]. destruct (Hconns 2 t false Et) as [He _]. rewrite He. by destruct Hu as [-> | ->].
Defined.
