(* ===== verification/Codec.v ===== *)
(** The protobuf codecs and dispatchers: [protobuf/descriptor_test/codec.h],
    [protobuf/codec/codec.cc] and [dispatcher.h].  The protobuf library (type names,
    serialisation, parsing) and zlib's [adler32] are parameters; the input buffer is
    the queue of the bytes received. *)
From Stdlib Require Import Strings.String.
From S2P Require Import Prelude FixedBuffer LogStream Endian.
Open Scope list_scope.

#[export] Instance byte_countable : Countable byte := inj_countable Byte.to_N Byte.of_N Byte.of_to_N.

Definition kHeaderLen : Z := 4.
Definition kMinMessageLen : Z := 2 * kHeaderLen + 2.
Definition kMaxMessageLen : Z := 64 * 1024 * 1024.

Inductive ErrorCode :=
| kNoError | kInvalidLength | kCheckSumError | kInvalidNameLen | kUnknownMessageType | kParseError.

#[export] Instance ErrorCode_eq_dec : EqDecision ErrorCode.
Proof. solve_decision. Defined.

Definition errorCodeToString (e : ErrorCode) : list byte :=
  match e with
  | kNoError => bytes "NoError"
  | kInvalidLength => bytes "InvalidLength"
  | kCheckSumError => bytes "CheckSumError"
  | kInvalidNameLen => bytes "InvalidNameLen"
  | kUnknownMessageType => bytes "UnknownMessageType"
  | kParseError => bytes "ParseError"
  end.

(** An [int32_t] in network byte order, and [asInt32]. *)
Definition be32 (x : Z) : list byte := le_bytes 4 (htobe32 (u32 x)).
Definition asInt32 (buf : list byte) : Z := s32 (be32toh (le_val (take 4 buf))).

Lemma length_be32 x : length (be32 x) = 4%nat.
Proof. apply length_le_bytes. Qed.

Lemma asInt32_be32 x rest : asInt32 (be32 x ++ rest) = s32 x.
Proof.
  unfold asInt32. rewrite take_app_le by (by rewrite length_be32).
  rewrite take_ge by (by rewrite length_be32). unfold be32. rewrite le_val_bytes.
  unfold be32toh. rewrite bswap_mod. unfold htobe32. rewrite bswap_involutive.
  unfold u32, s32. change (256 ^ Z.of_nat 4) with (2 ^ 32). by rewrite Z.mod_mod, swrap_mod.
Qed.

Lemma prefix_shorter (l1 l2 l : list byte) :
  l1 `prefix_of` l -> l2 `prefix_of` l -> (length l1 <= length l2)%nat -> l1 `prefix_of` l2.
Proof.
  intros H1 H2 Hl. destruct (prefix_weak_total l1 l2 l) as [?|H21]; [done..|].
  by rewrite (prefix_length_eq _ _ H21 Hl).
Qed.

(** Bytes that lie inside the buffer do not change when more arrive. *)
Lemma take_drop_more n k (buf more : list byte) :
  (n + k <= length buf)%nat -> take k (drop n (buf ++ more)) = take k (drop n buf).
Proof.
  intros. rewrite drop_app_le by lia. apply take_app_le. rewrite length_drop. lia.
Qed.

(** A serialised message and its type's name. *)
Class Protobuf (Msg : Type) := {
  GetTypeName : Msg -> list byte;
  AppendToString : Msg -> option (list byte);
  known_type : list byte -> bool;                      (* createMessage finds a prototype *)
  ParseFromArray : list byte -> list byte -> option Msg }.

(** A message that can be serialised is of a generated type, whose parser reads it back; the
    bytes before the name's end are not NUL. *)
Class ProtobufLaws (Msg : Type) `{Protobuf Msg} := {
  parse_serialized m d : AppendToString m = Some d ->
    known_type (GetTypeName m) = true ∧ ParseFromArray (GetTypeName m) d = Some m;
  type_name_nonempty m : GetTypeName m ≠ [] }.

Section codec.
Context {Msg : Type} `{ProtobufLaws Msg}.
Context (adler32 : list byte -> Z).

(** * Encoding *)

(** [encode(message)] *)
Definition encode (m : Msg) : list byte :=
  match AppendToString m with
  | None => []
  | Some data =>
      let typeName := GetTypeName m in
      let nameLen := s32 (zlen typeName + 1) in
      let body := be32 nameLen ++ typeName ++ [x00] ++ data in
      let checkSum := s32 (adler32 body) in
      let result := body ++ be32 checkSum in
      be32 (zlen result) ++ result
  end.

(** [fillEmptyBuffer(buf, message)], for an initialised message of the given cached
    size. *)
Definition fillEmptyBuffer (buf : list byte) (m : Msg) (byte_size : Z) : res (list byte) :=
  if zlen buf =? 0 then
    match AppendToString m with
    | None => Fault FatalLog
    | Some data =>
        if zlen data =? byte_size then
          let typeName := GetTypeName m in
          let nameLen := s32 (zlen typeName + 1) in
          let buf := be32 nameLen ++ typeName ++ [x00] ++ data in
          let buf := buf ++ be32 (s32 (adler32 buf)) in
          Ok (be32 (zlen buf) ++ buf)
        else Fault FatalLog
    end
  else Fault AssertFail.

(** * Decoding *)

(** [parse(buf, len, error)]: the message or the error. *)
Definition parse (buf : list byte) (len : Z) : ErrorCode + Msg :=
  let expectedCheckSum := asInt32 (drop (Z.to_nat (len - kHeaderLen)) buf) in
  let checkSum := s32 (adler32 (take (Z.to_nat (len - kHeaderLen)) buf)) in
  if checkSum =? expectedCheckSum then
    let nameLen := asInt32 buf in
    if (2 <=? nameLen) && (nameLen <=? len - 2 * kHeaderLen) then
      let typeName := take (Z.to_nat (nameLen - 1)) (drop (Z.to_nat kHeaderLen) buf) in
      if known_type typeName then
        let dataLen := len - nameLen - 2 * kHeaderLen in
        match ParseFromArray typeName (take (Z.to_nat dataLen) (drop (Z.to_nat (kHeaderLen + nameLen)) buf)) with
        | Some message => inr message
        | None => inl kParseError
        end
      else inl kUnknownMessageType
    else inl kInvalidNameLen
  else inl kCheckSumError.

(** [decode(buf)], of a message without its length. *)
Definition decode (buf : list byte) : option Msg :=
  let len := s32 (zlen buf) in
  if 10 <=? len then
    let expectedCheckSum := asInt32 (drop (Z.to_nat (zlen buf - kHeaderLen)) buf) in
    let checkSum := s32 (adler32 (take (Z.to_nat (len - kHeaderLen)) buf)) in
    if checkSum =? expectedCheckSum then
      let nameLen := asInt32 buf in
      if (2 <=? nameLen) && (nameLen <=? len - 2 * kHeaderLen) then
        let typeName := take (Z.to_nat (nameLen - 1)) (drop (Z.to_nat kHeaderLen) buf) in
        if known_type typeName then
          let dataLen := len - nameLen - 2 * kHeaderLen in
          ParseFromArray typeName (take (Z.to_nat dataLen) (drop (Z.to_nat (kHeaderLen + nameLen)) buf))
        else None
      else None
    else None
  else None.

(** [defaultErrorCallback(conn, ...)]: the line it logs, and whether it shuts the connection
    down; [connected] is [None] for a null pointer. *)
Definition defaultErrorCallback (connected : option bool) (errorCode : ErrorCode) : list byte * bool :=
  (bytes "ProtobufCodec::defaultErrorCallback - " ++ errorCodeToString errorCode,
   match connected with Some b => b | None => false end).

(** [send(conn, message)]: what [conn->send] is given. *)
Definition codec_send (m : Msg) (byte_size : Z) : res (list byte) := fillEmptyBuffer [] m byte_size.

(** ** The stream *)

Record Stream := mkStream {
  inbuf : list byte;
  delivered : list Msg;               (* messageCallback_ *)
  errors : list ErrorCode }.          (* errorCallback_ *)

Definition raise_error (e : ErrorCode) (s : Stream) : Stream :=
  mkStream (inbuf s) (delivered s) (errors s ++ [e]).

(** The loop of [onMessage]; every turn takes a message off the buffer. *)
Fixpoint onMessage_loop (fuel : nat) (s : Stream) : Stream :=
  match fuel with
  | O => s
  | S fuel' =>
      let buf := inbuf s in
      if kMinMessageLen + kHeaderLen <=? zlen buf then
        let len := asInt32 buf in
        if (kMaxMessageLen <? len) || (len <? kMinMessageLen) then raise_error kInvalidLength s
        else if len + kHeaderLen <=? zlen buf then
          match parse (drop (Z.to_nat kHeaderLen) buf) len with
          | inr m => onMessage_loop fuel' (mkStream (drop (Z.to_nat (kHeaderLen + len)) buf) (delivered s ++ [m]) (errors s))
          | inl e => raise_error e s
          end
        else s
      else s
  end.

(** [onMessage], with as many turns as the buffer has bytes, after [data] has arrived. *)
Definition onMessage (data : list byte) (s : Stream) : Stream :=
  let buf := inbuf s ++ data in
  onMessage_loop (length buf) (mkStream buf (delivered s) (errors s)).

(** * Properties *)

(** Messages of a size the format can carry. *)
Definition encodable (m : Msg) : Prop :=
  ∃ d, AppendToString m = Some d ∧ zlen (GetTypeName m) + 1 + zlen d + 2 * kHeaderLen <= kMaxMessageLen.

(** What lies between the length and the checksum. *)
Definition body (m : Msg) (d : list byte) : list byte :=
  be32 (zlen (GetTypeName m) + 1) ++ GetTypeName m ++ [x00] ++ d.

Lemma type_name_len m : 1 <= zlen (GetTypeName m).
Proof. pose proof (type_name_nonempty m). destruct (GetTypeName m); [done|]. simpl. lia. Qed.

Lemma zlen_body m d : zlen (body m d) = zlen (GetTypeName m) + 1 + zlen d + kHeaderLen.
Proof. unfold body, kHeaderLen. rewrite !length_app, length_be32. simpl. lia. Qed.

Lemma encode_body m d :
  AppendToString m = Some d -> zlen (GetTypeName m) + 1 < 2 ^ 31 ->
  encode m = be32 (zlen (body m d) + kHeaderLen) ++ body m d ++ be32 (s32 (adler32 (body m d))).
Proof.
  intros E Hl. unfold encode. rewrite E. rewrite s32_small by lia. fold (body m d).
  rewrite length_app, length_be32. do 2 f_equal. unfold kHeaderLen. lia.
Qed.

(** The two encoders agree. *)
Lemma fillEmptyBuffer_encode m d :
  AppendToString m = Some d -> fillEmptyBuffer [] m (zlen d) = Ok (encode m).
Proof. intros E. unfold fillEmptyBuffer, encode. rewrite E. simpl. by rewrite Z.eqb_refl. Qed.

Lemma parse_encoded m d rest :
  AppendToString m = Some d -> zlen (body m d) + kHeaderLen < 2 ^ 31 ->
  parse (body m d ++ be32 (s32 (adler32 (body m d))) ++ rest) (zlen (body m d) + kHeaderLen) = inr m.
Proof.
  intros E Hl. pose proof (type_name_len m) as Hn. pose proof (zlen_body m d) as Hb. unfold kHeaderLen in *.
  unfold parse. unfold kHeaderLen. replace (zlen (body m d) + 4 - 4) with (zlen (body m d)) by lia.
  rewrite Nat2Z.id, drop_app_length, take_app_length, asInt32_be32.
  rewrite (s32_small (s32 _)) by (apply (swrap_range 32); lia). rewrite Z.eqb_refl.
  assert (asInt32 (body m d ++ be32 (s32 (adler32 (body m d))) ++ rest) = zlen (GetTypeName m) + 1) as ->.
  { unfold body at 1. rewrite <- !app_assoc, asInt32_be32. apply s32_small. lia. }
  rewrite (proj2 (Z.leb_le 2 _)), (proj2 (Z.leb_le _ _)) by lia. cbn [andb].
  set (tail := be32 (s32 (adler32 (body m d))) ++ rest).
  assert (drop 4 (body m d ++ tail) = GetTypeName m ++ [x00] ++ d ++ tail) as Hd4.
  { unfold body. rewrite <- !app_assoc. apply drop_app_length'. by rewrite length_be32. }
  change (Z.to_nat 4) with 4%nat. rewrite Hd4.
  replace (Z.to_nat (zlen (GetTypeName m) + 1 - 1)) with (length (GetTypeName m)) by lia. rewrite take_app_length.
  destruct (parse_serialized m d E) as [-> Hp].
  replace (Z.to_nat (4 + (zlen (GetTypeName m) + 1))) with (4 + S (length (GetTypeName m)))%nat by lia.
  rewrite <- drop_drop, Hd4.
  replace (drop (S (length (GetTypeName m))) (GetTypeName m ++ [x00] ++ d ++ tail)) with (d ++ tail).
  2: { change ([x00] ++ d ++ tail) with (x00 :: d ++ tail). rewrite (cons_middle x00), app_assoc.
       rewrite drop_app_length'; [done|]. rewrite length_app. simpl. lia. }
  replace (Z.to_nat _) with (length d) by lia. rewrite take_app_length. by rewrite Hp.
Qed.

(** [decode] is [parse] behind a test of the length. *)
Lemma decode_parse buf :
  zlen buf < 2 ^ 31 ->
  decode buf = if 10 <=? zlen buf then match parse buf (zlen buf) with inr m => Some m | inl _ => None end else None.
Proof.
  intros Hl. unfold decode. rewrite s32_small by lia. destruct (10 <=? zlen buf); [|done]. unfold parse.
  repeat case_match; simplify_eq; congruence.
Qed.

Lemma decode_encode m d :
  AppendToString m = Some d -> zlen (body m d) + kHeaderLen < 2 ^ 31 ->
  decode (drop 4 (encode m)) = Some m.
Proof.
  intros E Hl. pose proof (type_name_len m). pose proof (zlen_body m d). unfold kHeaderLen in *.
  rewrite (encode_body m d) by (done || lia). rewrite drop_app_length' by (by rewrite length_be32).
  assert (zlen (body m d ++ be32 (s32 (adler32 (body m d)))) = zlen (body m d) + 4) as Hz
    by (rewrite length_app, length_be32; lia).
  rewrite decode_parse by lia. rewrite Hz, (proj2 (Z.leb_le _ _)) by lia.
  pose proof (parse_encoded m d [] E) as P. rewrite app_nil_r in P. unfold kHeaderLen in P. by rewrite P by lia.
Qed.

(** What [onMessage] leaves in the buffer when it is to see the frames of [ms]: a part of the
    first one. *)
Definition incomplete (buf : list byte) (ms : list Msg) : Prop :=
  match ms with [] => buf = [] | m :: _ => zlen buf < zlen (encode m) end.

Definition frames (ms : list Msg) : list byte := concat (encode <$> ms).

(** The frame of a message, with its length. *)
Lemma frame_shape m :
  encodable m -> ∃ L rest, encode m = be32 L ++ rest ∧ zlen rest = L ∧ kMinMessageLen <= L <= kMaxMessageLen ∧
    ∀ more, parse (rest ++ more) L = inr m.
Proof.
  intros (d & E & Hs). pose proof (type_name_len m). pose proof (zlen_body m d).
  unfold kMaxMessageLen, kMinMessageLen, kHeaderLen in *.
  exists (zlen (body m d) + 4), (body m d ++ be32 (s32 (adler32 (body m d)))). split_and!.
  - rewrite (encode_body m d) by (done || lia). done.
  - rewrite length_app, length_be32. lia.
  - unfold kMinMessageLen, kHeaderLen. lia.
  - lia.
  - intros more. rewrite <- app_assoc. apply parse_encoded; [done|]. unfold kHeaderLen. lia.
Qed.

(** A turn on a whole frame delivers it; on a part of it the loop waits. *)
Lemma loop_frame fuel m rest ds es :
  encodable m ->
  onMessage_loop (S fuel) (mkStream (encode m ++ rest) ds es) = onMessage_loop fuel (mkStream rest (ds ++ [m]) es).
Proof.
  intros Hm. destruct (frame_shape m Hm) as (L & fr & -> & HL & HR & HP).
  unfold kMinMessageLen, kMaxMessageLen, kHeaderLen in HR. cbn [onMessage_loop inbuf delivered errors].
  unfold kMinMessageLen, kMaxMessageLen, kHeaderLen. rewrite <- app_assoc, asInt32_be32, s32_small by lia.
  rewrite !length_app, length_be32.
  rewrite (proj2 (Z.leb_le _ _)), (proj2 (Z.ltb_ge _ _)), (proj2 (Z.ltb_ge _ _)), (proj2 (Z.leb_le _ _)) by lia. cbn [orb].
  rewrite drop_app_length' by (by rewrite length_be32). rewrite HP.
  replace (Z.to_nat (4 + L)) with (length (be32 L ++ fr)) by (rewrite length_app, length_be32; lia).
  by rewrite app_assoc, drop_app_length.
Qed.

Lemma loop_part fuel m part ds es :
  encodable m -> part `prefix_of` encode m -> zlen part < zlen (encode m) ->
  onMessage_loop fuel (mkStream part ds es) = mkStream part ds es.
Proof.
  intros Hm Hp Hlt. destruct fuel as [|fuel]; [done|].
  destruct (frame_shape m Hm) as (L & fr & E & HL & HR & _). rewrite E in *.
  unfold kMinMessageLen, kMaxMessageLen, kHeaderLen in HR. cbn [onMessage_loop inbuf delivered errors].
  unfold kMinMessageLen, kMaxMessageLen, kHeaderLen. case_match eqn:H14; [|done]. apply Z.leb_le in H14.
  assert (asInt32 part = L) as ->.
  { destruct (prefix_shorter (be32 L) part (be32 L ++ fr)) as [k ->]; [by eexists|done|rewrite length_be32; lia|].
    rewrite asInt32_be32. apply s32_small. lia. }
  rewrite length_app, length_be32 in Hlt.
  rewrite (proj2 (Z.ltb_ge _ _)), (proj2 (Z.ltb_ge _ _)), (proj2 (Z.leb_gt _ _)) by lia. done.
Qed.

Lemma loop_frames fuel ms buf ds es :
  Forall encodable ms -> buf `prefix_of` frames ms -> (length buf <= fuel)%nat ->
  ∃ ms1 ms2 buf', ms = ms1 ++ ms2 ∧ buf = frames ms1 ++ buf' ∧ incomplete buf' ms2 ∧
    onMessage_loop fuel (mkStream buf ds es) = mkStream buf' (ds ++ ms1) es.
Proof.
  intros Hms. revert fuel buf ds. induction Hms as [|m ms Hm Hms IH]; intros fuel buf ds Hp Hf.
  { apply prefix_nil_inv in Hp as ->. exists [], [], []. split_and!; [done..|]. rewrite app_nil_r. by destruct fuel. }
  assert (encode m `prefix_of` frames (m :: ms)) as Hm1 by (by eexists).
  destruct (decide (length buf < length (encode m))%nat) as [Hlt|Hge].
  - exists [], (m :: ms), buf. split_and!; [done..|simpl; lia|]. rewrite app_nil_r. apply (loop_part _ m); [done| |lia].
    apply (prefix_shorter _ _ _ Hp Hm1). lia.
  - destruct (prefix_shorter _ _ _ Hm1 Hp) as [k ->]; [lia|].
    apply prefix_app_inv in Hp. rewrite length_app in Hf.
    destruct (frame_shape m Hm) as (L & fr & E & _). rewrite E, length_app, length_be32 in Hf.
    destruct fuel as [|fuel]; [lia|]. rewrite loop_frame by done.
    destruct (IH fuel k (ds ++ [m])) as (ms1 & ms2 & b & -> & -> & E3 & ->); [done|lia|].
    exists (m :: ms1), ms2, b. split_and!; [done| |done|by rewrite <- app_assoc].
    unfold frames. cbn. by rewrite app_assoc.
Qed.

(** ** Errors *)

Lemma asInt32_more n buf more : (n + 4 <= length buf)%nat -> asInt32 (drop n (buf ++ more)) = asInt32 (drop n buf).
Proof. intros. unfold asInt32. by rewrite take_drop_more. Qed.

Lemma parse_more buf more len :
  kMinMessageLen <= len <= zlen buf -> parse (buf ++ more) len = parse buf len.
Proof.
  unfold kMinMessageLen, kHeaderLen. intros Hl. unfold parse, kHeaderLen.
  rewrite asInt32_more by lia. rewrite (take_app_le buf) by lia.
  assert (asInt32 (buf ++ more) = asInt32 buf) as -> by (apply (asInt32_more 0); lia). case_match; [|done].
  destruct ((2 <=? asInt32 buf) && (asInt32 buf <=? len - 2 * 4)) eqn:Hn; [|done].
  apply andb_true_iff in Hn as [Hn1%Z.leb_le Hn2%Z.leb_le].
  rewrite (take_drop_more (Z.to_nat 4)), (take_drop_more (Z.to_nat (4 + _))) by lia. done.
Qed.

(** A message the codec has rejected stays at the front of the buffer: it is rejected again, for
    the same reason, whenever more bytes arrive. *)
Definition rejected (e : ErrorCode) (buf : list byte) : Prop :=
  ∀ more fuel ds es, onMessage_loop (S fuel) (mkStream (buf ++ more) ds es) = mkStream (buf ++ more) ds (es ++ [e]).

Lemma loop_rejects fuel s :
  errors (onMessage_loop fuel s) = errors s ∨
  ∃ e, errors (onMessage_loop fuel s) = errors s ++ [e] ∧ inbuf (onMessage_loop fuel s) ≠ [] ∧
    rejected e (inbuf (onMessage_loop fuel s)).
Proof.
  revert s; induction fuel as [|fuel IH]; intros [buf ds es]; [by left|]. cbn [onMessage_loop inbuf delivered errors].
  destruct (kMinMessageLen + kHeaderLen <=? zlen buf) eqn:H14; [|by left].
  assert (14 <= zlen buf) as H14' by (unfold kMinMessageLen, kHeaderLen in H14; lia).
  assert (buf ≠ []) as Hne by (destruct buf; [simpl in H14'; lia|done]).
  assert (∀ more, asInt32 (buf ++ more) = asInt32 buf) as Ha
    by (intros more; apply (asInt32_more 0); lia).
  assert (∀ more, (kMinMessageLen + kHeaderLen <=? zlen (buf ++ more)) = true) as Hz
    by (intros; rewrite length_app; apply Z.leb_le; unfold kMinMessageLen, kHeaderLen; lia).
  destruct ((kMaxMessageLen <? asInt32 buf) || (asInt32 buf <? kMinMessageLen)) eqn:Hr.
  { right. exists kInvalidLength. split_and!; [done..|]. intros more f ds' es'. cbn. by rewrite Hz, Ha, Hr. }
  destruct (asInt32 buf + kHeaderLen <=? zlen buf) eqn:Hf; [|by left].
  destruct (parse _ _) as [e|m] eqn:Hp; [|apply IH].
  right. exists e. split_and!; [done..|]. intros more f ds' es'. cbn [onMessage_loop raise_error inbuf delivered errors].
  rewrite Hz, Ha, Hr. apply orb_false_iff in Hr as [_ Hr%Z.ltb_ge].
  unfold kMinMessageLen, kHeaderLen in *. apply Z.leb_le in Hf.
  rewrite (proj2 (Z.leb_le _ _)) by (rewrite length_app; lia).
  rewrite drop_app_le by lia. rewrite parse_more; [by rewrite Hp|].
  unfold kMinMessageLen, kHeaderLen. rewrite length_drop. lia.
Qed.

(** The codec never resynchronises: once a call of [onMessage] has reported an error the
    rejected message is never taken off the buffer, so that every later call reports the same
    error again and delivers nothing, whatever arrives. *)
Theorem codec_error_sticky s data :
  let s' := onMessage data s in
  errors s' = errors s ∨
  ∃ e, errors s' = errors s ++ [e] ∧
    ∀ more, onMessage more s' = mkStream (inbuf s' ++ more) (delivered s') (errors s' ++ [e]).
Proof.
  intros s'. unfold s', onMessage. set (fuel := length _).
  destruct (loop_rejects fuel (mkStream (inbuf s ++ data) (delivered s) (errors s))) as [|(e & E & Hne & Hr)]; [by left|].
  right. exists e. split; [done|]. intros more. destruct (onMessage_loop _ _) as [b ds es]. cbn in *.
  destruct b as [|x b]; [done|]. apply Hr.
Qed.

(** ** Streams *)

(** C28: Whatever way the bytes of a series of encoded messages are cut up on their way
    through the connection, and however many of them have arrived, [onMessage] has delivered
    exactly the messages that are complete, in order, has reported no error, and keeps exactly
    the bytes of the first incomplete one. *)
Theorem codec_stream (ms : list Msg) (chunks : list (list byte)) :
  Forall encodable ms -> concat chunks `prefix_of` frames ms ->
  ∃ ms1 ms2 buf, ms = ms1 ++ ms2 ∧ concat chunks = frames ms1 ++ buf ∧ incomplete buf ms2 ∧
    foldl (λ s data, onMessage data s) (mkStream [] [] []) chunks = mkStream buf ms1 [].
Proof.
  intros Hms. induction chunks as [|c chunks IH] using rev_ind; intros Hp.
  { exists [], ms, []. split_and!; [done..| |done]. destruct ms as [|m ms]; [done|].
    apply Forall_cons in Hms as [Hm _]. destruct (frame_shape m Hm) as (L & fr & E & _).
    simpl. rewrite E, length_app, length_be32. lia. }
  rewrite concat_app in *. simpl in *. rewrite app_nil_r in *. rewrite foldl_app. simpl.
  destruct IH as (ms1 & ms2 & buf & -> & E1 & _ & ->).
  { etrans; [|exact Hp]. by eexists. }
  rewrite E1 in *. unfold frames in Hp. rewrite fmap_app, concat_app, <- app_assoc in Hp. apply prefix_app_inv in Hp.
  apply Forall_app in Hms as [_ Hms].
  destruct (loop_frames (length (buf ++ c)) ms2 (buf ++ c) ms1 [] Hms Hp) as (ms3 & ms4 & b & -> & E2 & Hi & E3); [done|].
  exists (ms1 ++ ms3), ms4, b. split_and!; [by rewrite <- app_assoc| |done|exact E3].
  rewrite <- app_assoc, E2. unfold frames. by rewrite fmap_app, concat_app, <- app_assoc.
Qed.

(** * The dispatcher *)

(** A [CallbackT<T>] with its user function (a name here). *)
Record CallbackT := mkCallbackT { cb_type : list byte; cb_fn : nat }.

Inductive Call := DefaultCallback (m : Msg) | UserCallback (fn : nat) (m : Msg).

(** [CallbackT<T>::onMessage]: the down cast is of a message of type [T] or not. *)
Definition CallbackT_onMessage (c : CallbackT) (m : Msg) : res Call :=
  if decide (GetTypeName m = cb_type c) then Ok (UserCallback (cb_fn c) m) else Fault AssertFail.

(** [callbacks_]; a descriptor is named by its type. *)
Definition CallbackMap := gmap (list byte) CallbackT.

Definition registerMessageCallback (T : list byte) (fn : nat) (callbacks : CallbackMap) : CallbackMap :=
  <[T := mkCallbackT T fn]> callbacks.

Definition onProtobufMessage (callbacks : CallbackMap) (m : Msg) : res Call :=
  match callbacks !! GetTypeName m with
  | Some c => CallbackT_onMessage c m
  | None => Ok (DefaultCallback m)
  end.

(** The function a series of registrations leaves for a type: the last one. *)
Fixpoint last_registered (T : list byte) (regs : list (list byte * nat)) : option nat :=
  match regs with
  | [] => None
  | (T', fn) :: regs' =>
      match last_registered T regs' with
      | Some fn' => Some fn'
      | None => if decide (T' = T) then Some fn else None
      end
  end.

Definition register_all (regs : list (list byte * nat)) : CallbackMap :=
  foldl (λ cbs r, registerMessageCallback r.1 r.2 cbs) ∅ regs.

Lemma last_registered_app T regs1 regs2 :
  last_registered T (regs1 ++ regs2) =
  match last_registered T regs2 with Some fn => Some fn | None => last_registered T regs1 end.
Proof.
  induction regs1 as [|[T' fn] regs1 IH]; simpl; [by destruct (last_registered T regs2)|]. rewrite IH.
  by destruct (last_registered T regs2).
Qed.

Lemma register_all_lookup regs T : register_all regs !! T = mkCallbackT T <$> last_registered T regs.
Proof.
  induction regs as [|[T' fn] regs IH] using rev_ind; [done|].
  unfold register_all. rewrite foldl_app, last_registered_app. fold (register_all regs). simpl.
  unfold registerMessageCallback, CallbackMap in *. simpl. case_decide as E.
  - subst. by rewrite lookup_insert_eq.
  - by rewrite lookup_insert_ne.
Qed.

Lemma onProtobufMessage_registered regs m :
  onProtobufMessage (register_all regs) m =
  Ok match last_registered (GetTypeName m) regs with Some fn => UserCallback fn m | None => DefaultCallback m end.
Proof.
  unfold onProtobufMessage. rewrite register_all_lookup. destruct (last_registered _ _) as [fn|]; [|done].
  simpl. unfold CallbackT_onMessage. simpl. by rewrite decide_True.
Qed.

(** ** The earlier dispatcher, [dispatcher_lite.h]: plain functions, without types *)

Definition CallbackMapLite := gmap (list byte) nat.

Definition registerMessageCallback_lite (desc : list byte) (callback : nat) (callbacks : CallbackMapLite) : CallbackMapLite :=
  <[desc := callback]> callbacks.

Definition onProtobufMessage_lite (callbacks : CallbackMapLite) (m : Msg) : Call :=
  match callbacks !! GetTypeName m with
  | Some callback => UserCallback callback m
  | None => DefaultCallback m
  end.

Definition register_all_lite (regs : list (list byte * nat)) : CallbackMapLite :=
  foldl (λ cbs r, registerMessageCallback_lite r.1 r.2 cbs) ∅ regs.

Lemma register_all_lite_lookup regs T : register_all_lite regs !! T = last_registered T regs.
Proof.
  induction regs as [|[T' fn] regs IH] using rev_ind; [done|].
  unfold register_all_lite. rewrite foldl_app, last_registered_app. fold (register_all_lite regs). simpl.
  unfold registerMessageCallback_lite, CallbackMapLite in *. simpl. case_decide as E.
  - subst. by rewrite lookup_insert_eq.
  - by rewrite lookup_insert_ne.
Qed.

(** C39: Dispatching is well typed: after any series of registrations both dispatchers hand a
    message to the function registered last for the message's own type, or to the default
    callback when there is none; the assertion that the down cast succeeded never fails. *)
Theorem dispatchers_typed regs m :
  let call := match last_registered (GetTypeName m) regs with Some fn => UserCallback fn m | None => DefaultCallback m end in
  onProtobufMessage (register_all regs) m = Ok call ∧
  onProtobufMessage_lite (register_all_lite regs) m = call ∧
  ∀ T c, register_all regs !! T = Some c -> cb_type c = T ∧ last_registered T regs = Some (cb_fn c).
Proof.
  cbn zeta. rewrite onProtobufMessage_registered. split; [done|]. split.
  { unfold onProtobufMessage_lite. by rewrite register_all_lite_lookup. }
  intros T c. rewrite register_all_lookup. destruct (last_registered T regs); [|done]. by intros [= <-].
Qed.
End codec.

(** * An instance *)

(** Two message types whose content is its own serialisation, and zlib's checksum. *)
Inductive QMsg := Query (d : list byte) | Answer (d : list byte).

#[export] Instance QMsg_protobuf : Protobuf QMsg := {|
  GetTypeName m := match m with Query _ => bytes "muduo.Query" | Answer _ => bytes "muduo.Answer" end;
  AppendToString m := Some match m with Query d => d | Answer d => d end;
  known_type t := bool_decide (t = bytes "muduo.Query") || bool_decide (t = bytes "muduo.Answer");
  ParseFromArray t d :=
    if bool_decide (t = bytes "muduo.Query") then Some (Query d)
    else if bool_decide (t = bytes "muduo.Answer") then Some (Answer d) else None |}.

#[export] Instance QMsg_laws : ProtobufLaws QMsg.
Proof. split; [intros [d0|d0] d [= <-]; by vm_compute | by intros [d|d]]. Qed.

Definition adler (bs : list byte) : Z :=
  let '(a, b) := foldl (λ '(a, b) x, let a := (a + Z_of_byte x) mod 65521 in (a, (b + a) mod 65521)) (1, 0) bs in
  b * 65536 + a.

Lemma dispatchers_typed_witness :
  onProtobufMessage (register_all [(bytes "muduo.Query", 1%nat); (bytes "muduo.Query", 2%nat)]) (Query []) =
    Ok (UserCallback 2 (Query [])) ∧
  cb_type (mkCallbackT (bytes "muduo.Query") 2) = bytes "muduo.Query".
Proof.
  destruct (dispatchers_typed [(bytes "muduo.Query", 1%nat); (bytes "muduo.Query", 2%nat)] (Query [])) as (E & _ & H).
  split; [exact E|]. apply (H (bytes "muduo.Query") (mkCallbackT (bytes "muduo.Query") 2)). reflexivity.
Defined.

Lemma codec_stream_witness :
  ∃ ms1 ms2 buf,
    [Query (bytes "hello"); Answer (bytes "world")] = ms1 ++ ms2 ∧
    concat [take 20 (encode adler (Query (bytes "hello"))); drop 20 (encode adler (Query (bytes "hello"))) ++ [x00; x00]] =
      frames adler ms1 ++ buf ∧ incomplete adler buf ms2 ∧
    foldl (λ s data, onMessage adler data s) (mkStream [] [] [])
      [take 20 (encode adler (Query (bytes "hello"))); drop 20 (encode adler (Query (bytes "hello"))) ++ [x00; x00]] =
      mkStream buf ms1 [].
Proof.
  apply (codec_stream adler [Query (bytes "hello"); Answer (bytes "world")]).
  - repeat constructor; (eexists; split; [reflexivity|vm_compute; discriminate]).
  - eexists (drop 2 (encode adler (Answer (bytes "world")))). vm_compute. reflexivity.
Defined.

Example codec_delivers :
  onMessage adler (encode adler (Query (bytes "hello")) ++ encode adler (Answer (bytes "world"))) (mkStream [] [] []) =
  mkStream [] [Query (bytes "hello"); Answer (bytes "world")] [].
Proof. vm_compute. reflexivity. Qed.

Example codec_checksum :
  errors (onMessage adler (take 10 (encode adler (Query (bytes "hello"))) ++ [x00] ++ drop 11 (encode adler (Query (bytes "hello")))) (mkStream [] [] [])) =
  [kCheckSumError].
Proof. vm_compute. reflexivity. Qed.
