(* ===== verification/QueryExample.v ===== *)
(** The query server and client: [protobuf/codec/server.cc], [client.cc] and the messages of
    [query.proto].  The connection's callbacks answer with calls on the connection, as
    [TcpConnection.v] has them; the generated message classes are a parameter. *)
From Stdlib Require Import Strings.String.
From S2P Require Import Prelude FixedBuffer LogStream Buffer Channel TcpConnection TcpProps Codec.
Open Scope list_scope.

Abbreviation ConnCall := TcpConnection.Call.

(** * The messages *)

Record Query := mkQuery { query_id : Z; query_questioner : list byte; question : list (list byte) }.
Record Answer := mkAnswer {
  answer_id : Z; answer_questioner : list byte; answerer : list byte; solution : list (list byte) }.
Record Empty := mkEmpty { empty_id : option Z }.

Inductive Message := MQuery (q : Query) | MAnswer (a : Answer) | MEmpty (e : Empty).

Abbreviation typeQuery := (bytes "muduo.Query").
Abbreviation typeAnswer := (bytes "muduo.Answer").
Abbreviation typeEmpty := (bytes "muduo.Empty").

Definition message_type (m : Message) : list byte :=
  match m with MQuery _ => typeQuery | MAnswer _ => typeAnswer | MEmpty _ => typeEmpty end.

(** The generated classes: their types have the names of [query.proto], and [ByteSize()] is the
    size of the serialisation. *)
Class QueryProtocol `{ProtobufLaws Message} := {
  ByteSize : Message -> Z;
  type_names m : GetTypeName m = message_type m;
  byte_size m d : AppendToString m = Some d -> ByteSize m = zlen d }.

(** * An application on a codec *)

Section application.
Context `{QueryProtocol} (adler32 : list byte -> Z).
Abbreviation encode := (Codec.encode adler32).
Abbreviation frames := (Codec.frames adler32).
Abbreviation incomplete := (Codec.incomplete adler32).

Section callbacks.
(** What an application does for a message and for an error. *)
Context {A : Type} (dispatch : Message -> res (list A)) (on_error : ErrorCode -> list A).

Fixpoint dispatch_all (ms : list Message) : res (list A) :=
  match ms with
  | [] => Ok []
  | m :: ms' =>
      match dispatch m with
      | Fault f => Fault f
      | Ok xs => match dispatch_all ms' with Ok ys => Ok (xs ++ ys) | Fault f => Fault f end
      end
  end.

(** The codec's [onMessage] as the message callback of a connection: the bytes it retrieves of
    the input buffer, and what the application does meanwhile. *)
Definition codec_onMessage (content : list byte) : res (Z * list A) :=
  let st := onMessage_loop adler32 (length content) (mkStream content [] []) in
  match dispatch_all (delivered st) with
  | Fault f => Fault f
  | Ok xs => Ok (zlen content - zlen (inbuf st), xs ++ concat (on_error <$> errors st))
  end.

(** The callbacks of one connection, as the bytes come in. *)
Definition receive (r : res (list byte * list A)) (data : list byte) : res (list byte * list A) :=
  match r with
  | Fault f => Fault f
  | Ok (input, xs) =>
      match codec_onMessage (input ++ data) with
      | Fault f => Fault f
      | Ok (k, ys) => Ok (drop (Z.to_nat k) (input ++ data), xs ++ ys)
      end
  end.

Definition receive_all (chunks : list (list byte)) : res (list byte * list A) :=
  foldl receive (Ok ([], [])) chunks.

(** ** What arrives is handled message by message *)

Context (reply : Message -> list A) (dispatch_reply : ∀ m, dispatch m = Ok (reply m)).

Lemma dispatch_all_Ok ms : dispatch_all ms = Ok (concat (reply <$> ms)).
Proof. induction ms as [|m ms IH]; [done|]. simpl. by rewrite dispatch_reply, IH. Qed.

Lemma codec_onMessage_frames ms buf :
  Forall (encodable) ms -> buf `prefix_of` frames ms ->
  ∃ ms1 ms2 rest, ms = ms1 ++ ms2 ∧ buf = frames ms1 ++ rest ∧ incomplete rest ms2 ∧
    codec_onMessage buf = Ok (zlen (frames ms1), concat (reply <$> ms1)).
Proof.
  intros Hms Hp. destruct (loop_frames adler32 (length buf) ms buf [] [] Hms Hp) as (ms1 & ms2 & rest & -> & E & Hi & El); [done|].
  exists ms1, ms2, rest. split_and!; [done..|]. unfold codec_onMessage. rewrite El. cbn [delivered inbuf errors].
  rewrite app_nil_l, dispatch_all_Ok, app_nil_r. do 2 f_equal. rewrite E, length_app. lia.
Qed.

Lemma receive_all_frames ms chunks :
  Forall (encodable) ms -> concat chunks `prefix_of` frames ms ->
  ∃ ms1 ms2 rest, ms = ms1 ++ ms2 ∧ concat chunks = frames ms1 ++ rest ∧ incomplete rest ms2 ∧
    receive_all chunks = Ok (rest, concat (reply <$> ms1)).
Proof.
  intros Hms. induction chunks as [|c chunks IH] using rev_ind; intros Hp.
  { exists [], ms, []. split_and!; [done..| |done]. destruct ms as [|m ms]; [done|].
    apply Forall_cons in Hms as [Hm _]. destruct (frame_shape adler32 m Hm) as (L & fr & E & _).
    simpl. rewrite E, length_app, length_be32. lia. }
  rewrite concat_app in *. simpl in *. rewrite app_nil_r in *. unfold receive_all. rewrite foldl_app. simpl.
  destruct IH as (ms1 & ms2 & rest & -> & E1 & _ & E2). { etrans; [|exact Hp]. by eexists. }
  unfold receive_all in E2. rewrite E2. simpl. rewrite E1 in *.
  unfold Codec.frames in Hp. rewrite fmap_app, concat_app, <- app_assoc in Hp. apply prefix_app_inv in Hp.
  apply Forall_app in Hms as [_ Hms].
  destruct (codec_onMessage_frames ms2 (rest ++ c) Hms Hp) as (ms3 & ms4 & rest' & -> & E3 & Hi & ->).
  exists (ms1 ++ ms3), ms4, rest'. split_and!; [by rewrite <- app_assoc| |done|].
  - rewrite <- app_assoc, E3. unfold Codec.frames. by rewrite fmap_app, concat_app, <- app_assoc.
  - rewrite E3, Nat2Z.id, drop_app_length. by rewrite fmap_app, concat_app.
Qed.

(** There is one way to cut a buffer into complete messages and a rest. *)
Lemma split_shorter ms1 ms2 ms3 ms4 rest rest' :
  ms1 ++ ms2 = ms3 ++ ms4 -> frames ms1 ++ rest = frames ms3 ++ rest' -> incomplete rest ms2 ->
  (length ms3 <= length ms1)%nat.
Proof.
  intros E Ef Hi. destruct (decide (length ms3 <= length ms1)%nat); [done|exfalso].
  assert (ms1 `prefix_of` ms3) as [k ->].
  { destruct (prefix_weak_total ms1 ms3 (ms1 ++ ms2)) as [?|Hp]; [by eexists|rewrite E; by eexists|done|].
    apply prefix_length in Hp. lia. }
  rewrite <- app_assoc in E. apply app_inv_head in E. rewrite length_app in *.
  destruct k as [|m k]; simpl in *; [lia|]. subst ms2. simpl in Hi.
  unfold Codec.frames in Ef. rewrite fmap_app, concat_app, <- app_assoc in Ef. apply app_inv_head in Ef.
  subst rest. simpl in Hi. rewrite !length_app in Hi. lia.
Qed.

Lemma codec_onMessage_split ms1 ms2 rest :
  Forall encodable (ms1 ++ ms2) -> rest `prefix_of` frames ms2 -> incomplete rest ms2 ->
  codec_onMessage (frames ms1 ++ rest) = Ok (zlen (frames ms1), concat (reply <$> ms1)).
Proof.
  intros Hms Hp Hi. destruct (codec_onMessage_frames (ms1 ++ ms2) (frames ms1 ++ rest) Hms) as (ms3 & ms4 & rest' & E1 & E2 & Hi' & ->).
  { unfold Codec.frames. rewrite fmap_app, concat_app. by apply prefix_app. }
  pose proof (split_shorter _ _ _ _ _ _ E1 E2 Hi). pose proof (split_shorter _ _ _ _ _ _ (eq_sym E1) (eq_sym E2) Hi').
  assert (length ms1 = length ms3) as El by lia. by destruct (app_inj_1 _ _ _ _ El E1) as [-> _].
Qed.

(** All of the bytes: all of the messages. *)
Lemma receive_all_exact ms chunks :
  Forall (encodable) ms -> concat chunks = frames ms -> receive_all chunks = Ok ([], concat (reply <$> ms)).
Proof.
  intros Hms Hc. destruct (receive_all_frames ms chunks Hms) as (ms1 & ms2 & rest & -> & E & Hi & ->); [by rewrite Hc|].
  rewrite Hc in E. unfold Codec.frames in E. rewrite fmap_app, concat_app in E. apply app_inv_head in E.
  destruct ms2 as [|m ms2]; [by rewrite Hi, app_nil_r|]. simpl in *. rewrite <- E, length_app in Hi. lia.
Qed.
End callbacks.

(** [codec_.send(conn, message)] *)
Definition send_message (m : Message) : res (list ConnCall) :=
  match codec_send adler32 m (ByteSize m) with Ok d => Ok [CSend d] | Fault f => Fault f end.

Lemma send_message_Ok m : encodable m -> send_message m = Ok [CSend (encode m)].
Proof.
  intros (d & E & _). unfold send_message, codec_send. rewrite (byte_size _ _ E).
  by rewrite (fillEmptyBuffer_encode adler32 m d E).
Qed.

(** * The server *)

Section server.

Definition server_answer : Answer :=
  mkAnswer 1 (bytes "Chen Shuo") (bytes "blog.csdn.net/Solstice") [bytes "Jump!"; bytes "Win!"].

(** The functions registered with the dispatcher. *)
Definition server_callbacks : CallbackMap :=
  registerMessageCallback typeAnswer 1 (registerMessageCallback typeQuery 0 ∅).

Definition QueryServer_onQuery : res (list ConnCall) :=
  match send_message (MAnswer server_answer) with Ok cs => Ok (cs ++ [CShutdown]) | Fault f => Fault f end.
Definition QueryServer_onAnswer : res (list ConnCall) := Ok [CShutdown].
Definition QueryServer_onUnknownMessage : res (list ConnCall) := Ok [CShutdown].

Definition QueryServer_dispatch (m : Message) : res (list ConnCall) :=
  match onProtobufMessage server_callbacks m with
  | Ok (UserCallback 0 _) => QueryServer_onQuery
  | Ok (UserCallback _ _) => QueryServer_onAnswer
  | Ok (DefaultCallback _) => QueryServer_onUnknownMessage
  | Fault f => Fault f
  end.

(** [defaultErrorCallback]: [shutdown()] itself asks whether the connection is up. *)
Definition default_error (e : ErrorCode) : list ConnCall :=
  if (defaultErrorCallback (Some true) e).2 then [CShutdown] else [].

Definition QueryServer_onMessage : list byte -> res (Z * list ConnCall) :=
  codec_onMessage QueryServer_dispatch default_error.

(** What it does for each message. *)
Definition server_reply (m : Message) : list ConnCall :=
  match m with MQuery _ => [CSend (encode (MAnswer server_answer)); CShutdown] | _ => [CShutdown] end.

Lemma server_lookup m :
  onProtobufMessage server_callbacks m =
  Ok match m with MQuery _ => UserCallback 0 m | MAnswer _ => UserCallback 1 m | MEmpty _ => DefaultCallback m end.
Proof.
  change server_callbacks with (register_all [(typeQuery, 0%nat); (typeAnswer, 1%nat)]).
  unfold onProtobufMessage. rewrite register_all_lookup, type_names. destruct m; simpl; unfold CallbackT_onMessage;
    rewrite ?type_names; reflexivity.
Qed.

Lemma server_dispatch m :
  encodable (MAnswer server_answer) -> QueryServer_dispatch m = Ok (server_reply m).
Proof.
  intros Ha. unfold QueryServer_dispatch. rewrite server_lookup. destruct m; [|done|done].
  unfold QueryServer_onQuery. by rewrite send_message_Ok.
Qed.

(** ** On the connection *)

Context (write : nat -> list byte -> Z + Z) (Hwrite : ∀ n d k, write n d = inr k -> 0 <= k <= zlen d).

(** On a connection that is shutting down neither call does anything. *)
Lemma calls_ignored cs s :
  state_ s ≠ kConnected -> CForceClose ∉ cs -> mapM_ (call write true) cs s = Ok (tt, s).
Proof.
  intros Hs. induction cs as [|c cs IH]; intros Hn; [done|]. apply not_elem_of_cons in Hn as [Hc Hn].
  cbn [mapM_]. rewrite (bind_Ok _ _ s tt s); [by apply IH|].
  destruct c; [| |done]; simpl; unfold send, shutdown; rewrite (bind_Ok _ _ s s s) by done;
    by rewrite bool_decide_eq_false_2.
Qed.

Lemma shutdown_Ok s :
  state_ s = kConnected ->
  ∃ s', shutdown true s = Ok (tt, s') ∧ state_ s' = kDisconnecting ∧ accepted s' = accepted s ∧
    written s' = written s ∧ functors s' = functors s.
Proof.
  intros Hs. unfold shutdown. rewrite (bind_Ok _ _ s s s) by done. rewrite bool_decide_eq_true_2 by done.
  unfold when, shutdownInLoop. rewrite (bind_Ok _ _ s tt (set_state kDisconnecting s)) by done.
  rewrite (bind_Ok _ _ _ (set_state kDisconnecting s) (set_state kDisconnecting s)) by done.
  unfold when. destruct (isWriting _); eexists; by split_and!.
Qed.

Lemma reply_no_forceClose ms : CForceClose ∉ concat (server_reply <$> ms).
Proof.
  intros (l & Hl & Hin)%list_elem_of_In%in_concat. apply list_elem_of_In in Hl, Hin.
  apply list_elem_of_fmap in Hl as (m & -> & _). by destruct m; set_solver.
Qed.

(** The bytes the server's handler of [m] hands to the connection. *)
Definition server_bytes (m : Message) : list byte :=
  match m with MQuery _ => encode (MAnswer server_answer) | _ => [] end.

(** However many messages of a client have come in at once, the server answers the first
    of them only: it sends the answer if that is a query, and nothing else, shuts the
    connection down for writing and then ignores whatever its handlers do for the others.  No
    call fails, and exactly the complete messages are taken off the input buffer. *)
Theorem QueryServer_answers_first onConnection onMessage onWriteComplete onHighWaterMark m ms ms2 rest s :
  creachable write onConnection onMessage onWriteComplete onHighWaterMark s -> state_ s = kConnected ->
  encodable (MAnswer server_answer) -> Forall encodable ((m :: ms) ++ ms2) ->
  rest `prefix_of` frames ms2 -> incomplete rest ms2 ->
  kCheapPrepend + kInitialSize + (zlen (accepted s) + zlen (server_bytes m)) <= max_size ->
  ∃ calls s', QueryServer_onMessage (frames (m :: ms) ++ rest) = Ok (zlen (frames (m :: ms)), calls) ∧
    mapM_ (call write true) calls s = Ok (tt, s') ∧
    state_ s' = kDisconnecting ∧ accepted s' = accepted s ++ server_bytes m.
Proof.
  intros Hr Hs Ha Hms Hrest Hi Hmem.
  assert (bytes_inv s) as Hb by (eapply reachable_bytes; [exact Hwrite|exact Hr|unfold fits; lia]).
  pose proof (codec_onMessage_split QueryServer_dispatch default_error server_reply
                (λ x, server_dispatch x Ha) (m :: ms) ms2 rest Hms Hrest Hi) as E3.
  eexists _. unfold QueryServer_onMessage. rewrite E3. cbn [fmap list_fmap concat].
  assert (∃ s1, mapM_ (call write true) (server_reply m) s = Ok (tt, s1) ∧ state_ s1 = kDisconnecting ∧
    accepted s1 = accepted s ++ server_bytes m) as (s1 & E & Hs1 & Hacc1).
  { destruct m as [q|a|e]; cbn [server_reply mapM_ call server_bytes].
    2,3: destruct (shutdown_Ok s Hs) as (s1 & E & ? & ? & _); exists s1; rewrite (bind_Ok _ _ _ _ _ E), app_nil_r; by split_and!.
    destruct (sendInLoop_spec write Hwrite (encode (MAnswer server_answer)) s (bytes_room s Hb) Hmem)
      as (s1 & E & Hacc & _ & _ & _ & _ & _ & Hf & _).
    destruct (shutdown_Ok s1) as (s2 & E' & Hs2 & Hacc2 & _); [congruence|].
    exists s2. rewrite (bind_Ok _ _ s tt s1), (bind_Ok _ _ _ _ _ E'); [split_and!; [done|done|by rewrite Hacc2, Hacc]|].
    unfold send. rewrite (bind_Ok _ _ s s s), bool_decide_eq_true_2 by done. exact E. }
  exists s1. split; [done|]. rewrite mapM_app, (bind_Ok _ _ _ _ _ E).
  rewrite calls_ignored; [by split_and!|congruence|apply reply_no_forceClose].
Qed.
End server.

(** * The client *)

(** What the client does: calls on its connection, stopping its loop, and the messages its
    handlers are given (they only log). *)
Inductive ClientAction :=
| Do (c : ConnCall)
| LoopQuit
| GotAnswer (m : Message)
| GotEmpty (m : Message)
| GotUnknown (m : Message).

Definition client_callbacks : CallbackMap :=
  registerMessageCallback typeEmpty 1 (registerMessageCallback typeAnswer 0 ∅).

Definition QueryClient_onConnection (messageToSend : Message) (connected : bool) : res (list ClientAction) :=
  if connected then
    match send_message messageToSend with Ok cs => Ok (Do <$> cs) | Fault f => Fault f end
  else Ok [LoopQuit].

Definition QueryClient_dispatch (m : Message) : res (list ClientAction) :=
  match onProtobufMessage client_callbacks m with
  | Ok (UserCallback 0 m) => Ok [GotAnswer m]
  | Ok (UserCallback _ m) => Ok [GotEmpty m]
  | Ok (DefaultCallback m) => Ok [GotUnknown m]
  | Fault f => Fault f
  end.

Definition QueryClient_onMessage : list byte -> res (Z * list ClientAction) :=
  codec_onMessage QueryClient_dispatch (λ e, Do <$> default_error e).

(** The messages of [client.cc]'s [main]: [argv[3]] starts with an [e] or not. *)
Definition client_query : Query := mkQuery 1 (bytes "Chen Shuo") [bytes "Running?"].
Definition messageToSend (e : bool) : Message := if e then MEmpty (mkEmpty None) else MQuery client_query.

Definition client_got (m : Message) : list ClientAction :=
  match m with MQuery _ => [GotUnknown m] | MAnswer _ => [GotAnswer m] | MEmpty _ => [GotEmpty m] end.

Lemma client_dispatch m : QueryClient_dispatch m = Ok (client_got m).
Proof.
  unfold QueryClient_dispatch.
  change client_callbacks with (register_all [(typeAnswer, 0%nat); (typeEmpty, 1%nat)]).
  unfold onProtobufMessage. rewrite register_all_lookup, type_names. destruct m; simpl; unfold CallbackT_onMessage;
    rewrite ?type_names; reflexivity.
Qed.

(** * The exchange *)

(** The bytes a connection sends for a list of calls: nothing after [shutdown]. *)
Fixpoint sent (cs : list ConnCall) : list byte :=
  match cs with
  | CSend d :: cs' => d ++ sent cs'
  | _ => []
  end.

(** C30: The whole exchange, however the bytes are cut up in both directions: the client sends
    its message as soon as it is connected; the server, once all of it has arrived, has handled
    exactly that message; and when what the server sent has arrived, the client's handlers have
    been given exactly one message, the server's answer, if it asked, and none if it sent an
    [Empty].  Nothing is left over on either side. *)
Theorem query_exchange e chunks1 chunks2 :
  encodable (messageToSend e) -> encodable (MAnswer server_answer) ->
  ∃ request calls,
    QueryClient_onConnection (messageToSend e) true = Ok [Do (CSend request)] ∧
    (concat chunks1 = request -> receive_all QueryServer_dispatch default_error chunks1 = Ok ([], calls)) ∧
    (concat chunks2 = sent calls ->
       receive_all QueryClient_dispatch (λ e, Do <$> default_error e) chunks2 =
       Ok ([], if e then [] else [GotAnswer (MAnswer server_answer)])).
Proof.
  intros He Ha. exists (encode (messageToSend e)), (server_reply (messageToSend e)). split; [|split].
  - unfold QueryClient_onConnection. by rewrite send_message_Ok.
  - intros E. rewrite (receive_all_exact QueryServer_dispatch default_error server_reply
      (λ x, server_dispatch x Ha) [messageToSend e]); [simpl; by rewrite app_nil_r|by repeat constructor|].
    rewrite E. unfold Codec.frames. simpl. by rewrite app_nil_r.
  - intros E. rewrite (receive_all_exact QueryClient_dispatch _ client_got client_dispatch
      (if e then [] else [MAnswer server_answer])); [by destruct e|destruct e; by repeat constructor|].
    rewrite E. destruct e; simpl; [done|]. unfold Codec.frames. simpl. by rewrite !app_nil_r.
Qed.
End application.

(** * An instance *)

(** Any injective serialisation serves: here the bits of a countable type's code. *)
Definition Message_sum : Type :=
  Z * list byte * list (list byte) + (Z * list byte * list byte * list (list byte) + option Z).

Definition to_sum (m : Message) : Message_sum :=
  match m with
  | MQuery q => inl (query_id q, query_questioner q, question q)
  | MAnswer a => inr (inl (answer_id a, answer_questioner a, answerer a, solution a))
  | MEmpty e => inr (inr (empty_id e))
  end.

Definition of_sum (x : Message_sum) : Message :=
  match x with
  | inl (i, n, q) => MQuery (mkQuery i n q)
  | inr (inl (i, n, a, s)) => MAnswer (mkAnswer i n a s)
  | inr (inr i) => MEmpty (mkEmpty i)
  end.

Fixpoint bits (p : positive) : list byte :=
  match p with xH => [] | xO p => x00 :: bits p | xI p => x01 :: bits p end.

Fixpoint of_bits (l : list byte) : positive :=
  match l with [] => xH | x00 :: l => xO (of_bits l) | _ :: l => xI (of_bits l) end.

Lemma of_bits_bits p : of_bits (bits p) = p.
Proof. induction p; simpl; congruence. Qed.

Definition parse_bits (t d : list byte) : option Message :=
  x ← countable.decode (A := Message_sum) (of_bits d);
  if decide (message_type (of_sum x) = t) then Some (of_sum x) else None.

#[export] Instance Message_protobuf : Protobuf Message := {|
  GetTypeName := message_type;
  AppendToString m := Some (bits (countable.encode (to_sum m)));
  known_type t := bool_decide (t ∈ [typeQuery; typeAnswer; typeEmpty]);
  ParseFromArray := parse_bits |}.

Lemma of_to_sum m : of_sum (to_sum m) = m.
Proof. by destruct m as [[]|[]|[]]. Qed.

#[export] Instance Message_laws : ProtobufLaws Message.
Proof.
  split.
  - intros m d [= <-]. split; [by destruct m|]. cbn [ParseFromArray Message_protobuf GetTypeName]. unfold parse_bits.
    rewrite of_bits_bits, countable.decode_encode. cbn. by rewrite of_to_sum, decide_True.
  - by intros [].
Qed.

#[export, refine] Instance Message_protocol : QueryProtocol := {|
  ByteSize m := zlen (bits (countable.encode (to_sum m))) |}.
Proof. done. intros m d [= <-]. done. Defined.

Lemma query_exchange_witness :
  ∃ request calls,
    QueryClient_onConnection adler (messageToSend false) true = Ok [Do (CSend request)] ∧
    receive_all adler (QueryServer_dispatch adler) default_error [take 30 request; drop 30 request] = Ok ([], calls) ∧
    receive_all adler QueryClient_dispatch (λ e, Do <$> default_error e) ((λ b, [b]) <$> sent calls) =
      Ok ([], [GotAnswer (MAnswer server_answer)]).
Proof.
  destruct (query_exchange adler false
    [take 30 (encode adler (messageToSend false)); drop 30 (encode adler (messageToSend false))]
    ((λ b, [b]) <$> encode adler (MAnswer server_answer))) as (request & calls & E1 & E2 & E3).
  - eexists. split; [reflexivity|]. vm_compute. discriminate.
  - eexists. split; [reflexivity|]. vm_compute. discriminate.
  - assert (request = encode adler (messageToSend false)) as -> by (vm_compute in E1 |- *; congruence).
    assert (calls = server_reply adler (MQuery client_query)) as ->.
    { specialize (E2 ltac:(vm_compute; reflexivity)). vm_compute in E2. vm_compute. congruence. }
    exists (encode adler (messageToSend false)), (server_reply adler (MQuery client_query)).
    split; [exact E1|]. split; [apply E2; vm_compute; reflexivity|]. apply E3. vm_compute. reflexivity.
Defined.

Lemma QueryServer_answers_first_witness :
  ∃ s calls s', sample_run [OEstablish] = Ok (tt, s) ∧
    QueryServer_onMessage adler (frames adler [messageToSend false; messageToSend false] ++ []) =
      Ok (zlen (frames adler [messageToSend false; messageToSend false]), calls) ∧
    mapM_ (call write3 true) calls s = Ok (tt, s') ∧
    state_ s' = kDisconnecting ∧ accepted s' = accepted s ++ encode adler (MAnswer server_answer).
Proof.
  destruct (sample_run_reachable [OEstablish]) as (s & E & Hr); [vm_compute; reflexivity|]. exists s.
  assert (bool_decide (state_ s = kConnected) && (zlen (accepted s) =? 5) = true) as [Hs H5]%andb_true_iff.
  { apply (after_run _ (λ s, bool_decide (state_ s = kConnected) && (zlen (accepted s) =? 5)) s) in E;
      [exact E|vm_compute; reflexivity]. }
  apply bool_decide_eq_true in Hs. apply Z.eqb_eq in H5.
  destruct (QueryServer_answers_first adler write3 write3_bounded greet echo [] (λ _, [])
    (messageToSend false) [messageToSend false] [] [] s) as (calls & s' & E1 & E2 & E3 & E4); [exact Hr|exact Hs|..].
  - eexists. split; [reflexivity|]. vm_compute. discriminate.
  - repeat constructor; (eexists; split; [reflexivity|]; vm_compute; discriminate).
  - done.
  - done.
  - rewrite H5. vm_compute. discriminate.
  - exists calls, s'. split_and!; [exact E|exact E1|exact E2|exact E3|exact E4].
Defined.
