(* ===== verification/CodecTests.v ===== *)
(** The codecs' own tests, [protobuf/codec/codec_test.cc] and
    [protobuf/descriptor_test/codec_test.cc], with their messages, the protobuf library and
    [adler32] as parameters: they pass for every message, but that the message which
    [testBadBuffer] damages must be short and lend itself to it; and the error that each damage
    to a message causes is the one that the test names. *)
From Stdlib Require Import Strings.String.
From S2P Require Import Prelude FixedBuffer LogStream Endian Codec.
Open Scope list_scope.

(** What the tests rely on of Adler-32: it is 32 bits wide, and a single changed byte shows. *)
Class ChecksumLaws (adler32 : list byte -> Z) := {
  adler32_range d : 0 <= adler32 d < 2 ^ 32;
  adler32_detects p x y q : x ≠ y -> adler32 (p ++ x :: q) ≠ adler32 (p ++ y :: q) }.

(** What the tests use of a message beside its serialisation. *)
Class TestProtobuf (Msg : Type) := {
  ByteSize : Msg -> Z;
  DebugString : Msg -> list byte }.

(** [data[i]++], on a [char]. *)
Definition incr (b : byte) : byte := byte_of_Z ((Z_of_byte b + 1) mod 256).
Definition decr (b : byte) : byte := byte_of_Z ((Z_of_byte b - 1) mod 256).

Section tests.
Context {Msg : Type} `{ProtobufLaws Msg} `{TestProtobuf Msg}.
Context (adler32 : list byte -> Z).

Abbreviation T := (M (list byte)).

(** [down_pointer_cast<T>], [dynamic_cast<T*>]: not null. *)
Definition is_a (T : list byte) (m : Msg) : bool := bool_decide (GetTypeName m = T).

(** The test's buffer is the state. *)
Definition fill (m : Msg) : T unit := λ buf,
  match fillEmptyBuffer adler32 buf m (ByteSize m) with Ok b => Ok (tt, b) | Fault f => Fault f end.

Definition readInt32 : T Z :=
  buf ← get; assert (4 <=? zlen buf) ;; modify (drop 4) ;; mret (asInt32 buf).

(** What the tests of one message have in common; [testEmpty] makes no [cast]. *)
Definition testMessage (cast : bool) (m : Msg) : T unit :=
  fill m ;;
  len ← readInt32;
  buf ← get;
  assert (len =? s32 (zlen buf)) ;;
  match parse adler32 buf len with
  | inl _ => fail AssertFail
  | inr message =>
      assert (bool_decide (DebugString message = DebugString m)) ;;
      when cast (assert (is_a (GetTypeName m) message))
  end.

Definition testQuery (query : Msg) : T unit := testMessage true query.
Definition testAnswer (answer : Msg) : T unit := testMessage true answer.
Definition testEmpty (empty : Msg) : T unit := testMessage false empty.

(** [redoCheckSum(data, len)] *)
Definition redoCheckSum (len : Z) (data : list byte) : list byte :=
  let n := Z.to_nat (len - 4) in
  take n data ++ be32 (s32 (adler32 (take n data))) ++ drop (Z.to_nat len) data.

(** A copy of the data is damaged and parsed: no message, and the error. *)
Definition bad (data : list byte) (len : Z) (e : ErrorCode) : T unit :=
  match parse adler32 data len with
  | inl e' => assert (bool_decide (e' = e))
  | inr _ => fail AssertFail
  end.

Definition testBadBuffer (empty : Msg) : T unit :=
  fill empty ;;
  len ← readInt32;
  buf ← get;
  assert (len =? s32 (zlen buf)) ;;
  let data := take (Z.to_nat len) buf in
  bad data (len - 1) kCheckSumError ;;
  bad (alter incr (Z.to_nat (len - 1)) data) len kCheckSumError ;;
  bad (alter incr 0%nat data) len kCheckSumError ;;
  bad (redoCheckSum len (<[3%nat := x00]> data)) len kInvalidNameLen ;;
  bad (redoCheckSum len (<[3%nat := x64]> data)) len kInvalidNameLen ;;
  bad (redoCheckSum len (alter decr 3%nat data)) len kUnknownMessageType ;;
  bad (redoCheckSum len (<[4%nat := x4d]> data)) len kUnknownMessageType.

(** [testOnMessage]: the two messages' bytes come in two pieces, cut everywhere; [g_count] is
    how many messages were delivered. *)
Definition cut_ok (buf1 all : list byte) (len : nat) : bool :=
  let s := Codec.onMessage adler32 (take len all) (mkStream [] [] []) in
  let expected := if (len =? length all)%nat then 2%nat else if (len <? length buf1)%nat then 0%nat else 1%nat in
  (length (delivered s) =? expected)%nat &&
  (length (delivered (Codec.onMessage adler32 (drop len all) s)) =? 2)%nat.

Definition testOnMessage (query empty : Msg) : res unit :=
  match fillEmptyBuffer adler32 [] query (ByteSize query), fillEmptyBuffer adler32 [] empty (ByteSize empty) with
  | Ok buf1, Ok buf2 =>
      let all := buf1 ++ buf2 in
      if forallb (cut_ok buf1 all) (seq 0 (S (length all))) then Ok tt else Fault AssertFail
  | _, _ => Fault FatalLog
  end.

(** [main()] of [protobuf/codec/codec_test.cc] *)
Definition codec_test (query answer empty empty43 query2 empty1982 : Msg) : res unit :=
  match testQuery query [], testAnswer answer [], testEmpty empty [], testBadBuffer empty43 [],
        testOnMessage query2 empty1982 with
  | Ok _, Ok _, Ok _, Ok _, Ok _ => Ok tt
  | _, _, _, _, _ => Fault AssertFail
  end.

(** ** The earlier codec's tests *)

(** What [testQuery] and [testAnswer] of [descriptor_test] have in common. *)
Definition testTransport (m : Msg) : T unit :=
  modify (λ _, encode adler32 m) ;;
  transport ← get;
  let len := asInt32 transport in
  assert (len =? zlen transport - 4) ;;
  modify (drop 4) ;;
  buf ← get;
  assert (len =? zlen buf) ;;
  match decode adler32 buf with
  | None => fail AssertFail
  | Some newQuery =>
      assert (is_a (GetTypeName m) newQuery) ;;
      assert (bool_decide (DebugString newQuery = DebugString m)) ;;
      modify (alter incr (length buf - 6)%nat) ;;     (* oops, some data is corrupted *)
      buf ← get;
      assert (match decode adler32 buf with Some badQuery => negb (is_a (GetTypeName m) badQuery) | None => true end)
  end.

Definition testQueryTransport (query : Msg) : T unit := testTransport query.
Definition testAnswerTransport (answer : Msg) : T unit := testTransport answer.

Definition testEmptyTransport (m : Msg) : T unit :=
  modify (λ _, encode adler32 m) ;;
  modify (drop 4) ;;
  buf ← get;
  match decode adler32 buf with
  | None => fail AssertFail
  | Some newEmpty =>
      assert (is_a (GetTypeName m) newEmpty) ;;
      assert (bool_decide (DebugString newEmpty = DebugString m))
  end.

(** [main()] of [protobuf/descriptor_test/codec_test.cc] *)
Definition transport_test (query answer empty : Msg) : res unit :=
  match testQueryTransport query [], testAnswerTransport answer [], testEmptyTransport empty [] with
  | Ok _, Ok _, Ok _ => Ok tt
  | _, _, _ => Fault AssertFail
  end.

(** ** The dispatchers' tests *)

(** Callbacks for two types are registered, and three messages dispatched. *)
Definition dispatcher_test (onQuery onAnswer : nat) (query answer empty : Msg) : list (res Codec.Call) :=
  let dispatcher := registerMessageCallback (GetTypeName query) onQuery ∅ in
  let dispatcher := registerMessageCallback (GetTypeName answer) onAnswer dispatcher in
  [onProtobufMessage dispatcher query; onProtobufMessage dispatcher answer; onProtobufMessage dispatcher empty].

Definition dispatcher_lite_test (onQuery onAnswer : nat) (query answer empty : Msg) : list Codec.Call :=
  let dispatcher := registerMessageCallback_lite (GetTypeName query) onQuery ∅ in
  let dispatcher := registerMessageCallback_lite (GetTypeName answer) onAnswer dispatcher in
  [onProtobufMessage_lite dispatcher query; onProtobufMessage_lite dispatcher answer; onProtobufMessage_lite dispatcher empty].
End tests.

(** * Bytes *)

Lemma s32_inj a b : 0 <= a < 2 ^ 32 -> 0 <= b < 2 ^ 32 -> s32 a = s32 b -> a = b.
Proof.
  intros Ha Hb E. apply (f_equal (λ z, z mod 2 ^ 32)) in E. unfold s32 in E.
  rewrite !swrap_unsigned, !Z.mod_small in E by lia. done.
Qed.

Lemma asInt32_inj c c' : length c = 4%nat -> length c' = 4%nat -> asInt32 c = asInt32 c' -> c = c'.
Proof.
  intros Hc Hc' E. unfold asInt32 in E. rewrite !take_ge in E by lia. unfold be32toh in E.
  apply s32_inj in E; [|apply (bswap_range 4)..]. apply (f_equal (bswap 4)) in E. rewrite !bswap_involutive in E.
  pose proof (le_val_range c). pose proof (le_val_range c'). rewrite Hc in *. rewrite Hc' in *.
  rewrite !Z.mod_small in E by done. apply le_val_inj; [lia|done].
Qed.

Lemma incr_ne b : incr b ≠ b.
Proof. assert (forallb (λ n, negb (bool_decide (incr (byte_of_Z n) = byte_of_Z n))) (seqZ 0 256) = true) as A by (vm_compute; reflexivity).
  intros E. rewrite forallb_forall in A. specialize (A (Z_of_byte b)). rewrite byte_of_Z_of_byte in A.
  rewrite bool_decide_eq_true_2 in A by done. discriminate A. apply list_elem_of_In, elem_of_seqZ. pose proof (Z_of_byte_range b). lia.
Qed.

(** A number below 256 on the wire. *)
Lemma be32_small n : 0 <= n < 256 -> be32 n = [x00; x00; x00; byte_of_Z n] ∧ decr (byte_of_Z n) = byte_of_Z ((n - 1) mod 256).
Proof.
  intros Hn.
  assert (forallb (λ n, bool_decide (be32 n = [x00; x00; x00; byte_of_Z n]) &&
    bool_decide (decr (byte_of_Z n) = byte_of_Z ((n - 1) mod 256))) (seqZ 0 256) = true) as A by (vm_compute; reflexivity).
  rewrite forallb_forall in A. specialize (A n ltac:(apply list_elem_of_In, elem_of_seqZ; lia)).
  apply andb_true_iff in A as [A1 A2]. by apply bool_decide_eq_true in A1, A2.
Qed.

Section proofs.
Context {Msg : Type} `{ProtobufLaws Msg} `{TestProtobuf Msg}.
Context (adler32 : list byte -> Z) `{ChecksumLaws adler32}.
Hypothesis ByteSize_serialized : ∀ (m : Msg) d, AppendToString m = Some d -> ByteSize m = zlen d.

Abbreviation sum b := (be32 (s32 (adler32 b))).

(** What a test finds in its buffer behind the length. *)
Lemma fill_run m d :
  AppendToString m = Some d -> zlen (body m d) + 4 < 2 ^ 31 ->
  fill adler32 m [] = Ok (tt, be32 (zlen (body m d) + 4) ++ body m d ++ sum (body m d)).
Proof.
  intros E Hl. unfold fill. rewrite (ByteSize_serialized m d E), (fillEmptyBuffer_encode adler32 m d E).
  rewrite (encode_body adler32 m d E); [done|]. pose proof (zlen_body m d). unfold kHeaderLen in *. lia.
Qed.

Lemma readInt32_run n rest :
  0 <= n < 2 ^ 31 -> readInt32 (be32 n ++ rest) = Ok (n, rest).
Proof.
  intros Hn. unfold readInt32. rewrite (bind_Ok _ _ _ (be32 n ++ rest) (be32 n ++ rest)) by done.
  rewrite (bind_Ok _ _ _ tt (be32 n ++ rest)).
  2:{ apply assert_Ok, Z.leb_le. rewrite length_app, length_be32. lia. }
  rewrite (bind_Ok _ _ _ tt (drop 4 (be32 n ++ rest))) by done.
  rewrite drop_app_length' by (by rewrite length_be32). rewrite asInt32_be32, s32_small by lia. done.
Qed.

(** The length that was read is that of the rest. *)
Lemma len_assert {A} n (buf : list byte) (k : M (list byte) A) :
  zlen buf = n -> n < 2 ^ 31 -> (assert (n =? s32 (zlen buf)) ;; k) buf = k buf.
Proof.
  intros E Hn. rewrite (bind_Ok _ _ buf tt buf); [done|]. apply assert_Ok. rewrite E, s32_small by lia. apply Z.eqb_refl.
Qed.

Lemma testMessage_passes cast m : encodable m -> ∃ buf, testMessage adler32 cast m [] = Ok (tt, buf).
Proof.
  intros (d & E & Hs). pose proof (zlen_body m d) as Hb. unfold kMaxMessageLen, kHeaderLen in *.
  unfold testMessage. rewrite (bind_Ok _ _ _ _ _ (fill_run m d E ltac:(lia))).
  set (rest := body m d ++ sum (body m d)).
  assert (zlen rest = zlen (body m d) + 4) as Hz by (unfold rest; rewrite length_app, length_be32; lia).
  assert (0 <= zlen (body m d) + 4 < 2 ^ 31) as Hr by lia.
  rewrite (bind_Ok _ _ _ _ _ (readInt32_run (zlen (body m d) + 4) rest Hr)).
  rewrite (bind_Ok _ _ rest rest rest) by done. rewrite len_assert by lia.
  pose proof (parse_encoded adler32 m d [] E) as P. rewrite app_nil_r in P. unfold kHeaderLen in P. fold rest in P.
  rewrite P by lia. rewrite (bind_Ok _ _ rest tt rest) by (by apply assert_Ok, bool_decide_eq_true).
  exists rest. destruct cast; [|done]. cbn [when]. apply assert_Ok. by apply bool_decide_eq_true.
Qed.

(** ** Damage *)

Lemma parse_checksum buf len :
  parse adler32 buf len = inl kCheckSumError <->
  s32 (adler32 (take (Z.to_nat (len - 4)) buf)) ≠ asInt32 (drop (Z.to_nat (len - 4)) buf).
Proof.
  unfold parse, kHeaderLen. destruct (Z.eqb_spec (s32 (adler32 (take (Z.to_nat (len - 4)) buf))) (asInt32 (drop (Z.to_nat (len - 4)) buf)));
    [|done]. split; [|done]. repeat case_match; discriminate.
Qed.

(** A message whose checksum was made to fit. *)
Lemma parse_redone b :
  4 <= zlen b ->
  (parse adler32 (b ++ sum b) (zlen b + 4) = inl kInvalidNameLen <-> ¬ (2 <= asInt32 b <= zlen b - 4)) ∧
  (parse adler32 (b ++ sum b) (zlen b + 4) = inl kUnknownMessageType <->
   2 <= asInt32 b <= zlen b - 4 ∧ known_type (take (Z.to_nat (asInt32 b - 1)) (drop 4 b)) = false).
Proof.
  intros Hl. unfold parse, kHeaderLen. replace (zlen b + 4 - 4) with (zlen b) by lia.
  rewrite Nat2Z.id, drop_app_length, take_app_length.
  assert (asInt32 (sum b) = s32 (adler32 b)) as ->.
  { pose proof (asInt32_be32 (s32 (adler32 b)) []) as A. rewrite app_nil_r in A. rewrite A. apply s32_small.
    apply (swrap_range 32). lia. }
  rewrite Z.eqb_refl. assert (asInt32 (b ++ sum b) = asInt32 b) as -> by (apply (asInt32_more 0); lia).
  destruct (Z.leb_spec 2 (asInt32 b)) as [Hlo|Hlo]; [|cbn [andb]; split; split; (done || lia)].
  destruct (Z.leb_spec (asInt32 b) (zlen b + 4 - 2 * 4)) as [Hhi|Hhi]; cbn [andb]; [|split; split; (done || lia)].
  rewrite (take_drop_more 4) by lia. change (Z.to_nat 4) with 4%nat.
  destruct (known_type _); [|split; split; (done || lia)].
  split; split; repeat case_match; (discriminate || lia || by intros []).
Qed.

Lemma redoCheckSum_app b c : zlen c = 4 -> redoCheckSum adler32 (zlen b + 4) (b ++ c) = b ++ sum b.
Proof.
  intros Hc. unfold redoCheckSum. replace (Z.to_nat (zlen b + 4 - 4)) with (length b) by lia. rewrite take_app_length.
  rewrite (drop_ge (b ++ c)) by (rewrite length_app; lia). by rewrite app_nil_r.
Qed.

Lemma bad_ok data len e buf : is_ok (bad adler32 data len e buf) = true <-> parse adler32 data len = inl e.
Proof.
  unfold bad. destruct (parse adler32 data len) as [e'|m]; [|done]. unfold assert. case_bool_decide; simpl; [naive_solver|].
  split; [done|]. congruence.
Qed.

Lemma bad_bind data len e (k : M (list byte) unit) buf :
  is_ok ((bad adler32 data len e ;; k) buf) = true <-> parse adler32 data len = inl e ∧ is_ok (k buf) = true.
Proof.
  rewrite <- (bad_ok data len e buf). unfold mbind, M_bind, bad. destruct (parse adler32 data len) as [e'|m]; [|simpl; naive_solver].
  unfold assert. case_bool_decide; simpl; naive_solver.
Qed.

(** A single byte of a message is changed, in the body or in the checksum. *)
Lemma changed_byte b i x y :
  (b ++ sum b) !! i = Some x -> y ≠ x -> parse adler32 (<[i := y]> (b ++ sum b)) (zlen b + 4) = inl kCheckSumError.
Proof.
  intros Hx Hne. apply parse_checksum. replace (Z.to_nat (zlen b + 4 - 4)) with (length b) by lia.
  pose proof (asInt32_be32 (s32 (adler32 b)) []) as A. rewrite app_nil_r, (s32_small (s32 _)) in A by (apply (swrap_range 32); lia).
  destruct (decide (i < length b)%nat) as [Hi|Hi].
  - rewrite insert_app_l by done. rewrite lookup_app_l in Hx by done.
    rewrite take_app_length', drop_app_length' by (by rewrite length_insert). rewrite A. intros X.
    apply s32_inj in X; [|apply adler32_range..]. rewrite <- (take_drop_middle b i x Hx) in X at 2.
    rewrite insert_take_drop in X by done. by apply (adler32_detects _ y x _) in X.
  - replace i with (length b + (i - length b))%nat in * by lia. rewrite lookup_app_r in Hx by lia.
    replace (length b + (i - length b) - length b)%nat with (i - length b)%nat in Hx by lia.
    rewrite insert_app_r, take_app_length, drop_app_length. intros X.
    apply (eq_trans A) in X. apply asInt32_inj in X; [|by rewrite length_be32|by rewrite length_insert, length_be32].
    apply (f_equal (λ l, l !! (i - length b)%nat)) in X. rewrite Hx, list_lookup_insert_eq in X by (by apply lookup_lt_Some in Hx).
    congruence.
Qed.

Lemma incremented_byte b i :
  (i < length (b ++ sum b))%nat -> parse adler32 (alter incr i (b ++ sum b)) (zlen b + 4) = inl kCheckSumError.
Proof.
  intros Hi. destruct (lookup_lt_is_Some_2 _ _ Hi) as [x Hx].
  assert (alter incr i (b ++ sum b) = <[i := incr x]> (b ++ sum b)) as ->.
  { apply list_eq. intros j. destruct (decide (j = i)) as [->|Hj].
    - by rewrite list_lookup_alter_eq, Hx, list_lookup_insert_eq.
    - by rewrite list_lookup_alter_ne, list_lookup_insert_ne by done. }
  apply (changed_byte b i x); [done|apply incr_ne].
Qed.

Section damage.
(** The message that [testBadBuffer] damages. *)
Context (m : Msg) (d : list byte).
Context (Hser : AppendToString m = Some d) (Hsize : zlen (body m d) + 4 < 2 ^ 31) (Hname : zlen (GetTypeName m) < 255).

Lemma body_name : drop 4 (body m d) = GetTypeName m ++ x00 :: d.
Proof. apply drop_app_length'. by rewrite length_be32. Qed.

Lemma body_bytes : body m d = [x00; x00; x00; byte_of_Z (zlen (GetTypeName m) + 1)] ++ GetTypeName m ++ x00 :: d.
Proof. destruct (be32_small (zlen (GetTypeName m) + 1)) as [E _]; [lia|]. unfold body. by rewrite E. Qed.

(** The length of the name set to [n], and the checksum made to fit. *)
Lemma redone_length n c :
  0 <= n < 256 -> zlen c = 4 -> redoCheckSum adler32 (zlen (body m d) + 4) (<[3%nat := byte_of_Z n]> (body m d ++ c)) =
    let b := be32 n ++ drop 4 (body m d) in b ++ sum b.
Proof.
  intros Hn Hc. destruct (be32_small n Hn) as [En _]. cbv zeta. rewrite body_name.
  assert (<[3%nat := byte_of_Z n]> (body m d ++ c) = (be32 n ++ GetTypeName m ++ x00 :: d) ++ c) as ->
    by (rewrite body_bytes, En; reflexivity).
  assert (zlen (body m d) = zlen (be32 n ++ GetTypeName m ++ x00 :: d)) as -> by (rewrite body_bytes, En; done).
  by apply redoCheckSum_app.
Qed.

Lemma bad_length n :
  0 <= n < 256 ->
  let r := parse adler32 (redoCheckSum adler32 (zlen (body m d) + 4) (<[3%nat := byte_of_Z n]> (body m d ++ sum (body m d)))) (zlen (body m d) + 4) in
  (r = inl kInvalidNameLen <-> ¬ (2 <= n <= zlen (body m d) - 4)) ∧
  (r = inl kUnknownMessageType <->
   2 <= n <= zlen (body m d) - 4 ∧ known_type (take (Z.to_nat (n - 1)) (GetTypeName m ++ x00 :: d)) = false).
Proof.
  intros Hn r. pose proof (zlen_body m d) as Hz. unfold kHeaderLen in *. subst r.
  rewrite (redone_length n _ Hn) by (by rewrite length_be32). cbv zeta. set (b := be32 n ++ drop 4 (body m d)).
  assert (zlen b = zlen (body m d)) as Eb by (unfold b; rewrite length_app, length_be32, length_drop; lia). rewrite <- Eb.
  assert (asInt32 b = n) as Ea by (unfold b; rewrite asInt32_be32; apply s32_small; lia).
  assert (drop 4 b = GetTypeName m ++ x00 :: d) as Ed by (unfold b; rewrite drop_app_length' by (by rewrite length_be32); apply body_name).
  rewrite <- Ea, <- Ed. apply parse_redone. lia.
Qed.

Lemma bad_name :
  parse adler32 (redoCheckSum adler32 (zlen (body m d) + 4) (alter decr 3%nat (body m d ++ sum (body m d)))) (zlen (body m d) + 4)
    = inl kUnknownMessageType <->
  2 <= zlen (GetTypeName m) ∧ known_type (take (length (GetTypeName m) - 1) (GetTypeName m)) = false.
Proof.
  pose proof (zlen_body m d) as Hz. unfold kHeaderLen in *. set (n := zlen (GetTypeName m)) in *.
  destruct (be32_small (n + 1)) as [_ Ed]; [lia|]. replace (n + 1 - 1) with n in Ed by lia. rewrite Z.mod_small in Ed by lia.
  assert (alter decr 3%nat (body m d ++ sum (body m d)) = <[3%nat := byte_of_Z n]> (body m d ++ sum (body m d))) as ->.
  { rewrite body_bytes. fold n. simpl. by rewrite Ed. }
  destruct (bad_length n ltac:(lia)) as [_ ->].
  rewrite take_app_le by lia. replace (Z.to_nat (n - 1)) with (length (GetTypeName m) - 1)%nat by lia.
  split; intros [? ?]; (split; [lia|done]).
Qed.

Lemma bad_type :
  parse adler32 (redoCheckSum adler32 (zlen (body m d) + 4) (<[4%nat := x4d]> (body m d ++ sum (body m d)))) (zlen (body m d) + 4)
    = inl kUnknownMessageType <-> known_type (x4d :: drop 1 (GetTypeName m)) = false.
Proof.
  pose proof (zlen_body m d) as Hz. pose proof (type_name_len m) as Hn. unfold kHeaderLen in *. pose proof body_bytes as Eb.
  set (n := zlen (GetTypeName m)) in *. destruct (GetTypeName m) as [|x name] eqn:En; [simpl in n; lia|]. cbn [drop]. rewrite drop_0.
  destruct (be32_small (n + 1)) as [E _]; [lia|]. set (b := be32 (n + 1) ++ (x4d :: name) ++ x00 :: d).
  assert (<[4%nat := x4d]> (body m d ++ sum (body m d)) = b ++ sum (body m d)) as -> by (rewrite Eb at 1; unfold b; rewrite E; reflexivity).
  assert (zlen (body m d) = zlen b) as El by (rewrite Eb; unfold b; rewrite E; done). rewrite El in Hz |- *.
  rewrite redoCheckSum_app by (by rewrite length_be32).
  assert (asInt32 b = n + 1) as Ea by (unfold b; rewrite asInt32_be32; apply s32_small; lia).
  assert (take (Z.to_nat (n + 1 - 1)) (drop 4 b) = x4d :: name) as Et.
  { unfold b. rewrite drop_app_length' by (by rewrite length_be32). apply take_app_length'. unfold n. simpl. lia. }
  destruct (parse_redone b ltac:(lia)) as [_ ->]. rewrite Ea, Et. split; [by intros []|]. intros Hk. split; [lia|done].
Qed.

(** What [testBadBuffer] relies on: the message is short, so that 100 is no length of a name in
    it; the names it is damaged to are of no type; and the truncated message's last bytes
    happen not to be its checksum. *)
Record damageable : Prop := {
  dm_name : 2 <= zlen (GetTypeName m);
  dm_short : zlen (body m d) < 104;
  dm_shorter_name : known_type (take (length (GetTypeName m) - 1) (GetTypeName m)) = false;
  dm_other_name : known_type (x4d :: drop 1 (GetTypeName m)) = false;
  dm_truncated : s32 (adler32 (take (length (body m d) - 1) (body m d))) ≠
    asInt32 (drop (length (body m d) - 1) (body m d ++ sum (body m d))) }.

Lemma testBadBuffer_passes : is_ok (testBadBuffer adler32 m []) = true <-> damageable.
Proof.
  pose proof (zlen_body m d) as Hz. pose proof (type_name_len m). unfold kHeaderLen in *.
  unfold testBadBuffer. rewrite (bind_Ok _ _ _ _ _ (fill_run m d Hser Hsize)).
  pose proof bad_name as Hbn. pose proof bad_type as Hbt.
  pose proof (bad_length 0 ltac:(lia)) as [Hl0 _]. pose proof (bad_length 100 ltac:(lia)) as [Hl100 _].
  change (byte_of_Z 0) with x00 in Hl0. change (byte_of_Z 100) with x64 in Hl100.
  set (b := body m d) in *. set (data := b ++ sum b) in *.
  assert (zlen data = zlen b + 4) as Hdata by (unfold data; rewrite length_app, length_be32; lia).
  assert (0 <= zlen b + 4 < 2 ^ 31) as Hr by lia.
  rewrite (bind_Ok _ _ _ _ _ (readInt32_run (zlen b + 4) data Hr)), (bind_Ok _ _ data data data) by done.
  rewrite len_assert by lia. cbv zeta. rewrite (take_ge data) by lia.
  rewrite !bad_bind, bad_ok, Hbn, Hbt, Hl0, Hl100, parse_checksum.
  replace (Z.to_nat (zlen b + 4 - 1 - 4)) with (length b - 1)%nat by lia.
  assert (take (length b - 1) data = take (length b - 1) b) as -> by (apply take_app_le; lia).
  pose proof (incremented_byte b 0 ltac:(fold data; lia)) as Hi0. pose proof (incremented_byte b (length b + 3) ltac:(fold data; lia)) as Hi3.
  fold data in Hi0, Hi3. replace (Z.to_nat (zlen b + 4 - 1)) with (length b + 3)%nat by lia.
  split; [intros (? & _ & _ & _ & ? & [? ?] & ?); split; fold b; (done || lia)|].
  intros [? Hshort ? ? ?]. fold b in Hshort. split_and!; try done; lia.
Qed.
End damage.

(** ** Two messages in two pieces *)

Lemma cut_passes m1 m2 len :
  encodable m1 -> encodable m2 -> (len <= length (encode adler32 m1 ++ encode adler32 m2))%nat ->
  cut_ok adler32 (encode adler32 m1) (encode adler32 m1 ++ encode adler32 m2) len = true.
Proof.
  intros Hm1 Hm2 Hlen. set (all := encode adler32 m1 ++ encode adler32 m2) in *.
  assert (frames adler32 [m1; m2] = all) as Hall by (unfold frames; simpl; by rewrite app_nil_r).
  assert (Forall encodable [m1; m2]) as Hms by (by repeat constructor).
  destruct (loop_frames adler32 (length (take len all)) [m1; m2] (take len all) [] [] Hms) as (ms1 & ms2 & buf & Ems & Et & Hinc & Er);
    [rewrite Hall; apply prefix_take|done|].
  unfold cut_ok. unfold Codec.onMessage at 1. cbn [inbuf delivered errors app]. rewrite Er. cbn [app delivered].
  assert (Codec.onMessage adler32 (drop len all) (Codec.onMessage adler32 (take len all) (mkStream [] [] [])) =
    onMessage_loop adler32 (length (buf ++ drop len all)) (mkStream (buf ++ drop len all) ms1 [])) as ->.
  { unfold Codec.onMessage at 2. cbn [inbuf delivered errors app]. rewrite Er. done. }
  assert (Forall encodable ms2) as Hms2 by (rewrite Ems in Hms; by apply Forall_app in Hms as [_ ?]).
  assert (buf ++ drop len all = frames adler32 ms2) as Eb.
  { apply (app_inv_head (frames adler32 ms1)). rewrite app_assoc, <- Et, take_drop, <- Hall, Ems. unfold frames. by rewrite fmap_app, concat_app. }
  destruct (loop_frames adler32 (length (buf ++ drop len all)) ms2 (buf ++ drop len all) ms1 [] Hms2) as (ms3 & ms4 & b' & E3 & Eb' & Hinc' & ->);
    [by rewrite Eb|done|]. cbn [delivered].
  assert (ms4 = []) as ->.
  { destruct ms4 as [|m ms4]; [done|]. exfalso. rewrite Eb, E3 in Eb'. unfold frames in Eb'. rewrite fmap_app, concat_app in Eb'.
    apply app_inv_head in Eb'. simpl in Eb', Hinc'. rewrite <- Eb', length_app in Hinc'. lia. }
  rewrite app_nil_r in E3. subst ms3. rewrite <- Ems. apply andb_true_iff. split; [|done]. apply Nat.eqb_eq.
  assert (length (take len all) = len) as Hl by (rewrite length_take; lia). apply (f_equal length) in Et. rewrite Hl, length_app in Et.
  assert (∀ m, encodable m -> (0 < length (encode adler32 m))%nat) as Hpos.
  { intros m Hm. destruct (frame_shape adler32 m Hm) as (L & fr & -> & _). rewrite length_app, length_be32. lia. }
  pose proof (Hpos m1 Hm1). pose proof (Hpos m2 Hm2). unfold all in *. rewrite length_app in *. destruct ms1 as [|x [|y [|z ms1]]]; try discriminate Ems.
  - simpl in Ems. rewrite <- Ems in Hinc. simpl in Hinc, Et.
    destruct (Nat.eqb_spec len (length (encode adler32 m1) + length (encode adler32 m2))); [lia|].
    destruct (Nat.ltb_spec len (length (encode adler32 m1))); [done|lia].
  - injection Ems as <- <-. simpl in Hinc. unfold frames in Et. simpl in Et. rewrite app_nil_r in Et.
    destruct (Nat.eqb_spec len (length (encode adler32 m1) + length (encode adler32 m2))); [lia|].
    destruct (Nat.ltb_spec len (length (encode adler32 m1))); [lia|done].
  - injection Ems as <- <- <-. simpl in Hinc. subst buf. unfold frames in Et. simpl in Et. rewrite app_nil_r, length_app in Et.
    destruct (Nat.eqb_spec len (length (encode adler32 m1) + length (encode adler32 m2))); [done|lia].
Qed.

Lemma testOnMessage_passes m1 m2 : encodable m1 -> encodable m2 -> testOnMessage adler32 m1 m2 = Ok tt.
Proof.
  intros Hm1 Hm2. pose proof Hm1 as (d1 & E1 & _). pose proof Hm2 as (d2 & E2 & _). unfold testOnMessage.
  rewrite (ByteSize_serialized m1 d1 E1), (ByteSize_serialized m2 d2 E2).
  rewrite (fillEmptyBuffer_encode adler32 m1 d1 E1), (fillEmptyBuffer_encode adler32 m2 d2 E2). cbv zeta.
  rewrite (proj2 (forallb_forall _ _)); [done|]. intros len Hin%list_elem_of_In%elem_of_seq. apply cut_passes; [done|done|lia].
Qed.

(** ** The earlier codec *)

Lemma testTransport_passes m : encodable m -> ∃ buf, testTransport adler32 m [] = Ok (tt, buf).
Proof.
  intros (d & E & Hs). pose proof (zlen_body m d) as Hz. pose proof (type_name_len m). unfold kMaxMessageLen, kHeaderLen in *.
  set (b := body m d) in *. set (buf := b ++ sum b). assert (encode adler32 m = be32 (zlen b + 4) ++ buf) as Ee.
  { rewrite (encode_body adler32 m d E) by lia. done. }
  assert (zlen buf = zlen b + 4) as Hb by (unfold buf; rewrite length_app, length_be32; lia).
  pose proof (decode_encode adler32 m d E) as Hdec. unfold kHeaderLen in Hdec. fold b in Hdec. rewrite Ee in Hdec.
  rewrite drop_app_length' in Hdec by (by rewrite length_be32). specialize (Hdec ltac:(lia)).
  unfold testTransport. rewrite Ee. set (tr := be32 (zlen b + 4) ++ buf).
  rewrite (bind_Ok _ _ [] tt tr), (bind_Ok _ _ tr tr tr) by done. cbv zeta.
  assert (asInt32 tr = zlen b + 4) as -> by (unfold tr; rewrite asInt32_be32; apply s32_small; lia).
  rewrite (bind_Ok _ _ tr tt tr).
  2:{ apply assert_Ok, Z.eqb_eq. unfold tr. rewrite length_app, length_be32. lia. }
  rewrite (bind_Ok _ _ tr tt buf) by (unfold modify, tr; by rewrite drop_app_length' by (by rewrite length_be32)).
  rewrite (bind_Ok _ _ buf buf buf) by done. rewrite (bind_Ok _ _ buf tt buf) by (apply assert_Ok, Z.eqb_eq; lia).
  rewrite Hdec. rewrite (bind_Ok _ _ buf tt buf) by (by apply assert_Ok, bool_decide_eq_true).
  rewrite (bind_Ok _ _ buf tt buf) by (by apply assert_Ok, bool_decide_eq_true).
  set (bad := alter incr (length buf - 6)%nat buf).
  rewrite (bind_Ok _ _ buf tt bad), (bind_Ok _ _ bad bad bad) by done. exists bad. apply assert_Ok.
  assert (length bad = length buf) as Hl by apply length_alter.
  rewrite decode_parse by (rewrite Hl; lia). rewrite Hl, (proj2 (Z.leb_le 10 _)) by lia. rewrite Hb.
  unfold bad, buf. rewrite incremented_byte by (fold buf; lia). done.
Qed.

Lemma testEmptyTransport_passes m : encodable m -> ∃ buf, testEmptyTransport adler32 m [] = Ok (tt, buf).
Proof.
  intros (d & E & Hs). pose proof (zlen_body m d) as Hz. unfold kMaxMessageLen in Hs. unfold kHeaderLen in *.
  pose proof (decode_encode adler32 m d E) as Hdec. unfold kHeaderLen in Hdec. specialize (Hdec ltac:(lia)).
  unfold testEmptyTransport. set (tr := encode adler32 m) in *.
  rewrite (bind_Ok _ _ [] tt tr), (bind_Ok _ _ tr tt (drop 4 tr)) by done.
  rewrite (bind_Ok _ _ (drop 4 tr) (drop 4 tr) (drop 4 tr)) by done. rewrite Hdec.
  rewrite (bind_Ok _ _ (drop 4 tr) tt (drop 4 tr)) by (by apply assert_Ok, bool_decide_eq_true).
  exists (drop 4 tr). by apply assert_Ok, bool_decide_eq_true.
Qed.

(** C29: the codecs' tests, for any encodable messages (and a type name shorter than 255 bytes):
    the two tests of messages and the one of messages in pieces always pass, so that the
    whole passes exactly when [testBadBuffer]'s message is [damageable] - short, and damaged to
    unknown names - and its truncation fails the checksum.  Whichever single byte of a message's
    body or checksum is changed, and whatever to, the checksum shows it; with the checksum redone,
    exactly the lengths of the name that do not fit are told; and the earlier codec's test
    passes. *)
Theorem codec_tests_pass (query answer empty empty43 query2 empty1982 : Msg) d :
  Forall encodable [query; answer; empty; query2; empty1982; empty43] -> AppendToString empty43 = Some d ->
  zlen (GetTypeName empty43) < 255 ->
  let data := body empty43 d ++ sum (body empty43 d) in
  let len := zlen data in
  (codec_test adler32 query answer empty empty43 query2 empty1982 = Ok tt <-> damageable empty43 d) ∧
  (∀ i x y, data !! i = Some x -> y ≠ x -> parse adler32 (<[i := y]> data) len = inl kCheckSumError) ∧
  (∀ n, 0 <= n < 256 ->
     parse adler32 (redoCheckSum adler32 len (<[3%nat := byte_of_Z n]> data)) len = inl kInvalidNameLen <-> ¬ (2 <= n <= len - 8)) ∧
  transport_test adler32 query answer empty = Ok tt.
Proof.
  rewrite !Forall_cons. intros (Hq & Ha & He & Hq2 & He2 & He43 & _) Hser Hname data len.
  assert (zlen (body empty43 d) + 4 < 2 ^ 31) as Hsize.
  { destruct He43 as (d' & E & Hs). rewrite Hser in E. injection E as <-. pose proof (zlen_body empty43 d). unfold kMaxMessageLen, kHeaderLen in *. lia. }
  assert (len = zlen (body empty43 d) + 4) as -> by (unfold len, data; rewrite length_app, length_be32; lia).
  split; [|split; [|split]].
  - rewrite <- (testBadBuffer_passes empty43 d Hser Hsize Hname). unfold codec_test, testQuery, testAnswer, testEmpty.
    destruct (testMessage_passes true query Hq) as [? ->], (testMessage_passes true answer Ha) as [? ->], (testMessage_passes false empty He) as [? ->].
    rewrite (testOnMessage_passes query2 empty1982 Hq2 He2). by destruct (testBadBuffer adler32 empty43 []).
  - intros i x y. apply changed_byte.
  - intros n Hn. unfold data. destruct (bad_length empty43 d Hname n Hn) as [-> _]. by replace (zlen (body empty43 d) + 4 - 8) with (zlen (body empty43 d) - 4) by lia.
  - unfold transport_test, testQueryTransport, testAnswerTransport.
    destruct (testTransport_passes query Hq) as [? ->], (testTransport_passes answer Ha) as [? ->].
    by destruct (testEmptyTransport_passes empty He) as [? ->].
Qed.

(** The dispatchers' tests: each message reaches the callback of its type, the third the default
    one. *)
Lemma dispatcher_tests f g (query answer empty : Msg) :
  GetTypeName query ≠ GetTypeName answer -> GetTypeName empty ∉ [GetTypeName query; GetTypeName answer] ->
  dispatcher_test f g query answer empty = map Ok [UserCallback f query; UserCallback g answer; DefaultCallback empty] ∧
  dispatcher_lite_test f g query answer empty = [UserCallback f query; UserCallback g answer; DefaultCallback empty].
Proof.
  intros Hne Hnin. assert (GetTypeName empty ≠ GetTypeName query ∧ GetTypeName empty ≠ GetTypeName answer) as [H3 H4] by (split; set_solver).
  set (regs := [(GetTypeName query, f); (GetTypeName answer, g)]).
  assert (∀ m, onProtobufMessage (register_all regs) m = Ok (onProtobufMessage_lite (register_all_lite regs) m)) as Hsame.
  { intros m. rewrite onProtobufMessage_registered. unfold onProtobufMessage_lite. by rewrite register_all_lite_lookup. }
  assert (dispatcher_lite_test f g query answer empty = [UserCallback f query; UserCallback g answer; DefaultCallback empty]) as Hlite.
  { unfold dispatcher_lite_test, onProtobufMessage_lite. fold (register_all_lite regs).
    change (registerMessageCallback_lite (GetTypeName answer) g _) with (register_all_lite regs).
    rewrite !register_all_lite_lookup. unfold regs. cbn [last_registered].
    rewrite !(decide_True (P := GetTypeName query = GetTypeName query)), !(decide_True (P := GetTypeName answer = GetTypeName answer)) by done.
    by rewrite !decide_False by congruence. }
  split; [|exact Hlite]. change (dispatcher_test f g query answer empty) with (map (onProtobufMessage (register_all regs)) [query; answer; empty]).
  rewrite <- Hlite. simpl. by rewrite !Hsame.
Qed.
End proofs.

(** * Adler-32 *)

Definition adler_step (ab : Z * Z) (x : byte) : Z * Z :=
  let a := (ab.1 + Z_of_byte x) mod 65521 in (a, (ab.2 + a) mod 65521).

Lemma adler_fold bs : adler bs = let ab := foldl adler_step (1, 0) bs in ab.2 * 65536 + ab.1.
Proof.
  unfold adler. assert (∀ ab, foldl (λ '(a, b) x, let a := (a + Z_of_byte x) mod 65521 in (a, (b + a) mod 65521)) ab bs = foldl adler_step ab bs) as E.
  { induction bs as [|x bs IH]; intros [a b]; [done|]. simpl. apply IH. }
  rewrite E. by destruct (foldl adler_step (1, 0) bs).
Qed.

Lemma adler_fold_range bs ab :
  0 <= ab.1 < 65521 -> 0 <= ab.2 < 65521 -> 0 <= (foldl adler_step ab bs).1 < 65521 ∧ 0 <= (foldl adler_step ab bs).2 < 65521.
Proof.
  revert ab. induction bs as [|x bs IH]; intros ab H1 H2; [done|]. simpl. apply IH; simpl; apply Z.mod_pos_bound; lia.
Qed.

(** The two sums of a difference in the first byte. *)
Lemma adler_fold_diff q ab ab' :
  ab.1 mod 65521 ≠ ab'.1 mod 65521 -> (foldl adler_step ab q).1 mod 65521 ≠ (foldl adler_step ab' q).1 mod 65521.
Proof.
  revert ab ab'. induction q as [|x q IH]; intros ab ab' Hne; [done|]. simpl. apply IH. simpl. rewrite !Z.mod_mod by lia.
  intros E. apply Hne. apply (f_equal (λ z, (z - Z_of_byte x) mod 65521)) in E.
  rewrite !Zminus_mod_idemp_l in E. by replace (ab.1 + Z_of_byte x - Z_of_byte x) with ab.1 in E by lia;
    replace (ab'.1 + Z_of_byte x - Z_of_byte x) with ab'.1 in E by lia.
Qed.

#[export] Instance adler_laws : ChecksumLaws adler.
Proof.
  split.
  - intros bs. rewrite adler_fold. cbv zeta. destruct (adler_fold_range bs (1, 0)) as [H1 H2]; simpl; lia.
  - intros p x y q Hne E. rewrite !adler_fold, !foldl_app in E. cbv zeta in E. simpl in E.
    set (ab := foldl adler_step (1, 0) p) in *. destruct (adler_fold_range p (1, 0)) as [Ha Hb]; [simpl; lia..|]. fold ab in Ha, Hb.
    assert (∀ z, 0 <= (adler_step ab z).1 < 65521 ∧ 0 <= (adler_step ab z).2 < 65521) as Hr
      by (intros z; simpl; split; apply Z.mod_pos_bound; lia).
    destruct (adler_fold_range q (adler_step ab x)) as [H1 H2]; [apply Hr..|].
    destruct (adler_fold_range q (adler_step ab y)) as [H3 H4]; [apply Hr..|].
    apply (adler_fold_diff q (adler_step ab x) (adler_step ab y)).
    + simpl. rewrite !Z.mod_mod by lia. intros X. apply Hne. rewrite <- (byte_of_Z_of_byte x), <- (byte_of_Z_of_byte y). f_equal.
      pose proof (Z_of_byte_range x). pose proof (Z_of_byte_range y).
      apply (f_equal (λ z, (z - ab.1) mod 65521)) in X. rewrite !Zminus_mod_idemp_l in X.
      replace (ab.1 + Z_of_byte x - ab.1) with (Z_of_byte x) in X by lia.
      replace (ab.1 + Z_of_byte y - ab.1) with (Z_of_byte y) in X by lia. by rewrite !Z.mod_small in X by lia.
    + f_equal. lia.
Qed.

(** * The tests, run *)

#[export] Instance QMsg_test : TestProtobuf QMsg := {|
  ByteSize m := match m with Query d => zlen d | Answer d => zlen d end;
  DebugString m := match m with Query d => bytes "Query " ++ d | Answer d => bytes "Answer " ++ d end |}.

Lemma QMsg_size (m : QMsg) d : AppendToString m = Some d -> ByteSize m = zlen d.
Proof. by destruct m; intros [= ->]. Qed.

Lemma sample_damageable : damageable adler (Answer (bytes "+")) (bytes "+").
Proof. split; vm_compute; congruence. Qed.

Lemma sample_encodable (m : QMsg) : zlen (match m with Query d => d | Answer d => d end) < 1000 -> encodable m.
Proof. destruct m as [d|d]; intros Hd; exists d; (split; [reflexivity|]); unfold kMaxMessageLen, kHeaderLen; cbn in *; lia. Qed.

Lemma codec_tests_pass_witness :
  let q := Query (bytes "Running?") in let a := Answer (bytes "Jump!") in let e := Answer [] in
  codec_test adler q a e (Answer (bytes "+")) q e = Ok tt ∧ transport_test adler q a e = Ok tt.
Proof.
  intros q a e.
  destruct (codec_tests_pass adler QMsg_size q a e (Answer (bytes "+")) q e (bytes "+")) as (E & _ & _ & H).
  - repeat (constructor; [apply sample_encodable; vm_compute; reflexivity|]). constructor.
  - reflexivity.
  - vm_compute. reflexivity.
  - split; [apply E, sample_damageable|exact H].
Defined.

(** In a longer message the test's 100 is a possible length of a name. *)
Example long_message_fails :
  testBadBuffer adler (Answer (replicate 200 x2b)) [] = Fault AssertFail.
Proof. vm_compute. reflexivity. Qed.
