(* ===== verification/TestPrograms.v ===== *)
(** Test programs of the repository, run on the models: [tcp.muduo/Buffer_unittest.cpp], whose
    checks all hold, and [tcp.muduo/TcpConnection_test3.cpp], a character generator that
    sends its message again whenever it was written - if it is told. *)
From S2P Require Import Prelude Channel Buffer TcpConnection TcpProps TcpPair.
Open Scope list_scope.

(** * The buffer's test *)

Definition check (b : bool) : M Buffer unit := assert b.

(** [BOOST_CHECK_EQUAL] of the three sizes. *)
Definition sizes (readable writable prependable : Z) : M Buffer unit :=
  buf ← get;
  check (readableBytes buf =? readable) ;;
  check (writableBytes buf =? writable) ;;
  check (prependableBytes buf =? prependable).

Definition tBufferAppendRetrieve : M Buffer unit :=
  sizes 0 kInitialSize kCheapPrepend ;;
  let str := repeat x78 200 in
  append str ;;
  sizes (zlen str) (kInitialSize - zlen str) kCheapPrepend ;;
  str2 ← retrieveAsString 50;
  check (zlen str2 =? 50) ;;
  sizes (zlen str - zlen str2) (kInitialSize - zlen str) (kCheapPrepend + zlen str2) ;;
  check (bool_decide (str2 = repeat x78 50)) ;;
  append str ;;
  sizes (2 * zlen str - zlen str2) (kInitialSize - 2 * zlen str) (kCheapPrepend + zlen str2) ;;
  str3 ← retrieveAllAsString;
  check (zlen str3 =? 350) ;;
  sizes 0 kInitialSize kCheapPrepend ;;
  check (bool_decide (str3 = repeat x78 350)).

Lemma Buffer_unittest :
  match new_Buffer kInitialSize with Ok buf => is_ok (tBufferAppendRetrieve buf) | Fault _ => false end = true.
Proof. vm_compute. reflexivity. Qed.

(** * The character generator *)

(** The printable characters, twice, and 94 lines of 72 of them. *)
Definition line : list byte := let l := map byte_of_Z (seqZ 33 (127 - 33)) in l ++ l.
Definition message : list byte := concat (map (λ i, take 72 (drop i line) ++ [x0a]) (seq 0 94)).

Definition chargen_onConnection (connected : bool) : list Call := if connected then [CSend message] else [].
Definition chargen_onWriteComplete : list Call := [CSend message].
Definition chargen_onMessage (buf : list byte) : Z * list Call := (zlen buf, []).

(** Every [write] takes all it is given. *)
Definition chargen : User :=
  mkUser (λ _ d, inr (zlen d)) chargen_onConnection chargen_onMessage chargen_onWriteComplete (λ _, []).

Definition established (t : TcpConnection) : res (unit * TcpConnection) :=
  connectEstablished (write chargen) (onConnection chargen) t.

Definition next (t : TcpConnection) : res (unit * TcpConnection) :=
  run_next (write chargen) (onConnection chargen) (onWriteComplete chargen) (onHighWaterMark chargen)
    (removeConnection false) t.

(** [n] turns of the loop. *)
Fixpoint turns (n : nat) : M TcpConnection unit :=
  match n with O => mret tt | S n' => next ;; turns n' end.

(** The connection is up and everything has been written. *)
Record idle (t : TcpConnection) : Prop := {
  id_up : state_ t = kConnected;
  id_writing : isWriting (channel_ t) = false;
  id_output : readableBytes (outputBuffer_ t) = 0 }.

Lemma send_message t :
  idle t ->
  ∃ t', call (write chargen) true (CSend message) t = Ok (tt, t') ∧ idle t' ∧ written t' = written t ++ message ∧
    writeCompleteCallback_ t' = writeCompleteCallback_ t ∧
    functors t' = functors t ++ (if writeCompleteCallback_ t then [FWriteComplete] else []).
Proof.
  intros [Hup Hw Ho]. simpl. unfold send. rewrite (bind_Ok _ _ t t t) by done. rewrite Hup. rewrite bool_decide_true by done. cbn [when].
  generalize message as m. intros m. unfold sendInLoop. set (t1 := add_accepted m t).
  rewrite (bind_Ok _ _ t tt t1), (bind_Ok _ _ t1 t1 t1) by done. change (channel_ t1) with (channel_ t).
  change (outputBuffer_ t1) with (outputBuffer_ t). rewrite Hw, Ho. cbn [negb andb Z.eqb].
  set (t2 := add_written (take (Z.to_nat (zlen m)) m) t1).
  set (t3 := if writeCompleteCallback_ t then set_functors (functors t2 ++ [FWriteComplete]) t2 else t2).
  rewrite (bind_Ok _ _ t1 (zlen m, u64 (zlen m - zlen m)) t3).
  2:{ rewrite (bind_Ok _ _ t1 (zlen m) t2) by done. rewrite (proj2 (Z.leb_le 0 _)) by lia. rewrite Z.ltb_irrefl.
      change (writeCompleteCallback_ t1) with (writeCompleteCallback_ t). unfold t3. by destruct (writeCompleteCallback_ t). }
  rewrite (bind_Ok _ _ t3 tt t3) by (apply assert_Ok; by rewrite (proj2 (Z.leb_le 0 _)) by lia). rewrite Z.ltb_irrefl.
  exists t3. split; [done|]. assert (take (Z.to_nat (zlen m)) m = m) as Ht by (rewrite Nat2Z.id; apply take_ge; lia).
  unfold t3, t2. rewrite Ht. destruct (writeCompleteCallback_ t) eqn:Hc; split_and!; try done; simpl; by rewrite ?app_nil_r.
Qed.

(** The connection that a server has made sends the message once: the server does not hand its
    write-complete callback on ([TcpServer.v]), and nothing is left to do. *)
Theorem chargen_stalls fd garbage t :
  new_TcpConnection fd garbage = Ok t ->
  ∃ t', established t = Ok (tt, t') ∧ written t' = message ∧ functors t' = [] ∧ ∀ n, turns n t' = Ok (tt, t').
Proof.
  intros E.
  assert (state_ t = kConnecting ∧ functors t = [] ∧ written t = [] ∧ writeCompleteCallback_ t = false ∧
    isWriting (enableReading (channel_ t)) = false ∧ readableBytes (outputBuffer_ t) = 0) as (Hst & Hfn & Hwr & Hwc & Hch & Ho).
  { unfold new_TcpConnection in E. destruct (new_Buffer kInitialSize) as [b|] eqn:Eb; [|done]. injection E as <-.
    split_and!; try done. vm_compute in Eb. by injection Eb as <-. }
  unfold established, connectEstablished, on_channel, tell.
  set (t1 := set_state kConnected t). set (t2 := set_chan (set_added true (enableReading (channel_ t1))) t1).
  set (t3 := add_event (UConnection true) t2).
  destruct (send_message t3) as (t' & Et & Hi & Hw & _ & Hf); [by split|].
  change (written t3) with (written t) in Hw. change (functors t3) with (functors t) in Hf.
  change (writeCompleteCallback_ t3) with (writeCompleteCallback_ t) in Hf. rewrite Hwr in Hw. rewrite Hfn, Hwc in Hf.
  exists t'. split.
  - rewrite (bind_Ok _ _ t t t) by done. rewrite (bind_Ok _ _ t tt t) by (by rewrite Hst). rewrite (bind_Ok _ _ t tt t1), (bind_Ok _ _ t1 tt t2), (bind_Ok _ _ t2 tt t3) by done.
    cbn [mapM_ onConnection chargen chargen_onConnection]. by rewrite (bind_Ok _ _ t3 tt t').
  - split; [exact Hw|]. assert (functors t' = []) as Hn by exact Hf. split; [exact Hn|]. intros n. induction n as [|n IH]; [done|].
    cbn [turns]. rewrite (bind_Ok _ _ t' tt t'); [exact IH|]. unfold next, run_next. rewrite (bind_Ok _ _ t' t' t') by done. by rewrite Hn.
Qed.

(** With the callback set on the connection itself the generator goes on: every turn of the loop
    writes the message once more. *)
Theorem chargen_goes_on t n :
  idle t -> writeCompleteCallback_ t = true -> functors t = [FWriteComplete] ->
  ∃ t', turns n t = Ok (tt, t') ∧ idle t' ∧ functors t' = [FWriteComplete] ∧ written t' = written t ++ concat (repeat message n).
Proof.
  revert t. induction n as [|n IH]; intros t Hi Hc Hf; [exists t; simpl; by rewrite app_nil_r|].
  set (t1 := add_event UWriteComplete (set_functors [] t)).
  destruct (send_message t1) as (t2 & E & Hi2 & Hw2 & Hc2 & Hf2); [by destruct Hi|].
  destruct (IH t2 Hi2) as (t3 & E3 & Hi3 & Hf3 & Hw3); [by rewrite Hc2|by rewrite Hf2, (Hc : writeCompleteCallback_ t1 = true)|].
  exists t3. split_and!; [|done|done|by rewrite Hw3, Hw2; simpl; rewrite <- app_assoc].
  cbn [turns]. rewrite (bind_Ok _ _ t tt t2); [exact E3|]. unfold next, run_next. rewrite (bind_Ok _ _ t t t) by done. rewrite Hf.
  rewrite (bind_Ok _ _ t tt (set_functors [] t)) by done. simpl. unfold tell. rewrite (bind_Ok _ _ _ tt t1) by done.
  cbn [mapM_ onWriteComplete chargen chargen_onWriteComplete]. by rewrite (bind_Ok _ _ t1 tt t2).
Qed.
