(* ===== verification/TimingWheel.v ===== *)
(** Closing idle connections with a timing wheel: [idleconnection/echo.h] and [echo.cc].
    An [Entry] is a number, never used again, as the control block of its weak pointers
    is; its shared pointers are the buckets it is in.  [boost::circular_buffer] is a
    parameter; [conn->shutdown()] is recorded. *)
From stdpp Require Export sets fin_sets.
From S2P Require Import Prelude.
Open Scope list_scope.

Abbreviation Bucket := (gset Z).

(** [boost::circular_buffer<Bucket>], and what its documentation says of the operations the
    server uses. *)
Class CircularBuffer (CB : Type) := {
  cb_make : nat -> CB;                       (* circular_buffer(capacity) *)
  cb_list : CB -> list Bucket;               (* begin() to end() *)
  cb_capacity : CB -> nat;
  cb_resize : nat -> CB -> CB;
  cb_push_back : Bucket -> CB -> CB;
  cb_set_back : Bucket -> CB -> CB }.        (* back() = ... *)

Class CircularBufferLaws (CB : Type) `{CircularBuffer CB} := {
  cb_make_spec n : cb_list (cb_make n) = [] ∧ cb_capacity (cb_make n) = n;
  cb_resize_spec n b : (length (cb_list b) <= n)%nat ->
    cb_list (cb_resize n b) = cb_list b ++ replicate (n - length (cb_list b)) ∅ ∧
    cb_capacity (cb_resize n b) = Nat.max (cb_capacity b) n;
  cb_push_back_full x b : length (cb_list b) = cb_capacity b -> cb_list b ≠ [] ->
    cb_list (cb_push_back x b) = tail (cb_list b) ++ [x] ∧ cb_capacity (cb_push_back x b) = cb_capacity b;
  cb_set_back_spec x b l y : cb_list b = l ++ [y] ->
    cb_list (cb_set_back x b) = l ++ [x] ∧ cb_capacity (cb_set_back x b) = cb_capacity b }.

(** * The server *)

Record EchoServer (CB : Type) := mkEcho {
  connectionBuckets_ : CB;
  entries : gmap Z Z;             (* the Entry objects: their weakConn_ *)
  created : Z;                    (* Entry objects so far *)
  contexts : gmap Z Z;            (* the connections' contexts: weak pointers to an Entry *)
  alive : gset Z;                 (* the TcpConnection objects *)
  shutdowns : list Z;             (* the calls of conn->shutdown() *)
  echoed : list (Z * list byte) }. (* the calls of conn->send(msg) *)
Arguments mkEcho {CB}. Arguments connectionBuckets_ {CB}. Arguments entries {CB}. Arguments created {CB}.
Arguments contexts {CB}. Arguments alive {CB}. Arguments shutdowns {CB}. Arguments echoed {CB}.

Section server.
Context {CB : Type} `{CircularBufferLaws CB}.

Abbreviation E := (EchoServer CB).

Definition set_buckets (b : CB) (s : E) : E :=
  mkEcho b (entries s) (created s) (contexts s) (alive s) (shutdowns s) (echoed s).
Definition set_entries (es : gmap Z Z) (s : E) : E :=
  mkEcho (connectionBuckets_ s) es (created s) (contexts s) (alive s) (shutdowns s) (echoed s).
Definition set_created (n : Z) (s : E) : E :=
  mkEcho (connectionBuckets_ s) (entries s) n (contexts s) (alive s) (shutdowns s) (echoed s).
Definition setContext (c e : Z) (s : E) : E :=
  mkEcho (connectionBuckets_ s) (entries s) (created s) (<[c := e]> (contexts s)) (alive s) (shutdowns s) (echoed s).
Definition set_alive (a : gset Z) (s : E) : E :=
  mkEcho (connectionBuckets_ s) (entries s) (created s) (contexts s) a (shutdowns s) (echoed s).
Definition add_shutdown (c : Z) (s : E) : E :=
  mkEcho (connectionBuckets_ s) (entries s) (created s) (contexts s) (alive s) (shutdowns s ++ [c]) (echoed s).
Definition add_echo (c : Z) (msg : list byte) (s : E) : E :=
  mkEcho (connectionBuckets_ s) (entries s) (created s) (contexts s) (alive s) (shutdowns s) (echoed s ++ [(c, msg)]).

(** [EchoServer(loop, listenAddr, idleSeconds)]; a negative number is converted to a huge
    capacity, which the buffer's constructor refuses. *)
Definition new_EchoServer (idleSeconds : Z) : res E :=
  if idleSeconds <? 0 then Fault Throw
  else
    let n := Z.to_nat idleSeconds in
    Ok (mkEcho (cb_resize n (cb_make n)) ∅ 0 ∅ ∅ [] []).

(** [new Entry(wp)] *)
Definition new_Entry (c : Z) : M E Z := λ s,
  Ok (created s, set_created (created s + 1) (set_entries (<[created s := c]> (entries s)) s)).

(** [~Entry()] *)
Definition delete_Entry (e : Z) (s : E) : E :=
  match entries s !! e with
  | Some c =>
      let s' := set_entries (delete e (entries s)) s in
      if decide (c ∈ alive s) then add_shutdown c s' else s'
  | None => s
  end.

(** The shared pointers in the buckets change: an Entry whose last one is gone is deleted. *)
Definition assign_buckets (b : CB) : M E unit := λ s,
  let gone := ⋃ (cb_list (connectionBuckets_ s)) ∖ ⋃ (cb_list b) in
  Ok (tt, foldl (flip delete_Entry) (set_buckets b s) (elements gone)).

(** [connectionBuckets_.back().insert(ep)] *)
Definition insert_back (e : Z) : M E unit :=
  s ← get;
  match last (cb_list (connectionBuckets_ s)) with
  | None => fail UB
  | Some b => assign_buckets (cb_set_back ({[e]} ∪ b) (connectionBuckets_ s))
  end.

Definition onConnection (c : Z) (connected : bool) : M E unit :=
  if connected then
    ep ← new_Entry c;
    insert_back ep ;;
    modify (setContext c ep)
  else
    s ← get;
    match contexts s !! c with
    | Some wp => mret tt
    | None => fail Throw              (* bad_any_cast *)
    end.

Definition onMessage (c : Z) (msg : list byte) : M E unit :=
  modify (add_echo c msg) ;;
  s ← get;
  wp ← of_option Throw (contexts s !! c);
  when (bool_decide (is_Some (entries s !! wp))) (insert_back wp).

Definition onTimer : M E unit :=
  s ← get; assign_buckets (cb_push_back ∅ (connectionBuckets_ s)).
(** What happens on the loop's thread: connections come up, receive, go down and are freed,
    and the timer ticks every second. *)
Inductive Event := Up (c : Z) | Msg (c : Z) (msg : list byte) | Down (c : Z) | Destroy (c : Z) | Tick.

Definition handle (ev : Event) : M E unit :=
  match ev with
  | Up c => modify (λ s, set_alive ({[c]} ∪ alive s) s) ;; onConnection c true
  | Msg c msg => onMessage c msg
  | Down c => onConnection c false
  | Destroy c => modify (λ s, set_alive (alive s ∖ {[c]}) s)
  | Tick => onTimer
  end.

(** * What the server promises *)

(** Each connection has been idle for a number of ticks; it is closed at the [n]-th. *)
Record Idle := mkIdle { idle : gmap Z nat; known : gset Z; live : gset Z; closed : list Z }.

Definition expiring (n : nat) (i : Idle) : gset Z :=
  dom (filter (λ x : Z * nat, S x.2 = n) (idle i)) ∩ live i.

Definition idle_step (n : nat) (ev : Event) (i : Idle) : Idle :=
  match ev with
  | Up c => mkIdle (<[c := O]> (idle i)) ({[c]} ∪ known i) ({[c]} ∪ live i) (closed i)
  | Msg c _ =>
      mkIdle (if decide (is_Some (idle i !! c)) then <[c := O]> (idle i) else idle i) (known i) (live i) (closed i)
  | Down _ => i
  | Destroy c => mkIdle (idle i) (known i) (live i ∖ {[c]}) (closed i)
  | Tick =>
      mkIdle (S <$> filter (λ x : Z * nat, S x.2 ≠ n) (idle i)) (known i) (live i)
        (closed i ++ elements (expiring n i))
  end.

(** A connection comes up once, and before anything else happens to it. *)
Definition possible (ev : Event) (i : Idle) : Prop :=
  match ev with
  | Up c => c ∉ known i
  | Msg c _ | Down c => c ∈ known i
  | Destroy _ | Tick => True
  end.

Fixpoint possible_run (n : nat) (evs : list Event) (i : Idle) : Prop :=
  match evs with [] => True | ev :: evs' => possible ev i ∧ possible_run n evs' (idle_step n ev i) end.

Definition idle_run (n : nat) (evs : list Event) (i : Idle) : Idle := foldl (flip (idle_step n)) i evs.

(** ** How old an Entry is *)

(** The number of buckets behind the newest one it is in; the newest bucket first. *)
Fixpoint age (e : Z) (l : list Bucket) : option nat :=
  match l with
  | [] => None
  | b :: l' => if decide (e ∈ b) then Some O else S <$> age e l'
  end.

Lemma age_union e l : is_Some (age e l) <-> e ∈ ⋃ l.
Proof.
  induction l as [|b l IH]; simpl; [split; [by intros []|set_solver]|].
  case_decide; [set_solver|]. rewrite fmap_is_Some, IH. set_solver.
Qed.

Lemma age_lt e l k : age e l = Some k -> (k < length l)%nat.
Proof.
  revert k; induction l as [|b l IH]; intros k; simpl; [done|]. case_decide; [intros [= <-]; lia|].
  destruct (age e l) as [k'|]; [|done]. intros [= <-]. specialize (IH k' eq_refl). lia.
Qed.

Lemma age_take e l m :
  age e (take m l) = match age e l with Some k => if decide (k < m)%nat then Some k else None | None => None end.
Proof.
  revert m; induction l as [|b l IH]; intros [|m]; simpl; try done.
  - case_decide; [done|]. by destruct (age e l).
  - case_decide; [by rewrite decide_True by lia|]. rewrite IH. destruct (age e l) as [k|]; [|done]. simpl.
    destruct (decide (k < m)%nat); [rewrite decide_True by lia|rewrite decide_False by lia]; done.
Qed.

Lemma union_reverse (l : list Bucket) : ⋃ (reverse l) = ⋃ l.
Proof. apply set_eq. intros e. rewrite !elem_of_union_list. setoid_rewrite elem_of_reverse. done. Qed.

(** The wheel, newest bucket first. *)
Definition wheel (s : E) : list Bucket := reverse (cb_list (connectionBuckets_ s)).

Record represents (n : nat) (s : E) (i : Idle) : Prop := {
  w_pos : (0 < n)%nat;
  w_length : length (cb_list (connectionBuckets_ s)) = n;
  w_capacity : cb_capacity (connectionBuckets_ s) = n;
  w_context e c : entries s !! e = Some c -> contexts s !! c = Some e;
  w_injective c c' e : contexts s !! c = Some e -> contexts s !! c' = Some e -> c = c';
  w_created c e : contexts s !! c = Some e -> e < created s;
  w_known c : is_Some (contexts s !! c) <-> c ∈ known i;
  w_entries e : is_Some (entries s !! e) <-> is_Some (age e (wheel s));
  w_idle c : idle i !! c = contexts s !! c ≫= λ e, age e (wheel s);
  w_alive : alive s = live i;
  w_closed : shutdowns s ≡ₚ closed i }.

(** ** The operations *)

Lemma delete_all es s :
  NoDup es -> Forall (λ e, is_Some (entries s !! e)) es ->
  foldl (flip delete_Entry) s es =
  mkEcho (connectionBuckets_ s) (filter (λ x : Z * Z, x.1 ∉ es) (entries s)) (created s) (contexts s) (alive s)
    (shutdowns s ++ filter (.∈ alive s) (omap (entries s !!.) es)) (echoed s).
Proof.
  intros Hnd. revert s; induction Hnd as [|e es He Hnd IH]; intros [bs en cr cx al sh ec] Hall; cbn.
  - rewrite app_nil_r. f_equal. symmetry. apply map_filter_id. set_solver.
  - apply Forall_cons in Hall as [[c Hc] Hall]. cbn in *.
    assert (filter (λ x : Z * Z, x.1 ∉ es) (delete e en) = filter (λ x : Z * Z, x.1 ∉ e :: es) en) as Hf.
    { apply map_eq. intros e'. apply option_eq. intros c'. rewrite !map_lookup_filter_Some, lookup_delete_Some.
      simpl. rewrite not_elem_of_cons. naive_solver. }
    assert (omap (delete e en !!.) es = omap (en !!.) es) as Ho.
    { apply list_omap_ext. apply Forall2_same_length_lookup_2; [done|]. intros k x y Hx Hy. simplify_eq.
      apply lookup_delete_ne. intros ->. apply He. by eapply list_elem_of_lookup_2. }
    assert (Forall (λ e', is_Some (delete e en !! e')) es) as Hall'.
    { rewrite Forall_forall in *. intros e' He'. rewrite lookup_delete_ne by (intros ->; done). by apply Hall. }
    rewrite Hc. unfold delete_Entry. cbn. rewrite Hc. cbn. case_decide as Hd; cbn.
    + rewrite IH by done. cbn. by rewrite Hf, Ho, <- app_assoc.
    + rewrite IH by done. cbn. by rewrite Hf, Ho.
Qed.

(** Adding to a bucket releases nothing. *)
Lemma insert_back_spec e s b l :
  cb_list (connectionBuckets_ s) = l ++ [b] ->
  insert_back e s = Ok (tt, set_buckets (cb_set_back ({[e]} ∪ b) (connectionBuckets_ s)) s).
Proof.
  intros El. unfold insert_back. rewrite (bind_Ok _ _ s s s) by done. rewrite El, last_snoc. unfold assign_buckets.
  destruct (cb_set_back_spec ({[e]} ∪ b) _ l b El) as [E1 _]. rewrite E1, El.
  replace (elements _) with (@nil Z); [done|]. symmetry. apply elements_empty_iff.
  rewrite !union_list_app. simpl. set_solver.
Qed.

Lemma wheel_insert e s b l :
  cb_list (connectionBuckets_ s) = l ++ [b] ->
  wheel (set_buckets (cb_set_back ({[e]} ∪ b) (connectionBuckets_ s)) s) = ({[e]} ∪ b) :: reverse l ∧
  wheel s = b :: reverse l ∧
  cb_capacity (cb_set_back ({[e]} ∪ b) (connectionBuckets_ s)) = cb_capacity (connectionBuckets_ s).
Proof.
  intros El. destruct (cb_set_back_spec ({[e]} ∪ b) _ l b El) as [E1 E2]. unfold wheel. simpl.
  by rewrite E1, El, !reverse_snoc.
Qed.

Lemma age_insert e e' b l :
  age e' (({[e]} ∪ b) :: l) = if decide (e' = e) then Some O else age e' (b :: l).
Proof. simpl. repeat case_decide; set_solver. Qed.

Lemma last_bucket n s i :
  represents n s i -> ∃ l b, cb_list (connectionBuckets_ s) = l ++ [b].
Proof.
  intros R. pose proof (w_pos _ _ _ R). pose proof (w_length _ _ _ R).
  destruct (cb_list (connectionBuckets_ s)) as [|b l] using rev_ind; [simpl in *; lia|eauto].
Qed.

Lemma wheel_Up_spec n s i c :
  represents n s i -> c ∉ known i ->
  ∃ s', handle (Up c) s = Ok (tt, s') ∧ represents n s' (idle_step n (Up c) i).
Proof.
  intros R Hc. destruct (last_bucket _ _ _ R) as (l & b & El).
  assert (contexts s !! c = None) as Hn by (rewrite <- (w_known _ _ _ R), <- eq_None_not_Some in Hc; done).
  set (e := created s).
  assert (entries s !! e = None) as He.
  { destruct (entries s !! e) as [c'|] eqn:E; [|done]. apply (w_context _ _ _ R), (w_created _ _ _ R) in E. lia. }
  simpl. rewrite (bind_Ok _ _ s tt (set_alive ({[c]} ∪ alive s) s)) by done. unfold onConnection.
  set (s1 := set_created (e + 1) (set_entries (<[e := c]> (entries s)) (set_alive ({[c]} ∪ alive s) s))).
  rewrite (bind_Ok _ _ _ e s1) by done.
  rewrite (bind_Ok _ _ _ _ _ (insert_back_spec e s1 b l El)). eexists; split; [done|]. unfold s1.
  destruct (wheel_insert e s b l El) as (Hw' & Hw & Hcap).
  assert (∀ e', age e' (({[e]} ∪ b) :: reverse l) = if decide (e' = e) then Some O else age e' (wheel s)) as Ha
    by (intros; rewrite age_insert, Hw; done).
  assert (contexts s !! c = None -> ∀ c' e', <[c:=e]> (contexts s) !! c' = Some e' ->
    c' = c ∧ e' = e ∨ c' ≠ c ∧ e' ≠ e ∧ contexts s !! c' = Some e') as Hx.
  { intros _ c' e' [[<- <-]|[Hne E]]%lookup_insert_Some; [by left|right]. split_and!; [done| |done].
    intros ->. apply (w_created _ _ _ R) in E. lia. }
  specialize (Hx Hn).
  split; cbn [set_buckets set_alive setContext set_created set_entries connectionBuckets_ entries created contexts
    alive shutdowns echoed idle known live closed idle_step] in *.
  - apply (w_pos _ _ _ R).
  - destruct (cb_set_back_spec ({[e]} ∪ b) _ l b El) as [-> _].
    rewrite <- (w_length _ _ _ R), El, !length_app. done.
  - by rewrite Hcap, (w_capacity _ _ _ R).
  - intros e' c' [[<- <-]|[Hne E]]%lookup_insert_Some; [by rewrite lookup_insert_eq|].
    apply (w_context _ _ _ R) in E as E'. rewrite lookup_insert_ne; [done|congruence].
  - intros c1 c2 e' [[-> ->]|(?&?&?)]%Hx [[-> ?]|(?&?&?)]%Hx; [done|done|done|by eapply (w_injective _ _ _ R)].
  - intros c' e' [[-> ->]|(?&?&E)]%Hx; [lia|]. apply (w_created _ _ _ R) in E. lia.
  - intros c'. rewrite lookup_insert_is_Some', (w_known _ _ _ R). set_solver.
  - intros e'. change (wheel _) with (wheel (set_buckets (cb_set_back ({[e]} ∪ b) (connectionBuckets_ s)) s)); rewrite Hw', Ha, lookup_insert_is_Some'. case_decide; [naive_solver|].
    rewrite (w_entries _ _ _ R). naive_solver.
  - intros c'. change (wheel _) with (wheel (set_buckets (cb_set_back ({[e]} ∪ b) (connectionBuckets_ s)) s)); rewrite Hw'. destruct (decide (c' = c)) as [->|Hne].
    + rewrite !lookup_insert_eq. cbn [mbind option_bind]. by rewrite Ha, decide_True.
    + rewrite !lookup_insert_ne, (w_idle _ _ _ R) by done.
      destruct (contexts s !! c') as [e'|] eqn:E; [|done]. cbn [mbind option_bind]. rewrite Ha, decide_False; [done|].
      intros ->. apply (w_created _ _ _ R) in E. lia.
  - by rewrite (w_alive _ _ _ R).
  - apply (w_closed _ _ _ R).
Qed.

Lemma wheel_Msg_spec n s i c msg :
  represents n s i -> c ∈ known i ->
  ∃ s', handle (Msg c msg) s = Ok (tt, s') ∧ represents n s' (idle_step n (Msg c msg) i).
Proof.
  intros R [e He]%(w_known _ _ _ R). destruct (last_bucket _ _ _ R) as (l & b & El).
  simpl. unfold onMessage. rewrite (bind_Ok _ _ s tt (add_echo c msg s)) by done.
  rewrite (bind_Ok _ _ (add_echo c msg s) (add_echo c msg s) (add_echo c msg s)) by done.
  cbn [add_echo contexts entries]. rewrite He. cbn [of_option].
  rewrite (bind_Ok _ _ (add_echo c msg s) e (add_echo c msg s)) by done.
  pose proof (w_idle _ _ _ R c) as Hi. rewrite He in Hi. simpl in Hi.
  assert (is_Some (entries s !! e) <-> is_Some (idle i !! c)) as Hs by (rewrite Hi; apply (w_entries _ _ _ R)).
  destruct (entries s !! e) as [c'|] eqn:Ee.
  2: { rewrite bool_decide_false by (by intros []). eexists; split; [done|].
       rewrite decide_False by (rewrite <- Hs; by intros []). destruct R. by split. }
  rewrite bool_decide_true by done. rewrite decide_True by (by apply Hs). cbn [when].
  assert (c' = c) as -> by (eapply (w_injective _ _ _ R); [by apply (w_context _ _ _ R)|done]).
  rewrite (insert_back_spec e (add_echo c msg s) b l El). eexists; split; [done|].
  destruct (wheel_insert e s b l El) as (Hw' & Hw & Hcap).
  assert (∀ e', age e' (({[e]} ∪ b) :: reverse l) = if decide (e' = e) then Some O else age e' (wheel s)) as Ha
    by (intros; rewrite age_insert, Hw; done).
  split; cbn [set_buckets add_echo connectionBuckets_ entries created contexts
    alive shutdowns echoed idle known live closed] in *; try apply R.
  - destruct (cb_set_back_spec ({[e]} ∪ b) _ l b El) as [-> _].
    rewrite <- (w_length _ _ _ R), El, !length_app. done.
  - by rewrite Hcap, (w_capacity _ _ _ R).
  - intros e'. change (wheel _) with (wheel (set_buckets (cb_set_back ({[e]} ∪ b) (connectionBuckets_ s)) s)); rewrite Hw', Ha, (w_entries _ _ _ R). case_decide; [|done]. subst.
    rewrite <- (w_entries _ _ _ R), Ee. naive_solver.
  - intros c'. change (wheel _) with (wheel (set_buckets (cb_set_back ({[e]} ∪ b) (connectionBuckets_ s)) s)); rewrite Hw'. destruct (decide (c' = c)) as [->|Hne].
    + rewrite lookup_insert_eq, He. cbn [mbind option_bind]. by rewrite Ha, decide_True.
    + rewrite lookup_insert_ne, (w_idle _ _ _ R) by done.
      destruct (contexts s !! c') as [e'|] eqn:E; [|done]. cbn [mbind option_bind]. rewrite Ha, decide_False; [done|].
      intros ->. by pose proof (w_injective _ _ _ R _ _ _ He E).
Qed.

(** What a tick does to the ages: the oldest bucket is gone. *)
Lemma wheel_tick n s i :
  represents n s i ->
  let b := cb_push_back ∅ (connectionBuckets_ s) in
  length (cb_list b) = n ∧ cb_capacity b = n ∧
  (∀ e, age e (reverse (cb_list b)) =
     match age e (wheel s) with Some k => if decide (S k < n)%nat then Some (S k) else None | None => None end) ∧
  (∀ e, e ∈ ⋃ (cb_list (connectionBuckets_ s)) ∖ ⋃ (cb_list b) <-> age e (wheel s) = Some (n - 1)%nat).
Proof.
  intros R b. pose proof (w_pos _ _ _ R). pose proof (w_length _ _ _ R) as Hlen. pose proof (w_capacity _ _ _ R).
  destruct (cb_push_back_full ∅ (connectionBuckets_ s)) as [E1 E2].
  { congruence. } { by intros E; rewrite E in Hlen; simpl in Hlen; lia. }
  fold b in E1, E2. unfold wheel. rewrite E2. destruct (cb_list (connectionBuckets_ s)) as [|x t]; [simpl in *; lia|].
  simpl in E1, Hlen.
  assert (∀ e, age e (reverse (t ++ [∅])) =
    match age e (reverse (x :: t)) with Some k => if decide (S k < n)%nat then Some (S k) else None | None => None end) as Ha.
  { intros e. rewrite reverse_snoc, reverse_cons. simpl.
    rewrite decide_False by set_solver.
    replace (reverse t) with (take (n - 1) (reverse t ++ [x])) at 1
      by (rewrite take_app_le, take_ge by (rewrite length_reverse; lia); done).
    rewrite age_take. destruct (age e (reverse t ++ [x])) as [k|] eqn:Ek; [|done].
    destruct (decide (k < n - 1)%nat); [rewrite decide_True by lia|rewrite decide_False by lia]; done. }
  rewrite E1. split_and!; [rewrite length_app; simpl; lia|done|done|].
  intros e. rewrite elem_of_difference, <- (union_reverse (x :: t)), <- (union_reverse (t ++ [∅])), <- !age_union, Ha.
  split.
  - intros [[k Hk] Hn]. rewrite Hk in *. apply age_lt in Hk as Hlt. rewrite length_reverse in Hlt. simpl in Hlt.
    destruct (decide (S k < n)%nat); [by destruct Hn|]. f_equal. lia.
  - intros ->. rewrite decide_False by lia. split; [done|by intros []].
Qed.

Lemma omap_NoDup {A B} (f : A -> option B) (l : list A) :
  NoDup l -> (∀ x x' y, f x = Some y -> f x' = Some y -> x = x') -> NoDup (omap f l).
Proof.
  intros Hl Hf. induction Hl as [|x l Hx Hl IH]; cbn; [constructor|]. destruct (f x) as [y|] eqn:E; [|done].
  constructor; [|done]. rewrite list_elem_of_omap. intros (x' & Hx' & E').
  by rewrite (Hf _ _ _ E' E) in Hx'.
Qed.

Lemma wheel_Tick_spec n s i :
  represents n s i ->
  ∃ s', handle Tick s = Ok (tt, s') ∧ represents n s' (idle_step n Tick i).
Proof.
  intros R. destruct (wheel_tick n s i R) as (H1 & H2 & Ha & Hg).
  simpl. unfold onTimer. rewrite (bind_Ok _ _ s s s) by done. unfold assign_buckets.
  set (b := cb_push_back ∅ (connectionBuckets_ s)) in *.
  set (gone := elements _). fold gone in Hg.
  assert (∀ e, e ∈ gone <-> age e (wheel s) = Some (n - 1)%nat) as Hgone by (intros; unfold gone; by rewrite elem_of_elements).
  assert (Forall (λ e, is_Some (entries s !! e)) gone) as Hall.
  { apply Forall_forall. intros e He%Hgone. apply (w_entries _ _ _ R). eauto. }
  eexists; split; [done|]. rewrite delete_all by (by first [apply NoDup_elements|exact Hall]). clear Hg.
  assert (∀ c k, idle i !! c = Some k <-> ∃ e, entries s !! e = Some c ∧ age e (wheel s) = Some k) as Hidle.
  { intros c k. rewrite (w_idle _ _ _ R), bind_Some. split.
    - intros (e & Hc & Hk). exists e. split; [|done].
      assert (is_Some (entries s !! e)) as [c' Hc'] by (apply (w_entries _ _ _ R); eauto).
      rewrite Hc'. f_equal. apply (w_injective _ _ _ R _ _ e); [by apply (w_context _ _ _ R)|done].
    - intros (e & Hc & Hk). exists e. split; [by apply (w_context _ _ _ R)|done]. }
  split; cbn [set_buckets connectionBuckets_ entries created contexts alive shutdowns idle known live closed idle_step];
    try apply R; try done.
  - intros e c [E _]%map_lookup_filter_Some. by apply (w_context _ _ _ R).
  - intros e. change (wheel _) with (reverse (cb_list b)). rewrite Ha, map_lookup_filter.
    destruct (entries s !! e) as [c|] eqn:E; simpl.
    + assert (is_Some (age e (wheel s))) as [k Hk] by (apply (w_entries _ _ _ R); eauto).
      rewrite Hk. apply age_lt in Hk as Hlt. unfold wheel in Hlt. rewrite length_reverse, (w_length _ _ _ R) in Hlt.
      case_guard as G; simpl; rewrite Hgone, Hk in G.
      * rewrite decide_True; [naive_solver|]. destruct (decide (k = n - 1)%nat); [congruence|lia].
      * rewrite decide_False; [split; by intros []|]. injection G as G. lia.
    + split; [by intros []|]. assert (¬ is_Some (age e (wheel s))) as Hn by (rewrite <- (w_entries _ _ _ R), E; by intros []).
      destruct (age e (wheel s)); [by destruct Hn|by intros []].
  - intros c. change (wheel _) with (reverse (cb_list b)). rewrite lookup_fmap, map_lookup_filter, (w_idle _ _ _ R).
    destruct (contexts s !! c) as [e|]; [|done]. cbn [mbind option_bind]. rewrite Ha.
    destruct (age e (wheel s)) as [k|] eqn:Hk; [|done]. cbn [mbind option_bind].
    apply age_lt in Hk. unfold wheel in Hk. rewrite length_reverse, (w_length _ _ _ R) in Hk.
    case_guard; simpl in *; [rewrite decide_True by lia|rewrite decide_False by lia]; done.
  - rewrite (w_closed _ _ _ R). apply Permutation_app_head. apply NoDup_Permutation.
    + apply NoDup_filter, omap_NoDup; [apply NoDup_elements|]. intros e e' c E%(w_context _ _ _ R) E'%(w_context _ _ _ R). congruence.
    + apply NoDup_elements.
    + intros c. rewrite list_elem_of_filter, list_elem_of_omap, elem_of_elements. unfold expiring.
      rewrite elem_of_intersection, elem_of_dom, (w_alive _ _ _ R). unfold is_Some.
      setoid_rewrite map_lookup_filter_Some. setoid_rewrite Hidle. simpl. setoid_rewrite Hgone.
      pose proof (w_pos _ _ _ R). split.
      * intros (? & e & ? & ?). split; [|done]. exists (n - 1)%nat. split; [eauto|lia].
      * intros ((k & (e & ? & ?) & Hk) & ?). split; [done|]. exists e. split; [|done].
        replace (n - 1)%nat with k by lia. done.
Qed.

Lemma wheel_handle_spec n s i ev :
  represents n s i -> possible ev i ->
  ∃ s', handle ev s = Ok (tt, s') ∧ represents n s' (idle_step n ev i).
Proof.
  intros R Hp. destruct ev as [c|c msg|c|c|]; simpl in Hp.
  - by apply wheel_Up_spec.
  - by apply wheel_Msg_spec.
  - apply (w_known _ _ _ R) in Hp as [e He]. exists s. split; [|done]. simpl. unfold onConnection.
    rewrite (bind_Ok _ _ s s s) by done. by rewrite He.
  - eexists; split; [done|]. destruct R. split; simpl; try done. congruence.
  - by apply wheel_Tick_spec.
Qed.

Lemma wheel_new_represents idleSeconds :
  0 < idleSeconds ->
  ∃ s, new_EchoServer idleSeconds = Ok s ∧ represents (Z.to_nat idleSeconds) s (mkIdle ∅ ∅ ∅ []).
Proof.
  intros Hn. unfold new_EchoServer. rewrite (proj2 (Z.ltb_ge _ _)) by lia. eexists; split; [done|].
  set (n := Z.to_nat idleSeconds). destruct (cb_make_spec n) as [Hl Hc].
  destruct (cb_resize_spec n (cb_make n)) as [E1 E2]; [rewrite Hl; simpl; lia|].
  rewrite Hl, Hc in *. simpl in E1. rewrite Nat.sub_0_r in E1.
  assert (∀ m e, age e (replicate m ∅) = None) as Ha.
  { intros m e. induction m as [|m IH]; [done|]. simpl. rewrite decide_False by set_solver. by rewrite IH. }
  split; simpl; try done.
  - lia.
  - by rewrite E1, length_replicate.
  - rewrite E2. lia.
  - intros c. rewrite lookup_empty. split; [by intros []|set_solver].
  - intros e. unfold wheel. simpl. rewrite E1, reverse_replicate, Ha, lookup_empty. done.
Qed.

Lemma wheel_run_spec n evs s i :
  possible_run n evs i -> represents n s i ->
  ∃ s', mapM_ handle evs s = Ok (tt, s') ∧ represents n s' (idle_run n evs i).
Proof.
  revert s i; induction evs as [|ev evs IH]; intros s i Hp R; simpl; [by eexists|].
  destruct Hp as [Hp Hps]. destruct (wheel_handle_spec n s i ev R Hp) as (s1 & E & R1).
  rewrite (bind_Ok _ _ _ _ _ E). by apply IH.
Qed.

(** C23: The timing wheel closes a connection at exactly the [idleSeconds]-th tick after it came
    up or last sent a message, never before and, unless it is gone by then, never later: on every
    run of connections coming up, sending, going down, being freed and of ticks, nothing faults
    and the connections shut down are those of a server that counts each connection's idle
    ticks. *)
Theorem timing_wheel_exact idleSeconds evs :
  0 < idleSeconds -> possible_run (Z.to_nat idleSeconds) evs (mkIdle ∅ ∅ ∅ []) ->
  ∃ s s', new_EchoServer idleSeconds = Ok s ∧ mapM_ handle evs s = Ok (tt, s') ∧
    shutdowns s' ≡ₚ closed (idle_run (Z.to_nat idleSeconds) evs (mkIdle ∅ ∅ ∅ [])).
Proof.
  intros Hn Hp. destruct (wheel_new_represents idleSeconds Hn) as (s & Hs & R).
  destruct (wheel_run_spec _ evs s _ Hp R) as (s' & E & R'). exists s, s'. split_and!; [done..|apply R'].
Qed.
End server.

(** * An instance: the documentation's reference semantics on lists *)

Record ListBuffer := mkLB { lb_items : list Bucket; lb_cap : nat }.

#[export] Instance ListBuffer_cb : CircularBuffer ListBuffer := {|
  cb_make n := mkLB [] n;
  cb_list := lb_items;
  cb_capacity := lb_cap;
  cb_resize n b := mkLB (resize n ∅ (lb_items b)) (Nat.max (lb_cap b) n);
  cb_push_back x b :=
    if decide (length (lb_items b) < lb_cap b)%nat then mkLB (lb_items b ++ [x]) (lb_cap b)
    else match lb_items b with [] => b | _ :: l => mkLB (l ++ [x]) (lb_cap b) end;
  cb_set_back x b :=
    match lb_items b with [] => b | _ => mkLB (take (length (lb_items b) - 1) (lb_items b) ++ [x]) (lb_cap b) end |}.

#[export] Instance ListBuffer_laws : CircularBufferLaws ListBuffer.
Proof.
  split.
  - done.
  - intros n b Hl. simpl. by rewrite resize_ge by done.
  - intros x [l n]. simpl. intros -> Hl. rewrite decide_False by lia. by destruct l.
  - intros x [l n] l' y. simpl. intros ->. rewrite length_app. simpl.
    replace (length l' + 1 - 1)%nat with (length l') by lia. rewrite take_app_length. by destruct l'.
Qed.

(** Two connections, a wheel of three seconds: the first one's message puts off its end. *)
Definition two_connections : list Event :=
  [Up 1; Tick; Up 2; Msg 1 [x00]; Tick; Msg 1 [x00]; Tick; Tick; Tick; Tick].

Lemma timing_wheel_exact_witness :
  0 < 3 ∧ ∃ s s', new_EchoServer 3 = Ok (s : EchoServer ListBuffer) ∧ mapM_ handle two_connections s = Ok (tt, s') ∧
    shutdowns s' ≡ₚ closed (idle_run 3 two_connections (mkIdle ∅ ∅ ∅ [])).
Proof.
  split; [lia|]. apply (timing_wheel_exact 3 two_connections); [lia|].
  simpl. repeat split; set_solver.
Defined.

Example two_connections_closed : closed (idle_run 3 two_connections (mkIdle ∅ ∅ ∅ [])) = [2; 1].
Proof. vm_compute. reflexivity. Qed.

(** With no second to wait there is no bucket, and the first connection runs into undefined
    behaviour. *)
Lemma wheel_of_zero c :
  ∃ s, new_EchoServer 0 = Ok (s : EchoServer ListBuffer) ∧ handle (Up c) s = Fault UB.
Proof. eexists; split; reflexivity. Qed.
