(* ===== verification/IdleList.v ===== *)
(** Closing idle connections with a list sorted by their last activity:
    [idleconnection/sortedlist.cc].  A node of the [std::list] is a number, its iterator;
    the connections' contexts hold their [Node].  [timeDifference] is the library's; times
    are microseconds. *)
From stdpp Require Export sets fin_sets sorting.
From S2P Require Import Prelude.
Open Scope list_scope.

(** [timeDifference(high, low)] and the two comparisons made with its result. *)
Class TimeDifference (D : Type) := {
  timeDifference : Z -> Z -> D;
  gt_int : D -> Z -> bool;
  lt_zero : D -> bool }.

Class TimeDifferenceLaws (D : Type) `{TimeDifference D} := {
  gt_int_spec high low n : gt_int (timeDifference high low) n = (low + n * 10 ^ 6 <? high);
  lt_zero_spec high low : lt_zero (timeDifference high low) = (high <? low) }.

Record Node := mkNode { lastReceiveTime : Z; position : Z }.

(** A connection as the server sees it: [connected()] and its context. *)
Record Conn := mkConn { connected : bool; context : option Node }.

Inductive Call := Shutdown (c : Z) | ForceCloseWithDelay (c : Z).

Record EchoServer := mkEcho {
  idleSeconds_ : Z;
  connectionList_ : list (Z * Z);      (* each node with its weak pointer *)
  created : Z;                         (* nodes so far *)
  conns : gmap Z Conn;                 (* the TcpConnection objects *)
  calls : list Call }.

Section server.
Context {D : Type} `{TimeDifferenceLaws D}.

Definition set_list (l : list (Z * Z)) (s : EchoServer) : EchoServer :=
  mkEcho (idleSeconds_ s) l (created s) (conns s) (calls s).
Definition set_conn (c : Z) (x : Conn) (s : EchoServer) : EchoServer :=
  mkEcho (idleSeconds_ s) (connectionList_ s) (created s) (<[c := x]> (conns s)) (calls s).
Definition push_node (c : Z) (s : EchoServer) : EchoServer :=
  mkEcho (idleSeconds_ s) (connectionList_ s ++ [(created s, c)]) (created s + 1) (conns s) (calls s).

Definition new_EchoServer (idleSeconds : Z) : EchoServer := mkEcho idleSeconds [] 0 ∅ [].

(** A connection the caller holds a pointer to. *)
Definition deref (c : Z) : M EchoServer Conn := λ s,
  match conns s !! c with Some x => Ok (x, s) | None => Fault UB end.

Definition set_context (c : Z) (n : Node) : M EchoServer unit :=
  x ← deref c; modify (set_conn c (mkConn (connected x) (Some n))).

(** [erase(it)]: the other nodes. *)
Definition without (pos : Z) (l : list (Z * Z)) : list (Z * Z) := filter (λ x : Z * Z, x.1 ≠ pos) l.

(** The node an iterator points to. *)
Definition node_at (pos : Z) (l : list (Z * Z)) : option (Z * Z) := head (filter (λ x : Z * Z, x.1 = pos) l).

Definition onConnection (now c : Z) : M EchoServer unit :=
  x ← deref c;
  if connected x then
    s ← get;
    modify (push_node c) ;;
    set_context c (mkNode now (created s))
  else
    node ← of_option Throw (context x);
    s ← get;
    _ ← of_option UB (node_at (position node) (connectionList_ s));
    modify (set_list (without (position node) (connectionList_ s))).

Definition onMessage (c time : Z) : M EchoServer unit :=
  x ← deref c;
  node ← of_option UB (context x);
  set_context c (mkNode time (position node)) ;;
  s ← get;
  it ← of_option UB (node_at (position node) (connectionList_ s));
  modify (set_list (without (position node) (connectionList_ s) ++ [it])) ;;
  s ← get;
  assert (bool_decide (fst <$> last (connectionList_ s) = Some (position node))).

(** [conn->shutdown()] leaves a connected connection disconnecting;
    [conn->forceCloseWithDelay(3.5)]. *)
Definition shutdown (c : Z) (s : EchoServer) : EchoServer :=
  mkEcho (idleSeconds_ s) (connectionList_ s) (created s)
    (alter (λ x, mkConn false (context x)) c (conns s)) (calls s ++ [Shutdown c]).
Definition forceCloseWithDelay (c : Z) (s : EchoServer) : EchoServer :=
  mkEcho (idleSeconds_ s) (connectionList_ s) (created s) (conns s) (calls s ++ [ForceCloseWithDelay c]).

(** The loop of [onTimer] from an iterator to the end: what remains of that part of the
    list. *)
Fixpoint onTimer_loop (now : Z) (l : list (Z * Z)) : M EchoServer (list (Z * Z)) :=
  match l with
  | [] => mret []
  | (pos, c) :: l' =>
      s ← get;
      match conns s !! c with
      | None => onTimer_loop now l'                 (* expired: erase(it) *)
      | Some x =>
          n ← of_option UB (context x);
          let age := timeDifference now (lastReceiveTime n) in
          if gt_int age (idleSeconds_ s) then
            when (connected x) (modify (shutdown c) ;; modify (forceCloseWithDelay c)) ;;
            rest ← onTimer_loop now l'; mret ((pos, c) :: rest)
          else if lt_zero age then
            set_context c (mkNode now (position n)) ;;
            rest ← onTimer_loop now l'; mret ((pos, c) :: rest)
          else mret ((pos, c) :: l')
      end
  end.

Definition onTimer (now : Z) : M EchoServer unit :=
  s ← get;
  l ← onTimer_loop now (connectionList_ s);
  modify (set_list l).

(** * What happens *)

(** A connection comes up or goes down, receives, is freed; the timer fires. *)
Inductive Event := Up (c now : Z) | Msg (c time : Z) | Down (c now : Z) | Destroy (c : Z) | Tick (now : Z).

Definition handle (ev : Event) : M EchoServer unit :=
  match ev with
  | Up c now => modify (set_conn c (mkConn true None)) ;; onConnection now c
  | Msg c time => onMessage c time
  | Down c now => x ← deref c; modify (set_conn c (mkConn false (context x))) ;; onConnection now c
  | Destroy c => modify (λ s, mkEcho (idleSeconds_ s) (connectionList_ s) (created s) (delete c (conns s)) (calls s))
  | Tick now => onTimer now
  end.

(** * What the server promises *)

(** When each connection was last active, and which can still send. *)
Record Activity := mkAct { last_active : gmap Z Z; up : gset Z; seen : gset Z; clock : Z; closed : list Z }.

Definition idle_at (n now : Z) (a : Activity) : gset Z :=
  dom (filter (λ x : Z * Z, x.2 + n * 10 ^ 6 < now) (last_active a)) ∩ up a.

Definition act_step (n : Z) (ev : Event) (a : Activity) : Activity :=
  match ev with
  | Up c now => mkAct (<[c := now]> (last_active a)) ({[c]} ∪ up a) ({[c]} ∪ seen a) now (closed a)
  | Msg c time => mkAct (<[c := time]> (last_active a)) (up a) (seen a) time (closed a)
  | Down c now => mkAct (delete c (last_active a)) (up a ∖ {[c]}) (seen a) now (closed a)
  | Destroy c => a
  | Tick now =>
      mkAct (last_active a) (up a ∖ idle_at n now a) (seen a) now (closed a ++ elements (idle_at n now a))
  end.

(** Connections are new when they come up, known until they go down, and freed after that.  The
    times that the events carry do not go backwards: that is more than a monotone clock, for
    [onConnection] and [onTimer] take the time when they run, and [onMessage] is given the one
    at which [poll] returned. *)
Definition possible (ev : Event) (a : Activity) : Prop :=
  match ev with
  | Up c now => c ∉ seen a ∧ clock a <= now
  | Msg c t | Down c t => is_Some (last_active a !! c) ∧ clock a <= t
  | Destroy c => last_active a !! c = None
  | Tick now => clock a <= now
  end.

Fixpoint possible_run (n : Z) (evs : list Event) (a : Activity) : Prop :=
  match evs with [] => True | ev :: evs' => possible ev a ∧ possible_run n evs' (act_step n ev a) end.

(** Both calls for each connection that is closed. *)
Definition close_calls (c : Z) : list Call := [Shutdown c; ForceCloseWithDelay c].

(** ** Lists of nodes *)

Definition later (m : gmap Z Z) (x y : Z * Z) : Prop :=
  match m !! x.2, m !! y.2 with Some t, Some u => t <= u | _, _ => True end.

Lemma NoDup_fmap_unique {A B} (f : A -> B) (l : list A) x y :
  NoDup (f <$> l) -> x ∈ l -> y ∈ l -> f x = f y -> x = y.
Proof.
  induction l as [|z l IH]; [set_solver|]. rewrite fmap_cons, NoDup_cons.
  intros [Hz Hl] Hx Hy E. apply elem_of_cons in Hx as [->|Hx], Hy as [->|Hy]; [done| | |by apply IH].
  - destruct Hz. rewrite E. by apply list_elem_of_fmap_2.
  - destruct Hz. rewrite <- E. by apply list_elem_of_fmap_2.
Qed.

Lemma elem_without pos p c l : (p, c) ∈ without pos l <-> (p, c) ∈ l ∧ p ≠ pos.
Proof. unfold without. rewrite list_elem_of_filter. simpl. naive_solver. Qed.

Lemma node_at_spec pos c l : NoDup l.*1 -> (pos, c) ∈ l -> node_at pos l = Some (pos, c).
Proof.
  intros Hl Hin. unfold node_at. assert ((pos, c) ∈ filter (λ x : Z * Z, x.1 = pos) l) as Hf by (by apply list_elem_of_filter).
  destruct (filter _ l) as [|[p c'] f] eqn:E; [set_solver|]. simpl. f_equal.
  assert ((p, c') ∈ filter (λ x : Z * Z, x.1 = pos) l) as [Hp Hc]%list_elem_of_filter by (rewrite E; set_solver).
  apply (NoDup_fmap_unique fst l); done.
Qed.

Lemma without_NoDup {A} (f : Z * Z -> A) pos l : NoDup (f <$> l) -> NoDup (f <$> without pos l).
Proof. intros. eapply sublist_NoDup; [done|]. apply fmap_sublist, sublist_filter. Qed.

Lemma sorted_filter {A} (R : A -> A -> Prop) (P : A -> Prop) `{∀ x, Decision (P x)} (l : list A) :
  StronglySorted R l -> StronglySorted R (filter P l).
Proof.
  induction 1 as [|x l Hl IH Hx]; [constructor|]. rewrite filter_cons. case_decide; [|done].
  constructor; [done|]. rewrite Forall_forall in *. intros y [_ Hy]%list_elem_of_filter. by apply Hx.
Qed.

Lemma sorted_mono {A} (R R' : A -> A -> Prop) (l : list A) :
  (∀ x y, x ∈ l -> y ∈ l -> R x y -> R' x y) -> StronglySorted R l -> StronglySorted R' l.
Proof.
  intros HR. induction 1 as [|x l Hl IH Hx]; [constructor|]. constructor.
  - apply IH. intros; apply HR; [set_solver..|done].
  - rewrite Forall_forall in *. intros y Hy. apply HR; [set_solver..|by apply Hx].
Qed.

Lemma sorted_snoc {A} (R : A -> A -> Prop) (l : list A) z :
  StronglySorted R l -> (∀ x, x ∈ l -> R x z) -> StronglySorted R (l ++ [z]).
Proof.
  induction 1 as [|x l Hl IH Hx]; intros Hz; simpl; [repeat constructor|]. constructor.
  - apply IH. set_solver.
  - apply Forall_app. split; [done|]. repeat constructor. set_solver.
Qed.

(** ** The invariant *)

Record represents (n : Z) (s : EchoServer) (a : Activity) : Prop := {
  l_idle : idleSeconds_ s = n;
  l_conn c t : last_active a !! c = Some t ->
    ∃ pos, conns s !! c = Some (mkConn (bool_decide (c ∈ up a)) (Some (mkNode t pos))) ∧ (pos, c) ∈ connectionList_ s;
  l_list pos c : (pos, c) ∈ connectionList_ s -> is_Some (last_active a !! c);
  l_pos : NoDup (connectionList_ s).*1;
  l_nodup : NoDup (connectionList_ s).*2;
  l_created pos c : (pos, c) ∈ connectionList_ s -> pos < created s;
  l_sorted : StronglySorted (later (last_active a)) (connectionList_ s);
  l_clock c t : last_active a !! c = Some t -> t <= clock a;
  l_up c : c ∈ up a -> is_Some (last_active a !! c);
  l_seen c : is_Some (conns s !! c) -> c ∈ seen a;
  l_calls : calls s ≡ₚ closed a ≫= close_calls }.

Lemma l_position n s a pos pos' c :
  represents n s a -> (pos, c) ∈ connectionList_ s -> (pos', c) ∈ connectionList_ s -> pos = pos'.
Proof. intros R H1 H2. by assert ((pos, c) = (pos', c)) as [= ->] by (apply (NoDup_fmap_unique snd _ _ _ (l_nodup _ _ _ R)); done). Qed.

Lemma deref_conn_Ok c x s : conns s !! c = Some x -> deref c s = Ok (x, s).
Proof. intros E. unfold deref. by rewrite E. Qed.

Lemma set_context_Ok c x nd s :
  conns s !! c = Some x -> set_context c nd s = Ok (tt, set_conn c (mkConn (connected x) (Some nd)) s).
Proof. intros E. unfold set_context. by rewrite (bind_Ok _ _ _ _ _ (deref_conn_Ok _ _ _ E)). Qed.

Lemma list_Up_spec n s a c now :
  represents n s a -> c ∉ seen a -> clock a <= now ->
  ∃ s', handle (Up c now) s = Ok (tt, s') ∧ represents n s' (act_step n (Up c now) a).
Proof.
  intros R Hc Ht. assert (conns s !! c = None) as Hn.
  { destruct (conns s !! c) as [x|] eqn:E; [|done]. destruct Hc. apply (l_seen _ _ _ R). by rewrite E. }
  assert (last_active a !! c = None) as Hl.
  { destruct (last_active a !! c) as [t|] eqn:E; [|done]. by apply (l_conn _ _ _ R) in E as (? & E & _); rewrite E in Hn. }
  assert (∀ p c', (p, c') ∈ connectionList_ s -> c' ≠ c) as Hne.
  { intros p c' Hin ->. apply (l_list _ _ _ R) in Hin as [? E]. by rewrite E in Hl. }
  eexists; split.
  { simpl. set (s0 := set_conn c (mkConn true None) s). rewrite (bind_Ok _ _ _ tt s0) by done. unfold onConnection.
    assert (conns s0 !! c = Some (mkConn true None)) as E by apply lookup_insert_eq.
    rewrite (bind_Ok _ _ _ _ _ (deref_conn_Ok c _ s0 E)). cbn [connected].
    rewrite (bind_Ok _ _ _ s0 s0), (bind_Ok _ _ _ tt (push_node c s0)) by done.
    exact (set_context_Ok c _ _ (push_node c s0) E). }
  unfold set_conn, push_node. cbn [conns]. rewrite insert_insert_eq.
  split; cbn [idleSeconds_ connectionList_ created conns calls last_active up seen clock closed act_step connected].
  - apply R.
  - intros c' t [[<- <-]|[Hcc E]]%lookup_insert_Some.
    + exists (created s). rewrite lookup_insert_eq, bool_decide_true by set_solver. split; [done|set_solver].
    + destruct (l_conn _ _ _ R _ _ E) as (pos & E1 & E2). exists pos. rewrite lookup_insert_ne, E1 by done.
      split; [|set_solver]. do 2 f_equal. apply bool_decide_ext. set_solver.
  - intros pos c' [Hin|[= -> ->]%list_elem_of_singleton]%elem_of_app; [|by rewrite lookup_insert_eq].
    apply lookup_insert_is_Some'. right. by eapply (l_list _ _ _ R).
  - rewrite fmap_app. apply NoDup_app. split_and!; [apply R| |apply NoDup_singleton].
    intros p ([p' c'] & -> & Hin)%list_elem_of_fmap. apply (l_created _ _ _ R) in Hin. simpl. rewrite list_elem_of_singleton. lia.
  - rewrite fmap_app. apply NoDup_app. split_and!; [apply R| |apply NoDup_singleton].
    intros p ([p' c'] & -> & Hin)%list_elem_of_fmap. apply Hne in Hin. simpl. by rewrite list_elem_of_singleton.
  - intros pos c' [Hin|[= -> ->]%list_elem_of_singleton]%elem_of_app; [|lia]. apply (l_created _ _ _ R) in Hin. lia.
  - apply sorted_snoc.
    + eapply sorted_mono; [|apply R]. intros [p1 c1] [p2 c2] H1%Hne H2%Hne. unfold later. simpl.
      by rewrite !lookup_insert_ne by done.
    + intros [p1 c1] H1. apply Hne in H1 as H1'. unfold later. simpl. rewrite lookup_insert_eq, lookup_insert_ne by done.
      destruct (last_active a !! c1) as [t|] eqn:E; [|done]. apply (l_clock _ _ _ R) in E. lia.
  - intros c' t [[<- <-]|[Hcc E]]%lookup_insert_Some; [lia|]. apply (l_clock _ _ _ R) in E. lia.
  - intros c' [->%elem_of_singleton|Hu]%elem_of_union; [by rewrite lookup_insert_eq|].
    apply lookup_insert_is_Some'. right. by apply (l_up _ _ _ R).
  - intros c' [->|Hs]%lookup_insert_is_Some'; [set_solver|]. apply (l_seen _ _ _ R) in Hs. set_solver.
  - apply R.
Qed.

(** The nodes of the others keep their place when one is taken out. *)
Lemma without_others n s a pos c p c' :
  represents n s a -> (pos, c) ∈ connectionList_ s ->
  (p, c') ∈ without pos (connectionList_ s) <-> (p, c') ∈ connectionList_ s ∧ c' ≠ c.
Proof.
  intros R Hin. rewrite elem_without. split; intros [Hp Hne]; (split; [done|]); intros ->; apply Hne.
  - by eapply l_position.
  - assert ((pos, c') = (pos, c)) as [= ->]; [|done]. by apply (NoDup_fmap_unique fst _ _ _ (l_pos _ _ _ R)).
Qed.

Lemma list_Msg_spec n s a c t :
  represents n s a -> is_Some (last_active a !! c) -> clock a <= t ->
  ∃ s', handle (Msg c t) s = Ok (tt, s') ∧ represents n s' (act_step n (Msg c t) a).
Proof.
  intros R [u Hu] Ht. destruct (l_conn _ _ _ R _ _ Hu) as (pos & Hc & Hin).
  set (x := mkConn (bool_decide (c ∈ up a)) (Some (mkNode u pos))) in *.
  pose proof (λ p c', without_others n s a pos c p c' R Hin) as Ho.
  eexists; split.
  { simpl. unfold onMessage. rewrite (bind_Ok _ _ _ _ _ (deref_conn_Ok c x s Hc)).
    rewrite (bind_Ok _ _ s (mkNode u pos) s) by done.
    rewrite (bind_Ok _ _ _ _ _ (set_context_Ok c x (mkNode t pos) s Hc)).
    set (s1 := set_conn c _ s). rewrite (bind_Ok _ _ s1 s1 s1) by done. cbn [position].
    rewrite (node_at_spec pos c (connectionList_ s1)) by (done || apply R).
    rewrite (bind_Ok _ _ s1 (pos, c) s1) by done.
    set (s2 := set_list (without pos (connectionList_ s1) ++ [(pos, c)]) s1). rewrite (bind_Ok _ _ s1 tt s2), (bind_Ok _ _ s2 s2 s2) by done.
    apply assert_Ok. apply bool_decide_true. unfold s2. simpl. by rewrite last_snoc. }
  split; cbn [set_list set_conn connectionList_ idleSeconds_ created conns calls last_active up seen clock closed act_step].
  - apply R.
  - intros c' v [[<- <-]|[Hcc E]]%lookup_insert_Some.
    + exists pos. rewrite lookup_insert_eq. split; [done|]. apply elem_of_app. right. by apply list_elem_of_singleton.
    + destruct (l_conn _ _ _ R _ _ E) as (p & E1 & E2). exists p. rewrite lookup_insert_ne by done.
      split; [done|]. apply elem_of_app. left. by apply Ho.
  - intros p c' [Hl|[= -> ->]%list_elem_of_singleton]%elem_of_app; [|by rewrite lookup_insert_eq].
    apply lookup_insert_is_Some'. right. apply Ho in Hl as [Hl _]. by eapply (l_list _ _ _ R).
  - rewrite fmap_app. apply NoDup_app. split_and!; [apply without_NoDup, R| |apply NoDup_singleton].
    intros p ([p' c'] & -> & Hl)%list_elem_of_fmap. simpl. apply elem_without in Hl as [_ ?]. by rewrite list_elem_of_singleton.
  - rewrite fmap_app. apply NoDup_app. split_and!; [apply without_NoDup, R| |apply NoDup_singleton].
    intros p ([p' c'] & -> & Hl)%list_elem_of_fmap. simpl. apply Ho in Hl as [_ ?]. by rewrite list_elem_of_singleton.
  - intros p c' [[Hl _]%Ho|[= -> ->]%list_elem_of_singleton]%elem_of_app; by eapply (l_created _ _ _ R).
  - apply sorted_snoc.
    + eapply sorted_mono; [|apply sorted_filter, R]. intros [p1 c1] [p2 c2] [_ H1]%Ho [_ H2]%Ho. unfold later. simpl.
      by rewrite !lookup_insert_ne by done.
    + intros [p1 c1] [H1 H2]%Ho. unfold later. simpl. rewrite lookup_insert_eq, lookup_insert_ne by done.
      destruct (last_active a !! c1) as [v|] eqn:E; [|done]. apply (l_clock _ _ _ R) in E. lia.
  - intros c' v [[<- <-]|[Hcc E]]%lookup_insert_Some; [lia|]. apply (l_clock _ _ _ R) in E. lia.
  - intros c' Hc'. apply lookup_insert_is_Some'. right. by apply (l_up _ _ _ R).
  - intros c' [->|Hs]%lookup_insert_is_Some'; apply (l_seen _ _ _ R); [by rewrite Hc|done].
  - apply R.
Qed.

Lemma Down_spec n s a c t :
  represents n s a -> is_Some (last_active a !! c) -> clock a <= t ->
  ∃ s', handle (Down c t) s = Ok (tt, s') ∧ represents n s' (act_step n (Down c t) a).
Proof.
  intros R [u Hu] Ht. destruct (l_conn _ _ _ R _ _ Hu) as (pos & Hc & Hin).
  pose proof (λ p c', without_others n s a pos c p c' R Hin) as Ho.
  set (x := mkConn false (Some (mkNode u pos))).
  eexists; split.
  { simpl. rewrite (bind_Ok _ _ _ _ _ (deref_conn_Ok c _ s Hc)). cbn [context]. fold x.
    set (s1 := set_conn c x s). rewrite (bind_Ok _ _ s tt s1) by done. unfold onConnection.
    assert (conns s1 !! c = Some x) as E by apply lookup_insert_eq.
    rewrite (bind_Ok _ _ _ _ _ (deref_conn_Ok c x s1 E)). cbn [connected x context].
    rewrite (bind_Ok _ _ s1 (mkNode u pos) s1), (bind_Ok _ _ s1 s1 s1) by done. cbn [position].
    rewrite (node_at_spec pos c (connectionList_ s1)) by (done || apply R).
    by rewrite (bind_Ok _ _ s1 (pos, c) s1) by done. }
  split; cbn [set_list set_conn connectionList_ idleSeconds_ created conns calls last_active up seen clock closed act_step];
    try apply R.
  - intros c' v [Hcc E]%lookup_delete_Some. destruct (l_conn _ _ _ R _ _ E) as (p & E1 & E2). exists p.
    rewrite lookup_insert_ne, E1 by done. split; [|by apply Ho]. do 2 f_equal. apply bool_decide_ext. set_solver.
  - intros p c' [Hl Hne]%Ho. rewrite lookup_delete_ne by done. by eapply (l_list _ _ _ R).
  - apply without_NoDup, R.
  - apply without_NoDup, R.
  - intros p c' [Hl Hne]%Ho. by eapply (l_created _ _ _ R).
  - eapply sorted_mono; [|apply sorted_filter, R]. intros [p1 c1] [p2 c2] [_ H1]%Ho [_ H2]%Ho. unfold later. simpl.
    by rewrite !lookup_delete_ne by done.
  - intros c' v [Hcc E]%lookup_delete_Some. apply (l_clock _ _ _ R) in E. lia.
  - intros c' [Hc' Hn]%elem_of_difference. rewrite lookup_delete_ne by set_solver. by apply (l_up _ _ _ R).
  - intros c' [->|Hs]%lookup_insert_is_Some'; apply (l_seen _ _ _ R); [by rewrite Hc|done].
Qed.

Lemma Destroy_spec n s a c :
  represents n s a -> last_active a !! c = None ->
  ∃ s', handle (Destroy c) s = Ok (tt, s') ∧ represents n s' a.
Proof.
  intros R Hn. eexists; split; [done|]. destruct R. split; simpl; try done.
  - intros c' t E. destruct (l_conn0 c' t E) as (pos & E1 & E2). exists pos. rewrite lookup_delete_ne by congruence. done.
  - intros c' [x [_ E]%lookup_delete_Some]. apply l_seen0. by rewrite E.
Qed.

(** ** The timer *)

Definition expired (n now : Z) (a : Activity) (c : Z) : bool :=
  match last_active a !! c with Some t => t + n * 10 ^ 6 <? now | None => false end.

Lemma elem_of_idle_at n now a c : c ∈ idle_at n now a <-> expired n now a c = true ∧ c ∈ up a.
Proof.
  unfold idle_at, expired. rewrite elem_of_intersection, elem_of_dom. unfold is_Some. setoid_rewrite map_lookup_filter_Some.
  simpl. destruct (last_active a !! c) as [t|]; [rewrite Z.ltb_lt|]; naive_solver.
Qed.

(** Nothing in the rest of a sorted list is idle when its first connection is not. *)
Lemma none_idle n now a pos c t l :
  last_active a !! c = Some t -> now <= t + n * 10 ^ 6 ->
  Forall (later (last_active a) (pos, c)) l -> filter (.∈ idle_at n now a) (((pos, c) :: l).*2) = [].
Proof.
  intros Hc Hn Hl. rewrite Forall_forall in Hl.
  destruct (filter _ _) as [|c' f] eqn:E; [done|].
  assert (c' ∈ filter (.∈ idle_at n now a) (((pos, c) :: l).*2)) as [Hi Hin]%list_elem_of_filter by (rewrite E; set_solver).
  apply elem_of_idle_at in Hi as [Hi _]. unfold expired in Hi. rewrite fmap_cons, elem_of_cons in Hin. simpl in Hin.
  destruct Hin as [->|([p u] & -> & Hin)%list_elem_of_fmap].
  - rewrite Hc in Hi. lia.
  - apply Hl in Hin. unfold later in Hin. simpl in *. rewrite Hc in Hin. destruct (last_active a !! u); [lia|done].
Qed.

Definition disconnect (x : Conn) : Conn := mkConn false (context x).

Lemma loop_spec now n a l s :
  idleSeconds_ s = n -> clock a <= now -> NoDup l.*2 -> StronglySorted (later (last_active a)) l ->
  (∀ c, c ∈ l.*2 -> ∃ t pos, last_active a !! c = Some t ∧ t <= now ∧
     conns s !! c = Some (mkConn (bool_decide (c ∈ up a)) (Some (mkNode t pos)))) ->
  ∃ cs, onTimer_loop now l s =
      Ok (l, mkEcho n (connectionList_ s) (created s) cs (calls s ++ (filter (.∈ idle_at n now a) l.*2 ≫= close_calls))) ∧
    (∀ c, cs !! c = if decide (c ∈ l.*2 ∧ c ∈ idle_at n now a) then disconnect <$> conns s !! c else conns s !! c).
Proof.
  revert s. induction l as [|[pos c] l IH]; intros s Hn Hck Hnd Hs Hl.
  { exists (conns s). simpl. rewrite app_nil_r. split; [by destruct s; simpl in *; subst|].
    done. }
  rewrite fmap_cons, NoDup_cons in Hnd. destruct Hnd as [Hc Hnd].
  apply StronglySorted_inv in Hs as [Hs Hlater].
  destruct (Hl c) as (t & p & Ht & Hle & Ex); [set_solver|]. cbn [onTimer_loop].
  rewrite (bind_Ok _ _ s s s) by done. rewrite Ex. cbn [context of_option].
  rewrite (bind_Ok _ _ s (mkNode t p) s) by done. cbn [lastReceiveTime].
  rewrite Hn, gt_int_spec, lt_zero_spec. destruct (t + n * 10 ^ 6 <? now) eqn:Hex.
  2: { apply Z.ltb_ge in Hex. rewrite (proj2 (Z.ltb_ge now t)) by lia. exists (conns s).
       pose proof (none_idle n now a pos c t l Ht Hex Hlater) as Hno. rewrite Hno. simpl. rewrite app_nil_r.
       split; [by destruct s; simpl in *; subst|]. intros c'. rewrite decide_False; [done|]. intros [H1 H2].
       assert (c' ∈ filter (.∈ idle_at n now a) (((pos, c) :: l).*2)) as Hin by (by apply list_elem_of_filter).
       rewrite Hno in Hin. set_solver. }
  assert (expired n now a c = true) as Hexp by (unfold expired; by rewrite Ht).
  set (s1 := if decide (c ∈ up a) then forceCloseWithDelay c (shutdown c s) else s).
  rewrite (bind_Ok _ _ s tt s1).
  2: { unfold s1. cbn [connected]. by destruct (decide (c ∈ up a)); [rewrite bool_decide_true|rewrite bool_decide_false]. }
  assert (∀ c', c' ≠ c -> conns s1 !! c' = conns s !! c') as Hsame.
  { intros c' Hne. unfold s1. case_decide; [|done]. simpl. by rewrite lookup_alter_ne by done. }
  destruct (IH s1) as (cs & E & Hcs); [by unfold s1; case_decide|done..| |].
  { intros c' Hc'. destruct (Hl c') as (t' & p' & ? & ? & ?); [set_solver|]. exists t', p'.
    rewrite Hsame; [done|]. intros ->. done. }
  rewrite (bind_Ok _ _ _ _ _ E). exists cs. rewrite fmap_cons. cbn [snd]. split.
  - unfold s1. destruct (decide (c ∈ up a)) as [Hu|Hu].
    + rewrite filter_cons_True by (by apply elem_of_idle_at). simpl. by rewrite <- !app_assoc.
    + rewrite filter_cons_False by (by rewrite elem_of_idle_at; intros []). done.
  - intros c'. rewrite Hcs. destruct (decide (c' = c)) as [->|Hne].
    + rewrite decide_False by (by intros []). unfold s1. destruct (decide (c ∈ up a)) as [Hu|Hu].
      * rewrite decide_True by (split; [set_solver|by apply elem_of_idle_at]). simpl. by rewrite lookup_alter_eq.
      * rewrite decide_False; [done|]. intros [_ Hi%elem_of_idle_at]. by destruct Hi.
    + rewrite Hsame by done. assert (c' ∈ c :: l.*2 <-> c' ∈ l.*2) as Hiff by set_solver.
      destruct (decide (c' ∈ l.*2 ∧ c' ∈ idle_at n now a)) as [Hd|Hd];
        [rewrite decide_True by (by rewrite Hiff)|rewrite decide_False by (by rewrite Hiff)]; done.
Qed.

Lemma list_Tick_spec n s a now :
  represents n s a -> clock a <= now ->
  ∃ s', handle (Tick now) s = Ok (tt, s') ∧ represents n s' (act_step n (Tick now) a).
Proof.
  intros R Hk. destruct (loop_spec now n a (connectionList_ s) s) as (cs & E & Hcs); [apply R|done|apply R..| |].
  { intros c ([p c'] & -> & Hin)%list_elem_of_fmap. simpl. destruct (l_list _ _ _ R _ _ Hin) as [t Ht].
    destruct (l_conn _ _ _ R _ _ Ht) as (pos & E & _). exists t, pos. split_and!; [done| |done].
    apply (l_clock _ _ _ R) in Ht. lia. }
  assert (∀ c, is_Some (last_active a !! c) -> c ∈ (connectionList_ s).*2) as Hmem.
  { intros c [t (pos & _ & Hin)%(l_conn _ _ _ R)]. apply list_elem_of_fmap. by exists (pos, c). }
  eexists; split.
  { simpl. unfold onTimer. rewrite (bind_Ok _ _ s s s) by done. by rewrite (bind_Ok _ _ _ _ _ E). }
  split; cbn [set_list connectionList_ idleSeconds_ created conns calls last_active up seen clock closed act_step];
    try done; try apply R.
  - intros c t Ht. destruct (l_conn _ _ _ R _ _ Ht) as (pos & Ec & Hin). exists pos. split; [|done].
    rewrite Hcs, Ec. destruct (decide (c ∈ (connectionList_ s).*2 ∧ c ∈ idle_at n now a)) as [Hd|Hd].
    + destruct Hd as [_ Hd]. rewrite (bool_decide_false (c ∈ up a ∖ _)) by (rewrite elem_of_difference; naive_solver). done.
    + do 2 f_equal. apply bool_decide_ext. rewrite elem_of_difference. split; [|by intros []]. intros Hu. split; [done|].
      intros Hi. apply Hd. split; [apply Hmem; eauto|done].
  - intros c t Ht. apply (l_clock _ _ _ R) in Ht. lia.
  - intros c [Hu _]%elem_of_difference. by apply (l_up _ _ _ R).
  - intros c. rewrite Hcs. case_decide; rewrite ?fmap_is_Some; apply (l_seen _ _ _ R).
  - rewrite (l_calls _ _ _ R), bind_app. apply Permutation_app_head, bind_Permutation.
    apply NoDup_Permutation; [apply NoDup_filter, R|apply NoDup_elements|].
    intros c. rewrite list_elem_of_filter, elem_of_elements. split; [by intros []|]. intros Hi. split; [done|].
    apply Hmem, (l_up _ _ _ R). by apply elem_of_idle_at in Hi as [_ ?].
Qed.

Lemma list_handle_spec n s a ev :
  represents n s a -> possible ev a ->
  ∃ s', handle ev s = Ok (tt, s') ∧ represents n s' (act_step n ev a).
Proof.
  intros R Hp. destruct ev as [c now|c t|c t|c|now]; simpl in Hp.
  - destruct Hp. by apply list_Up_spec.
  - destruct Hp. by apply list_Msg_spec.
  - destruct Hp. by apply Down_spec.
  - by apply Destroy_spec.
  - by apply list_Tick_spec.
Qed.

Lemma list_run_spec n evs s a :
  possible_run n evs a -> represents n s a ->
  ∃ s', mapM_ handle evs s = Ok (tt, s') ∧ represents n s' (foldl (flip (act_step n)) a evs).
Proof.
  revert s a; induction evs as [|ev evs IH]; intros s a Hp R; simpl; [by eexists|].
  destruct Hp as [Hp Hps]. destruct (list_handle_spec n s a ev R Hp) as (s1 & E & R1).
  rewrite (bind_Ok _ _ _ _ _ E). by apply IH.
Qed.

Lemma list_new_represents n t0 : represents n (new_EchoServer n) (mkAct ∅ ∅ ∅ t0 []).
Proof. split; simpl; try done; try (by intros; set_solver); try constructor. intros c []%lookup_empty_is_Some. Qed.

(** C24: The sorted list closes exactly the connections that have been idle for more than
    [idleSeconds] when the timer fires, as a scan of all connections would: on every run in
    which the times that the events carry do not go backwards, no assertion fails, no erased
    iterator is used, and each closed connection gets one [shutdown] and one
    [forceCloseWithDelay].  A message that is read after a connection came up in the same
    iteration carries an earlier time than it, and the list is not sorted any more
    ([stale_message]). *)
Theorem idle_list_exact n t0 evs :
  possible_run n evs (mkAct ∅ ∅ ∅ t0 []) ->
  ∃ s, mapM_ handle evs (new_EchoServer n) = Ok (tt, s) ∧
    calls s ≡ₚ closed (foldl (flip (act_step n)) (mkAct ∅ ∅ ∅ t0 []) evs) ≫= close_calls.
Proof.
  intros Hp. destruct (list_run_spec n evs _ _ Hp (list_new_represents n t0)) as (s & E & R). exists s. split; [done|apply R].
Qed.
End server.

(** * An instance *)

#[export] Instance exact_difference : TimeDifference Z := {|
  timeDifference high low := high - low;
  gt_int d n := n * 10 ^ 6 <? d;
  lt_zero d := d <? 0 |}.

#[export] Instance exact_difference_laws : TimeDifferenceLaws Z.
Proof.
  split; intros; simpl.
  - destruct (n * 10 ^ 6 <? high - low) eqn:E1, (low + n * 10 ^ 6 <? high) eqn:E2; lia.
  - destruct (high - low <? 0) eqn:E1, (high <? low) eqn:E2; lia.
Qed.

(** Ten seconds; the first connection's message puts it behind the second in the list. *)
Definition ten_seconds : list Event :=
  [Up 1 0; Up 2 1000000; Msg 1 5000000; Tick 11000000; Tick 11000001; Tick 12000001; Down 2 13000000; Destroy 2;
   Tick 15000001].

Lemma idle_list_exact_witness :
  possible_run 10 ten_seconds (mkAct ∅ ∅ ∅ 0 []) ∧
  ∃ s, mapM_ (handle (D := Z)) ten_seconds (new_EchoServer 10) = Ok (tt, s) ∧
    calls s ≡ₚ closed (foldl (flip (act_step 10)) (mkAct ∅ ∅ ∅ 0 []) ten_seconds) ≫= close_calls.
Proof.
  assert (possible_run 10 ten_seconds (mkAct ∅ ∅ ∅ 0 [])) as Hp.
  { cbn [possible_run ten_seconds]. split_and!; try done; vm_compute; (split; [by intros ?|by intros ?]) || by eexists. }
  split; [exact Hp|]. exact (idle_list_exact (D := Z) 10 0 ten_seconds Hp).
Defined.

Example ten_seconds_closed :
  match mapM_ (handle (D := Z)) ten_seconds (new_EchoServer 10) with
  | Ok (_, s) => calls s = [Shutdown 2; ForceCloseWithDelay 2; Shutdown 1; ForceCloseWithDelay 1] ∧ (connectionList_ s).*2 = [1]
  | Fault _ => False
  end.
Proof. vm_compute. done. Qed.

(** In one iteration, which [poll] began at 3, the second connection comes up at 5 and then the
    first one's message is read: it goes behind the second in the list with an earlier time.
    The timer finds the second not idle yet and stops; the first, which is idle, stays for
    another second. *)
Definition stale_run : list Event := [Up 1 0; Up 2 5; Msg 1 3; Tick 10000004].

Example stale_message :
  match mapM_ (handle (D := Z)) stale_run (new_EchoServer 10) with
  | Ok (_, s) => calls s = [] ∧ (connectionList_ s).*2 = [2; 1]
  | Fault _ => False
  end ∧
  closed (foldl (flip (act_step 10)) (mkAct ∅ ∅ ∅ 0 []) stale_run) = [1] ∧
  ¬ possible_run 10 stale_run (mkAct ∅ ∅ ∅ 0 []).
Proof. split; [vm_compute; done|]. split; [vm_compute; reflexivity|]. intros (_ & _ & [_ H] & _). by apply H. Qed.
