(* ===== verification/ThreadLocal.v ===== *)
(** Thread-local singletons: [base/ThreadLocalSingleton.h], [ThreadLocalSingleton1.h],
    [ThreadLocalSingleton2.h], [ThreadLocalSingleton3.h] and [static_test.h].  [pthread]'s keys are a parameter; a
    [__thread] pointer is a map from threads; a null pointer is an absent one.  [T]'s own
    constructor and destructor do not use the singleton. *)
From stdpp Require Export sets fin_sets.
From S2P Require Import Prelude.
Open Scope list_scope.

(** One thread-specific data key with a destructor, as POSIX describes it.  [thread_exit t]
    is what a thread's end does with the key: a value that is not null is set to null and
    handed to the destructor. *)
Class Pthread (K : Type) := {
  no_key : K;
  key_create : K -> K;
  key_delete : K -> K;
  key_exists : K -> bool;
  getspecific : Z -> K -> option Z;
  setspecific : Z -> Z -> K -> K;
  thread_exit : Z -> K -> option Z * K }.

Class PthreadLaws (K : Type) `{Pthread K} := {
  key_create_spec k : key_exists (key_create k) = true ∧ ∀ t, getspecific t (key_create k) = None;
  setspecific_spec t v k : key_exists k = true ->
    key_exists (setspecific t v k) = true ∧
    ∀ t', getspecific t' (setspecific t v k) = if decide (t' = t) then Some v else getspecific t' k;
  thread_exit_spec t k : key_exists k = true ->
    (thread_exit t k).1 = getspecific t k ∧ key_exists (thread_exit t k).2 = true ∧
    ∀ t', getspecific t' (thread_exit t k).2 = if decide (t' = t) then None else getspecific t' k;
  key_delete_spec t k : (thread_exit t (key_delete k)).1 = None }.

(** The threads' [t_value_], the objects [T] and the key. *)
Record TLS (K : Type) := mkTLS {
  t_value_ : gmap Z Z;
  live : gset Z;
  allocs : Z;                (* objects so far *)
  pkey_ : K }.
Arguments mkTLS {K}. Arguments t_value_ {K}. Arguments live {K}. Arguments allocs {K}. Arguments pkey_ {K}.

Inductive Event := Instance (t : Z) | Ends (t : Z).

Section objects.
Context {K : Type}.

Definition set_value (m : gmap Z Z) (s : TLS K) : TLS K := mkTLS m (live s) (allocs s) (pkey_ s).
Definition set_pkey (k : K) (s : TLS K) : TLS K := mkTLS (t_value_ s) (live s) (allocs s) k.

(** [new T()] and [delete p] *)
Definition new_T : M (TLS K) Z := λ s,
  Ok (allocs s, mkTLS (t_value_ s) ({[allocs s]} ∪ live s) (allocs s + 1) (pkey_ s)).
Definition delete_T (p : Z) : M (TLS K) unit := λ s,
  if decide (p ∈ live s) then Ok (tt, mkTLS (t_value_ s) (live s ∖ {[p]}) (allocs s) (pkey_ s)) else Fault UB.
End objects.

(** * [ThreadLocalSingleton.h]: a [__thread] pointer, and a key for its end *)

Module Keyed.
Section tls.
Context {K : Type} `{PthreadLaws K}.

(** [Deleter()], before [main]. *)
Definition start : TLS K := mkTLS ∅ ∅ 0 (key_create no_key).

(** [deleter_.set(newObj)] *)
Definition set (t newObj : Z) : M (TLS K) unit :=
  modify (λ s, set_pkey (setspecific t newObj (pkey_ s)) s).

Definition instance (t : Z) : M (TLS K) Z :=
  s ← get;
  match t_value_ s !! t with
  | Some p => mret p
  | None =>
      p ← new_T;
      modify (λ s, set_value (<[t := p]> (t_value_ s)) s) ;;
      set t p ;;
      mret p
  end.

Definition destructor (t obj : Z) : M (TLS K) unit :=
  s ← get;
  assert (bool_decide (t_value_ s !! t = Some obj)) ;;
  match t_value_ s !! t with
  | Some p => delete_T p
  | None => mret tt                    (* delete of a null pointer *)
  end ;;
  modify (λ s, set_value (delete t (t_value_ s)) s).

Definition thread_ends (t : Z) : M (TLS K) unit :=
  s ← get;
  let '(v, k) := thread_exit t (pkey_ s) in
  modify (set_pkey k) ;;
  match v with Some obj => destructor t obj | None => mret tt end.

(** [~Deleter()], when the process ends. *)
Definition finish (s : TLS K) : TLS K := set_pkey (key_delete (pkey_ s)) s.

Definition handle (ev : Event) : M (TLS K) unit :=
  match ev with Instance t => _ ← instance t; mret tt | Ends t => thread_ends t end.

(** The threads that have used their singleton and not ended. *)
Definition users (evs : list Event) : gset Z :=
  foldl (λ u ev, match ev with Instance t => {[t]} ∪ u | Ends t => u ∖ {[t]} end) ∅ evs.

Record tls_inv (u : gset Z) (s : TLS K) : Prop := {
  t_key : key_exists (pkey_ s) = true;
  t_specific t : getspecific t (pkey_ s) = t_value_ s !! t;
  t_users t : is_Some (t_value_ s !! t) <-> t ∈ u;
  t_live p : p ∈ live s <-> ∃ t, t_value_ s !! t = Some p;
  t_inj t t' p : t_value_ s !! t = Some p -> t_value_ s !! t' = Some p -> t = t';
  t_allocs p : p ∈ live s -> p < allocs s }.

Lemma instance_spec u s t :
  tls_inv u s -> ∃ p s', instance t s = Ok (p, s') ∧ tls_inv ({[t]} ∪ u) s' ∧ t_value_ s' !! t = Some p.
Proof.
  intros R. unfold instance. rewrite (bind_Ok _ _ s s s) by done. destruct (t_value_ s !! t) as [p|] eqn:E.
  - exists p, s. split_and!; [done| |done]. assert (t ∈ u) by (apply (t_users _ _ R); eauto).
    replace ({[t]} ∪ u) with u by set_solver. done.
  - set (p := allocs s).
    set (s1 := mkTLS (<[t := p]> (t_value_ s)) ({[p]} ∪ live s) (p + 1) (setspecific t p (pkey_ s))).
    exists p, s1. assert (p ∉ live s) as Hp by (intros Hin%(t_allocs _ _ R); lia).
    destruct (setspecific_spec t p (pkey_ s)) as [Hk Hs]; [apply R|].
    split; [done|split]; [|apply lookup_insert_eq].
    split; simpl; [done|..].
    + intros t'. rewrite Hs. case_decide; [subst; by rewrite lookup_insert_eq|].
      rewrite lookup_insert_ne by done. apply R.
    + intros t'. rewrite lookup_insert_is_Some', (t_users _ _ R). set_solver.
    + intros q. rewrite elem_of_union, elem_of_singleton, (t_live _ _ R). split.
      * intros [->|(t' & E')]; [exists t; apply lookup_insert_eq|]. exists t'. rewrite lookup_insert_ne; [done|congruence].
      * intros (t' & [[_ <-]|[_ E']]%lookup_insert_Some); [by left|eauto].
    + assert (∀ t', t_value_ s !! t' ≠ Some p) as Hn by (intros t' E'; apply Hp, (t_live _ _ R); eauto).
      intros t1 t2 q [[<- <-]|[H1 E1]]%lookup_insert_Some [[<- ?]|[H2 E2]]%lookup_insert_Some;
        [done|by destruct (Hn t2)|by subst; destruct (Hn t1)|by eapply (t_inj _ _ R)].
    + intros q [->%elem_of_singleton|Hq%(t_allocs _ _ R)]%elem_of_union; lia.
Qed.

Lemma thread_ends_spec u s t :
  tls_inv u s -> ∃ s', thread_ends t s = Ok (tt, s') ∧ tls_inv (u ∖ {[t]}) s' ∧
    live s' = match t_value_ s !! t with Some p => live s ∖ {[p]} | None => live s end.
Proof.
  intros R. destruct (thread_exit_spec t (pkey_ s)) as (H1 & H2 & H3); [apply R|].
  unfold thread_ends. rewrite (bind_Ok _ _ s s s) by done.
  destruct (thread_exit t (pkey_ s)) as [v k]. simpl in *. rewrite (t_specific _ _ R) in H1. subst v.
  rewrite (bind_Ok _ _ s tt (set_pkey k s)) by done. destruct (t_value_ s !! t) as [p|] eqn:E.
  - unfold destructor. set (s1 := set_pkey k s). rewrite (bind_Ok _ _ s1 s1 s1) by done.
    change (t_value_ s1) with (t_value_ s). rewrite E.
    rewrite (bind_Ok _ _ s1 tt s1) by (apply assert_Ok; by apply bool_decide_true).
    assert (p ∈ live s) as Hp by (apply (t_live _ _ R); eauto).
    unfold delete_T. rewrite (bind_Ok _ _ s1 tt (mkTLS (t_value_ s) (live s ∖ {[p]}) (allocs s) k)) by (simpl; by rewrite decide_True).
    eexists; split; [done|split; [|done]]. split; simpl; [done|..].
    + intros t'. rewrite H3. case_decide; [subst; by rewrite lookup_delete_eq|].
      rewrite lookup_delete_ne by done. apply R.
    + intros t'. rewrite lookup_delete_is_Some, (t_users _ _ R). set_solver.
    + intros q. rewrite elem_of_difference, elem_of_singleton, (t_live _ _ R). split.
      * intros [(t' & E') Hq]. exists t'. apply lookup_delete_Some. split; [congruence|done].
      * intros (t' & [Hne E']%lookup_delete_Some). split; [eauto|]. intros ->. apply Hne. by eapply (t_inj _ _ R).
    + intros t1 t2 q [_ E1]%lookup_delete_Some [_ E2]%lookup_delete_Some. by eapply (t_inj _ _ R).
    + intros q [Hq _]%elem_of_difference. by apply (t_allocs _ _ R).
  - eexists; split; [done|split; [|done]]. assert (t ∉ u) as Hu by (rewrite <- (t_users _ _ R), E; by intros []).
    replace (u ∖ {[t]}) with u by set_solver. destruct R. split; simpl; try done.
    intros t'. rewrite H3. case_decide; [by subst|done].
Qed.

Lemma tls_run_inv evs u s :
  tls_inv u s ->
  ∃ s', mapM_ handle evs s = Ok (tt, s') ∧
    tls_inv (foldl (λ u ev, match ev with Instance t => {[t]} ∪ u | Ends t => u ∖ {[t]} end) u evs) s'.
Proof.
  revert u s; induction evs as [|ev evs IH]; intros u s R; simpl; [by eexists|].
  destruct ev as [t|t]; simpl.
  - destruct (instance_spec u s t R) as (p & s1 & E & R1 & _).
    rewrite (bind_Ok _ _ s tt s1) by (by rewrite (bind_Ok _ _ _ _ _ E)). by apply IH.
  - destruct (thread_ends_spec u s t R) as (s1 & E & R1 & _). rewrite (bind_Ok _ _ _ _ _ E). by apply IH.
Qed.

Lemma start_inv : tls_inv ∅ start.
Proof.
  destruct (key_create_spec no_key) as [H1 H2]. split; simpl; try done; try set_solver.
  - intros t. rewrite lookup_empty. split; [by intros []|set_solver].
Qed.

(** C35: Whatever the threads do, no assertion fails and nothing is deleted twice, and the objects
    alive are at every moment exactly one for each thread that has called [instance] and not
    ended: every thread's object is its own, and is freed when the thread ends. *)
Theorem tls_lifetime evs :
  ∃ s, mapM_ handle evs start = Ok (tt, s) ∧
    dom (t_value_ s) = users evs ∧ (∀ p, p ∈ live s <-> ∃ t, t_value_ s !! t = Some p) ∧
    (∀ t t' p, t_value_ s !! t = Some p -> t_value_ s !! t' = Some p -> t = t').
Proof.
  destruct (tls_run_inv evs ∅ start start_inv) as (s & E & R). exists s. split_and!; [done| |apply R|apply R].
  apply set_eq. intros t. rewrite elem_of_dom. apply R.
Qed.

(** A thread that ends after the process's last object with a static lifetime is gone leaves
    its object behind. *)
Lemma ends_after_finish t s :
  ∃ s', thread_ends t (finish s) = Ok (tt, s') ∧ live s' = live s.
Proof.
  unfold thread_ends. rewrite (bind_Ok _ _ (finish s) (finish s) (finish s)) by done.
  pose proof (key_delete_spec t (pkey_ s)) as E. unfold finish. simpl.
  destruct (thread_exit t (key_delete (pkey_ s))) as [v k]. simpl in E. subst v. by eexists.
Qed.
End tls.
End Keyed.

(** * [ThreadLocalSingleton3.h]: the same without the assertion, and [pointer] *)

Module Unchecked.
Section tls.
Context {K : Type} `{PthreadLaws K}.

Definition instance (t : Z) : M (TLS K) Z :=
  s ← get;
  match t_value_ s !! t with
  | Some p => mret p
  | None =>
      p ← new_T;
      modify (λ s, set_value (<[t := p]> (t_value_ s)) s) ;;
      modify (λ s, set_pkey (setspecific t p (pkey_ s)) s) ;;
      mret p
  end.

Definition pointer (t : Z) (s : TLS K) : option Z := t_value_ s !! t.

Definition destructor (t obj : Z) : M (TLS K) unit :=
  s ← get;
  match t_value_ s !! t with
  | Some p => delete_T p
  | None => mret tt
  end ;;
  modify (λ s, set_value (delete t (t_value_ s)) s).

Definition thread_ends (t : Z) : M (TLS K) unit :=
  s ← get;
  let '(v, k) := thread_exit t (pkey_ s) in
  modify (set_pkey k) ;;
  match v with Some obj => destructor t obj | None => mret tt end.

Definition handle (ev : Event) : M (TLS K) unit :=
  match ev with Instance t => _ ← instance t; mret tt | Ends t => thread_ends t end.

(** Where the assertion holds it makes no difference, and it always holds. *)
Lemma handle_checked ev s x :
  Keyed.handle ev s = Ok x -> handle ev s = Ok x.
Proof.
  destruct ev as [t|t]; [done|]. simpl. unfold Keyed.thread_ends, thread_ends.
  rewrite !(bind_Ok _ _ s s s) by done. destruct (thread_exit t (pkey_ s)) as [[obj|] k]; [|done].
  rewrite !(bind_Ok _ _ s tt (set_pkey k s)) by done. unfold Keyed.destructor, destructor.
  rewrite !(bind_Ok _ _ (set_pkey k s) (set_pkey k s) (set_pkey k s)) by done. intros E.
  destruct x as [[] s']. apply bind_inv in E as ([] & s1 & [_ ->]%assert_inv & E). exact E.
Qed.

Lemma run_checked evs s x :
  mapM_ Keyed.handle evs s = Ok x -> mapM_ handle evs s = Ok x.
Proof.
  revert s; induction evs as [|ev evs IH]; intros s; simpl; [done|]. intros E.
  destruct x as [[] s']. apply bind_inv in E as ([] & s1 & E1 & E2).
  rewrite (bind_Ok _ _ _ _ _ (handle_checked _ _ _ E1)). by apply IH.
Qed.

Lemma unchecked_same evs :
  mapM_ handle evs (Keyed.start : TLS K) = mapM_ Keyed.handle evs Keyed.start.
Proof.
  destruct (Keyed.tls_run_inv evs ∅ Keyed.start Keyed.start_inv) as (s & E & _). rewrite E. by apply run_checked.
Qed.
End tls.
End Unchecked.

(** * [ThreadLocalSingleton2.h]: the key alone *)

Module KeyOnly.
Section tls.
Context {K : Type} `{PthreadLaws K}.

(** The constructor of the one object of the class. *)
Definition start : TLS K := mkTLS ∅ ∅ 0 (key_create no_key).

Definition instance (t : Z) : M (TLS K) Z :=
  s ← get;
  match getspecific t (pkey_ s) with
  | Some p => mret p
  | None =>
      p ← new_T;
      modify (λ s, set_pkey (setspecific t p (pkey_ s)) s) ;;
      mret p
  end.

(** The destructor looks the value up again instead of using [obj]. *)
Definition destructor (t obj : Z) : M (TLS K) unit :=
  s ← get;
  match getspecific t (pkey_ s) with
  | Some p => delete_T p
  | None => mret tt
  end.

Definition thread_ends (t : Z) : M (TLS K) unit :=
  s ← get;
  let '(v, k) := thread_exit t (pkey_ s) in
  modify (set_pkey k) ;;
  match v with Some obj => destructor t obj | None => mret tt end.

Definition handle (ev : Event) : M (TLS K) unit :=
  match ev with Instance t => _ ← instance t; mret tt | Ends t => thread_ends t end.

Lemma thread_ends_leaks t s :
  key_exists (pkey_ s) = true ->
  ∃ k, thread_ends t s = Ok (tt, set_pkey k s) ∧ key_exists k = true ∧ getspecific t k = None.
Proof.
  intros Hk. destruct (thread_exit_spec t (pkey_ s) Hk) as (_ & H2 & H3).
  unfold thread_ends. rewrite (bind_Ok _ _ s s s) by done. destruct (thread_exit t (pkey_ s)) as [v k]. simpl in *.
  rewrite (bind_Ok _ _ s tt (set_pkey k s)) by done.
  assert (getspecific t k = None) as Hn by (by rewrite H3, decide_True).
  exists k. split; [|done]. destruct v as [obj|]; [|done]. unfold destructor.
  rewrite (bind_Ok _ _ (set_pkey k s) (set_pkey k s) (set_pkey k s)) by done. simpl. by rewrite Hn.
Qed.

(** The value is null by the time the destructor looks: no object is ever freed, as many as
    threads use the singleton. *)
Lemma key_only_leaks evs :
  ∃ s, mapM_ handle evs start = Ok (tt, s) ∧ ∀ p, p ∈ live s <-> 0 <= p < allocs s.
Proof.
  assert (∀ s, key_exists (pkey_ s) = true -> 0 <= allocs s -> (∀ p, p ∈ live s <-> 0 <= p < allocs s) ->
    ∃ s', mapM_ handle evs s = Ok (tt, s') ∧ ∀ p, p ∈ live s' <-> 0 <= p < allocs s') as Hrun.
  { induction evs as [|ev evs IH]; intros s Hk H0' Hl; simpl; [by eexists|]. destruct ev as [t|t]; simpl.
    - unfold instance. rewrite (bind_Ok _ _ s tt
        (match getspecific t (pkey_ s) with Some _ => s | None =>
           mkTLS (t_value_ s) ({[allocs s]} ∪ live s) (allocs s + 1) (setspecific t (allocs s) (pkey_ s)) end)).
      2: { msimp. by destruct (getspecific t (pkey_ s)). }
      apply IH; destruct (getspecific t (pkey_ s)); simpl; try done; [|lia|].
      + by apply setspecific_spec.
      + intros p. rewrite elem_of_union, elem_of_singleton, Hl. lia.
    - destruct (thread_ends_leaks t s Hk) as (k & E & H1 & _). rewrite (bind_Ok _ _ _ _ _ E). by apply IH. }
  apply Hrun; simpl; [apply (key_create_spec no_key)|lia|]. intros p. split; [set_solver|lia].
Qed.
End tls.
End KeyOnly.

(** * [ThreadLocalSingleton1.h]: no key at all *)

Module Bare.
Section tls.
Context {K : Type} `{PthreadLaws K}.

Definition start : TLS K := mkTLS ∅ ∅ 0 no_key.

Definition instance (t : Z) : M (TLS K) Z :=
  s ← get;
  match t_value_ s !! t with
  | Some p => mret p
  | None => p ← new_T; modify (λ s, set_value (<[t := p]> (t_value_ s)) s) ;; mret p
  end.

(** Nothing calls it. *)
Definition destructor (t obj : Z) : M (TLS K) unit :=
  s ← get;
  assert (bool_decide (t_value_ s !! t = Some obj)) ;;
  match t_value_ s !! t with Some p => delete_T p | None => mret tt end ;;
  modify (λ s, set_value (delete t (t_value_ s)) s).

(** [~Deleter2()] of the static member [deleter2_], on the thread [t] that ends the process. *)
Definition Deleter2_destructor (t : Z) : M (TLS K) unit :=
  s ← get;
  match t_value_ s !! t with Some p => delete_T p | None => mret tt end ;;
  modify (λ s, set_value (delete t (t_value_ s)) s).

(** The end of a thread takes its [__thread] pointer with it, and runs none of the above. *)
Definition thread_ends (t : Z) : M (TLS K) unit := modify (λ s, set_value (delete t (t_value_ s)) s).

Definition handle (ev : Event) : M (TLS K) unit :=
  match ev with Instance t => _ ← instance t; mret tt | Ends t => thread_ends t end.

Record bare_inv (u : gset Z) (s : TLS K) : Prop := {
  b_users : dom (t_value_ s) = u;
  b_allocs : 0 <= allocs s;
  b_live p : p ∈ live s <-> 0 <= p < allocs s;
  b_below t p : t_value_ s !! t = Some p -> 0 <= p < allocs s;
  b_inj t t' p : t_value_ s !! t = Some p -> t_value_ s !! t' = Some p -> t = t' }.

Lemma bare_handle_inv u s ev :
  bare_inv u s -> ∃ s', handle ev s = Ok (tt, s') ∧
    bare_inv (match ev with Instance t => {[t]} ∪ u | Ends t => u ∖ {[t]} end) s'.
Proof.
  intros [Hu Ha Hl Hb Hinj]. destruct ev as [t|t].
  - destruct (t_value_ s !! t) as [p|] eqn:E.
    + exists s. split; [unfold handle, instance; msimp; by rewrite E|].
      assert (t ∈ dom (t_value_ s)) by (apply elem_of_dom; eauto). split; try done. set_solver.
    + exists (mkTLS (<[t := allocs s]> (t_value_ s)) ({[allocs s]} ∪ live s) (allocs s + 1) (pkey_ s)).
      split; [unfold handle, instance; msimp; by rewrite E|]. split; simpl; [by rewrite dom_insert_L, Hu|lia|..].
      * intros p. rewrite elem_of_union, elem_of_singleton, Hl. lia.
      * intros t' p [[<- <-]|[_ Hp%Hb]]%lookup_insert_Some; lia.
      * intros t1 t2 p [[<- <-]|[H1 E1]]%lookup_insert_Some [[<- ?]|[H2 E2]]%lookup_insert_Some; try done.
        -- apply Hb in E2. lia.
        -- apply Hb in E1. lia.
        -- by eapply Hinj.
  - exists (set_value (delete t (t_value_ s)) s). split; [done|]. split; simpl; [by rewrite dom_delete_L, Hu|done|done|..].
    + intros t' p [_ Hp]%lookup_delete_Some. eauto.
    + intros t1 t2 p [_ E1]%lookup_delete_Some [_ E2]%lookup_delete_Some. by eapply Hinj.
Qed.

(** Every thread has its own object while it runs, and no object is ever freed. *)
Theorem bare_leaks evs :
  ∃ s, mapM_ handle evs start = Ok (tt, s) ∧ dom (t_value_ s) = Keyed.users evs ∧
    (∀ t t' p, t_value_ s !! t = Some p -> t_value_ s !! t' = Some p -> t = t') ∧
    ∀ p, p ∈ live s <-> 0 <= p < allocs s.
Proof.
  assert (∀ u s, bare_inv u s -> ∃ s', mapM_ handle evs s = Ok (tt, s') ∧
    bare_inv (foldl (λ u ev, match ev with Instance t => {[t]} ∪ u | Ends t => u ∖ {[t]} end) u evs) s') as Hrun.
  { induction evs as [|ev evs IH]; intros u s Hs; simpl; [by eexists|].
    destruct (bare_handle_inv u s ev Hs) as (s1 & E & Hs1). rewrite (bind_Ok _ _ _ _ _ E). by apply IH. }
  destruct (Hrun ∅ start) as (s & E & Hs).
  - split; simpl; [by rewrite dom_empty_L|lia| | |].
    + intros p. split; [set_solver|lia].
    + intros t p. by rewrite lookup_empty.
    + intros t t' p. by rewrite lookup_empty.
  - exists s. split_and!; [done|apply Hs..].
Qed.
End tls.
End Bare.

(** * [static_test.h]: a static object whose destructor runs when the process ends *)

Module StaticTest.
Section tls.
Context {K : Type} `{PthreadLaws K}.

Definition start : TLS K := mkTLS ∅ ∅ 0 no_key.

Definition instance (t : Z) : M (TLS K) Z :=
  s ← get;
  match t_value_ s !! t with
  | Some p => mret p
  | None => p ← new_T; modify (λ s, set_value (<[t := p]> (t_value_ s)) s) ;; mret p
  end.

Definition pointer (t : Z) (s : TLS K) : option Z := t_value_ s !! t.

(** [~Deleter2()], on the thread [t] that ends the process. *)
Definition Deleter2_destructor (t : Z) : M (TLS K) unit :=
  s ← get;
  match t_value_ s !! t with Some p => delete_T p | None => mret tt end ;;
  modify (λ s, set_value (delete t (t_value_ s)) s).

(** Only the last thread's object is freed. *)
Lemma static_test_frees t s p :
  t_value_ s !! t = Some p -> p ∈ live s ->
  ∃ s', Deleter2_destructor t s = Ok (tt, s') ∧ live s' = live s ∖ {[p]}.
Proof.
  intros E Hp. exists (mkTLS (delete t (t_value_ s)) (live s ∖ {[p]}) (allocs s) (pkey_ s)). split; [|done].
  unfold Deleter2_destructor. rewrite (bind_Ok _ _ s s s) by done. rewrite E. unfold delete_T. msimp.
  by rewrite decide_True.
Qed.
End tls.
End StaticTest.

(** * An instance *)

#[export] Instance map_pthread : Pthread (option (gmap Z Z)) := {|
  no_key := None;
  key_create _ := Some ∅;
  key_delete _ := None;
  key_exists k := bool_decide (is_Some k);
  getspecific t k := k ≫= (.!! t);
  setspecific t v k := <[t := v]> <$> k;
  thread_exit t k := (k ≫= (.!! t), delete t <$> k) |}.

#[export] Instance map_pthread_laws : PthreadLaws (option (gmap Z Z)).
Proof.
  split; simpl.
  - intros _. split; [done|]. intros t. apply lookup_empty.
  - intros t v [k|]; simpl; [|done]. intros _. split; [done|]. intros t'. case_decide.
    + subst. apply lookup_insert_eq.
    + by apply lookup_insert_ne.
  - intros t [k|]; simpl; [|done]. intros _. split_and!; [done..|]. intros t'. case_decide.
    + subst. apply lookup_delete_eq.
    + by apply lookup_delete_ne.
  - done.
Qed.

(** Two threads; one ends. *)
Example two_threads :
  match mapM_ (Keyed.handle (K := option (gmap Z Z))) [Instance 1; Instance 2; Instance 1; Ends 1] Keyed.start with
  | Ok (_, s) => live s = {[1]} ∧ allocs s = 2
  | Fault _ => False
  end.
Proof. vm_compute. done. Qed.

Example two_threads_leak :
  match mapM_ (KeyOnly.handle (K := option (gmap Z Z))) [Instance 1; Instance 2; Instance 1; Ends 1] KeyOnly.start with
  | Ok (_, s) => live s = {[0; 1]}
  | Fault _ => False
  end.
Proof. vm_compute. done. Qed.

(** [ThreadLocalSingleton_test.cc]: a thread asks for its object twice; [main] does, and two
    threads that it creates and joins. *)
Definition routine (t : Z) : list Event := [Instance t; Instance t].
Definition tls_test (first second : Z) : list Event :=
  routine 0 ++ (routine first ++ [Ends first]) ++ (routine second ++ [Ends second]).

(** After the test only the main thread's object is left, in whichever order the threads run;
    with the key alone ([ThreadLocalSingleton2.h]) all three are. *)
Example tls_test_lifetimes :
  (∀ p : bool, let es := if p then tls_test 1 2 else tls_test 2 1 in
     match mapM_ (Keyed.handle (K := option (gmap Z Z))) es Keyed.start with
     | Ok (_, s) => live s = {[0]} ∧ allocs s = 3
     | Fault _ => False
     end ∧
     match mapM_ (KeyOnly.handle (K := option (gmap Z Z))) es KeyOnly.start with
     | Ok (_, s) => live s = {[0; 1; 2]}
     | Fault _ => False
     end).
Proof. by intros []; vm_compute. Qed.

Lemma tls_lifetime_witness :
  ∃ s, mapM_ (Keyed.handle (K := option (gmap Z Z))) [Instance 1; Instance 2; Instance 1; Ends 1] Keyed.start = Ok (tt, s) ∧
    dom (t_value_ s) = Keyed.users [Instance 1; Instance 2; Instance 1; Ends 1] ∧
    (∀ p, p ∈ live s <-> ∃ t, t_value_ s !! t = Some p) ∧
    (∀ t t' p, t_value_ s !! t = Some p -> t_value_ s !! t' = Some p -> t = t').
Proof. exact (Keyed.tls_lifetime (K := option (gmap Z Z)) [Instance 1; Instance 2; Instance 1; Ends 1]). Defined.
