(* ===== verification/CopyOnWrite.v ===== *)
(** Sharing a list between threads: the exercises [ch2/2.1.cpp] (a mutex held during the
    traversal) and [ch2/2.8.cpp] (a [shared_ptr] copied under the mutex, and copy-on-write).
    Threads are interleaved steps, where a critical section is one step; vectors live at
    addresses, and a [shared_ptr]'s count is the number of its holders. *)
From stdpp Require Export sets fin_sets.
From S2P Require Import Prelude.
Open Scope list_scope.

Abbreviation Foo := Z (only parsing).

(** * 2.1: the mutex is held while [doit] runs *)

Module Locked.

(** The mutex and the vector.  [None]: the thread waits for a mutex it holds itself. *)
Record State := mkState { locked : bool; foos : list Foo }.

Definition MutexLockGuard {A} (m : State -> option (A * State)) (s : State) : option (A * State) :=
  if locked s then None
  else match m (mkState true (foos s)) with
       | Some (a, s') => Some (a, mkState false (foos s'))
       | None => None
       end.

Definition post (f : Foo) : State -> option (unit * State) :=
  MutexLockGuard (λ s, Some (tt, mkState (locked s) (foos s ++ [f]))).

(** [it->doit()], which may post. *)
Definition doit (body : Foo -> option Foo) (f : Foo) (s : State) : option (unit * State) :=
  match body f with Some g => post g s | None => Some (tt, s) end.

Fixpoint each (body : Foo -> option Foo) (l : list Foo) (s : State) : option (unit * State) :=
  match l with
  | [] => Some (tt, s)
  | f :: l' => match doit body f s with Some (_, s') => each body l' s' | None => None end
  end.

Definition traverse (body : Foo -> option Foo) : State -> option (unit * State) :=
  MutexLockGuard (λ s, each body (foos s) s).

(** The traversal comes to an end exactly when no [doit] posts. *)
Lemma traverse_deadlock body l :
  is_Some (traverse body (mkState false l)) <-> Forall (λ f, body f = None) l.
Proof.
  unfold traverse, MutexLockGuard. simpl.
  assert (∀ l' s, locked s = true -> match each body l' s with Some _ => Forall (λ f, body f = None) l' | None => ¬ Forall (λ f, body f = None) l' end) as H.
  { induction l' as [|f l' IH]; intros s Hs; simpl; [constructor|]. unfold doit. destruct (body f) as [g|] eqn:E.
    - unfold post, MutexLockGuard. rewrite Hs. intros [? _]%Forall_cons. congruence.
    - specialize (IH s Hs). destruct (each body l' s); [by constructor|]. by intros [_ ?]%Forall_cons. }
  specialize (H l (mkState true l) eq_refl). destruct (each body l (mkState true l)) as [[u s]|].
  - split; [done|]. intros _. by eexists.
  - split; [by intros []|done].
Qed.
End Locked.

(** * 2.8: copy-on-write *)

(** [g_foos], the vectors, the local [foos] and position of the traversals under way, with
    what each has visited.  [snapshots] and [finished] record what the list was when a
    traversal began, and the traversals that ended. *)
Record State := mkState {
  g_foos : Z;
  heap : gmap Z (list Foo);
  traversals : gmap Z (Z * nat);
  visited : gmap Z (list Foo);
  snapshots : gmap Z (list Foo);
  finished : list (list Foo * list Foo) }.

(** [g_foos] has been given an empty vector, which the exercise leaves to the reader. *)
Definition initial : State := mkState 0 {[0 := []]} ∅ ∅ ∅ [].

(** The number of shared pointers to a vector. *)
Definition use_count (p : Z) (s : State) : nat :=
  ((if decide (g_foos s = p) then 1 else 0) + size (filter (λ x : Z * (Z * nat), x.2.1 = p) (traversals s)))%nat.

(** [g_foos.unique()] *)
Definition unique (s : State) : bool := bool_decide (use_count (g_foos s) s = 1%nat).

(** A pointer is gone: the vector of the last one is freed. *)
Definition release (p : Z) (s : State) : State :=
  if decide (use_count p s = 0%nat) then
    mkState (g_foos s) (delete p (heap s)) (traversals s) (visited s) (snapshots s) (finished s)
  else s.

(** The first block of [traverse]. *)
Definition begin_traverse (t : Z) : M State unit :=
  s ← get;
  l ← of_option UB (heap s !! g_foos s);
  let s' := mkState (g_foos s) (heap s) (<[t := (g_foos s, O)]> (traversals s)) (<[t := []]> (visited s))
              (<[t := l]> (snapshots s)) (finished s) in
  put s' ;;
  assert (negb (unique s')).

(** One turn of the loop, or the end of [traverse], where [foos] is destroyed. *)
Definition continue_traverse (t : Z) (p : Z) (i : nat) : M State unit :=
  s ← get;
  l ← of_option UB (heap s !! p);
  match l !! i with
  | Some f =>
      put (mkState (g_foos s) (heap s) (<[t := (p, S i)]> (traversals s))
             (<[t := default [] (visited s !! t) ++ [f]]> (visited s)) (snapshots s) (finished s))
  | None =>
      put (release p (mkState (g_foos s) (heap s) (delete t (traversals s)) (delete t (visited s)) (delete t (snapshots s))
             (finished s ++ [(default [] (snapshots s !! t), default [] (visited s !! t))])))
  end.

(** [post(f)]; a new vector's address is any that is not in use. *)
Definition post (fresh : gmap Z (list Foo) -> Z) (f : Foo) : M State unit :=
  s ← get;
  (if unique s then mret tt
   else
     l ← of_option UB (heap s !! g_foos s);
     let p := fresh (heap s) in
     put (release (g_foos s) (mkState p (<[p := l]> (heap s)) (traversals s) (visited s) (snapshots s) (finished s)))) ;;
  s ← get;
  assert (unique s) ;;
  l ← of_option UB (heap s !! g_foos s);
  put (mkState (g_foos s) (<[g_foos s := l ++ [f]]> (heap s)) (traversals s) (visited s) (snapshots s) (finished s)).

(** Any thread's next step: it goes on with its traversal or begins one, or posts - also from
    within [doit]. *)
Inductive Event := ETraverse (t : Z) | EPost (f : Foo).

Definition handle (fresh : gmap Z (list Foo) -> Z) (ev : Event) : M State unit :=
  match ev with
  | ETraverse t =>
      s ← get;
      match traversals s !! t with
      | None => begin_traverse t
      | Some (p, i) => continue_traverse t p i
      end
  | EPost f => post fresh f
  end.

(** * Properties *)

Definition posted (evs : list Event) : list Foo :=
  omap (λ ev, match ev with EPost f => Some f | ETraverse _ => None end) evs.

(** The vectors of the traversals under way are as they were; all others are [g_foos]'s. *)
Record cow_inv (l : list Foo) (s : State) : Prop := {
  c_global : heap s !! g_foos s = Some l;
  c_traversal t p i : traversals s !! t = Some (p, i) ->
    ∃ sn, heap s !! p = Some sn ∧ snapshots s !! t = Some sn ∧ visited s !! t = Some (take i sn) ∧ (i <= length sn)%nat;
  c_finished : Forall (λ x, x.1 = x.2) (finished s) }.

Section cow.
Context (fresh : gmap Z (list Foo) -> Z) (Hfresh : ∀ h, h !! fresh h = None).

Lemma unique_spec s :
  unique s = true <-> ∀ t p i, traversals s !! t = Some (p, i) -> p ≠ g_foos s.
Proof.
  unfold unique, use_count. rewrite bool_decide_eq_true, decide_True by done. split.
  - intros E t p i Ht ->. assert (filter (λ x : Z * (Z * nat), x.2.1 = g_foos s) (traversals s) = ∅) as Hf
      by (apply map_size_empty_inv; lia).
    apply (f_equal (.!! t)) in Hf. rewrite lookup_empty in Hf. apply map_lookup_filter_None in Hf as [Hf|Hf]; [congruence|].
    by eapply Hf.
  - intros Hn. replace (filter _ _) with (∅ : gmap Z (Z * nat)); [by rewrite map_size_empty|].
    symmetry. apply map_empty. intros t. apply map_lookup_filter_None. right. intros [p i] Ht. simpl. by eapply Hn.
Qed.

Lemma use_count_zero p s :
  use_count p s = 0%nat -> g_foos s ≠ p ∧ ∀ t i, traversals s !! t ≠ Some (p, i).
Proof.
  unfold use_count. case_decide as Hg; [lia|]. intros E. split; [done|]. intros t i Ht.
  assert (filter (λ x : Z * (Z * nat), x.2.1 = p) (traversals s) = ∅) as Hf by (apply map_size_empty_inv; lia).
  apply (f_equal (.!! t)) in Hf. rewrite lookup_empty in Hf. apply map_lookup_filter_None in Hf as [Hf|Hf]; [congruence|].
  by eapply Hf.
Qed.

Lemma release_inv l p s : cow_inv l s -> cow_inv l (release p s).
Proof.
  intros [Hg Ht Hf]. unfold release. case_decide as Hu; [|done]. apply use_count_zero in Hu as [Hne Hn].
  split; simpl; [by rewrite lookup_delete_ne| |done]. intros t q i Hq. destruct (Ht t q i Hq) as (sn & E & ?).
  exists sn. rewrite lookup_delete_ne; [done|]. intros ->. by destruct (Hn t i).
Qed.

Lemma begin_inv l t s :
  cow_inv l s -> traversals s !! t = None ->
  ∃ s', begin_traverse t s = Ok (tt, s') ∧ cow_inv l s' ∧ finished s' = finished s.
Proof.
  intros [Hg Ht Hf] Hn. unfold begin_traverse. rewrite (bind_Ok _ _ s s s) by done. rewrite Hg. cbn [of_option].
  rewrite (bind_Ok _ _ s l s) by done. set (s1 := mkState _ _ _ _ _ _). rewrite (bind_Ok _ _ s tt s1) by done.
  exists s1. split; [|split; [split|]]; simpl; try done.
  - apply assert_Ok. destruct (unique s1) eqn:E; [|done]. apply unique_spec with (t := t) (p := g_foos s) (i := 0%nat) in E; [done|].
    apply lookup_insert_eq.
  - intros t' p i [[<- [= <- <-]]|[Hne E]]%lookup_insert_Some.
    + exists l. rewrite !lookup_insert_eq. split_and!; [done..|lia].
    + rewrite !lookup_insert_ne by done. by apply Ht.
Qed.

Lemma continue_inv l t p i s :
  cow_inv l s -> traversals s !! t = Some (p, i) ->
  ∃ s', continue_traverse t p i s = Ok (tt, s') ∧ cow_inv l s'.
Proof.
  intros [Hg Ht Hf] E. destruct (Ht t p i E) as (sn & Hp & Hs & Hv & Hi).
  unfold continue_traverse. rewrite (bind_Ok _ _ s s s) by done. rewrite Hp. cbn [of_option].
  rewrite (bind_Ok _ _ s sn s) by done. rewrite Hs, Hv. destruct (sn !! i) as [f|] eqn:Ef.
  - eexists; split; [done|]. split; simpl; try done.
    intros t' q j [[<- [= <- <-]]|[Hne E']]%lookup_insert_Some.
    + exists sn. rewrite lookup_insert_eq. split_and!; [done..| |by apply lookup_lt_Some in Ef].
      cbn [default]. by rewrite (take_S_r _ _ _ Ef).
    + rewrite !lookup_insert_ne by done. by apply Ht.
  - eexists; split; [done|]. apply release_inv. apply lookup_ge_None in Ef.
    split; simpl; [done| |].
    + intros t' q j [Hne E']%lookup_delete_Some. rewrite !lookup_delete_ne by done. by apply Ht.
    + apply Forall_app. split; [done|]. repeat constructor. simpl. by rewrite take_ge.
Qed.

Lemma post_inv l f s :
  cow_inv l s -> ∃ s', post fresh f s = Ok (tt, s') ∧ cow_inv (l ++ [f]) s'.
Proof.
  intros Hi. unfold post. rewrite (bind_Ok _ _ s s s) by done.
  assert (∃ s1, (if unique s then mret tt
     else l ← of_option UB (heap s !! g_foos s);
          put (release (g_foos s) (mkState (fresh (heap s)) (<[fresh (heap s) := l]> (heap s)) (traversals s) (visited s)
                 (snapshots s) (finished s)))) s = Ok (tt, s1) ∧ cow_inv l s1 ∧ unique s1 = true) as (s1 & E & Hi1 & Hu).
  { destruct (unique s) eqn:Hu; [by exists s|]. pose proof Hi as [Hg Ht Hf]. rewrite Hg. cbn [of_option].
    rewrite (bind_Ok _ _ s l s) by done. set (p := fresh (heap s)). assert (heap s !! p = None) as Hp by apply Hfresh.
    set (s1 := mkState p (<[p := l]> (heap s)) (traversals s) (visited s) (snapshots s) (finished s)).
    exists (release (g_foos s) s1). split; [done|]. assert (cow_inv l s1) as Hi1.
    { split; simpl; [apply lookup_insert_eq| |done]. intros t q i Eq. destruct (Ht t q i Eq) as (sn & E & ?).
      exists sn. rewrite lookup_insert_ne; [done|congruence]. }
    split; [by apply release_inv|]. unfold release.
    assert (unique s1 = true) as Hu1.
    { apply unique_spec. intros t q i Eq ->. destruct (Ht t _ i Eq) as (sn & E & _). simpl in E. congruence. }
    pose proof (proj1 (unique_spec s1) Hu1) as Hn. case_decide; [|done]. by apply unique_spec. }
  rewrite (bind_Ok _ _ _ _ _ E). rewrite (bind_Ok _ _ s1 s1 s1) by done.
  rewrite (bind_Ok _ _ s1 tt s1) by (by apply assert_Ok). destruct Hi1 as [Hg Ht Hf]. rewrite Hg. cbn [of_option].
  rewrite (bind_Ok _ _ s1 l s1) by done. eexists; split; [done|].
  split; simpl; [apply lookup_insert_eq| |done]. intros t p i Ep. destruct (Ht t p i Ep) as (sn & Es & ?).
  exists sn. rewrite lookup_insert_ne; [done|]. intros <-. by eapply (proj1 (unique_spec s1) Hu).
Qed.

Lemma handle_inv l ev s :
  cow_inv l s -> ∃ s', handle fresh ev s = Ok (tt, s') ∧ cow_inv (l ++ posted [ev]) s'.
Proof.
  intros Hi. destruct ev as [t|f]; simpl.
  - rewrite app_nil_r, (bind_Ok _ _ s s s) by done. destruct (traversals s !! t) as [[p i]|] eqn:E.
    + by apply continue_inv.
    + destruct (begin_inv l t s Hi E) as (s' & ? & ? & _). by exists s'.
  - by apply post_inv.
Qed.

Lemma cow_run_inv l evs s :
  cow_inv l s -> ∃ s', mapM_ (handle fresh) evs s = Ok (tt, s') ∧ cow_inv (l ++ posted evs) s'.
Proof.
  revert l s; induction evs as [|ev evs IH]; intros l s Hi; simpl; [exists s; by rewrite app_nil_r|].
  destruct (handle_inv l ev s Hi) as (s1 & E & Hi1). rewrite (bind_Ok _ _ _ _ _ E).
  destruct (IH _ _ Hi1) as (s2 & E2 & Hi2). exists s2. split; [done|].
  change (cow_inv (l ++ posted (ev :: evs)) s2).
  assert (posted (ev :: evs) = posted [ev] ++ posted evs) as -> by (unfold posted; by rewrite <- omap_app).
  by rewrite app_assoc.
Qed.

(** C32: With copy-on-write no thread waits for another's traversal and none is disturbed:
    however traversals and posts interleave - posts from within a traversal included - no
    assertion fails and no freed vector is touched, every traversal that ends has visited
    exactly the list as it was when it began, in order, and the list is at every moment all that was
    posted. *)
Theorem copy_on_write evs :
  ∃ s, mapM_ (handle fresh) evs initial = Ok (tt, s) ∧
    heap s !! g_foos s = Some (posted evs) ∧ Forall (λ x, x.2 = x.1) (finished s) ∧
    ∀ t sn v, snapshots s !! t = Some sn -> visited s !! t = Some v -> is_Some (traversals s !! t) -> v `prefix_of` sn.
Proof.
  destruct (cow_run_inv [] evs initial) as (s & E & [Hg Ht Hf]); [by split|]. exists s. split_and!; [done..| |].
  - by eapply Forall_impl.
  - intros t sn v Hs Hv [[p i] Hp]. destruct (Ht t p i Hp) as (sn' & _ & E1 & E2 & _).
    rewrite Hs in E1. rewrite Hv in E2. simplify_eq. apply prefix_take.
Qed.
End cow.

(** The smallest address above those in use. *)
Definition next_address (h : gmap Z (list Foo)) : Z := fresh (dom h).

Lemma copy_on_write_witness :
  (∀ h, h !! next_address h = None) ∧
  ∃ s, mapM_ (handle next_address) [EPost 1; EPost 2; ETraverse 7; ETraverse 7; EPost 3; ETraverse 7; ETraverse 7] initial = Ok (tt, s) ∧
    heap s !! g_foos s = Some [1; 2; 3] ∧ Forall (λ x, x.2 = x.1) (finished s) ∧
    ∀ t sn v, snapshots s !! t = Some sn -> visited s !! t = Some v -> is_Some (traversals s !! t) -> v `prefix_of` sn.
Proof.
  assert (∀ h, h !! next_address h = None) as Hn.
  { intros h. unfold next_address. apply not_elem_of_dom. apply is_fresh. }
  split; [exact Hn|]. exact (copy_on_write next_address Hn [EPost 1; EPost 2; ETraverse 7; ETraverse 7; EPost 3; ETraverse 7; ETraverse 7]).
Defined.

Example copy_on_write_run :
  match mapM_ (handle next_address) [EPost 1; EPost 2; ETraverse 7; ETraverse 7; EPost 3; ETraverse 7; ETraverse 7] initial with
  | Ok (_, s) => finished s = [([1; 2], [1; 2])] ∧ size (heap s) = 1%nat
  | Fault _ => False
  end.
Proof. vm_compute. done. Qed.
