(* ===== verification/Inventory.v ===== *)
(** The inventory of requests, [ch2/2.1.cpp] and the first solution of [ch2/2.8.cpp]: two
    classes with a mutex each that call one another.  A function is the list of what it does
    with mutexes, set and objects; threads take turns, one action at a time.  [muduo::MutexLock]
    is not recursive. *)
From stdpp Require Export sets fin_sets.
From S2P Require Import Prelude.
Open Scope list_scope.

(** * The code *)

Inductive Instr :=
| LockInventory | UnlockInventory
| LockRequest (r : Z) | UnlockRequest (r : Z)
| Insert (r : Z) | Erase (r : Z)      (* requests_.insert(req), requests_.erase(req) *)
| Copy                                (* requests = requests_ *)
| PrintCopy                           (* the loop over the copy *)
| PrintSet                            (* the loop over requests_ itself *)
| Delete (r : Z).                     (* the end of the object *)

#[export] Instance Instr_eq_dec : EqDecision Instr.
Proof. solve_decision. Defined.

(** [muduo::MutexLockGuard lock(mutex_)] around a block, in either class. *)
Definition guard_inventory (block : list Instr) : list Instr := LockInventory :: block ++ [UnlockInventory].
Definition guard_request (this : Z) (block : list Instr) : list Instr := LockRequest this :: block ++ [UnlockRequest this].

(** [Inventory::add] and [remove]. *)
Definition add (req : Z) : list Instr := guard_inventory [Insert req].
Definition remove (req : Z) : list Instr := guard_inventory [Erase req].

(** [Request]: what it prints is not in the exercise. *)
Definition print (this : Z) : list Instr := guard_request this [].
Definition process (this : Z) : list Instr := guard_request this (add this).
Definition destroy (this : Z) : list Instr := guard_request this (remove this) ++ [Delete this].

(** [Inventory::printAll] of [2.1.cpp], and of [2.8.cpp]. *)
Definition printAll_locked : list Instr := guard_inventory [PrintSet].
Definition printAll : list Instr := guard_inventory [Copy] ++ [PrintCopy].

(** The destructor with its two lines exchanged, as a comment of [2.1.cpp] proposes. *)
Definition destroy_swapped (this : Z) : list Instr := remove this ++ guard_request this [] ++ [Delete this].

(** * The threads *)

(** A thread: what is left to do, and [printAll]'s local [requests]. *)
Record Thread := mkThread { code : list Instr; requests : list Z }.

(** Who holds the mutexes, the set, and the requests that have not been destroyed. *)
Record State := mkState {
  inventory_owner : option nat;
  request_owner : gmap Z nat;
  requests_ : gset Z;
  alive : gset Z;
  threads : list Thread }.

(** Thread [t] performs [i]: [None] if it has to wait. *)
Definition exec (t : nat) (i : Instr) (local : list Z) (k : list Instr) (s : State) : option (res State) :=
  let '(mkState io ro rs al ths) := s in
  let go := <[t := mkThread k local]> ths in
  match i with
  | LockInventory =>
      match io with None => Some (Ok (mkState (Some t) ro rs al go)) | Some _ => None end
  | UnlockInventory => Some (Ok (mkState None ro rs al go))
  | LockRequest r =>
      if bool_decide (r ∈ al) then
        match ro !! r with None => Some (Ok (mkState io (<[r := t]> ro) rs al go)) | Some _ => None end
      else Some (Fault UB)
  | UnlockRequest r =>
      if bool_decide (r ∈ al) then Some (Ok (mkState io (delete r ro) rs al go)) else Some (Fault UB)
  | Insert r => Some (Ok (mkState io ro ({[r]} ∪ rs) al go))
  | Erase r => Some (Ok (mkState io ro (rs ∖ {[r]}) al go))
  | Copy => Some (Ok (mkState io ro rs al (<[t := mkThread k (elements rs)]> ths)))
  | PrintCopy => Some (Ok (mkState io ro rs al (<[t := mkThread (concat (print <$> local) ++ k) local]> ths)))
  | PrintSet => Some (Ok (mkState io ro rs al (<[t := mkThread (concat (print <$> elements rs) ++ k) local]> ths)))
  | Delete r => if bool_decide (r ∈ al) then Some (Ok (mkState io ro rs (al ∖ {[r]}) go)) else Some (Fault UB)
  end.

Definition step (t : nat) (s : State) : option (res State) :=
  match threads s !! t with
  | Some (mkThread (i :: k) local) => exec t i local k s
  | _ => None
  end.

Definition steps (s s' : State) : Prop := ∃ t, step t s = Some (Ok s').

(** Threads with these programs, for requests that exist and are or are not in the set. *)
Definition start (rs al : gset Z) (programs : list (list Instr)) : State :=
  mkState None ∅ rs al ((λ c, mkThread c []) <$> programs).

Definition all_done (s : State) : Prop := ∀ t th, threads s !! t = Some th -> code th = [].

(** Some thread has not finished and none can go on. *)
Definition deadlocked (s : State) : Prop := ~ all_done s ∧ ∀ t, step t s = None.

(** * The order of the mutexes *)

(** Code that holds the inventory's mutex or not ([I]) and a request's or none ([R]): the set is
    used under the inventory's mutex only, a request's mutex is taken before the inventory's and
    never two of them at once. *)
Fixpoint ordered (I : bool) (R : option Z) (c : list Instr) : bool :=
  match c with
  | [] => negb I && bool_decide (R = None)
  | LockInventory :: k => negb I && ordered true R k
  | UnlockInventory :: k => I && ordered false R k
  | LockRequest r :: k => negb I && bool_decide (R = None) && ordered I (Some r) k
  | UnlockRequest r :: k => negb I && bool_decide (R = Some r) && ordered I None k
  | Insert _ :: k | Erase _ :: k | Copy :: k => I && ordered I R k
  | PrintCopy :: k | Delete _ :: k => negb I && bool_decide (R = None) && ordered I R k
  | PrintSet :: k => false
  end.

(** What the functions may be composed of. *)
Inductive Call := CAdd (r : Z) | CRemove (r : Z) | CPrint (r : Z) | CProcess (r : Z) | CDestroy (r : Z) | CPrintAll.

Definition call_code (c : Call) : list Instr :=
  match c with
  | CAdd r => add r
  | CRemove r => remove r
  | CPrint r => print r
  | CProcess r => process r
  | CDestroy r => destroy r
  | CPrintAll => printAll
  end.

Definition program (cs : list Call) : list Instr := concat (call_code <$> cs).

Lemma ordered_call c k : ordered false None (call_code c ++ k) = ordered false None k.
Proof. destruct c; simpl; by rewrite ?bool_decide_eq_true_2. Qed.

Lemma ordered_program cs : ordered false None (program cs) = true.
Proof. induction cs as [|c cs IH]; [done|]. unfold program. simpl. by rewrite ordered_call. Qed.

Lemma ordered_prints l k : ordered false None (concat (print <$> l) ++ k) = ordered false None k.
Proof. induction l as [|r l IH]; [done|]. simpl. rewrite !bool_decide_eq_true_2 by done. exact IH. Qed.

(** What a thread holds is what its code says. *)
Definition holds (s : State) (t : nat) (th : Thread) : Prop :=
  ∃ R, ordered (bool_decide (inventory_owner s = Some t)) R (code th) = true ∧
    ∀ r, request_owner s !! r = Some t <-> R = Some r.

Record locks_inv (s : State) : Prop := {
  li_threads : ∀ t th, threads s !! t = Some th -> holds s t th;
  li_inventory : ∀ t, inventory_owner s = Some t -> is_Some (threads s !! t);
  li_request : ∀ r t, request_owner s !! r = Some t -> is_Some (threads s !! t) }.

Lemma start_locks rs al cs : locks_inv (start rs al (program <$> cs)).
Proof.
  split; simpl; [|done|intros r t H; by rewrite lookup_empty in H].
  intros t th Ht. rewrite !list_lookup_fmap in Ht. destruct (cs !! t) as [c|]; [|done]. injection Ht as <-.
  exists None. split; [apply ordered_program|]. simpl. intros r. by rewrite lookup_empty.
Qed.

(** A step changes what its own thread holds only. *)
Lemma locks_update s s' t th' :
  locks_inv s -> is_Some (threads s !! t) -> threads s' = <[t := th']> (threads s) ->
  (∀ u, u ≠ t -> inventory_owner s' = Some u <-> inventory_owner s = Some u) ->
  (∀ u r, u ≠ t -> request_owner s' !! r = Some u <-> request_owner s !! r = Some u) ->
  holds s' t th' -> locks_inv s'.
Proof.
  intros [Hth Hio Hro] Ht E Hi Hr Hh. pose proof (lookup_lt_is_Some_1 _ _ Ht) as Hlt. split.
  - intros u th Hu. rewrite E in Hu. destruct (decide (u = t)) as [->|Hne].
    { rewrite list_lookup_insert_eq in Hu by done. by injection Hu as <-. }
    rewrite list_lookup_insert_ne in Hu by done. destruct (Hth u th Hu) as (R & Ho & HR).
    exists R. split; [|intros r; by rewrite Hr].
    by rewrite (bool_decide_ext _ _ (Hi u Hne)).
  - intros u Hu. rewrite E. destruct (decide (u = t)) as [->|Hne].
    + rewrite list_lookup_insert_eq by done. eauto.
    + rewrite list_lookup_insert_ne by done. apply Hio. by apply Hi.
  - intros r u Hu. rewrite E. destruct (decide (u = t)) as [->|Hne].
    + rewrite list_lookup_insert_eq by done. eauto.
    + rewrite list_lookup_insert_ne by done. apply (Hro r). by apply Hr.
Qed.

Ltac split_ordered H :=
  repeat match type of H with
  | (_ && _) = true => let H1 := fresh "Ho" in apply andb_true_iff in H as [H1 H]; try split_ordered H1
  | negb _ = true => apply negb_true_iff in H
  | bool_decide _ = true => apply bool_decide_eq_true in H
  | bool_decide _ = false => apply bool_decide_eq_false in H
  end.

Lemma step_locks t s s' : locks_inv s -> step t s = Some (Ok s') -> locks_inv s'.
Proof.
  intros Hi E. unfold step in E. destruct (threads s !! t) as [[[|i k] local]|] eqn:Ht; [done| |done].
  destruct (li_threads _ Hi t _ Ht) as (R & Ho & HR). simpl in Ho.
  assert (is_Some (threads s !! t)) as Hs by eauto.
  destruct s as [io ro rs al ths]. simpl in *.
  destruct i; simpl in E;
    try match type of E with context [bool_decide (?r ∈ al)] => destruct (bool_decide (r ∈ al)); [|discriminate E] end;
    split_ordered Ho.
  - (* LockInventory *)
    destruct io; [done|]. injection E as <-. eapply locks_update; [exact Hi|exact Hs|reflexivity|..]; simpl; try done.
    + intros u Hne. split; [intros [= <-]; done|done].
    + exists R. simpl. by rewrite bool_decide_eq_true_2.
  - (* UnlockInventory *)
    injection E as <-. eapply locks_update; [exact Hi|exact Hs|reflexivity|..]; simpl; try done.
    + intros u Hne. split; [done|]. intros ->. congruence.
    + by exists R.
  - (* LockRequest *)
    destruct (ro !! r) eqn:Er; [done|]. injection E as <-. eapply locks_update; [exact Hi|exact Hs|reflexivity|..]; simpl; try done.
    + intros u r' Hne. destruct (decide (r = r')) as [<-|]; [|by rewrite lookup_insert_ne].
      rewrite lookup_insert_eq, Er. split; [intros [= <-]; done|done].
    + exists (Some r). simpl. rewrite bool_decide_eq_false_2 in Ho |- * by done. split; [done|]. intros r'.
      destruct (decide (r = r')) as [<-|]; [by rewrite lookup_insert_eq|].
      rewrite lookup_insert_ne, HR by done. subst R. split; congruence.
  - (* UnlockRequest *)
    injection E as <-. subst R. assert (ro !! r = Some t) as Er by (by apply HR).
    eapply locks_update; [exact Hi|exact Hs|reflexivity|..]; simpl; try done.
    + intros u r' Hne. destruct (decide (r = r')) as [<-|]; [|by rewrite lookup_delete_ne].
      rewrite lookup_delete_eq, Er. split; [done|]. intros [= <-]. done.
    + exists None. simpl. rewrite bool_decide_eq_false_2 in Ho |- * by done. split; [done|]. intros r'.
      destruct (decide (r = r')) as [<-|]; [by rewrite lookup_delete_eq|].
      rewrite lookup_delete_ne, HR by done. split; congruence.
  - injection E as <-. eapply locks_update; [exact Hi|exact Hs|reflexivity|..]; simpl; try done. by exists R.
  - injection E as <-. eapply locks_update; [exact Hi|exact Hs|reflexivity|..]; simpl; try done. by exists R.
  - injection E as <-. eapply locks_update; [exact Hi|exact Hs|reflexivity|..]; simpl; try done. by exists R.
  - injection E as <-. eapply locks_update; [exact Hi|exact Hs|reflexivity|..]; simpl; try done.
    exists R. simpl. subst R. rewrite bool_decide_eq_false_2 in Ho |- * by done. by rewrite ordered_prints.
  - done.
  - injection E as <-. eapply locks_update; [exact Hi|exact Hs|reflexivity|..]; simpl; try done. by exists R.
Qed.

Lemma reachable_locks rs al cs s : rtc steps (start rs al (program <$> cs)) s -> locks_inv s.
Proof. apply rtc_invariant; [|apply start_locks]. intros x y Hx [t E]. by eapply step_locks. Qed.

(** Whoever holds the inventory's mutex can go on. *)
Lemma inventory_owner_runs s t : locks_inv s -> inventory_owner s = Some t -> ∃ x, step t s = Some x.
Proof.
  intros Hi Ho. destruct (li_inventory _ Hi t Ho) as [[c local] Ht].
  destruct (li_threads _ Hi t _ Ht) as (R & Hord & _). rewrite bool_decide_eq_true_2 in Hord by done. simpl in Hord.
  unfold step. rewrite Ht. destruct c as [|i k]; [done|]. destruct s as [io ro rs al ths].
  destruct i; simpl in *; try done; eauto.
Qed.

(** So, or somebody it waits for, can whoever holds a request's mutex. *)
Lemma request_owner_runs s r t : locks_inv s -> request_owner s !! r = Some t -> ∃ u x, step u s = Some x.
Proof.
  intros Hi Ho. destruct (li_request _ Hi r t Ho) as [[c local] Ht].
  destruct (li_threads _ Hi t _ Ht) as (R & Hord & HR). apply HR in Ho. subst R. simpl in Hord.
  destruct (inventory_owner s) as [u|] eqn:Eo.
  { destruct (inventory_owner_runs s u Hi Eo) as [x E]. eauto. }
  exists t. unfold step. rewrite Ht. destruct s as [io ro rs al ths]. simpl in *. subst io.
  destruct c as [|i k]; [done|]. destruct i; simpl in *; try done; [eauto|].
  destruct (bool_decide (r0 ∈ al)); eauto.
Qed.

Lemma not_deadlocked s : locks_inv s -> ~ deadlocked s.
Proof.
  intros Hi [Hnot Hstuck]. apply Hnot. intros t [c local] Ht. destruct c as [|i k]; [done|exfalso].
  assert (∀ u x, step u s = Some x -> False) as Hs by (intros u x E; by rewrite Hstuck in E).
  pose proof (Hstuck t) as E. unfold step in E. rewrite Ht in E. destruct s as [io ro rs al ths].
  destruct i; simpl in E; try case_bool_decide; try discriminate E.
  - destruct io as [u|] eqn:Eo; [|done]. destruct (inventory_owner_runs _ u Hi eq_refl). by eapply Hs.
  - destruct (ro !! r) as [u|] eqn:Er; [|done]. destruct (request_owner_runs _ r u Hi Er) as (v & x & Ex). by eapply Hs.
Qed.

(** * Completion *)

(** The requests an action speaks of, and whether it ends one. *)
Definition mentions (i : Instr) : list Z :=
  match i with
  | LockRequest r | UnlockRequest r | Insert r | Erase r | Delete r => [r]
  | _ => []
  end.

Definition harmless (al : gset Z) (i : Instr) : Prop :=
  match i with Delete _ => False | _ => ∀ r, r ∈ mentions i -> r ∈ al end.

(** How many steps an action can lead to, when there are [n] requests. *)
Definition weight (n : nat) (i : Instr) : nat := match i with PrintCopy => S (2 * n) | _ => 1 end.
Definition total (n : nat) (c : list Instr) : nat := sum_list (weight n <$> c).
#[global] Arguments total : simpl never.
Definition work (s : State) : nat := sum_list ((λ th, total (size (alive s)) (code th)) <$> threads s).

Lemma total_app n c1 c2 : total n (c1 ++ c2) = (total n c1 + total n c2)%nat.
Proof. unfold total. by rewrite fmap_app, sum_list_with_app. Qed.

Lemma total_cons n i k : total n (i :: k) = (weight n i + total n k)%nat.
Proof. done. Qed.

Lemma total_prints n l : total n (concat (print <$> l)) = (2 * length l)%nat.
Proof.
  induction l as [|r l IH]; [done|]. cbn [fmap list_fmap concat]. rewrite total_app, IH. unfold print, guard_request, total. simpl. lia.
Qed.

(** While no thread destroys a request: all of them exist, and copies are of them. *)
Record calm (s : State) : Prop := {
  ca_set : requests_ s ⊆ alive s;
  ca_threads : ∀ t th, threads s !! t = Some th ->
    Forall (harmless (alive s)) (code th) ∧ (length (requests th) <= size (alive s))%nat ∧
    (∀ r, r ∈ requests th -> r ∈ alive s) }.

Lemma work_update k l t th th' :
  l !! t = Some th -> (total k (code th') < total k (code th))%nat ->
  (sum_list ((λ th, total k (code th)) <$> <[t := th']> l) < sum_list ((λ th, total k (code th)) <$> l))%nat.
Proof.
  revert t. induction l as [|x l IH]; intros t Ht Hd; [done|].
  destruct t as [|t]; simpl in *; [injection Ht as ->; lia|]. apply Nat.add_lt_mono_l. exact (IH t Ht Hd).
Qed.

(** A step of a calm state: nothing fails, the state stays calm, and there is less to do. *)
Lemma calm_step t s x :
  calm s -> (∀ u th, threads s !! u = Some th -> ∃ I R, ordered I R (code th) = true) -> step t s = Some x ->
  ∃ s', x = Ok s' ∧ calm s' ∧ alive s' = alive s ∧ (work s' < work s)%nat.
Proof.
  intros [Hset Hth] Hord E. unfold step in E. destruct (threads s !! t) as [[[|i k] local]|] eqn:Ht; [done| |done].
  destruct (Hth t _ Ht) as (Hc & Hl & Hin). destruct (Hord t _ Ht) as (I & R & Ho). simpl in *.
  apply Forall_cons in Hc as [Hi Hk].
  assert (∀ io ro rs th', x = Ok (mkState io ro rs (alive s) (<[t := th']> (threads s))) ->
    rs ⊆ alive s -> Forall (harmless (alive s)) (code th') -> (length (requests th') <= size (alive s))%nat ->
    (∀ r, r ∈ requests th' -> r ∈ alive s) -> (total (size (alive s)) (code th') < total (size (alive s)) (i :: k))%nat ->
    ∃ s', x = Ok s' ∧ calm s' ∧ alive s' = alive s ∧ (work s' < work s)%nat) as Hgo.
  { intros io ro rs th' -> Hrs Hc' Hl' Hin' Hlt. eexists. split; [done|]. split_and!; [|done|].
    - split; [done|]. simpl. intros u th Hu. destruct (decide (u = t)) as [->|Hne].
      + rewrite list_lookup_insert_eq in Hu by (by apply lookup_lt_is_Some_1; eauto). by injection Hu as <-.
      + rewrite list_lookup_insert_ne in Hu by done. by apply (Hth u).
    - unfold work. simpl. by eapply work_update. }
  destruct s as [io ro rs al ths]. simpl in *.
  assert (total (size al) k < total (size al) (i :: k))%nat as Hk' by (rewrite total_cons; destruct i; cbn [weight]; lia).
  destruct i; simpl in E, Hi; try (rewrite bool_decide_eq_true_2 in E by (apply Hi; left)).
  - destruct io; [done|]. injection E as <-. by eapply Hgo.
  - injection E as <-. by eapply Hgo.
  - destruct (ro !! r); [done|]. injection E as <-. by eapply Hgo.
  - injection E as <-. by eapply Hgo.
  - injection E as <-. eapply Hgo; try done. apply union_least; [|done]. intros r' ->%elem_of_singleton. apply Hi. left.
  - injection E as <-. eapply Hgo; try done. set_solver.
  - injection E as <-. eapply Hgo; try done; simpl.
    + change (size rs <= size al)%nat. by apply subseteq_size.
    + intros r Hr. apply Hset. by apply elem_of_elements.
  - injection E as <-. eapply Hgo; try done; simpl.
    + apply Forall_app. split; [|done]. clear -Hin. induction local as [|r l IH]; [constructor|]. simpl.
      repeat constructor; [intros r' ->%list_elem_of_singleton; apply Hin; left..|].
      apply IH. intros r' Hr'. apply Hin. by right.
    + rewrite total_app, total_prints, total_cons. cbn [weight]. lia.
  - done.
  - done.
Qed.

(** * What holds of the inventory *)

(** C33: With [printAll] of [2.8.cpp] nobody waits for ever: whatever the threads call on the
    inventory and on requests, in whatever order they run, no state is a deadlock; and the
    set is only ever touched by the thread that holds the inventory's mutex. *)
Theorem inventory_deadlock_free rs al css s :
  rtc steps (start rs al (program <$> css)) s ->
  ~ deadlocked s ∧
  ∀ t i k local, threads s !! t = Some (mkThread (i :: k) local) ->
    (∃ r, i = Insert r) ∨ (∃ r, i = Erase r) ∨ i = Copy -> inventory_owner s = Some t.
Proof.
  intros Hr. apply reachable_locks in Hr as Hi. split; [by apply not_deadlocked|].
  intros t i k local Ht Hcase. destruct (li_threads _ Hi t _ Ht) as (R & Ho & _). simpl in Ho.
  destruct Hcase as [[r ->]|[[r ->]| ->]]; simpl in Ho; by apply andb_true_iff in Ho as [Ho%bool_decide_eq_true _].
Qed.

(** Calls that destroy no request, on requests that exist. *)
Definition harmless_call (al : gset Z) (c : Call) : Prop :=
  match c with
  | CAdd r | CRemove r | CPrint r | CProcess r => r ∈ al
  | CDestroy _ => False
  | CPrintAll => True
  end.

Lemma harmless_program al cs : Forall (harmless_call al) cs -> Forall (harmless al) (program cs).
Proof.
  induction 1 as [|c cs Hc Hcs IH]; [constructor|]. unfold program. simpl. apply Forall_app. split; [|exact IH].
  destruct c; simpl in Hc; try done; simpl; repeat constructor; simpl; try set_solver.
Qed.

Lemma start_calm rs al css :
  rs ⊆ al -> Forall (Forall (harmless_call al)) css -> calm (start rs al (program <$> css)).
Proof.
  intros Hrs Hc. split; [done|]. simpl. intros t th Ht. rewrite !list_lookup_fmap in Ht.
  destruct (css !! t) as [cs|] eqn:E; [|done]. injection Ht as <-. simpl. split; [|split; [lia|by intros r ?%elem_of_nil]].
  apply harmless_program. rewrite Forall_forall in Hc. apply Hc. by eapply list_elem_of_lookup_2.
Qed.

Lemma calm_steps n s s' :
  nsteps steps n s s' -> calm s -> locks_inv s ->
  calm s' ∧ locks_inv s' ∧ alive s' = alive s ∧ (n + work s' <= work s)%nat.
Proof.
  induction 1 as [s|n s1 s2 s3 [t E] _ IH]; intros Hc Hi; [split_and!; [done..|lia]|].
  destruct (calm_step t s1 (Ok s2) Hc) as (s2' & [= <-] & Hc2 & Ha & Hw); [|done|].
  { intros u th Hu. destruct (li_threads _ Hi u th Hu) as (R & Ho & _). eauto. }
  destruct (IH Hc2 (step_locks _ _ _ Hi E)) as (Hc3 & Hi3 & Ha3 & Hw3). split_and!; [done|done|congruence|lia].
Qed.

(** C34: As long as no request is destroyed every run comes to its end: no step touches a
    dead request, the number of steps is bounded by what the threads had to do at the start,
    and when no thread can go on all of them have finished. *)
Theorem inventory_completes rs al css n s :
  rs ⊆ al -> Forall (Forall (harmless_call al)) css ->
  nsteps steps n (start rs al (program <$> css)) s ->
  (n <= work (start rs al (program <$> css)))%nat ∧
  (∀ t x, step t s = Some x -> is_ok x = true) ∧
  ((∀ t, step t s = None) -> all_done s).
Proof.
  intros Hrs Hc Hr. destruct (calm_steps _ _ _ Hr (start_calm _ _ _ Hrs Hc) (start_locks _ _ _)) as (Hcalm & Hi & _ & Hw).
  split; [lia|]. split.
  - intros t x E. destruct (calm_step t s x Hcalm) as (s' & -> & _); [|done|done].
    intros u th Hu. destruct (li_threads _ Hi u th Hu) as (R & Ho & _). eauto.
  - intros Hstuck. destruct (decide (Forall (λ th, code th = []) (threads s))) as [Hall|Hn].
    + intros t th Ht. rewrite Forall_forall in Hall. apply Hall. by eapply list_elem_of_lookup_2.
    + exfalso. apply (not_deadlocked s Hi). split; [|done]. intros Hall. apply Hn. apply Forall_forall.
      intros th Hin. apply list_elem_of_lookup in Hin as [t Ht]. by apply (Hall t).
Qed.

(** ** Where the exercises go wrong *)

(** The threads take their turns in the given order. *)
Fixpoint run (ts : list nat) (s : State) : option State :=
  match ts with
  | [] => Some s
  | t :: ts' => match step t s with Some (Ok s') => run ts' s' | _ => None end
  end.

Lemma run_steps ts s s' : run ts s = Some s' -> nsteps steps (length ts) s s'.
Proof.
  revert s; induction ts as [|t ts IH]; intros s E; simpl in *; [injection E as <-; constructor|].
  destruct (step t s) as [[s1|]|] eqn:E1; [|done..]. econstructor; [by exists t|by apply IH].
Qed.

Lemma run_rtc ts s s' : run ts s = Some s' -> rtc steps s s'.
Proof. intros E. apply run_steps in E. by apply rtc_nsteps_2 in E. Qed.

(** In [2.1.cpp] [printAll] takes a request's mutex while it holds the inventory's, and
    [process] takes them the other way round: exchanging the two lines of the destructor does
    not help. *)
Theorem printAll_locked_deadlocks :
  ∃ s, rtc steps (start {[1]} {[1]} [printAll_locked; process 1 ++ destroy_swapped 1]) s ∧ deadlocked s.
Proof.
  destruct (run [0; 1; 0]%nat (start {[1]} {[1]} [printAll_locked; process 1 ++ destroy_swapped 1])) as [s|] eqn:E; [|vm_compute in E; discriminate].
  exists s. split; [by eapply run_rtc|]. vm_compute in E. injection E as <-. split.
  - intros H. by specialize (H 0%nat _ eq_refl).
  - intros [|[|t]]; reflexivity.
Qed.

(** The copy of [2.8.cpp] is one of pointers: a request can be destroyed before it is printed,
    the problem that exercise leaves for the next. *)
Theorem printAll_prints_destroyed :
  ∃ s, rtc steps (start {[1]} {[1]} [printAll; destroy 1]) s ∧ step 0 s = Some (Fault UB).
Proof.
  destruct (run [0; 0; 0; 1; 1; 1; 1; 1; 1; 0]%nat (start {[1]} {[1]} [printAll; destroy 1])) as [s|] eqn:E;
    [|vm_compute in E; discriminate].
  exists s. split; [by eapply run_rtc|]. vm_compute in E. injection E as <-. vm_compute. reflexivity.
Qed.

Lemma inventory_deadlock_free_witness :
  ∃ s, run [0; 1; 0; 0]%nat (start {[1]} {[1]} (program <$> [[CPrintAll]; [CProcess 1; CDestroy 1]])) = Some s ∧
    ~ deadlocked s.
Proof.
  destruct (run [0; 1; 0; 0]%nat (start {[1]} {[1]} (program <$> [[CPrintAll]; [CProcess 1; CDestroy 1]]))) as [s|] eqn:E;
    [|vm_compute in E; discriminate].
  exists s. split; [done|].
  apply (inventory_deadlock_free {[1]} {[1]} [[CPrintAll]; [CProcess 1; CDestroy 1]] s). by eapply run_rtc.
Defined.

Lemma inventory_completes_witness :
  ∃ s, run (replicate 5 1%nat ++ replicate 6 0%nat) (start ∅ {[1]} (program <$> [[CPrintAll]; [CProcess 1]])) = Some s ∧ all_done s.
Proof.
  destruct (run (replicate 5 1%nat ++ replicate 6 0%nat) (start ∅ {[1]} (program <$> [[CPrintAll]; [CProcess 1]]))) as [s|] eqn:E;
    [|vm_compute in E; discriminate].
  exists s. split; [done|].
  destruct (inventory_completes ∅ {[1]} [[CPrintAll]; [CProcess 1]] 11 s) as (_ & _ & H); [set_solver| |by apply (run_steps _ _ _ E)|].
  - repeat constructor; simpl; set_solver.
  - apply H. vm_compute in E. injection E as <-. intros [|[|t]]; reflexivity.
Defined.
